(* ===== verification/_CoqProject ===== *)
-Q . S2P
Prelude.v
Tokio.v
Net.v
IpText.v
Async.v
Serde.v
JsonText.v
Protocol.v
Ice.v
Relay.v
Rtc.v
Egress.v
Signaling.v
VirtualUdp.v
Supervisor.v
Pool.v
PeerProxy.v
ConsumerPath.v
ConsumerSystem.v
Tunnel.v
Socks5.v
ConsumerQuic.v
QuicSystem.v
Consumer.v
Setup.v
Freddie.v
Env.v
Main.v
UnitTests.v
SessionTests.v
