(* ===== verification/Prelude.v ===== *)
(** * Verification of the Unbounded peer proxy and consumer

    The program (the crate under [src/], module paths below are [src/src/*.rs])
    lets volunteers relay the traffic of censored users.  A _consumer_ finds a
    _peer proxy_ through the Freddie signaling service, the two open a WebRTC data
    channel, the peer proxy relays the channel's packets to an _egress_ server
    over a WebSocket, and the consumer's QUIC server sees the packets of all its
    peers on one virtual UDP socket.

    ** Parts, and the files that model them

    - [Prelude.v] (this file): [result] and [poll], the two error monads with their
      notations, bytes, big-endian numbers, machine widths, text splitting, the
      development's tactics and hint databases.
    - [Tokio.v]: the runtime's bounded and watch channels.  They are not part of
      the repository: [Mpsc] and [Watch] list the operations the program calls,
      [MpscSpec] and [WatchSpec] state their documented behaviour as a simulation by
      [Queue] and [WatchCell]; clients are proved against the interfaces, the two
      are instances.
    - [Net.v]: socket addresses; [IpText.v]: the standard library's parser of IP
      addresses.  [Serde.v]: JSON trees, what the derived (de)serialisers do with
      field names, order, duplicates, arrays and defaults; JSON text and Base64 are
      the interfaces [JsonText] and [Base64] with their round trips as laws;
      [JsonText.v] is a printer and reader of JSON text that satisfies them.
    - [Async.v]: async bodies as programs: a tree over the operations a body
      awaits; a run is any trace of answers.  A part next to the cancellation token
      ([select!]) may be cut at any of its awaits, and the program goes on behind it,
      so closing the connection is an operation of the trace like the others; [exec]
      runs a program against an environment.
    - [Protocol.v] ([protocol.rs]): packets, signaling envelopes, genesis messages,
      egress subprotocols.
    - [Ice.v] (the private message types of [peer_proxy.rs] and [consumer.rs]).
    - [Signaling.v] ([signaling.rs]): requests to Freddie, the interpretation of its
      answers, the stream of advertisements ([next]).
    - [Relay.v] ([relay.rs]): the transport trait as the class
      [DatagramTransport] and the relay loop; a schedule says which side of the
      [select!] is polled first and what the outside does in between.
    - [Rtc.v] ([rtc.rs]) and [Egress.v] ([egress.rs]): the two transports, each an
      instance of the class; the queue behind the data channel's callbacks, the
      WebSocket tunnel and its connection.
    - [VirtualUdp.v] ([virtual_udp.rs]): the socket, its routes and paths over a
      shared world of channels (the [Arc]s and [Sender]s are counted), every
      operation as a state transformer, [vstep] for their interleaving, and the
      module [Switch], the abstract datagram switch it implements.
    - [ConsumerPath.v] ([consumer_path.rs]): the allocator of synthetic addresses
      and the loop of a path, run on top of [VirtualUdp].
    - [Supervisor.v] and [Pool.v] ([supervisor.rs]): the retry loop with its jitter
      and accounting as a function of what the sessions return; the same loop as a
      step machine, and the pool of workers with their channels, interleaved.
    - [PeerProxy.v] ([peer_proxy.rs]): the session as a program, the connection's
      callbacks as a state machine over the state they share with it, and the
      supervisor applied to it.
    - [ConsumerSystem.v]: the consumer as one system, sessions that share one socket
      and one allocator, interleaved with each other and with Quinn;
      [Tunnel.v]: the transports a session boxes, and the tunnel from Quinn through
      data channel and relay to the egress.
    - [Socks5.v] ([consumer_socks5.rs]) over the interface [ByteStream];
      [ConsumerQuic.v] ([consumer_quic.rs]): broker, dialer, accept, and
      [connect_socks5]; [QuicSystem.v]: broker and dialers interleaved over the
      watch channel they share.
    - [Consumer.v] ([consumer.rs]): the choice of a peer, the session, the loop that
      keeps a path up.
    - [Setup.v]: the API objects the two sessions make their connections with, and the
      callbacks of the data channels a peer opens; [Freddie.v]: the signaling traits
      as classes, the HTTP client as their instance, and the sessions run on it.
    - [Env.v] and [Main.v] ([bin/peer-proxy.rs], [bin/wire-vectors.rs]): reading the
      environment, the process from start-up to its last line.
    - [UnitTests.v] and [SessionTests.v]: the crate's own tests, as definitions that
      evaluate to [true].

    ** What the theorems show

    - Packets.  The relay is transparent for all transports and schedules
      ([relay_transparent]); the data channel's queue loses packets only when full
      and never the close signal ([rtc_lossy_fifo], [close_signal_delivered]); the
      virtual socket, polled with any buffers, refines a lossy switch, so datagrams
      are not duplicated, reordered within a route, misrouted or altered but for the
      cut to a shorter buffer ([virtual_udp_refines_switch]), keeps its invariant in every reachable state
      ([reachable_state_sound]) and survives the loss and replacement of paths
      ([poll_recv_never_broken_pipe], [replacement_survives_old_drop],
      [drop_path_removes_only_own_route]); a path translates in both directions and
      puts into the socket exactly what its one source sent and there was room for
      ([ingress_translated], [egress_translated], [path_single_source]) and cleans up after itself ([path_end_keeps_socket]).
      Composed: sessions on one socket do not mix ([consumer_paths_isolated]), the
      routes are exactly the running paths ([consumer_routes_exact]), a peer proxy
      passes packets on as they are ([proxy_session_passes_packets]), and the tunnel
      as a whole adds nothing to the traffic ([tunnel_end_to_end]); these two observe
      what the data channels and the WebSocket's sink are given at the libraries'
      ends, and all the composed ones take Quinn's buffers to be of at least the MTU.
    - Sessions.  On every run, with any answers and any point of cancellation, the
      two functions make their calls in the order of the protocol and with the right
      parties, and close the connection they ran on ([session_follows_protocol],
      [consumer_session_follows_protocol]);
      what a consumer sends cannot inject into the egress handshake or the event
      stream ([egress_connect_no_injection], [peer_events_labelled]); the callbacks
      report connections and their loss consistently
      ([peer_disconnect_exactly_once], [data_channel_wait_first_wins]), except after a
      reconnection ([reconnection_loss_unreported]); the two ends
      agree on ICE candidates ([ice_candidates_roundtrip]).  On the HTTP client the
      sessions have the protocol's conversation ([proxy_http_conversation],
      [consumer_picks_advertised_peer]); the data channels' callbacks refine the
      machine the session theorems use ([data_channels_refine_callbacks]); no dialer
      misses a connection or outlives the broker ([dialer_no_lost_wakeup],
      [dialers_end_with_broker]).
    - Supervision.  Delays are the intended backoff ([backoff_schedule]), where a
      maximum below the initial delay is not kept ([small_maximum_exceeded]); logs and
      summaries balance ([supervise_accounting], [maintain_accounting]),
      cancellation is prompt ([supervise_stops]), the pool loses no event
      ([pool_forwards_every_event]).  The step machine returns what the loop returns
      ([machine_supervise_equiv]); in every interleaving the pool's events and totals
      balance ([pool_accounting]) and a cancelled pool returns ([pool_shuts_down]);
      the process reports all of it and exits ([main_reports], [main_exits]) and
      starts with settings in range only ([settings_well_typed]).
    - Wire formats and parsers.  Round trips ([wire_roundtrip],
      [connect_request_roundtrip]), independence of layout
      ([decode_layout_independent]), framing of the advertisement stream and its
      termination ([advertisement_framing], [next_terminates]), the SOCKS5 handshake
      against the RFC ([socks5_connect_sound], [socks5_connect_complete],
      [socks5_connect_refused]), exact reading of numbers ([env_numbers_exact]).

    ** Conventions, bounds and fuel

    A panic or a failed assertion is [None] of an [option]; a Rust [Result] is
    [result]; [poll] is a poll of a future.  [Vec<u8>] and [Bytes] are lists of
    bytes, a [String] its UTF-8 bytes.  Machine integers are [Z] at their width
    ([wrap]); counts of handles and queue lengths are [nat].  A [Duration] is its
    number of nanoseconds.  The loop of [AdvertisementStream::next] runs with fuel
    [stream_size], one more than the bytes buffered and the chunks still to come can
    use up ([next_terminates]); the other loops recurse on the sequence of inputs
    the outside provides, or on what has arrived.

    ** Not modelled

    The WebRTC, QUIC, WebSocket and HTTP stacks, the clock and the random generator
    (parameters, with the laws that are used as named hypotheses or classes); the
    [Debug] text of durations and addresses and the texts of library errors
    (parameters).  [lib.rs], which only declares modules, and the integration test
    of [tests/], whose subject is Quinn.  Callbacks of one connection are taken to
    run one at a time.  Memory orderings of the atomics are not modelled: each
    atomic operation is one step.  Of the crate's tests, those that need a real
    network are run against the models of the services they start.

    ** Plan

    What can still be added: the timing of retries and patience against a clock;
    the broker of [QuicSystem.v] as a refinement of [broker_run]; QUIC migration
    across paths in terms of [Switch]; an SDP-level account of the two sessions'
    negotiation with each other. *)
From stdpp Require Export base tactics option list list_numbers numbers gmap strings sets sorting.
From stdpp Require Import options.
From Stdlib Require Export ZArith Lia.
From Stdlib Require Export Strings.Byte.

(** The development's notations live in a scope of their own. *)
Declare Scope unbounded_scope.
Delimit Scope unbounded_scope with unb.
Open Scope unbounded_scope.

(** ** Results: Rust's [Result<A, E>] *)

Inductive result (A E : Type) : Type :=
| Ok (a : A)
| Err (e : E).
Arguments Ok {A E} a.
Arguments Err {A E} e.

#[export] Instance result_eq_dec {A E} `{EqDecision A, EqDecision E} :
  EqDecision (result A E).
Proof. solve_decision. Defined.

(** [c?] followed by [k]: the error is returned as it is. *)
Definition result_bind {A B E} (c : result A E) (k : A → result B E) : result B E :=
  match c with
  | Ok a => k a
  | Err e => Err e
  end.

(** [Result::map_err]. *)
Definition map_err {A E F} (f : E → F) (c : result A E) : result A F :=
  match c with
  | Ok a => Ok a
  | Err e => Err (f e)
  end.

(** [Option::ok_or]. *)
Definition ok_or {A E} (o : option A) (e : E) : result A E :=
  match o with
  | Some a => Ok a
  | None => Err e
  end.

Definition is_ok {A E} (c : result A E) : bool :=
  match c with Ok _ => true | Err _ => false end.

Definition is_err {A E} (c : result A E) : bool := negb (is_ok c).

Notation "'let?' x ':=' c 'in' k" := (result_bind c (λ x, k))
  (at level 10, x binder, c at level 100, k at level 200)
  : unbounded_scope.

Lemma result_bind_Ok_inv {A B E} (c : result A E) (k : A → result B E) (b : B) :
  result_bind c k = Ok b ↔ ∃ a, c = Ok a ∧ k a = Ok b.
Proof. destruct c; simpl; split; [eauto | by intros (? & [= ->] & ?) | done | by intros (? & ? & ?)]. Qed.

Lemma map_err_Ok_inv {A E F} (f : E → F) (c : result A E) (a : A) :
  map_err f c = Ok a ↔ c = Ok a.
Proof. destruct c; simpl; naive_solver. Qed.

Lemma ok_or_Ok_inv {A E} (o : option A) (e : E) (a : A) :
  ok_or o e = Ok a ↔ o = Some a.
Proof. destruct o; simpl; naive_solver. Qed.

(** Fallible code that also changes a state: the error keeps the changes made up
    to it. *)
Definition st_bind {S A B E} (c : S → result A E * S) (k : A → S → result B E * S)
    : S → result B E * S :=
  λ s, match c s with
       | (Ok a, s) => k a s
       | (Err e, s) => (Err e, s)
       end.

Definition st_lift {S A E} (c : result A E) : S → result A E * S := λ s, (c, s).

(** [c.map_err(f)] of such a computation. *)
Definition st_map_err {S A E F} (f : E → F) (c : S → result A E * S) : S → result A F * S :=
  λ s, let '(r, s) := c s in (map_err f r, s).

Notation "'let*' x ':=' c 'in' k" := (st_bind c (λ x, k))
  (at level 10, x binder, c at level 100, k at level 200)
  : unbounded_scope.

Lemma st_bind_Ok_inv {S A B E} (c : S → result A E * S) (k : A → S → result B E * S) s b s' :
  st_bind c k s = (Ok b, s') ↔ ∃ a s1, c s = (Ok a, s1) ∧ k a s1 = (Ok b, s').
Proof.
  unfold st_bind. split.
  - destruct (c s) as [[a|e] s1]; [eauto|by intros].
  - by intros (a & s1 & -> & ?).
Qed.

Lemma st_bind_step {S A B E} (c : S → result A E * S) (k : A → S → result B E * S) s a s1 :
  c s = (Ok a, s1) → st_bind c k s = k a s1.
Proof. unfold st_bind. by intros ->. Qed.

(** [std::task::Poll]. *)
Inductive poll (A : Type) : Type :=
| Ready (a : A)
| Pending.
Arguments Ready {A} a.
Arguments Pending {A}.

#[export] Instance poll_eq_dec {A} `{EqDecision A} : EqDecision (poll A).
Proof. solve_decision. Defined.

(** ** Automation

    [case_result] opens the next scrutinised [result], [option], [bool] or
    decision of the goal; [unb_solver] is the closing tactic of the routine
    cases. *)

Create HintDb unb discriminated.
Create Rewrite HintDb unb_len.

Ltac simpl_result :=
  repeat match goal with
  | H : result_bind _ _ = Ok _ |- _ => apply result_bind_Ok_inv in H as (? & ? & ?)
  | H : map_err _ _ = Ok _ |- _ => apply map_err_Ok_inv in H
  | H : ok_or _ _ = Ok _ |- _ => apply ok_or_Ok_inv in H
  | H : Ok _ = Ok _ |- _ => injection H as H
  | H : Err _ = Err _ |- _ => injection H as H
  | H : (_, _) = (_, _) |- _ => injection H as ? ?
  | H : Ok _ = Err _ |- _ => discriminate H
  | H : Err _ = Ok _ |- _ => discriminate H
  end.

(** Linear arithmetic with division and modulo by constants. *)
Ltac dlia := Z.div_mod_to_equations; lia.

Ltac unb_solver := simpl_result; simplify_eq/=; eauto with unb; naive_solver.

(** ** Bytes

    Rust's [u8] is [Byte.byte]; [Vec<u8>], [Bytes] and [&[u8]] are lists of
    them.  A Rust [String] is a Rocq [string], read as the sequence of its
    UTF-8 bytes. *)

Abbreviation bytes := (list byte).

#[export] Instance byte_eq_dec : EqDecision byte := Byte.byte_eq_dec.

Definition byte_val (b : byte) : Z := Z.of_N (Byte.to_N b).

(** Truncation to eight bits, Rust's [z as u8]. *)
Definition byte_wrap (z : Z) : byte :=
  match Byte.of_N (Z.to_N (z mod 256)) with
  | Some b => b
  | None => x00
  end.

Lemma byte_val_range b : (0 ≤ byte_val b < 256)%Z.
Proof. destruct b; unfold byte_val; simpl; lia. Qed.

Lemma byte_wrap_val b : byte_wrap (byte_val b) = b.
Proof. destruct b; reflexivity. Qed.

Lemma byte_val_wrap z : byte_val (byte_wrap z) = (z mod 256)%Z.
Proof.
  unfold byte_wrap, byte_val.
  pose proof (Z.mod_pos_bound z 256 ltac:(lia)) as Hb.
  destruct (Byte.of_N (Z.to_N (z mod 256))) as [b|] eqn:E.
  - apply Byte.to_of_N in E. rewrite E. lia.
  - apply Byte.of_N_None_iff in E. lia.
Qed.

#[export] Instance byte_val_inj : Inj (=) (=) byte_val.
Proof. intros a b H. by rewrite <- (byte_wrap_val a), <- (byte_wrap_val b), H. Qed.

Definition string_bytes (s : string) : bytes := String.list_byte_of_string s.
Definition bytes_string (b : bytes) : string := String.string_of_list_byte b.

Lemma bytes_string_bytes s : bytes_string (string_bytes s) = s.
Proof. apply String.string_of_list_byte_of_string. Qed.

Lemma string_bytes_string b : string_bytes (bytes_string b) = b.
Proof. apply String.list_byte_of_string_of_list_byte. Qed.

#[export] Instance string_bytes_inj : Inj (=) (=) string_bytes.
Proof. intros s t H. by rewrite <- (bytes_string_bytes s), <- (bytes_string_bytes t), H. Qed.

Lemma string_bytes_empty s : string_bytes s = [] ↔ s = "".
Proof.
  split; [|by intros ->].
  intros H. apply (inj string_bytes). by rewrite H.
Qed.

(** ** Big-endian encodings: [to_be_bytes] and [octets] *)

Fixpoint be_bytes (n : nat) (z : Z) : bytes :=
  match n with
  | O => []
  | S n' => byte_wrap (z / 256 ^ Z.of_nat n') :: be_bytes n' z
  end.

Fixpoint be_value (b : bytes) : Z :=
  match b with
  | [] => 0
  | x :: b' => byte_val x * 256 ^ Z.of_nat (length b') + be_value b'
  end.

Lemma length_be_bytes n z : length (be_bytes n z) = n.
Proof. induction n; simpl; congruence. Qed.
#[export] Hint Rewrite length_be_bytes : unb_len.

Lemma pow256_pos n : (0 < 256 ^ Z.of_nat n)%Z.
Proof. apply Z.pow_pos_nonneg; lia. Qed.
#[export] Hint Resolve pow256_pos : unb.

Lemma be_value_range b : (0 ≤ be_value b < 256 ^ Z.of_nat (length b))%Z.
Proof.
  induction b as [|x b IH]; simpl length; [simpl; lia|].
  cbn [be_value]. rewrite Nat2Z.inj_succ, Z.pow_succ_r by lia.
  pose proof (byte_val_range x). pose proof (pow256_pos (length b)). nia.
Qed.

Lemma be_value_be_bytes n z : be_value (be_bytes n z) = (z mod 256 ^ Z.of_nat n)%Z.
Proof.
  induction n as [|n IH]; [by rewrite Z.mod_1_r|].
  cbn [be_bytes be_value]. rewrite length_be_bytes, IH, byte_val_wrap.
  rewrite Nat2Z.inj_succ, Z.pow_succ_r, (Z.mul_comm 256) by lia.
  rewrite Z.rem_mul_r by (pose proof (pow256_pos n); lia). lia.
Qed.

Lemma be_value_be_bytes_small n z :
  (0 ≤ z < 256 ^ Z.of_nat n)%Z → be_value (be_bytes n z) = z.
Proof. intros H. rewrite be_value_be_bytes. by apply Z.mod_small. Qed.

(** ** Machine integers *)

Definition u8_max : Z := 2 ^ 8 - 1.
Definition u16_max : Z := 2 ^ 16 - 1.
Definition u32_max : Z := 2 ^ 32 - 1.
Definition u64_max : Z := 2 ^ 64 - 1.
Definition u128_max : Z := 2 ^ 128 - 1.

(** Wrap-around to [w] bits. *)
Definition wrap (w z : Z) : Z := z mod 2 ^ w.

Lemma wrap_small w z : (0 ≤ z < 2 ^ w)%Z → wrap w z = z.
Proof. apply Z.mod_small. Qed.

(** ** Lists *)

Lemma Forall_app_snoc {A} (P : A → Prop) (l : list A) (x : A) :
  Forall P l → P x → Forall P (l ++ [x]).
Proof. intros. apply Forall_app; auto. Qed.
#[export] Hint Resolve Forall_app_snoc : unb.

Lemma prefix_snoc_inv {A} (l k : list A) (x : A) :
  l `prefix_of` k → l `prefix_of` (k ++ [x]).
Proof. intros [m ->]. exists (m ++ [x]). by rewrite (assoc_L (++)). Qed.

Lemma forallb_true_Forall {A} (f : A → bool) (l : list A) :
  forallb f l = true ↔ Forall (λ x, f x = true) l.
Proof. induction l as [|x l IH]; simpl; [done|]. by rewrite andb_true_iff, IH, Forall_cons. Qed.

Lemma take_app_replicate {A} (l : list A) (x : A) k m m' :
  k ≤ m → k ≤ m' → take k (l ++ replicate m x) = take k (l ++ replicate m' x).
Proof. intros. rewrite !take_app, !take_replicate. do 2 f_equal. lia. Qed.

(** ** Splitting, joining and trimming text *)

(** [str::split] at a one-byte separator. *)
Fixpoint split_on (sep : byte) (b : bytes) : list bytes :=
  match b with
  | [] => [[]]
  | x :: b =>
      if decide (x = sep) then [] :: split_on sep b
      else match split_on sep b with
           | [] => [[x]]
           | w :: ws => (x :: w) :: ws
           end
  end.

Fixpoint drop_while {A} (f : A → bool) (l : list A) : list A :=
  match l with
  | [] => []
  | x :: l' => if f x then drop_while f l' else l
  end.

Definition trim_by {A} (f : A → bool) (l : list A) : list A :=
  reverse (drop_while f (reverse (drop_while f l))).

Lemma split_on_word sep w : sep ∉ w → split_on sep w = [w].
Proof.
  induction w as [|x w IH]; simpl; [done|]. intros [Hx Hw]%not_elem_of_cons.
  rewrite decide_False by congruence. by rewrite IH.
Qed.

Lemma split_on_app sep w rest :
  sep ∉ w → split_on sep (w ++ sep :: rest) = w :: split_on sep rest.
Proof.
  induction w as [|x w IH]; simpl; [by rewrite decide_True|]. intros [Hx Hw]%not_elem_of_cons.
  rewrite decide_False by congruence. by rewrite IH.
Qed.

Lemma drop_while_none {A} (f : A → bool) (l : list A) :
  Forall (λ x, f x = false) l → drop_while f l = l.
Proof. destruct 1 as [|x l Hx]; simpl; [done|]. by rewrite Hx. Qed.

Lemma trim_by_none {A} (f : A → bool) (l : list A) :
  Forall (λ x, f x = false) l → trim_by f l = l.
Proof.
  intros Hl. unfold trim_by. rewrite (drop_while_none f l) by done.
  rewrite drop_while_none by by apply Forall_reverse. apply reverse_involutive.
Qed.

Lemma trim_by_cons {A} (f : A → bool) (x : A) (l : list A) :
  f x = true → trim_by f (x :: l) = trim_by f l.
Proof. unfold trim_by. simpl. by intros ->. Qed.

Lemma string_bytes_app s t : string_bytes (s +:+ t) = string_bytes s ++ string_bytes t.
Proof.
  unfold string_bytes, String.list_byte_of_string. induction s as [|c s IH]; [done|].
  change (String c s +:+ t) with (String c (s +:+ t)). cbn. by rewrite IH.
Qed.
