(* ===== verification/Tokio.v ===== *)
(** The channel interface of the async runtime.

    The runtime crate is not part of the repository, so its channels are a
    parameter of the development: [Mpsc] lists the operations of
    [tokio::sync::mpsc] the program calls, and [MpscSpec] states their
    documented behaviour as a refinement of the bounded queue [Queue].  The
    components are written against [Mpsc] and proved against [MpscSpec];
    [Queue] itself is an instance, which the examples and witnesses run.  [Watch],
    [WatchSpec] and [WatchCell] are the same for [tokio::sync::watch]. *)
From S2P Require Import Prelude.

(** ** The documented behaviour: a bounded queue with two ends *)

Inductive TrySendError := TrySendFull | TrySendClosed.

#[export] Instance TrySendError_eq_dec : EqDecision TrySendError.
Proof. solve_decision. Defined.

(** [q_tx] counts the live [Sender] handles, [q_rx] is whether the [Receiver]
    is alive. *)
Record Queue (A : Type) := MkQueue {
  q_items : list A;
  q_cap : nat;
  q_tx : nat;
  q_rx : bool
}.
Arguments MkQueue {A} _ _ _ _.
Arguments q_items {A} _.
Arguments q_cap {A} _.
Arguments q_tx {A} _.
Arguments q_rx {A} _.

Section queue.
Context {A : Type}.
Implicit Types (q : Queue A) (x : A).

Definition q_new (cap : nat) : Queue A := MkQueue [] cap 1 true.

Definition q_try_send x q : result unit TrySendError * Queue A :=
  if q_rx q then
    if decide (length (q_items q) < q_cap q)
    then (Ok tt, MkQueue (q_items q ++ [x]) (q_cap q) (q_tx q) true)
    else (Err TrySendFull, q)
  else (Err TrySendClosed, q).

(** [Sender::send]: waits while the queue is full. *)
Definition q_poll_send x q : poll (result unit unit) * Queue A :=
  match q_try_send x q with
  | (Ok _, q) => (Ready (Ok tt), q)
  | (Err TrySendFull, q) => (Pending, q)
  | (Err TrySendClosed, q) => (Ready (Err tt), q)
  end.

Definition q_poll_recv q : poll (option A) * Queue A :=
  match q_items q with
  | x :: rest => (Ready (Some x), MkQueue rest (q_cap q) (q_tx q) (q_rx q))
  | [] => if decide (q_tx q = 0) then (Ready None, q) else (Pending, q)
  end.

Definition q_clone_tx q : Queue A :=
  MkQueue (q_items q) (q_cap q) (S (q_tx q)) (q_rx q).
Definition q_drop_tx q : Queue A :=
  MkQueue (q_items q) (q_cap q) (pred (q_tx q)) (q_rx q).
Definition q_drop_rx q : Queue A :=
  MkQueue [] (q_cap q) (q_tx q) false.

(** The well-formedness every operation keeps: never more items than slots. *)
Definition q_wf q : Prop := length (q_items q) ≤ q_cap q.

Lemma q_try_send_cases x q :
  (q_rx q = true ∧ length (q_items q) < q_cap q ∧
     q_try_send x q = (Ok tt, MkQueue (q_items q ++ [x]) (q_cap q) (q_tx q) true)) ∨
  (q_rx q = true ∧ q_cap q ≤ length (q_items q) ∧ q_try_send x q = (Err TrySendFull, q)) ∨
  (q_rx q = false ∧ q_try_send x q = (Err TrySendClosed, q)).
Proof.
  unfold q_try_send. destruct (q_rx q) eqn:E; [|naive_solver].
  case_decide; [left | right; left]; auto with lia.
Qed.

Lemma q_poll_recv_cases q :
  (∃ x rest, q_items q = x :: rest ∧
     q_poll_recv q = (Ready (Some x), MkQueue rest (q_cap q) (q_tx q) (q_rx q))) ∨
  (q_items q = [] ∧ q_tx q = 0 ∧ q_poll_recv q = (Ready None, q)) ∨
  (q_items q = [] ∧ q_tx q ≠ 0 ∧ q_poll_recv q = (Pending, q)).
Proof.
  unfold q_poll_recv. destruct (q_items q) as [|x rest]; [|naive_solver].
  case_decide; naive_solver.
Qed.

Lemma q_try_send_wf x q : q_wf q → q_wf (q_try_send x q).2.
Proof.
  unfold q_wf. destruct (q_try_send_cases x q) as [(?&?&->)|[(?&?&->)|(?&->)]]; simpl; auto.
  rewrite length_app; simpl; lia.
Qed.

Lemma q_poll_recv_wf q : q_wf q → q_wf (q_poll_recv q).2.
Proof.
  unfold q_wf.
  destruct (q_poll_recv_cases q) as [(x&r&Hq&->)|[(?&?&->)|(?&?&->)]]; simpl; auto.
  rewrite Hq; simpl; lia.
Qed.

Lemma q_drop_rx_wf q : q_wf (q_drop_rx q).
Proof. unfold q_wf; simpl; lia. Qed.

(** Every item that is received was queued: receiving keeps what holds of
    all items. *)
Lemma q_poll_recv_Forall (P : A → Prop) q :
  Forall P (q_items q) → Forall P (q_items (q_poll_recv q).2).
Proof.
  destruct (q_poll_recv_cases q) as [(x&r&Hq&->)|[(?&?&->)|(?&?&->)]]; simpl; auto.
  rewrite Hq. by intros [_ ?]%Forall_cons.
Qed.

Lemma q_try_send_Forall (P : A → Prop) x q :
  P x → Forall P (q_items q) → Forall P (q_items (q_try_send x q).2).
Proof.
  intros. destruct (q_try_send_cases x q) as [(?&?&->)|[(?&?&->)|(?&->)]]; simpl;
    auto with unb.
Qed.

Lemma q_try_send_ends x q :
  q_tx (q_try_send x q).2 = q_tx q ∧ q_rx (q_try_send x q).2 = q_rx q ∧
  q_cap (q_try_send x q).2 = q_cap q.
Proof.
  destruct (q_try_send_cases x q) as [(?&?&->)|[(?&?&->)|(?&->)]]; naive_solver.
Qed.

Lemma q_poll_recv_ends q :
  q_tx (q_poll_recv q).2 = q_tx q ∧ q_rx (q_poll_recv q).2 = q_rx q ∧
  q_cap (q_poll_recv q).2 = q_cap q.
Proof.
  destruct (q_poll_recv_cases q) as [(x&r&Hq&->)|[(?&?&->)|(?&?&->)]]; naive_solver.
Qed.
End queue.

#[export] Hint Resolve q_try_send_wf q_poll_recv_wf q_drop_rx_wf
  q_poll_recv_Forall q_try_send_Forall : unb.

(** ** The interface *)

(** The operations.  [mpsc_new cap] is [mpsc::channel(cap)]: one [Sender], one
    [Receiver]; handles are counted, so cloning and dropping them are
    operations too. *)
Class Mpsc (chan : Type → Type) := {
  mpsc_new : ∀ {A}, nat → chan A;
  mpsc_try_send : ∀ {A}, A → chan A → result unit TrySendError * chan A;
  mpsc_poll_send : ∀ {A}, A → chan A → poll (result unit unit) * chan A;
  mpsc_poll_recv : ∀ {A}, chan A → poll (option A) * chan A;
  mpsc_clone_tx : ∀ {A}, chan A → chan A;
  mpsc_drop_tx : ∀ {A}, chan A → chan A;
  mpsc_drop_rx : ∀ {A}, chan A → chan A
}.

(** What the runtime documents about them: each operation is simulated by the
    queue operation of the same name. *)
Class MpscSpec (chan : Type → Type) `{!Mpsc chan} := {
  view : ∀ {A}, chan A → Queue A;
  view_new : ∀ A cap, view (mpsc_new (A := A) cap) = q_new cap;
  view_try_send : ∀ A (x : A) c,
    (mpsc_try_send x c).1 = (q_try_send x (view c)).1 ∧
    view (mpsc_try_send x c).2 = (q_try_send x (view c)).2;
  view_poll_send : ∀ A (x : A) c,
    (mpsc_poll_send x c).1 = (q_poll_send x (view c)).1 ∧
    view (mpsc_poll_send x c).2 = (q_poll_send x (view c)).2;
  view_poll_recv : ∀ A (c : chan A),
    (mpsc_poll_recv c).1 = (q_poll_recv (view c)).1 ∧
    view (mpsc_poll_recv c).2 = (q_poll_recv (view c)).2;
  view_clone_tx : ∀ A (c : chan A), view (mpsc_clone_tx c) = q_clone_tx (view c);
  view_drop_tx : ∀ A (c : chan A), view (mpsc_drop_tx c) = q_drop_tx (view c);
  view_drop_rx : ∀ A (c : chan A), view (mpsc_drop_rx c) = q_drop_rx (view c)
}.

(** The queue implements its own interface. *)
#[export] Instance queue_mpsc : Mpsc Queue := {
  mpsc_new := @q_new;
  mpsc_try_send := @q_try_send;
  mpsc_poll_send := @q_poll_send;
  mpsc_poll_recv := @q_poll_recv;
  mpsc_clone_tx := @q_clone_tx;
  mpsc_drop_tx := @q_drop_tx;
  mpsc_drop_rx := @q_drop_rx
}.

#[export] Instance queue_mpsc_spec : MpscSpec Queue.
Proof. by refine {| view := λ A q, q |}. Defined.

Section derived.
Context {chan : Type → Type} `{MpscSpec chan} {A : Type}.
Implicit Types (c : chan A) (x : A).

Lemma mpsc_try_send_fst x c : (mpsc_try_send x c).1 = (q_try_send x (view c)).1.
Proof. apply view_try_send. Qed.
Lemma mpsc_try_send_snd x c : view (mpsc_try_send x c).2 = (q_try_send x (view c)).2.
Proof. apply view_try_send. Qed.
Lemma mpsc_poll_send_fst x c : (mpsc_poll_send x c).1 = (q_poll_send x (view c)).1.
Proof. apply view_poll_send. Qed.
Lemma mpsc_poll_send_snd x c : view (mpsc_poll_send x c).2 = (q_poll_send x (view c)).2.
Proof. apply view_poll_send. Qed.
Lemma mpsc_poll_recv_fst c : (mpsc_poll_recv c).1 = (q_poll_recv (view c)).1.
Proof. apply view_poll_recv. Qed.
Lemma mpsc_poll_recv_snd c : view (mpsc_poll_recv c).2 = (q_poll_recv (view c)).2.
Proof. apply view_poll_recv. Qed.
End derived.

Create Rewrite HintDb mpsc.
#[export] Hint Rewrite @view_new @mpsc_try_send_fst @mpsc_try_send_snd @mpsc_poll_send_fst @mpsc_poll_send_snd @mpsc_poll_recv_fst
  @mpsc_poll_recv_snd @view_clone_tx @view_drop_tx @view_drop_rx using apply _ : mpsc.

(** Rewrites every channel operation of the goal into the queue's. *)
Ltac mpsc_simpl := autorewrite with mpsc in *; simpl in *.

(** ** Watch channels

    [tokio::sync::watch]: one value with a version.  A receiver remembers the
    version it has seen; [borrow] reads the value and marks nothing as seen,
    [changed] is ready as soon as there is an unseen version, which it marks as
    seen, and fails when there is none and the sender is gone. *)

Record WatchCell (A : Type) := MkWatchCell {
  wc_value : A;
  wc_version : nat;
  wc_tx : bool
}.
Arguments MkWatchCell {A} _ _ _.
Arguments wc_value {A} _.
Arguments wc_version {A} _.
Arguments wc_tx {A} _.

Section watch_cell.
Context {A : Type}.
Definition wc_new (x : A) : WatchCell A := MkWatchCell x 0 true.
Definition wc_send_replace (x : A) (w : WatchCell A) : WatchCell A :=
  MkWatchCell x (S (wc_version w)) (wc_tx w).
Definition wc_drop_tx (w : WatchCell A) : WatchCell A := MkWatchCell (wc_value w) (wc_version w) false.
Definition wc_changed (seen : nat) (w : WatchCell A) : poll (result unit unit) * nat :=
  if decide (seen = wc_version w) then (if wc_tx w then Pending else Ready (Err tt), seen)
  else (Ready (Ok tt), wc_version w).
End watch_cell.

(** The operations the program calls; a receiver is the version it has seen, and a
    cloned one has seen the same. *)
Class Watch (wch : Type → Type) := {
  watch_new : ∀ {A}, A → wch A;
  watch_send_replace : ∀ {A}, A → wch A → wch A;
  watch_drop_tx : ∀ {A}, wch A → wch A;
  watch_borrow : ∀ {A}, wch A → A;
  watch_changed : ∀ {A}, nat → wch A → poll (result unit unit) * nat
}.

Class WatchSpec (wch : Type → Type) `{!Watch wch} := {
  cell : ∀ {A}, wch A → WatchCell A;
  cell_new : ∀ A (x : A), cell (watch_new x) = wc_new x;
  cell_send_replace : ∀ A (x : A) w, cell (watch_send_replace x w) = wc_send_replace x (cell w);
  cell_drop_tx : ∀ A (w : wch A), cell (watch_drop_tx w) = wc_drop_tx (cell w);
  cell_borrow : ∀ A (w : wch A), watch_borrow w = wc_value (cell w);
  cell_changed : ∀ A seen (w : wch A), watch_changed seen w = wc_changed seen (cell w)
}.

#[export] Instance cell_watch : Watch WatchCell := {
  watch_new := @wc_new;
  watch_send_replace := @wc_send_replace;
  watch_drop_tx := @wc_drop_tx;
  watch_borrow := @wc_value;
  watch_changed := @wc_changed
}.
#[export] Instance cell_watch_spec : WatchSpec WatchCell.
Proof. by refine {| cell := λ A w, w |}. Defined.

Create Rewrite HintDb watch.
#[export] Hint Rewrite @cell_new @cell_send_replace @cell_drop_tx using apply _ : watch.

(** Rewrites every operation of a watch channel into the cell's. *)
Ltac watch_simpl :=
  repeat rewrite cell_borrow in *; repeat rewrite cell_changed in *;
  autorewrite with watch in *; simpl in *.
