(* ===== verification/Net.v ===== *)
(** Socket addresses: the part of [std::net] the program uses.

    An IPv4 address is its 32-bit value, an IPv6 address its 128-bit value;
    ports are 16-bit.  [sa_wf] is the range the Rust types guarantee. *)
From S2P Require Import Prelude.

Inductive IpAddr :=
| V4 (addr : Z)
| V6 (addr : Z).

#[export] Instance IpAddr_eq_dec : EqDecision IpAddr.
Proof. solve_decision. Defined.

(** [SocketAddr]; the flow information and scope of an IPv6 socket address are
    part of its identity (they are compared and hashed). *)
Inductive SocketAddr :=
| SocketAddrV4 (ip port : Z)
| SocketAddrV6 (ip port flowinfo scope_id : Z).

#[export] Instance SocketAddr_eq_dec : EqDecision SocketAddr.
Proof. solve_decision. Defined.

#[export] Instance SocketAddr_countable : Countable SocketAddr.
Proof.
  refine (inj_countable'
    (λ a, match a with
          | SocketAddrV4 i p => inl (i, p)
          | SocketAddrV6 i p f s => inr (i, p, f, s)
          end)
    (λ e, match e with
          | inl (i, p) => SocketAddrV4 i p
          | inr (i, p, f, s) => SocketAddrV6 i p f s
          end) _).
  by intros [].
Defined.

(** [SocketAddr::new]. *)
Definition socket_addr_new (ip : IpAddr) (port : Z) : SocketAddr :=
  match ip with
  | V4 a => SocketAddrV4 a port
  | V6 a => SocketAddrV6 a port 0 0
  end.

Definition sa_ip (a : SocketAddr) : IpAddr :=
  match a with
  | SocketAddrV4 i _ => V4 i
  | SocketAddrV6 i _ _ _ => V6 i
  end.

Definition sa_port (a : SocketAddr) : Z :=
  match a with
  | SocketAddrV4 _ p => p
  | SocketAddrV6 _ p _ _ => p
  end.

Definition sa_wf (a : SocketAddr) : Prop :=
  match a with
  | SocketAddrV4 i p => (0 ≤ i ≤ u32_max ∧ 0 ≤ p ≤ u16_max)%Z
  | SocketAddrV6 i p _ _ => (0 ≤ i ≤ u128_max ∧ 0 ≤ p ≤ u16_max)%Z
  end.

(** [u32::from_be_bytes] of a dotted quad. *)
Definition ipv4 (a b c d : Z) : Z := a * 2 ^ 24 + b * 2 ^ 16 + c * 2 ^ 8 + d.

(** [Ipv4Addr::octets], [Ipv6Addr::octets] and [u16::to_be_bytes]. *)
Definition ipv4_octets (a : Z) : bytes := be_bytes 4 a.
Definition ipv6_octets (a : Z) : bytes := be_bytes 16 a.
Definition port_be_bytes (p : Z) : bytes := be_bytes 2 p.

Lemma be_value_ipv4_octets a : (0 ≤ a ≤ u32_max)%Z → be_value (ipv4_octets a) = a.
Proof. intros. apply be_value_be_bytes_small. unfold u32_max in *. simpl; lia. Qed.

Lemma be_value_ipv6_octets a : (0 ≤ a ≤ u128_max)%Z → be_value (ipv6_octets a) = a.
Proof. intros. apply be_value_be_bytes_small. unfold u128_max in *. simpl; lia. Qed.

Lemma be_value_port p : (0 ≤ p ≤ u16_max)%Z → be_value (port_be_bytes p) = p.
Proof. intros. apply be_value_be_bytes_small. unfold u16_max in *. simpl; lia. Qed.
