(* ===== verification/IpText.v ===== *)
(** IP literals as the standard library reads them: [str::parse::<IpAddr>].

    The library's parser tries the dotted-quad form, then the IPv6 form, and the
    literal must be the whole text.  Each reader returns what it read and the rest
    of the text, or nothing. *)
From S2P Require Import Prelude Net.

(** [char::to_digit]. *)
Definition to_digit (radix : Z) (b : byte) : option Z :=
  let v := byte_val b in
  let d := (if decide (48 ≤ v ≤ 57) then v - 48
            else if decide (97 ≤ v ≤ 122) then v - 87
            else if decide (65 ≤ v ≤ 90) then v - 55 else radix)%Z in
  if decide (d < radix)%Z then Some d else None.

(** At most [max_digits] digits; one too many is a failure. *)
Fixpoint read_digit_run (radix : Z) (max_digits count : nat) (acc : Z) (s : bytes)
    : option (nat * Z * bytes) :=
  match s with
  | [] => Some (count, acc, [])
  | b :: r =>
      match to_digit radix b with
      | None => Some (count, acc, s)
      | Some d =>
          if decide (max_digits < S count) then None
          else read_digit_run radix max_digits (S count) (acc * radix + d) r
      end
  end.

Definition read_number (radix : Z) (max_digits : nat) (allow_zero_prefix : bool) (max : Z) (s : bytes)
    : option (Z * bytes) :=
  '(count, n, r) ← read_digit_run radix max_digits 0 0 s;
  if decide (count = 0) then None
  else if negb allow_zero_prefix && bool_decide (head s = Some x30) && bool_decide (1 < count) then None
  else if decide (n ≤ max)%Z then Some (n, r) else None.

Definition read_given_char (c : byte) (s : bytes) : option bytes :=
  match s with
  | b :: r => if decide (b = c) then Some r else None
  | [] => None
  end.

(** The separator stands before every part but the first. *)
Definition read_separator {A} (sep : byte) (i : nat) (inner : bytes → option (A * bytes)) (s : bytes)
    : option (A * bytes) :=
  match i with
  | O => inner s
  | S _ => r ← read_given_char sep s; inner r
  end.

Definition read_octet (i : nat) : bytes → option (Z * bytes) :=
  read_separator x2e i (read_number 10 3 false u8_max).

Definition read_ipv4_addr (s : bytes) : option (Z * bytes) :=
  '(a, s) ← read_octet 0 s;
  '(b, s) ← read_octet 1 s;
  '(c, s) ← read_octet 2 s;
  '(d, s) ← read_octet 3 s;
  Some (ipv4 a b c d, s).

(** Up to [slots] groups from the [i]-th on, and whether an IPv4 address ended
    them, which takes the place of two. *)
Fixpoint read_groups (slots i : nat) (s : bytes) : list Z * bool * bytes :=
  match slots with
  | O => ([], false, s)
  | S more =>
      match (if decide (more = 0) then None else read_separator x3a i read_ipv4_addr s) with
      | Some (v4, r) => ([v4 / 65536; v4 mod 65536]%Z, true, r)
      | None =>
          match read_separator x3a i (read_number 16 4 true u16_max) s with
          | Some (g, r) =>
              let '(gs, v4, r) := read_groups more (S i) r in (g :: gs, v4, r)
          | None => ([], false, s)
          end
      end
  end.

(** The value of eight 16-bit groups. *)
Definition groups_value (gs : list Z) : Z := foldl (λ a g, a * 65536 + g)%Z 0%Z gs.

Definition read_ipv6_addr (s : bytes) : option (Z * bytes) :=
  let '(front, v4, r) := read_groups 8 0 s in
  if decide (length front = 8) then Some (groups_value front, r)
  else if v4 : bool then None
  else
    r ← read_given_char x3a r;
    r ← read_given_char x3a r;
    let '(back, _, r) := read_groups (8 - (length front + 1)) 0 r in
    Some (groups_value (front ++ replicate (8 - length front - length back) 0%Z ++ back), r).

Definition read_ip_addr (s : bytes) : option (IpAddr * bytes) :=
  match read_ipv4_addr s with
  | Some (a, r) => Some (V4 a, r)
  | None => '(a, r) ← read_ipv6_addr s; Some (V6 a, r)
  end.

Definition parse_ip (s : string) : option IpAddr :=
  match read_ip_addr (string_bytes s) with
  | Some (ip, []) => Some ip
  | _ => None
  end.

Example parses_ip_literals :
  parse_ip "203.0.113.8" = Some (V4 (ipv4 203 0 113 8)) ∧ parse_ip "2001:db8::1" =
  Some (V6 (0x20010db8000000000000000000000001)) ∧ parse_ip "::" = Some (V6 0) ∧
  parse_ip "::ffff:192.0.2.1" = Some (V6 0xffffc0000201) ∧
  parse_ip "1:2:3:4:5:6:7:8" = Some (V6 0x00010002000300040005000600070008).
Proof. vm_compute. split_and!; reflexivity. Qed.

Example rejects_other_texts :
  Forall (λ s, parse_ip s = None)
    ["abc-123.local"; ""; "1.2.3"; "1.2.3.4.5"; "256.0.0.1"; "01.2.3.4"; "1.2.3.4 "; ":::"; "1::2::3";
     "12345::"; "1:2:3:4:5:6:7:8:9"; "1.2.3.4::"; "1:2:3:4:5:6:7:8::"].
Proof. repeat constructor. Qed.

(** ** What is read *)

(** The characters of IP literals. *)
Definition ip_char (b : byte) : Prop := is_Some (to_digit 16 b) ∨ b = x2e ∨ b = x3a.

(** A reader takes a prefix of such characters. *)
Definition reads {A} (f : bytes → option (A * bytes)) : Prop :=
  ∀ s a r, f s = Some (a, r) → ∃ p, s = p ++ r ∧ Forall ip_char p.

Lemma to_digit_16 b d : to_digit 10 b = Some d → is_Some (to_digit 16 b).
Proof. destruct b; vm_compute; intros; (done || by eexists). Qed.

Lemma read_digit_run_prefix radix max count acc s c n r :
  radix = 10%Z ∨ radix = 16%Z → read_digit_run radix max count acc s = Some (c, n, r) →
  ∃ p, s = p ++ r ∧ Forall ip_char p.
Proof.
  intros Hr. revert count acc. induction s as [|b s IH]; intros count acc; simpl.
  { intros [= _ _ <-]. by exists []. }
  destruct (to_digit radix b) as [d|] eqn:Hd; [|intros [= _ _ <-]; by exists []].
  case_decide; [done|]. intros (p & -> & Hp)%IH. exists (b :: p). split; [done|].
  constructor; [|done]. left. destruct Hr as [-> | ->]; [by eapply to_digit_16|by eexists].
Qed.

Lemma read_number_reads radix max z bound : radix = 10%Z ∨ radix = 16%Z → reads (read_number radix max z bound).
Proof.
  intros Hr s a r. unfold read_number. destruct (read_digit_run _ _ _ _ _) as [[[c n] t]|] eqn:Hd; [|done].
  simpl. case_decide; [done|]. destruct (negb _ && _ && _); [done|]. case_decide; [|done].
  intros [= _ <-]. by eapply read_digit_run_prefix.
Qed.

Lemma reads_bind {A B} (f : bytes → option (A * bytes)) (g : A → bytes → option (B * bytes)) :
  reads f → (∀ a, reads (g a)) → reads (λ s, '(a, s) ← f s; g a s).
Proof.
  intros Hf Hg s b r. destruct (f s) as [[a t]|] eqn:Ha; [|done]. simpl. intros Hb.
  destruct (Hf _ _ _ Ha) as (p & -> & Hp). destruct (Hg a _ _ _ Hb) as (q & -> & Hq).
  exists (p ++ q). rewrite <- (assoc_L (++)). split; [done|by apply Forall_app].
Qed.

Lemma reads_ret {A B} (f : A → B) (a : A) : reads (λ s, Some (f a, s)).
Proof. intros s b r [= _ <-]. by exists []. Qed.

Lemma read_separator_reads {A} sep i (f : bytes → option (A * bytes)) :
  ip_char sep → reads f → reads (read_separator sep i f).
Proof.
  intros Hsep Hf s a r. destruct i; simpl; [apply Hf|]. destruct s as [|b s]; simpl; [done|].
  case_decide as Hb; simpl; [|done]. subst b. intros (p & -> & Hp)%Hf. exists (sep :: p). auto.
Qed.

Lemma read_ipv4_reads : reads read_ipv4_addr.
Proof.
  assert (Ho : ∀ i, reads (read_octet i)).
  { intros i. apply read_separator_reads; [unfold ip_char; auto|]. apply read_number_reads. auto. }
  unfold read_ipv4_addr. do 4 (apply reads_bind; [apply Ho|intros]). apply (reads_ret id).
Qed.

Lemma read_groups_prefix slots i s gs v4 r :
  read_groups slots i s = (gs, v4, r) → ∃ p, s = p ++ r ∧ Forall ip_char p.
Proof.
  assert (Hsep : ip_char x3a) by (unfold ip_char; auto).
  revert i s gs v4 r. induction slots as [|slots IH]; intros i s gs v4 r; simpl.
  { intros [= _ _ <-]. by exists []. }
  destruct (if decide (slots = 0) then None else read_separator x3a i read_ipv4_addr s) as [[a t]|] eqn:H4.
  { case_decide; [done|]. intros [= _ _ <-].
    exact (read_separator_reads _ _ _ Hsep read_ipv4_reads _ _ _ H4). }
  destruct (read_separator x3a i (read_number 16 4 true u16_max) s) as [[g t]|] eqn:Hg;
    [|intros [= _ _ <-]; by exists []].
  destruct (read_groups slots (S i) t) as [[gs' b] t'] eqn:Hr. intros [= _ _ <-].
  destruct (read_separator_reads _ _ _ Hsep (read_number_reads 16 4 true u16_max (or_intror eq_refl)) _ _ _ Hg)
    as (p & -> & Hp).
  destruct (IH _ _ _ _ _ Hr) as (q & -> & Hq). exists (p ++ q). rewrite <- (assoc_L (++)).
  split; [done|by apply Forall_app].
Qed.

Lemma read_given_char_prefix c s r : read_given_char c s = Some r → s = c :: r.
Proof. destruct s; simpl; [done|]. case_decide; congruence. Qed.

Lemma read_ipv6_reads : reads read_ipv6_addr.
Proof.
  intros s a r. unfold read_ipv6_addr. destruct (read_groups 8 0 s) as [[front v4] t] eqn:Hf.
  destruct (read_groups_prefix _ _ _ _ _ _ Hf) as (p & -> & Hp).
  case_decide; [intros [= _ <-]; eauto|]. destruct v4; [done|].
  destruct (read_given_char x3a t) as [t1|] eqn:H1; [|done]. cbn [mbind option_bind].
  destruct (read_given_char x3a t1) as [t2|] eqn:H2; [|done]. cbn [mbind option_bind].
  apply read_given_char_prefix in H1 as ->. apply read_given_char_prefix in H2 as ->.
  destruct (read_groups _ 0 t2) as [[back ?] t3] eqn:Hb. intros [= _ <-].
  destruct (read_groups_prefix _ _ _ _ _ _ Hb) as (q & -> & Hq).
  exists (p ++ x3a :: x3a :: q). split; [by rewrite <- (assoc_L (++))|].
  apply Forall_app. split; [done|]. do 2 (constructor; [unfold ip_char; auto|]). done.
Qed.

(** A literal has only hexadecimal digits, dots and colons. *)
Lemma parse_ip_chars s ip : parse_ip s = Some ip → Forall ip_char (string_bytes s).
Proof.
  unfold parse_ip, read_ip_addr. destruct (read_ipv4_addr (string_bytes s)) as [[a r]|] eqn:H4.
  - destruct r; [|done]. intros _. destruct (read_ipv4_reads _ _ _ H4) as (p & -> & Hp).
    by rewrite app_nil_r.
  - destruct (read_ipv6_addr (string_bytes s)) as [[a r]|] eqn:H6; simpl; [|done].
    destruct r; [|done]. intros _. destruct (read_ipv6_reads _ _ _ H6) as (p & -> & Hp).
    by rewrite app_nil_r.
Qed.

(** ** The dotted quad: [Display] of an IPv4 address *)

Definition digit_char (d : Z) : byte := byte_wrap (48 + d).
Definition octet_digits (o : Z) : list Z :=
  (if decide (o < 10) then [o]
   else if decide (o < 100) then [o / 10; o mod 10]
   else [o / 100; o / 10 mod 10; o mod 10])%Z.
Definition octet_text (o : Z) : bytes := digit_char <$> octet_digits o.
Definition ipv4_text (a b c d : Z) : string :=
  bytes_string (octet_text a ++ x2e :: octet_text b ++ x2e :: octet_text c ++ x2e :: octet_text d).

Definition octet (o : Z) : Prop := (0 ≤ o ≤ 255)%Z.

Lemma digit_char_digit d : (0 ≤ d ≤ 9)%Z → to_digit 10 (digit_char d) = Some d ∧ (digit_char d = x30 → d = 0)%Z.
Proof.
  intros Hd. assert (d = 0 ∨ d = 1 ∨ d = 2 ∨ d = 3 ∨ d = 4 ∨ d = 5 ∨ d = 6 ∨ d = 7 ∨ d = 8 ∨ d = 9)%Z as Hc by lia.
  destruct_or! Hc; subst d; (split; [reflexivity|vm_compute; congruence]).
Qed.

Lemma octet_digits_value o :
  octet o → Forall (λ d, 0 ≤ d ≤ 9)%Z (octet_digits o) ∧ foldl (λ a d, a * 10 + d)%Z 0%Z (octet_digits o) = o ∧
  0 < length (octet_digits o) ≤ 3 ∧ (1 < length (octet_digits o) → head (octet_digits o) ≠ Some 0%Z).
Proof.
  unfold octet, octet_digits. intros Ho. repeat case_decide; simpl;
    (split_and!; [repeat constructor| |lia|lia|]); try (intros ? [= ?]);
    Z.to_euclidean_division_equations; lia.
Qed.

Lemma read_digit_run_digits ds count acc rest :
  Forall (λ d, 0 ≤ d ≤ 9)%Z ds → count + length ds ≤ 3 →
  match rest with [] => True | b :: _ => to_digit 10 b = None end →
  read_digit_run 10 3 count acc ((digit_char <$> ds) ++ rest) =
  Some (count + length ds, foldl (λ a d, a * 10 + d)%Z acc ds, rest).
Proof.
  intros Hds. revert count acc. induction Hds as [|d ds Hd _ IH]; intros count acc Hn Hrest; simpl.
  - rewrite Nat.add_0_r. destruct rest as [|b rest]; simpl; [done|]. by rewrite Hrest.
  - simpl in Hn. rewrite (proj1 (digit_char_digit d Hd)), decide_False, IH by (done || lia).
    do 3 f_equal. lia.
Qed.

Lemma read_number_octet o rest :
  octet o → match rest with [] => True | b :: _ => to_digit 10 b = None end →
  read_number 10 3 false u8_max (octet_text o ++ rest) = Some (o, rest).
Proof.
  intros Ho Hrest. destruct (octet_digits_value o Ho) as (Hds & Hv & Hlen & Hz).
  unfold read_number, octet_text. rewrite read_digit_run_digits by (done || lia). simpl.
  rewrite Hv, decide_False by lia. unfold octet in Ho.
  destruct (octet_digits o) as [|d ds]; [simpl in Hlen; lia|]. simpl in *.
  destruct (decide (1 < S (length ds))).
  - rewrite bool_decide_false with (P := Some _ = _); [simpl; rewrite decide_True by (unfold u8_max; lia); done|].
    intros [= Hc]. apply (Hz l). f_equal. apply Forall_cons in Hds as [Hd _]. by apply digit_char_digit in Hd as [_ ?]; auto.
  - rewrite (bool_decide_false (1 < _)) by done. rewrite andb_false_r. by rewrite decide_True by (unfold u8_max; lia).
Qed.

Lemma read_octet_text i o rest :
  octet o → match rest with [] => True | b :: _ => b = x2e end →
  read_octet 0 (octet_text o ++ rest) = Some (o, rest) ∧
  read_octet (S i) (x2e :: octet_text o ++ rest) = Some (o, rest).
Proof.
  intros Ho Hrest. assert (Hr : match rest with [] => True | b :: _ => to_digit 10 b = None end)
    by (destruct rest; [done|by subst]).
  split; apply read_number_octet; auto.
Qed.

(** Every IPv4 address is read back from its text. *)
Lemma parse_ip_ipv4 a b c d :
  octet a → octet b → octet c → octet d → parse_ip (ipv4_text a b c d) = Some (V4 (ipv4 a b c d)).
Proof.
  intros Ha Hb Hc Hd. unfold parse_ip, ipv4_text. rewrite string_bytes_string.
  unfold read_ip_addr, read_ipv4_addr.
  destruct (read_octet_text 0 a (x2e :: octet_text b ++ x2e :: octet_text c ++ x2e :: octet_text d)) as [-> _];
    [done..|]. cbn [mbind option_bind].
  destruct (read_octet_text 0 b (x2e :: octet_text c ++ x2e :: octet_text d)) as [_ ->]; [done..|].
  cbn [mbind option_bind].
  destruct (read_octet_text 1 c (x2e :: octet_text d)) as [_ ->]; [done..|]. cbn [mbind option_bind].
  destruct (read_octet_text 2 d []) as [_ Hlast]; [done..|]. rewrite app_nil_r in Hlast.
  by rewrite Hlast.
Qed.
