(* ===== verification/Async.v ===== *)
(** Async functions as programs.

    The body of an [async] block is a tree over the operations [F] it performs on
    the outside: [Await] for an operation it awaits, where the future may be dropped
    while it waits, [Do] for one that completes within a poll.  [Cancellable]
    runs a body next to a cancellation token, as [tokio::select!] does: the token may
    win at any of the body's awaits, and drops it.  A run is a trace of the
    operations that completed, with their answers, and the value returned; there is
    none when the future was dropped.  Nothing is assumed of the answers: a theorem
    about all runs holds for every behaviour of the outside and for a cancellation at
    any await. *)
From S2P Require Import Prelude.

Section prog.
Context {F : Type → Type}.

Inductive prog (R : Type) : Type :=
| Ret (r : R)
| Do {X : Type} (op : F X) (k : X → prog R)
| Await {X : Type} (op : F X) (k : X → prog R)
| Cancellable {A : Type} (p : prog A) (k : option A → prog R).
#[global] Arguments Ret {R} r.
#[global] Arguments Do {R X} op k.
#[global] Arguments Await {R X} op k.
#[global] Arguments Cancellable {R A} p k.

Fixpoint bind {A R} (p : prog A) (f : A → prog R) : prog R :=
  match p with
  | Ret a => f a
  | Do op k => Do op (λ x, bind (k x) f)
  | Await op k => Await op (λ x, bind (k x) f)
  | Cancellable q k => Cancellable q (λ x, bind (k x) f)
  end.

(** [r?] in the middle of a body. *)
Definition try {A R E} (r : result A E) (k : A → prog (result R E)) : prog (result R E) :=
  match r with
  | Ok a => k a
  | Err e => Ret (Err e)
  end.

Inductive action :=
| Act {X : Type} (op : F X) (x : X).

Fixpoint run {R} (p : prog R) (tr : list action) (o : option R) : Prop :=
  match p with
  | Ret r => tr = [] ∧ o = Some r
  | Do op k => ∃ x tr', tr = Act op x :: tr' ∧ run (k x) tr' o
  | Await op k =>
      (tr = [] ∧ o = None) ∨ ∃ x tr', tr = Act op x :: tr' ∧ run (k x) tr' o
  | Cancellable q k =>
      (o = None ∧ run q tr None) ∨
      ∃ a tr1 tr2, tr = tr1 ++ tr2 ∧ run q tr1 a ∧ run (k a) tr2 o
  end.

(** Running against an environment that answers every operation, without a
    cancellation. *)
Fixpoint exec {R S} (env : ∀ X, F X → S → X * S) (p : prog R) (s : S) : list action * R * S :=
  match p with
  | Ret r => ([], r, s)
  | Do op k | Await op k =>
      let '(x, s) := env _ op s in
      let '(tr, r, s) := exec env (k x) s in (Act op x :: tr, r, s)
  | Cancellable q k =>
      let '(tr1, a, s) := exec env q s in
      let '(tr2, r, s) := exec env (k (Some a)) s in (tr1 ++ tr2, r, s)
  end.

Lemma exec_run {R S} (env : ∀ X, F X → S → X * S) (p : prog R) (s : S) :
  run p (exec env p s).1.1 (Some (exec env p s).1.2).
Proof.
  revert s. induction p as [R r|R X op k IH|R X op k IH|R A q IHq k IH]; intros s; simpl; [done|..].
  - destruct (env X op s) as [x s']. specialize (IH x s').
    destruct (exec env (k x) s') as [[tr r] s'']. simpl in *. eauto.
  - destruct (env X op s) as [x s']. specialize (IH x s').
    destruct (exec env (k x) s') as [[tr r] s'']. simpl in *. eauto.
  - specialize (IHq s). destruct (exec env q s) as [[tr1 a] s']. specialize (IH (Some a) s').
    destruct (exec env (k (Some a)) s') as [[tr2 r] s'']. simpl in *. right. eauto 6.
Qed.

(** The runs of a sequence. *)
Lemma run_bind {A R} (p : prog A) (f : A → prog R) tr o :
  run (bind p f) tr o ↔
  (o = None ∧ run p tr None) ∨
  ∃ a tr1 tr2, tr = tr1 ++ tr2 ∧ run p tr1 (Some a) ∧ run (f a) tr2 o.
Proof.
  revert tr f. induction p as [A a|A X op k IH|A X op k IH|A B q _ k IH]; intros tr f; simpl.
  - split.
    + intros Hr. right. by exists a, [], tr.
    + intros [[_ [_ [=]]]|(a' & tr1 & tr2 & -> & [-> [= ->]] & Hr)]. done.
  - split.
    + intros (x & tr' & -> & [[-> Hr]|(a & tr1 & tr2 & -> & H1 & H2)]%IH); [left; eauto 6|].
      right. exists a, (Act op x :: tr1), tr2. eauto 6.
    + intros [[-> (x & tr' & -> & Hr)]|(a & tr1 & tr2 & -> & (x & tr' & -> & H1) & H2)];
        exists x; eexists; (split; [done|]); apply IH; eauto 7.
  - split.
    + intros [[-> ->]|(x & tr' & -> & [[-> Hr]|(a & tr1 & tr2 & -> & H1 & H2)]%IH)];
        [by eauto|left; eauto 7|].
      right. exists a, (Act op x :: tr1), tr2. eauto 7.
    + intros [[-> [[-> _]|(x & tr' & -> & Hr)]]|(a & tr1 & tr2 & -> & [[_ [=]]|(x & tr' & -> & H1)] & H2)];
        [by left|right..]; exists x; eexists; (split; [done|]); apply IH; eauto 7.
  - split.
    + intros [[-> Hq]|(b & tr1 & tr2 & -> & Hq & [[-> Hr]|(a & tr3 & tr4 & -> & H1 & H2)]%IH)];
        [by left; auto|left; split; [done|right; by exists b, tr1, tr2]|].
      right. exists a, (tr1 ++ tr3), tr4. rewrite (assoc_L (++)). split_and!; [done| |done].
      right. by exists b, tr1, tr3.
    + intros [[-> [[_ Hq]|(b & tr1 & tr2 & -> & Hq & Hr)]]|(a & tr1 & tr2 & -> & [[[=] _]|(b & tr3 & tr4 & -> & Hq & H1)] & H2)];
        [by left|right..].
      * exists b, tr1, tr2. split_and!; [done..|]. apply IH. by left.
      * exists b, tr3, (tr4 ++ tr2). rewrite (assoc_L (++)). split_and!; [done..|]. apply IH. right. by exists a, tr4, tr2.
Qed.

(** The same body when nobody ever cancels its tokens. *)
Fixpoint uncancelled {R} (p : prog R) : prog R :=
  match p with
  | Ret r => Ret r
  | Do op k => Do op (λ x, uncancelled (k x))
  | Await op k => Await op (λ x, uncancelled (k x))
  | Cancellable q k => bind (uncancelled q) (λ a, uncancelled (k (Some a)))
  end.

Lemma uncancelled_run {R} (p : prog R) tr o : run (uncancelled p) tr o → run p tr o.
Proof.
  revert tr o. induction p as [R r|R X op k IH|R X op k IH|R A q IHq k IH]; intros tr o; simpl; [done|..].
  - intros (x & tr' & -> & Hr). eauto.
  - intros [?|(x & tr' & -> & Hr)]; [by left|]. right. eauto.
  - intros [[-> Hr]|(a & tr1 & tr2 & -> & Hq & Hk)]%run_bind; [left; auto|]. right. by exists (Some a), tr1, tr2; auto.
Qed.
End prog.

Arguments prog : clear implicits.
Arguments action : clear implicits.

Notation "'do!' x ':=' op 'in' k" := (Do op (λ x, k))
  (at level 10, x binder, op at level 100, k at level 200) : unbounded_scope.
Notation "'await!' x ':=' op 'in' k" := (Await op (λ x, k))
  (at level 10, x binder, op at level 100, k at level 200) : unbounded_scope.
Notation "'select!' x ':=' p 'in' k" := (Cancellable p (λ x, k))
  (at level 10, x binder, p at level 100, k at level 200) : unbounded_scope.
Notation "'try!' x ':=' r 'in' k" := (try r (λ x, k))
  (at level 10, x binder, r at level 100, k at level 200) : unbounded_scope.

(** One operation of a run, and one [?] of the body. *)
Ltac run_op H :=
  simpl in H;
  match type of H with
  | _ ∨ _ => destruct H as [[-> ->]|(? & ? & -> & H)]
  | ∃ _ _, _ => destruct H as (? & ? & -> & H)
  | _ ∧ _ => destruct H as [-> ->]
  end.

Ltac run_try H :=
  match type of H with
  | run (try (map_err _ ?r) _) _ _ => destruct r; simpl in H
  | run (try (ok_or ?r _) _) _ _ => destruct r; simpl in H
  | run (try ?r _) _ _ => destruct r; simpl in H
  end; [|destruct H as [-> ->]].

(** No element of a concrete list is the one looked for. *)
Ltac not_listed :=
  simpl; intros Hin; repeat (apply elem_of_cons in Hin as [Hin|Hin]; [done|]); by apply elem_of_nil in Hin.
