(* ===== verification/Serde.v ===== *)
(** JSON values, derived (de)serialisation and the text layers below it.

    The program's messages are Rust structs with [#[derive(Serialize,
    Deserialize)]] and renaming attributes.  The attributes are in the sources,
    so what they mean is modelled here over JSON trees: a struct is written as an
    object with its fields in order, and read back from an object (in any field
    order, unknown fields ignored, duplicate or missing fields refused) or from an
    array of its fields.

    The JSON text format and Base64 are crates outside the repository: [JsonText]
    and [Base64] are parameters, with the round trips the program relies on as
    their laws.  [gen_json_text] and [base64_standard] are concrete instances. *)
From S2P Require Import Prelude.
From stdpp Require Import countable.
From Stdlib Require Import Ascii Wf_nat.

(** [JFloat] is a number that is not an integer literal; no message of the
    program carries one. *)
#[local] Unset Elimination Schemes.
Inductive json :=
| JNull
| JBool (b : bool)
| JNum (z : Z)
| JFloat (text : string)
| JStr (s : string)
| JArr (l : list json)
| JObj (fs : list (string * json)).
#[local] Set Elimination Schemes.

(** Integer-only trees nested at most [depth] deep, which is what the text
    layer prints and reads back (its recursion limit is 128). *)
Fixpoint json_plain (depth : nat) (j : json) : bool :=
  match j with
  | JFloat _ => false
  | JArr l => match depth with O => false | S d => forallb (json_plain d) l end
  | JObj fs => match depth with O => false | S d => forallb (λ f, json_plain d f.2) fs end
  | _ => true
  end.

(** ** The text layers *)

Class JsonText := {
  to_string : json → string;
  from_str : string → option json
}.

Class JsonTextLaws `{JsonText} := {
  from_to_string : ∀ j, json_plain 127 j = true → from_str (to_string j) = Some j
}.

(** [serde_json::from_slice]. *)
Definition from_slice `{JsonText} (b : bytes) : option json := from_str (bytes_string b).

Class Base64 := {
  b64_encode : bytes → string;
  b64_decode : string → option bytes
}.

Class Base64Laws `{Base64} := {
  b64_decode_encode : ∀ b, b64_decode (b64_encode b) = Some b
}.

(** ** Derived deserialisation *)

(** The entries a struct is read from.  An array must supply the fields in
    order, all of them except trailing ones with a default: at least [required]. *)
Definition struct_entries (names : list string) (required : nat) (j : json)
    : option (list (string * json)) :=
  match j with
  | JObj fs => Some fs
  | JArr l =>
      if decide (required ≤ length l ∧ length l ≤ length names)
      then Some (zip names l) else None
  | _ => None
  end.

(** The value of field [k]: outer [None] when the field is given twice. *)
Definition get_field (k : string) (fs : list (string * json)) : option (option json) :=
  match filter (λ f, f.1 = k) fs with
  | [] => Some None
  | [(_, v)] => Some (Some v)
  | _ => None
  end.

(** A field without a default, and an [Option] field ([null] and absence are
    [None]). *)
Definition req_field {A} (dec : json → option A) (k : string) (fs : list (string * json))
    : option A :=
  v ← get_field k fs; j ← v; dec j.

Definition opt_field {A} (dec : json → option A) (k : string) (fs : list (string * json))
    : option (option A) :=
  v ← get_field k fs;
  match v with
  | None | Some JNull => Some None
  | Some j => Some <$> dec j
  end.

Definition as_string (j : json) : option string :=
  match j with JStr s => Some s | _ => None end.
Definition as_bool (j : json) : option bool :=
  match j with JBool b => Some b | _ => None end.

(** An unsigned integer of at most [max]. *)
Definition as_uint (max : Z) (j : json) : option Z :=
  match j with
  | JNum z => if decide (0 ≤ z ≤ max)%Z then Some z else None
  | _ => None
  end.

(** [Vec<T>] and [Option<T>]. *)
Definition as_vec {A} (dec : json → option A) (j : json) : option (list A) :=
  match j with
  | JArr l => mapM dec l
  | _ => None
  end.

Definition of_option {A} (enc : A → json) (o : option A) : json :=
  match o with Some a => enc a | None => JNull end.

Lemma get_field_perm k fs fs' : fs ≡ₚ fs' → get_field k fs = get_field k fs'.
Proof.
  intros Hp. unfold get_field.
  assert (Hf : filter (λ f : string * json, f.1 = k) fs ≡ₚ filter (λ f, f.1 = k) fs')
    by by rewrite Hp.
  destruct (filter (λ f : string * json, f.1 = k) fs) as [|x [|y l]].
  - by apply Permutation_nil in Hf as ->.
  - apply Permutation_length_1_inv in Hf. by rewrite Hf.
  - apply Permutation_length in Hf. simpl in Hf.
    destruct (filter _ fs') as [|x' [|y' l']]; simpl in Hf; [lia..|].
    by destruct x, x'.
Qed.

Lemma req_field_perm {A} (dec : json → option A) k fs fs' :
  fs ≡ₚ fs' → req_field dec k fs = req_field dec k fs'.
Proof. intros Hp. unfold req_field. by rewrite (get_field_perm k fs fs'). Qed.

Lemma opt_field_perm {A} (dec : json → option A) k fs fs' :
  fs ≡ₚ fs' → opt_field dec k fs = opt_field dec k fs'.
Proof. intros Hp. unfold opt_field. by rewrite (get_field_perm k fs fs'). Qed.

Lemma get_field_unknown k k' v fs :
  k ≠ k' → get_field k ((k', v) :: fs) = get_field k fs.
Proof. intros Hne. unfold get_field. by rewrite filter_cons_False. Qed.

Lemma req_field_unknown {A} (dec : json → option A) k k' v fs :
  k ≠ k' → req_field dec k ((k', v) :: fs) = req_field dec k fs.
Proof. intros. unfold req_field. by rewrite get_field_unknown. Qed.

Lemma opt_field_unknown {A} (dec : json → option A) k k' v fs :
  k ≠ k' → opt_field dec k ((k', v) :: fs) = opt_field dec k fs.
Proof. intros. unfold opt_field. by rewrite get_field_unknown. Qed.

Lemma as_uint_range max z : (0 ≤ z ≤ max)%Z → as_uint max (JNum z) = Some z.
Proof. intros. simpl. by rewrite decide_True. Qed.

Lemma as_vec_map {A} (enc : A → json) (dec : json → option A) l :
  Forall (λ a, dec (enc a) = Some a) l → as_vec dec (JArr (enc <$> l)) = Some l.
Proof. intros Hl. simpl. apply mapM_Some_2. by apply Forall2_fmap_l, Forall_Forall2_diag. Qed.

Lemma forallb_fmap_true {A B} (f : A → B) (p : B → bool) l :
  (∀ a, p (f a) = true) → forallb p (f <$> l) = true.
Proof. intros Hp. induction l; simpl; [done|]. by rewrite Hp. Qed.

(** ** A concrete text layer

    Any injective printing will do as an instance; this one writes the tree's
    binary code as a string of zeros and ones. *)
Section json_ind.
Variable P : json → Prop.
Hypothesis Hnull : P JNull.
Hypothesis Hbool : ∀ b, P (JBool b).
Hypothesis Hnum : ∀ z, P (JNum z).
Hypothesis Hfloat : ∀ t, P (JFloat t).
Hypothesis Hstr : ∀ s, P (JStr s).
Hypothesis Harr : ∀ l, Forall P l → P (JArr l).
Hypothesis Hobj : ∀ fs, Forall (λ f, P f.2) fs → P (JObj fs).

Fixpoint json_nested_ind (j : json) : P j :=
  match j with
  | JNull => Hnull
  | JBool b => Hbool b
  | JNum z => Hnum z
  | JFloat t => Hfloat t
  | JStr s => Hstr s
  | JArr l => Harr l ((fix go l := match l return Forall P l with
      | [] => List.Forall_nil _
      | x :: l' => List.Forall_cons _ x l' (json_nested_ind x) (go l')
      end) l)
  | JObj fs => Hobj fs ((fix go fs := match fs return Forall (λ f, P f.2) fs with
      | [] => List.Forall_nil _
      | f :: fs' => List.Forall_cons _ f fs' (json_nested_ind f.2) (go fs')
      end) fs)
  end.
End json_ind.

Abbreviation json_tree := (gen_tree (bool + Z + string)).

Fixpoint json_enc (j : json) : json_tree :=
  match j with
  | JNull => GenNode 0 []
  | JBool b => GenLeaf (inl (inl b))
  | JNum z => GenLeaf (inl (inr z))
  | JStr s => GenLeaf (inr s)
  | JFloat t => GenNode 1 [GenLeaf (inr t)]
  | JArr l => GenNode 2 (map json_enc l)
  | JObj fs => GenNode 3 (map (λ f, GenNode 4 [GenLeaf (inr f.1); json_enc f.2]) fs)
  end.

Fixpoint json_dec (t : json_tree) : json :=
  match t with
  | GenLeaf (inl (inl b)) => JBool b
  | GenLeaf (inl (inr z)) => JNum z
  | GenLeaf (inr s) => JStr s
  | GenNode 1 [GenLeaf (inr t)] => JFloat t
  | GenNode 2 l => JArr (map json_dec l)
  | GenNode 3 l => JObj (map (λ n, match n with
      | GenNode 4 [GenLeaf (inr k); v] => (k, json_dec v)
      | _ => (EmptyString, JNull)
      end) l)
  | _ => JNull
  end.

Lemma json_dec_enc j : json_dec (json_enc j) = j.
Proof.
  induction j as [| | | | |l IH|fs IH] using json_nested_ind; try done.
  - simpl. f_equal. induction IH; simpl; congruence.
  - simpl. f_equal. induction IH as [|[k v] fs Hv _ IH]; simpl in *; congruence.
Qed.

Fixpoint pos_text (p : positive) : string :=
  match p with
  | xH => EmptyString
  | xO p => String "0"%char (pos_text p)
  | xI p => String "1"%char (pos_text p)
  end.

Fixpoint text_pos (s : string) : option positive :=
  match s with
  | EmptyString => Some xH
  | String "0"%char s => xO <$> text_pos s
  | String "1"%char s => xI <$> text_pos s
  | _ => None
  end.

Lemma text_pos_text p : text_pos (pos_text p) = Some p.
Proof. induction p; simpl; [by rewrite IHp..|done]. Qed.

Definition gen_json_text : JsonText := {|
  to_string := λ j, pos_text (encode (json_enc j));
  from_str := λ s, p ← text_pos s; json_dec <$> decode p
|}.

Lemma gen_json_text_laws : @JsonTextLaws gen_json_text.
Proof.
  constructor. intros j _. simpl. rewrite text_pos_text. simpl.
  rewrite decode_encode. simpl. by rewrite json_dec_enc.
Qed.

(** ** Base64, standard alphabet, padded (RFC 4648) *)

Definition b64_digit (n : Z) : byte :=
  byte_wrap (if decide (n < 26) then n + 65
             else if decide (n < 52) then n + 71
             else if decide (n < 62) then n - 4
             else if decide (n = 62) then 43 else 47)%Z.

Definition b64_index (b : byte) : option Z :=
  let v := byte_val b in
  (if decide (65 ≤ v ≤ 90) then Some (v - 65)
   else if decide (97 ≤ v ≤ 122) then Some (v - 71)
   else if decide (48 ≤ v ≤ 57) then Some (v + 4)
   else if decide (v = 43) then Some 62
   else if decide (v = 47) then Some 63 else None)%Z.

Lemma b64_index_digit n : (0 ≤ n < 64)%Z → b64_index (b64_digit n) = Some n.
Proof.
  intros Hn. unfold b64_index, b64_digit. rewrite byte_val_wrap.
  rewrite Z.mod_small by (repeat case_decide; lia).
  repeat case_decide; try lia; f_equal; lia.
Qed.

Lemma b64_digit_not_pad n : (0 ≤ n < 64)%Z → b64_digit n ≠ x3d.
Proof.
  intros Hn Heq. apply (f_equal b64_index) in Heq. by rewrite b64_index_digit in Heq.
Qed.

Fixpoint b64_enc (b : bytes) : bytes :=
  match b with
  | [] => []
  | [x] => let a := byte_val x in
      [b64_digit (a / 4); b64_digit ((a mod 4) * 16); x3d; x3d]
  | [x; y] => let a := byte_val x in let b := byte_val y in
      [b64_digit (a / 4); b64_digit ((a mod 4) * 16 + b / 16);
       b64_digit ((b mod 16) * 4); x3d]
  | x :: y :: z :: r => let a := byte_val x in let b := byte_val y in let c := byte_val z in
      b64_digit (a / 4) :: b64_digit ((a mod 4) * 16 + b / 16) ::
      b64_digit ((b mod 16) * 4 + c / 64) :: b64_digit (c mod 64) :: b64_enc r
  end%Z.

(** Decoding a quantum of four symbols; a padded one must be the last and leave
    no bits over. *)
Fixpoint b64_dec (t : bytes) : option bytes :=
  match t with
  | [] => Some []
  | p :: q :: r :: s :: t' =>
      i ← b64_index p; j ← b64_index q;
      if decide (r = x3d ∧ s = x3d) then
        if decide (t' = [] ∧ j mod 16 = 0)%Z then Some [byte_wrap (i * 4 + j / 16)] else None
      else
        k ← b64_index r;
        if decide (s = x3d) then
          if decide (t' = [] ∧ k mod 4 = 0)%Z
          then Some [byte_wrap (i * 4 + j / 16); byte_wrap ((j mod 16) * 16 + k / 4)] else None
        else
          l ← b64_index s; rest ← b64_dec t';
          Some (byte_wrap (i * 4 + j / 16) :: byte_wrap ((j mod 16) * 16 + k / 4)
                :: byte_wrap ((k mod 4) * 64 + l) :: rest)
  | _ => None
  end%Z.

Lemma byte_wrap_eq x z : z = byte_val x → byte_wrap z = x.
Proof. intros ->. apply byte_wrap_val. Qed.

Lemma b64_dec_enc b : b64_dec (b64_enc b) = Some b.
Proof.
  induction b as [b IH] using (induction_ltof1 _ length).
  destruct b as [|x [|y [|z r]]]; [done|..];
    pose proof (byte_val_range x); try pose proof (byte_val_range y);
    try pose proof (byte_val_range z); cbn [b64_enc b64_dec];
    rewrite !b64_index_digit by dlia; simpl.
  - rewrite decide_True by (split; [done|dlia]). do 2 f_equal. apply byte_wrap_eq. dlia.
  - rewrite decide_False by (intros [E _]; by apply b64_digit_not_pad in E; [|dlia]).
    simpl.
    rewrite decide_True by (split; [done|dlia]). do 2 f_equal; [|f_equal]; apply byte_wrap_eq; dlia.
  - rewrite decide_False by (intros [E _]; by apply b64_digit_not_pad in E; [|dlia]).
    simpl.
    rewrite decide_False by (intros E; by apply b64_digit_not_pad in E; [|dlia]).
    simpl.
    rewrite IH by (unfold ltof; simpl; lia). simpl.
    do 2 f_equal; [|f_equal; [|f_equal]]; apply byte_wrap_eq; dlia.
Qed.

Definition base64_standard : Base64 := {|
  b64_encode := λ b, bytes_string (b64_enc b);
  b64_decode := λ s, b64_dec (string_bytes s)
|}.

Lemma base64_standard_laws : @Base64Laws base64_standard.
Proof. constructor. intros b. simpl. by rewrite string_bytes_string, b64_dec_enc. Qed.

Example b64_golden : @b64_encode base64_standard [x00; x01; x02; xff] = "AAEC/w==".
Proof. reflexivity. Qed.
