(* ===== verification/JsonText.v ===== *)
(** A JSON text layer (RFC 8259), in the compact form the program's peers write.

    The text layer is a crate outside the repository and a parameter of the
    development ([JsonText] of [Serde.v], with its round trip as the law).  This
    file is a concrete instance with the documented behaviour: printing without
    white space, reading with it, strings with their escapes, a nesting limit of
    127.  It makes the wire vectors of the source's tests checkable as text and
    shows that the law can hold.  An integer literal is read as an integer whatever
    its size; the decoders of [Serde.v] check the range. *)
From S2P Require Import Prelude Serde.
From Stdlib Require Import Decimal DecimalFacts DecimalN.

(** ** Printing *)

Definition hex_digit (n : Z) : byte := byte_wrap (if decide (n < 10)%Z then 48 + n else 87 + n).

Definition escape (b : byte) : bytes :=
  match b with
  | x22 => [x5c; x22]
  | x5c => [x5c; x5c]
  | x08 => [x5c; x62]
  | x0c => [x5c; x66]
  | x0a => [x5c; x6e]
  | x0d => [x5c; x72]
  | x09 => [x5c; x74]
  | _ =>
      if decide (byte_val b < 32)%Z
      then [x5c; x75; x30; x30; hex_digit (byte_val b / 16); hex_digit (byte_val b mod 16)]
      else [b]
  end.

Definition quote (s : string) : bytes := [x22] ++ (string_bytes s ≫= escape) ++ [x22].

Fixpoint uint_text (u : uint) : bytes :=
  match u with
  | Nil => []
  | D0 u => x30 :: uint_text u
  | D1 u => x31 :: uint_text u
  | D2 u => x32 :: uint_text u
  | D3 u => x33 :: uint_text u
  | D4 u => x34 :: uint_text u
  | D5 u => x35 :: uint_text u
  | D6 u => x36 :: uint_text u
  | D7 u => x37 :: uint_text u
  | D8 u => x38 :: uint_text u
  | D9 u => x39 :: uint_text u
  end.

Definition number_text (z : Z) : bytes :=
  (if decide (z < 0)%Z then [x2d] else []) ++ uint_text (N.to_uint (Z.abs_N z)).

Fixpoint commas (l : list bytes) : bytes :=
  match l with
  | [] => []
  | [x] => x
  | x :: l => x ++ x2c :: commas l
  end.

Fixpoint json_print (j : json) : bytes :=
  match j with
  | JNull => string_bytes "null"
  | JBool true => string_bytes "true"
  | JBool false => string_bytes "false"
  | JNum z => number_text z
  | JFloat t => string_bytes t
  | JStr s => quote s
  | JArr l => x5b :: commas (map json_print l) ++ [x5d]
  | JObj fs => x7b :: commas (map (λ f, quote f.1 ++ x3a :: json_print f.2) fs) ++ [x7d]
  end.

(** ** Reading *)

Definition is_json_ws (b : byte) : bool := bool_decide (b ∈ [x20; x09; x0a; x0d]).
Definition skip_ws : bytes → bytes := drop_while is_json_ws.

Definition hex_value (b : byte) : option Z :=
  let v := byte_val b in
  (if decide (48 ≤ v ≤ 57) then Some (v - 48)
   else if decide (97 ≤ v ≤ 102) then Some (v - 87)
   else if decide (65 ≤ v ≤ 70) then Some (v - 55) else None)%Z.

Definition hex4 (a b c d : byte) : option Z :=
  a ← hex_value a; b ← hex_value b; c ← hex_value c; d ← hex_value d;
  Some (((a * 16 + b) * 16 + c) * 16 + d)%Z.

Definition utf8 (cp : Z) : bytes :=
  map byte_wrap
    (if decide (cp < 128) then [cp]
     else if decide (cp < 2048) then [192 + cp / 64; 128 + cp mod 64]
     else if decide (cp < 65536) then [224 + cp / 4096; 128 + (cp / 64) mod 64; 128 + cp mod 64]
     else [240 + cp / 262144; 128 + (cp / 4096) mod 64; 128 + (cp / 64) mod 64; 128 + cp mod 64])%Z.

Definition unescape (e : byte) : option byte :=
  match e with
  | x22 => Some x22 | x5c => Some x5c | x2f => Some x2f
  | x62 => Some x08 | x66 => Some x0c | x6e => Some x0a
  | x72 => Some x0d | x74 => Some x09 | _ => None
  end.

(** The rest of a string after its opening quote. *)
Fixpoint read_string (s : bytes) : option (bytes * bytes) :=
  match s with
  | [] => None
  | b :: r =>
      if decide (b = x22) then Some ([], r)
      else if decide (b = x5c) then
        match r with
        | [] => None
        | e :: r =>
            if decide (e = x75) then
              match r with
              | h1 :: h2 :: h3 :: h4 :: r =>
                  cp ← hex4 h1 h2 h3 h4;
                  if decide (55296 ≤ cp < 56320)%Z then
                    match r with
                    | b' :: e' :: h1 :: h2 :: h3 :: h4 :: r =>
                        if decide (b' = x5c ∧ e' = x75) then
                          lo ← hex4 h1 h2 h3 h4;
                          if decide (56320 ≤ lo < 57344)%Z then
                            '(t, r) ← read_string r;
                            Some (utf8 (65536 + (cp - 55296) * 1024 + (lo - 56320)) ++ t, r)
                          else None
                        else None
                    | _ => None
                    end
                  else if decide (56320 ≤ cp < 57344)%Z then None
                  else '(t, r) ← read_string r; Some (utf8 cp ++ t, r)
              | _ => None
              end
            else c ← unescape e; '(t, r) ← read_string r; Some (c :: t, r)
        end
      else if decide (byte_val b < 32)%Z then None
      else '(t, r) ← read_string r; Some (b :: t, r)
  end.

Fixpoint read_digits (s : bytes) : uint * bytes :=
  match s with
  | x30 :: r => let '(u, r) := read_digits r in (D0 u, r)
  | x31 :: r => let '(u, r) := read_digits r in (D1 u, r)
  | x32 :: r => let '(u, r) := read_digits r in (D2 u, r)
  | x33 :: r => let '(u, r) := read_digits r in (D3 u, r)
  | x34 :: r => let '(u, r) := read_digits r in (D4 u, r)
  | x35 :: r => let '(u, r) := read_digits r in (D5 u, r)
  | x36 :: r => let '(u, r) := read_digits r in (D6 u, r)
  | x37 :: r => let '(u, r) := read_digits r in (D7 u, r)
  | x38 :: r => let '(u, r) := read_digits r in (D8 u, r)
  | x39 :: r => let '(u, r) := read_digits r in (D9 u, r)
  | _ => (Nil, s)
  end.

(** At least one digit. *)
Definition skip_digits (s : bytes) : option bytes :=
  match read_digits s with
  | (Nil, _) => None
  | (_, r) => Some r
  end.

(** What may follow the integer part of a number that is not an integer. *)
Definition skip_fraction (s : bytes) : option bytes :=
  match s with x2e :: r => skip_digits r | _ => Some s end.
Definition skip_sign (s : bytes) : bytes :=
  match s with x2b :: r | x2d :: r => r | _ => s end.
Definition skip_exponent (s : bytes) : option bytes :=
  match s with x65 :: r | x45 :: r => skip_digits (skip_sign r) | _ => Some s end.

Definition uint_eqb (u v : uint) : bool := if uint_eq_dec u v then true else false.

(** A number after its sign; [s] is the whole of it.  No leading zeros. *)
Definition read_unsigned (negative : bool) (s digits : bytes) : option (json * bytes) :=
  let '(u, r) := read_digits digits in
  if uint_eqb u Nil then None
  else if uint_eqb (unorm u) u then
    match r with
    | x2e :: _ | x65 :: _ | x45 :: _ =>
        r' ← skip_fraction r; r' ← skip_exponent r';
        Some (JFloat (bytes_string (take (length s - length r') s)), r')
    | _ =>
        let n := Z.of_N (N.of_uint u) in
        if negative then
          if decide (n = 0)%Z then Some (JFloat "-0", r) else Some (JNum (- n), r)
        else Some (JNum n, r)
    end
  else None.

Definition read_number (s : bytes) : option (json * bytes) :=
  match s with
  | x2d :: r => read_unsigned true s r
  | _ => read_unsigned false s s
  end.

(** The text after the word [w]. *)
Fixpoint after (w s : bytes) : option bytes :=
  match w, s with
  | [], _ => Some s
  | x :: w, y :: s => if decide (x = y) then after w s else None
  | _, [] => None
  end.

Definition read_word (w : string) (j : json) (s : bytes) : option (json * bytes) :=
  r ← after (string_bytes w) s; Some (j, r).

(** A value, the rest of a non-empty array, the rest of a non-empty object; [n] is
    fuel, [depth] the levels that may still be opened. *)
Fixpoint read_value (n depth : nat) (s : bytes) {struct n} : option (json * bytes) :=
  match n with
  | O => None
  | S n =>
      match skip_ws s with
      | [] => None
      | b :: r =>
          match b with
          | x6e => read_word "null" JNull (b :: r)
          | x74 => read_word "true" (JBool true) (b :: r)
          | x66 => read_word "false" (JBool false) (b :: r)
          | x22 => '(t, r) ← read_string r; Some (JStr (bytes_string t), r)
          | x5b =>
              match depth, skip_ws r with
              | O, _ | _, [] => None
              | S depth, b :: r =>
                  if decide (b = x5d) then Some (JArr [], r)
                  else '(l, r) ← read_elements n depth (b :: r); Some (JArr l, r)
              end
          | x7b =>
              match depth, skip_ws r with
              | O, _ | _, [] => None
              | S depth, b :: r =>
                  if decide (b = x7d) then Some (JObj [], r)
                  else '(l, r) ← read_members n depth (b :: r); Some (JObj l, r)
              end
          | _ => read_number (b :: r)
          end
      end
  end
with read_elements (n depth : nat) (s : bytes) {struct n} : option (list json * bytes) :=
  match n with
  | O => None
  | S n =>
      '(v, r) ← read_value n depth s;
      match skip_ws r with
      | [] => None
      | b :: r =>
          if decide (b = x2c) then '(l, r) ← read_elements n depth r; Some (v :: l, r)
          else if decide (b = x5d) then Some ([v], r)
          else None
      end
  end
with read_members (n depth : nat) (s : bytes) {struct n} : option (list (string * json) * bytes) :=
  match n with
  | O => None
  | S n =>
      r ← after [x22] (skip_ws s);
      '(k, r) ← read_string r;
      r ← after [x3a] (skip_ws r);
      '(v, r) ← read_value n depth r;
      match skip_ws r with
      | [] => None
      | b :: r =>
          if decide (b = x2c) then '(l, r) ← read_members n depth r; Some ((bytes_string k, v) :: l, r)
          else if decide (b = x7d) then Some ([(bytes_string k, v)], r)
          else None
      end
  end.

Definition json_read (s : bytes) : option json :=
  '(j, r) ← read_value (2 * length s + 1) 127 s;
  match skip_ws r with
  | [] => Some j
  | _ => None
  end.

Definition json_text : JsonText := {|
  to_string := λ j, bytes_string (json_print j);
  from_str := λ s, json_read (string_bytes s)
|}.

(** A raw text of the sources: a single quote stands for a double one. *)
Definition raw (s : string) : string :=
  bytes_string ((λ b, if decide (b = x27) then x22 else b) <$> string_bytes s).

Example reads_escapes_and_white_space :
  json_read (string_bytes " [ 1 , -20, true,null , { } ] ") =
  Some (JArr [JNum 1; JNum (-20); JBool true; JNull; JObj []]).
Proof. vm_compute. reflexivity. Qed.

(** ** The round trip *)

Lemma read_string_one x s :
  read_string (escape x ++ s) = '(t, r) ← read_string s; Some (x :: t, r).
Proof. destruct x; reflexivity. Qed.

Lemma read_string_escape b rest : read_string ((b ≫= escape) ++ x22 :: rest) = Some (b, rest).
Proof.
  induction b as [|x b IH]; [done|].
  rewrite bind_cons, <- (assoc_L (++)), read_string_one, IH. done.
Qed.

(** What may follow a value. *)
Definition delimited (rest : bytes) : Prop :=
  match rest with [] => True | b :: _ => b = x2c ∨ b = x5d ∨ b = x7d end.

Lemma read_digits_text u rest : delimited rest → read_digits (uint_text u ++ rest) = (u, rest).
Proof.
  intros Hd. induction u as [|u IH|u IH|u IH|u IH|u IH|u IH|u IH|u IH|u IH|u IH]; simpl; [|by rewrite IH..].
  destruct rest as [|b rest]; [done|]. by destruct Hd as [->|[->| ->]].
Qed.

(** Numbers are printed with a digit in front and no leading zeros. *)
Lemma to_uint_norm n : unorm (N.to_uint n) = N.to_uint n ∧ N.to_uint n ≠ Nil.
Proof.
  split.
  - by rewrite <- (Unsigned.to_of (N.to_uint n)), Unsigned.of_to.
  - intros Hn. pose proof (Unsigned.to_of (N.to_uint n)) as Ht. rewrite Unsigned.of_to, Hn in Ht. done.
Qed.

Lemma uint_eqb_true u v : u = v → uint_eqb u v = true.
Proof. unfold uint_eqb. intros ->. by destruct (uint_eq_dec v v). Qed.
Lemma uint_eqb_false u v : u ≠ v → uint_eqb u v = false.
Proof. unfold uint_eqb. intros. by destruct (uint_eq_dec u v). Qed.

(** The head of a number is a digit or a minus sign. *)
Definition number_head (b : byte) : Prop := b = x2d ∨ (48 ≤ byte_val b ≤ 57)%Z.

Lemma uint_text_head u : u ≠ Nil → ∃ b t, uint_text u = b :: t ∧ (48 ≤ byte_val b ≤ 57)%Z.
Proof. destruct u; intros; simpl; [done|..]; eexists _, _; (split; [done|]); unfold byte_val; simpl; lia. Qed.

Lemma number_text_head z : ∃ b t, number_text z = b :: t ∧ number_head b.
Proof.
  unfold number_text, number_head. destruct (uint_text_head (N.to_uint (Z.abs_N z))) as (b & t & Hu & Hb);
    [apply to_uint_norm|]. rewrite Hu. case_decide; eexists _, _; (split; [done|]); auto.
Qed.

Lemma delimited_not_float rest {A} (x y : A) :
  delimited rest →
  match rest with x2e :: _ | x65 :: _ | x45 :: _ => x | _ => y end = y.
Proof. destruct rest as [|b rest]; [done|]. by intros [->|[->| ->]]. Qed.

Lemma read_unsigned_text z s rest :
  delimited rest →
  read_unsigned (bool_decide (z < 0)%Z) s (uint_text (N.to_uint (Z.abs_N z)) ++ rest) = Some (JNum z, rest).
Proof.
  intros Hd. destruct (to_uint_norm (Z.abs_N z)) as [Hnorm Hnil]. unfold read_unsigned.
  rewrite read_digits_text, (uint_eqb_false _ _ Hnil), (uint_eqb_true _ _ Hnorm) by done.
  rewrite (delimited_not_float rest) by done. cbv zeta. rewrite Unsigned.of_to.
  case_bool_decide; [rewrite decide_False by lia|]; do 2 f_equal; f_equal; lia.
Qed.

Lemma read_number_text z rest : delimited rest → read_number (number_text z ++ rest) = Some (JNum z, rest).
Proof.
  intros Hd. pose proof (read_unsigned_text z (number_text z ++ rest) rest Hd) as Hr.
  destruct (uint_text_head (N.to_uint (Z.abs_N z))) as (b & t & Hu & Hb); [apply to_uint_norm|].
  unfold number_text in *. case_decide as Hz; simpl.
  - by rewrite bool_decide_true in Hr.
  - rewrite bool_decide_false in Hr by done. rewrite Hu in *. simpl in *. rewrite <- Hr.
    unfold read_number. by destruct b.
Qed.

(** The first byte of a printed value: not white space, and none that could close
    an array or an object. *)
Lemma json_print_head d j :
  json_plain d j = true → ∃ b t, json_print j = b :: t ∧ is_json_ws b = false ∧ b ≠ x5d ∧ b ≠ x7d.
Proof.
  assert (Hn : ∀ b, number_head b → is_json_ws b = false ∧ b ≠ x5d ∧ b ≠ x7d).
  { intros b [->|Hb]; [done|]. destruct b; unfold byte_val in Hb; simpl in Hb; try lia; done. }
  destruct j as [|[]|z|t|s|l|fs]; intros Hp; try (eexists _, _; split_and!; done).
  - destruct (number_text_head z) as (b & t & Hz & Hb). exists b, t. destruct (Hn b Hb) as (? & ? & ?). done.
  - by destruct d.
Qed.

Lemma skip_ws_head b t : is_json_ws b = false → skip_ws (b :: t) = b :: t.
Proof. intros Hb. unfold skip_ws. simpl. by rewrite Hb. Qed.

(** Fuel that is enough to read a value back. *)
Fixpoint json_fuel (j : json) : nat :=
  match j with
  | JArr l => S (list_sum (map (λ x, S (json_fuel x)) l))
  | JObj fs => S (list_sum (map (λ f, S (json_fuel f.2)) fs))
  | _ => 1
  end.

Definition readable (j : json) : Prop :=
  ∀ n d rest, json_plain d j = true → json_fuel j ≤ n → delimited rest →
  read_value n d (json_print j ++ rest) = Some (j, rest).

Lemma read_elements_text l d n rest :
  Forall readable l → l ≠ [] → forallb (json_plain d) l = true →
  list_sum (map (λ x, S (json_fuel x)) l) ≤ n →
  read_elements n d (commas (map json_print l) ++ x5d :: rest) = Some (l, rest).
Proof.
  intros Hall. revert n. induction Hall as [|j l Hj Hall IH]; intros n Hne Hp Hn; [done|].
  simpl in Hp, Hn. apply andb_true_iff in Hp as [Hpj Hpl]. destruct n as [|n]; [lia|].
  destruct l as [|k l].
  - cbn [map commas read_elements]. rewrite (Hj n d (x5d :: rest)); [done|done|simpl in Hn; lia|].
    simpl. auto.
  - cbn [map commas read_elements]. rewrite <- (assoc_L (++)).
    rewrite (Hj n d); [|done|lia|simpl; auto]. simpl.
    specialize (IH n). simpl in IH. rewrite IH; [done|done|done|simpl in Hn; lia].
Qed.

Lemma read_members_text fs d n rest :
  Forall (λ f, readable f.2) fs → fs ≠ [] → forallb (λ f, json_plain d f.2) fs = true →
  list_sum (map (λ f, S (json_fuel f.2)) fs) ≤ n →
  read_members n d (commas (map (λ f, quote f.1 ++ x3a :: json_print f.2) fs) ++ x7d :: rest) = Some (fs, rest).
Proof.
  intros Hall. revert n. induction Hall as [|[k j] fs Hj Hall IH]; intros n Hne Hp Hn; [done|].
  simpl in Hp, Hn, Hj. apply andb_true_iff in Hp as [Hpj Hpl]. destruct n as [|n]; [lia|].
  assert (Hkey : ∀ more, delimited more →
    read_members (S n) d ((quote k ++ x3a :: json_print j) ++ more) =
    match skip_ws more with
    | [] => None
    | b :: r =>
        if decide (b = x2c) then '(l, r) ← read_members n d r; Some ((k, j) :: l, r)
        else if decide (b = x7d) then Some ([(k, j)], r)
        else None
    end).
  { intros more Hmore. unfold quote. cbn [read_members]. rewrite <- !(assoc_L (++)). simpl.
    rewrite read_string_escape. simpl.
    rewrite (Hj n d more) by (done || lia). simpl. by rewrite bytes_string_bytes. }
  destruct fs as [|f fs].
  - cbn [map commas]. rewrite Hkey by (simpl; auto). done.
  - cbn [map commas]. rewrite <- (assoc_L (++)), Hkey by (simpl; auto). simpl.
    specialize (IH n). simpl in IH. rewrite IH; [done|done|done|simpl in Hn; lia].
Qed.

Lemma commas_head l b t : (∃ x l', l = x :: l' ∧ ∃ u, x = b :: u) → ∃ u, commas l ++ t = b :: u.
Proof. intros (x & l' & -> & u & ->). destruct l'; simpl; by eexists. Qed.

(** One unfolding of the reader. *)
Lemma read_value_S n d s :
  read_value (S n) d s =
  match skip_ws s with
  | [] => None
  | b :: r =>
      match b with
      | x6e => read_word "null" JNull (b :: r)
      | x74 => read_word "true" (JBool true) (b :: r)
      | x66 => read_word "false" (JBool false) (b :: r)
      | x22 => '(t, r) ← read_string r; Some (JStr (bytes_string t), r)
      | x5b =>
          match d, skip_ws r with
          | O, _ | _, [] => None
          | S d, b :: r =>
              if decide (b = x5d) then Some (JArr [], r)
              else '(l, r) ← read_elements n d (b :: r); Some (JArr l, r)
          end
      | x7b =>
          match d, skip_ws r with
          | O, _ | _, [] => None
          | S d, b :: r =>
              if decide (b = x7d) then Some (JObj [], r)
              else '(l, r) ← read_members n d (b :: r); Some (JObj l, r)
          end
      | _ => read_number (b :: r)
      end
  end.
Proof. done. Qed.

Lemma json_readable j : readable j.
Proof.
  induction j as [|b|z|t|s|l IH|fs IH] using json_nested_ind; intros n d rest Hp Hn Hd; simpl in Hn;
    (destruct n as [|n]; [lia|]).
  - done.
  - by destruct b.
  - destruct (number_text_head z) as (b & t & Hz & Hb).
    pose proof (read_number_text z rest Hd) as Hr. simpl. rewrite Hz in *. simpl.
    assert (is_json_ws b = false) as Hws.
    { destruct Hb as [->|Hb]; [done|]. destruct b; unfold byte_val in Hb; simpl in Hb; try lia; done. }
    rewrite skip_ws_head by done.
    destruct Hb as [->|Hb]; [done|]. destruct b; unfold byte_val in Hb; simpl in Hb; try lia; done.
  - by destruct d.
  - cbn [json_print read_value]. unfold quote. rewrite <- !(assoc_L (++)). simpl.
    rewrite read_string_escape. simpl. by rewrite bytes_string_bytes.
  - cbn [json_print]. rewrite <- app_comm_cons, read_value_S, skip_ws_head by done.
    destruct d as [|d]; [done|]. rewrite <- (assoc_L (++)). destruct l as [|k l]; [done|].
    simpl in Hp. pose proof Hp as [Hpk _]%andb_true_iff.
    destruct (json_print_head d k Hpk) as (b & t & Hk & Hws & Hb & _).
    destruct (commas_head (map json_print (k :: l)) b ([x5d] ++ rest)) as [u Hu]; [by eexists _, _; eauto|].
    pose proof (read_elements_text (k :: l) d n rest IH ltac:(done) Hp ltac:(lia)) as He.
    change (x5d :: rest) with ([x5d] ++ rest) in He. rewrite Hu in He |- *.
    rewrite skip_ws_head, decide_False by done. by rewrite He.
  - cbn [json_print]. rewrite <- app_comm_cons, read_value_S, skip_ws_head by done.
    destruct d as [|d]; [done|]. rewrite <- (assoc_L (++)). destruct fs as [|k fs]; [done|].
    simpl in Hp.
    destruct (commas_head (map (λ f, quote f.1 ++ x3a :: json_print f.2) (k :: fs)) x22 ([x7d] ++ rest)) as [u Hu];
      [by eexists _, _; eauto|].
    pose proof (read_members_text (k :: fs) d n rest IH ltac:(done) Hp ltac:(lia)) as He.
    change (x7d :: rest) with ([x7d] ++ rest) in He. rewrite Hu in He |- *.
    rewrite skip_ws_head, decide_False by done. by rewrite He.
Qed.

(** ** The law of the text layer *)

Lemma commas_length l : list_sum (map length l) + length l ≤ S (length (commas l)).
Proof.
  induction l as [|x l IH]; [simpl; lia|]. destruct l as [|y l]; simpl in *; [lia|].
  rewrite length_app. simpl. lia.
Qed.

(** Elements whose fuel is at most twice their text, separated by commas. *)
Lemma fuel_commas {A} (f : A → nat) (g : A → bytes) l :
  Forall (λ x, f x ≤ 2 * length (g x)) l →
  list_sum (map (λ x, S (f x)) l) ≤ 2 * length (commas (map g l)) + 2.
Proof.
  intros Hl. pose proof (commas_length (map g l)) as Hc. rewrite length_map, map_map in Hc.
  enough (list_sum (map (λ x, S (f x)) l) ≤ 2 * list_sum (map (λ x, length (g x)) l) + length l) by lia.
  clear Hc. induction Hl; simpl; lia.
Qed.

(** A printed value is at least half as long as its fuel. *)
Lemma json_fuel_print d j : json_plain d j = true → json_fuel j ≤ 2 * length (json_print j).
Proof.
  revert d. induction j as [|b|z|t|s|l IH|fs IH] using json_nested_ind; intros d Hp.
  1,5: simpl; lia.
  - destruct b; simpl; lia.
  - destruct (number_text_head z) as (b & t & Hz & _). simpl. rewrite Hz. simpl. lia.
  - by destruct d.
  - destruct d as [|d]; [done|]. simpl in Hp.
    cbn [json_fuel json_print length]. rewrite length_app. cbn [length].
    enough (list_sum (map (λ x, S (json_fuel x)) l) ≤ 2 * length (commas (map json_print l)) + 2) by lia.
    apply fuel_commas, Forall_forall. intros x Hx. eapply (Forall_forall _ _) in IH; [|exact Hx].
    apply (IH d). rewrite forallb_forall in Hp. apply Hp. by apply list_elem_of_In.
  - destruct d as [|d]; [done|]. simpl in Hp.
    cbn [json_fuel json_print length]. rewrite length_app. cbn [length].
    set (g := λ f : string * json, quote f.1 ++ x3a :: json_print f.2).
    enough (list_sum (map (λ x, S (json_fuel x.2)) fs) ≤ 2 * length (commas (map g fs)) + 2) by lia.
    apply (fuel_commas (λ x, json_fuel x.2) g), Forall_forall. intros x Hx.
    eapply (Forall_forall _ _) in IH; [|exact Hx]. rewrite forallb_forall in Hp.
    pose proof (IH d (Hp x (proj1 (list_elem_of_In _ _) Hx))) as Hf. unfold g. rewrite length_app. simpl. lia.
Qed.

Lemma json_read_print j : json_plain 127 j = true → json_read (json_print j) = Some j.
Proof.
  intros Hp. unfold json_read. pose proof (json_readable j (2 * length (json_print j) + 1) 127 [] Hp) as Hr.
  rewrite (right_id_L [] (++)) in Hr. rewrite Hr; [done| |done]. pose proof (json_fuel_print 127 j Hp). lia.
Qed.

(** The law the program relies on holds of this text layer. *)
Lemma json_text_laws : @JsonTextLaws json_text.
Proof. constructor. intros j Hp. simpl. by rewrite string_bytes_string, json_read_print. Qed.
