(* ===== verification/Protocol.v ===== *)
(** The wire protocol ([src/protocol.rs]): the JSON messages, their derived
    codecs, and the egress subprotocol list. *)
From S2P Require Import Prelude Serde.

Definition PROTOCOL_VERSION : string := "v2.3.0".
Definition SUBPROTOCOL_MAGIC_COOKIE : string := "un80und3d".
Definition VERSION_HEADER : string := "X-BF-Version".

(** ** Messages *)

Record UnboundedPacket := MkPacket {
  source_addr : string;
  pkt_payload : bytes
}.

Inductive SignalMessageType := Genesis | Offer | Answer | Ice.

#[export] Instance SignalMessageType_eq_dec : EqDecision SignalMessageType.
Proof. solve_decision. Defined.

(** The [#[repr(u8)]] discriminants. *)
Definition signal_type_repr (k : SignalMessageType) : Z :=
  match k with Genesis => 0 | Offer => 1 | Answer => 2 | Ice => 3 end.

Record SignalMessage := MkSignal {
  reply_to : string;
  kind : SignalMessageType;
  sig_payload : string
}.

#[export] Instance SignalMessage_eq_dec : EqDecision SignalMessage.
Proof. solve_decision. Defined.

Record Endpoint := MkEndpoint {
  host : string;
  distance : Z
}.

Record PathAssertion := MkPathAssertion {
  allow : option (list Endpoint);
  deny : option (list Endpoint);
  jit_unavailable : bool
}.

Record GenesisMessage := MkGenesis {
  path_assertion : PathAssertion
}.

Definition all_hosts_on_request : PathAssertion :=
  MkPathAssertion (Some [MkEndpoint "$" 1]) None false.

(** [distance] is a [u32]. *)
Definition endpoint_wf (e : Endpoint) : Prop := (0 ≤ distance e ≤ u32_max)%Z.
Definition path_assertion_wf (p : PathAssertion) : Prop :=
  (∀ l, allow p = Some l → Forall endpoint_wf l) ∧ (∀ l, deny p = Some l → Forall endpoint_wf l).

(** ** Derived codecs, from the field names and attributes of the structs *)

Definition signal_type_to_json (k : SignalMessageType) : json := JNum (signal_type_repr k).

Definition signal_type_of_json (j : json) : option SignalMessageType :=
  z ← as_uint u8_max j;
  if decide (z = 0)%Z then Some Genesis
  else if decide (z = 1)%Z then Some Offer
  else if decide (z = 2)%Z then Some Answer
  else if decide (z = 3)%Z then Some Ice
  else None.

Definition signal_to_json (m : SignalMessage) : json :=
  JObj [("ReplyTo", JStr (reply_to m)); ("Type", signal_type_to_json (kind m));
        ("Payload", JStr (sig_payload m))].

Definition signal_of_json (j : json) : option SignalMessage :=
  fs ← struct_entries ["ReplyTo"; "Type"; "Payload"] 3 j;
  r ← req_field as_string "ReplyTo" fs;
  k ← req_field signal_type_of_json "Type" fs;
  p ← req_field as_string "Payload" fs;
  Some (MkSignal r k p).

Definition endpoint_to_json (e : Endpoint) : json :=
  JObj [("Host", JStr (host e)); ("Distance", JNum (distance e))].

Definition endpoint_of_json (j : json) : option Endpoint :=
  fs ← struct_entries ["Host"; "Distance"] 2 j;
  h ← req_field as_string "Host" fs;
  d ← req_field (as_uint u32_max) "Distance" fs;
  Some (MkEndpoint h d).

Definition endpoints_to_json (l : list Endpoint) : json := JArr (endpoint_to_json <$> l).

Definition path_assertion_to_json (p : PathAssertion) : json :=
  JObj [("Allow", of_option endpoints_to_json (allow p));
        ("Deny", of_option endpoints_to_json (deny p));
        ("JITUnavailable", JBool (jit_unavailable p))].

Definition path_assertion_of_json (j : json) : option PathAssertion :=
  fs ← struct_entries ["Allow"; "Deny"; "JITUnavailable"] 3 j;
  a ← opt_field (as_vec endpoint_of_json) "Allow" fs;
  d ← opt_field (as_vec endpoint_of_json) "Deny" fs;
  u ← req_field as_bool "JITUnavailable" fs;
  Some (MkPathAssertion a d u).

Definition genesis_to_json (g : GenesisMessage) : json :=
  JObj [("PathAssertion", path_assertion_to_json (path_assertion g))].

Definition genesis_of_json (j : json) : option GenesisMessage :=
  fs ← struct_entries ["PathAssertion"] 1 j;
  p ← req_field path_assertion_of_json "PathAssertion" fs;
  Some (MkGenesis p).

Section packet.
Context `{Base64}.

(** [base64_payload::serialize] and [base64_payload::deserialize]. *)
Definition payload_to_json (b : bytes) : json := JStr (b64_encode b).
Definition payload_of_json (j : json) : option bytes := s ← as_string j; b64_decode s.

Definition packet_to_json (p : UnboundedPacket) : json :=
  JObj [("SourceAddr", JStr (source_addr p)); ("Payload", payload_to_json (pkt_payload p))].

Definition packet_of_json (j : json) : option UnboundedPacket :=
  fs ← struct_entries ["SourceAddr"; "Payload"] 2 j;
  s ← req_field as_string "SourceAddr" fs;
  p ← req_field payload_of_json "Payload" fs;
  Some (MkPacket s p).

Lemma packet_of_to_json `{!Base64Laws} p : packet_of_json (packet_to_json p) = Some p.
Proof.
  destruct p as [s b]. unfold packet_of_json, packet_to_json, req_field, payload_of_json, payload_to_json. simpl.
  by rewrite b64_decode_encode.
Qed.
End packet.

Lemma signal_type_of_to_json k : signal_type_of_json (signal_type_to_json k) = Some k.
Proof. by destruct k. Qed.

Lemma signal_of_to_json m : signal_of_json (signal_to_json m) = Some m.
Proof. by destruct m as [r [] p]. Qed.

Lemma endpoint_of_to_json e :
  endpoint_wf e → endpoint_of_json (endpoint_to_json e) = Some e.
Proof.
  intros Hw. destruct e as [h d]. unfold endpoint_of_json, endpoint_to_json, req_field.
  cbn [struct_entries mbind option_bind get_field filter list_filter]. simpl.
  rewrite decide_True; [done|]. exact Hw.
Qed.

Lemma endpoints_of_to_json l :
  Forall endpoint_wf l → as_vec endpoint_of_json (endpoints_to_json l) = Some l.
Proof.
  intros Hl. apply as_vec_map. eapply Forall_impl; [exact Hl|]. apply endpoint_of_to_json.
Qed.

(** An [Option<Vec<Endpoint>>] field round-trips. *)
Lemma opt_endpoints_roundtrip k o fs :
  (∀ l, o = Some l → Forall endpoint_wf l) →
  get_field k fs = Some (Some (of_option endpoints_to_json o)) →
  opt_field (as_vec endpoint_of_json) k fs = Some o.
Proof.
  intros Hw Hg. unfold opt_field. rewrite Hg. simpl. destruct o as [l|]; simpl; [|done].
  specialize (Hw l eq_refl). apply endpoints_of_to_json in Hw. simpl in Hw. by rewrite Hw.
Qed.

Lemma path_assertion_of_to_json p :
  path_assertion_wf p → path_assertion_of_json (path_assertion_to_json p) = Some p.
Proof.
  intros [Ha Hd]. destruct p as [a d u]. unfold path_assertion_of_json, path_assertion_to_json.
  cbn [struct_entries mbind option_bind allow deny jit_unavailable] in *.
  rewrite (opt_endpoints_roundtrip "Allow" a) by (auto; reflexivity). cbn [mbind option_bind].
  rewrite (opt_endpoints_roundtrip "Deny" d) by (auto; reflexivity). reflexivity.
Qed.

Lemma genesis_of_to_json g :
  path_assertion_wf (path_assertion g) → genesis_of_json (genesis_to_json g) = Some g.
Proof.
  intros Hw. destruct g as [p]. unfold genesis_of_json, genesis_to_json, req_field.
  cbn [struct_entries mbind option_bind path_assertion get_field filter list_filter] in *. simpl.
  by rewrite path_assertion_of_to_json.
Qed.

(** ** Text level *)
Section text.
Context `{JsonText} `{Base64}.

(** [serde_json::to_vec] of a packet, as the egress sends it, and the consumer's
    [serde_json::from_slice]. *)
Definition encode_packet (p : UnboundedPacket) : bytes := string_bytes (to_string (packet_to_json p)).
Definition decode_packet (b : bytes) : option UnboundedPacket := j ← from_slice b; packet_of_json j.

Definition encode_signal (m : SignalMessage) : bytes := string_bytes (to_string (signal_to_json m)).
Definition decode_signal (b : bytes) : option SignalMessage := j ← from_slice b; signal_of_json j.

Definition encode_genesis (g : GenesisMessage) : string := to_string (genesis_to_json g).

(** [SignalMessage::decode_payload], at the type [T] whose derived decoder is
    [dec]. *)
Definition decode_payload {T} (dec : json → option T) (m : SignalMessage) : option T :=
  j ← from_str (sig_payload m); dec j.

Lemma from_slice_encode `{!JsonTextLaws} j :
  json_plain 127 j = true → from_slice (string_bytes (to_string j)) = Some j.
Proof. intros Hj. unfold from_slice. rewrite bytes_string_bytes. by apply from_to_string. Qed.

Lemma decode_encode_packet `{!JsonTextLaws, !Base64Laws} p : decode_packet (encode_packet p) = Some p.
Proof.
  unfold decode_packet, encode_packet. rewrite from_slice_encode by done. simpl.
  apply packet_of_to_json.
Qed.

Lemma decode_encode_signal `{!JsonTextLaws} m : decode_signal (encode_signal m) = Some m.
Proof.
  unfold decode_signal, encode_signal. rewrite from_slice_encode by done. simpl.
  apply signal_of_to_json.
Qed.

Lemma endpoints_plain d o : json_plain (S (S d)) (of_option endpoints_to_json o) = true.
Proof. destruct o as [l|]; [|by destruct d]. simpl. apply forallb_fmap_true. by destruct d. Qed.

Lemma genesis_plain_depth d g : json_plain (4 + d) (genesis_to_json g) = true.
Proof.
  destruct g as [[a e u]]. pose proof (endpoints_plain d a) as Ha. pose proof (endpoints_plain d e) as He.
  unfold genesis_to_json, path_assertion_to_json. simpl in *. by rewrite Ha, He.
Qed.

Lemma genesis_plain g : json_plain 127 (genesis_to_json g) = true.
Proof. exact (genesis_plain_depth 123 g). Qed.

Lemma decode_genesis_payload `{!JsonTextLaws} g r k :
  path_assertion_wf (path_assertion g) →
  decode_payload genesis_of_json (MkSignal r k (encode_genesis g)) = Some g.
Proof.
  intros Hw. unfold decode_payload, encode_genesis. simpl.
  rewrite from_to_string by apply genesis_plain. simpl. by apply genesis_of_to_json.
Qed.

(** C36: every message of the protocol survives the wire: decoding the bytes
    written for a packet or a signaling envelope gives back that very value, and
    so does decoding a genesis advertisement out of an envelope's payload. *)
Theorem wire_roundtrip `{!JsonTextLaws, !Base64Laws} p m g r k :
  path_assertion_wf (path_assertion g) →
  decode_packet (encode_packet p) = Some p ∧
  decode_signal (encode_signal m) = Some m ∧
  decode_payload genesis_of_json (MkSignal r k (encode_genesis g)) = Some g.
Proof. auto using decode_encode_packet, decode_encode_signal, decode_genesis_payload. Qed.
End text.

(** Decoding does not depend on how the sender laid the object out: the
    fields of a packet or an envelope may come in any order, with any number of
    unknown fields in between, and give the same result (a refusal included). *)
Theorem decode_layout_independent `{Base64} fs fs' extra :
  fs ≡ₚ fs' →
  Forall (λ f, f.1 ∉ ["SourceAddr"; "Payload"; "ReplyTo"; "Type"]) extra →
  packet_of_json (JObj (extra ++ fs)) = packet_of_json (JObj fs') ∧
  signal_of_json (JObj (extra ++ fs)) = signal_of_json (JObj fs').
Proof.
  intros Hp Hextra. induction Hextra as [|[k v] extra Hk _ IH].
  - unfold packet_of_json, signal_of_json. simpl.
    split; by rewrite !(req_field_perm _ _ _ _ Hp).
  - simpl in Hk. rewrite <- (proj1 IH), <- (proj2 IH). clear IH.
    rewrite !not_elem_of_cons in Hk. destruct Hk as (? & ? & ? & ? & _).
    unfold packet_of_json, signal_of_json. simpl.
    split; by rewrite !req_field_unknown by congruence.
Qed.

(** The numeric message type: exactly the four documented numbers decode,
    each to its own constructor, and encoding writes that number. *)
Theorem signal_type_number z k :
  signal_type_of_json (JNum z) = Some k ↔ signal_type_to_json k = JNum z.
Proof.
  unfold signal_type_of_json, signal_type_to_json, as_uint, u8_max. split.
  - case_decide; simpl; [|done]. repeat (case_decide; [by intros [= <-]; subst|]). done.
  - intros [= <-]. by destruct k.
Qed.

(** ** Egress subprotocols *)

Definition egress_subprotocols (csid version : string) : list string :=
  [SUBPROTOCOL_MAGIC_COOKIE; csid; version].

Definition parse_egress_subprotocols (values : list string) : option (string * string) :=
  match values with
  | [_; csid; version] => Some (csid, version)
  | _ => None
  end.

(** [u8::is_ascii_graphic] and [u8::is_ascii_whitespace]. *)
Definition is_ascii_graphic (b : byte) : bool :=
  bool_decide (33 ≤ byte_val b ≤ 126)%Z.
Definition is_ascii_whitespace (b : byte) : bool :=
  bool_decide (b ∈ [x20; x09; x0a; x0c; x0d]).

Definition is_subprotocol_token (value : string) : bool :=
  negb (bool_decide (value = "")) &&
  forallb (λ b, is_ascii_graphic b && negb (bool_decide (b = x2c))) (string_bytes value).

Lemma is_subprotocol_token_spec value :
  is_subprotocol_token value = true ↔
  value ≠ "" ∧ Forall (λ b, (33 ≤ byte_val b ≤ 126)%Z ∧ b ≠ x2c) (string_bytes value).
Proof.
  unfold is_subprotocol_token, is_ascii_graphic.
  rewrite andb_true_iff, negb_true_iff, bool_decide_eq_false, forallb_true_Forall.
  apply and_iff_compat_l. apply Forall_iff. intros b.
  by rewrite andb_true_iff, negb_true_iff, bool_decide_eq_true, bool_decide_eq_false.
Qed.

Lemma wire_roundtrip_witness :
  @decode_packet gen_json_text base64_standard
    (@encode_packet gen_json_text base64_standard (MkPacket "path" [x01; xff])) =
  Some (MkPacket "path" [x01; xff]).
Proof.
  exact (proj1 (@wire_roundtrip gen_json_text base64_standard gen_json_text_laws
    base64_standard_laws (MkPacket "path" [x01; xff]) (MkSignal "r" Ice "{}")
    (MkGenesis all_hosts_on_request) "r" Genesis
    ltac:(split; intros l [= <-]; repeat constructor; simpl; unfold u32_max; simpl; lia))).
Defined.

Lemma decode_layout_independent_witness :
  signal_of_json (JObj [("Extra", JNull); ("Payload", JStr "p"); ("Type", JNum 1); ("ReplyTo", JStr "r")])
  = Some (MkSignal "r" Offer "p").
Proof.
  pose (fs := [("Payload", JStr "p"); ("Type", JNum 1); ("ReplyTo", JStr "r")]).
  pose (fs' := [("ReplyTo", JStr "r"); ("Type", JNum 1); ("Payload", JStr "p")]).
  refine (eq_trans (proj2 (@decode_layout_independent base64_standard fs fs' [("Extra", JNull)] _ _)) _).
  - apply (Permutation_rev fs).
  - repeat constructor; simpl; intros Hin; repeat (apply elem_of_cons in Hin as [Hin|Hin]; [discriminate|]); by apply elem_of_nil in Hin.
  - reflexivity.
Defined.
