(* ===== verification/Ice.v ===== *)
(** ICE candidates and the signaling messages that carry them: the private types
    of [src/peer_proxy.rs] and [src/consumer.rs], and the pieces both sessions
    share.

    [RTCIceCandidateType] and [RTCSessionDescription] are serialised by the WebRTC
    crate: their codecs are parameters ([IceTypeCodec], [SdpCodec]). *)
From S2P Require Import Prelude Serde Protocol.

Inductive RTCIceProtocol := Unspecified | Udp | Tcp.

#[export] Instance RTCIceProtocol_eq_dec : EqDecision RTCIceProtocol.
Proof. solve_decision. Defined.

Record RTCIceCandidate (Typ : Type) := MkCandidate {
  stats_id : string;
  foundation : string;
  priority : Z;
  address : string;
  protocol : RTCIceProtocol;
  port : Z;
  typ : Typ;
  component : Z;
  related_address : string;
  related_port : Z;
  tcp_type : string
}.
Arguments MkCandidate {Typ}.
Arguments stats_id {Typ}. Arguments foundation {Typ}. Arguments priority {Typ}.
Arguments address {Typ}. Arguments protocol {Typ}. Arguments port {Typ}.
Arguments typ {Typ}. Arguments component {Typ}. Arguments related_address {Typ}.
Arguments related_port {Typ}. Arguments tcp_type {Typ}.

Inductive RTCPeerConnectionState :=
| StUnspecified | StNew | StConnecting | StConnected | StDisconnected | StFailed | StClosed.

#[export] Instance RTCPeerConnectionState_eq_dec : EqDecision RTCPeerConnectionState.
Proof. solve_decision. Defined.

Definition is_terminal_peer_state (state : RTCPeerConnectionState) : bool :=
  match state with StDisconnected | StFailed | StClosed => true | _ => false end.

Class IceTypeCodec (Typ : Type) := {
  typ_to_json : Typ → json;
  typ_of_json : json → option Typ
}.

Class IceTypeLaws (Typ : Type) `{!IceTypeCodec Typ} := {
  typ_of_to_json : ∀ t, typ_of_json (typ_to_json t) = Some t;
  typ_plain : ∀ t d, json_plain d (typ_to_json t) = true
}.

Class SdpCodec (Sdp : Type) := {
  sdp_to_json : Sdp → json;
  sdp_of_json : json → option Sdp
}.

Class SdpLaws (Sdp : Type) `{!SdpCodec Sdp} := {
  sdp_of_to_json : ∀ s, sdp_of_json (sdp_to_json s) = Some s;
  sdp_plain : ∀ s d, json_plain (S d) (sdp_to_json s) = true
}.

(** ** The candidate as the peer proxy reads it *)
Section pion.
Context {Typ : Type} `{!IceTypeCodec Typ}.

Record PionIceCandidate := MkPion {
  p_foundation : string;
  p_priority : Z;
  p_address : string;
  p_protocol : Z;
  p_port : Z;
  p_typ : Typ;
  p_component : Z;
  p_related_address : string;
  p_related_port : Z;
  p_tcp_type : string;
  p_sdp_mid : option string;
  p_sdp_mline_index : option Z
}.

Definition protocol_of_number (n : Z) : RTCIceProtocol :=
  if decide (n = 1)%Z then Udp else if decide (n = 2)%Z then Tcp else Unspecified.

Definition to_rust_candidate (c : PionIceCandidate) : RTCIceCandidate Typ :=
  MkCandidate "" (p_foundation c) (p_priority c) (p_address c) (protocol_of_number (p_protocol c))
    (p_port c) (p_typ c) (p_component c) (p_related_address c) (p_related_port c) (p_tcp_type c).

Definition pion_fields : list string :=
  ["foundation"; "priority"; "address"; "protocol"; "port"; "type"; "component";
   "relatedAddress"; "relatedPort"; "tcpType"; "sdpMid"; "sdpMLineIndex"].

Definition pion_of_json (j : json) : option PionIceCandidate :=
  fs ← struct_entries pion_fields 10 j;
  foundation ← req_field as_string "foundation" fs;
  priority ← req_field (as_uint u32_max) "priority" fs;
  address ← req_field as_string "address" fs;
  protocol ← req_field (as_uint u8_max) "protocol" fs;
  port ← req_field (as_uint u16_max) "port" fs;
  typ ← req_field typ_of_json "type" fs;
  component ← req_field (as_uint u16_max) "component" fs;
  related_address ← req_field as_string "relatedAddress" fs;
  related_port ← req_field (as_uint u16_max) "relatedPort" fs;
  tcp_type ← req_field as_string "tcpType" fs;
  sdp_mid ← opt_field as_string "sdpMid" fs;
  sdp_mline_index ← opt_field (as_uint u16_max) "sdpMLineIndex" fs;
  Some (MkPion foundation priority address protocol port typ component related_address
          related_port tcp_type sdp_mid sdp_mline_index).

(** The peer proxy's [IceMessage]. *)
Record IceMessage := MkIceMessage {
  candidates : list PionIceCandidate;
  ice_session_id : string
}.

Definition ice_message_of_json (j : json) : option IceMessage :=
  fs ← struct_entries ["Candidates"; "ConsumerSessionID"] 2 j;
  cs ← req_field (as_vec pion_of_json) "Candidates" fs;
  id ← req_field as_string "ConsumerSessionID" fs;
  Some (MkIceMessage cs id).

(** ** The candidate as the consumer writes it *)

Record ConsumerIceCandidate := MkConsumerCandidate {
  c_foundation : string;
  c_priority : Z;
  c_address : string;
  c_protocol : Z;
  c_port : Z;
  c_typ : Typ;
  c_component : Z;
  c_related_address : string;
  c_related_port : Z;
  c_tcp_type : string
}.

Definition protocol_number (p : RTCIceProtocol) : Z :=
  match p with Udp => 1 | Tcp => 2 | Unspecified => 0 end.

(** [From<&RTCIceCandidate> for ConsumerIceCandidate]. *)
Definition from_rtc_candidate (c : RTCIceCandidate Typ) : ConsumerIceCandidate :=
  MkConsumerCandidate (foundation c) (priority c) (address c) (protocol_number (protocol c))
    (port c) (typ c) (component c) (related_address c) (related_port c) (tcp_type c).

Definition consumer_candidate_to_json (c : ConsumerIceCandidate) : json :=
  JObj [("foundation", JStr (c_foundation c)); ("priority", JNum (c_priority c));
        ("address", JStr (c_address c)); ("protocol", JNum (c_protocol c));
        ("port", JNum (c_port c)); ("type", typ_to_json (c_typ c));
        ("component", JNum (c_component c)); ("relatedAddress", JStr (c_related_address c));
        ("relatedPort", JNum (c_related_port c)); ("tcpType", JStr (c_tcp_type c))].

(** The derived [Deserialize], and the conversion back that the consumer's tests
    use. *)
Definition consumer_candidate_of_json (j : json) : option ConsumerIceCandidate :=
  fs ← struct_entries (take 10 pion_fields) 10 j;
  foundation ← req_field as_string "foundation" fs;
  priority ← req_field (as_uint u32_max) "priority" fs;
  address ← req_field as_string "address" fs;
  protocol ← req_field (as_uint u8_max) "protocol" fs;
  port ← req_field (as_uint u16_max) "port" fs;
  typ ← req_field typ_of_json "type" fs;
  component ← req_field (as_uint u16_max) "component" fs;
  related_address ← req_field as_string "relatedAddress" fs;
  related_port ← req_field (as_uint u16_max) "relatedPort" fs;
  tcp_type ← req_field as_string "tcpType" fs;
  Some (MkConsumerCandidate foundation priority address protocol port typ component related_address
          related_port tcp_type).
Definition to_rtc_candidate (c : ConsumerIceCandidate) : RTCIceCandidate Typ :=
  MkCandidate "" (c_foundation c) (c_priority c) (c_address c) (protocol_of_number (c_protocol c))
    (c_port c) (c_typ c) (c_component c) (c_related_address c) (c_related_port c) (c_tcp_type c).

(** The consumer's [IceMessage]. *)
Record ConsumerIceMessage := MkConsumerIceMessage {
  cm_candidates : list ConsumerIceCandidate;
  cm_session_id : string
}.

Definition consumer_ice_to_json (m : ConsumerIceMessage) : json :=
  JObj [("Candidates", JArr (consumer_candidate_to_json <$> cm_candidates m));
        ("ConsumerSessionID", JStr (cm_session_id m))].

Definition consumer_ice_of_json (j : json) : option ConsumerIceMessage :=
  fs ← struct_entries ["Candidates"; "ConsumerSessionID"] 2 j;
  cs ← req_field (as_vec consumer_candidate_of_json) "Candidates" fs;
  id ← req_field as_string "ConsumerSessionID" fs;
  Some (MkConsumerIceMessage cs id).

(** ** Across the wire *)

Definition candidate_wf (c : RTCIceCandidate Typ) : Prop :=
  (0 ≤ priority c ≤ u32_max ∧ 0 ≤ port c ≤ u16_max ∧
   0 ≤ component c ≤ u16_max ∧ 0 ≤ related_port c ≤ u16_max)%Z.

(** What arrives of a candidate: all of it but the local statistics id. *)
Definition without_stats_id (c : RTCIceCandidate Typ) : RTCIceCandidate Typ :=
  MkCandidate "" (foundation c) (priority c) (address c) (protocol c) (port c) (typ c)
    (component c) (related_address c) (related_port c) (tcp_type c).

Lemma protocol_of_number_number p : protocol_of_number (protocol_number p) = p.
Proof. by destruct p. Qed.

(** The record the peer reads from a candidate the consumer wrote. *)
Definition as_pion (c : RTCIceCandidate Typ) : PionIceCandidate :=
  MkPion (foundation c) (priority c) (address c) (protocol_number (protocol c)) (port c) (typ c)
    (component c) (related_address c) (related_port c) (tcp_type c) None None.

Lemma req_field_lookup {A} (dec : json → option A) k fs j :
  get_field k fs = Some (Some j) → req_field dec k fs = dec j.
Proof. intros Hg. unfold req_field. by rewrite Hg. Qed.

Lemma pion_of_consumer_json `{!IceTypeLaws Typ} c :
  candidate_wf c → pion_of_json (consumer_candidate_to_json (from_rtc_candidate c)) = Some (as_pion c).
Proof.
  intros (H1 & H2 & H3 & H4). destruct c as [? f p a pr po t co ra rp tc]. simpl in *.
  unfold pion_of_json, from_rtc_candidate, consumer_candidate_to_json, opt_field.
  cbn [struct_entries mbind option_bind].
  erewrite !req_field_lookup by reflexivity. cbn [as_string option_bind mbind].
  rewrite typ_of_to_json. rewrite (as_uint_range u32_max), !(as_uint_range u16_max) by done.
  by destruct pr.
Qed.
End pion.

Arguments PionIceCandidate : clear implicits.
Arguments IceMessage : clear implicits.
Arguments ConsumerIceCandidate : clear implicits.
Arguments ConsumerIceMessage : clear implicits.

Section exchange.
Context {Typ : Type} `{!IceTypeCodec Typ, !IceTypeLaws Typ} `{JsonText} `{!JsonTextLaws}.

(** The text the consumer sends for the candidates it gathered. *)
Definition ice_payload (cs : list (RTCIceCandidate Typ)) (session_id : string) : string :=
  to_string (consumer_ice_to_json (MkConsumerIceMessage (from_rtc_candidate <$> cs) session_id)).

Lemma consumer_ice_plain d (m : ConsumerIceMessage Typ) : json_plain (3 + d) (consumer_ice_to_json m) = true.
Proof.
  unfold consumer_ice_to_json. simpl. rewrite andb_true_r.
  apply forallb_fmap_true. intros c. simpl. rewrite typ_plain. by destruct d.
Qed.

(** C30: the two ends agree on candidates: what the peer proxy decodes from the
    consumer's ICE message, converted back, is the list of candidates the consumer
    gathered, in order and field by field (the local statistics id apart), with the
    consumer's session id. *)
Theorem ice_candidates_roundtrip cs session_id reply :
  Forall candidate_wf cs →
  ∃ m, decode_payload ice_message_of_json (MkSignal reply Ice (ice_payload cs session_id)) = Some m ∧
    to_rust_candidate <$> candidates m = without_stats_id <$> cs ∧
    ice_session_id m = session_id ∧
    Forall (λ c, p_sdp_mid c = None ∧ p_sdp_mline_index c = None) (candidates m).
Proof.
  intros Hcs. exists (MkIceMessage (as_pion <$> cs) session_id). split_and!.
  - unfold decode_payload, ice_payload. cbn [sig_payload].
    rewrite from_to_string by apply (consumer_ice_plain 124). cbn [mbind option_bind].
    unfold ice_message_of_json, consumer_ice_to_json. cbn [struct_entries mbind option_bind].
    erewrite !req_field_lookup by reflexivity. cbn [as_string cm_candidates cm_session_id].
    assert (Hvec : as_vec pion_of_json
      (JArr (consumer_candidate_to_json <$> (from_rtc_candidate <$> cs))) = Some (as_pion <$> cs)).
    { simpl. apply mapM_Some_2. rewrite !Forall2_fmap_l, Forall2_fmap_r.
      apply Forall_Forall2_diag. eapply Forall_impl; [exact Hcs|]. apply pion_of_consumer_json. }
    by rewrite Hvec.
  - simpl. rewrite <- list_fmap_compose. apply list_fmap_ext. intros i c _. simpl.
    unfold to_rust_candidate, as_pion, without_stats_id. simpl. by rewrite protocol_of_number_number.
  - done.
  - simpl. apply Forall_fmap. by apply Forall_true.
Qed.
End exchange.

Module IceDemo.
(** A candidate type written as its name. *)
Instance host_codec : IceTypeCodec unit := {
  typ_to_json _ := JStr "host";
  typ_of_json j := match j with JStr "host" => Some tt | _ => None end
}.
Instance host_laws : IceTypeLaws unit.
Proof. split; [by intros []|by intros t []]. Qed.

Definition candidate : RTCIceCandidate unit :=
  MkCandidate "stats" "f1" 2130706431 "192.0.2.7" Udp 50000 tt 1 "" 0 "".

Lemma ice_candidates_roundtrip_witness :
  ∃ m, @decode_payload gen_json_text _ ice_message_of_json
      (MkSignal "r" Ice (@ice_payload unit _ gen_json_text [candidate] "csid")) = Some m ∧
    to_rust_candidate <$> candidates m = [without_stats_id candidate].
Proof.
  assert (Hwf : Forall candidate_wf [candidate]).
  { repeat constructor; simpl; unfold u32_max, u16_max; lia. }
  destruct (@ice_candidates_roundtrip unit _ _ gen_json_text gen_json_text_laws [candidate] "csid" "r" Hwf)
    as (m & Hm & Hc & _).
  exists m. split; [exact Hm|exact Hc].
Defined.
End IceDemo.
