(* ===== verification/Relay.v ===== *)
(** The packet relay of the peer proxy ([src/relay.rs]).

    [DatagramTransport] is the trait the two ends implement.  A send is awaited to
    completion; a receive is polled, as [tokio::select!] does.  The relay's
    [select!] is not biased: which branch it polls first is random, so a run of the
    loop is driven by a schedule that says, iteration by iteration, which side that
    was; between iterations the outside world may change the transports (packets
    arrive, connections close). *)
From S2P Require Import Prelude.

Class DatagramTransport (E T : Type) := {
  send_packet : bytes → T → result unit E * T;
  recv_packet : T → poll (result (option bytes) E) * T
}.

Inductive RelayEnd := PeerClosed | EgressClosed.

#[export] Instance RelayEnd_eq_dec : EqDecision RelayEnd.
Proof. solve_decision. Defined.

Inductive RelayError (E : Type) :=
| RelayPeer (source : E)
| RelayEgress (source : E).
Arguments RelayPeer {E} source.
Arguments RelayEgress {E} source.

(** The branch the [select!] polls first. *)
Inductive side := PeerSide | EgressSide.

Section relay.
Context {E P Q : Type} `{!DatagramTransport E P} `{!DatagramTransport E Q}.

Abbreviation outcome := (option (result RelayEnd (RelayError E))).

(** The two branch bodies: [Some r] when the function returns [r]. *)
Definition on_peer (packet : result (option bytes) E) (peer : P) (egress : Q) : outcome * P * Q :=
  match packet with
  | Err e => (Some (Err (RelayPeer e)), peer, egress)
  | Ok None => (Some (Ok PeerClosed), peer, egress)
  | Ok (Some packet) =>
      let '(sent, egress) := send_packet packet egress in
      match sent with
      | Err e => (Some (Err (RelayEgress e)), peer, egress)
      | Ok _ => (None, peer, egress)
      end
  end.

Definition on_egress (packet : result (option bytes) E) (peer : P) (egress : Q) : outcome * P * Q :=
  match packet with
  | Err e => (Some (Err (RelayEgress e)), peer, egress)
  | Ok None => (Some (Ok EgressClosed), peer, egress)
  | Ok (Some packet) =>
      let '(sent, peer) := send_packet packet peer in
      match sent with
      | Err e => (Some (Err (RelayPeer e)), peer, egress)
      | Ok _ => (None, peer, egress)
      end
  end.

(** One pass over the [select!]; with no branch ready it waits. *)
Definition relay_step (first : side) (peer : P) (egress : Q) : outcome * P * Q :=
  match first with
  | PeerSide =>
      match recv_packet peer with
      | (Ready packet, peer) => on_peer packet peer egress
      | (Pending, peer) =>
          match recv_packet egress with
          | (Ready packet, egress) => on_egress packet peer egress
          | (Pending, egress) => (None, peer, egress)
          end
      end
  | EgressSide =>
      match recv_packet egress with
      | (Ready packet, egress) => on_egress packet peer egress
      | (Pending, egress) =>
          match recv_packet peer with
          | (Ready packet, peer) => on_peer packet peer egress
          | (Pending, peer) => (None, peer, egress)
          end
      end
  end.

Inductive relay_event :=
| Select (first : side)
| Outside (f : P → P) (g : Q → Q).

(** The loop, for as long as the schedule lasts; [None] when it is still running
    at the end of it. *)
Fixpoint relay (schedule : list relay_event) (peer : P) (egress : Q) : outcome * P * Q :=
  match schedule with
  | [] => (None, peer, egress)
  | Outside f g :: rest => relay rest (f peer) (g egress)
  | Select first :: rest =>
      match relay_step first peer egress with
      | (Some r, peer, egress) => (Some r, peer, egress)
      | (None, peer, egress) => relay rest peer egress
      end
  end.

(** Once the relay has returned, a longer schedule changes nothing. *)
Lemma relay_app s1 s2 peer egress :
  relay (s1 ++ s2) peer egress =
  match relay s1 peer egress with
  | (Some r, p, e) => (Some r, p, e)
  | (None, p, e) => relay s2 p e
  end.
Proof.
  revert peer egress. induction s1 as [|[first|f g] s1 IH]; intros peer egress; simpl; [done| |apply IH].
  destruct (relay_step first peer egress) as [[[r|] p] e]; [done|]. apply IH.
Qed.
End relay.

Arguments relay_event : clear implicits.

(** ** Observing a transport

    [Logged T] is [T] with the packets it delivered and accepted written down;
    it is a transport of its own, so the relay can be run over it. *)
Record Logged (T : Type) := MkLogged {
  inner : T;
  sent : list bytes;
  received : list bytes
}.
Arguments MkLogged {T} _ _ _.
Arguments inner {T} _.
Arguments sent {T} _.
Arguments received {T} _.

Definition watch {T} (t : T) : Logged T := MkLogged t [] [].

#[export] Instance logged_transport {E T} `{!DatagramTransport E T} : DatagramTransport E (Logged T) := {
  send_packet b t :=
    let '(r, t') := send_packet b (inner t) in
    (r, MkLogged t' (if is_ok r then sent t ++ [b] else sent t) (received t));
  recv_packet t :=
    let '(r, t') := recv_packet (inner t) in
    (r, MkLogged t' (sent t)
          (match r with Ready (Ok (Some b)) => received t ++ [b] | _ => received t end))
}.

(** The same schedule over observed transports: the outside world does not see
    the logs. *)
Definition watch_event {P Q} (ev : relay_event P Q) : relay_event (Logged P) (Logged Q) :=
  match ev with
  | Select first => Select first
  | Outside f g =>
      Outside (λ p, MkLogged (f (inner p)) (sent p) (received p))
              (λ q, MkLogged (g (inner q)) (sent q) (received q))
  end.

(** Opens the receives and sends of a relay pass. *)
Ltac relay_cases :=
  repeat match goal with
  | |- context [recv_packet ?t] => destruct (recv_packet t) as [[[[?|]|?]|] ?] eqn:?
  | |- context [send_packet ?b ?t] => destruct (send_packet b t) as [[[]|?] ?] eqn:?
  end.

Section observed.
Context {E P Q : Type} `{!DatagramTransport E P} `{!DatagramTransport E Q}.

(** Logging does not change what the relay does. *)
Lemma relay_step_erase first (p : Logged P) (q : Logged Q) r p' q' :
  relay_step first p q = (r, p', q') →
  relay_step first (inner p) (inner q) = (r, inner p', inner q').
Proof.
  destruct p as [p ps pr], q as [q qs qr]. unfold relay_step, on_peer, on_egress.
  destruct first; simpl; relay_cases; simpl; relay_cases; intros; simplify_eq/=; congruence.
Qed.

Lemma relay_erase schedule (p : Logged P) (q : Logged Q) r p' q' :
  relay (watch_event <$> schedule) p q = (r, p', q') →
  relay schedule (inner p) (inner q) = (r, inner p', inner q').
Proof.
  revert p q. induction schedule as [|[first|f g] rest IH]; intros p q; simpl;
    [by intros; simplify_eq| |apply IH].
  destruct (relay_step first p q) as [[r0 p0] q0] eqn:Hs.
  rewrite (relay_step_erase _ _ _ _ _ _ Hs). destruct r0; [by intros; simplify_eq|]. apply IH.
Qed.

(** Packets taken from [src] and not passed on to [dst]: none, or the single one
    whose send failed with the error the relay returned. *)
Definition in_transit {A B} (src : Logged A) (dst : Logged B)
    (r : option (result RelayEnd (RelayError E))) (failed : E → RelayError E) : Prop :=
  received src = sent dst ∨
  ∃ b x, received src = sent dst ++ [b] ∧ r = Some (Err (failed x)).

Lemma relay_step_log first (p : Logged P) (q : Logged Q) r p' q' :
  relay_step first p q = (r, p', q') →
  received p = sent q → received q = sent p →
  in_transit p' q' r RelayEgress ∧ in_transit q' p' r RelayPeer.
Proof.
  unfold in_transit, relay_step, on_peer, on_egress. intros Hs Hp Hq. revert Hs.
  destruct first; simpl; relay_cases; simpl; relay_cases; intros; simplify_eq/=;
    rewrite ?Hp, ?Hq; (split; first [left; congruence | right; do 2 eexists; split; reflexivity]).
Qed.

(** The logs of a run that starts with matching ones. *)
Lemma relay_log schedule (p0 : Logged P) (q0 : Logged Q) r p q :
  relay (watch_event <$> schedule) p0 q0 = (r, p, q) →
  received p0 = sent q0 → received q0 = sent p0 →
  in_transit p q r RelayEgress ∧ in_transit q p r RelayPeer.
Proof.
  revert p0 q0. induction schedule as [|[first|f g] rest IH]; intros p0 q0; simpl.
  - intros; simplify_eq. unfold in_transit. auto.
  - destruct (relay_step first p0 q0) as [[r0 p1] q1] eqn:Hs. intros Hr Hp Hq.
    destruct (relay_step_log _ _ _ _ _ _ Hs Hp Hq) as [H1 H2].
    destruct r0 as [r0|]; [by simplify_eq|].
    destruct H1 as [H1|(? & ? & _ & [=])], H2 as [H2|(? & ? & _ & [=])]. by eapply IH.
  - intros Hr Hp Hq. by eapply IH.
Qed.

(** C7: the relay is transparent: whatever the transports and the outside world
    do and however the receives interleave, it passes on to each side exactly the
    packets it took from the other, unaltered, in order, without loss or
    duplication; the one packet it can hold when it stops is the one whose send
    failed, and then it reports that side's error. *)
Theorem relay_transparent schedule (peer : P) (egress : Q) :
  let '(r, p, q) := relay (watch_event <$> schedule) (watch peer) (watch egress) in
  relay schedule peer egress = (r, inner p, inner q) ∧
  in_transit p q r RelayEgress ∧ in_transit q p r RelayPeer.
Proof.
  destruct (relay (watch_event <$> schedule) (watch peer) (watch egress)) as [[r p] q] eqn:Hr.
  split; [by apply (relay_erase _ _ _ _ _ _ Hr)|]. by eapply relay_log.
Qed.

(** Every return of the relay is accounted for by the side it names: a clean
    end or an error of that side's receive, or an error of its send of a packet
    the other side delivered. *)
Theorem relay_step_outcome first (peer : P) (egress : Q) r peer' egress' :
  relay_step first peer egress = (Some r, peer', egress') →
  match r with
  | Ok PeerClosed => (recv_packet peer).1 = Ready (Ok None)
  | Ok EgressClosed => (recv_packet egress).1 = Ready (Ok None)
  | Err (RelayPeer x) =>
      (recv_packet peer).1 = Ready (Err x) ∨
      ∃ b t, (recv_packet egress).1 = Ready (Ok (Some b)) ∧ (send_packet b t).1 = Err x ∧
             (t = peer ∨ (first = PeerSide ∧ t = (recv_packet peer).2))
  | Err (RelayEgress x) =>
      (recv_packet egress).1 = Ready (Err x) ∨
      ∃ b t, (recv_packet peer).1 = Ready (Ok (Some b)) ∧ (send_packet b t).1 = Err x ∧
             (t = egress ∨ (first = EgressSide ∧ t = (recv_packet egress).2))
  end.
Proof.
  unfold relay_step, on_peer, on_egress. destruct first; relay_cases; intros; simplify_eq/=; auto;
    right; do 2 eexists; (split; [done|]); (split; [by erewrite <- surjective_pairing || (match goal with
      | H : send_packet _ _ = _ |- _ => by rewrite H end)|]); auto.
Qed.
End observed.

(** ** A scripted transport, for examples *)
Module Script.
Record t := Mk { script : list (result (option bytes) nat); accepts : nat }.

(** Receives follow the script and are not ready after it; the transport accepts
    [accepts] packets, then fails with error 7. *)
#[export] Instance transport : DatagramTransport nat t := {
  recv_packet s :=
    match script s with
    | [] => (Pending, s)
    | r :: rest => (Ready r, Mk rest (accepts s))
    end;
  send_packet _ s :=
    match accepts s with
    | O => (Err 7, s)
    | S n => (Ok tt, Mk (script s) n)
    end
}.

Lemma relay_step_outcome_witness :
  (recv_packet (Mk [Ok (Some [x01])] 0)).1 = Ready (Ok (Some [x01])) ∧
  relay_step PeerSide (Mk [Ok (Some [x01])] 0) (Mk [] 0) = (Some (Err (RelayEgress 7)), Mk [] 0, Mk [] 0).
Proof.
  assert (Hs : relay_step PeerSide (Mk [Ok (Some [x01])] 0) (Mk [] 0) =
    (Some (Err (RelayEgress 7)), Mk [] 0, Mk [] 0)) by reflexivity.
  split; [|exact Hs].
  destruct (relay_step_outcome _ _ _ _ _ _ Hs) as [[=]|(b & t & Hb & _)].
  rewrite Hb. simpl in Hb. by injection Hb as <-.
Defined.

Example relay_both_directions :
  relay [Select PeerSide; Select PeerSide; Outside (λ p, Mk [Ok None] (accepts p)) id; Select EgressSide]
    (Mk [Ok (Some [x01; x02])] 9) (Mk [Ok (Some [x03])] 9) =
  (Some (Ok PeerClosed), Mk [] 8, Mk [] 8).
Proof. reflexivity. Qed.
End Script.
