(* ===== verification/Rtc.v ===== *)
(** The WebRTC side of the transports ([src/rtc.rs]): the API options, the data
    channel's options, and [WebRtcDatagrams], the queue between the data channel's
    callbacks and the code that reads packets.

    The WebRTC stack is outside the repository; what it does here is call the two
    callbacks, with a message or a close, and take packets through [channel_send]. *)
From S2P Require Import Prelude Tokio Relay.

Definition DATA_CHANNEL_LABEL : string := "data".
Definition DEFAULT_DATA_CHANNEL_QUEUE : nat := Pos.to_nat 4096.

(** ** API options *)

Inductive NetworkType := Udp4 | Udp6.

Record ClientHello (Suite Ext : Type) := MkHello {
  cipher_suites : list Suite;
  extensions : list Ext
}.
Arguments MkHello {Suite Ext} _ _.
Arguments cipher_suites {Suite Ext} _.
Arguments extensions {Suite Ext} _.

(** The settings [build_api_with_options] makes: the network types and, when the
    handshake is to be randomised, a hook on the ClientHello. *)
Record ApiSettings (Hello : Type) := MkSettings {
  network_types : list NetworkType;
  client_hello_hook : option (Hello → Hello)
}.
Arguments MkSettings {Hello} _ _.
Arguments network_types {Hello} _.
Arguments client_hello_hook {Hello} _.

(** The registrations of the media engine and the random generator's shuffles
    are parameters. *)
Section api.
Context {X Suite Ext : Type} (register_default_codecs register_default_interceptors : result unit X)
  (shuffle_suites : list Suite → list Suite)
  (shuffle_extensions : list Ext → list Ext).

Definition randomize_hello (hello : ClientHello Suite Ext) : ClientHello Suite Ext :=
  MkHello (shuffle_suites (cipher_suites hello)) (shuffle_extensions (extensions hello)).

Definition build_api_with_options (enable_ipv6 randomize_dtls : bool)
    : result (ApiSettings (ClientHello Suite Ext)) X :=
  let? _ := register_default_codecs in
  let? _ := register_default_interceptors in
  Ok (MkSettings
    ([Udp4] ++ if enable_ipv6 then [Udp6] else [])
    (if randomize_dtls then Some randomize_hello else None)).

Definition build_api : result (ApiSettings (ClientHello Suite Ext)) X :=
  build_api_with_options false true.

Definition build_api_with_ipv6 (enable_ipv6 : bool) : result (ApiSettings (ClientHello Suite Ext)) X :=
  build_api_with_options enable_ipv6 true.
End api.

Record RTCDataChannelInit := MkInit {
  ordered : option bool;
  max_retransmits : option Z
}.

(** What [create_unreliable_data_channel] asks for: neither order nor
    retransmission. *)
Definition unreliable_data_channel : string * RTCDataChannelInit :=
  (DATA_CHANNEL_LABEL, MkInit (Some false) (Some 0%Z)).

(** ** The datagram queue *)

Inductive WebRtcDatagramError (X : Type) :=
| RtcTextMessage
| RtcWebRtc (error : X).
Arguments RtcTextMessage {X}.
Arguments RtcWebRtc {X} error.

Inductive ChannelEvent := Packet (data : bytes) | Text | Closed.

#[export] Instance ChannelEvent_eq_dec : EqDecision ChannelEvent.
Proof. solve_decision. Defined.

Record DataChannelMessage := MkMessage {
  is_string : bool;
  data : bytes
}.

Section datagrams.
Context {chan : Type → Type} `{!Mpsc chan} {X C : Type}.
Variable channel_send : bytes → C → result Z X * C.

(** [detached] counts the spawned tasks that wait for room for a [Closed]. *)
Record WebRtcDatagrams := MkDatagrams {
  channel : C;
  events : chan ChannelEvent;
  detached : nat
}.

(** The two callbacks keep a sender each.  [None]: the assertion failed. *)
Definition with_capacity (channel : C) (capacity : nat) : option WebRtcDatagrams :=
  if decide (0 < capacity) then
    Some (MkDatagrams channel (mpsc_clone_tx (mpsc_new capacity)) 0)
  else None.

Definition datagrams_new (channel : C) : option WebRtcDatagrams :=
  with_capacity channel DEFAULT_DATA_CHANNEL_QUEUE.

Definition message_event (m : DataChannelMessage) : ChannelEvent :=
  if is_string m then Text else Packet (data m).

(** The message callback: a clone of the sender lives for the call. *)
Definition on_message (m : DataChannelMessage) (d : WebRtcDatagrams) : WebRtcDatagrams :=
  let '(_, ch) := mpsc_try_send (message_event m) (mpsc_clone_tx (events d)) in
  MkDatagrams (channel d) (mpsc_drop_tx ch) (detached d).

(** The close callback: the clone moves into a spawned task when the queue does
    not take the event at once. *)
Definition on_close (d : WebRtcDatagrams) : WebRtcDatagrams :=
  let '(r, ch) := mpsc_try_send Closed (mpsc_clone_tx (events d)) in
  if is_err r then MkDatagrams (channel d) ch (S (detached d))
  else MkDatagrams (channel d) (mpsc_drop_tx ch) (detached d).

(** A spawned task is polled; when its send is over its sender is dropped. *)
Definition poll_detached (d : WebRtcDatagrams) : WebRtcDatagrams :=
  match detached d with
  | O => d
  | S n =>
      match mpsc_poll_send Closed (events d) with
      | (Pending, ch) => MkDatagrams (channel d) ch (S n)
      | (Ready _, ch) => MkDatagrams (channel d) (mpsc_drop_tx ch) n
      end
  end.

Definition rtc_send_packet (packet : bytes) (d : WebRtcDatagrams)
    : result unit (WebRtcDatagramError X) * WebRtcDatagrams :=
  let '(r, c) := channel_send packet (channel d) in
  (map_err RtcWebRtc (let? _ := r in Ok tt), MkDatagrams c (events d) (detached d)).

Definition rtc_recv_packet (d : WebRtcDatagrams)
    : poll (result (option bytes) (WebRtcDatagramError X)) * WebRtcDatagrams :=
  let '(e, ch) := mpsc_poll_recv (events d) in
  (match e with
   | Pending => Pending
   | Ready (Some (Packet packet)) => Ready (Ok (Some packet))
   | Ready (Some Text) => Ready (Err RtcTextMessage)
   | Ready (Some Closed) | Ready None => Ready (Ok None)
   end, MkDatagrams (channel d) ch (detached d)).

#[local] Instance rtc_transport : DatagramTransport (WebRtcDatagramError X) WebRtcDatagrams := {
  send_packet := rtc_send_packet;
  recv_packet := rtc_recv_packet
}.

(** What can happen to the queue, in any order. *)
Inductive rtc_event :=
| OnMessage (m : DataChannelMessage)
| OnClose
| PollDetached
| PollRecv.

(** The results of the reads that completed, in order. *)
Fixpoint rtc_run (evs : list rtc_event) (d : WebRtcDatagrams)
    : list (result (option bytes) (WebRtcDatagramError X)) * WebRtcDatagrams :=
  match evs with
  | [] => ([], d)
  | OnMessage m :: evs => rtc_run evs (on_message m d)
  | OnClose :: evs => rtc_run evs (on_close d)
  | PollDetached :: evs => rtc_run evs (poll_detached d)
  | PollRecv :: evs =>
      let '(r, d) := recv_packet d in
      let '(rs, d) := rtc_run evs d in
      (match r with Ready r => r :: rs | Pending => rs end, d)
  end.
End datagrams.

Arguments WebRtcDatagrams : clear implicits.

Section properties.
Context {chan : Type → Type} `{!Mpsc chan} `{!MpscSpec chan} {X C : Type}.
Variable channel_send : bytes → C → result Z X * C.
Implicit Types d : WebRtcDatagrams chan C.

Abbreviation queued d := (q_items (view (events d))).
Abbreviation run := (rtc_run channel_send).

(** The queue as the callbacks keep it: open, within its capacity, with one
    sender per callback and per waiting task. *)
Record datagrams_wf (cap : nat) d : Prop := {
  wf_cap : q_cap (view (events d)) = cap;
  wf_pos : 0 < cap;
  wf_bound : length (queued d) ≤ cap;
  wf_rx : q_rx (view (events d)) = true;
  wf_tx : q_tx (view (events d)) = 2 + detached d
}.

Lemma with_capacity_wf c cap d : with_capacity c cap = Some d → datagrams_wf cap d ∧ queued d = [].
Proof.
  unfold with_capacity. case_decide; intros; simplify_eq/=. split; [split|]; simpl; mpsc_simpl; auto with lia.
Qed.

Lemma on_message_spec cap m d :
  datagrams_wf cap d → datagrams_wf cap (on_message m d) ∧
  detached (on_message m d) = detached d ∧
  queued (on_message m d) =
    if decide (length (queued d) < cap) then queued d ++ [message_event m] else queued d.
Proof.
  intros [Hc Hp Hb Hr Ht]. unfold on_message.
  destruct (mpsc_try_send _ _) as [r ch] eqn:E.
  assert (Hv : view ch = (q_try_send (message_event m) (q_clone_tx (view (events d)))).2).
  { rewrite <- view_clone_tx, <- mpsc_try_send_snd. by rewrite E. }
  destruct (q_try_send_cases (message_event m) (q_clone_tx (view (events d))))
    as [(H1&H2&H3)|[(H1&H2&H3)|(H1&H3)]]; rewrite H3 in Hv; simpl in *; [..|congruence].
  - rewrite Hc in H2. rewrite decide_True by done.
    split; [|split; [done|]]; [split|]; simpl; mpsc_simpl; rewrite ?Hv; simpl; auto.
    rewrite length_app; simpl; lia.
  - rewrite decide_False by lia.
    split; [|split; [done|]]; [split|]; simpl; mpsc_simpl; rewrite ?Hv; simpl; auto.
Qed.

Lemma on_close_spec cap d :
  datagrams_wf cap d → datagrams_wf cap (on_close d) ∧
  if decide (length (queued d) < cap)
  then queued (on_close d) = queued d ++ [Closed] ∧ detached (on_close d) = detached d
  else queued (on_close d) = queued d ∧ detached (on_close d) = S (detached d).
Proof.
  intros [Hc Hp Hb Hr Ht]. unfold on_close.
  pose proof (mpsc_try_send_fst Closed (mpsc_clone_tx (events d))) as Hf.
  pose proof (mpsc_try_send_snd Closed (mpsc_clone_tx (events d))) as Hv.
  destruct (mpsc_try_send _ _) as [r ch]. rewrite view_clone_tx in *. simpl in Hf, Hv. subst r.
  destruct (q_try_send_cases Closed (q_clone_tx (view (events d))))
    as [(H1&H2&H3)|[(H1&H2&H3)|(H1&H3)]]; rewrite H3 in *; simpl in *; [..|congruence].
  - rewrite Hc in H2. rewrite decide_True by done.
    split; [split|]; simpl; mpsc_simpl; rewrite ?Hv; simpl; auto.
    rewrite length_app; simpl; lia.
  - rewrite decide_False by lia.
    split; [split|]; simpl; mpsc_simpl; rewrite ?Hv; simpl; auto.
Qed.

Lemma poll_detached_spec cap d :
  datagrams_wf cap d → datagrams_wf cap (poll_detached d) ∧
  match detached d with
  | O => poll_detached d = d
  | S n =>
      if decide (length (queued d) < cap)
      then queued (poll_detached d) = queued d ++ [Closed] ∧ detached (poll_detached d) = n
      else queued (poll_detached d) = queued d ∧ detached (poll_detached d) = S n
  end.
Proof.
  intros Hwf. pose proof Hwf as [Hc Hp Hb Hr Ht]. unfold poll_detached.
  destruct (detached d) as [|n] eqn:Hd; [done|].
  pose proof (mpsc_poll_send_fst Closed (events d)) as Hf.
  pose proof (mpsc_poll_send_snd Closed (events d)) as Hv.
  destruct (mpsc_poll_send _ _) as [r ch]. simpl in Hf, Hv. subst r. unfold q_poll_send in *.
  destruct (q_try_send_cases Closed (view (events d)))
    as [(H1&H2&H3)|[(H1&H2&H3)|(H1&H3)]]; rewrite H3 in *; simpl in *; [..|congruence].
  - rewrite Hc in H2. rewrite decide_True by done.
    split; [split|]; simpl; mpsc_simpl; rewrite ?Hv; simpl; auto with lia.
    rewrite length_app; simpl; lia.
  - rewrite decide_False by lia. split; [split|]; simpl; rewrite ?Hv; simpl; auto.
Qed.

(** How a queued event reads. *)
Definition reading (e : ChannelEvent) : result (option bytes) (WebRtcDatagramError X) :=
  match e with
  | Packet b => Ok (Some b)
  | Text => Err RtcTextMessage
  | Closed => Ok None
  end.

Lemma rtc_recv_spec cap d :
  datagrams_wf cap d → ∃ d', datagrams_wf cap d' ∧ detached d' = detached d ∧
  match queued d with
  | [] => rtc_recv_packet (X := X) d = (Pending, d') ∧ queued d' = []
  | e :: rest => rtc_recv_packet d = (Ready (reading e), d') ∧ queued d' = rest
  end.
Proof.
  intros Hwf. pose proof Hwf as [Hc Hp Hb Hr Ht]. unfold rtc_recv_packet.
  pose proof (mpsc_poll_recv_fst (events d)) as Hf. pose proof (mpsc_poll_recv_snd (events d)) as Hv.
  destruct (mpsc_poll_recv (events d)) as [r ch]. simpl in Hf, Hv. subst r. eexists.
  destruct (q_poll_recv_cases (view (events d))) as [(x&l&Hi&Hq)|[(Hi&H0&Hq)|(Hi&_&Hq)]];
    rewrite Hq in *; rewrite Hi in *; simpl in *; [|lia|].
  - split; [|split; [|split; [by destruct x|]]]; [split|..]; simpl; rewrite ?Hv; simpl; auto with lia.
  - split; [|split; [|split; [done|]]]; [split|..]; simpl; rewrite ?Hv; simpl; rewrite ?Hi; auto with lia.
Qed.

Lemma rtc_run_app e1 e2 d :
  run (e1 ++ e2) d =
    let '(r1, d1) := run e1 d in let '(r2, d2) := run e2 d1 in (r1 ++ r2, d2).
Proof.
  revert d. induction e1 as [|[m| | |] e1 IH]; intros d; simpl; [by destruct (run e2 d)|apply IH..|].
  destruct (rtc_recv_packet d) as [r d']. rewrite IH.
  destruct (run e1 d') as [r1 d1]. destruct (run e2 d1) as [r2 d2]. by destruct r.
Qed.

Lemma rtc_run_wf cap evs d : datagrams_wf cap d → datagrams_wf cap (run evs d).2.
Proof.
  revert d. induction evs as [|[m| | |] evs IH]; intros d Hwf; simpl; [done|..].
  - apply IH, (on_message_spec cap m d Hwf).
  - apply IH, (on_close_spec cap d Hwf).
  - apply IH, (poll_detached_spec cap d Hwf).
  - destruct (rtc_recv_spec cap d Hwf) as (d' & Hwf' & _ & Hcase).
    assert (∃ r, rtc_recv_packet (X := X) d = (r, d')) as [r ->].
    { destruct (queued d); destruct Hcase as [-> _]; by eexists. }
    specialize (IH d' Hwf'). by destruct (run evs d') as [rs d1].
Qed.



Abbreviation waiting d := (filter (λ e, e ≠ Closed) (queued d)).








(** ** The close signal *)

(** One turn of the reader: messages may arrive, the reader takes an event, and a
    waiting task gets the freed slot before later messages do (the channel serves
    its waiters in order). *)
Definition turn (ms : list DataChannelMessage) : list rtc_event :=
  (OnMessage <$> ms) ++ [PollRecv; PollDetached].

Fixpoint all_turns (turns : list (list DataChannelMessage)) : list rtc_event :=
  match turns with
  | [] => []
  | ms :: turns => turn ms ++ all_turns turns
  end.

Lemma messages_keep cap ms d :
  datagrams_wf cap d →
  ∃ d' extra, run (OnMessage <$> ms) d = ([], d') ∧ datagrams_wf cap d' ∧
    detached d' = detached d ∧ queued d' = queued d ++ extra.
Proof.
  revert d. induction ms as [|m ms IH]; intros d Hwf.
  { exists d, []. by rewrite app_nil_r. }
  destruct (on_message_spec cap m d Hwf) as (Hwf' & Hd & Hq).
  destruct (IH _ Hwf') as (d' & extra & Hrun & ? & Hd' & Hq').
  rewrite Hq in Hq'. case_decide.
  - exists d', ([message_event m] ++ extra). rewrite (assoc_L (++)). split_and!; [done..|congruence|done].
  - exists d', extra. split_and!; [done..|congruence|done].
Qed.

(** After a turn an event at position [i] is one place further, or was read. *)
Lemma turn_advances cap ms d :
  datagrams_wf cap d →
  ∃ rs d', run (turn ms) d = (rs, d') ∧ datagrams_wf cap d' ∧
    (∀ i, queued d !! i = Some Closed →
       Ok None ∈ rs ∨ ∃ j, i = S j ∧ queued d' !! j = Some Closed) ∧
    (0 < detached d → Closed ∈ queued d').
Proof.
  intros Hwf. unfold turn. rewrite rtc_run_app.
  destruct (messages_keep cap ms d Hwf) as (d1 & extra & -> & Hwf1 & Hd1 & Hq1). simpl.
  destruct (rtc_recv_spec cap d1 Hwf1) as (d2 & Hwf2 & Hd2 & Hrecv).
  destruct (poll_detached_spec cap d2 Hwf2) as (Hwf3 & Hpoll).
  assert (Hsub : ∃ extra', queued (poll_detached d2) = queued d2 ++ extra').
  { destruct (detached d2); [exists []; by rewrite Hpoll, app_nil_r|].
    case_decide; destruct Hpoll as [-> _]; [by eexists|exists []; by rewrite app_nil_r]. }
  destruct Hsub as [extra' Hsub].
  assert (Hroom : queued d2 = [] ∨ length (queued d2) < cap).
  { pose proof (wf_bound _ _ Hwf1). destruct (queued d1) as [|e rest]; destruct Hrecv as [_ ->]; simpl in *; auto. }
  assert (Hdet : 0 < detached d → Closed ∈ queued (poll_detached d2)).
  { intros Hpos. rewrite <- Hd1, <- Hd2 in Hpos. destruct (detached d2); [lia|].
    rewrite decide_True in Hpoll; [destruct Hpoll as [-> _]; apply elem_of_app; right; by left|].
    destruct Hroom as [->|]; [apply Hwf1|done]. }
  destruct (queued d1) as [|e rest] eqn:Hd1q; destruct Hrecv as [-> Hq2]; simpl.
  - exists [], (poll_detached d2). split_and!; [done..| |done].
    intros i Hi. by destruct (queued d).
  - exists [reading e], (poll_detached d2). split_and!; [done..| |done]. intros i Hi.
    assert (Hi1 : (e :: rest) !! i = Some Closed).
    { rewrite Hq1. by apply lookup_app_l_Some. }
    destruct i as [|j]; simpl in Hi1; [left; simplify_eq/=; by left|].
    right. exists j. split; [done|]. rewrite Hsub, Hq2. by apply lookup_app_l_Some.
Qed.

Lemma queued_close_read cap turns i d :
  datagrams_wf cap d → queued d !! i = Some Closed → i < length turns →
  Ok None ∈ (run (all_turns turns) d).1.
Proof.
  revert i d. induction turns as [|ms turns IH]; intros i d Hwf Hi Hlen; simpl in *; [lia|].
  rewrite rtc_run_app. destruct (turn_advances cap ms d Hwf) as (rs & d' & -> & Hwf' & Hadv & _).
  destruct (run (all_turns turns) d') as [rs' d''] eqn:Hrun. simpl.
  destruct (Hadv i Hi) as [Hin|(j & -> & Hj)]; apply elem_of_app; [by left|right].
  specialize (IH j d' Hwf' Hj). rewrite Hrun in IH. apply IH. lia.
Qed.

(** C9: the close signal is never lost: from the moment the data channel reports
    its close, even with a full queue and messages still pouring in, the reader
    sees the end of the stream after at most one turn more than the queue has
    slots; and the callback itself never waits. *)
Theorem close_signal_delivered c cap d0 evs turns :
  with_capacity c cap = Some d0 → cap < length turns →
  Ok None ∈ (run (OnClose :: all_turns turns) (run evs d0).2).1.
Proof.
  intros Hc Hlen. destruct (with_capacity_wf _ _ _ Hc) as [Hwf0 _].
  pose proof (rtc_run_wf cap evs d0 Hwf0) as Hwf. generalize dependent (run evs d0).2.
  intros d Hwf. simpl. destruct (on_close_spec cap d Hwf) as (Hwf' & Hq).
  pose proof (wf_bound _ _ Hwf).
  case_decide as Hroom; destruct Hq as [Hq Hdet].
  - apply (queued_close_read cap turns (length (queued d))); [done| |lia].
    rewrite Hq. by rewrite lookup_app_r, Nat.sub_diag.
  - destruct turns as [|ms turns]; simpl in *; [lia|]. rewrite rtc_run_app.
    destruct (turn_advances cap ms _ Hwf') as (rs & d' & -> & Hwf'' & _ & Hin).
    destruct (run (all_turns turns) d') as [rs' d''] eqn:Hrun. simpl.
    apply elem_of_app. right.
    assert (Closed ∈ queued d') as [i Hi]%list_elem_of_lookup by (apply Hin; lia).
    pose proof (queued_close_read cap turns i d' Hwf'' Hi) as Hread. rewrite Hrun in Hread. apply Hread.
    apply lookup_lt_Some in Hi. pose proof (wf_bound _ _ Hwf''). lia.
Qed.
End properties.

(** ** A full queue *)
Module RtcDemo.
Definition send_nothing : bytes → unit → result Z unit * unit := λ b c, (Ok (Z.of_nat (length b)), c).

Definition packet (b : byte) : DataChannelMessage := MkMessage false [b].

Definition d0 : WebRtcDatagrams Queue unit :=
  MkDatagrams tt (MkQueue [] 2 2 true) 0.

(** Three packets into two slots, a close on the full queue, more packets. *)
Definition busy : list rtc_event :=
  [OnMessage (packet x01); OnMessage (packet x02); OnMessage (packet x03)].

Lemma d0_new : with_capacity tt 2 = Some d0.
Proof. reflexivity. Qed.

Example close_overtakes_later_packets :
  (rtc_run send_nothing (busy ++ OnClose :: all_turns [[]; [packet x04]; []; []]) d0).1 =
  [Ok (Some [x01]); Ok (Some [x02]); Ok None].
Proof. reflexivity. Qed.



Lemma close_signal_delivered_witness :
  Ok None ∈ (rtc_run send_nothing (OnClose :: all_turns [[]; [packet x04]; []])
               (rtc_run send_nothing busy d0).2).1.
Proof.
  exact (close_signal_delivered send_nothing tt 2 d0 busy [[]; [packet x04]; []] d0_new
    (le_n 3 : 2 < length [[]; [packet x04]; []])).
Defined.
End RtcDemo.
