(* ===== verification/Egress.v ===== *)
(** The WebSocket tunnel to the egress server ([src/egress.rs]).

    The WebSocket library is outside the repository.  Its request type, header
    check and [connect_async] are parameters of [connect_with_timeout]; an open
    socket is the sequence of results its stream has for [next] (a packet that has
    arrived, an error, the end) and a sink that takes messages. *)
From S2P Require Import Prelude Protocol Relay.

Definition DEFAULT_EGRESS_CONNECT_TIMEOUT : Z := 10 * 10 ^ 9.

(** [X] is the library's error. *)
Inductive EgressError (X : Type) :=
| EgressRequest (source : X)
| Header
| WebSocket (source : X)
| ConnectTimeout (after : Z)
| MissingSubprotocol
| UnexpectedSubprotocol (selected : string)
| InvalidConsumerSessionId (csid : string)
| TextMessage.
Arguments EgressRequest {X} source.
Arguments Header {X}.
Arguments WebSocket {X} source.
Arguments ConnectTimeout {X} after.
Arguments MissingSubprotocol {X}.
Arguments UnexpectedSubprotocol {X} selected.
Arguments InvalidConsumerSessionId {X} csid.
Arguments TextMessage {X}.

Inductive Message :=
| MText (text : string)
| MBinary (packet : bytes)
| MPing (payload : bytes)
| MPong (payload : bytes)
| MClose
| MFrame.

(** ** Connecting *)
Section connect.
Context {X Req Socket Net : Type}.

(** The request of a URL, setting its [Sec-WebSocket-Protocol] header, the check
    of a header value ([HeaderValue::from_str]), and [connect_async] on a network
    state: [None] when the time limit passes first; otherwise an error or the
    socket with the response's header ([Err] when it is not ASCII). *)
Variable into_client_request : string → result Req X.
Variable insert_protocol : string → Req → Req.
Variable header_value_ok : string → bool.
Variable connect_async :
  Req → Net → option (result (Socket * option (result string unit)) X) * Net.

Definition protocol_header (csid : string) : string :=
  String.concat ", " (egress_subprotocols csid PROTOCOL_VERSION).

(** The check of the subprotocol the server selected. *)
Definition check_selected (header : option (result string unit)) : result unit (EgressError X) :=
  match header with
  | None => Err MissingSubprotocol
  | Some (Err _) => Err (UnexpectedSubprotocol "non-ASCII")
  | Some (Ok selected) =>
      if decide (selected = SUBPROTOCOL_MAGIC_COOKIE) then Ok tt
      else Err (UnexpectedSubprotocol selected)
  end.

Definition connect_with_timeout (url csid : string) (connect_timeout : Z) (net : Net)
    : result Socket (EgressError X) * Net :=
  if is_subprotocol_token csid then
    match into_client_request url with
    | Err e => (Err (EgressRequest e), net)
    | Ok request =>
        let protocols := protocol_header csid in
        if header_value_ok protocols then
          let '(r, net) := connect_async (insert_protocol protocols request) net in
          match r with
          | None => (Err (ConnectTimeout connect_timeout), net)
          | Some (Err e) => (Err (WebSocket e), net)
          | Some (Ok (socket, header)) =>
              (let? _ := check_selected header in Ok socket, net)
          end
        else (Err Header, net)
    end
  else (Err (InvalidConsumerSessionId csid), net).

Definition connect (url csid : string) (net : Net) : result Socket (EgressError X) * Net :=
  connect_with_timeout url csid DEFAULT_EGRESS_CONNECT_TIMEOUT net.
End connect.

(** ** The open tunnel *)
Section tunnel.
Context {X O : Type}.
Variable sink_send : Message → O → result unit X * O.
Variable sink_close : O → result unit X * O.

(** What the stream has for [next]: [None] is its end. *)
Record EgressTunnel := MkTunnel {
  incoming : list (option (result Message X));
  outgoing : O
}.

Definition egress_send (packet : bytes) (t : EgressTunnel) : result unit (EgressError X) * EgressTunnel :=
  let '(r, o) := sink_send (MBinary packet) (outgoing t) in
  (map_err WebSocket r, MkTunnel (incoming t) o).

(** The loop of [recv], over what has arrived. *)
Fixpoint recv_loop (arrived : list (option (result Message X)))
    : poll (result (option bytes) (EgressError X)) * list (option (result Message X)) :=
  match arrived with
  | [] => (Pending, [])
  | None :: rest => (Ready (Ok None), rest)
  | Some (Err e) :: rest => (Ready (Err (WebSocket e)), rest)
  | Some (Ok (MBinary packet)) :: rest => (Ready (Ok (Some packet)), rest)
  | Some (Ok (MPing _)) :: rest => recv_loop rest
  | Some (Ok (MPong _)) :: rest => recv_loop rest
  | Some (Ok MClose) :: rest => (Ready (Ok None), rest)
  | Some (Ok (MText _)) :: rest => (Ready (Err TextMessage), rest)
  | Some (Ok MFrame) :: rest => recv_loop rest
  end.

Definition egress_recv (t : EgressTunnel) : poll (result (option bytes) (EgressError X)) * EgressTunnel :=
  let '(r, rest) := recv_loop (incoming t) in (r, MkTunnel rest (outgoing t)).

Definition egress_close (t : EgressTunnel) : result unit (EgressError X) * EgressTunnel :=
  let '(r, o) := sink_close (outgoing t) in (map_err WebSocket r, MkTunnel (incoming t) o).

#[local] Instance egress_transport : DatagramTransport (EgressError X) EgressTunnel := {
  send_packet := egress_send;
  recv_packet := egress_recv
}.

(** The messages [recv] passes over. *)
Definition is_control (m : option (result Message X)) : bool :=
  match m with Some (Ok (MPing _ | MPong _ | MFrame)) => true | _ => false end.

Definition answer (m : option (result Message X)) : result (option bytes) (EgressError X) :=
  match m with
  | Some (Ok (MBinary packet)) => Ok (Some packet)
  | Some (Ok (MText _)) => Err TextMessage
  | Some (Err e) => Err (WebSocket e)
  | _ => Ok None
  end.

Lemma recv_loop_control ctrl rest :
  Forall (λ m, is_control m = true) ctrl → recv_loop (ctrl ++ rest) = recv_loop rest.
Proof. induction 1 as [|m ctrl Hm _ IH]; [done|]. by destruct m as [[[]|]|]. Qed.

(** Reading the tunnel: control messages never end or fail it, whatever their
    number; the first other message decides, a binary one is delivered unaltered, a
    text one or a transport error is reported, a close ends it; and when only
    control messages have arrived the read waits having lost nothing, so a later
    read sees the next packet. *)
Theorem egress_recv_skips_control ctrl out :
  Forall (λ m, is_control m = true) ctrl →
  (∀ m rest, is_control m = false →
     egress_recv (MkTunnel (ctrl ++ m :: rest) out) = (Ready (answer m), MkTunnel rest out)) ∧
  egress_recv (MkTunnel ctrl out) = (Pending, MkTunnel [] out).
Proof.
  intros Hc. unfold egress_recv. cbn [incoming outgoing]. split.
  - intros m rest Hm. rewrite recv_loop_control by done. by destruct m as [[[]|]|].
  - rewrite <- (app_nil_r ctrl), recv_loop_control by done. done.
Qed.
End tunnel.

(** ** The subprotocol header

    How a server reads it: the comma-separated words, less the white space around
    each. *)
Definition header_words (header : string) : list string :=
  (λ w, bytes_string (trim_by is_ascii_whitespace w)) <$> split_on x2c (string_bytes header).

Definition plain_word (w : bytes) : Prop := (x2c ∉ w) ∧ Forall (λ b, is_ascii_whitespace b = false) w.

Lemma token_plain csid : is_subprotocol_token csid = true → plain_word (string_bytes csid).
Proof.
  intros [_ Hall]%is_subprotocol_token_spec. split.
  - intros Hin. by destruct (proj1 (Forall_forall _ _) Hall _ Hin).
  - eapply Forall_impl; [exact Hall|]. intros b [Hr _]. unfold is_ascii_whitespace.
    apply bool_decide_eq_false. intros Hin.
    repeat (apply elem_of_cons in Hin as [->|Hin]; [unfold byte_val in Hr; simpl in Hr; lia|]).
    by apply elem_of_nil in Hin.
Qed.

Lemma trim_plain w : plain_word w → trim_by is_ascii_whitespace (x20 :: w) = w.
Proof. intros [_ Hw]. rewrite trim_by_cons by done. by apply trim_by_none. Qed.

Lemma header_words_concat a b c :
  is_subprotocol_token a = true → is_subprotocol_token b = true → is_subprotocol_token c = true →
  header_words (String.concat ", " [a; b; c]) = [a; b; c].
Proof.
  intros Ha%token_plain Hb%token_plain Hc%token_plain. unfold header_words. simpl String.concat.
  rewrite !string_bytes_app. change (string_bytes ", ") with [x2c; x20]. simpl app.
  rewrite split_on_app by apply Ha.
  change (x20 :: string_bytes b ++ x2c :: x20 :: string_bytes c)
    with ((x20 :: string_bytes b) ++ x2c :: x20 :: string_bytes c).
  rewrite split_on_app by (apply not_elem_of_cons; split; [done|apply Hb]).
  rewrite split_on_word by (apply not_elem_of_cons; split; [done|apply Hc]).
  simpl. rewrite (trim_by_none _ (string_bytes a)) by apply Ha.
  rewrite !trim_plain, !bytes_string_bytes by done. done.
Qed.

Lemma header_words_token csid :
  is_subprotocol_token csid = true →
  header_words (protocol_header csid) = egress_subprotocols csid PROTOCOL_VERSION.
Proof. intros Ht. by apply header_words_concat. Qed.

Lemma protocol_header_printable csid :
  is_subprotocol_token csid = true →
  Forall (λ b, (32 ≤ byte_val b ≤ 126)%Z) (string_bytes (protocol_header csid)).
Proof.
  assert (Htok : ∀ s, is_subprotocol_token s = true → Forall (λ b, (32 ≤ byte_val b ≤ 126)%Z) (string_bytes s)).
  { intros s [_ Hs]%is_subprotocol_token_spec. eapply Forall_impl; [exact Hs|]. simpl. lia. }
  intros Ht. unfold protocol_header, egress_subprotocols. simpl String.concat. rewrite !string_bytes_app.
  assert (Hsep : Forall (λ b, (32 ≤ byte_val b ≤ 126)%Z) (string_bytes ", ")).
  { repeat constructor; unfold byte_val; simpl; lia. }
  repeat (apply Forall_app; split; auto).
Qed.

Section connect_properties.
Context {X Req Socket Net : Type}.
Variable into_client_request : string → result Req X.
Variable insert_protocol : string → Req → Req.
Variable header_value_ok : string → bool.
Variable connect_async :
  Req → Net → option (result (Socket * option (result string unit)) X) * Net.

(** Header values may hold every printable ASCII character. *)
Hypothesis printable_ok : ∀ s,
  Forall (λ b, (32 ≤ byte_val b ≤ 126)%Z) (string_bytes s) → header_value_ok s = true.

Abbreviation connect_to :=
  (connect_with_timeout into_client_request insert_protocol header_value_ok connect_async).

(** C20: the consumer session id cannot forge subprotocols: an id that is not a
    token is refused before the network is touched; for any other the header the
    server reads splits into exactly the cookie, that id and the version, which the
    parsing side turns back into the id and the version, and the header is never
    the reason of a failure; and a tunnel is handed out only when the server
    answered that very request by selecting the cookie. *)
Theorem egress_connect_no_injection url csid timeout net :
  if is_subprotocol_token csid then
    header_words (protocol_header csid) = [SUBPROTOCOL_MAGIC_COOKIE; csid; PROTOCOL_VERSION] ∧
    parse_egress_subprotocols (header_words (protocol_header csid)) = Some (csid, PROTOCOL_VERSION) ∧
    (connect_to url csid timeout net).1 ≠ Err Header ∧
    ∀ socket net', connect_to url csid timeout net = (Ok socket, net') ↔
      ∃ request, into_client_request url = Ok request ∧
        connect_async (insert_protocol (protocol_header csid) request) net =
          (Some (Ok (socket, Some (Ok SUBPROTOCOL_MAGIC_COOKIE))), net')
  else connect_to url csid timeout net = (Err (InvalidConsumerSessionId csid), net).
Proof.
  destruct (is_subprotocol_token csid) eqn:Ht; [|unfold connect_with_timeout; by rewrite Ht].
  rewrite header_words_token by done. split; [done|]. split; [done|].
  unfold connect_with_timeout. rewrite Ht.
  destruct (into_client_request url) as [request|e]; [|split; [done|]; intros; split; [done|by intros (? & ? & _)]].
  cbn zeta. rewrite printable_ok by by apply protocol_header_printable.
  destruct (connect_async _ net) as [r net'] eqn:Ec. unfold check_selected. split.
  - destruct r as [[[socket [[sel|]|]]|]|]; simpl; try done. by case_decide.
  - intros socket net''. split.
    + destruct r as [[[socket' [[sel|]|]]|]|]; simpl; try done. case_decide; simpl; [|done].
      intros; simplify_eq. eauto.
    + intros (request' & [= <-] & Hr). rewrite Hr in Ec. by simplify_eq.
Qed.
End connect_properties.

Module EgressDemo.
(** A server that selects the cookie; the state records the headers it was sent. *)
Definition server (request : string) (seen : list string)
    : option (result (nat * option (result string unit)) unit) * list string :=
  (Some (Ok (7, Some (Ok SUBPROTOCOL_MAGIC_COOKIE))), seen ++ [request]).

Definition printable (s : string) : bool :=
  forallb (λ b, bool_decide (32 ≤ byte_val b ≤ 126)%Z) (string_bytes s).

Lemma printable_all s :
  Forall (λ b, (32 ≤ byte_val b ≤ 126)%Z) (string_bytes s) → printable s = true.
Proof.
  intros Hs. apply forallb_true_Forall. eapply Forall_impl; [exact Hs|]. intros b Hb. by apply bool_decide_eq_true.
Qed.

Lemma egress_connect_no_injection_witness :
  connect_with_timeout Ok (λ h _, h) printable server "wss://egress" "csid-1" 10 [] =
    (Ok 7, ["un80und3d, csid-1, v2.3.0"]) ∧
  connect_with_timeout (X := unit) Ok (λ h _, h) printable server "wss://egress" "csid, x" 10 [] =
    (Err (InvalidConsumerSessionId "csid, x"), []).
Proof.
  split.
  - destruct (egress_connect_no_injection Ok (λ h _, h) printable server
      printable_all "wss://egress" "csid-1" 10 []) as (_ & _ & _ & Hiff).
    apply Hiff. eexists. split; reflexivity.
  - exact (egress_connect_no_injection Ok (λ h _, h) printable server
      printable_all "wss://egress" "csid, x" 10 []).
Defined.

Lemma egress_recv_skips_control_witness :
  egress_recv (MkTunnel (X := unit) [Some (Ok (MPing [])); Some (Ok (MBinary [x01]))] tt) =
  (Ready (Ok (Some [x01])), MkTunnel [] tt).
Proof.
  refine (proj1 (egress_recv_skips_control [Some (Ok (MPing []))] tt _) (Some (Ok (MBinary [x01]))) [] _);
    [by repeat constructor|reflexivity].
Defined.
End EgressDemo.
