(* ===== verification/Signaling.v ===== *)
(** The Freddie signaling client ([src/signaling.rs]).

    The HTTP client is outside the repository: a request is a value, and the
    transport that answers it is a parameter.  [AdvertisementStream::next] is
    modelled in full, with the response's chunks as the input it reads. *)
From S2P Require Import Prelude Serde Protocol.

(** The error of the HTTP client is opaque. *)
Inductive SignalingError (X : Type) :=
| InvalidEndpoint
| NativeTransport (source : X)
| TransportError (message : string)
| ProtocolVersion (version : string)
| RecipientGone
| Http (status : Z)
| SignalDecode.
Arguments InvalidEndpoint {X}.
Arguments NativeTransport {X} source.
Arguments TransportError {X} message.
Arguments ProtocolVersion {X} version.
Arguments RecipientGone {X}.
Arguments Http {X} status.
Arguments SignalDecode {X}.

Record FreddieClient := MkFreddie {
  endpoint : string;
  version : string
}.

Inductive Method := GET | POST.

Record HttpRequest := MkRequest {
  req_method : Method;
  req_url : string;
  req_headers : list (string * string);
  req_form : list (string * string)
}.

(** The body of a response is read after its status is known, and may fail. *)
Record HttpResponse (X : Type) := MkResponse {
  resp_status : Z;
  resp_body : result bytes X
}.
Arguments MkResponse {X} _ _.
Arguments resp_status {X} _.
Arguments resp_body {X} _.

(** [(kind as u8).to_string()]. *)
Definition signal_type_text (k : SignalMessageType) : string :=
  match k with Genesis => "0" | Offer => "1" | Answer => "2" | Ice => "3" end.

Definition is_blank (b : bytes) : bool := forallb is_ascii_whitespace b.

Section freddie.
Context `{JsonText} {X : Type}.

(** [FreddieClient::with_client]; [parse_url] is the URL parser. *)
Definition with_client (parse_url : string → option string) (url version : string)
    : result FreddieClient (SignalingError X) :=
  match parse_url url with
  | Some endpoint => Ok (MkFreddie endpoint version)
  | None => Err InvalidEndpoint
  end.

(** [FreddieClient::new]; [client] is whether the HTTP client could be built. *)
Definition freddie_new (client : result unit X) (parse_url : string → option string) (url : string)
    : result FreddieClient (SignalingError X) :=
  let? _ := map_err NativeTransport client in
  with_client parse_url url PROTOCOL_VERSION.

Definition exchange_request (self : FreddieClient) (send_to : string) (k : SignalMessageType)
    (payload : string) : HttpRequest :=
  MkRequest POST (endpoint self) [(VERSION_HEADER, version self)]
    [("data", payload); ("send-to", send_to); ("type", signal_type_text k)].

Definition exchange (send : HttpRequest → result (HttpResponse X) X) (self : FreddieClient)
    (send_to : string) (k : SignalMessageType) (payload : string)
    : result (option SignalMessage) (SignalingError X) :=
  let? response := map_err NativeTransport (send (exchange_request self send_to k payload)) in
  let? _ :=
    (if decide (resp_status response = 200)%Z then Ok tt
     else if decide (resp_status response = 418)%Z then Err (ProtocolVersion (version self))
     else if decide (resp_status response = 404)%Z then Err RecipientGone
     else Err (Http (resp_status response))) in
  let? body := map_err NativeTransport (resp_body response) in
  if is_blank body then Ok None
  else let? m := ok_or (decode_signal body) SignalDecode in Ok (Some m).

(** [exchange_json], at a payload whose serialisation is [to_json]. *)
Definition exchange_json {T} (to_json : T → json)
    (send : HttpRequest → result (HttpResponse X) X) (self : FreddieClient)
    (send_to : string) (k : SignalMessageType) (payload : T)
    : result (option SignalMessage) (SignalingError X) :=
  exchange send self send_to k (to_string (to_json payload)).

(** The advertisement stream: the bytes read but not yet returned, and what the
    response's [chunk()] has still to give ([Ok(None)] after the last). *)
Record AdvertisementStream := MkStream {
  buffered : bytes;
  response : list (result bytes X)
}.

Definition advertisements_request (self : FreddieClient) : HttpRequest :=
  MkRequest GET (endpoint self) [(VERSION_HEADER, version self)] [].

(** [get] answers with the status and the chunks of the body. *)
Definition advertisements (get : HttpRequest → result (Z * list (result bytes X)) X) (self : FreddieClient)
    : result AdvertisementStream (SignalingError X) :=
  let? response := map_err NativeTransport (get (advertisements_request self)) in
  let '(status, chunks) := response in
  if decide (status = 200)%Z then Ok (MkStream [] chunks)
  else if decide (status = 418)%Z then Err (ProtocolVersion (version self))
  else Err (Http status).

Definition decode_line (line : bytes) : result (option SignalMessage) (SignalingError X) :=
  match decode_signal line with
  | Some m => Ok (Some m)
  | None => Err SignalDecode
  end.

(** [AdvertisementStream::next].  The loop is cut off after [fuel] iterations
    ([None]); [next] gives it more than it can use. *)
Fixpoint next_fuel (fuel : nat) (self : AdvertisementStream)
    : option (result (option SignalMessage) (SignalingError X) * AdvertisementStream) :=
  match fuel with
  | O => None
  | S fuel =>
      match list_find (λ b, b = x0a) (buffered self) with
      | Some (newline, _) =>
          let line := take newline (buffered self) in
          let self := MkStream (drop (S newline) (buffered self)) (response self) in
          if is_blank line then next_fuel fuel self else Some (decode_line line, self)
      | None =>
          match response self with
          | Err e :: rest => Some (Err (NativeTransport e), MkStream (buffered self) rest)
          | Ok chunk :: rest => next_fuel fuel (MkStream (buffered self ++ chunk) rest)
          | [] =>
              if is_blank (buffered self) then Some (Ok None, self)
              else Some (decode_line (buffered self), MkStream [] [])
          end
      end
  end.

(** An iteration drops at least a byte of the buffer or a chunk. *)
Definition stream_size (self : AdvertisementStream) : nat :=
  length (buffered self) +
  sum_list_with (λ r, S (match r with Ok c => length c | Err _ => 0 end)) (response self).

Definition next (self : AdvertisementStream)
    : option (result (option SignalMessage) (SignalingError X) * AdvertisementStream) :=
  next_fuel (S (stream_size self)) self.

Lemma list_find_newline_length (b : bytes) i x :
  list_find (λ b, b = x0a) b = Some (i, x) → i < length b.
Proof. intros Hf%list_find_Some. destruct Hf as (Hi & _). by apply lookup_lt_Some in Hi. Qed.

Lemma next_fuel_enough n m self :
  stream_size self < n → stream_size self < m → next_fuel n self = next_fuel m self.
Proof.
  revert m self. induction n as [|n IH]; intros [|m] self Hn Hm; [lia..|]. simpl.
  destruct (list_find _ _) as [[i x]|] eqn:Hf.
  - apply list_find_newline_length in Hf. destruct (is_blank _); [|done].
    apply IH; unfold stream_size in *; simpl in *; rewrite length_drop; lia.
  - destruct self as [b [|[c|e] rest]]; simpl in *; [done| |done].
    apply IH; unfold stream_size in *; simpl in *; rewrite length_app; lia.
Qed.

(** C37: the stream always answers: the loop of [next] ends for every buffer and
    every sequence of chunks, errors included. *)
Theorem next_terminates self : ∃ r self', next self = Some (r, self').
Proof.
  unfold next. assert (Hn : stream_size self < S (stream_size self)) by lia. revert Hn.
  generalize (S (stream_size self)) as n. intros n. revert self.
  induction n as [|n IH]; intros self Hn; [lia|]. simpl.
  destruct (list_find _ _) as [[i x]|] eqn:Hf.
  - apply list_find_newline_length in Hf. destruct (is_blank _); [|by eauto].
    apply IH. unfold stream_size in *; simpl in *. rewrite length_drop. lia.
  - destruct self as [b [|[c|e] rest]]; simpl in *; [case_match; by eauto| |by eauto].
    apply IH. unfold stream_size in *; simpl in *. rewrite length_app. lia.
Qed.

(** One iteration, without the fuel. *)
Lemma next_unfold self :
  next self =
  match list_find (λ b, b = x0a) (buffered self) with
  | Some (newline, _) =>
      let line := take newline (buffered self) in
      let self := MkStream (drop (S newline) (buffered self)) (response self) in
      if is_blank line then next self else Some (decode_line line, self)
  | None =>
      match response self with
      | Err e :: rest => Some (Err (NativeTransport e), MkStream (buffered self) rest)
      | Ok chunk :: rest => next (MkStream (buffered self ++ chunk) rest)
      | [] =>
          if is_blank (buffered self) then Some (Ok None, self)
          else Some (decode_line (buffered self), MkStream [] [])
      end
  end.
Proof.
  unfold next at 1. cbn [next_fuel].
  destruct (list_find _ _) as [[i x]|] eqn:Hf.
  - apply list_find_newline_length in Hf. simpl. destruct (is_blank _); [|done].
    apply next_fuel_enough; unfold stream_size; simpl; rewrite ?length_drop; lia.
  - destruct self as [b [|[c|e] rest]]; simpl; [done| |done].
    apply next_fuel_enough; unfold stream_size; simpl; rewrite ?length_app; lia.
Qed.
End freddie.

Arguments AdvertisementStream : clear implicits.

(** ** The stream as newline-delimited records *)

(** The lines of a byte string, the last one without its newline. *)
Fixpoint split_lines (b : bytes) : list bytes :=
  match b with
  | [] => [[]]
  | x :: b =>
      if decide (x = x0a) then [] :: split_lines b
      else match split_lines b with
           | l :: ls => (x :: l) :: ls
           | [] => [[x]]
           end
  end.

(** The records of a response body: its lines that are not blank. *)
Definition records (b : bytes) : list bytes := filter (λ l, is_blank l = false) (split_lines b).

Lemma split_lines_no_newline l : Forall (λ x, x ≠ x0a) l → split_lines l = [l].
Proof.
  induction 1 as [|x l Hx _ IH]; [done|]. cbn [split_lines]. by rewrite decide_False, IH.
Qed.

Lemma split_lines_app l r :
  Forall (λ x, x ≠ x0a) l → split_lines (l ++ x0a :: r) = l :: split_lines r.
Proof.
  induction 1 as [|x l Hx _ IH]; cbn [split_lines app]; [by rewrite decide_True|].
  by rewrite decide_False, IH.
Qed.

Lemma records_blank_line l r :
  Forall (λ x, x ≠ x0a) l → is_blank l = true → records (l ++ x0a :: r) = records r.
Proof. intros Hl Hb. unfold records. rewrite split_lines_app by done. rewrite filter_cons_False; [done|congruence]. Qed.

Lemma records_line l r :
  Forall (λ x, x ≠ x0a) l → is_blank l = false → records (l ++ x0a :: r) = l :: records r.
Proof. intros Hl Hb. unfold records. rewrite split_lines_app by done. by rewrite filter_cons_True. Qed.

Lemma records_last l :
  Forall (λ x, x ≠ x0a) l → records l = if is_blank l then [] else [l].
Proof.
  intros Hl. unfold records. rewrite split_lines_no_newline by done.
  destruct (is_blank l) eqn:Hb; [rewrite filter_cons_False|rewrite filter_cons_True]; done || congruence.
Qed.

(** The first newline splits the buffer. *)
Lemma list_find_newline_split (b : bytes) i x :
  list_find (λ b, b = x0a) b = Some (i, x) →
  Forall (λ x, x ≠ x0a) (take i b) ∧ b = take i b ++ x0a :: drop (S i) b.
Proof.
  intros (Hi & -> & Hbefore)%list_find_Some. split.
  - apply Forall_lookup. intros j y Hj. apply lookup_take_Some in Hj as [Hj Hlt]. eauto.
  - by rewrite take_drop_middle.
Qed.

Section stream.
Context `{JsonText} {X : Type}.

(** What a stream without transport errors still has to say. *)
Definition pending (self : AdvertisementStream X) (b : bytes) : Prop :=
  ∃ cs, response self = Ok <$> cs ∧ b = buffered self ++ concat cs.

Lemma next_record self b :
  pending self b →
  match records b with
  | [] => ∃ self', next self = Some (Ok None, self') ∧ ∃ b', pending self' b' ∧ records b' = []
  | l :: ls => ∃ self', next self = Some (decode_line l, self') ∧
                 ∃ b', pending self' b' ∧ records b' = ls
  end.
Proof.
  remember (stream_size self) as n eqn:Hn. revert self b Hn.
  induction n as [n IH] using lt_wf_ind. intros self b -> (cs & Hcs & ->).
  rewrite next_unfold. destruct (list_find _ _) as [[i x]|] eqn:Hf.
  - pose proof (list_find_newline_length _ _ _ Hf) as Hlen.
    destruct (list_find_newline_split _ _ _ Hf) as [Hno Hsplit].
    assert (Hp : pending (MkStream (drop (S i) (buffered self)) (response self))
      (drop (S i) (buffered self) ++ concat cs)) by (by exists cs).
    assert (buffered self ++ concat cs =
      take i (buffered self) ++ x0a :: (drop (S i) (buffered self) ++ concat cs)) as ->.
    { rewrite app_comm_cons, (assoc_L (++)). by rewrite <- Hsplit. }
    cbn zeta.
    destruct (is_blank (take i (buffered self))) eqn:Hb.
    + rewrite records_blank_line by done. eapply IH; [|done..].
      unfold stream_size; simpl. rewrite length_drop. lia.
    + rewrite records_line by done. eauto.
  - apply list_find_None in Hf. destruct cs as [|c cs]; rewrite Hcs; simpl.
    + rewrite app_nil_r, records_last by done. destruct (is_blank _) eqn:Hb.
      * exists self. split; [done|]. exists (buffered self). split; [|by rewrite records_last, Hb].
        exists []. simpl. by rewrite app_nil_r.
      * eexists. split; [done|]. exists []. split; [by exists []|done].
    + rewrite (assoc_L (++)). eapply IH; [|done|by exists cs].
      unfold stream_size; rewrite Hcs; simpl. rewrite length_app. lia.
Qed.

(** The results of [k] calls in a row. *)
Fixpoint calls (k : nat) (self : AdvertisementStream X)
    : list (result (option SignalMessage) (SignalingError X)) :=
  match k with
  | O => []
  | S k => match next self with
           | Some (r, self) => r :: calls k self
           | None => []
           end
  end.

Lemma calls_pending k self b :
  pending self b → calls k self = take k ((decode_line <$> records b) ++ replicate k (Ok None)).
Proof.
  revert self b. induction k as [|k IH]; intros self b Hp; [done|]. cbn [calls].
  pose proof (next_record self b Hp) as Hn. destruct (records b) as [|l ls].
  - destruct Hn as (self' & -> & b' & Hp' & Hr). by rewrite (IH _ _ Hp'), Hr.
  - destruct Hn as (self' & -> & b' & Hp' & <-). rewrite (IH _ _ Hp'). simpl. f_equal.
    apply (take_app_replicate _ _ k k (S k)); lia.
Qed.

(** C21: framing: however the body of the advertisement response is cut into
    chunks, successive calls of [next] return the decoded non-blank lines of the
    body, each exactly once and in order, a line that does not decode as an error
    that does not disturb the lines after it, and then end-of-stream for ever. *)
Theorem advertisement_framing (chunks : list bytes) k :
  calls k (MkStream [] (Ok <$> chunks)) =
  take k ((decode_line <$> records (concat chunks)) ++ replicate k (Ok None)).
Proof. apply calls_pending. by exists chunks. Qed.
End stream.

(** ** The exchange *)
Section exchange.
Context `{JsonText} {X : Type}.

(** The outcome of an exchange, by what Freddie answers: 418 rejects the
    version the client sent, 404 means the recipient is gone, any other non-200
    status is reported as it is, a blank 200 body is "no reply", and any other
    body must be a signaling envelope; failures of the transport stay transport
    errors.  The request posts the payload, the recipient and the numeric type
    with the version header. *)
Theorem exchange_outcome (send : HttpRequest → result (HttpResponse X) X) self send_to k payload :
  exchange send self send_to k payload =
  match send (MkRequest POST (endpoint self) [("X-BF-Version", version self)]
          [("data", payload); ("send-to", send_to); ("type", signal_type_text k)]) with
  | Err e => Err (NativeTransport e)
  | Ok (MkResponse 200 (Err e)) => Err (NativeTransport e)
  | Ok (MkResponse 200 (Ok body)) =>
      if is_blank body then Ok None
      else match decode_signal body with Some m => Ok (Some m) | None => Err SignalDecode end
  | Ok (MkResponse 418 _) => Err (ProtocolVersion (version self))
  | Ok (MkResponse 404 _) => Err RecipientGone
  | Ok (MkResponse s _) => Err (Http s)
  end.
Proof.
  unfold exchange, exchange_request, VERSION_HEADER.
  destruct (send _) as [[s body]|e]; simpl; [|done].
  destruct (decide (s = 200)%Z) as [->|H200]; simpl.
  { destruct body as [body|e]; simpl; [|done]. destruct (is_blank body); [done|].
    by destruct (decode_signal body). }
  destruct (decide (s = 418)%Z) as [->|H418]; [done|].
  destruct (decide (s = 404)%Z) as [->|H404]; [done|].
  simpl. repeat (done || case_match); congruence.
Qed.

(** A reply that was encoded as an envelope is read back. *)
Lemma exchange_reply `{!JsonTextLaws} (send : HttpRequest → result (HttpResponse X) X)
    self send_to k payload m :
  is_blank (encode_signal m) = false →
  send (exchange_request self send_to k payload) = Ok (MkResponse 200 (Ok (encode_signal m))) →
  exchange send self send_to k payload = Ok (Some m).
Proof.
  intros Hb Hs. unfold exchange. rewrite Hs. simpl. rewrite Hb. by rewrite decode_encode_signal.
Qed.
End exchange.

Module SignalDemo.
#[local] Existing Instance gen_json_text.

Definition adv (r : string) : bytes := encode_signal (MkSignal r Genesis "{}").

(** A body cut in the middle of a line. *)
Example chunked_advertisements :
  calls (X := unit) 3 (MkStream [] [Ok (take 5 (adv "one")); Ok (drop 5 (adv "one") ++ [x0a; x0a]);
                         Ok (adv "two")]) =
  [Ok (Some (MkSignal "one" Genesis "{}")); Ok (Some (MkSignal "two" Genesis "{}")); Ok None].
Proof. vm_compute. reflexivity. Qed.
End SignalDemo.
