(* ===== verification/VirtualUdp.v ===== *)
(** The virtual UDP socket ([src/virtual_udp.rs]).

    Quinn's endpoint runs over one long-lived [VirtualUdpSocket]; every WebRTC
    peer contributes a [VirtualPath].  The socket routes outgoing datagrams by
    destination through a map of channel senders and merges the paths' incoming
    datagrams into one bounded queue.

    The senders in the route map and in the paths alias the same channels, so
    the state is a store: channels are named by an identifier, a [Sender] is
    that identifier ([Sender::same_channel] is equality of identifiers), and the
    identifier of a path's channel also names the path.  Handles are counted in
    the channels, because "all senders dropped" and "receiver dropped" are
    observable. *)
From S2P Require Import Prelude Tokio Net.

Definition DEFAULT_QUEUE_CAPACITY : nat := 4096.
Definition DEFAULT_PATH_MTU : nat := 1452.

Inductive PathReceiveError :=
| Oversize (actual mtu : nat)
| QueueFull
| Closed.

#[export] Instance PathReceiveError_eq_dec : EqDecision PathReceiveError.
Proof. solve_decision. Defined.

Record ReceivedDatagram := MkReceivedDatagram {
  rd_remote : SocketAddr;
  rd_payload : bytes
}.

(** The [io::ErrorKind]s the socket returns. *)
Inductive IoErrorKind := InvalidInput | BrokenPipe.

Record Transmit := MkTransmit {
  destination : SocketAddr;
  contents : bytes
}.

Record RecvMeta := MkRecvMeta {
  meta_addr : SocketAddr;
  meta_len : nat;
  meta_stride : nat;
  meta_dst_ip : option IpAddr
}.

Record VirtualUdpSocket := MkSocket {
  local_addr : SocketAddr;
  mtu : nat;
  routes : gmap SocketAddr nat
}.

Record VirtualPath := MkPath {
  remote : SocketAddr;
  path_mtu : nat
}.

Section virtual_udp.
Context {chan : Type → Type} `{!Mpsc chan}.

(** [w_socket] is the socket while some [Arc] keeps it alive; the incoming
    channel is shared by the socket (one sender, the receiver) and by every
    path (one sender each). *)
Record World := MkWorld {
  w_socket : option VirtualUdpSocket;
  w_incoming : chan ReceivedDatagram;
  w_chans : gmap nat (chan bytes);
  w_paths : gmap nat VirtualPath;
  w_next : nat
}.

Definition set_socket (s : option VirtualUdpSocket) (w : World) : World :=
  MkWorld s (w_incoming w) (w_chans w) (w_paths w) (w_next w).
Definition set_incoming (c : chan ReceivedDatagram) (w : World) : World :=
  MkWorld (w_socket w) c (w_chans w) (w_paths w) (w_next w).
Definition set_chans (cs : gmap nat (chan bytes)) (w : World) : World :=
  MkWorld (w_socket w) (w_incoming w) cs (w_paths w) (w_next w).

(** [with_options]; the two assertions panic. *)
Definition with_options (addr : SocketAddr) (mtu queue_capacity : nat) : option World :=
  if decide (mtu = 0) then None
  else if decide (queue_capacity = 0) then None
  else Some (MkWorld (Some (MkSocket addr mtu ∅)) (mpsc_new queue_capacity) ∅ ∅ 0).

Definition new (addr : SocketAddr) : option World :=
  with_options addr DEFAULT_PATH_MTU DEFAULT_QUEUE_CAPACITY.

(** Dropping the sender a route holds. *)
Definition drop_route_tx (c : nat) (w : World) : World :=
  set_chans (alter mpsc_drop_tx c (w_chans w)) w.

(** [add_path]: a fresh channel, its sender cloned into the route map (the
    sender of a route it replaces is dropped) and kept in the path, and a
    clone of the incoming sender.  [None]: the assertion panics, or the
    socket is gone and there is no [Arc] to call it on. *)
Definition add_path (addr : SocketAddr) (queue_capacity : nat) (w : World)
    : option (nat * World) :=
  if decide (queue_capacity = 0) then None
  else s ← w_socket w;
    let c := w_next w in
    let w := match routes s !! addr with
             | Some old => drop_route_tx old w
             | None => w
             end in
    Some (c,
      MkWorld (Some (MkSocket (local_addr s) (mtu s) (<[addr := c]> (routes s))))
        (mpsc_clone_tx (w_incoming w))
        (<[c := mpsc_clone_tx (mpsc_new queue_capacity)]> (w_chans w))
        (<[c := MkPath addr (mtu s)]> (w_paths w))
        (S c)).

Definition path_count (w : World) : nat :=
  match w_socket w with
  | Some s => size (routes s)
  | None => 0
  end.

(** [VirtualPath::remote_addr]. *)
Definition remote_addr (c : nat) (w : World) : option SocketAddr := remote <$> w_paths w !! c.

(** [VirtualPath::try_receive] on the live path [c]. *)
Definition try_receive (c : nat) (payload : bytes) (w : World)
    : option (result unit PathReceiveError * World) :=
  p ← w_paths w !! c;
  if decide (path_mtu p < length payload) then
    Some (Err (Oversize (length payload) (path_mtu p)), w)
  else
    let '(r, ch) := mpsc_try_send (MkReceivedDatagram (remote p) payload) (w_incoming w) in
    Some (map_err (λ e, match e with
                        | TrySendFull => QueueFull
                        | TrySendClosed => Closed
                        end) r,
          set_incoming ch w).

(** [VirtualPath::next_outgoing], polled once. *)
Definition next_outgoing (c : nat) (w : World) : option (poll (option bytes) * World) :=
  _ ← w_paths w !! c;
  ch ← w_chans w !! c;
  let '(r, ch') := mpsc_poll_recv ch in
  Some (r, set_chans (<[c := ch']> (w_chans w)) w).

(** [Drop for VirtualPath], then the drop of its fields: the incoming sender,
    the outgoing sender and the outgoing receiver. *)
Definition drop_path (c : nat) (w : World) : option World :=
  p ← w_paths w !! c;
  let w1 :=
    match w_socket w with
    | None => w
    | Some s =>
        match routes s !! remote p with
        | Some current =>
            if decide (current = c) then
              drop_route_tx c
                (set_socket (Some (MkSocket (local_addr s) (mtu s)
                                     (delete (remote p) (routes s)))) w)
            else w
        | None => w
        end
    end in
  Some (MkWorld (w_socket w1) (mpsc_drop_tx (w_incoming w1))
          (alter (λ ch, mpsc_drop_rx (mpsc_drop_tx ch)) c (w_chans w1))
          (delete c (w_paths w1)) (w_next w1)).

(** Dropping the last [Arc] of the socket: its incoming sender and receiver
    and the senders of all routes. *)
Definition drop_socket (w : World) : option World :=
  s ← w_socket w;
  Some (MkWorld None (mpsc_drop_rx (mpsc_drop_tx (w_incoming w)))
          (map_fold (λ _ c cs, alter mpsc_drop_tx c cs) (w_chans w) (routes s))
          (w_paths w) (w_next w)).

(** [AsyncUdpSocket::try_send], in its two phases: the route map is read and
    the sender cloned under the lock, then the datagram is offered to that
    sender and the outcome dropped. *)
Definition lookup_route (dst : SocketAddr) (w : World) : option nat :=
  s ← w_socket w; routes s !! dst.

Definition deliver (route : option nat) (datagram : bytes) (w : World) : World :=
  match route with
  | Some c =>
      match w_chans w !! c with
      | Some ch => set_chans (<[c := (mpsc_try_send datagram ch).2]> (w_chans w)) w
      | None => w
      end
  | None => w
  end.

Definition try_send (t : Transmit) (w : World) : option (result unit IoErrorKind * World) :=
  s ← w_socket w;
  if decide (mtu s < length (contents t)) then Some (Err InvalidInput, w)
  else Some (Ok tt, deliver (lookup_route (destination t) w) (contents t) w).

(** [AsyncUdpSocket::poll_recv]: the buffers and metas are updated in place;
    only the first of each is written. *)
Definition poll_recv (bufs : list bytes) (metas : list RecvMeta) (w : World)
    : option (poll (result nat IoErrorKind) * list bytes * list RecvMeta * World) :=
  s ← w_socket w;
  match bufs, metas with
  | buf :: bufs', _ :: metas' =>
      let '(r, ch) := mpsc_poll_recv (w_incoming w) in
      let w' := set_incoming ch w in
      match r with
      | Ready (Some d) =>
          let len := length (rd_payload d) `min` length buf in
          Some (Ready (Ok 1),
                (take len (rd_payload d) ++ drop len buf) :: bufs',
                MkRecvMeta (rd_remote d) len len (Some (sa_ip (local_addr s))) :: metas',
                w')
      | Ready None => Some (Ready (Err BrokenPipe), bufs, metas, w')
      | Pending => Some (Pending, bufs, metas, w')
      end
  | _, _ => Some (Ready (Ok 0), bufs, metas, w)
  end.

(** [AlwaysWritable::poll_writable]. *)
Definition poll_writable : poll (result unit IoErrorKind) := Ready (Ok tt).

Definition may_fragment : bool := false.
End virtual_udp.

Arguments World chan : clear implicits.

(** ** The invariant

    [routed w c]: the socket's route map holds a sender of channel [c]. *)
Section invariant.
Context {chan : Type → Type} `{MpscSpec chan}.
Implicit Types (w : World chan) (c : nat) (s : VirtualUdpSocket).

Definition routed w c : Prop :=
  ∃ s a, w_socket w = Some s ∧ routes s !! a = Some c.

(** The incoming sender the socket itself holds. *)
Definition socket_tx w : nat := match w_socket w with Some _ => 1 | None => 0 end.

(** [M] is the MTU the socket was created with. *)
Record winv (M : nat) w : Prop := {
  inv_fresh : ∀ c, w_next w ≤ c → w_chans w !! c = None ∧ w_paths w !! c = None;
  inv_path : ∀ c p, w_paths w !! c = Some p →
    path_mtu p = M ∧ ∃ ch, w_chans w !! c = Some ch ∧ q_rx (view ch) = true ∧
    (routed w c → q_tx (view ch) = 2) ∧ (¬ routed w c → q_tx (view ch) = 1);
  inv_route : ∀ s a c, w_socket w = Some s → routes s !! a = Some c →
    ∃ p, w_paths w !! c = Some p ∧ remote p = a;
  inv_mtu : ∀ s, w_socket w = Some s → mtu s = M;
  inv_chans : ∀ c ch, w_chans w !! c = Some ch →
    q_wf (view ch) ∧ Forall (λ b, length b ≤ M) (q_items (view ch));
  inv_closed : ∀ c ch, w_chans w !! c = Some ch → q_rx (view ch) = true →
    is_Some (w_paths w !! c);
  inv_incoming_wf : q_wf (view (w_incoming w));
  inv_incoming : Forall (λ d, length (rd_payload d) ≤ M) (q_items (view (w_incoming w)));
  inv_incoming_tx :
    q_tx (view (w_incoming w)) = socket_tx w + size (w_paths w);
  inv_incoming_rx : is_Some (w_socket w) → q_rx (view (w_incoming w)) = true
}.

(** A socket whose routes only point at live paths of their address has at
    most one route per channel. *)
Lemma winv_routes_inj M w s a b c :
  winv M w → w_socket w = Some s →
  routes s !! a = Some c → routes s !! b = Some c → a = b.
Proof.
  intros I Hs Ha Hb.
  destruct (inv_route _ _ I _ _ _ Hs Ha) as (p & Hp & <-).
  destruct (inv_route _ _ I _ _ _ Hs Hb) as (p' & Hp' & <-). congruence.
Qed.

Lemma with_options_winv addr M cap w :
  with_options addr M cap = Some w → winv M w.
Proof.
  unfold with_options. repeat case_decide; [done..|]. intros [= <-].
  split; simpl; autorewrite with mpsc; simpl; try done; try naive_solver.
  unfold q_wf; simpl; lia.
Qed.

(** Only the incoming queue changes. *)
Lemma winv_set_incoming M w ch :
  winv M w →
  q_wf (view ch) → Forall (λ d, length (rd_payload d) ≤ M) (q_items (view ch)) →
  q_tx (view ch) = q_tx (view (w_incoming w)) →
  q_rx (view ch) = q_rx (view (w_incoming w)) →
  winv M (set_incoming ch w).
Proof.
  intros I Hwf Hall Htx Hrx. split; simpl; try apply I; auto.
  - rewrite Htx. apply I.
  - rewrite Hrx. apply I.
Qed.

(** Only the contents of one outgoing channel change. *)
Lemma winv_set_chan M w c ch ch' :
  winv M w → w_chans w !! c = Some ch →
  q_wf (view ch') → Forall (λ b, length b ≤ M) (q_items (view ch')) →
  q_tx (view ch') = q_tx (view ch) → q_rx (view ch') = q_rx (view ch) →
  winv M (set_chans (<[c := ch']> (w_chans w)) w).
Proof.
  intros I Hc Hwf Hall Htx Hrx. split; simpl; try apply I.
  - intros c' Hc'. destruct (inv_fresh _ _ I c' Hc') as [Hn ?].
    rewrite lookup_insert_ne by congruence. auto.
  - intros c' p Hp. destruct (inv_path _ _ I c' p Hp) as (?&ch0&Hch0&?&Hr&Hn).
    split; [done|]. destruct (decide (c = c')) as [->|].
    + exists ch'. rewrite lookup_insert_eq. simplify_eq. rewrite Htx, Hrx. auto.
    + exists ch0. rewrite lookup_insert_ne by done. auto.
  - intros c' ch0. rewrite lookup_insert. case_decide; [naive_solver|apply I].
  - intros c' ch0. rewrite lookup_insert. case_decide; [|apply I].
    intros [= <-] Hrx'. subst c'. apply (inv_closed _ _ I c ch); congruence.
Qed.

Lemma try_receive_winv M c payload w r w' :
  try_receive c payload w = Some (r, w') → winv M w → winv M w'.
Proof.
  unfold try_receive. intros Hr I.
  destruct (w_paths w !! c) as [p|] eqn:Hp; simpl in Hr; [|done].
  case_decide as Hlen; [by simplify_eq|].
  destruct (mpsc_try_send _ _) as [r0 ch] eqn:E. simplify_eq.
  assert (ch = (mpsc_try_send (MkReceivedDatagram (remote p) payload) (w_incoming w)).2)
    as -> by by rewrite E.
  destruct (inv_path _ _ I _ _ Hp) as [Hm _].
  apply winv_set_incoming; [done| | |autorewrite with mpsc; apply q_try_send_ends..];
    autorewrite with mpsc.
  - apply q_try_send_wf, I.
  - apply q_try_send_Forall; [simpl; lia|apply I].
Qed.

Lemma next_outgoing_winv M c w r w' :
  next_outgoing c w = Some (r, w') → winv M w → winv M w'.
Proof.
  unfold next_outgoing. intros Hr I.
  destruct (w_paths w !! c) as [p|] eqn:Hp; simpl in Hr; [|done].
  destruct (w_chans w !! c) as [ch|] eqn:Hc; simpl in Hr; [|done].
  destruct (mpsc_poll_recv ch) as [r0 ch'] eqn:E. simplify_eq.
  assert (ch' = (mpsc_poll_recv ch).2) as -> by by rewrite E.
  destruct (inv_chans _ _ I _ _ Hc).
  eapply winv_set_chan; [done..| | | |]; autorewrite with mpsc;
    [auto with unb..|apply q_poll_recv_ends|apply q_poll_recv_ends].
Qed.

Lemma deliver_winv M route datagram w :
  length datagram ≤ M → winv M w → winv M (deliver route datagram w).
Proof.
  unfold deliver. intros Hlen I. destruct route as [c|]; [|done].
  destruct (w_chans w !! c) as [ch|] eqn:Hc; [|done].
  destruct (inv_chans _ _ I _ _ Hc).
  eapply winv_set_chan; [done..| | | |]; autorewrite with mpsc;
    [auto with unb..|apply q_try_send_ends|apply q_try_send_ends].
Qed.

Lemma try_send_winv M t w r w' :
  try_send t w = Some (r, w') → winv M w → winv M w'.
Proof.
  unfold try_send. intros Hr I.
  destruct (w_socket w) as [s|] eqn:Hs; simpl in Hr; [|done].
  case_decide; simplify_eq; [done|].
  apply deliver_winv; [|done]. pose proof (inv_mtu _ _ I _ Hs). lia.
Qed.

Lemma poll_recv_winv M bufs metas w r bufs' metas' w' :
  poll_recv bufs metas w = Some (r, bufs', metas', w') → winv M w → winv M w'.
Proof.
  unfold poll_recv. intros Hr I.
  destruct (w_socket w) as [s|] eqn:Hs; simpl in Hr; [|done].
  destruct bufs as [|buf bufs]; [by simplify_eq|].
  destruct metas as [|m metas]; [by simplify_eq|].
  assert (winv M (set_incoming (mpsc_poll_recv (w_incoming w)).2 w)).
  { apply winv_set_incoming; autorewrite with mpsc;
      [done|apply q_poll_recv_wf, I|apply q_poll_recv_Forall, I|apply q_poll_recv_ends..]. }
  destruct (mpsc_poll_recv (w_incoming w)) as [[[d|]|] ch]; by simplify_eq/=.
Qed.

(** Dropping the sender of the route of [a], the rest of the socket as it is:
    what [add_path] does to a route it replaces and [drop_path] to its own. *)
Lemma winv_drop_route M w s a c :
  winv M w → w_socket w = Some s → routes s !! a = Some c →
  winv M (drop_route_tx c
    (set_socket (Some (MkSocket (local_addr s) (mtu s) (delete a (routes s)))) w)).
Proof.
  intros I Hs Ha.
  destruct (inv_route _ _ I _ _ _ Hs Ha) as (p & Hp & Hpa).
  destruct (inv_path _ _ I _ _ Hp) as (_ & ch & Hch & Hrx & Htx & _).
  specialize (Htx ltac:(by exists s, a)).
  assert (Hr : ∀ c', c' ≠ c →
    routed (drop_route_tx c
      (set_socket (Some (MkSocket (local_addr s) (mtu s) (delete a (routes s)))) w)) c'
    ↔ routed w c').
  { intros c' Hne. unfold routed; simpl. split.
    - intros (s' & b & [= <-] & Hb). simpl in Hb.
      apply lookup_delete_Some in Hb as [??]. eauto.
    - intros (s' & b & ? & Hb). simplify_eq. eexists _, b. split; [done|]. simpl.
      rewrite lookup_delete_ne by congruence. done. }
  split; simpl.
  - intros c' Hc'. destruct (inv_fresh _ _ I c' Hc') as [Hn ?].
    by rewrite lookup_alter_None.
  - intros c' p' Hp'. destruct (inv_path _ _ I _ _ Hp') as (Hm & ch' & Hch' & Hrx' & Hy & Hn).
    split; [done|]. destruct (decide (c' = c)) as [->|Hne].
    + exists (mpsc_drop_tx ch). rewrite lookup_alter_eq, Hch. simplify_eq.
      autorewrite with mpsc; simpl. split_and!; [done..| |rewrite Htx; done].
      intros (s' & b & [= <-] & Hb). simpl in Hb. apply lookup_delete_Some in Hb as [Hab Hb].
      by destruct (Hab (winv_routes_inj _ _ _ _ _ _ I Hs Ha Hb)).
    + exists ch'. rewrite lookup_alter_ne by done. rewrite !Hr by done. auto.
  - intros s' b c' [= <-]. simpl. rewrite lookup_delete_Some. intros [_ Hb].
    by apply (inv_route _ _ I _ _ _ Hs Hb).
  - intros s' [= <-]. by apply (inv_mtu _ _ I _ Hs).
  - intros c' ch'. rewrite lookup_alter. case_decide; [|apply I].
    intros (ch0 & Hch0 & ->)%fmap_Some. autorewrite with mpsc. by apply (inv_chans _ _ I _ _ Hch0).
  - intros c' ch'. rewrite lookup_alter. case_decide; [|apply I].
    intros (ch0 & Hch0 & ->)%fmap_Some. autorewrite with mpsc. simpl. subst. by apply (inv_closed _ _ I _ ch0).
  - apply I.
  - apply I.
  - rewrite (inv_incoming_tx _ _ I). unfold socket_tx. by rewrite Hs.
  - intros _. apply I. by rewrite Hs.
Qed.

(** Installing a fresh channel as path and route of an address without one. *)
Lemma winv_install M w s addr cap :
  winv M w → w_socket w = Some s → routes s !! addr = None → cap ≠ 0 →
  winv M (MkWorld (Some (MkSocket (local_addr s) (mtu s) (<[addr := w_next w]> (routes s))))
    (mpsc_clone_tx (w_incoming w))
    (<[w_next w := mpsc_clone_tx (mpsc_new cap)]> (w_chans w))
    (<[w_next w := MkPath addr (mtu s)]> (w_paths w)) (S (w_next w))).
Proof.
  intros I Hs Ha Hcap. set (c := w_next w).
  destruct (inv_fresh _ _ I c ltac:(done)) as [Hcn Hpn].
  split; simpl.
  - intros c' Hc'. rewrite !lookup_insert_ne by (unfold c in *; lia).
    apply (inv_fresh _ _ I). lia.
  - intros c' p'. rewrite lookup_insert. case_decide as Hcc.
    + intros [= <-]. subst c'. simpl. split; [by apply (inv_mtu _ _ I)|].
      eexists. rewrite lookup_insert_eq. split; [done|]. autorewrite with mpsc; simpl.
      split_and!; [done..|]. intros Hnr. destruct Hnr.
      eexists _, addr; simpl. split; [done|]. simpl. by rewrite lookup_insert_eq.
    + intros Hp'. destruct (inv_path _ _ I _ _ Hp') as (Hm & ch' & Hch' & Hrx' & Hy & Hn).
      split; [done|]. exists ch'. rewrite lookup_insert_ne by done. split_and!; [done..| |].
      * intros (s' & b & [= <-] & Hb). simpl in Hb. rewrite lookup_insert in Hb.
        case_decide; simplify_eq. apply Hy. by exists s, b.
      * intros Hnr. apply Hn. intros (s' & b & ? & Hb). simplify_eq. apply Hnr.
        eexists _, b; simpl; split; [done|]. simpl. rewrite lookup_insert_ne; [done|congruence].
  - intros s' b c' [= <-]. simpl. rewrite lookup_insert. case_decide as Hb.
    + intros [= <-]. eexists. rewrite lookup_insert_eq. by split; [done|].
    + intros Hc'. destruct (inv_route _ _ I _ _ _ Hs Hc') as (p & Hp & <-).
      exists p. rewrite lookup_insert_ne by congruence. done.
  - intros s' [= <-]. by apply (inv_mtu _ _ I _ Hs).
  - intros c' ch'. rewrite lookup_insert. case_decide; [|apply I].
    intros [= <-]. autorewrite with mpsc. unfold q_wf; simpl. split; [lia|constructor].
  - intros c' ch'. rewrite !lookup_insert. case_decide; [by eauto|apply I].
  - rewrite view_clone_tx. apply I.
  - rewrite view_clone_tx. apply I.
  - rewrite view_clone_tx; simpl. rewrite (inv_incoming_tx _ _ I). unfold socket_tx; simpl.
    rewrite Hs, map_size_insert_None by done. lia.
  - intros _. rewrite view_clone_tx. apply I. by rewrite Hs.
Qed.

Lemma add_path_winv M addr cap w c w' :
  add_path addr cap w = Some (c, w') → winv M w → winv M w'.
Proof.
  unfold add_path. intros Hr I. case_decide as Hcap; [done|].
  destruct (w_socket w) as [s|] eqn:Hs; simpl in Hr; [|done].
  destruct (routes s !! addr) as [old|] eqn:Ho; simplify_eq/=.
  - pose proof (winv_drop_route _ _ _ _ _ I Hs Ho) as I'.
    eapply (winv_install _ _ _ addr cap) in I' ; [|done|simpl; by rewrite lookup_delete_eq|done].
    simpl in I'. by rewrite insert_delete_eq in I'.
  - by apply winv_install.
Qed.

(** Dropping the fields of a path that is not routed. *)
Lemma winv_drop_fields M w c p :
  winv M w → w_paths w !! c = Some p → ¬ routed w c →
  winv M (MkWorld (w_socket w) (mpsc_drop_tx (w_incoming w))
    (alter (λ ch, mpsc_drop_rx (mpsc_drop_tx ch)) c (w_chans w))
    (delete c (w_paths w)) (w_next w)).
Proof.
  intros I Hp Hnr. split; simpl.
  - intros c' Hc'. destruct (inv_fresh _ _ I c' Hc') as [Hn Hn'].
    by rewrite lookup_alter_None, lookup_delete_None; auto.
  - intros c' p'. rewrite lookup_delete_Some. intros [Hne Hp'].
    rewrite lookup_alter_ne by done. apply (inv_path _ _ I _ _ Hp').
  - intros s a c' Hs Ha. rewrite lookup_delete_ne by (intros <-; apply Hnr; by exists s, a).
    by apply (inv_route _ _ I _ _ _ Hs Ha).
  - apply I.
  - intros c' ch'. rewrite lookup_alter. case_decide; [|apply I].
    intros (ch0 & Hch0 & ->)%fmap_Some. autorewrite with mpsc; simpl.
    split; [auto with unb|constructor].
  - intros c' ch'. rewrite lookup_alter. case_decide as Hcc.
    + intros (ch0 & Hch0 & ->)%fmap_Some. by autorewrite with mpsc.
    + rewrite lookup_delete_ne by done. apply I.
  - rewrite view_drop_tx. apply I.
  - rewrite view_drop_tx. apply I.
  - rewrite view_drop_tx; simpl. rewrite (inv_incoming_tx _ _ I). unfold socket_tx; simpl.
    rewrite map_size_delete_Some by done.
    assert (size (w_paths w) ≠ 0); [|lia].
    eapply map_size_ne_0_lookup_2. by exists p.
  - rewrite view_drop_tx. apply I.
Qed.

Lemma drop_path_winv M c w w' :
  drop_path c w = Some w' → winv M w → winv M w'.
Proof.
  unfold drop_path. intros Hr I.
  destruct (w_paths w !! c) as [p|] eqn:Hp; simpl in Hr; [|done].
  injection Hr as <-.
  destruct (w_socket w) as [s|] eqn:Hs; simpl.
  2: { eapply winv_drop_fields; [done..|]. intros (? & ? & ? & ?). congruence. }
  destruct (routes s !! remote p) as [cur|] eqn:Hcur; [case_decide as Hc|].
  - subst cur. eapply winv_drop_fields; [by apply winv_drop_route|done|].
    intros (s' & b & [= <-] & Hb). simpl in Hb. apply lookup_delete_Some in Hb as [Hne Hb].
    by destruct (Hne (winv_routes_inj _ _ _ _ _ _ I Hs Hcur Hb)).
  - eapply winv_drop_fields; [done..|]. intros (s' & b & ? & Hb). simplify_eq.
    destruct (inv_route _ _ I _ _ _ Hs Hb) as (p' & ? & <-). congruence.
  - eapply winv_drop_fields; [done..|]. intros (s' & b & ? & Hb). simplify_eq.
    destruct (inv_route _ _ I _ _ _ Hs Hb) as (p' & ? & <-). congruence.
Qed.

(** Dropping the senders of all routes touches each routed channel once. *)
Lemma drop_routes_other (cs : gmap nat (chan bytes)) (rs : gmap SocketAddr nat) c :
  (∀ a, rs !! a ≠ Some c) →
  map_fold (λ _ c cs, alter mpsc_drop_tx c cs) cs rs !! c = cs !! c.
Proof.
  apply (map_fold_weak_ind (λ r m, (∀ a, m !! a ≠ Some c) → r !! c = cs !! c)); [done|].
  intros i x m r Hi IH Hm. rewrite lookup_alter_ne.
  - apply IH. intros a Ha. apply (Hm a). rewrite lookup_insert_ne; [done|congruence].
  - intros ->. apply (Hm i). by rewrite lookup_insert_eq.
Qed.

Lemma drop_routes_once (cs : gmap nat (chan bytes)) (rs : gmap SocketAddr nat) a c :
  (∀ b, rs !! b = Some c → a = b) → rs !! a = Some c →
  map_fold (λ _ c cs, alter mpsc_drop_tx c cs) cs rs !! c = mpsc_drop_tx <$> cs !! c.
Proof.
  intros Hinj Ha. rewrite <- (insert_delete_id rs a c Ha).
  rewrite map_fold_insert_L.
  - rewrite lookup_alter_eq, drop_routes_other; [done|].
    intros b [Hne Hb]%lookup_delete_Some. by apply Hne, Hinj.
  - intros _ _ z1 z2 y _ _ _. destruct (decide (z1 = z2)) as [->|]; [done|]. by apply alter_alter_ne.
  - by rewrite lookup_delete_eq.
Qed.

Lemma drop_socket_winv M w w' :
  drop_socket w = Some w' → winv M w → winv M w'.
Proof.
  unfold drop_socket. intros Hr I.
  destruct (w_socket w) as [s|] eqn:Hs; simpl in Hr; [|done]. injection Hr as <-.
  assert (Hnone : ∀ c, (∀ a, routes s !! a ≠ Some c) ∨ ∃ a, routes s !! a = Some c).
  { intros c. destruct (decide (map_Exists (λ _ c', c' = c) (routes s))) as [(a & ? & ? & ->)|Hn];
      [eauto|]. left. intros a Ha. apply Hn. by exists a, c. }
  assert (Hinj : ∀ a c, routes s !! a = Some c → ∀ b, routes s !! b = Some c → a = b).
  { intros a c Ha b Hb. by eapply winv_routes_inj. }
  split; simpl; try done.
  - intros c Hc. destruct (inv_fresh _ _ I c Hc) as [Hn ?].
    destruct (Hnone c) as [?|(a & Ha)]; [by rewrite drop_routes_other|].
    erewrite drop_routes_once by eauto. by rewrite Hn.
  - intros c p Hp. destruct (inv_path _ _ I _ _ Hp) as (Hm & ch & Hch & Hrx & Hy & Hn).
    split; [done|]. destruct (Hnone c) as [Hno|(a & Ha)].
    + exists ch. rewrite drop_routes_other by done. split_and!; [done..| |].
      * intros (s' & b & ? & Hb). simplify_eq.
      * intros _. apply Hn. intros (s' & b & ? & Hb). simplify_eq. by eapply Hno.
    + exists (mpsc_drop_tx ch). erewrite drop_routes_once by eauto. rewrite Hch.
      autorewrite with mpsc; simpl. split_and!; [done..| |].
      * intros (s' & b & ? & Hb). simplify_eq.
      * intros _. rewrite Hy; [done|by exists s, a].
  - intros c ch. destruct (Hnone c) as [Hno|(a & Ha)].
    + rewrite drop_routes_other by done. apply I.
    + erewrite drop_routes_once by eauto.
      intros (ch0 & Hch0 & ->)%fmap_Some. autorewrite with mpsc. by apply (inv_chans _ _ I _ _ Hch0).
  - intros c ch. destruct (Hnone c) as [Hno|(a & Ha)].
    + rewrite drop_routes_other by done. apply I.
    + erewrite drop_routes_once by eauto.
      intros (ch0 & Hch0 & ->)%fmap_Some. autorewrite with mpsc. simpl. subst. by apply (inv_closed _ _ I _ ch0).
  - autorewrite with mpsc. apply q_drop_rx_wf.
  - autorewrite with mpsc. constructor.
  - autorewrite with mpsc; simpl. rewrite (inv_incoming_tx _ _ I). unfold socket_tx; simpl.
    rewrite Hs. lia.
Qed.

(** ** Interleavings

    Every operation of the socket and of its paths is a step; [step_deliver]
    is the second half of a [try_send] whose route was read earlier, so the
    route it uses may be stale. *)
Inductive vstep (M : nat) : World chan → World chan → Prop :=
| step_add_path addr cap w c w' :
    add_path addr cap w = Some (c, w') → vstep M w w'
| step_try_receive c payload w r w' :
    try_receive c payload w = Some (r, w') → vstep M w w'
| step_next_outgoing c w r w' :
    next_outgoing c w = Some (r, w') → vstep M w w'
| step_drop_path c w w' :
    drop_path c w = Some w' → vstep M w w'
| step_drop_socket w w' :
    drop_socket w = Some w' → vstep M w w'
| step_try_send t w r w' :
    try_send t w = Some (r, w') → vstep M w w'
| step_deliver route datagram w :
    length datagram ≤ M → vstep M w (deliver route datagram w)
| step_poll_recv bufs metas w r bufs' metas' w' :
    poll_recv bufs metas w = Some (r, bufs', metas', w') → vstep M w w'.

(** The states of a socket created with MTU [M]. *)
Definition reachable (M : nat) w : Prop :=
  ∃ addr cap w0, with_options addr M cap = Some w0 ∧ rtc (vstep M) w0 w.

Lemma vstep_winv M w w' : vstep M w w' → winv M w → winv M w'.
Proof.
  destruct 1; eauto using add_path_winv, try_receive_winv, next_outgoing_winv,
    drop_path_winv, drop_socket_winv, try_send_winv, deliver_winv, poll_recv_winv.
Qed.

Lemma reachable_inv M w : reachable M w → winv M w.
Proof.
  intros (addr & cap & w0 & Hw0 & Hrtc). apply with_options_winv in Hw0.
  induction Hrtc; eauto using vstep_winv.
Qed.

Lemma reachable_step M w w' : reachable M w → vstep M w w' → reachable M w'.
Proof.
  intros (addr & cap & w0 & Hw0 & Hrtc) ?. exists addr, cap, w0. eauto using rtc_r.
Qed.
End invariant.

(** ** What the socket promises *)
Section promises.
Context {chan : Type → Type} `{MpscSpec chan}.
Implicit Types (w : World chan) (c : nat) (s : VirtualUdpSocket).

(** C8: in every state a socket created with MTU [M] can reach, whatever the
    interleaving of its operations and whatever paths came and went, each
    route leads to a live path of that very address, no queue holds more
    datagrams than its capacity and no queued datagram exceeds the MTU. *)
Theorem reachable_state_sound M w :
  reachable M w →
  (∀ s a c, w_socket w = Some s → routes s !! a = Some c →
     ∃ p ch, w_paths w !! c = Some p ∧ remote p = a ∧
             w_chans w !! c = Some ch ∧ q_rx (view ch) = true) ∧
  (∀ c ch, w_chans w !! c = Some ch →
     length (q_items (view ch)) ≤ q_cap (view ch) ∧
     Forall (λ b, length b ≤ M) (q_items (view ch))) ∧
  length (q_items (view (w_incoming w))) ≤ q_cap (view (w_incoming w)) ∧
  Forall (λ d, length (rd_payload d) ≤ M) (q_items (view (w_incoming w))).
Proof.
  intros I%reachable_inv. split_and!; [|apply I..].
  intros s a c Hs Ha. destruct (inv_route _ _ I _ _ _ Hs Ha) as (p & Hp & ?).
  destruct (inv_path _ _ I _ _ Hp) as (_ & ch & ? & ? & _). eauto 6.
Qed.

(** While the socket is alive, polling it for a datagram never reports
    the fatal [BrokenPipe]: not after any number of paths failed, and not when
    none is left. *)
Theorem poll_recv_never_broken_pipe M w bufs metas r bufs' metas' w' :
  reachable M w →
  poll_recv bufs metas w = Some (r, bufs', metas', w') →
  r ≠ Ready (Err BrokenPipe).
Proof.
  intros I%reachable_inv Hp ->. unfold poll_recv in Hp.
  destruct (w_socket w) as [s|] eqn:Hs; simpl in Hp; [|done].
  destruct bufs as [|b bs], metas as [|m ms]; [done..|].
  destruct (mpsc_poll_recv (w_incoming w)) as [r0 ch] eqn:E.
  assert (Hr : r0 = (q_poll_recv (view (w_incoming w))).1).
  { rewrite <- mpsc_poll_recv_fst. by rewrite E. }
  pose proof (inv_incoming_tx _ _ I) as Htx. unfold socket_tx in Htx. rewrite Hs in Htx.
  destruct (q_poll_recv_cases (view (w_incoming w))) as [(x&l&_&Hq)|[(?&?&Hq)|(?&?&Hq)]];
    rewrite Hq in Hr; simpl in Hr; subst r0; simplify_eq/=; lia.
Qed.

Lemma next_outgoing_not_closed M w c r w' :
  winv M w → next_outgoing c w = Some (r, w') → r ≠ Ready None.
Proof.
  intros I Hn ->. unfold next_outgoing in Hn.
  destruct (w_paths w !! c) as [p|] eqn:Hp; simpl in Hn; [|done].
  destruct (inv_path _ _ I _ _ Hp) as (_ & ch & Hch & _ & Hy & Hno).
  rewrite Hch in Hn; simpl in Hn.
  destruct (mpsc_poll_recv ch) as [r0 ch'] eqn:E. simplify_eq.
  pose proof (mpsc_poll_recv_fst ch) as Hr. rewrite E in Hr; simpl in Hr.
  destruct (q_poll_recv_cases (view ch)) as [(x&l&_&Hq)|[(_&Htx&Hq)|(_&_&Hq)]];
    rewrite Hq in Hr; simplify_eq/=.
  assert (Hnr : ¬ routed w c) by (intros Hr'; specialize (Hy Hr'); lia).
  specialize (Hno Hnr). lia.
Qed.

(** [try_receive] of a live path on a live socket, case by case. *)
Lemma try_receive_cases M w c p payload :
  winv M w → is_Some (w_socket w) → w_paths w !! c = Some p →
  if decide (M < length payload)
  then try_receive c payload w = Some (Err (Oversize (length payload) M), w)
  else ∃ ch, try_receive c payload w =
    Some (if decide (length (q_items (view (w_incoming w))) < q_cap (view (w_incoming w)))
          then Ok tt else Err QueueFull, set_incoming ch w) ∧
    q_items (view ch) =
      if decide (length (q_items (view (w_incoming w))) < q_cap (view (w_incoming w)))
      then q_items (view (w_incoming w)) ++ [MkReceivedDatagram (remote p) payload]
      else q_items (view (w_incoming w)).
Proof.
  intros I Hs Hp. unfold try_receive. rewrite Hp; simpl.
  destruct (inv_path _ _ I _ _ Hp) as [-> _]. case_decide as Hlen; [done|].
  destruct (mpsc_try_send _ _) as [r ch] eqn:E.
  pose proof (mpsc_try_send_fst (MkReceivedDatagram (remote p) payload) (w_incoming w)) as Hf.
  pose proof (mpsc_try_send_snd (MkReceivedDatagram (remote p) payload) (w_incoming w)) as Hq.
  rewrite E in Hf, Hq; simpl in Hf, Hq.
  unfold q_try_send in Hf, Hq. rewrite (inv_incoming_rx _ _ I Hs) in Hf, Hq.
  exists ch. case_decide; simpl in *; subst r; by rewrite Hq.
Qed.

Lemma try_receive_not_closed M w c payload r w' :
  winv M w → is_Some (w_socket w) →
  try_receive c payload w = Some (r, w') → r ≠ Err Closed.
Proof.
  intros I Hs Ht ->.
  destruct (w_paths w !! c) as [p|] eqn:Hp; [|unfold try_receive in Ht; by rewrite Hp in Ht].
  pose proof (try_receive_cases M w c p payload I Hs Hp) as Hc. case_decide; [congruence|].
  destruct Hc as (ch & Hc & _). case_decide; congruence.
Qed.

(** A live path never finds its ends closed: [next_outgoing] never yields
    [None] (the path itself holds a sender of its channel), and while the
    socket is alive [try_receive] never fails with [Closed]. *)
Theorem live_path_never_closed M w c :
  reachable M w →
  (∀ r w', next_outgoing c w = Some (r, w') → r ≠ Ready None) ∧
  (∀ payload r w', is_Some (w_socket w) →
     try_receive c payload w = Some (r, w') → r ≠ Err Closed).
Proof.
  intros I%reachable_inv. split; eauto using next_outgoing_not_closed, try_receive_not_closed.
Qed.

(** What dropping a path does to the route map. *)
Lemma drop_path_routes M w c w' s :
  winv M w → w_socket w = Some s → drop_path c w = Some w' →
  ∃ s', w_socket w' = Some s' ∧ local_addr s' = local_addr s ∧ mtu s' = mtu s ∧
    ∀ a, routes s' !! a = if decide (routes s !! a = Some c) then None else routes s !! a.
Proof.
  intros I Hs Hd. unfold drop_path in Hd.
  destruct (w_paths w !! c) as [p|] eqn:Hp; simpl in Hd; [|done].
  rewrite Hs in Hd. injection Hd as <-.
  assert (Hother : ∀ a, a ≠ remote p → routes s !! a ≠ Some c).
  { intros a Hne Ha. destruct (inv_route _ _ I _ _ _ Hs Ha) as (? & ? & ?). congruence. }
  destruct (routes s !! remote p) as [cur|] eqn:Hcur; [case_decide as Hc|]; simpl.
  - subst cur. eexists. split_and!; [done..|]. intros a. simpl. rewrite lookup_delete.
    repeat case_decide; subst; try done. naive_solver.
  - rewrite Hs. eexists. split_and!; [done..|]. intros a.
    destruct (decide (a = remote p)) as [->|Hne]; case_decide; [congruence|done| |done].
    naive_solver.
  - rewrite Hs. eexists. split_and!; [done..|]. intros a.
    destruct (decide (a = remote p)) as [->|Hne]; case_decide; [congruence|done| |done].
    naive_solver.
Qed.

(** Dropping a path removes its own route and nothing else: the address
    stays routed when a newer path has taken it over, every other route, path
    and outgoing channel is untouched, and the socket stays. *)
Theorem drop_path_removes_only_own_route M w c w' s :
  reachable M w → w_socket w = Some s → drop_path c w = Some w' →
  (∃ s', w_socket w' = Some s' ∧ local_addr s' = local_addr s ∧ mtu s' = mtu s ∧
     ∀ a, routes s' !! a = if decide (routes s !! a = Some c) then None else routes s !! a) ∧
  (∀ c', c' ≠ c → w_paths w' !! c' = w_paths w !! c' ∧ w_chans w' !! c' = w_chans w !! c') ∧
  w_paths w' !! c = None.
Proof.
  intros I%reachable_inv Hs Hd.
  split; [by eapply drop_path_routes|]. unfold drop_path in Hd.
  destruct (w_paths w !! c) as [p|] eqn:Hp; simpl in Hd; [|done].
  rewrite Hs in Hd. injection Hd as <-. simpl.
  rewrite lookup_delete_eq.
  assert (Hw : ∀ w1, w1 = match routes s !! remote p with
    | Some current => if decide (current = c)
        then drop_route_tx c (set_socket (Some (MkSocket (local_addr s) (mtu s)
               (delete (remote p) (routes s)))) w) else w
    | None => w end →
    w_paths w1 = w_paths w ∧ ∀ c', c' ≠ c → w_chans w1 !! c' = w_chans w !! c').
  { intros ? ->. destruct (routes s !! remote p); [case_decide|]; simpl; [|done..].
    split; [done|]. intros c' ?. by rewrite lookup_alter_ne. }
  destruct (Hw _ eq_refl) as [-> Hch]. clear Hw. split; [|done].
  intros c' Hne. rewrite lookup_delete_ne, lookup_alter_ne by done. auto.
Qed.

(** C33: migration: when a replacement path is installed for an address that
    already has one, dropping the old path at any later moment, whatever
    happened in between, leaves the replacement's route in place as long as
    the route still led to it. *)
Theorem replacement_survives_old_drop M w w1 c_new a cap w2 c_old w3 :
  reachable M w → c_old ≠ c_new →
  add_path a cap w = Some (c_new, w1) →
  rtc (vstep M) w1 w2 → lookup_route a w2 = Some c_new →
  drop_path c_old w2 = Some w3 →
  lookup_route a w1 = Some c_new ∧ lookup_route a w3 = Some c_new.
Proof.
  intros Hr Hne Hadd Hsteps Hroute Hdrop. split.
  - unfold add_path in Hadd. case_decide; [done|].
    destruct (w_socket w) as [s|]; simplify_eq/=. unfold lookup_route; simpl.
    apply lookup_insert_eq.
  - assert (Hr2 : reachable M w2).
    { assert (reachable M w1) by (eapply reachable_step, step_add_path; eauto).
      clear Hadd Hroute Hdrop. induction Hsteps; eauto using reachable_step. }
    apply reachable_inv in Hr2. unfold lookup_route in *.
    destruct (w_socket w2) as [s|] eqn:Hs; simpl in Hroute; [|done].
    destruct (drop_path_routes _ _ _ _ _ Hr2 Hs Hdrop) as (s' & -> & _ & _ & Hs'). simpl.
    rewrite Hs', Hroute. rewrite decide_False by congruence. done.
Qed.
End promises.

(** ** The abstract service: a lossy datagram switch

    What the rest of the program may rely on, with no channels, handles or
    buffers: an inbox of datagrams tagged with the address they came from, one
    outbox per path, and a table from addresses to paths.  Any datagram may be
    lost when it is offered; none is reordered, altered, duplicated or sent
    anywhere but to the path its destination named.  As from any UDP socket, a read
    gives as much of a datagram as the reader's buffer has room for. *)
Module Switch.
Record t := Mk {
  inbox : list (SocketAddr * bytes);
  outbox : gmap nat (list bytes);
  table : gmap SocketAddr nat;
  attached : gmap nat SocketAddr
}.

Definition empty : t := Mk [] ∅ ∅ ∅.

(** The observable actions. *)
Inductive label :=
| Attach (c : nat) (a : SocketAddr)
| Detach (c : nat)
| Shutdown
| Ingress (c : nat) (b : bytes) (accepted : bool)
| QuinnRecv (room : nat) (d : option (SocketAddr * bytes))
| QuinnRecvNoBuffer
| QuinnSend (dst : SocketAddr) (b : bytes)
| SendVia (c : nat) (b : bytes)
| QuinnSendRejected (dst : SocketAddr) (b : bytes)
| PathOut (c : nat) (b : option bytes).

Inductive step : t → label → t → Prop :=
| step_attach i o r p c a :
    p !! c = None →
    step (Mk i o r p) (Attach c a) (Mk i (<[c := []]> o) (<[a := c]> r) (<[c := a]> p))
| step_detach i o r r' p c :
    is_Some (p !! c) →
    (∀ a, r' !! a = if decide (r !! a = Some c) then None else r !! a) →
    step (Mk i o r p) (Detach c) (Mk i (<[c := []]> o) r' (delete c p))
| step_shutdown i o r p :
    step (Mk i o r p) Shutdown (Mk [] o ∅ p)
| step_ingress i o r p c a b :
    p !! c = Some a →
    step (Mk i o r p) (Ingress c b true) (Mk (i ++ [(a, b)]) o r p)
| step_ingress_lost s c b :
    step s (Ingress c b false) s
| step_recv i o r p a b room :
    step (Mk ((a, b) :: i) o r p) (QuinnRecv room (Some (a, take room b))) (Mk i o r p)
| step_recv_empty o r p room :
    step (Mk [] o r p) (QuinnRecv room None) (Mk [] o r p)
| step_recv_no_buffer s :
    step s QuinnRecvNoBuffer s
| step_send i o r p dst b c l :
    r !! dst = Some c → o !! c = Some l →
    step (Mk i o r p) (QuinnSend dst b) (Mk i (<[c := l ++ [b]]> o) r p)
| step_send_lost s dst b :
    step s (QuinnSend dst b) s
| step_send_via i o r p b c l :
    is_Some (p !! c) → o !! c = Some l →
    step (Mk i o r p) (SendVia c b) (Mk i (<[c := l ++ [b]]> o) r p)
| step_send_via_lost s c b :
    step s (SendVia c b) s
| step_send_rejected s dst b :
    step s (QuinnSendRejected dst b) s
| step_out i o r p c b l :
    o !! c = Some (b :: l) →
    step (Mk i o r p) (PathOut c (Some b)) (Mk i (<[c := l]> o) r p)
| step_out_empty s c :
    outbox s !! c = Some [] →
    step s (PathOut c None) s.

Inductive steps : t → list label → t → Prop :=
| steps_nil s : steps s [] s
| steps_snoc s s' s'' ls l : steps s ls s' → step s' l s'' → steps s (ls ++ [l]) s''.
End Switch.

Section refinement.
Context {chan : Type → Type} `{MpscSpec chan}.
Implicit Types (w : World chan) (c : nat) (s : VirtualUdpSocket).

Definition items_of (ch : chan bytes) : list bytes := q_items (view ch).

(** The switch a socket state stands for. *)
Definition abs w : Switch.t :=
  Switch.Mk
    ((λ d, (rd_remote d, rd_payload d)) <$> q_items (view (w_incoming w)))
    (items_of <$> w_chans w : gmap nat (list bytes))
    (match w_socket w with Some s => routes s | None => ∅ end)
    (remote <$> w_paths w : gmap nat SocketAddr).

(** The operations of the implementation with what their caller observes.  Quinn
    polls with any buffers and metas; what it reads is in the first of each. *)
Inductive lstep (M : nat) : World chan → Switch.label → World chan → Prop :=
| lstep_add_path addr cap w c w' :
    add_path addr cap w = Some (c, w') → lstep M w (Switch.Attach c addr) w'
| lstep_drop_path c w w' :
    drop_path c w = Some w' → lstep M w (Switch.Detach c) w'
| lstep_drop_socket w w' :
    drop_socket w = Some w' → lstep M w Switch.Shutdown w'
| lstep_try_receive c payload w r w' :
    try_receive c payload w = Some (r, w') →
    lstep M w (Switch.Ingress c payload (is_ok r)) w'
| lstep_try_send dst b w w' :
    try_send (MkTransmit dst b) w = Some (Ok tt, w') → lstep M w (Switch.QuinnSend dst b) w'
| lstep_try_send_err dst b w e w' :
    try_send (MkTransmit dst b) w = Some (Err e, w') →
    lstep M w (Switch.QuinnSendRejected dst b) w'
| lstep_deliver c b w :
    length b ≤ M → lstep M w (Switch.SendVia c b) (deliver (Some c) b w)
| lstep_poll_recv buf bufs ms w buf' bufs' m' ms' w' :
    poll_recv (buf :: bufs) ms w = Some (Ready (Ok 1), buf' :: bufs', m' :: ms', w') →
    lstep M w (Switch.QuinnRecv (length buf) (Some (meta_addr m', take (meta_len m') buf'))) w'
| lstep_poll_recv_pending buf bufs ms w bufs' ms' w' :
    poll_recv (buf :: bufs) ms w = Some (Pending, bufs', ms', w') →
    lstep M w (Switch.QuinnRecv (length buf) None) w'
| lstep_poll_recv_nothing bufs ms w bufs' ms' w' :
    poll_recv bufs ms w = Some (Ready (Ok 0), bufs', ms', w') →
    lstep M w Switch.QuinnRecvNoBuffer w'
| lstep_next_outgoing c b w w' :
    next_outgoing c w = Some (Ready (Some b), w') → lstep M w (Switch.PathOut c (Some b)) w'
| lstep_next_outgoing_pending c w w' :
    next_outgoing c w = Some (Pending, w') → lstep M w (Switch.PathOut c None) w'.

Inductive lsteps (M : nat) : World chan → list Switch.label → World chan → Prop :=
| lsteps_nil w : lsteps M w [] w
| lsteps_snoc w w' w'' ls l :
    lsteps M w ls w' → lstep M w' l w'' → lsteps M w (ls ++ [l]) w''.

Lemma lstep_winv M w l w' : lstep M w l w' → winv M w → winv M w'.
Proof.
  destruct 1; eauto using add_path_winv, try_receive_winv, next_outgoing_winv,
    drop_path_winv, drop_socket_winv, try_send_winv, deliver_winv, poll_recv_winv.
Qed.

(** Changing the sender count of a channel leaves its outbox as it is. *)
Lemma abs_alter_drop_tx (cs : gmap nat (chan bytes)) c :
  items_of <$> alter mpsc_drop_tx c cs =
  items_of <$> cs.
Proof.
  apply map_eq. intros i. rewrite !lookup_fmap, lookup_alter. case_decide; [subst|done].
  destruct (cs !! i); simpl; [|done]. unfold items_of. by rewrite view_drop_tx.
Qed.

Lemma abs_drop_routes (cs : gmap nat (chan bytes)) (rs : gmap SocketAddr nat) :
  items_of <$> map_fold (λ _ c cs, alter mpsc_drop_tx c cs) cs rs =
  items_of <$> cs.
Proof.
  apply (map_fold_weak_ind (λ r _, items_of <$> r =
    items_of <$> cs)); [done|].
  intros i x m r _ IH. by rewrite abs_alter_drop_tx.
Qed.

Lemma abs_deliver_lost w c b ch :
  w_chans w !! c = Some ch →
  (mpsc_try_send b ch).1 ≠ Ok tt → abs (deliver (Some c) b w) = abs w.
Proof.
  intros Hc Hf. unfold deliver, abs. rewrite Hc; simpl. f_equal.
  rewrite fmap_insert. unfold items_of at 1. rewrite mpsc_try_send_snd, mpsc_try_send_fst in *.
  destruct (q_try_send_cases b (view ch)) as [(?&?&Hq)|[(?&?&Hq)|(?&Hq)]];
    rewrite Hq in *; simpl in *; [done|..];
    apply insert_id; by rewrite lookup_fmap, Hc.
Qed.

Lemma abs_deliver_ok w c b ch :
  w_chans w !! c = Some ch →
  (mpsc_try_send b ch).1 = Ok tt →
  q_rx (view ch) = true ∧
  abs (deliver (Some c) b w) =
    Switch.Mk (Switch.inbox (abs w)) (<[c := q_items (view ch) ++ [b]]> (Switch.outbox (abs w)))
      (Switch.table (abs w)) (Switch.attached (abs w)).
Proof.
  intros Hc Hf. unfold deliver, abs. rewrite Hc; simpl.
  rewrite fmap_insert. unfold items_of at 1. rewrite mpsc_try_send_snd, mpsc_try_send_fst in *.
  destruct (q_try_send_cases b (view ch)) as [(?&?&Hq)|[(?&?&Hq)|(?&Hq)]];
    rewrite Hq in *; simpl in *; [|done..]. done.
Qed.

Lemma abs_chan w c ch : w_chans w !! c = Some ch → Switch.outbox (abs w) !! c = Some (q_items (view ch)).
Proof. intros Hc. unfold abs; simpl. by rewrite lookup_fmap, Hc. Qed.

Lemma abs_socket w s : w_socket w = Some s → Switch.table (abs w) = routes s.
Proof. intros Hs. unfold abs; simpl. by rewrite Hs. Qed.

Lemma sim_add_path M w addr cap c w' :
  winv M w → add_path addr cap w = Some (c, w') →
  Switch.step (abs w) (Switch.Attach c addr) (abs w').
Proof.
  intros I Hadd. unfold add_path in Hadd. case_decide; [done|].
  destruct (w_socket w) as [s|] eqn:Hs; simpl in Hadd; [|done]. injection Hadd as <- <-.
  destruct (inv_fresh _ _ I (w_next w) ltac:(done)) as [_ Hp].
  unfold abs at 2; simpl. rewrite !fmap_insert.
  assert (items_of (mpsc_clone_tx (mpsc_new cap)) = []) as ->.
  { unfold items_of. by autorewrite with mpsc. }
  assert (Hw : ∀ w1, w1 = match routes s !! addr with
      | Some old => drop_route_tx old w | None => w end →
    q_items (view (w_incoming w1)) = q_items (view (w_incoming w)) ∧
    (items_of <$> w_chans w1 : gmap nat (list bytes)) = items_of <$> w_chans w ∧
    w_paths w1 = w_paths w).
  { intros ? ->. destruct (routes s !! addr); simpl; [|done].
    by rewrite abs_alter_drop_tx. }
  destruct (Hw _ eq_refl) as (Hi & Ho & Hps). rewrite view_clone_tx; simpl.
  rewrite Hi, Ho, Hps. unfold abs. rewrite Hs. constructor.
  by rewrite lookup_fmap, Hp.
Qed.

Lemma sim_drop_path M w c w' :
  winv M w → drop_path c w = Some w' → Switch.step (abs w) (Switch.Detach c) (abs w').
Proof.
  intros I Hd.
  assert (Htable : ∀ a, Switch.table (abs w') !! a =
    if decide (Switch.table (abs w) !! a = Some c) then None else Switch.table (abs w) !! a).
  { destruct (w_socket w) as [s|] eqn:Hs.
    - destruct (drop_path_routes _ _ _ _ _ I Hs Hd) as (s' & Hs' & _ & _ & Hr).
      by rewrite (abs_socket _ _ Hs), (abs_socket _ _ Hs').
    - unfold drop_path in Hd. destruct (w_paths w !! c); simplify_eq/=.
      rewrite Hs in *. intros a. unfold abs; simpl. rewrite Hs.
      rewrite lookup_empty. by case_decide. }
  unfold drop_path in Hd.
  destruct (w_paths w !! c) as [p|] eqn:Hp; simpl in Hd; [|done]. injection Hd as Hd.
  destruct (inv_path _ _ I _ _ Hp) as (_ & ch & Hch & _).
  assert (Hw : ∀ w1, w1 = match w_socket w with None => w | Some s =>
      match routes s !! remote p with
      | Some current => if decide (current = c)
          then drop_route_tx c (set_socket (Some (MkSocket (local_addr s) (mtu s)
                 (delete (remote p) (routes s)))) w) else w
      | None => w end end →
    w_incoming w1 = w_incoming w ∧ w_paths w1 = w_paths w ∧
    (items_of <$> alter (λ ch, mpsc_drop_rx (mpsc_drop_tx ch)) c (w_chans w1)
      : gmap nat (list bytes)) = <[c := []]> (items_of <$> w_chans w)).
  { intros ? ->.
    assert (Halt : ∀ cs : gmap nat (chan bytes), is_Some (cs !! c) →
      (items_of <$> alter (λ ch, mpsc_drop_rx (mpsc_drop_tx ch)) c cs : gmap nat (list bytes))
      = <[c := []]> (items_of <$> cs)).
    { intros cs [ch' Hch']. apply map_eq. intros i.
      rewrite lookup_fmap, lookup_alter, lookup_insert, lookup_fmap.
      case_decide; [subst; rewrite Hch'; simpl|done]. unfold items_of. by autorewrite with mpsc. }
    destruct (w_socket w) as [s|]; [|by rewrite Halt].
    destruct (routes s !! remote p); [case_decide|]; simpl; [|by rewrite Halt..].
    split_and!; [done..|]. rewrite Halt, abs_alter_drop_tx; [done|].
    rewrite lookup_alter_eq, Hch. by eexists. }
  destruct (Hw _ eq_refl) as (Hi & Hps & Ho). clear Hw.
  assert (abs w' = Switch.Mk (Switch.inbox (abs w)) (<[c := []]> (Switch.outbox (abs w)))
    (Switch.table (abs w')) (delete c (Switch.attached (abs w)))) as Habs.
  { subst w'. unfold abs; simpl. f_equal; [by rewrite view_drop_tx, Hi|done|].
    by rewrite Hps, fmap_delete. }
  rewrite Habs. destruct (abs w) as [i o r q] eqn:Ha. simpl in *. constructor; [|done].
  assert (q = remote <$> w_paths w) as -> by (unfold abs in Ha; by simplify_eq).
  rewrite lookup_fmap, Hp. by eexists.
Qed.

Lemma sim_try_receive M w c payload r w' :
  winv M w → try_receive c payload w = Some (r, w') →
  Switch.step (abs w) (Switch.Ingress c payload (is_ok r)) (abs w').
Proof.
  intros I Ht. unfold try_receive in Ht.
  destruct (w_paths w !! c) as [p|] eqn:Hp; simpl in Ht; [|done].
  case_decide; [simplify_eq; constructor|].
  destruct (mpsc_try_send _ _) as [r0 ch] eqn:E. simplify_eq.
  pose proof (mpsc_try_send_fst (MkReceivedDatagram (remote p) payload) (w_incoming w)) as Hf.
  pose proof (mpsc_try_send_snd (MkReceivedDatagram (remote p) payload) (w_incoming w)) as Hq.
  rewrite E in Hf, Hq; simpl in Hf, Hq.
  destruct (q_try_send_cases (MkReceivedDatagram (remote p) payload) (view (w_incoming w)))
    as [(?&?&Hs)|[(?&?&Hs)|(?&Hs)]]; rewrite Hs in Hf, Hq; simpl in *; subst r0; simpl.
  2,3: unfold abs at 2; simpl; rewrite Hq; apply Switch.step_ingress_lost.
  unfold abs at 2; simpl. rewrite Hq; simpl. rewrite fmap_app. simpl. constructor.
  by rewrite lookup_fmap, Hp.
Qed.

Lemma sim_try_send M w dst b w' :
  winv M w → try_send (MkTransmit dst b) w = Some (Ok tt, w') →
  Switch.step (abs w) (Switch.QuinnSend dst b) (abs w').
Proof.
  intros I Ht. unfold try_send in Ht.
  destruct (w_socket w) as [s|] eqn:Hs; simpl in Ht; [|done].
  case_decide; simplify_eq/=. unfold lookup_route. rewrite Hs; simpl.
  destruct (routes s !! dst) as [c|] eqn:Hr; [|constructor].
  destruct (inv_route _ _ I _ _ _ Hs Hr) as (p & Hp & _).
  destruct (inv_path _ _ I _ _ Hp) as (_ & ch & Hch & _).
  destruct (decide ((mpsc_try_send b ch).1 = Ok tt)) as [Hok|Hlost].
  - destruct (abs_deliver_ok w c b ch Hch Hok) as [_ ->].
    pose proof (abs_chan w c ch Hch). pose proof (abs_socket w s Hs).
    destruct (abs w) as [i o r q]; simpl in *. subst r. by econstructor.
  - rewrite (abs_deliver_lost w c b ch Hch Hlost). constructor.
Qed.

Lemma sim_deliver M w c b :
  winv M w → Switch.step (abs w) (Switch.SendVia c b) (abs (deliver (Some c) b w)).
Proof.
  intros I. destruct (w_chans w !! c) as [ch|] eqn:Hch.
  2: { unfold deliver. rewrite Hch. constructor. }
  destruct (decide ((mpsc_try_send b ch).1 = Ok tt)) as [Hok|Hlost].
  2: { rewrite (abs_deliver_lost w c b ch Hch Hlost). constructor. }
  destruct (abs_deliver_ok w c b ch Hch Hok) as [Hrx ->].
  pose proof (abs_chan w c ch Hch) as Hc.
  assert (is_Some (Switch.attached (abs w) !! c)).
  { unfold abs; simpl. rewrite lookup_fmap.
    destruct (inv_closed _ _ I c ch Hch Hrx) as [p ->]. by eexists. }
  destruct (abs w) as [i o r q]; simpl in *. by econstructor.
Qed.

(** A successful poll hands over the head of the incoming queue, as much of it as
    the first buffer has room for. *)
Lemma poll_recv_head w s buf bufs m ms d rest :
  w_socket w = Some s → q_items (view (w_incoming w)) = d :: rest →
  let len := length (rd_payload d) `min` length buf in
  ∃ ch, q_items (view ch) = rest ∧
    poll_recv (buf :: bufs) (m :: ms) w =
      Some (Ready (Ok 1), (take len (rd_payload d) ++ drop len buf) :: bufs,
            MkRecvMeta (rd_remote d) len len (Some (sa_ip (local_addr s))) :: ms,
            set_incoming ch w).
Proof.
  intros Hs Hq len. unfold poll_recv. rewrite Hs; simpl.
  destruct (mpsc_poll_recv (w_incoming w)) as [r ch] eqn:E.
  pose proof (mpsc_poll_recv_fst (w_incoming w)) as Hf.
  pose proof (mpsc_poll_recv_snd (w_incoming w)) as Hsnd.
  rewrite E in Hf, Hsnd. unfold q_poll_recv in Hf, Hsnd. rewrite Hq in Hf, Hsnd.
  simpl in Hf, Hsnd. subst r. exists ch. split; [by rewrite Hsnd|done].
Qed.

(** What is read out of a buffer is what was copied into it. *)
Lemma take_copied {A} (b buf : list A) :
  let len := length b `min` length buf in
  take len (take len b ++ drop len buf) = take (length buf) b.
Proof.
  intros len. rewrite take_app_le by (rewrite length_take; lia).
  rewrite take_take, Nat.min_id. unfold len. destruct (decide (length b ≤ length buf)).
  - rewrite Nat.min_l by done. by rewrite !take_ge by lia.
  - by rewrite Nat.min_r by lia.
Qed.

(** A poll that waits leaves an empty queue as it is. *)
Lemma poll_recv_idle bufs ms w bufs' ms' w' :
  poll_recv bufs ms w = Some (Pending, bufs', ms', w') →
  is_Some (w_socket w) ∧ q_items (view (w_incoming w)) = [] ∧
  ∃ ch, w' = set_incoming ch w ∧ q_items (view ch) = [].
Proof.
  unfold poll_recv. destruct (w_socket w) as [s|]; simpl; [|done].
  destruct bufs as [|buf bufs], ms as [|m ms]; try done.
  destruct (mpsc_poll_recv (w_incoming w)) as [r ch] eqn:E.
  pose proof (mpsc_poll_recv_fst (w_incoming w)) as Hf.
  pose proof (mpsc_poll_recv_snd (w_incoming w)) as Hsnd. rewrite E in Hf, Hsnd. simpl in Hf, Hsnd.
  destruct (q_poll_recv_cases (view (w_incoming w))) as [(x&l&?&Hq)|[(?&?&Hq)|(Hi&?&Hq)]];
    rewrite Hq in Hf, Hsnd; simpl in *; subst r; intros ?; simplify_eq.
  split; [by eexists|]. split; [done|]. exists ch. by rewrite Hsnd.
Qed.

Lemma sim_poll_recv w buf bufs ms buf' bufs' m' ms' w' :
  poll_recv (buf :: bufs) ms w = Some (Ready (Ok 1), buf' :: bufs', m' :: ms', w') →
  Switch.step (abs w) (Switch.QuinnRecv (length buf) (Some (meta_addr m', take (meta_len m') buf'))) (abs w').
Proof.
  intros Hp. destruct (w_socket w) as [s|] eqn:Hs; [|unfold poll_recv in Hp; by rewrite Hs in Hp].
  destruct ms as [|m ms]; [unfold poll_recv in Hp; by rewrite Hs in Hp|].
  destruct (q_items (view (w_incoming w))) as [|d rest] eqn:Hq.
  - unfold poll_recv in Hp. rewrite Hs in Hp; simpl in Hp.
    destruct (mpsc_poll_recv (w_incoming w)) as [r ch] eqn:E.
    pose proof (mpsc_poll_recv_fst (w_incoming w)) as Hf. rewrite E in Hf.
    unfold q_poll_recv in Hf. rewrite Hq in Hf. simpl in Hf.
    case_decide; simplify_eq/=.
  - destruct (poll_recv_head w s buf bufs m ms d rest Hs Hq) as (ch & Hch & Heq).
    rewrite Heq in Hp. simplify_eq/=. rewrite take_copied.
    unfold abs; simpl. rewrite Hq. simpl. constructor.
Qed.

Lemma sim_poll_pending w buf bufs ms bufs' ms' w' :
  poll_recv (buf :: bufs) ms w = Some (Pending, bufs', ms', w') →
  Switch.step (abs w) (Switch.QuinnRecv (length buf) None) (abs w').
Proof.
  intros (_ & Hi & ch & -> & Hch)%poll_recv_idle.
  unfold abs; simpl. rewrite Hi, Hch. simpl. constructor.
Qed.

Lemma sim_poll_nothing w bufs ms bufs' ms' w' :
  poll_recv bufs ms w = Some (Ready (Ok 0), bufs', ms', w') →
  Switch.step (abs w) Switch.QuinnRecvNoBuffer (abs w').
Proof.
  unfold poll_recv. destruct (w_socket w); simpl; [|done].
  destruct bufs as [|buf bufs], ms as [|m ms]; try (intros; simplify_eq; constructor).
  destruct (mpsc_poll_recv (w_incoming w)) as [[[d|]|] ch]; intros; simplify_eq.
Qed.

Lemma sim_next_outgoing M w c r w' :
  winv M w → next_outgoing c w = Some (r, w') →
  Switch.step (abs w)
    (Switch.PathOut c (match r with Ready (Some b) => Some b | _ => None end)) (abs w').
Proof.
  intros I Hn. unfold next_outgoing in Hn.
  destruct (w_paths w !! c) as [p|] eqn:Hp; simpl in Hn; [|done].
  destruct (w_chans w !! c) as [ch|] eqn:Hch; simpl in Hn; [|done].
  destruct (mpsc_poll_recv ch) as [r0 ch'] eqn:E. simplify_eq.
  pose proof (mpsc_poll_recv_fst ch) as Hf. pose proof (mpsc_poll_recv_snd ch) as Hsnd.
  rewrite E in Hf, Hsnd. simpl in Hf, Hsnd. pose proof (abs_chan w c ch Hch) as Hc.
  assert (abs (set_chans (<[c := ch']> (w_chans w)) w) =
    Switch.Mk (Switch.inbox (abs w)) (<[c := items_of ch']> (Switch.outbox (abs w)))
      (Switch.table (abs w)) (Switch.attached (abs w))) as ->.
  { unfold abs; simpl. by rewrite fmap_insert. }
  unfold items_of. rewrite Hsnd. destruct (abs w) as [i o t q].
  destruct (q_poll_recv_cases (view ch)) as [(x&l&Hi&Hq)|[(Hi&?&Hq)|(Hi&?&Hq)]];
    rewrite Hq in Hf |- *; simpl in *; subst r; rewrite Hi in *.
  - by constructor.
  - rewrite insert_id by done. by constructor.
  - rewrite insert_id by done. by constructor.
Qed.

Lemma lstep_sim M w l w' : winv M w → lstep M w l w' → Switch.step (abs w) l (abs w').
Proof.
  intros I. destruct 1.
  - by eapply sim_add_path.
  - by eapply sim_drop_path.
  - unfold drop_socket in *. destruct (w_socket w) as [s|] eqn:Hs; simplify_eq/=.
    unfold abs; simpl. autorewrite with mpsc; simpl. rewrite abs_drop_routes, Hs. constructor.
  - by eapply sim_try_receive.
  - by eapply sim_try_send.
  - unfold try_send in *. destruct (w_socket w); simplify_eq/=.
    case_decide; simplify_eq. constructor.
  - by eapply sim_deliver.
  - by eapply sim_poll_recv.
  - by eapply sim_poll_pending.
  - by eapply sim_poll_nothing.
  - by eapply (sim_next_outgoing _ _ _ (Ready (Some b))).
  - by eapply (sim_next_outgoing _ _ _ Pending).
Qed.

(** C1: refinement: every trace of observable actions of a socket created by
    [with_options], in any interleaving of Quinn, the paths and path churn, is
    a trace of the lossy switch: datagrams may be dropped but are never
    reordered, altered, duplicated or misrouted, and what Quinn reads from its
    first buffer is exactly the datagram, cut to the room the buffer has, with the
    address of the path it came in on; any number of buffers of any size is
    allowed. *)
Theorem virtual_udp_refines_switch addr M cap w0 ls w :
  with_options addr M cap = Some w0 → lsteps M w0 ls w →
  Switch.steps Switch.empty ls (abs w).
Proof.
  intros Hw0 Hls.
  assert (abs w0 = Switch.empty) as Habs.
  { unfold with_options in Hw0. repeat case_decide; simplify_eq. unfold abs; simpl.
    by autorewrite with mpsc. }
  apply with_options_winv in Hw0. rewrite <- Habs. clear Habs.
  assert (winv M w ∧ Switch.steps (abs w0) ls (abs w)) as [_ ?]; [|done].
  induction Hls as [|w0 w1 w2 ls l Hls IH Hl]; [split; [done|constructor]|].
  destruct (IH Hw0) as [I Hs]. split; [by eapply lstep_winv|].
  econstructor; [done|]. by eapply lstep_sim.
Qed.

(** Sending: Quinn's [try_send] fails only for a datagram over the MTU,
    and then changes nothing; otherwise it succeeds whatever the state of the
    routes.  With a route whose queue has room the datagram becomes the last of
    that queue, and nothing else changes; with no route or a full queue it is
    lost and nothing changes. *)
Theorem try_send_cases M w s dst b :
  reachable M w → w_socket w = Some s →
  (mtu s < length b → try_send (MkTransmit dst b) w = Some (Err InvalidInput, w)) ∧
  (length b ≤ mtu s →
    ∃ w', try_send (MkTransmit dst b) w = Some (Ok tt, w') ∧
      match routes s !! dst with
      | None => w' = w
      | Some c => ∃ ch, w_chans w !! c = Some ch ∧
          if decide (length (q_items (view ch)) < q_cap (view ch))
          then ∃ ch', view ch' = MkQueue (q_items (view ch) ++ [b]) (q_cap (view ch)) 2 true ∧
                 w' = set_chans (<[c := ch']> (w_chans w)) w
          else abs w' = abs w
      end).
Proof.
  intros I%reachable_inv Hs. unfold try_send. rewrite Hs; simpl.
  split; intros Hlen; [by rewrite decide_True|]. rewrite decide_False by lia.
  eexists; split; [done|]. unfold lookup_route. rewrite Hs; simpl.
  destruct (routes s !! dst) as [c|] eqn:Hr; [|done].
  destruct (inv_route _ _ I _ _ _ Hs Hr) as (p & Hp & _).
  destruct (inv_path _ _ I _ _ Hp) as (_ & ch & Hch & Hrx & Htx & _).
  specialize (Htx ltac:(by exists s, dst)). exists ch. split; [done|]. case_decide as Hroom.
  - eexists. unfold deliver. rewrite Hch. split; [|done].
    rewrite mpsc_try_send_snd. unfold q_try_send. rewrite Hrx, decide_True by done.
    by rewrite Htx.
  - eapply abs_deliver_lost; [done|]. rewrite mpsc_try_send_fst. unfold q_try_send.
    by rewrite Hrx, decide_False.
Qed.

(** Receiving: when a datagram is queued and Quinn's first buffer has room
    for an MTU, [poll_recv] delivers the oldest datagram whole, with the address
    of its path, and leaves the rest of the queue and of the buffer alone. *)
Theorem poll_recv_delivers_oldest M w s buf bufs m ms d rest :
  reachable M w → w_socket w = Some s → M ≤ length buf →
  q_items (view (w_incoming w)) = d :: rest →
  ∃ buf' m' w', poll_recv (buf :: bufs) (m :: ms) w
      = Some (Ready (Ok 1), buf' :: bufs, m' :: ms, w') ∧
    meta_addr m' = rd_remote d ∧ meta_len m' = length (rd_payload d) ∧
    take (meta_len m') buf' = rd_payload d ∧
    drop (meta_len m') buf' = drop (meta_len m') buf ∧
    q_items (view (w_incoming w')) = rest ∧ w_chans w' = w_chans w ∧ w_socket w' = Some s.
Proof.
  intros I%reachable_inv Hs Hbuf Hq.
  pose proof (inv_incoming _ _ I) as Hall. rewrite Hq in Hall. apply Forall_cons in Hall as [Hd _].
  destruct (poll_recv_head w s buf bufs m ms d rest Hs Hq) as (ch & Hch & Heq).
  rewrite Nat.min_l, firstn_all in Heq by lia.
  do 3 eexists. split; [exact Heq|]. simpl. split_and!; [done..| | |done|done|done].
  - by rewrite take_app_length.
  - by rewrite drop_app_length.
Qed.
End refinement.

(** ** A concrete socket

    MTU 4, two slots; a path is installed, replaced at the same address, and a
    datagram arrives on the replacement. *)
Module Demo.
Definition here : SocketAddr := SocketAddrV4 (ipv4 100 64 0 1) 7000.
Definition peer : SocketAddr := SocketAddrV4 (ipv4 100 64 0 2) 443.

Definition or_else {A} (d : World Queue) (f : A → World Queue) (o : option A) : World Queue :=
  match o with Some a => f a | None => d end.

Definition w0 : World Queue := MkWorld (Some (MkSocket here 4 ∅)) (q_new 2) ∅ ∅ 0.
Definition w1 : World Queue := or_else w0 snd (add_path peer 2 w0).
Definition w2 : World Queue := or_else w0 snd (add_path peer 2 w1).
Definition w3 : World Queue := or_else w0 snd (try_receive 1 [x01; x02] w2).
Definition w4 : World Queue := or_else w0 id (drop_path 0 w3).

Lemma w0_created : with_options here 4 2 = Some w0.
Proof. reflexivity. Qed.

Lemma w1_reachable : reachable 4 w1.
Proof.
  exists here, 2, w0. split; [exact w0_created|].
  apply rtc_once. eapply (step_add_path _ peer 2 w0 0). reflexivity.
Qed.

Lemma w2_reachable : reachable 4 w2.
Proof. eapply reachable_step; [exact w1_reachable|]. eapply (step_add_path _ peer 2 w1 1). reflexivity. Qed.

Lemma w3_reachable : reachable 4 w3.
Proof.
  eapply reachable_step; [exact w2_reachable|].
  eapply (step_try_receive _ 1 [x01; x02] w2 (Ok tt)). reflexivity.
Qed.

Lemma reachable_state_sound_witness :
  reachable 4 w3 ∧ length (q_items (view (w_incoming w3))) ≤ q_cap (view (w_incoming w3)).
Proof.
  split; [exact w3_reachable|].
  exact (proj1 (proj2 (proj2 (reachable_state_sound 4 w3 w3_reachable)))).
Defined.

Lemma poll_recv_never_broken_pipe_witness :
  ∃ r bs ms w', poll_recv [[x00]] [MkRecvMeta here 0 0 None] w1 = Some (r, bs, ms, w') ∧
    r ≠ Ready (Err BrokenPipe).
Proof.
  do 4 eexists. split; [reflexivity|].
  apply (poll_recv_never_broken_pipe 4 w1 [[x00]] [MkRecvMeta here 0 0 None]
    Pending [[x00]] [MkRecvMeta here 0 0 None] _ w1_reachable eq_refl).
Defined.

Lemma live_path_never_closed_witness :
  ∃ r w', next_outgoing 0 w2 = Some (r, w') ∧ r ≠ Ready None.
Proof.
  do 2 eexists. split; [reflexivity|].
  apply (proj1 (live_path_never_closed 4 w2 0 w2_reachable) Pending _ eq_refl).
Defined.

Lemma drop_path_removes_only_own_route_witness :
  w_paths w4 !! 0 = None ∧ w_paths w4 !! 1 = w_paths w3 !! 1.
Proof.
  pose proof (drop_path_removes_only_own_route 4 w3 0 w4
    (MkSocket here 4 {[peer := 1]}) w3_reachable eq_refl eq_refl) as (_ & Ho & Hn).
  split; [exact Hn|]. exact (proj1 (Ho 1 ltac:(lia))).
Defined.

Lemma replacement_survives_old_drop_witness : lookup_route peer w4 = Some 1.
Proof.
  refine (proj2 (replacement_survives_old_drop 4 w1 w2 1 peer 2 w3 0 w4
    w1_reachable _ eq_refl _ eq_refl eq_refl)); [lia|].
  apply rtc_once. eapply (step_try_receive _ 1 [x01; x02] w2 (Ok tt)). reflexivity.
Defined.

(** Quinn reads the datagram of two bytes with room for one. *)
Definition w5 : World Queue :=
  match poll_recv [[x00]] [MkRecvMeta here 0 0 None] w3 with Some (_, _, _, w) => w | None => w3 end.

Lemma virtual_udp_refines_switch_witness :
  Switch.steps Switch.empty
    [Switch.Attach 0 peer; Switch.Attach 1 peer; Switch.Ingress 1 [x01; x02] true;
     Switch.QuinnRecv 1 (Some (peer, [x01]))] (abs w5).
Proof.
  refine (virtual_udp_refines_switch here 4 2 w0 _ w5 eq_refl _).
  apply (lsteps_snoc 4 w0 w3 w5 [Switch.Attach 0 peer; Switch.Attach 1 peer; Switch.Ingress 1 [x01; x02] true]).
  - apply (lsteps_snoc 4 w0 w2 w3 [Switch.Attach 0 peer; Switch.Attach 1 peer]).
    + apply (lsteps_snoc 4 w0 w1 w2 [Switch.Attach 0 peer]).
      * apply (lsteps_snoc 4 w0 w0 w1 []); [constructor|].
        apply (lstep_add_path 4 peer 2). reflexivity.
      * apply (lstep_add_path 4 peer 2). reflexivity.
    + apply (lstep_try_receive 4 1 [x01; x02] w2 (Ok tt)). reflexivity.
  - apply (lstep_poll_recv 4 [x00] [] [MkRecvMeta here 0 0 None] w3 [x01] []
      (MkRecvMeta peer 1 1 (Some (sa_ip here))) []). reflexivity.
Defined.

Lemma try_send_cases_witness :
  try_send (MkTransmit peer [x00; x00; x00; x00; x00]) w2 = Some (Err InvalidInput, w2).
Proof.
  apply (proj1 (try_send_cases 4 w2 (MkSocket here 4 {[peer := 1]}) peer
    [x00; x00; x00; x00; x00] w2_reachable eq_refl)). simpl; lia.
Defined.

Lemma poll_recv_delivers_oldest_witness :
  ∃ buf' m' w', poll_recv [[x00; x00; x00; x00]] [MkRecvMeta here 0 0 None] w3
    = Some (Ready (Ok 1), [buf'], [m'], w') ∧ meta_addr m' = peer ∧
    take (meta_len m') buf' = [x01; x02].
Proof.
  destruct (poll_recv_delivers_oldest 4 w3 (MkSocket here 4 {[peer := 1]})
    [x00; x00; x00; x00] [] (MkRecvMeta here 0 0 None) []
    (MkReceivedDatagram peer [x01; x02]) [] w3_reachable eq_refl ltac:(simpl; lia) eq_refl)
    as (buf' & m' & w' & Hp & Ha & _ & Ht & _).
  exists buf', m', w'. split; [exact Hp|]. split; [exact Ha|exact Ht].
Defined.
End Demo.
