(* ===== verification/Supervisor.v ===== *)
(** The supervisor of peer-proxy sessions ([src/supervisor.rs]): retry with
    exponential backoff and jitter, accounting, events, and the pool of workers.

    The session it supervises is a parameter, as [supervise_with] takes it; what
    the outside contributes to one round of the loop (the cancellation token's
    state where it is looked at, the session's result, how long it took, the clock)
    is a [round].  A [Duration] is its number of nanoseconds. *)
From S2P Require Import Prelude Net Relay.

Definition duration_max : Z := u64_max * 10 ^ 9 + 999999999.

(** [Duration::saturating_mul] and [Duration::from_millis]. *)
Definition saturating_mul (d k : Z) : Z := Z.min (d * k) duration_max.
Definition from_millis (ms : Z) : Z := ms * 10 ^ 6.

(** [+= 1] on a [u64]. *)
Definition u64_succ (n : Z) : Z := wrap 64 (n + 1).

Record PeerProxyOutcome := MkOutcome {
  consumer_session_id : string;
  relay_end : RelayEnd;
  relay_time : Z
}.

Record SupervisorSummary := MkSummary {
  attempts : Z;
  completed_sessions : Z;
  failed_attempts : Z
}.

Definition default_summary : SupervisorSummary := MkSummary 0 0 0.

Inductive SupervisorEvent :=
| AttemptStarted (attempt : Z)
| PeerConnected (session_id : string) (remote : option SocketAddr)
| PeerDisconnected (session_id : string)
| SessionEnded (attempt : Z) (outcome : PeerProxyOutcome) (duration retry_in : Z)
| AttemptFailed (attempt : Z) (error : string) (duration retry_in : Z)
| Stopped (summary : SupervisorSummary).

(** ** Delays *)

Definition nonzero (d : Z) : Z := if decide (d = 0)%Z then from_millis 1 else d.

(** [now] is the clock's nanoseconds since the epoch, before truncation. *)
Definition entropy (now attempt : Z) : Z :=
  Z.lxor (wrap 64 now) (wrap 64 (attempt * 0x9e3779b97f4a7c15)).

Definition jitter_percent (e : Z) : Z := 80 + e mod 41.

Definition jittered (base e : Z) : Z :=
  let nanos := (Z.min (base * jitter_percent e) u128_max / 100)%Z in
  Z.min nanos u64_max.

(** ** The loop *)

Record SupervisorConfig := MkConfig {
  initial_backoff : Z;
  max_backoff : Z;
  stable_session : Z
}.

Section supervise.
(** The session's error, the relay time it may carry, and its [to_string]. *)
Context {E : Type} (relay_duration : E → option Z) (display : E → string).

Record round := MkRound {
  rd_cancelled_before : bool;
  rd_session_events : list SupervisorEvent;
  rd_result : result PeerProxyOutcome E;
  rd_duration : Z;
  rd_cancelled_after : bool;
  rd_now : Z;
  rd_cancelled_asleep : bool
}.

Record sup_state := MkSup {
  backoff : Z;
  summary : SupervisorSummary;
  log : option (list SupervisorEvent)
}.

(** The events go nowhere when no sender was given. *)
Definition emit (e : SupervisorEvent) (log : option (list SupervisorEvent)) : option (list SupervisorEvent) :=
  (λ l, l ++ [e]) <$> log.

Definition round_relay_duration (r : result PeerProxyOutcome E) : option Z :=
  match r with
  | Ok outcome => Some (relay_time outcome)
  | Err error => relay_duration error
  end.

Definition is_stable (config : SupervisorConfig) (r : result PeerProxyOutcome E) : bool :=
  match round_relay_duration r with
  | Some d => bool_decide (stable_session config ≤ d)%Z
  | None => false
  end.

(** Up to the end of the session: count the attempt, announce it, run it. *)
Definition start_attempt (rd : round) (st : sup_state) : sup_state :=
  let attempt := u64_succ (attempts (summary st)) in
  let sum := MkSummary attempt (completed_sessions (summary st)) (failed_attempts (summary st)) in
  MkSup (backoff st) sum ((λ l, l ++ rd_session_events rd) <$> emit (AttemptStarted attempt) (log st)).

(** From the session's result to the sleep: the delay, the accounting and the
    report, the next backoff. *)
Definition finish_attempt (config : SupervisorConfig) (initial max : Z) (rd : round) (st : sup_state)
    : sup_state :=
  let attempt := attempts (summary st) in
  let stable := is_stable config (rd_result rd) in
  let backoff := if stable then initial else backoff st in
  let retry_in := Z.min (jittered backoff (entropy (rd_now rd) attempt)) max in
  let '(sum, log) :=
    match rd_result rd with
    | Ok outcome =>
        (MkSummary attempt (u64_succ (completed_sessions (summary st))) (failed_attempts (summary st)),
         emit (SessionEnded attempt outcome (rd_duration rd) retry_in) (log st))
    | Err error =>
        (MkSummary attempt (completed_sessions (summary st)) (u64_succ (failed_attempts (summary st))),
         emit (AttemptFailed attempt (display error) (rd_duration rd) retry_in) (log st))
    end in
  MkSup (if stable then backoff else Z.min (saturating_mul backoff 2) max) sum log.

(** One pass of the loop: [true] when it breaks. *)
Definition supervise_round (config : SupervisorConfig) (initial max : Z) (rd : round) (st : sup_state)
    : bool * sup_state :=
  if rd_cancelled_before rd then (true, st)
  else
    let st := start_attempt rd st in
    if is_err (rd_result rd) && rd_cancelled_after rd then (true, st)
    else (rd_cancelled_asleep rd, finish_attempt config initial max rd st).

(** [None]: still running when the rounds are over. *)
Fixpoint supervise_loop (config : SupervisorConfig) (initial max : Z) (rounds : list round) (st : sup_state)
    : option sup_state :=
  match rounds with
  | [] => None
  | rd :: rounds =>
      match supervise_round config initial max rd st with
      | (true, st) => Some st
      | (false, st) => supervise_loop config initial max rounds st
      end
  end.

Definition effective_initial (config : SupervisorConfig) : Z := nonzero (initial_backoff config).
Definition effective_max (config : SupervisorConfig) : Z :=
  Z.max (max_backoff config) (effective_initial config).

Definition supervise_with (config : SupervisorConfig) (events : option (list SupervisorEvent))
    (rounds : list round) : option (SupervisorSummary * option (list SupervisorEvent)) :=
  let initial := effective_initial config in
  st ← supervise_loop config initial (effective_max config) rounds (MkSup initial default_summary events);
  Some (summary st, emit (Stopped (summary st)) (log st)).
End supervise.

Arguments round : clear implicits.

(** ** The pool *)

Record PoolEvent := MkPoolEvent {
  slot : nat;
  event : SupervisorEvent
}.

Definition pool_attempts (workers : list SupervisorSummary) : Z := foldr (λ s n, wrap 64 (attempts s + n)) 0%Z workers.
Definition pool_completed_sessions (workers : list SupervisorSummary) : Z :=
  foldr (λ s n, wrap 64 (completed_sessions s + n)) 0%Z workers.
Definition pool_failed_attempts (workers : list SupervisorSummary) : Z :=
  foldr (λ s n, wrap 64 (failed_attempts s + n)) 0%Z workers.

(** One iteration of a worker's loop: what reached its channel since the last one
    (from the supervised future, which is polled first, or from a connection's
    callbacks) and, when the supervised future is done, its summary. *)
Record iteration := MkIter {
  arrived : list SupervisorEvent;
  finished : option SupervisorSummary
}.

(** The worker: [queue] is its own channel, the result the events it forwarded.
    [None]: not done when the iterations are over. *)
Fixpoint forward (n : nat) (iters : list iteration) (queue : list SupervisorEvent)
    : list PoolEvent * option (nat * SupervisorSummary) :=
  match iters with
  | [] => ([], None)
  | w :: iters =>
      let queue := queue ++ arrived w in
      match finished w with
      | Some summary => (MkPoolEvent n <$> queue, Some (n, summary))
      | None =>
          match queue with
          | [] => forward n iters []
          | e :: queue =>
              let '(out, r) := forward n iters queue in (MkPoolEvent n e :: out, r)
          end
      end
  end.

(** [workers.sort_by_key(slot)] and the summaries; [results] are the pairs the
    joined workers returned, in any order. *)
Definition by_slot (a b : nat * SupervisorSummary) : Prop := a.1 ≤ b.1.

#[export] Instance by_slot_dec : RelDecision by_slot.
Proof. unfold by_slot. intros a b. apply _. Defined.

Definition pool_summary (results : list (nat * SupervisorSummary)) : list SupervisorSummary :=
  (merge_sort by_slot results).*2.

Definition pool_size (slots : nat) : nat := Nat.max slots 1.

(** ** Jitter *)

Lemma jitter_percent_range e : (80 ≤ jitter_percent e ≤ 120)%Z.
Proof. unfold jitter_percent. pose proof (Z.mod_pos_bound e 41). lia. Qed.

(** The jitter is within 20 percent of the base whatever the entropy, rounded
    down; the 128-bit product never saturates for any [Duration], so the only cap is
    that of a 64-bit number of nanoseconds. *)
Theorem jittered_range base e :
  (0 ≤ base ≤ duration_max)%Z →
  (base * jitter_percent e ≤ u128_max)%Z ∧
  jittered base e = Z.min (base * jitter_percent e / 100) u64_max ∧
  (Z.min (base * 80 / 100) u64_max ≤ jittered base e ≤ Z.min (base * 120 / 100) u64_max)%Z.
Proof.
  intros Hb. pose proof (jitter_percent_range e) as Hp.
  assert (Hns : (base * jitter_percent e ≤ u128_max)%Z).
  { unfold duration_max, u64_max, u128_max in *. nia. }
  assert (Hj : jittered base e = Z.min (base * jitter_percent e / 100) u64_max).
  { unfold jittered. by rewrite (Z.min_l (base * _)). }
  split_and!; [done..| |]; rewrite Hj.
  - apply Z.min_le_compat_r, Z.div_le_mono; nia.
  - apply Z.min_le_compat_r, Z.div_le_mono; nia.
Qed.

Lemma jittered_nonneg base e : (0 ≤ base)%Z → (0 ≤ jittered base e)%Z.
Proof.
  intros Hb. pose proof (jitter_percent_range e). unfold jittered, u64_max, u128_max.
  apply Z.min_glb; [apply Z.div_pos; [apply Z.min_glb; nia|lia]|lia].
Qed.

(** ** Backoff *)

(** The base delay after [k] unstable sessions in a row. *)
Definition delay_base (initial max : Z) (k : nat) : Z := Z.min (initial * 2 ^ Z.of_nat k) max.

Lemma delay_base_0 initial max : (initial ≤ max)%Z → delay_base initial max 0 = initial.
Proof. unfold delay_base. simpl. lia. Qed.

Lemma delay_base_S initial max k :
  (0 ≤ initial ≤ max)%Z → (max ≤ duration_max)%Z →
  Z.min (saturating_mul (delay_base initial max k) 2) max = delay_base initial max (S k).
Proof.
  intros Hi Hm. unfold saturating_mul, delay_base. rewrite Nat2Z.inj_succ, Z.pow_succ_r by lia.
  pose proof (Z.pow_pos_nonneg 2 (Z.of_nat k)). nia.
Qed.

Section supervise_properties.
Context {E : Type} (relay_duration : E → option Z) (display : E → string).
Implicit Types (rd : round E) (rounds : list (round E)).

Abbreviation loop := (supervise_loop relay_duration display).
Abbreviation finish := (finish_attempt relay_duration display).

(** The delays of the rounds that are reported, from the closed form: [k] is the
    number of unstable sessions in a row before the next round. *)
Fixpoint delays (config : SupervisorConfig) (initial max : Z) (k : nat) (attempt : Z) rounds : list Z :=
  match rounds with
  | [] => []
  | rd :: rounds =>
      if rd_cancelled_before rd || (is_err (rd_result rd) && rd_cancelled_after rd) then []
      else
        let stable := is_stable relay_duration config (rd_result rd) in
        let base := delay_base initial max (if stable then 0 else k) in
        Z.min (jittered base (entropy (rd_now rd) attempt)) max ::
        (if rd_cancelled_asleep rd then []
         else delays config initial max (if stable then 0 else S k) (attempt + 1) rounds)
  end.

Definition retry_of (e : SupervisorEvent) : option Z :=
  match e with
  | SessionEnded _ _ _ retry_in | AttemptFailed _ _ _ retry_in => Some retry_in
  | _ => None
  end.

(** What a session may emit. *)
Definition peer_event (e : SupervisorEvent) : Prop :=
  match e with PeerConnected _ _ | PeerDisconnected _ => True | _ => False end.

Definition peer_events rd : Prop := Forall peer_event (rd_session_events rd).

Lemma omap_peer_events {B} (f : SupervisorEvent → option B) l :
  (∀ e, peer_event e → f e = None) → Forall peer_event l → omap f l = [].
Proof. intros Hf. induction 1 as [|e l He _ IH]; simpl; [done|]. by rewrite Hf. Qed.

Definition events_of (st : sup_state) : list SupervisorEvent := default [] (log st).

Lemma start_attempt_events rd st :
  is_Some (log st) → is_Some (log (start_attempt rd st)) ∧
  events_of (start_attempt rd st) =
    events_of st ++ AttemptStarted (u64_succ (attempts (summary st))) :: rd_session_events rd.
Proof.
  intros [l Hl]. unfold events_of, start_attempt, emit. simpl. rewrite Hl. simpl.
  split; [by eexists|]. by rewrite <- (assoc_L (++)).
Qed.

(** What a finished attempt adds to the log. *)
Definition report (config : SupervisorConfig) (initial max : Z) rd (st : sup_state) : SupervisorEvent :=
  let base := if is_stable relay_duration config (rd_result rd) then initial else backoff st in
  let retry_in := Z.min (jittered base (entropy (rd_now rd) (attempts (summary st)))) max in
  match rd_result rd with
  | Ok outcome => SessionEnded (attempts (summary st)) outcome (rd_duration rd) retry_in
  | Err error => AttemptFailed (attempts (summary st)) (display error) (rd_duration rd) retry_in
  end.

Lemma finish_attempt_events config initial max rd st :
  is_Some (log st) → is_Some (log (finish config initial max rd st)) ∧
  events_of (finish config initial max rd st) = events_of st ++ [report config initial max rd st].
Proof.
  intros [l Hl]. unfold events_of, finish_attempt, report, emit.
  destruct (rd_result rd); simpl; rewrite Hl; simpl; by split; [eexists|].
Qed.

Lemma u64_succ_small n m : (0 ≤ n)%Z → (n + Z.of_nat (S m) ≤ u64_max)%Z → u64_succ n = (n + 1)%Z.
Proof. intros. unfold u64_succ, u64_max in *. rewrite wrap_small; lia. Qed.

Lemma finish_attempt_backoff config initial max rd st k :
  (0 ≤ initial ≤ max)%Z → (max ≤ duration_max)%Z → backoff st = delay_base initial max k →
  let stable := is_stable relay_duration config (rd_result rd) in
  backoff (finish config initial max rd st) = delay_base initial max (if stable then 0 else S k) ∧
  retry_of (report config initial max rd st) =
    Some (Z.min (jittered (delay_base initial max (if stable then 0 else k))
                          (entropy (rd_now rd) (attempts (summary st)))) max).
Proof.
  intros Hi Hm Hb stable. unfold finish_attempt, report. fold stable.
  assert (Hbase : (if stable then initial else backoff st) = delay_base initial max (if stable then 0 else k)).
  { destruct stable; [by rewrite delay_base_0 by lia|done]. }
  rewrite Hbase. split; [|by destruct (rd_result rd)].
  destruct (rd_result rd); simpl; (destruct stable; [done|by apply delay_base_S]).
Qed.

Lemma supervise_loop_delays config initial max k rounds st st' :
  (0 ≤ initial ≤ max)%Z → (max ≤ duration_max)%Z → Forall peer_events rounds →
  (0 ≤ attempts (summary st))%Z → (attempts (summary st) + Z.of_nat (length rounds) ≤ u64_max)%Z →
  is_Some (log st) → backoff st = delay_base initial max k →
  loop config initial max rounds st = Some st' →
  is_Some (log st') ∧ omap retry_of (events_of st') =
    omap retry_of (events_of st) ++ delays config initial max k (attempts (summary st) + 1) rounds.
Proof.
  intros Hi Hm Hpe. revert k st. induction Hpe as [|rd rounds Hrd Hpe IH]; intros k st Hn Hlen Hlog Hb; [done|].
  simpl in Hlen |- *. unfold supervise_round.
  destruct (rd_cancelled_before rd); [intros; simplify_eq; by rewrite app_nil_r|].
  destruct (start_attempt_events rd st Hlog) as [Hlog1 He1].
  assert (Hsess : omap retry_of (events_of (start_attempt rd st)) = omap retry_of (events_of st)).
  { rewrite He1, omap_app.
    change (omap retry_of (AttemptStarted ?n :: ?l)) with (omap retry_of l). rewrite (omap_peer_events retry_of (rd_session_events rd)); [by rewrite app_nil_r|by intros []|done]. }
  cbn zeta. simpl orb.
  destruct (is_err (rd_result rd) && rd_cancelled_after rd).
  { intros [= <-]. by rewrite Hsess, app_nil_r. }
  destruct (finish_attempt_events config initial max rd (start_attempt rd st) Hlog1) as [Hlog2 He2].
  assert (Hatt : attempts (summary (start_attempt rd st)) = (attempts (summary st) + 1)%Z).
  { by apply (u64_succ_small _ (length rounds)). }
  destruct (finish_attempt_backoff config initial max rd (start_attempt rd st) k Hi Hm Hb) as [Hb2 Hr].
  assert (Hatt2 : attempts (summary (finish config initial max rd (start_attempt rd st))) =
    (attempts (summary st) + 1)%Z).
  { rewrite <- Hatt. unfold finish_attempt. by destruct (rd_result rd). }
  assert (Hev : omap retry_of (events_of (finish config initial max rd (start_attempt rd st))) =
    omap retry_of (events_of st) ++ option_list (retry_of (report config initial max rd (start_attempt rd st)))).
  { rewrite He2, omap_app, Hsess. simpl. by rewrite Hr. }
  rewrite Hr, Hatt in Hev. destruct (rd_cancelled_asleep rd).
  - intros [= <-]. by rewrite Hev.
  - intros Hl. eapply IH in Hl as [? Hl]; [|rewrite ?Hatt2; lia || done..].
    split; [done|]. rewrite Hl, Hev, Hatt2, <- (assoc_L (++)). done.
Qed.

Definition config_wf (config : SupervisorConfig) : Prop :=
  (0 ≤ initial_backoff config ≤ duration_max ∧ 0 ≤ max_backoff config ≤ duration_max)%Z.

Lemma effective_range config :
  config_wf config →
  (0 < effective_initial config ≤ effective_max config)%Z ∧ (effective_max config ≤ duration_max)%Z.
Proof.
  unfold config_wf, effective_max, effective_initial, nonzero, from_millis, duration_max, u64_max.
  intros. case_decide; lia.
Qed.

(** A session that relayed for as long as the settings ask for. *)
Definition long_enough (config : SupervisorConfig) (r : result PeerProxyOutcome E) : bool :=
  match r with
  | Ok outcome => bool_decide (stable_session config ≤ relay_time outcome)%Z
  | Err e => match relay_duration e with Some d => bool_decide (stable_session config ≤ d)%Z | None => false end
  end.

Lemma is_stable_long_enough config r : is_stable relay_duration config r = long_enough config r.
Proof. by destruct r. Qed.

(** The delays before jitter: [k] is the number of unstable sessions in a row before
    the next round. *)
Fixpoint bases (config : SupervisorConfig) (initial max : Z) (k : nat) rounds : list Z :=
  match rounds with
  | [] => []
  | rd :: rounds =>
      if rd_cancelled_before rd || (is_err (rd_result rd) && rd_cancelled_after rd) then []
      else
        let reset := long_enough config (rd_result rd) in
        delay_base initial max (if reset then 0 else k) ::
        (if rd_cancelled_asleep rd then [] else bases config initial max (if reset then 0 else S k) rounds)
  end.

(** [d] is [base] give or take 20 percent, rounded down, and at most [max] and the
    largest delay a 64-bit number of nanoseconds can say. *)
Definition jitter_of (max base d : Z) : Prop :=
  ∃ percent, (80 ≤ percent ≤ 120)%Z ∧ d = Z.min (Z.min (base * percent / 100) u64_max) max.

Lemma delay_base_range initial max k : (0 ≤ initial ≤ max)%Z → (initial ≤ delay_base initial max k ≤ max)%Z.
Proof. unfold delay_base. pose proof (Z.pow_pos_nonneg 2 (Z.of_nat k)). nia. Qed.

Lemma delays_bases config initial max k attempt rounds :
  (0 ≤ initial ≤ max)%Z → (max ≤ duration_max)%Z →
  Forall2 (jitter_of max) (bases config initial max k rounds) (delays config initial max k attempt rounds).
Proof.
  intros Hi Hm. revert k attempt. induction rounds as [|rd rounds IH]; intros k attempt; simpl; [constructor|].
  destruct (_ || _); [constructor|]. rewrite is_stable_long_enough. constructor.
  - set (j := if long_enough config (rd_result rd) then 0 else k).
    pose proof (delay_base_range initial max j Hi).
    exists (jitter_percent (entropy (rd_now rd) attempt)). split; [apply jitter_percent_range|].
    by rewrite (proj1 (proj2 (jittered_range (delay_base initial max j) _ ltac:(lia)))).
  - destruct (rd_cancelled_asleep rd); [constructor|apply IH].
Qed.

Lemma bases_range config initial max k rounds :
  (0 ≤ initial ≤ max)%Z → Forall (λ b, initial ≤ b ≤ max)%Z (bases config initial max k rounds).
Proof.
  intros Hi. revert k. induction rounds as [|rd rounds IH]; intros k; simpl; [constructor|].
  destruct (_ || _); [constructor|]. constructor; [by apply delay_base_range|].
  destruct (rd_cancelled_asleep rd); [constructor|apply IH].
Qed.

(** The delays a supervisor reports. *)
Lemma reported_delays config rounds sum evs :
  config_wf config → Forall peer_events rounds → (Z.of_nat (length rounds) ≤ u64_max)%Z →
  supervise_with relay_duration display config (Some []) rounds = Some (sum, Some evs) →
  Forall2 (jitter_of (effective_max config))
    (bases config (effective_initial config) (effective_max config) 0 rounds) (omap retry_of evs).
Proof.
  intros Hc Hpe Hlen Hs. destruct (effective_range config Hc) as [Hi Hm]. unfold supervise_with in Hs.
  destruct (loop _ _ _ _ _) as [st|] eqn:Hl; [|done].
  eapply (supervise_loop_delays _ _ _ 0) in Hl as [[l Hlog] Hd];
    [|lia|done|done|simpl; lia|simpl; lia|by eexists|by rewrite delay_base_0 by lia].
  simpl in Hs. injection Hs as _ Hev. rewrite Hlog in Hev. injection Hev as <-.
  unfold events_of in Hd. rewrite Hlog in Hd. simpl default in Hd.
  assert (Homap : omap retry_of (l ++ [Stopped (summary st)]) = omap retry_of l).
  { rewrite omap_app. apply app_nil_r. }
  rewrite Homap, Hd. apply delays_bases; lia.
Qed.

(** C10: the retry delays are the exponential backoff they are meant to be: the
    delay reported after a round is [initial * 2^k], capped at the maximum, give or
    take 20 percent and again at most the maximum, where [k] counts the unstable
    sessions in a row before it and a session that relayed long enough resets the
    count; an initial delay of zero counts as a millisecond, and the maximum is the
    configured one as long as that is not below the initial delay, and the initial
    delay otherwise; no setting of the durations makes the doubling overflow. *)
Theorem backoff_schedule config rounds sum evs :
  config_wf config → Forall peer_events rounds → (Z.of_nat (length rounds) ≤ u64_max)%Z →
  supervise_with relay_duration display config (Some []) rounds = Some (sum, Some evs) →
  let initial := (if decide (initial_backoff config = 0) then 1000000 else initial_backoff config)%Z in
  let max := if decide (initial ≤ max_backoff config)%Z then max_backoff config else initial in
  Forall2 (λ base d, ∃ percent, (80 ≤ percent ≤ 120)%Z ∧
             d = Z.min (Z.min (base * percent / 100) u64_max) max)
    (bases config initial max 0 rounds) (omap retry_of evs) ∧
  Forall (λ d, 0 ≤ d ≤ max)%Z (omap retry_of evs).
Proof.
  intros Hc Hpe Hlen Hs initial max. pose proof (reported_delays config rounds sum evs Hc Hpe Hlen Hs) as Hd.
  destruct (effective_range config Hc) as [Hi _].
  assert (effective_initial config = initial) as Heq by done.
  assert (effective_max config = max) as Hmax.
  { unfold effective_max, max. rewrite Heq. case_decide; lia. }
  rewrite Heq, Hmax in Hd, Hi. split; [exact Hd|].
  pose proof (bases_range config initial max 0 rounds ltac:(lia)) as Hb.
  revert Hb. clear -Hd Hi. induction Hd as [|b d bs ds (p & Hp & ->) _ IH]; [constructor|].
  intros [Hb Hbs]%Forall_cons. constructor; [|auto]. split; [|lia].
  assert (0 ≤ b * p / 100)%Z by (apply Z.div_pos; nia). unfold u64_max. lia.
Qed.

(** C14: A maximum below the initial delay is not kept: when the configured maximum is
    less than 80 percent of the initial delay, every delay that is reported exceeds
    it, from the first to the last. *)
Theorem small_maximum_exceeded config rounds sum evs :
  config_wf config → Forall peer_events rounds → (Z.of_nat (length rounds) ≤ u64_max)%Z →
  supervise_with relay_duration display config (Some []) rounds = Some (sum, Some evs) →
  (max_backoff config < initial_backoff config * 80 / 100)%Z → (max_backoff config < u64_max)%Z →
  Forall (λ d, max_backoff config < d)%Z (omap retry_of evs).
Proof.
  intros Hc Hpe Hlen Hs Hsmall Hu. pose proof (reported_delays config rounds sum evs Hc Hpe Hlen Hs) as Hd.
  destruct (effective_range config Hc) as [Hi _].
  assert (Heq : effective_initial config = initial_backoff config).
  { unfold effective_initial, nonzero. case_decide as H0; [|done]. rewrite H0 in Hsmall. change (0 * 80 / 100)%Z with 0%Z in Hsmall.
    destruct Hc. lia. }
  assert (Hlt : (max_backoff config < effective_initial config)%Z).
  { rewrite Heq. assert (initial_backoff config * 80 / 100 ≤ initial_backoff config)%Z; [|lia].
    destruct Hc. apply Z.div_le_upper_bound; lia. }
  assert (Hmax : effective_max config = effective_initial config) by (unfold effective_max; lia).
  pose proof (bases_range config (effective_initial config) (effective_max config) 0 rounds ltac:(lia)) as Hb.
  revert Hb. clear -Hd Hi Hmax Hlt Hsmall Hu Heq. rewrite Hmax in *.
  induction Hd as [|b d bs ds (p & Hp & ->) _ IH]; [constructor|].
  intros [Hb Hbs]%Forall_cons. constructor; [|auto].
  assert (initial_backoff config * 80 / 100 ≤ b * p / 100)%Z by (apply Z.div_le_mono; nia). lia.
Qed.

(** ** Accounting *)

(** The skeleton of a log: which attempts began, ended or failed, in order. *)
Inductive mark := Began (n : Z) | Ended (n : Z) | Failed (n : Z) | Halted (s : SupervisorSummary).

Definition mark_of (e : SupervisorEvent) : option mark :=
  match e with
  | AttemptStarted n => Some (Began n)
  | SessionEnded n _ _ _ => Some (Ended n)
  | AttemptFailed n _ _ _ => Some (Failed n)
  | Stopped s => Some (Halted s)
  | PeerConnected _ _ | PeerDisconnected _ => None
  end.

(** The skeleton of the attempts [n + 1], [n + 2], ... that ran to their report. *)
Fixpoint attempt_marks (n : Z) rounds : list mark :=
  match rounds with
  | [] => []
  | rd :: rounds =>
      [Began (n + 1); if is_ok (rd_result rd) then Ended (n + 1) else Failed (n + 1)] ++
      attempt_marks (n + 1) rounds
  end.

Definition count_ok rounds : Z := Z.of_nat (length (filter (λ rd, is_ok (rd_result rd) = true) rounds)).
Definition count_err rounds : Z := Z.of_nat (length (filter (λ rd, is_ok (rd_result rd) = false) rounds)).

(** The summary after the rounds [done] and, if [aborted], one attempt more. *)
Definition tally (s : SupervisorSummary) (done : list (round E)) (aborted : bool) : SupervisorSummary :=
  MkSummary (attempts s + Z.of_nat (length done) + if aborted then 1 else 0)
            (completed_sessions s + count_ok done) (failed_attempts s + count_err done).

Definition summary_small (s : SupervisorSummary) (m : nat) : Prop :=
  (0 ≤ completed_sessions s ∧ 0 ≤ failed_attempts s ∧
   completed_sessions s + failed_attempts s ≤ attempts s ∧ attempts s + Z.of_nat m ≤ u64_max)%Z.

Lemma marks_peer_events l : Forall peer_event l → omap mark_of l = [].
Proof. apply omap_peer_events. by intros []. Qed.

Lemma start_attempt_marks rd st :
  peer_events rd → is_Some (log st) →
  omap mark_of (events_of (start_attempt rd st)) =
  omap mark_of (events_of st) ++ [Began (u64_succ (attempts (summary st)))].
Proof.
  intros Hpe Hlog. destruct (start_attempt_events rd st Hlog) as [_ ->]. rewrite omap_app.
  change (omap mark_of (AttemptStarted ?n :: ?l)) with (Began n :: omap mark_of l).
  by rewrite (marks_peer_events (rd_session_events rd)).
Qed.

Lemma finish_attempt_summary config initial max rd st m :
  summary_small (summary st) (S m) →
  summary (finish config initial max rd (start_attempt rd st)) = tally (summary st) [rd] false.
Proof.
  intros (Hc & Hf & Hsum & Ha). unfold finish_attempt, tally, count_ok, count_err.
  destruct (rd_result rd) eqn:Hr; simpl; rewrite !filter_cons, !Hr; simpl;
    rewrite !(u64_succ_small _ m) by lia; f_equal; lia.
Qed.

Lemma tally_app s done1 done2 aborted :
  tally (tally s done1 false) done2 aborted = tally s (done1 ++ done2) aborted.
Proof.
  unfold tally, count_ok, count_err. simpl. rewrite !filter_app, !length_app. f_equal; lia.
Qed.

Lemma tally_one_small s rd m : summary_small s (S m) → summary_small (tally s [rd] false) m.
Proof.
  unfold summary_small, tally, count_ok, count_err. simpl. rewrite !filter_cons.
  destruct (rd_result rd); simpl; lia.
Qed.

Lemma supervise_loop_accounting config initial max rounds st st' :
  Forall peer_events rounds → summary_small (summary st) (length rounds) → is_Some (log st) →
  loop config initial max rounds st = Some st' →
  ∃ done aborted, done `prefix_of` rounds ∧ is_Some (log st') ∧
    summary st' = tally (summary st) done aborted ∧
    omap mark_of (events_of st') =
      omap mark_of (events_of st) ++ attempt_marks (attempts (summary st)) done ++
      (if aborted then [Began (attempts (summary st'))] else []).
Proof.
  intros Hpe. revert st. induction Hpe as [|rd rounds Hrd Hpe IH]; intros st Hs Hlog; [done|].
  simpl. unfold supervise_round.
  assert (Hid : tally (summary st) [] false = summary st).
  { unfold tally, count_ok, count_err. simpl. rewrite !Z.add_0_r. by destruct (summary st). }
  destruct (rd_cancelled_before rd).
  { intros [= <-]. exists [], false. rewrite Hid, app_nil_r. split_and!; [apply prefix_nil|done..]. }
  pose proof (start_attempt_marks rd st Hrd Hlog) as Hm1.
  destruct (start_attempt_events rd st Hlog) as [Hlog1 _].
  assert (Hsucc : u64_succ (attempts (summary st)) = (attempts (summary st) + 1)%Z).
  { destruct Hs as (? & ? & ? & ?). apply (u64_succ_small _ (length rounds)); simpl in *; lia. }
  cbn zeta. destruct (is_err (rd_result rd) && rd_cancelled_after rd).
  { intros [= <-]. exists [], true. split_and!; [apply prefix_nil|done| |done].
    unfold start_attempt, tally, count_ok, count_err. simpl. rewrite Hsucc. f_equal; lia. }
  destruct (finish_attempt_events config initial max rd (start_attempt rd st) Hlog1) as [Hlog2 He2].
  pose proof (finish_attempt_summary config initial max rd st _ Hs) as Hsum2.
  assert (Hm2 : omap mark_of (events_of (finish config initial max rd (start_attempt rd st))) =
    omap mark_of (events_of st) ++ attempt_marks (attempts (summary st)) [rd]).
  { rewrite He2, omap_app, Hm1, <- (assoc_L (++)), Hsucc. f_equal. unfold report. cbn [attempt_marks].
    destruct (rd_result rd); simpl; by rewrite Hsucc. }
  destruct (rd_cancelled_asleep rd).
  { intros [= <-]. exists [rd], false. split_and!; [by exists rounds|done..|by rewrite app_nil_r]. }
  intros Hl. apply IH in Hl as (fin & aborted & Hpre & ? & Hsum & Hmarks);
    [|rewrite Hsum2; by apply tally_one_small|done].
  exists (rd :: fin), aborted. split_and!; [by apply prefix_cons|done| |].
  - by rewrite Hsum, Hsum2, tally_app.
  - rewrite Hmarks, Hm2, Hsum2, <- !(assoc_L (++)). f_equal. simpl. by rewrite Z.add_0_r.
Qed.

Lemma count_total rounds : (count_ok rounds + count_err rounds = Z.of_nat (length rounds))%Z.
Proof.
  unfold count_ok, count_err. induction rounds as [|rd rounds IH]; [done|].
  rewrite !filter_cons. destruct (is_ok (rd_result rd)); simpl; lia.
Qed.

Lemma supervise_with_marks config rounds sum evs :
  Forall peer_events rounds → (Z.of_nat (length rounds) ≤ u64_max)%Z →
  supervise_with relay_duration display config (Some []) rounds = Some (sum, Some evs) →
  ∃ finished aborted, finished `prefix_of` rounds ∧ sum = tally default_summary finished aborted ∧
    omap mark_of evs =
      attempt_marks 0 finished ++ (if aborted : bool then [Began (attempts sum)] else []) ++ [Halted sum].
Proof.
  intros Hpe Hlen Hs. unfold supervise_with in Hs.
  destruct (loop _ _ _ _ _) as [st|] eqn:Hl; [|done].
  eapply supervise_loop_accounting in Hl as (fin & aborted & Hpre & [l Hlog] & Hsum & Hm);
    [|done|by unfold summary_small; simpl; lia|by eexists].
  simpl in Hs. injection Hs as <- Hev. rewrite Hlog in Hev. injection Hev as <-.
  unfold events_of in Hm. rewrite Hlog in Hm. simpl in Hm.
  exists fin, aborted. split_and!; [done..|]. by rewrite omap_app, Hm, <- (assoc_L (++)).
Qed.

(** The books balance: when the supervisor stops, its summary counts exactly
    the attempts made, those whose session ended and those that failed, where only
    an attempt cut short by the cancellation is in neither column; and the events
    it sent tell the same story: attempts are numbered 1, 2, 3, ... and each
    begins once and ends or fails once, in order, and [Stopped] with that very
    summary comes last and only there. *)
Theorem supervise_accounting config rounds sum evs :
  Forall peer_events rounds → (Z.of_nat (length rounds) ≤ u64_max)%Z →
  supervise_with relay_duration display config (Some []) rounds = Some (sum, Some evs) →
  ∃ finished aborted, finished `prefix_of` rounds ∧
    sum = MkSummary (Z.of_nat (length finished) + if aborted : bool then 1 else 0)
                    (count_ok finished) (count_err finished) ∧
    attempts sum = (completed_sessions sum + failed_attempts sum + if aborted then 1 else 0)%Z ∧
    omap mark_of evs =
      attempt_marks 0 finished ++ (if aborted then [Began (attempts sum)] else []) ++ [Halted sum].
Proof.
  intros Hpe Hlen Hs.
  destruct (supervise_with_marks _ _ _ _ Hpe Hlen Hs) as (fin & aborted & Hpre & Hsum & Hm).
  exists fin, aborted. split_and!; [done|exact Hsum| |done].
  rewrite Hsum. unfold tally. simpl. rewrite <- (count_total fin). lia.
Qed.

(** ** Cancellation *)

(** A token that was cancelled stays so. *)
Definition token_monotone rd : Prop :=
  rd_cancelled_after rd = true → rd_cancelled_asleep rd = true.

(** The token is cancelled at some point of the round. *)
Definition cancelled_in rd : bool :=
  rd_cancelled_before rd || rd_cancelled_after rd || rd_cancelled_asleep rd.

Lemma supervise_round_attempts config initial max rd st :
  (0 ≤ attempts (summary st) < u64_max)%Z →
  ∃ stop st1, supervise_round relay_duration display config initial max rd st = (stop, st1) ∧
    (attempts (summary st) ≤ attempts (summary st1) ≤ attempts (summary st) + 1)%Z ∧
    (cancelled_in rd = true → token_monotone rd → stop = true).
Proof.
  intros Hn. assert (Hsucc : u64_succ (attempts (summary st)) = (attempts (summary st) + 1)%Z).
  { unfold u64_succ. rewrite wrap_small; unfold u64_max in *; lia. }
  unfold supervise_round, cancelled_in, token_monotone.
  destruct (rd_cancelled_before rd); [exists true, st; split_and!; [done|lia|lia|done]|].
  destruct (rd_cancelled_after rd) eqn:Hafter; rewrite ?andb_true_r, ?andb_false_r.
  - destruct (is_err (rd_result rd)) eqn:He; do 2 eexists; (split; [done|]).
    + simpl. rewrite Hsucc. split; [lia|done].
    + split; [|by auto]. unfold finish_attempt. destruct (rd_result rd); simpl; lia.
  - do 2 eexists; (split; [done|]). split; [|done].
    unfold finish_attempt. destruct (rd_result rd); simpl; lia.
Qed.

(** Cancellation is prompt: whatever the sessions return, the supervisor
    stops in the very round in which the token is cancelled, having started at most
    that one attempt more. *)
Theorem supervise_stops config events i rounds rd :
  rounds !! i = Some rd → cancelled_in rd = true → token_monotone rd →
  (Z.of_nat i < u64_max)%Z →
  ∃ sum evs, supervise_with relay_duration display config events rounds = Some (sum, evs) ∧
    (attempts sum ≤ Z.of_nat i + 1)%Z.
Proof.
  intros Hi Hc Hm Hu. unfold supervise_with.
  assert (Hgen : ∀ st initial max, (0 ≤ attempts (summary st))%Z → (attempts (summary st) + Z.of_nat i < u64_max)%Z →
    ∃ st', loop config initial max rounds st = Some st' ∧
      (attempts (summary st') ≤ attempts (summary st) + Z.of_nat i + 1)%Z).
  2:{ destruct (Hgen (MkSup (effective_initial config) default_summary events)
        (effective_initial config) (effective_max config)) as (st' & -> & Ha); [simpl; lia..|].
      simpl. eauto. }
  clear Hu. revert i Hi. induction rounds as [|rd0 rounds IH]; intros i Hi st initial max Hn Hb; [done|].
  assert (Hround : ∃ stop st1, supervise_round relay_duration display config initial max rd0 st = (stop, st1) ∧
    (attempts (summary st) ≤ attempts (summary st1) ≤ attempts (summary st) + 1)%Z ∧
    (cancelled_in rd0 = true → token_monotone rd0 → stop = true)).
  { by apply supervise_round_attempts; unfold u64_max in *; lia. }
  destruct Hround as (stop & st1 & Hr & Ha & Hstop). simpl. rewrite Hr.
  destruct stop; [exists st1; split; [done|lia]|].
  destruct i as [|i]; simplify_eq/=; [by specialize (Hstop Hc Hm)|].
  destruct (IH i Hi st1 initial max) as (st' & Hl & Ha'); [lia..|]. exists st'. split; [done|lia].
Qed.
End supervise_properties.

(** ** The pool's guarantees *)

(** What reached a worker's channel up to the end of its supervised future. *)
Fixpoint emitted (iters : list iteration) : list SupervisorEvent :=
  match iters with
  | [] => []
  | w :: iters => arrived w ++ match finished w with Some _ => [] | None => emitted iters end
  end.

Lemma forward_emitted n iters queue :
  let '(out, r) := forward n iters queue in
  out `prefix_of` (MkPoolEvent n <$> queue ++ emitted iters) ∧
  ∀ s, r = Some s → s.1 = n ∧ out = MkPoolEvent n <$> queue ++ emitted iters.
Proof.
  revert queue. induction iters as [|w iters IH]; intros queue; simpl; [split; [apply prefix_nil|done]|].
  rewrite (assoc_L (++)). destruct (finished w) as [s|].
  { rewrite app_nil_r. split; [done|by intros ? [= <-]]. }
  generalize (queue ++ arrived w). intros [|e q]; [apply IH|].
  specialize (IH q). destruct (forward n iters q) as [out r]. destruct IH as [Hpre Hend]. simpl. split.
  - by apply prefix_cons.
  - intros s Hs. destruct (Hend s Hs) as [? ->]. done.
Qed.

(** A worker loses and reorders no event: the pool receives, tagged with the
    worker's slot, a prefix of what was sent into the worker's channel, in order,
    and by the time the worker is done all of it, the final [Stopped] included. *)
Theorem pool_forwards_every_event n iters :
  let '(out, r) := forward n iters [] in
  out `prefix_of` (MkPoolEvent n <$> emitted iters) ∧
  ∀ s, r = Some s → s.1 = n ∧ out = MkPoolEvent n <$> emitted iters.
Proof. apply (forward_emitted n iters []). Qed.

(** Worker results, tagged with their slots. *)
Definition tagged (k : nat) (workers : list SupervisorSummary) : list (nat * SupervisorSummary) :=
  zip (seq k (length workers)) workers.

Lemma tagged_fst k workers : (tagged k workers).*1 = seq k (length workers).
Proof. apply fst_zip. by rewrite length_seq. Qed.

Lemma tagged_snd k workers : (tagged k workers).*2 = workers.
Proof. apply snd_zip. by rewrite length_seq. Qed.

Lemma tagged_lookup k workers i s : (i, s) ∈ tagged k workers → workers !! (i - k) = Some s ∧ k ≤ i.
Proof.
  revert k. induction workers as [|w workers IH]; intros k; unfold tagged; simpl;
    [by intros ?%elem_of_nil|].
  intros [[= -> ->]|Hin]%elem_of_cons; [by rewrite Nat.sub_diag|].
  destruct (IH (S k) Hin) as [Hl Hk]. split; [|lia].
  replace (i - k) with (S (i - S k)) by lia. done.
Qed.

Lemma sorted_slots (l : list (nat * SupervisorSummary)) : Sorted by_slot l → Sorted le l.*1.
Proof.
  induction 1 as [|[i s] l Hs IH Hhd]; simpl; [constructor|]. constructor; [done|].
  destruct Hhd as [|[j t] l Hij]; simpl; constructor. exact Hij.
Qed.

Lemma sorted_seq k n : Sorted le (seq k n).
Proof.
  revert k. induction n as [|n IH]; intros k; simpl; constructor; [apply IH|].
  destruct n; simpl; constructor. lia.
Qed.

(** A list tagged with its positions is determined by its tags. *)
Lemma tagged_unique (l : list (nat * SupervisorSummary)) workers :
  l.*1 = seq 0 (length workers) → (∀ x, x ∈ l → x ∈ tagged 0 workers) → l.*2 = workers.
Proof.
  intros Hfst Hin. apply list_eq_same_length with (length workers); [done| |].
  { rewrite length_fmap. rewrite <- (length_fmap fst), Hfst. apply length_seq. }
  intros i s t _ Hs Ht. apply list_lookup_fmap_Some in Hs as ([j u] & -> & Hl). simpl.
  assert (j = i) as ->.
  { assert (Hj : l.*1 !! i = Some j) by (by rewrite list_lookup_fmap, Hl).
    rewrite Hfst in Hj. by apply lookup_seq in Hj as [-> _]. }
  destruct (tagged_lookup 0 workers i u) as [Hu _]; [by eapply Hin, list_elem_of_lookup_2|].
  rewrite Nat.sub_0_r in Hu. congruence.
Qed.

Lemma wrapped_sum (f : SupervisorSummary → Z) workers :
  Forall (λ s, 0 ≤ f s)%Z workers → (foldr Z.add 0 (f <$> workers) ≤ u64_max)%Z →
  foldr (λ s n, wrap 64 (f s + n)) 0%Z workers = foldr Z.add 0%Z (f <$> workers) ∧
  (0 ≤ foldr Z.add 0 (f <$> workers))%Z.
Proof.
  induction 1 as [|s workers Hs Hall IH]; csimpl; [done|]. intros Hb.
  assert (Hpos : (0 ≤ foldr Z.add 0 (f <$> workers))%Z).
  { clear -Hall. induction Hall as [|t l Ht _ IH]; csimpl; lia. }
  destruct IH as [-> _]; [lia|]. split; [|lia]. apply wrap_small. unfold u64_max in Hb. lia.
Qed.

(** The pool reports its workers in the order of their slots, one summary for
    each, in whatever order they finished; and its totals are the sums over the
    workers as long as those fit 64 bits. *)
Theorem pool_summary_in_slot_order results workers :
  results ≡ₚ tagged 0 workers →
  pool_summary results = workers ∧
  (Forall (λ s, 0 ≤ attempts s ∧ 0 ≤ completed_sessions s ∧ 0 ≤ failed_attempts s)%Z workers →
   ((foldr Z.add 0 (attempts <$> workers) ≤ u64_max)%Z →
      pool_attempts workers = foldr Z.add 0%Z (attempts <$> workers)) ∧
   ((foldr Z.add 0 (completed_sessions <$> workers) ≤ u64_max)%Z →
      pool_completed_sessions workers = foldr Z.add 0%Z (completed_sessions <$> workers)) ∧
   ((foldr Z.add 0 (failed_attempts <$> workers) ≤ u64_max)%Z →
      pool_failed_attempts workers = foldr Z.add 0%Z (failed_attempts <$> workers))).
Proof.
  intros Hp. split.
  - unfold pool_summary. set (l := merge_sort by_slot results).
    assert (Hl : l ≡ₚ tagged 0 workers) by (unfold l; by rewrite merge_sort_Permutation).
    assert (Hs : Sorted le l.*1).
    { apply sorted_slots, Sorted_merge_sort. intros [] []; unfold by_slot; simpl; lia. }
    apply tagged_unique; [|intros x; by rewrite Hl].
    apply (Sorted_unique le); [done|apply sorted_seq|by rewrite Hl, tagged_fst].
  - intros Hall. split_and!; intros Hb; apply wrapped_sum; try done;
      (eapply Forall_impl; [exact Hall|]); simpl; tauto.
Qed.

(** ** A supervised run *)
Module SupDemo.
Definition config : SupervisorConfig := MkConfig 1000 8000 500.

Definition outcome : PeerProxyOutcome := MkOutcome "csid" EgressClosed 600.

Definition failing : round unit := MkRound false [] (Err tt) 5 false 0 false.
Definition stable : round unit :=
  MkRound false [PeerConnected "csid" None; PeerDisconnected "csid"] (Ok outcome) 700 false 0 false.
Definition cut_short : round unit := MkRound false [] (Err tt) 5 true 0 true.

Definition rounds : list (round unit) := [failing; failing; stable; cut_short].

Abbreviation run := (supervise_with (λ _ : unit, None) (λ _, "refused") config (Some []) rounds).

Definition evs : list SupervisorEvent :=
  match run with Some (_, Some evs) => evs | _ => [] end.

Lemma run_eq : run = Some (MkSummary 4 1 2, Some evs).
Proof. vm_compute. reflexivity. Qed.

Lemma rounds_peer_events : Forall peer_events rounds.
Proof. repeat constructor. Qed.

Lemma jittered_range_witness :
  (800 ≤ jittered 1000 12345 ≤ 1200)%Z.
Proof.
  assert (Hb : (0 ≤ 1000 ≤ duration_max)%Z) by (unfold duration_max, u64_max; lia).
  exact (proj2 (proj2 (jittered_range 1000 12345 Hb))).
Defined.

Lemma backoff_schedule_witness :
  bases (λ _ : unit, None) config 1000 8000 0 rounds = [1000; 2000; 1000]%Z ∧
  Forall2 (λ base d, ∃ percent, (80 ≤ percent ≤ 120)%Z ∧
             d = Z.min (Z.min (base * percent / 100) u64_max) 8000)
    [1000; 2000; 1000]%Z (omap retry_of evs).
Proof.
  assert (Hc : config_wf config) by (unfold config_wf, duration_max, u64_max; simpl; lia).
  assert (Hl : (Z.of_nat (length rounds) ≤ u64_max)%Z) by (unfold u64_max; simpl; lia).
  split; [reflexivity|].
  exact (proj1 (backoff_schedule (λ _, None) (λ _, "refused") config rounds _ evs Hc rounds_peer_events Hl run_eq)).
Defined.

(** An initial delay of a minute with a maximum of half a minute. *)
Definition upside_down : SupervisorConfig := MkConfig (60 * 10 ^ 9) (30 * 10 ^ 9) (30 * 10 ^ 9).
Definition upside_down_evs : list SupervisorEvent :=
  match supervise_with (λ _ : unit, None) (λ _, "refused") upside_down (Some []) [failing; cut_short] with
  | Some (_, Some evs) => evs
  | _ => []
  end.

Lemma small_maximum_exceeded_witness :
  length (omap retry_of upside_down_evs) = 1 ∧
  Forall (λ d, 30 * 10 ^ 9 < d)%Z (omap retry_of upside_down_evs).
Proof.
  split; [vm_compute; reflexivity|].
  apply (small_maximum_exceeded (λ _ : unit, None) (λ _, "refused") upside_down [failing; cut_short]
    (MkSummary 2 0 1) upside_down_evs).
  - unfold config_wf, duration_max, u64_max. simpl. lia.
  - repeat constructor.
  - unfold u64_max. simpl. lia.
  - vm_compute. reflexivity.
  - vm_compute. reflexivity.
  - vm_compute. reflexivity.
Defined.

Lemma supervise_accounting_witness :
  ∃ finished aborted, finished `prefix_of` rounds ∧
    omap mark_of evs = attempt_marks 0 finished ++ (if aborted : bool then [Began 4] else []) ++
      [Halted (MkSummary 4 1 2)].
Proof.
  assert (Hl : (Z.of_nat (length rounds) ≤ u64_max)%Z) by (unfold u64_max; simpl; lia).
  destruct (supervise_accounting (λ _, None) (λ _, "refused") config rounds _ evs rounds_peer_events Hl run_eq)
    as (f & a & Hp & _ & _ & Hm).
  exists f, a. split; [exact Hp|exact Hm].
Defined.

Lemma supervise_stops_witness :
  ∃ sum log, run = Some (sum, log) ∧ (attempts sum ≤ 4)%Z.
Proof.
  assert (Hu : (Z.of_nat 3 < u64_max)%Z) by (unfold u64_max; lia).
  exact (supervise_stops (λ _, None) (λ _, "refused") config (Some []) 3 rounds cut_short
    eq_refl eq_refl (λ _, eq_refl) Hu).
Defined.

Lemma pool_summary_in_slot_order_witness :
  pool_summary [(1, MkSummary 2 1 1); (0, MkSummary 3 3 0)] = [MkSummary 3 3 0; MkSummary 2 1 1].
Proof.
  assert (Hp : [(1, MkSummary 2 1 1); (0, MkSummary 3 3 0)] ≡ₚ tagged 0 [MkSummary 3 3 0; MkSummary 2 1 1])
    by apply Permutation_swap.
  exact (proj1 (pool_summary_in_slot_order _ _ Hp)).
Defined.
End SupDemo.
