(* ===== verification/Pool.v ===== *)
(** The pool of peer-proxy workers as one running system
    ([supervise_peer_proxy_pool] of [src/supervisor.rs]).

    [Supervisor.v] has the supervisor as a function of its rounds.  Here it is a
    machine that makes one step at a time, between two points at which it can be
    suspended, and the pool is a number of such machines, each with its own event
    channel and forwarder, under one cancellation token and with one outgoing event
    channel, in every interleaving.  WebRTC callbacks hold clones of a worker's
    sender and may send at any moment, also after the session they belong to has
    ended. *)
From S2P Require Import Prelude Net Relay Supervisor.

(** ** The supervisor, step by step *)

(** Where the body of [supervise_with] is suspended: at the head of its loop, in
    [run_session], in the final [select!], or it has returned. *)
Inductive phase := Top | InSession | Asleep | Returned.

#[export] Instance phase_eq_dec : EqDecision phase.
Proof. solve_decision. Defined.

Section machine.
Context {E : Type} (relay_duration : E → option Z) (display : E → string).
Variable config : SupervisorConfig.

Abbreviation initial := (effective_initial config).
Abbreviation maximum := (effective_max config).

(** What lets the body go on: nothing at the head of the loop, an event or the
    result of the session, the end of the sleep. *)
Inductive sup_input :=
| Go
| Session (e : SupervisorEvent)
| Return (r : result PeerProxyOutcome E) (duration now : Z)
| WakeUp.

(** After the loop. *)
Definition stop (st : sup_state) : sup_state :=
  MkSup (backoff st) (summary st) (emit (Stopped (summary st)) (log st)).

(** The parts of a round that are known when the attempt starts and when its
    session returns. *)
Definition opened (events : list SupervisorEvent) (r : result PeerProxyOutcome E) : round E :=
  MkRound false events r 0 false 0 false.
Definition closed (events : list SupervisorEvent) (r : result PeerProxyOutcome E)
    (duration now : Z) (cancelled asleep : bool) : round E :=
  MkRound false events r duration cancelled now asleep.

Definition send (e : SupervisorEvent) (st : sup_state) : sup_state :=
  MkSup (backoff st) (summary st) (emit e (log st)).

(** One step; [cancelled] is the token as the step finds it. *)
Definition sup_step (cancelled : bool) (inp : sup_input) (m : phase * sup_state)
    : option (phase * sup_state) :=
  let '(ph, st) := m in
  match ph, inp with
  | Top, Go =>
      if cancelled then Some (Returned, stop st)
      else
        let attempt := u64_succ (attempts (summary st)) in
        Some (InSession,
          MkSup (backoff st)
            (MkSummary attempt (completed_sessions (summary st)) (failed_attempts (summary st)))
            (emit (AttemptStarted attempt) (log st)))
  | InSession, Session e => Some (InSession, send e st)
  | InSession, Return r duration now =>
      if is_err r && cancelled then Some (Returned, stop st)
      else
        Some (Asleep, finish_attempt relay_duration display config initial maximum
                        (closed [] r duration now cancelled false) st)
  | Asleep, WakeUp => Some (if cancelled then (Returned, stop st) else (Top, st))
  | _, _ => None
  end.

Fixpoint sup_run (inputs : list (bool * sup_input)) (m : phase * sup_state)
    : option (phase * sup_state) :=
  match inputs with
  | [] => Some m
  | (cancelled, inp) :: inputs => m ← sup_step cancelled inp m; sup_run inputs m
  end.

Definition sup_start (events : option (list SupervisorEvent)) : phase * sup_state :=
  (Top, MkSup initial default_summary events).

Lemma sup_run_app i1 i2 m : sup_run (i1 ++ i2) m = m ← sup_run i1 m; sup_run i2 m.
Proof.
  revert m. induction i1 as [|[c i] i1 IH]; intros m; simpl; [done|].
  destruct (sup_step c i m); simpl; [apply IH|done].
Qed.

(** *** The machine and the function of rounds *)

Abbreviation loop := (supervise_loop relay_duration display config initial maximum).

Lemma start_attempt_step (rd : round E) st :
  sup_run ((false, Go) :: ((λ e, (false, Session e)) <$> rd_session_events rd)) (Top, st) =
  Some (InSession, start_attempt rd st).
Proof.
  simpl. unfold start_attempt. generalize (u64_succ (attempts (summary st))). intros n.
  generalize (emit (AttemptStarted n) (log st)). generalize (rd_session_events rd).
  intros es. induction es as [|e es IH]; intros l; simpl.
  - do 2 f_equal. destruct l; simpl; by rewrite ?app_nil_r.
  - unfold send. simpl. rewrite IH. do 3 f_equal. destruct l; simpl; [|done].
    by rewrite <- (assoc_L (++)).
Qed.

(** The inputs that make up a round. *)
Definition round_inputs (rd : round E) : list (bool * sup_input) :=
  ((false, Go) :: ((λ e, (false, Session e)) <$> rd_session_events rd)) ++
  [(rd_cancelled_after rd, Return (rd_result rd) (rd_duration rd) (rd_now rd))].

Lemma rounds_to_inputs rounds st st' :
  loop rounds st = Some st' → ∃ inputs, sup_run inputs (Top, st) = Some (Returned, stop st').
Proof.
  revert st. induction rounds as [|rd rounds IH]; intros st; simpl; [done|].
  unfold supervise_round. destruct (rd_cancelled_before rd).
  { intros [= <-]. by exists [(true, Go)]. }
  assert (Hr : ∀ more, sup_run (round_inputs rd ++ more) (Top, st) =
    m ← sup_step (rd_cancelled_after rd) (Return (rd_result rd) (rd_duration rd) (rd_now rd))
          (InSession, start_attempt rd st); sup_run more m).
  { intros more. unfold round_inputs. rewrite <- (assoc_L (++)), sup_run_app, start_attempt_step. done. }
  destruct (is_err (rd_result rd) && rd_cancelled_after rd) eqn:Hab.
  { intros [= <-]. exists (round_inputs rd ++ []). rewrite Hr. simpl. by rewrite Hab. }
  destruct (rd_cancelled_asleep rd).
  { intros [= <-]. exists (round_inputs rd ++ [(true, WakeUp)]). rewrite Hr. simpl. by rewrite Hab. }
  intros (inputs & Hi)%IH. exists (round_inputs rd ++ (false, WakeUp) :: inputs).
  rewrite Hr. simpl. rewrite Hab. simpl. exact Hi.
Qed.

Definition no_outcome : result PeerProxyOutcome E := Ok (MkOutcome "" PeerClosed 0).

(** From the middle of a round: what the rounds so far and to come make of it. *)
Definition explained (m : phase * sup_state) (st' : sup_state) : Prop :=
  match m with
  | (Top, st) => ∃ rounds, loop rounds st = Some st'
  | (InSession, st) =>
      ∀ st0 events, st = start_attempt (opened events no_outcome) st0 →
      ∃ rounds, loop rounds st0 = Some st'
  | (Asleep, st) =>
      ∀ st0 events r duration now cancelled,
      is_err r && cancelled = false →
      st = finish_attempt relay_duration display config initial maximum
             (closed events r duration now cancelled false)
             (start_attempt (opened events no_outcome) st0) →
      ∃ rounds, loop rounds st0 = Some st'
  | (Returned, st) => st = stop st'
  end.

Lemma send_start e events st0 :
  send e (start_attempt (opened events no_outcome) st0) =
  start_attempt (opened (events ++ [e]) no_outcome) st0.
Proof.
  unfold send, start_attempt. simpl. f_equal.
  destruct (log st0); simpl; [|done]. by rewrite <- !(assoc_L (++)).
Qed.

Lemma stop_inj st st' : stop st = stop st' → st = st'.
Proof.
  destruct st as [b s [l|]], st' as [b' s' [l'|]]; unfold stop; simpl; intros Hs; simplify_eq; [|done].
  match goal with H : _ ++ _ = _ ++ _ |- _ => by apply (inj (.++ _)) in H as -> end.
Qed.

Lemma explained_step cancelled inp m m1 st' :
  sup_step cancelled inp m = Some m1 → explained m1 st' → explained m st'.
Proof.
  destruct m as [[] st], inp as [|e|r duration now|]; simpl; try done.
  - destruct cancelled; intros [= <-]; simpl.
    + intros Heq%stop_inj. exists [MkRound true [] no_outcome 0 false 0 false]. by rewrite <- Heq.
    + intros H. apply (H st []). unfold start_attempt. simpl. f_equal.
      destruct (log st); simpl; by rewrite ?app_nil_r.
  - intros [= <-] H st0 events ->. eapply H, send_start.
  - destruct (is_err r && cancelled) eqn:Hab; intros [= <-] H st0 events ->.
    + apply stop_inj in H as <-. exists [closed events r duration now cancelled false].
      simpl. unfold supervise_round. simpl. by rewrite Hab.
    + by eapply (H st0 events r duration now cancelled).
  - destruct cancelled; intros [= <-]; simpl.
    + intros ->%stop_inj st0 events r duration now c Hab ->.
      exists [closed events r duration now c true]. simpl. unfold supervise_round. simpl. by rewrite Hab.
    + intros (rounds & Hl) st0 events r duration now c Hab ->.
      exists (closed events r duration now c false :: rounds). simpl. unfold supervise_round. simpl.
      by rewrite Hab.
Qed.

Lemma inputs_to_rounds inputs m st' :
  sup_run inputs m = Some (Returned, stop st') → explained m st'.
Proof.
  revert m. induction inputs as [|[c inp] inputs IH]; intros m; simpl; [by intros [= ->]|].
  destruct (sup_step c inp m) as [m1|] eqn:Hs; simpl; [|done].
  intros H%IH. by eapply explained_step.
Qed.

(** A returned machine has sent [Stopped]. *)
Lemma sup_run_stopped inputs m st :
  m.1 ≠ Returned → sup_run inputs m = Some (Returned, st) → ∃ st', st = stop st'.
Proof.
  revert m. induction inputs as [|[c inp] inputs IH]; intros m Hm; simpl; [by intros [= ->]|].
  destruct (sup_step c inp m) as [m1|] eqn:Hs; simpl; [|done].
  destruct (decide (m1.1 = Returned)) as [Hr|]; [|by apply IH].
  intros Hrun. assert (∃ st', m1 = (Returned, stop st')) as [st' ->].
  { destruct m as [[] s], inp; simpl in *; simplify_eq; repeat case_match; simplify_eq/=; eauto. }
  destruct inputs as [|[c' inp'] inputs]; simpl in Hrun; simplify_eq; eauto.
Qed.

(** The machine and the function of rounds describe the same supervisor: a
    summary and an event log are what some sequence of rounds gives exactly when
    the machine can stop with them. *)
Theorem machine_supervise_equiv sum evs :
  (∃ rounds, supervise_with relay_duration display config (Some []) rounds = Some (sum, Some evs)) ↔
  (∃ inputs st, sup_run inputs (sup_start (Some [])) = Some (Returned, st) ∧
     summary st = sum ∧ log st = Some evs).
Proof.
  split.
  - intros (rounds & Hs). unfold supervise_with in Hs.
    destruct (supervise_loop _ _ _ _ _ _ _) as [st'|] eqn:Hl; [|done].
    apply rounds_to_inputs in Hl as (inputs & Hi). exists inputs, (stop st').
    simpl in Hs. by injection Hs as <- Hev.
  - intros (inputs & st & Hrun & <- & Hlog).
    destruct (sup_run_stopped inputs (sup_start (Some [])) st) as [st' ->]; [done..|].
    apply inputs_to_rounds in Hrun as (rounds & Hl). exists rounds.
    unfold supervise_with. rewrite Hl. simpl. do 2 f_equal. exact Hlog.
Qed.
End machine.

(** ** The pool *)

(** A worker: its supervised future, whose log is the worker's own channel, and
    whether the worker has returned. *)
Record worker := MkWorker {
  wk_phase : phase;
  wk_sup : sup_state;
  wk_done : bool
}.

(** [p_out] is the channel the pool was given, if any. *)
Record pool := MkPool {
  p_cancelled : bool;
  p_workers : list worker;
  p_out : option (list PoolEvent)
}.

Section pool.
Context {E : Type} (relay_duration : E → option Z) (display : E → string).
Variable config : SupervisorConfig.

(** What can happen: the token is cancelled, a worker's supervised future makes a
    step, a callback sends into a worker's channel, a worker's [select!] takes an
    event from its channel, or a worker whose supervised future has returned goes
    through its drain loop once. *)
Inductive pool_event :=
| Cancel
| Step (i : nat) (inp : sup_input (E := E))
| Callback (i : nat) (e : SupervisorEvent)
| Forward (i : nat)
| Drain (i : nat).

Definition queue (w : worker) : list SupervisorEvent := default [] (log (wk_sup w)).
Definition set_queue (q : list SupervisorEvent) (w : worker) : worker :=
  MkWorker (wk_phase w) (MkSup (backoff (wk_sup w)) (summary (wk_sup w)) (Some q)) (wk_done w).

Definition new_worker : worker :=
  MkWorker Top (sup_start config (Some [])).2 false.

Definition supervise_peer_proxy_pool (slots : nat) (events : option (list PoolEvent)) : pool :=
  MkPool false (replicate (pool_size slots) new_worker) events.

(** [if let Some(events) = &events { let _ = events.send(..); }] *)
Definition publish (i : nat) (e : SupervisorEvent) (out : option (list PoolEvent)) : option (list PoolEvent) :=
  (λ l, l ++ [MkPoolEvent i e]) <$> out.

(** The step of a running worker.  The token of a worker is a child of the
    pool's. *)
Definition worker_step (cancelled : bool) (inp : sup_input) (w : worker) : option worker :=
  '(ph, st) ← sup_step relay_duration display config cancelled inp (wk_phase w, wk_sup w);
  Some (MkWorker ph st (wk_done w)).

(** [None]: this cannot happen in this state.  A send into the channel of a worker
    that is done is refused and ignored. *)
Definition pool_step (ev : pool_event) (p : pool) : option pool :=
  match ev with
  | Cancel => Some (MkPool true (p_workers p) (p_out p))
  | Step i inp =>
      w ← p_workers p !! i;
      w ← worker_step (p_cancelled p) inp w;
      Some (MkPool (p_cancelled p) (<[i := w]> (p_workers p)) (p_out p))
  | Callback i e =>
      w ← p_workers p !! i;
      Some (if wk_done w then p
            else MkPool (p_cancelled p) (<[i := set_queue (queue w ++ [e]) w]> (p_workers p)) (p_out p))
  | Forward i =>
      w ← p_workers p !! i;
      if decide (wk_phase w = Returned) then None
      else
        match queue w with
        | [] => None
        | e :: q =>
            Some (MkPool (p_cancelled p) (<[i := set_queue q w]> (p_workers p))
                    (publish i e (p_out p)))
        end
  | Drain i =>
      w ← p_workers p !! i;
      if decide (wk_phase w = Returned ∧ wk_done w = false) then
        match queue w with
        | [] =>
            Some (MkPool (p_cancelled p)
                    (<[i := MkWorker Returned (wk_sup w) true]> (p_workers p)) (p_out p))
        | e :: q =>
            Some (MkPool (p_cancelled p) (<[i := set_queue q w]> (p_workers p))
                    (publish i e (p_out p)))
        end
      else None
  end.

Fixpoint pool_run (evs : list pool_event) (p : pool) : option pool :=
  match evs with
  | [] => Some p
  | ev :: evs => p ← pool_step ev p; pool_run evs p
  end.

(** [join_all] and the sort: the summaries once every worker has returned. *)
Definition pool_result (p : pool) : option (list SupervisorSummary) :=
  if forallb wk_done (p_workers p)
  then Some (pool_summary (imap (λ i w, (i, summary (wk_sup w))) (p_workers p)))
  else None.

Lemma pool_run_app e1 e2 p : pool_run (e1 ++ e2) p = p ← pool_run e1 p; pool_run e2 p.
Proof.
  revert p. induction e1 as [|ev e1 IH]; intros p; simpl; [done|].
  destruct (pool_step ev p); simpl; [apply IH|done].
Qed.

(** *** No event is lost on the way
    The story of a slot: what the pool's channel has of it, and what is still in
    the worker's own. *)
Definition of_slot (i : nat) (out : list PoolEvent) : list SupervisorEvent :=
  omap (λ pe, if decide (slot pe = i) then Some (event pe) else None) out.

Definition story (i : nat) (w : worker) (p : pool) : list SupervisorEvent :=
  of_slot i (default [] (p_out p)) ++ queue w.

Lemma of_slot_publish i j e out :
  is_Some out →
  is_Some (publish j e out) ∧
  of_slot i (default [] (publish j e out)) =
    of_slot i (default [] out) ++ if decide (j = i) then [e] else [].
Proof.
  intros [l ->]. split; [by eexists|]. unfold of_slot. simpl. rewrite omap_app. simpl.
  by case_decide.
Qed.

(** *** The books of a worker
    [ms] is the skeleton of its story: the attempts it has reported, the one it is
    in, and [Stopped]; [n] bounds their number. *)
Definition pending_marks (ph : phase) (pend : bool) (s : SupervisorSummary) : list mark :=
  (if pend then [Began (attempts s)] else []) ++
  (if decide (ph = Returned) then [Halted s] else []).

Definition pend_ok (ph : phase) (pend : bool) : Prop :=
  match ph with
  | Top | Asleep => pend = false
  | InSession => pend = true
  | Returned => True
  end.

Definition books (n : nat) (ph : phase) (st : sup_state) (ms : list mark) : Prop :=
  ∃ (rounds : list (round E)) (pend : bool),
    length rounds + (if pend then 1 else 0) ≤ n ∧ pend_ok ph pend ∧
    summary st = tally default_summary rounds pend ∧
    ms = attempt_marks 0 rounds ++ pending_marks ph pend (summary st).

(** The peer events are the only ones that come from outside the supervisor. *)
Definition input_ok (inp : sup_input (E := E)) : Prop :=
  match inp with Session e => peer_event e | _ => True end.

Lemma mark_of_peer e : peer_event e → mark_of e = None.
Proof. by destruct e. Qed.

Lemma attempt_marks_snoc (rounds : list (round E)) rd k :
  attempt_marks k (rounds ++ [rd]) =
  attempt_marks k rounds ++ attempt_marks (k + Z.of_nat (length rounds)) [rd].
Proof.
  revert k. induction rounds as [|r rounds IH]; intros k; simpl.
  - by rewrite Z.add_0_r.
  - rewrite IH. simpl. do 2 f_equal. f_equal. f_equal; [f_equal; lia|].
    f_equal. case_match; f_equal; lia.
Qed.

Lemma tally_counts (rounds : list (round E)) rd pend :
  count_ok (rounds ++ [rd]) = (count_ok rounds + count_ok [rd])%Z ∧
  count_err (rounds ++ [rd]) = (count_err rounds + count_err [rd])%Z ∧
  (0 ≤ count_ok rounds)%Z ∧ (0 ≤ count_err rounds)%Z ∧
  attempts (tally default_summary rounds pend) =
    (Z.of_nat (length rounds) + if pend : bool then 1 else 0)%Z.
Proof.
  unfold count_ok, count_err. rewrite !filter_app, !length_app. split_and!; try lia.
  by destruct pend.
Qed.

(** Adding to a counter that is far from wrapping. *)
Lemma u64_succ_count k n : (0 ≤ k ≤ Z.of_nat n)%Z → (Z.of_nat n < u64_max)%Z → u64_succ k = (k + 1)%Z.
Proof. intros. unfold u64_succ. rewrite wrap_small; unfold u64_max in *; lia. Qed.

Lemma finish_books n c r duration now st ms :
  (Z.of_nat n < u64_max)%Z → is_Some (log st) →
  books n InSession st ms →
  let st' := finish_attempt relay_duration display config (effective_initial config)
               (effective_max config) (closed [] r duration now c false) st in
  ∃ e, log st' = Some (default [] (log st) ++ [e]) ∧ books (S n) Asleep st' (ms ++ option_list (mark_of e)).
Proof.
  intros Hn [l Hl] (rounds & pend & Hlen & Hp & Hsum & ->) st'. simpl in Hp. subst pend.
  set (rd := closed [] r duration now c false).
  destruct (tally_counts rounds rd true) as (Hok & Herr & Hok0 & Herr0 & Hatt).
  pose proof (count_total (rounds ++ [rd])) as Htot. rewrite Hok, Herr, length_app in Htot. simpl in Htot.
  exists (report relay_duration display config (effective_initial config) (effective_max config) rd st).
  split.
  { destruct (finish_attempt_events relay_duration display config (effective_initial config)
      (effective_max config) rd st) as [[l' Hl'] He]; [by eexists|].
    subst st'. fold rd. unfold events_of in He. rewrite Hl' in *. simpl in He. by rewrite He. }
  exists (rounds ++ [rd]), false. split_and!; [rewrite length_app; simpl; lia|done| |].
  - assert (H1 : count_ok [rd] = if is_ok r then 1%Z else 0%Z) by (unfold rd; by destruct r).
    assert (H2 : count_err [rd] = if is_ok r then 0%Z else 1%Z) by (unfold rd; by destruct r).
    unfold st', finish_attempt, tally. rewrite Hok, Herr, H1, H2, Hsum, length_app. simpl.
    destruct r; simpl in *; f_equal; try lia; rewrite (u64_succ_count _ n); lia.
  - rewrite attempt_marks_snoc. unfold pending_marks. simpl. rewrite <- !(assoc_L (++)). f_equal.
    rewrite <- Hsum in Hatt.
    unfold report, rd. destruct r; simpl; rewrite Hatt; repeat f_equal; lia.
Qed.

Lemma sup_step_books n c inp ph st ph' st' ms :
  (Z.of_nat n < u64_max)%Z → input_ok inp → is_Some (log st) →
  sup_step relay_duration display config c inp (ph, st) = Some (ph', st') →
  books n ph st ms →
  ∃ more, log st' = Some (default [] (log st) ++ more) ∧ books (S n) ph' st' (ms ++ omap mark_of more).
Proof.
  intros Hn Hin [l Hl] Hs Hb.
  assert (Hstop : ∀ pend, pend_ok ph pend → ph ≠ Returned → ph' = Returned → st' = stop st →
    ∃ more, log st' = Some (default [] (log st) ++ more) ∧ books (S n) ph' st' (ms ++ omap mark_of more)).
  { intros _ _ Hph -> ->. exists [Stopped (summary st)]. simpl. rewrite Hl. split; [done|].
    destruct Hb as (rounds & pend & Hlen & Hp & Hsum & ->). exists rounds, pend.
    split_and!; [lia|done|done|]. unfold pending_marks. rewrite decide_False by done. simpl.
    by rewrite app_nil_r, <- (assoc_L (++)). }
  destruct ph, inp as [|e|r duration now|]; simpl in Hs; try done.
  - destruct c; simplify_eq; [by eapply (Hstop false)|].
    destruct Hb as (rounds & pend & Hlen & Hp & Hsum & ->). simpl in Hp. subst pend.
    exists [AttemptStarted (u64_succ (attempts (summary st)))]. simpl. rewrite Hl. split; [done|].
    exists rounds, true. rewrite Hsum. unfold tally. simpl.
    rewrite (u64_succ_count _ n) by lia. split_and!; [lia|done|f_equal; lia|].
    unfold pending_marks. simpl. by rewrite app_nil_r.
  - simplify_eq. exists [e]. simpl. rewrite Hl, (mark_of_peer e Hin), app_nil_r. split; [done|].
    destruct Hb as (rounds & pend & Hlen & Hp & Hsum & ->). exists rounds, pend. split_and!; [lia|done..].
  - destruct (is_err r && c); simplify_eq; [by eapply (Hstop true)|].
    destruct (finish_books n c r duration now st ms) as (e & He & Hb'); [done|by eexists|done|].
    exists [e]. split; [done|]. simpl. by destruct (mark_of e).
  - destruct c; simplify_eq; [by eapply (Hstop false)|].
    exists []. simpl. rewrite Hl, !app_nil_r. split; [done|].
    destruct Hb as (rounds & pend & Hlen & Hp & Hsum & ->). exists rounds, pend. split_and!; [lia|done..].
Qed.

(** *** The books of the pool *)
Definition event_ok (ev : pool_event) : Prop :=
  match ev with
  | Step _ inp => input_ok inp
  | Callback _ e => peer_event e
  | _ => True
  end.

Definition worker_inv (n : nat) (i : nat) (w : worker) (p : pool) : Prop :=
  is_Some (log (wk_sup w)) ∧ (wk_done w = true → wk_phase w = Returned ∧ queue w = []) ∧
  books n (wk_phase w) (wk_sup w) (omap mark_of (story i w p)).

Definition pool_inv (n : nat) (p : pool) : Prop :=
  is_Some (p_out p) ∧ ∀ i w, p_workers p !! i = Some w → worker_inv n i w p.

Lemma books_mono n m ph st ms : n ≤ m → books n ph st ms → books m ph st ms.
Proof. intros Hle (rounds & pend & ? & ?). exists rounds, pend. split; [lia|done]. Qed.

(** The summary is all that [books] reads of a worker's state. *)
Lemma books_summary n ph st st' ms : summary st' = summary st → books n ph st ms → books n ph st' ms.
Proof. unfold books. by intros ->. Qed.

Lemma pool_inv_update n p j w w' c out :
  pool_inv n p → p_workers p !! j = Some w → is_Some out →
  (∀ i, i ≠ j → of_slot i (default [] out) = of_slot i (default [] (p_out p))) →
  (worker_inv n j w p → worker_inv (S n) j w' (MkPool c (<[j := w']> (p_workers p)) out)) →
  pool_inv (S n) (MkPool c (<[j := w']> (p_workers p)) out).
Proof.
  intros [Ho Hw] Hj Hout Hother Hnew. split; [done|]. intros i v Hi. simpl in Hi.
  destruct (decide (i = j)) as [->|Hne].
  - rewrite list_lookup_insert_eq in Hi by (by eapply lookup_lt_Some). injection Hi as <-. auto.
  - rewrite list_lookup_insert_ne in Hi by done. destruct (Hw i v Hi) as (? & ? & Hb).
    split_and!; [done..|]. apply (books_mono n); [lia|]. unfold story. simpl. by rewrite (Hother i Hne).
Qed.

Lemma queue_set_queue q w : queue (set_queue q w) = q.
Proof. done. Qed.

(** Moving the head of a worker's channel to the pool's leaves the story as it
    is. *)
Lemma forward_inv n p j w e q :
  pool_inv n p → p_workers p !! j = Some w → queue w = e :: q → wk_done w = false →
  pool_inv (S n) (MkPool (p_cancelled p) (<[j := set_queue q w]> (p_workers p)) (publish j e (p_out p))).
Proof.
  intros I Hj Hq Hd. pose proof I as [Ho _].
  eapply pool_inv_update; [done..| | |].
  - apply (of_slot_publish 0 j e _ Ho).
  - intros i Hne. destruct (of_slot_publish i j e _ Ho) as [_ ->]. by rewrite decide_False, app_nil_r by done.
  - intros (Hl & _ & Hb). split_and!; [by eexists|simpl; congruence|]. simpl.
    apply (books_mono n); [lia|]. eapply books_summary; [done|].
    unfold story in *. simpl. destruct (of_slot_publish j j e _ Ho) as [_ ->].
    rewrite decide_True, <- (assoc_L (++)) by done. unfold queue at 1. simpl. by rewrite Hq in Hb.
Qed.

Lemma pool_step_inv n ev p p' :
  (Z.of_nat n < u64_max)%Z → event_ok ev → pool_step ev p = Some p' → pool_inv n p → pool_inv (S n) p'.
Proof.
  intros Hn Hok Hs I. pose proof I as [Ho Hws]. destruct ev as [|j inp|j e|j|j]; simpl in Hs.
  - injection Hs as <-. split; [done|]. intros i w Hi. destruct (Hws i w Hi) as (?&?&Hb).
    split_and!; [done..|]. apply (books_mono n); [lia|done].
  - destruct (p_workers p !! j) as [w|] eqn:Hj; simpl in Hs; [|done].
    unfold worker_step in Hs.
    destruct (sup_step _ _ _ _ _ _) as [[ph st]|] eqn:Hstep; simpl in Hs; [|done]. injection Hs as <-.
    eapply pool_inv_update; [done..|]. intros (Hl & Hd & Hb).
    destruct (sup_step_books _ _ _ _ _ _ _ _ Hn Hok Hl Hstep Hb) as (more & Hlog & Hb').
    split_and!; simpl; [by eexists| |].
    + intros Hdone. destruct (Hd Hdone) as [Hr _]. rewrite Hr in Hstep. by destruct inp.
    + unfold story, queue in *. simpl. rewrite Hlog. simpl.
      by rewrite (assoc_L (++)), omap_app.
  - destruct (p_workers p !! j) as [w|] eqn:Hj; simpl in Hs; [|done].
    destruct (wk_done w) eqn:Hd; injection Hs as <-.
    { split; [done|]. intros i v Hi. destruct (Hws i v Hi) as (?&?&Hb).
      split_and!; [done..|]. apply (books_mono n); [lia|done]. }
    eapply pool_inv_update; [done..|]. intros (Hl & _ & Hb).
    split_and!; [by eexists|simpl; congruence|]. simpl.
    apply (books_mono n); [lia|]. eapply books_summary; [done|].
    unfold story in *. simpl. rewrite queue_set_queue, (assoc_L (++)), omap_app. simpl.
    rewrite (mark_of_peer e Hok), app_nil_r. done.
  - destruct (p_workers p !! j) as [w|] eqn:Hj; simpl in Hs; [|done].
    case_decide as Hr; [done|]. destruct (queue w) as [|e q] eqn:Hq; [done|]. injection Hs as <-.
    destruct (Hws j w Hj) as (_ & Hd & _). eapply forward_inv; [done..|].
    destruct (wk_done w); [|done]. by destruct (Hd eq_refl).
  - destruct (p_workers p !! j) as [w|] eqn:Hj; simpl in Hs; [|done].
    case_decide as Hr; [|done]. destruct Hr as [Hr Hd]. destruct (queue w) as [|e q] eqn:Hq; injection Hs as <-.
    + eapply pool_inv_update; [done..|]. intros (Hl & _ & Hb). split_and!; [done..|]. simpl.
      apply (books_mono n); [lia|]. by rewrite Hr in Hb.
    + by eapply forward_inv.
Qed.

Lemma pool_run_inv evs n p p' :
  (Z.of_nat (n + length evs) ≤ u64_max)%Z → Forall event_ok evs →
  pool_run evs p = Some p' → pool_inv n p → pool_inv (n + length evs) p'.
Proof.
  revert n p. induction evs as [|ev evs IH]; intros n p Hn Hok Hrun I; simpl in *.
  - injection Hrun as <-. by rewrite Nat.add_0_r.
  - apply Forall_cons in Hok as [Hev Hok].
    destruct (pool_step ev p) as [p1|] eqn:Hs; simpl in Hrun; [|done].
    replace (n + S (length evs)) with (S n + length evs) by lia.
    eapply IH; [lia|done..|]. eapply pool_step_inv; [|done..]. lia.
Qed.

Lemma pool_start_inv slots : pool_inv 0 (supervise_peer_proxy_pool slots (Some [])).
Proof.
  split; [by eexists|]. intros i w [-> _]%lookup_replicate.
  split_and!; [by eexists|done|]. exists [], false. by split_and!.
Qed.

Lemma pool_step_workers ev p p' : pool_step ev p = Some p' → length (p_workers p') = length (p_workers p).
Proof.
  destruct ev as [|j inp|j e|j|j]; simpl; intros Hs; [by simplify_eq|..];
    destruct (p_workers p !! j) as [w|]; simpl in Hs; try done;
    unfold worker_step in *; repeat (case_match; simplify_eq/=; try done); try by rewrite ?length_insert.
  all: destruct (sup_step _ _ _ _ _ _) as [[]|]; simplify_eq/=; by rewrite length_insert.
Qed.

Lemma pool_run_workers evs p p' : pool_run evs p = Some p' → length (p_workers p') = length (p_workers p).
Proof.
  revert p. induction evs as [|ev evs IH]; intros p; simpl; [by intros [= ->]|].
  destruct (pool_step ev p) as [p1|] eqn:Hs; simpl; [|done].
  intros ->%IH. by eapply pool_step_workers.
Qed.

(** What [join_all] returns: the workers in the order of their slots. *)
Lemma imap_tagged (l : list worker) k :
  imap (λ i w, (k + i, summary (wk_sup w))) l = tagged k ((λ w, summary (wk_sup w)) <$> l).
Proof.
  revert k. induction l as [|w l IH]; intros k; [done|]. simpl. unfold tagged. simpl.
  rewrite Nat.add_0_r. f_equal.
  etransitivity; [|apply (IH (S k))]. apply imap_ext. intros i v _. simpl. f_equal. lia.
Qed.

Lemma pool_result_workers p sums :
  pool_result p = Some sums →
  sums = (λ w, summary (wk_sup w)) <$> p_workers p ∧ Forall (λ w, wk_done w = true) (p_workers p).
Proof.
  unfold pool_result. destruct (forallb _ _) eqn:Hall; [|done]. intros [= <-]. split.
  - apply pool_summary_in_slot_order. by rewrite <- (imap_tagged _ 0).
  - apply Forall_forall. intros w Hw. by eapply forallb_forall in Hall; [|apply list_elem_of_In].
Qed.

(** What the channel received of a slot that has returned, against its summary. *)
Lemma returned_books n p sums out i s :
  pool_inv n p → pool_result p = Some sums → p_out p = Some out → sums !! i = Some s →
  ∃ (reported : list (round E)) (cut : bool),
    s = MkSummary (Z.of_nat (length reported) + if cut then 1 else 0)
          (count_ok reported) (count_err reported) ∧
    omap mark_of (of_slot i out) =
      attempt_marks 0 reported ++ (if cut then [Began (attempts s)] else []) ++ [Halted s].
Proof.
  intros [_ Hinv] Hres Hout Hi. destruct (pool_result_workers _ _ Hres) as [-> Hdone].
  apply list_lookup_fmap_Some in Hi as (w & -> & Hw).
  destruct (Hinv i w Hw) as (_ & Hq & reported & cut & _ & _ & Hsum & Hm).
  destruct (Hq (proj1 (Forall_lookup _ _) Hdone i w Hw)) as [Hph Hempty].
  exists reported, cut. split; [exact Hsum|].
  unfold story in Hm. rewrite Hout, Hempty, app_nil_r, Hph in Hm. exact Hm.
Qed.

Lemma pool_result_length slots evs p sums :
  pool_run evs (supervise_peer_proxy_pool slots (Some [])) = Some p →
  pool_result p = Some sums → length sums = Nat.max slots 1.
Proof.
  intros Hrun Hres. destruct (pool_result_workers _ _ Hres) as [-> _].
  rewrite length_fmap, (pool_run_workers _ _ _ Hrun). simpl. by rewrite length_replicate.
Qed.

(** C5: The pool's books: in whatever order the workers, the callbacks and the
    forwarding interleave, when the pool has returned there is one summary per slot
    and what its event channel received of a slot is, in order and complete, the
    story that summary tells: the attempts 1, 2, 3, ..., each started once and
    reported once, at most one attempt cut short by the cancellation, and then
    [Stopped] with that very summary. *)
Theorem pool_accounting slots evs p sums out :
  (Z.of_nat (length evs) ≤ u64_max)%Z → Forall event_ok evs →
  pool_run evs (supervise_peer_proxy_pool slots (Some [])) = Some p →
  pool_result p = Some sums → p_out p = Some out →
  length sums = Nat.max slots 1 ∧
  ∀ i s, sums !! i = Some s →
    ∃ (reported : list (round E)) (cut : bool),
      s = MkSummary (Z.of_nat (length reported) + if cut then 1 else 0)
            (count_ok reported) (count_err reported) ∧
      omap mark_of (of_slot i out) =
        attempt_marks 0 reported ++ (if cut then [Began (attempts s)] else []) ++ [Halted s].
Proof.
  intros Hn Hok Hrun Hres Hout. split; [by eapply pool_result_length|].
  intros i s Hi. eapply returned_books; [|done..].
  exact (pool_run_inv evs 0 _ _ Hn Hok Hrun (pool_start_inv slots)).
Qed.

(** *** Shutdown
    Steps of the pool's own code, and what reaches it from outside. *)
Definition is_progress (ev : pool_event) : bool :=
  match ev with
  | Cancel | Callback _ _ | Step _ (Session _) => false
  | Step _ _ | Forward _ | Drain _ => true
  end.
Definition is_noise (ev : pool_event) : bool :=
  match ev with Callback _ _ | Step _ (Session _) => true | _ => false end.
Definition count (f : pool_event → bool) (evs : list pool_event) : nat :=
  length (filter (λ ev, f ev = true) evs).

(** How many more steps a worker can make under a cancelled token. *)
Definition weight (w : worker) : nat :=
  if wk_done w then 0
  else length (queue w) +
    match wk_phase w with Top => 3 | InSession => 5 | Asleep => 3 | Returned => 1 end.
Definition pool_weight (p : pool) : nat := sum_list_with weight (p_workers p).

Lemma sum_list_with_insert {A} (f : A → nat) l i x y :
  l !! i = Some x → sum_list_with f (<[i := y]> l) + f x = sum_list_with f l + f y.
Proof.
  revert i. induction l as [|z l IH]; intros [|i] Hi; simplify_eq/=; [lia|].
  specialize (IH i Hi). lia.
Qed.

Lemma queue_emit e b s l l' d ph :
  length (queue (MkWorker ph (MkSup b s (emit e l)) d)) ≤ S (length (queue (MkWorker ph (MkSup b l' l) d))).
Proof. destruct l; unfold queue; simpl; rewrite ?length_app; simpl; lia. Qed.

(** Under a cancelled token every step of the supervised future brings it closer
    to its end. *)
Lemma worker_step_weight inp w w' :
  worker_step true inp w = Some w' → wk_done w = false →
  wk_done w' = false ∧
  weight w' + (if is_progress (Step 0 inp) then 1 else 0) ≤ weight w + (if is_noise (Step 0 inp) then 1 else 0).
Proof.
  unfold worker_step, weight. destruct w as [ph [b sm l] d]. simpl. intros Hs ->.
  destruct ph, inp as [|e|r duration now|]; simpl in Hs; try done.
  - injection Hs as <-. simpl. split; [done|].
    pose proof (queue_emit (Stopped sm) b sm l sm false Returned). unfold queue in *. simpl in *. lia.
  - injection Hs as <-. simpl. split; [done|].
    pose proof (queue_emit e b sm l sm false InSession). unfold queue in *. simpl in *. lia.
  - rewrite andb_true_r in Hs. destruct r as [o|x]; simpl in Hs; injection Hs as <-; simpl; (split; [done|]).
    + unfold queue. simpl. destruct l; simpl; rewrite ?length_app; simpl; lia.
    + pose proof (queue_emit (Stopped sm) b sm l sm false Returned). unfold queue in *. simpl in *. lia.
  - injection Hs as <-. simpl. split; [done|].
    pose proof (queue_emit (Stopped sm) b sm l sm false Returned). unfold queue in *. simpl in *. lia.
Qed.

Lemma weight_set_queue q w :
  wk_done w = false → weight (set_queue q w) + length (queue w) = weight w + length q.
Proof. intros Hd. unfold weight. simpl. rewrite Hd, queue_set_queue. lia. Qed.

(** Done only after the supervised future has returned. *)
Definition done_returned (p : pool) : Prop :=
  Forall (λ w, wk_done w = true → wk_phase w = Returned) (p_workers p).

Lemma done_returned_step ev p p' : pool_step ev p = Some p' → done_returned p → done_returned p'.
Proof.
  unfold done_returned. intros Hs Hd. destruct ev as [|j inp|j e|j|j]; simpl in Hs; [by simplify_eq|..];
    (destruct (p_workers p !! j) as [w|] eqn:Hj; simpl in Hs; [|done]);
    pose proof (proj1 (Forall_lookup _ _) Hd j w Hj) as Hw.
  - unfold worker_step in Hs. destruct (sup_step _ _ _ _ _ _) as [[ph st]|] eqn:Hstep; simplify_eq/=.
    apply Forall_insert; [done|]. simpl. intros Hdone. rewrite (Hw Hdone) in Hstep. by destruct inp.
  - destruct (wk_done w) eqn:Hdone; simplify_eq/=; [done|]. apply Forall_insert; [done|]. simpl. congruence.
  - repeat case_match; simplify_eq/=. by apply Forall_insert.
  - repeat case_match; simplify_eq/=; apply Forall_insert; naive_solver.
Qed.

Lemma pool_step_weight ev p p' :
  p_cancelled p = true → done_returned p → pool_step ev p = Some p' →
  p_cancelled p' = true ∧
  pool_weight p' + (if is_progress ev then 1 else 0) ≤ pool_weight p + (if is_noise ev then 1 else 0).
Proof.
  unfold pool_weight. intros Hc Hd Hs. destruct ev as [|j inp|j e|j|j]; simpl in Hs.
  { simplify_eq/=. split; [done|lia]. }
  all: destruct (p_workers p !! j) as [w|] eqn:Hj; simpl in Hs; [|done];
    pose proof (proj1 (Forall_lookup _ _) Hd j w Hj) as Hw; simpl in Hw;
    pose proof (λ y, sum_list_with_insert weight _ j w y Hj) as Hsum.
  - rewrite Hc in Hs. destruct (worker_step true inp w) as [w'|] eqn:Hstep; simplify_eq/=.
    split; [done|]. specialize (Hsum w').
    destruct (wk_done w) eqn:Hdone.
    { exfalso. unfold worker_step in Hstep. rewrite (Hw eq_refl) in Hstep. by destruct inp. }
    destruct (worker_step_weight _ _ _ Hstep Hdone) as [_ Hlt]. simpl in Hlt. lia.
  - destruct (wk_done w) eqn:Hdone; simplify_eq/=; [split; [done|lia]|].
    split; [done|]. specialize (Hsum (set_queue (queue w ++ [e]) w)).
    pose proof (weight_set_queue (queue w ++ [e]) w Hdone) as Hq. rewrite length_app in Hq. simpl in Hq. lia.
  - case_decide; [done|]. destruct (queue w) as [|e q] eqn:Hq; simplify_eq/=. split; [done|].
    specialize (Hsum (set_queue q w)).
    assert (Hdone : wk_done w = false) by (destruct (wk_done w); naive_solver).
    pose proof (weight_set_queue q w Hdone) as Hq'. rewrite Hq in Hq'. simpl in Hq'. lia.
  - case_decide as Hr; [|done]. destruct Hr as [Hr Hdone].
    destruct (queue w) as [|e q] eqn:Hq; simplify_eq/=; (split; [done|]).
    + specialize (Hsum (MkWorker Returned (wk_sup w) true)).
      assert (weight w = 1) by (unfold weight; by rewrite Hdone, Hr, Hq).
      assert (weight (MkWorker Returned (wk_sup w) true) = 0) by done. lia.
    + specialize (Hsum (set_queue q w)).
      pose proof (weight_set_queue q w Hdone) as Hq'. rewrite Hq in Hq'. simpl in Hq'. lia.
Qed.

Lemma pool_run_weight evs p p' :
  p_cancelled p = true → done_returned p → pool_run evs p = Some p' →
  pool_weight p' + count is_progress evs ≤ pool_weight p + count is_noise evs ∧ done_returned p'.
Proof.
  revert p. induction evs as [|ev evs IH]; intros p Hc Hd; simpl; [by intros [= ->]|].
  destruct (pool_step ev p) as [p1|] eqn:Hs; simpl; [|done]. intros Hrun.
  destruct (pool_step_weight _ _ _ Hc Hd Hs) as [Hc1 Hw].
  destruct (IH p1 Hc1 (done_returned_step _ _ _ Hs Hd) Hrun) as [Hw' Hd']. split; [|done].
  unfold count in *. rewrite !filter_cons.
  destruct (is_progress ev), (is_noise ev); simpl; lia.
Qed.

Lemma done_returned_run evs p p' : done_returned p → pool_run evs p = Some p' → done_returned p'.
Proof.
  revert p. induction evs as [|ev evs IH]; intros p Hd; simpl; [by intros [= ->]|].
  destruct (pool_step ev p) as [p1|] eqn:Hs; simpl; [|done]. eauto using done_returned_step.
Qed.

(** An unfinished worker is never stuck: it can go on as soon as the session it
    may be in returns, whatever senders of its channel are still around. *)
Lemma worker_not_stuck p i w :
  p_workers p !! i = Some w → wk_done w = false →
  ∀ r duration now, ∃ ev, ev ∈ [Step i Go; Step i (Return r duration now); Step i WakeUp; Drain i] ∧
    is_progress ev = true ∧ is_Some (pool_step ev p).
Proof.
  intros Hi Hd r duration now. destruct (wk_phase w) eqn:Hph;
    [exists (Step i Go)|exists (Step i (Return r duration now))|exists (Step i WakeUp)|exists (Drain i)];
    (split_and!; [set_solver|done|]); simpl; rewrite Hi; simpl; unfold worker_step; rewrite Hph; simpl.
  - destruct (p_cancelled p); by eexists.
  - destruct (is_err r && p_cancelled p); by eexists.
  - destruct (p_cancelled p); by eexists.
  - rewrite decide_True by done. destruct (queue w); by eexists.
Qed.

(** As long as the pool has not returned, one of its workers can go on. *)
Lemma pool_not_stuck p :
  pool_result p = None →
  ∃ i, ∀ r duration now, ∃ ev, ev ∈ [Step i Go; Step i (Return r duration now); Step i WakeUp; Drain i] ∧
    is_progress ev = true ∧ is_Some (pool_step ev p).
Proof.
  unfold pool_result. destruct (forallb wk_done (p_workers p)) eqn:Hall; [done|]. intros _.
  assert (∃ i w, p_workers p !! i = Some w ∧ wk_done w = false) as (i & w & Hi & Hdone).
  { clear -Hall. induction (p_workers p) as [|w l IH]; simpl in Hall; [done|].
    destruct (wk_done w) eqn:Hw; [|by exists 0, w].
    destruct (IH Hall) as (i & v & ? & ?). by exists (S i), v. }
  exists i. by eapply worker_not_stuck.
Qed.

Lemma pool_start_returned slots out : done_returned (supervise_peer_proxy_pool slots out).
Proof. by apply Forall_replicate. Qed.

(** C13: The pool shuts down: once the token is cancelled, however the workers and the
    WebRTC callbacks interleave, the pool makes only a bounded number of steps more
    (plus one for every event the callbacks still send), and as long as it has not
    returned one of its workers can go on, at the latest when the session it is in
    returns; a sender of a worker's channel that outlives its session never stands
    in the way.  So every run that goes on as long as it can ends with all
    workers returned. *)
Theorem pool_shuts_down slots out evs0 p evs p' :
  pool_run evs0 (supervise_peer_proxy_pool slots out) = Some p → p_cancelled p = true →
  pool_run evs p = Some p' →
  count is_progress evs ≤ pool_weight p + count is_noise evs ∧
  (pool_result p' = None →
   ∃ i, ∀ r duration now, ∃ ev, ev ∈ [Step i Go; Step i (Return r duration now); Step i WakeUp; Drain i] ∧
     is_progress ev = true ∧ is_Some (pool_step ev p')).
Proof.
  intros Hrun0 Hc Hrun.
  pose proof (done_returned_run _ _ _ (pool_start_returned slots out) Hrun0) as Hd.
  destruct (pool_run_weight _ _ _ Hc Hd Hrun) as [Hw _]. split; [lia|]. apply pool_not_stuck.
Qed.
End pool.

(** ** A pool of two *)
Module PoolDemo.
Definition config : SupervisorConfig := MkConfig 1000 8000 500.
Abbreviation ev := (pool_event (E := unit)).
Abbreviation run := (pool_run (λ _ : unit, None) (λ _, "refused") config).

(** Worker 0 fails and sleeps, worker 1 is in a session; then the token is
    cancelled. *)
Definition before : list ev :=
  [Step 0 Go; Step 1 Go; Forward 1; Step 0 (Return (Err tt) 5 0); Forward 0; Cancel].
(** A callback of worker 0's session sends once more while the pool stops. *)
Definition after : list ev :=
  [Step 0 WakeUp; Callback 0 (PeerDisconnected "csid"); Drain 0; Drain 0; Drain 0; Drain 0;
   Step 1 (Return (Err tt) 7 0); Drain 1; Drain 1].
Definition start : pool := supervise_peer_proxy_pool config 2 (Some []).
Definition cancelled : pool := default start (run before start).
Definition stopped : pool := default start (run after cancelled).

Lemma before_runs : run before start = Some cancelled.
Proof. reflexivity. Qed.
Lemma after_runs : run after cancelled = Some stopped.
Proof. reflexivity. Qed.
Lemma all_runs : run (before ++ after) start = Some stopped.
Proof. rewrite pool_run_app, before_runs. exact after_runs. Qed.

Lemma pool_accounting_witness :
  pool_result stopped = Some [MkSummary 1 0 1; MkSummary 1 0 0] ∧
  ∃ (reported : list (round unit)) (cut : bool),
    MkSummary 1 0 0 = MkSummary (Z.of_nat (length reported) + if cut then 1 else 0)
      (count_ok reported) (count_err reported).
Proof.
  assert (Hn : (Z.of_nat (length (before ++ after)) ≤ u64_max)%Z) by (vm_compute; discriminate).
  assert (Hok : Forall event_ok (before ++ after)) by (repeat constructor).
  assert (Hres : pool_result stopped = Some [MkSummary 1 0 1; MkSummary 1 0 0]) by reflexivity.
  split; [exact Hres|].
  destruct (pool_accounting (λ _, None) (λ _, "refused") config 2 (before ++ after) stopped
    _ (default [] (p_out stopped)) Hn Hok all_runs Hres eq_refl) as [_ Hs].
  destruct (Hs 1 (MkSummary 1 0 0) eq_refl) as (reported & cut & Heq & _).
  exists reported, cut. exact Heq.
Defined.

Lemma pool_shuts_down_witness :
  count is_progress after ≤ pool_weight cancelled + count is_noise after ∧
  is_Some (pool_result stopped).
Proof.
  split; [|by eexists].
  exact (proj1 (pool_shuts_down (λ _, None) (λ _, "refused") config 2 (Some []) before cancelled after stopped
    before_runs eq_refl after_runs)).
Defined.
End PoolDemo.
