(* ===== verification/PeerProxy.v ===== *)
(** The peer proxy's session ([src/peer_proxy.rs]).

    The WebRTC connection, the signaling service, the egress and the clock are the
    operations [peer_op] of the session's body, a program in the sense of
    [Async]; the connection's callbacks are a state machine over the state they
    share with it ([callbacks]), driven by the connection in any order.  The
    connection runs one state-change callback at a time. *)
From S2P Require Import Prelude Net IpText Async Serde Protocol Ice Relay Egress Signaling Supervisor.

Inductive PeerProxyError (X W V E : Type) :=
| Signaling (error : SignalingError X)
| WebRtc (error : W)
| Decode (step : string)
| MissingResponse (what : string)
| UnexpectedSignal (expected actual : SignalMessageType)
| MissingConsumerSessionId
| InvalidConsumerSessionId
| InvalidIceCandidate (error : W)
| NatTimeout
| DataChannelClosed
| PeerConnectionEnded (state : RTCPeerConnectionState)
| Egress (error : EgressError V)
| RelayFailed (relay_duration : Z) (source : RelayError E)
| Cancelled.
Arguments Signaling {X W V E} error.
Arguments WebRtc {X W V E} error.
Arguments Decode {X W V E} step.
Arguments MissingResponse {X W V E} what.
Arguments UnexpectedSignal {X W V E} expected actual.
Arguments MissingConsumerSessionId {X W V E}.
Arguments InvalidConsumerSessionId {X W V E}.
Arguments InvalidIceCandidate {X W V E} error.
Arguments NatTimeout {X W V E}.
Arguments DataChannelClosed {X W V E}.
Arguments PeerConnectionEnded {X W V E} state.
Arguments Egress {X W V E} error.
Arguments RelayFailed {X W V E} relay_duration source.
Arguments Cancelled {X W V E}.

Definition relay_duration {X W V E} (error : PeerProxyError X W V E) : option Z :=
  match error with
  | RelayFailed d _ => Some d
  | _ => None
  end.

Record PeerProxyConfig := MkPeerProxyConfig {
  egress_url : string;
  stun_urls : list string;
  nat_timeout : Z;
  enable_ipv6 : bool;
  randomize_dtls : bool
}.

(** The ICE servers of a configuration: one entry with all the URLs, or none. *)
Definition ice_servers (urls : list string) : list (list string) :=
  match urls with [] => [] | _ => [urls] end.

(** [RTCIceCandidateInit]. *)
Record IceCandidateInit := MkIceInit {
  init_candidate : string;
  init_sdp_mid : option string;
  init_sdp_mline_index : option Z
}.

(** How the wait for the data channel ends. *)
Inductive waited (D : Type) :=
| TimedOut
| SenderDropped
| Resolved (r : result D RTCPeerConnectionState).
Arguments TimedOut {D}.
Arguments SenderDropped {D}.
Arguments Resolved {D} r.

Section session.
(** The candidate types and session descriptions of the WebRTC crate, its data
    channels and the egress tunnels, the errors of the layers below, and the API
    object connections are made with. *)
Context {Typ Sdp D T X W V E Api : Type}.
Context `{JsonText} `{!IceTypeCodec Typ} `{!SdpCodec Sdp}.
Variable candidate_to_json : RTCIceCandidate Typ → result IceCandidateInit W.

Abbreviation error := (PeerProxyError X W V E).

Inductive peer_op : Type → Type :=
| Exchange (send_to : string) (k : SignalMessageType) (payload : string)
    : peer_op (result (option SignalMessage) (SignalingError X))
| SetRemoteDescription (sdp : Sdp) : peer_op (result unit W)
| CreateAnswer : peer_op (result Sdp W)
| GatheringCompletePromise : peer_op unit
| SetLocalDescription (sdp : Sdp) : peer_op (result unit W)
| GatheringComplete : peer_op unit
| LocalDescription : peer_op (option Sdp)
| PublishSessionId (id : string) : peer_op unit
| AddIceCandidate (init : IceCandidateInit) : peer_op (result unit W)
| WaitDataChannel (timeout : Z) : peer_op (waited D)
| EgressConnect (url csid : string) : peer_op (result T (EgressError V))
| Now : peer_op Z
| RunRelay (peer : D) (egress : T) : peer_op (result RelayEnd (RelayError E))
| NewPeerConnection (api : Api) (servers : list (list string)) : peer_op (result unit W)
| CloseConnection : peer_op (result unit W).

Abbreviation body := (prog peer_op (result PeerProxyOutcome error)).

Definition expect_signal (signal : SignalMessage) (expected : SignalMessageType) : result unit error :=
  if decide (kind signal = expected) then Ok tt else Err (UnexpectedSignal expected (kind signal)).

(** [OfferMessage]: the description; the tag is read and not used. *)
Definition offer_of_json (j : json) : option (Sdp * string) :=
  fs ← struct_entries ["SDP"; "Tag"] 2 j;
  sdp ← req_field sdp_of_json "SDP" fs;
  tag ← req_field as_string "Tag" fs;
  Some (sdp, tag).

(** The data channel opens, the egress is connected, packets are relayed. *)
Definition relay_phase (config : PeerProxyConfig) (csid : string) : body :=
  await! w := WaitDataChannel (nat_timeout config) in
  try! r := (match w with
             | TimedOut => Err NatTimeout
             | SenderDropped => Err DataChannelClosed
             | Resolved r => Ok r
             end) in
  try! peer := map_err PeerConnectionEnded r in
  await! egress := EgressConnect (egress_url config) csid in
  try! egress := map_err Egress egress in
  do! relay_started := Now in
  await! relay_end := RunRelay peer egress in
  do! now := Now in
  try! relay_end := map_err (RelayFailed (now - relay_started)) relay_end in
  Ret (Ok (MkOutcome csid relay_end (now - relay_started))).

(** The loop over the consumer's candidates. *)
Fixpoint add_candidates (cs : list (PionIceCandidate Typ)) : prog peer_op (result unit error) :=
  match cs with
  | [] => Ret (Ok tt)
  | c :: cs =>
      try! init := map_err InvalidIceCandidate (candidate_to_json (to_rust_candidate c)) in
      let init := MkIceInit (init_candidate init) (p_sdp_mid c) (p_sdp_mline_index c) in
      await! r := AddIceCandidate init in
      try! _ := map_err WebRtc r in
      add_candidates cs
  end.

(** The consumer's ICE message: check the session id, publish it, connect. *)
Definition ice_phase (config : PeerProxyConfig) (ice : IceMessage Typ) : body :=
  if decide (ice_session_id ice = "") then Ret (Err MissingConsumerSessionId)
  else if is_subprotocol_token (ice_session_id ice) then
    do! _ := PublishSessionId (ice_session_id ice) in
    bind (add_candidates (candidates ice)) (λ r,
      try! _ := r in relay_phase config (ice_session_id ice))
  else Ret (Err InvalidConsumerSessionId).

(** The answer to an accepted offer, sent to whoever made it. *)
Definition answer_phase (config : PeerProxyConfig) (reply_to : string) : body :=
  await! answer := CreateAnswer in
  try! answer := map_err WebRtc answer in
  await! _ := GatheringCompletePromise in
  await! r := SetLocalDescription answer in
  try! _ := map_err WebRtc r in
  await! _ := GatheringComplete in
  await! final_answer := LocalDescription in
  try! final_answer := ok_or final_answer (MissingResponse "local ICE gathering") in
  await! reply := Exchange reply_to Answer (to_string (sdp_to_json final_answer)) in
  try! reply := map_err Signaling reply in
  try! ice_signal := ok_or reply (MissingResponse "consumer ICE candidates") in
  try! _ := expect_signal ice_signal Ice in
  try! ice := ok_or (decode_payload ice_message_of_json ice_signal) (Decode "ICE") in
  ice_phase config ice.

Definition session (config : PeerProxyConfig) : body :=
  let genesis := encode_genesis (MkGenesis all_hosts_on_request) in
  await! reply := Exchange "genesis" Genesis genesis in
  try! reply := map_err Signaling reply in
  try! offer_signal := ok_or reply (MissingResponse "offer") in
  try! _ := expect_signal offer_signal Offer in
  try! offer := ok_or (decode_payload offer_of_json offer_signal) (Decode "offer") in
  await! r := SetRemoteDescription offer.1 in
  try! _ := map_err WebRtc r in
  answer_phase config (reply_to offer_signal).

(** The whole function, given the API object or the error of building it: the
    session runs next to the cancellation token, and whatever it comes to the
    connection is closed. *)
Definition run_peer_proxy_until_cancelled (api : result Api W) (config : PeerProxyConfig) : body :=
  try! api := map_err WebRtc api in
  await! connection := NewPeerConnection api (ice_servers (stun_urls config)) in
  try! _ := map_err WebRtc connection in
  select! result := session config in
  await! _ := CloseConnection in
  Ret (default (Err Cancelled) result).

(** [run_peer_proxy]: a token that is never cancelled (and no events). *)
Definition run_peer_proxy (api : result Api W) (config : PeerProxyConfig) : body :=
  uncancelled (run_peer_proxy_until_cancelled api config).

(** ** What the session does, in order *)

Inductive call :=
| CExchange (send_to : string) (k : SignalMessageType)
| CSetRemote
| CCreateAnswer
| CSetLocal
| CPublish (id : string)
| CAddIce
| CWait
| CEgress (url csid : string)
| CRelay
| CNewConnection
| CClose.

Definition call_of (a : action peer_op) : option call :=
  match a with
  | Act op _ =>
      match op with
      | Exchange send_to k _ => Some (CExchange send_to k)
      | SetRemoteDescription _ => Some CSetRemote
      | CreateAnswer => Some CCreateAnswer
      | SetLocalDescription _ => Some CSetLocal
      | PublishSessionId id => Some (CPublish id)
      | AddIceCandidate _ => Some CAddIce
      | WaitDataChannel _ => Some CWait
      | EgressConnect url csid => Some (CEgress url csid)
      | RunRelay _ _ => Some CRelay
      | NewPeerConnection _ _ => Some CNewConnection
      | CloseConnection => Some CClose
      | GatheringCompletePromise | GatheringComplete | LocalDescription | Now => None
      end
  end.

Abbreviation calls := (omap call_of).

Definition relay_calls (config : PeerProxyConfig) (id : string) : list call :=
  [CWait; CEgress (egress_url config) id; CRelay].

Definition ice_calls (config : PeerProxyConfig) (id : string) (n : nat) : list call :=
  CPublish id :: replicate n CAddIce ++ relay_calls config id.

Definition session_calls (config : PeerProxyConfig) (peer id : string) (n : nat) : list call :=
  [CExchange "genesis" Genesis; CSetRemote; CCreateAnswer; CSetLocal; CExchange peer Answer] ++
  ice_calls config id n.

Lemma calls_cons a tr : calls (a :: tr) = option_list (call_of a) ++ calls tr.
Proof. simpl. by destruct (call_of a). Qed.

Lemma relay_phase_calls config csid tr o :
  run (relay_phase config csid) tr o →
  calls tr `prefix_of` relay_calls config csid ∧
  ∀ out, o = Some (Ok out) → calls tr = relay_calls config csid ∧ consumer_session_id out = csid.
Proof.
  unfold relay_phase, relay_calls. intros Hr.
  run_op Hr; [split; [by eexists|done]|].
  run_try Hr; [|split; [by eexists|done]]. run_try Hr; [|split; [by eexists|done]].
  run_op Hr; [split; [by eexists|done]|]. run_try Hr; [|split; [by eexists|done]].
  run_op Hr. run_op Hr; [split; [by eexists|done]|]. run_op Hr.
  run_try Hr; [|split; [by eexists|done]].
  destruct Hr as [-> ->]. split; [by exists []|]. by intros out [= <-].
Qed.

Lemma add_candidates_calls cs tr o :
  run (add_candidates cs) tr o →
  ∃ n, n ≤ length cs ∧ calls tr = replicate n CAddIce ∧ (o = Some (Ok tt) → n = length cs).
Proof.
  revert tr. induction cs as [|c cs IH]; intros tr Hr; simpl in Hr.
  { destruct Hr as [-> ->]. by exists 0. }
  run_try Hr; [|exists 0; split_and!; [lia|done|done]].
  run_op Hr; [exists 0; split_and!; [lia|done|done]|].
  run_try Hr; [|exists 1; split_and!; [simpl; lia|done|done]].
  destruct (IH _ Hr) as (n & Hn & Hc & Ho). exists (S n).
  rewrite calls_cons, Hc. split_and!; [simpl; lia|done|].
  intros Hok. simpl. by rewrite Ho.
Qed.

Lemma ice_phase_calls config ice tr o :
  run (ice_phase config ice) tr o →
  ∃ n, calls tr `prefix_of` ice_calls config (ice_session_id ice) n ∧
    (calls tr ≠ [] → is_subprotocol_token (ice_session_id ice) = true) ∧
    ∀ out, o = Some (Ok out) →
      calls tr = ice_calls config (ice_session_id ice) (length (candidates ice)) ∧
      consumer_session_id out = ice_session_id ice.
Proof.
  unfold ice_phase, ice_calls. intros Hr.
  case_decide; [destruct Hr as [-> ->]; exists 0; split_and!; [apply prefix_nil|done|done]|].
  destruct (is_subprotocol_token _) eqn:Ht;
    [|destruct Hr as [-> ->]; exists 0; split_and!; [apply prefix_nil|done|done]].
  run_op Hr. apply run_bind in Hr as [[-> Hr]|(r & tr1 & tr2 & -> & H1 & H2)].
  - destruct (add_candidates_calls _ _ _ Hr) as (n & _ & Hc & _). exists n.
    rewrite calls_cons, Hc. split_and!; [|done|done]. by apply prefix_cons, prefix_app_r.
  - destruct (add_candidates_calls _ _ _ H1) as (n & _ & Hc & Hn). exists n.
    rewrite calls_cons, omap_app, Hc. destruct r as [[]|e]; simpl in H2.
    + destruct (relay_phase_calls _ _ _ _ H2) as [Hp Hout]. rewrite Hn in * by done.
      split_and!; [by apply prefix_cons, prefix_app|done|].
      intros out Ho. destruct (Hout out Ho) as [-> ?]. done.
    + destruct H2 as [-> ->]. simpl. rewrite app_nil_r.
      split_and!; [by apply prefix_cons, prefix_app_r|done|done].
Qed.

(** The calls of a run are [script]'s, up to where it stopped; an id that was
    published is a token; a successful run made all of the calls. *)
Definition follows (config : PeerProxyConfig) (script : string → string → nat → list call)
    (tr : list (action peer_op)) (o : option (result PeerProxyOutcome error)) : Prop :=
  ∃ peer id n, calls tr `prefix_of` script peer id n ∧
    (CPublish id ∈ calls tr → is_subprotocol_token id = true) ∧
    ∀ out, o = Some (Ok out) → calls tr = script peer id n ∧ consumer_session_id out = id ∧
      is_subprotocol_token id = true.

(** A run that stopped early after calls that publish nothing. *)
Lemma follows_stop config script tr o :
  (∃ peer, calls tr `prefix_of` script peer "" 0) →
  CPublish "" ∉ calls tr → (∀ out, o ≠ Some (Ok out)) → follows config script tr o.
Proof. intros [peer Hp] Hn Ho. exists peer, "", 0. split_and!; [done..|]. intros out Hout. by destruct (Ho out). Qed.

Lemma follows_cons config (script : string → string → nat → list call) a c tr o :
  call_of a = Some c → (∀ id, c ≠ CPublish id) →
  follows config script tr o → follows config (λ p i n, c :: script p i n) (a :: tr) o.
Proof.
  intros Hc Hne (peer & id & n & Hp & Ht & Ho). exists peer, id, n. rewrite calls_cons, Hc. simpl.
  split_and!; [by apply prefix_cons| |].
  - intros [Heq|Hin]%elem_of_cons; [by destruct (Hne id)|auto].
  - intros out Hout. destruct (Ho out Hout) as (-> & ? & ?). done.
Qed.

Lemma follows_silent config script a tr o :
  call_of a = None → follows config script tr o → follows config script (a :: tr) o.
Proof. intros Hc (peer & id & n & Hf). exists peer, id, n. by rewrite calls_cons, Hc. Qed.

Ltac stop_here :=
  apply follows_stop;
    [exists ""; simpl; unfold prefix; by eexists
    |not_listed
    |done].

Lemma answer_phase_follows config peer tr o :
  run (answer_phase config peer) tr o →
  follows config (λ _ id n, [CCreateAnswer; CSetLocal; CExchange peer Answer] ++ ice_calls config id n) tr o.
Proof.
  unfold answer_phase. intros Hr.
  run_op Hr; [stop_here|]. run_try Hr; [|stop_here].
  run_op Hr; [stop_here|]. run_op Hr; [stop_here|]. run_try Hr; [|stop_here].
  run_op Hr; [stop_here|]. run_op Hr; [stop_here|]. run_try Hr; [|stop_here].
  run_op Hr; [stop_here|]. run_try Hr; [|stop_here]. run_try Hr; [|stop_here].
  run_try Hr; [|stop_here]. run_try Hr; [|stop_here].
  eapply (follows_cons _ (λ _ id n, [CSetLocal; CExchange peer Answer] ++ ice_calls config id n)); [done..|].
  apply follows_silent; [done|].
  eapply (follows_cons _ (λ _ id n, [CExchange peer Answer] ++ ice_calls config id n)); [done..|].
  do 2 (apply follows_silent; [done|]).
  eapply (follows_cons _ (λ _ id n, ice_calls config id n)); [done..|].
  match type of Hr with run (ice_phase _ ?i) _ _ => pose proof (ice_phase_calls _ i _ _ Hr) as (n & Hp & Ht & Ho);
    destruct o as [[out|e]|] end.
  - destruct (Ho out eq_refl) as [Hc Hid]. exists "", (ice_session_id i), (length (candidates i)).
    assert (is_subprotocol_token (ice_session_id i) = true) by (apply Ht; by rewrite Hc).
    rewrite Hc. split_and!; [done|done|]. by intros ? [= <-].
  - exists "", (ice_session_id i), n. split_and!; [done| |done]. intros Hin. apply Ht. intros Hnil.
    rewrite Hnil in Hin. by apply elem_of_nil in Hin.
  - exists "", (ice_session_id i), n. split_and!; [done| |done]. intros Hin. apply Ht. intros Hnil.
    rewrite Hnil in Hin. by apply elem_of_nil in Hin.
Qed.

Lemma ice_calls_publish config id n id' : CPublish id' ∈ ice_calls config id n → id' = id.
Proof.
  unfold ice_calls, relay_calls. intros Hin. apply elem_of_cons in Hin as [Hin|Hin]; [by injection Hin|].
  apply elem_of_app in Hin as [[? _]%elem_of_replicate|Hin]; [done|].
  do 3 (apply elem_of_cons in Hin as [Hin|Hin]; [done|]). by apply elem_of_nil in Hin.
Qed.

Lemma publish_unique config peer id n id' :
  CPublish id' ∈ session_calls config peer id n → id' = id.
Proof.
  unfold session_calls. intros Hin. do 5 (apply elem_of_cons in Hin as [Hin|Hin]; [done|]).
  by eapply ice_calls_publish.
Qed.

(** The first message of the run was answered with an offer of [peer]. *)
Definition offered_by (peer : string) (tr : list (action peer_op)) : Prop :=
  ∃ text m, kind m = Offer ∧ reply_to m = peer ∧
    tr !! 0 = Some (Act (Exchange "genesis" Genesis text) (Ok (Some m))).

(** The answer to [peer] was answered with an ICE message that names session [id]. *)
Definition named_by (peer id : string) (tr : list (action peer_op)) : Prop :=
  ∃ text m ice, Act (Exchange peer Answer text) (Ok (Some m)) ∈ tr ∧ kind m = Ice ∧
    decode_payload (ice_message_of_json (Typ := Typ)) m = Some ice ∧ ice_session_id ice = id.

Lemma named_by_cons peer id a tr : named_by peer id tr → named_by peer id (a :: tr).
Proof. intros (text & m & ice & Hin & Hm). exists text, m, ice. split; [by right|done]. Qed.

Ltac not_published := intros ?; not_listed.

Lemma answer_phase_named config peer tr o :
  run (answer_phase config peer) tr o → ∀ id, CPublish id ∈ calls tr → named_by peer id tr.
Proof.
  unfold answer_phase. intros Hr.
  run_op Hr; [not_published|]. run_try Hr; [|not_published].
  run_op Hr; [not_published|]. run_op Hr; [not_published|]. run_try Hr; [|not_published].
  run_op Hr; [not_published|]. run_op Hr; [not_published|]. run_try Hr; [|not_published].
  run_op Hr; [not_published|]. run_try Hr; [|not_published]. run_try Hr; [|not_published].
  unfold expect_signal in Hr. case_decide as Hk; simpl in Hr; [|destruct Hr as [-> ->]; not_published].
  match type of Hr with run (try (ok_or ?d _) _) _ _ => destruct d as [ice|] eqn:Hd; simpl in Hr end;
    [|destruct Hr as [-> ->]; not_published].
  destruct (ice_phase_calls _ _ _ _ Hr) as (n & [rest Heq] & _).
  intros id Hin. simpl in Hin. repeat (apply elem_of_cons in Hin as [Hin|Hin]; [done|]).
  assert (id = ice_session_id ice) as ->.
  { eapply ice_calls_publish. rewrite Heq. apply elem_of_app. by left. }
  do 5 apply named_by_cons. do 3 eexists. split; [by left|]. done.
Qed.

(** What a session owes to the protocol: the calls of [session_calls] up to where it
    stopped, the answer to whoever made the offer, the id the consumer's ICE message
    named and only if it is a token, and every call if it succeeded. *)
Definition obeys (config : PeerProxyConfig) (tr : list (action peer_op))
    (o : option (result PeerProxyOutcome error)) : Prop :=
  ∃ peer id n, calls tr `prefix_of` session_calls config peer id n ∧
    (CPublish id ∈ calls tr → is_subprotocol_token id = true ∧ named_by peer id tr) ∧
    (CExchange peer Answer ∈ calls tr → offered_by peer tr) ∧
    ∀ out, o = Some (Ok out) → calls tr = session_calls config peer id n ∧
      consumer_session_id out = id ∧ is_subprotocol_token id = true.

Ltac early :=
  exists "", "", 0; split_and!; [simpl; unfold prefix; by eexists|not_listed|not_listed|done].

Lemma session_run_calls config tr o : run (session config) tr o → obeys config tr o.
Proof.
  intros Hr. unfold session in Hr. cbn zeta in Hr.
  run_op Hr; [early|]. run_try Hr; [|early]. run_try Hr; [|early].
  unfold expect_signal in Hr. case_decide as Hk; simpl in Hr; [|destruct Hr as [-> ->]; early].
  run_try Hr; [|early]. run_op Hr; [early|]. run_try Hr; [|early].
  pose proof (answer_phase_named _ _ _ _ Hr) as Hn.
  apply answer_phase_follows in Hr as (who & id & n & Hp & Ht & Ho).
  match type of Hp with context [CExchange (reply_to ?m) Answer] => exists (reply_to m), id, n end.
  rewrite !calls_cons. simpl. split_and!.
  - by do 2 apply prefix_cons.
  - intros Hin. repeat (apply elem_of_cons in Hin as [Hin|Hin]; [done|]).
    split; [auto|]. by do 2 apply named_by_cons; apply Hn.
  - intros _. by do 2 eexists.
  - intros out Hout. destruct (Ho out Hout) as (Hc & ? & ?). split_and!; [|done..].
    exact (f_equal (λ l, CExchange "genesis" Genesis :: CSetRemote :: l) Hc).
Qed.

(** C2: the function follows the protocol on every run, whatever the services
    answer and wherever it is cancelled.  Either there was no API or no connection,
    and nothing else was done; or a connection was made with the configured STUN
    servers, on it the session advertised itself, answered the one offer it was
    given to whoever made it, published the session id that the consumer's ICE
    message named, added candidates, waited for the data channel and only then
    contacted the egress with that very id; an id is published only if it is a
    well-formed token; a successful session made every one of these calls and
    reports that id.  And the function does not return before it has closed the
    connection, as its last call; a cancelled session is reported as such. *)
Theorem session_follows_protocol api config tr o :
  run (run_peer_proxy_until_cancelled api config) tr o →
  (∃ e, api = Err e ∧ tr = [] ∧ o = Some (Err (WebRtc e))) ∨
  ∃ settings, api = Ok settings ∧
  let create := NewPeerConnection settings (ice_servers (stun_urls config)) in
  (tr = [] ∧ o = None) ∨
  (∃ e, tr = [Act create (Err e)] ∧ o = Some (Err (WebRtc e))) ∨
  ∃ tr_session s closing, tr = Act create (Ok tt) :: tr_session ++ closing ∧ obeys config tr_session s ∧
    match o with
    | None => closing = []
    | Some r => (∃ x, closing = [Act CloseConnection x]) ∧ r = default (Err Cancelled) s
    end.
Proof.
  unfold run_peer_proxy_until_cancelled. intros Hr.
  destruct api as [settings|e]; simpl in Hr; [right|destruct Hr as [-> ->]; left; by exists e].
  exists settings. split; [done|]. destruct Hr as [[-> ->]|([[]|e] & tr' & -> & Hr)]; [by left|..].
  - right; right. simpl in Hr. destruct Hr as [[-> Hs]|(s & tr1 & tr2 & -> & Hs & Hr)].
    + exists tr', None, []. rewrite app_nil_r. split_and!; [done|by apply session_run_calls|done].
    + exists tr1, s, tr2. split_and!; [done|by apply session_run_calls|].
      destruct Hr as [[-> ->]|(x & tr'' & -> & [-> ->])]; [done|]. split; [by exists x|done].
  - right; left. destruct Hr as [-> ->]. by exists e.
Qed.
End session.


Arguments peer_op : clear implicits.

(** ** The connection's callbacks *)
Section callbacks.
Context {Typ D : Type}.

(** What the callbacks and the session share: the published id, the flags, the
    event sender, and the wait for the data channel: whether its sender is still
    in its mutex, and what was sent. *)
Record callbacks := MkCallbacks {
  session_id : option string;
  connect_emitted : bool;
  disconnect_emitted : bool;
  events : option (list SupervisorEvent);
  wait_tx : bool;
  wait_value : option (result D RTCPeerConnectionState)
}.

Definition callbacks_new (events : option (list SupervisorEvent)) : callbacks :=
  MkCallbacks None false false events true None.

Definition is_disconnect_state (state : RTCPeerConnectionState) : bool := is_terminal_peer_state state.

Definition socket_addr_from_candidate (c : RTCIceCandidate Typ) : option SocketAddr :=
  ip ← parse_ip (address c); Some (socket_addr_new ip (port c)).

(** [selected] is the remote candidate of the selected pair, when there is one. *)
Definition peer_connected_event (id : string) (selected : option (RTCIceCandidate Typ)) : SupervisorEvent :=
  PeerConnected id (c ← selected; socket_addr_from_candidate c).

Definition peer_disconnected_event (id : string) : SupervisorEvent := PeerDisconnected id.

Definition send_wait (r : result D RTCPeerConnectionState) (c : callbacks) : callbacks :=
  MkCallbacks (session_id c) (connect_emitted c) (disconnect_emitted c) (events c) false
    (if wait_tx c then Some r else wait_value c).

Definition fail_data_channel_wait (state : RTCPeerConnectionState) (c : callbacks) : callbacks :=
  if is_terminal_peer_state state then send_wait (Err state) c else c.

Definition on_peer_connection_state_change (state : RTCPeerConnectionState)
    (selected : option (RTCIceCandidate Typ)) (c : callbacks) : callbacks :=
  let c := fail_data_channel_wait state c in
  match events c, session_id c with
  | Some evs, Some id =>
      if decide (state = StConnected) then
        MkCallbacks (session_id c) true (disconnect_emitted c)
          (Some (evs ++ [peer_connected_event id selected])) (wait_tx c) (wait_value c)
      else if is_disconnect_state state && connect_emitted c && negb (disconnect_emitted c) then
        MkCallbacks (session_id c) (connect_emitted c) true
          (Some (evs ++ [peer_disconnected_event id])) (wait_tx c) (wait_value c)
      else c
  | _, _ => c
  end.

(** A data channel with the right label opens for the first time. *)
Definition on_open (d : D) (c : callbacks) : callbacks := send_wait (Ok d) c.

(** [*session_id.lock() = Some(id)], by the session. *)
Definition publish (id : string) (c : callbacks) : callbacks :=
  MkCallbacks (Some id) (connect_emitted c) (disconnect_emitted c) (events c) (wait_tx c) (wait_value c).

Inductive callback_event :=
| StateChange (state : RTCPeerConnectionState) (selected : option (RTCIceCandidate Typ))
| Open (d : D)
| Publish (id : string).

Definition callback_step (c : callbacks) (ev : callback_event) : callbacks :=
  match ev with
  | StateChange state selected => on_peer_connection_state_change state selected c
  | Open d => on_open d c
  | Publish id => publish id c
  end.

Definition run_callbacks (c : callbacks) (evs : list callback_event) : callbacks :=
  foldl callback_step c evs.

(** ** The wait *)

Definition resolution (ev : callback_event) : option (result D RTCPeerConnectionState) :=
  match ev with
  | StateChange state _ => if is_terminal_peer_state state then Some (Err state) else None
  | Open d => Some (Ok d)
  | Publish _ => None
  end.

Lemma state_change_wait state selected c :
  let c' := on_peer_connection_state_change state selected c in
  wait_tx c' = wait_tx (fail_data_channel_wait state c) ∧
  wait_value c' = wait_value (fail_data_channel_wait state c).
Proof.
  unfold on_peer_connection_state_change. cbn zeta. set (c1 := fail_data_channel_wait state c).
  destruct (events c1), (session_id c1); try done. case_decide; [done|]. by destruct (_ && _).
Qed.

Lemma callback_step_wait c ev :
  wait_tx (callback_step c ev) = wait_tx c && match resolution ev with Some _ => false | None => true end ∧
  wait_value (callback_step c ev) =
    match resolution ev with
    | Some r => if wait_tx c then Some r else wait_value c
    | None => wait_value c
    end.
Proof.
  destruct ev as [state selected|d|id]; simpl.
  - destruct (state_change_wait state selected c) as [-> ->]. unfold fail_data_channel_wait, send_wait.
    destruct (is_terminal_peer_state state); simpl; by rewrite ?andb_false_r, ?andb_true_r.
  - by rewrite andb_false_r.
  - by rewrite andb_true_r.
Qed.

(** The wait for the data channel is decided once, by the first of the events
    that can decide it: a data channel that opens, or a terminal connection state,
    whichever comes first in the order the callbacks ran; nothing later changes it,
    and until then it is undecided. *)
Theorem data_channel_wait_first_wins events evs :
  wait_value (run_callbacks (callbacks_new events) evs) = head (omap resolution evs).
Proof.
  assert (Hgen : ∀ c, wait_value (run_callbacks c evs) =
    if wait_tx c then match head (omap resolution evs) with Some r => Some r | None => wait_value c end
    else wait_value c).
  { induction evs as [|ev evs IH]; intros c; simpl; [by destruct (wait_tx c)|].
    destruct (callback_step_wait c ev) as [Ht Hv]. rewrite IH, Ht, Hv.
    destruct (resolution ev), (wait_tx c); simpl; done. }
  rewrite Hgen. simpl. by destruct (head _).
Qed.

(** ** The events *)

Definition emitted (c : callbacks) : list SupervisorEvent := default [] (events c).

Definition is_disconnect (e : SupervisorEvent) : bool :=
  match e with PeerDisconnected _ => true | _ => false end.

Definition disconnects (l : list SupervisorEvent) : nat :=
  length (filter (λ e, is_disconnect e = true) l).

Definition labelled (id : string) (e : SupervisorEvent) : Prop :=
  (∃ remote, e = PeerConnected id remote) ∨ e = PeerDisconnected id.

(** Every id published is [id]. *)
Definition publishes_only (id : string) (evs : list callback_event) : Prop :=
  ∀ id', Publish id' ∈ evs → id' = id.

Record cb_inv (id : string) (c : callbacks) : Prop := {
  inv_events : is_Some (events c);
  inv_id : ∀ id', session_id c = Some id' → id' = id;
  inv_labelled : Forall (labelled id) (emitted c);
  inv_count : disconnects (emitted c) = if disconnect_emitted c then 1 else 0;
  inv_first : if connect_emitted c
    then ∃ remote rest, emitted c = PeerConnected id remote :: rest else emitted c = [];
  inv_order : disconnect_emitted c = true → connect_emitted c = true;
  inv_known : connect_emitted c = true → is_Some (session_id c)
}.

Lemma send_wait_inv id r c : cb_inv id c → cb_inv id (send_wait r c).
Proof. by intros []. Qed.

Lemma disconnects_snoc l e : disconnects (l ++ [e]) = disconnects l + if is_disconnect e then 1 else 0.
Proof. unfold disconnects. rewrite filter_app, length_app. rewrite filter_cons. by destruct (is_disconnect e). Qed.

Lemma state_change_inv id state selected c :
  cb_inv id c → cb_inv id (on_peer_connection_state_change state selected c).
Proof.
  unfold on_peer_connection_state_change, fail_data_channel_wait. intros Hinv. cbn zeta.
  assert (H1 : cb_inv id (if is_terminal_peer_state state then send_wait (Err state) c else c)).
  { destruct (is_terminal_peer_state state); [by apply send_wait_inv|done]. }
  revert H1. generalize (if is_terminal_peer_state state then send_wait (Err state) c else c). clear c Hinv.
  intros [sid ce de evs tx val] [[l Hl] Hid Hlab Hcnt Hfirst Hord Hknown]. unfold emitted in *. simpl in *. subst evs. simpl in *.
  destruct sid as [i|]; [|split; eauto]. rewrite (Hid i eq_refl) in *. clear Hid.
  case_decide.
  - split; unfold emitted; simpl; eauto; [naive_solver|..].
    + apply Forall_app_snoc; [done|]. left. by eexists.
    + rewrite disconnects_snoc. simpl. lia.
    + destruct ce; [destruct Hfirst as (r & rest & ->); simpl; eauto|]. subst l. simpl. by do 2 eexists.
  - destruct (is_disconnect_state state && ce && negb de) eqn:Hd.
    + apply andb_true_iff in Hd as [[_ ->]%andb_true_iff Hde%negb_true_iff]. subst de.
      destruct Hfirst as (r & rest & ->).
      split; unfold emitted; simpl; eauto; [naive_solver|..].
      * apply (Forall_app_snoc _ (PeerConnected id r :: rest)); [done|by right].
      * change (PeerConnected id r :: rest ++ [peer_disconnected_event id])
          with ((PeerConnected id r :: rest) ++ [peer_disconnected_event id]).
        rewrite disconnects_snoc, Hcnt. done.
    + split; unfold emitted; simpl; eauto. naive_solver.
Qed.

Lemma run_callbacks_inv id c evs :
  cb_inv id c → publishes_only id evs → cb_inv id (run_callbacks c evs).
Proof.
  revert c. induction evs as [|ev evs IH]; intros c Hinv Hpub; [done|]. simpl. apply IH.
  - destruct ev as [state selected|d|id']; simpl.
    + by apply state_change_inv.
    + by apply send_wait_inv.
    + destruct Hinv. split; simpl; try done. intros ? [= <-]. apply Hpub. by left.
  - intros id' Hin. apply Hpub. by right.
Qed.

Definition published_id (ev : callback_event) : option string :=
  match ev with Publish id => Some id | _ => None end.

(** Nothing is emitted before an id is published. *)
Lemma unpublished_silent evs :
  omap published_id evs = [] → emitted (run_callbacks (callbacks_new (Some [])) evs) = [].
Proof.
  assert (Hgen : ∀ c, session_id c = None → omap published_id evs = [] →
    emitted (run_callbacks c evs) = emitted c); [|by intros; apply Hgen].
  induction evs as [|ev evs IH]; intros c Hid Hpub; [done|]. simpl. destruct ev as [state selected|d|id]; [..|done].
  - assert (Hstep : on_peer_connection_state_change state selected c = fail_data_channel_wait state c).
    { unfold on_peer_connection_state_change, fail_data_channel_wait. cbn zeta.
      destruct (is_terminal_peer_state state); simpl; rewrite Hid; by destruct (events c). }
    simpl. rewrite Hstep. unfold fail_data_channel_wait.
    destruct (is_terminal_peer_state state); by rewrite IH.
  - simpl. by rewrite IH.
Qed.

Lemma callbacks_new_inv id : cb_inv id (callbacks_new (Some [])).
Proof. by split. Qed.

(** Flags and the published id are never taken back. *)
Lemma run_callbacks_mono c evs :
  (connect_emitted c = true → connect_emitted (run_callbacks c evs) = true) ∧
  (disconnect_emitted c = true → disconnect_emitted (run_callbacks c evs) = true) ∧
  (is_Some (session_id c) → is_Some (session_id (run_callbacks c evs))) ∧
  (is_Some (events c) → is_Some (events (run_callbacks c evs))).
Proof.
  revert c. induction evs as [|ev evs IH]; intros c; [done|]. simpl.
  destruct (IH (callback_step c ev)) as (H1 & H2 & H3 & H4).
  assert (Hs : (connect_emitted c = true → connect_emitted (callback_step c ev) = true) ∧
    (disconnect_emitted c = true → disconnect_emitted (callback_step c ev) = true) ∧
    (is_Some (session_id c) → is_Some (session_id (callback_step c ev))) ∧
    (is_Some (events c) → is_Some (events (callback_step c ev)))).
  { destruct c as [[i|] ce de [l|] tx v]; destruct ev as [state selected|d|id']; simpl; eauto;
      unfold on_peer_connection_state_change, fail_data_channel_wait; cbn zeta;
      destruct (is_terminal_peer_state state); simpl; try done;
      case_decide; simpl; eauto; destruct (_ && _); simpl; eauto. }
  destruct Hs as (G1 & G2 & G3 & G4). split_and!; auto.
Qed.

Lemma run_callbacks_app c e1 e2 : run_callbacks c (e1 ++ e2) = run_callbacks (run_callbacks c e1) e2.
Proof. apply foldl_app. Qed.

(** The state after a [Connected] and after a terminal state, once the id is known. *)
Lemma connected_sets_flag selected c :
  is_Some (session_id c) → is_Some (events c) →
  connect_emitted (on_peer_connection_state_change StConnected selected c) = true.
Proof. intros [i Hi] [l Hl]. unfold on_peer_connection_state_change, fail_data_channel_wait. simpl. by rewrite Hi, Hl. Qed.

Lemma terminal_sets_flag state selected c :
  is_terminal_peer_state state = true → is_Some (session_id c) → is_Some (events c) →
  connect_emitted c = true →
  disconnect_emitted (on_peer_connection_state_change state selected c) = true.
Proof.
  intros Ht [i Hi] [l Hl] Hc.
  unfold on_peer_connection_state_change, fail_data_channel_wait, is_disconnect_state. rewrite Ht. simpl.
  rewrite Hi, Hl, Hc, decide_False by by intros ->. by destruct (disconnect_emitted c) eqn:Hd; simpl.
Qed.

(** C27: for a session that is connected and then lost, exactly one disconnection
    is reported, whatever else the connection goes through before, between and
    after; for any other at most one; it is never the first event, which reports
    the connection. *)
Theorem peer_disconnect_exactly_once id evs :
  publishes_only id evs →
  let out := emitted (run_callbacks (callbacks_new (Some [])) evs) in
  disconnects out ≤ 1 ∧
  (out ≠ [] → ∃ remote rest, out = PeerConnected id remote :: rest) ∧
  ∀ e1 e2 selected e3 state selected' e4, is_terminal_peer_state state = true →
    evs = e1 ++ Publish id :: e2 ++ StateChange StConnected selected :: e3 ++
          StateChange state selected' :: e4 →
    disconnects out = 1.
Proof.
  intros Hpub out. pose proof (run_callbacks_inv id _ evs (callbacks_new_inv id) Hpub) as Hinv.
  pose proof (inv_count _ _ Hinv) as Hcount. split_and!.
  - subst out. rewrite Hcount. destruct (disconnect_emitted _); lia.
  - pose proof (inv_first _ _ Hinv) as Hf. destruct (connect_emitted _); [done|by intros []].
  - intros e1 e2 selected e3 state selected' e4 Ht ->. subst out. rewrite Hcount. clear Hinv Hcount Hpub.
    rewrite run_callbacks_app. simpl. rewrite run_callbacks_app. simpl. rewrite run_callbacks_app. simpl.
    set (c1 := publish id (run_callbacks (callbacks_new (Some [])) e1)).
    set (c2 := run_callbacks c1 e2). set (c3 := on_peer_connection_state_change StConnected selected c2).
    set (c4 := run_callbacks c3 e3). set (c5 := on_peer_connection_state_change state selected' c4).
    destruct (run_callbacks_mono (callbacks_new (Some [])) e1) as (_ & _ & _ & Hev1).
    destruct (run_callbacks_mono c1 e2) as (_ & _ & Hid2 & Hev2).
    destruct (run_callbacks_mono c2 [StateChange StConnected selected]) as (_ & _ & Hid3 & Hev3).
    destruct (run_callbacks_mono c3 e3) as (Hc4 & _ & Hid4 & Hev4).
    destruct (run_callbacks_mono c5 e4) as (_ & Hd & _).
    rewrite Hd; [done|]. apply terminal_sets_flag; [done|..].
    + apply Hid4, Hid3, Hid2. by eexists.
    + apply Hev4, Hev3, Hev2, Hev1. by eexists.
    + apply Hc4, connected_sets_flag; [apply Hid2; by eexists|apply Hev2, Hev1; by eexists].
Qed.
End callbacks.

Arguments callback_event : clear implicits.
Arguments callbacks : clear implicits.


Section labels.
Context {Typ Sdp D T X W V E Api : Type}.
Context `{JsonText} `{!IceTypeCodec Typ} `{!SdpCodec Sdp}.
Variable candidate_to_json : RTCIceCandidate Typ → result IceCandidateInit W.
Abbreviation proxy_session := (session (Sdp := Sdp) (D := D) (T := T) (X := X) (V := V) (E := E) (Api := Api)
  candidate_to_json).

(** C28: no consumer can write into the event stream: whatever the consumer sends
    and however the callbacks interleave with the session, no event is sent before
    the session has published an id, and every event carries the very id the session
    published, which is the one the consumer's ICE message named and a well-formed
    token, without a comma, white space or a control character. *)
Theorem peer_events_labelled config tr o (evs : list (callback_event Typ D)) :
  run (proxy_session config) tr o →
  (∀ id, Publish id ∈ evs → CPublish id ∈ omap call_of tr) →
  let out := emitted (run_callbacks (callbacks_new (Some [])) evs) in
  out = [] ∨
  ∃ peer id, CPublish id ∈ omap call_of tr ∧ named_by (Typ := Typ) peer id tr ∧
    is_subprotocol_token id = true ∧ Forall (labelled id) out.
Proof.
  intros Hr Hpub. destruct (session_run_calls _ _ _ _ Hr) as (peer & id & n & Hp & Htok & _).
  assert (Hone : ∀ id', CPublish id' ∈ omap call_of tr → id' = id).
  { intros id' Hin. destruct Hp as [rest Heq]. eapply (publish_unique config peer id n).
    rewrite Heq. apply elem_of_app. by left. }
  assert (Hinv : cb_inv id (run_callbacks (callbacks_new (Some [])) evs)).
  { apply run_callbacks_inv; [apply callbacks_new_inv|]. intros id' Hin. auto. }
  cbn zeta. destruct (omap published_id evs) as [|id' ids] eqn:He; [left; by apply unpublished_silent|right].
  assert (Hin : Publish id' ∈ evs).
  { assert (id' ∈ omap published_id evs) as (ev & Hev & Hid)%list_elem_of_omap by (rewrite He; by left).
    by destruct ev; simplify_eq/=. }
  pose proof (Hpub _ Hin) as Hc. pose proof (Hone _ Hc) as ->. destruct (Htok Hc) as [Ht Hn].
  exists peer, id. split_and!; [done..|]. apply (inv_labelled _ _ Hinv).
Qed.
End labels.

(** ** Runs *)
Module ProxyDemo.
#[local] Existing Instance IceDemo.host_codec.
#[local] Existing Instance gen_json_text.

#[local] Instance text_sdp : SdpCodec string := { sdp_to_json := JStr; sdp_of_json := as_string }.

Definition config : PeerProxyConfig := MkPeerProxyConfig "wss://egress" [] 10 false true.

Definition offer_text : string := to_string (JObj [("SDP", JStr "offer"); ("Tag", JStr "")]).
Definition ice_text : string := ice_payload [IceDemo.candidate] "csid-1".

Abbreviation op := (peer_op string nat nat unit unit unit unit unit).

(** A consumer that goes through with it, and an egress that relays for 5. *)
Definition answers (X : Type) (o : op X) (now : Z) : X * Z :=
  match o with
  | Exchange _ Genesis _ => (Ok (Some (MkSignal "consumer" Offer offer_text)), now)
  | Exchange _ _ _ => (Ok (Some (MkSignal "consumer" Ice ice_text)), now)
  | SetRemoteDescription _ => (Ok tt, now)
  | CreateAnswer => (Ok "answer", now)
  | GatheringCompletePromise => (tt, now)
  | SetLocalDescription _ => (Ok tt, now)
  | GatheringComplete => (tt, now)
  | LocalDescription => (Some "answer", now)
  | PublishSessionId _ => (tt, now)
  | AddIceCandidate _ => (Ok tt, now)
  | WaitDataChannel _ => (Resolved (Ok 3), now)
  | EgressConnect _ _ => (Ok 4, now)
  | Now => (now, now)
  | RunRelay _ _ => (Ok EgressClosed, now + 5)%Z
  | NewPeerConnection _ _ => (Ok tt, now)
  | CloseConnection => (Ok tt, now)
  end.

Definition to_init (c : RTCIceCandidate unit) : result IceCandidateInit unit :=
  Ok (MkIceInit (address c) None None).

Definition proxy : prog op (result PeerProxyOutcome (PeerProxyError unit unit unit unit)) :=
  session to_init config.

Definition trace : list (action op) := (exec answers proxy 0%Z).1.1.

Lemma proxy_runs : run proxy trace (Some (Ok (MkOutcome "csid-1" EgressClosed 5))).
Proof. exact (exec_run answers proxy 0%Z). Qed.

Lemma trace_calls : omap call_of trace = session_calls config "consumer" "csid-1" 1.
Proof. vm_compute. reflexivity. Qed.

(** The same run, with the connection around it, and one that is cancelled while it
    waits for the offer. *)
Definition function : prog op (result PeerProxyOutcome (PeerProxyError unit unit unit unit)) :=
  run_peer_proxy_until_cancelled to_init (Ok tt) config.
Definition whole : list (action op) := (exec answers function 0%Z).1.1.

Lemma whole_runs : run function whole (Some (Ok (MkOutcome "csid-1" EgressClosed 5))).
Proof. exact (exec_run answers function 0%Z). Qed.

Lemma whole_length : length whole = 17.
Proof. vm_compute. reflexivity. Qed.

Lemma cancelled_runs :
  run function [Act (NewPeerConnection tt []) (Ok tt); Act CloseConnection (Ok tt)] (Some (Err Cancelled)).
Proof.
  right. exists (Ok tt). eexists. split; [reflexivity|]. right. exists None, []. eexists. split; [reflexivity|].
  split; [by left|]. right. by exists (Ok tt), [].
Qed.

Lemma session_follows_protocol_witness :
  ∃ tr_session s x, whole = Act (NewPeerConnection tt []) (Ok tt) :: tr_session ++ [Act CloseConnection x] ∧
    obeys config tr_session s ∧ Ok (MkOutcome "csid-1" EgressClosed 5) = default (Err Cancelled) s.
Proof.
  destruct (session_follows_protocol to_init (Ok tt) config whole _ whole_runs)
    as [(e & He & _)|([] & _ & [[Hw _]|[(e & Hw & _)|(trs & s & c & Hw & Hs & (x & ->) & Hr)]])];
    [discriminate He|by apply (f_equal length) in Hw; rewrite whole_length in Hw..|].
  exists trs, s, x. split; [exact Hw|]. split; [exact Hs|exact Hr].
Defined.

(** Connected, then lost twice over. *)
Definition lost : list (callback_event unit nat) :=
  [Publish "csid-1"; Open 3; StateChange StConnected (Some IceDemo.candidate);
   StateChange StDisconnected None; StateChange StFailed None; StateChange StClosed None].

Example lost_events :
  emitted (run_callbacks (callbacks_new (Some [])) lost) =
  [PeerConnected "csid-1" (Some (SocketAddrV4 (ipv4 192 0 2 7) 50000)); PeerDisconnected "csid-1"].
Proof. vm_compute. reflexivity. Qed.

Lemma peer_disconnect_exactly_once_witness :
  disconnects (emitted (run_callbacks (callbacks_new (Some [])) lost)) = 1.
Proof.
  assert (Hpub : publishes_only "csid-1" lost).
  { intros id Hin. unfold lost in Hin. apply elem_of_cons in Hin as [Hin|Hin]; [by injection Hin|].
    repeat (apply elem_of_cons in Hin as [Hin|Hin]; [done|]). by apply elem_of_nil in Hin. }
  destruct (peer_disconnect_exactly_once "csid-1" lost Hpub) as (_ & _ & Honce).
  exact (Honce [] [Open 3] (Some IceDemo.candidate) [] StDisconnected None
    [StateChange StFailed None; StateChange StClosed None] eq_refl eq_refl).
Defined.

Lemma peer_events_labelled_witness :
  ∃ peer id, CPublish id ∈ omap call_of trace ∧ named_by (Typ := unit) peer id trace ∧
    Forall (labelled id) (emitted (run_callbacks (callbacks_new (Some [])) lost)).
Proof.
  destruct (peer_events_labelled to_init config trace _ lost proxy_runs) as [Hnil|(peer & id & Hc & Hn & _ & Hl)].
  - intros id Hin. rewrite trace_calls.
    unfold lost in Hin. apply elem_of_cons in Hin as [Hin|Hin].
    + injection Hin as ->. do 5 right. left.
    + repeat (apply elem_of_cons in Hin as [Hin|Hin]; [done|]). by apply elem_of_nil in Hin.
  - rewrite lost_events in Hnil. discriminate Hnil.
  - exists peer, id. split; [exact Hc|]. split; [exact Hn|exact Hl].
Defined.
End ProxyDemo.

(** ** After the disconnection *)
Section reconnection.
Context {Typ D : Type}.
Implicit Types (c : callbacks D) (evs : list (callback_event Typ D)).

Definition reconnection (id : string) (ev : callback_event Typ D) : option SupervisorEvent :=
  match ev with StateChange StConnected selected => Some (peer_connected_event id selected) | _ => None end.

(** Once the one disconnection is spent, only connections are reported. *)
Lemma spent_events id c evs :
  cb_inv id c → disconnect_emitted c = true → publishes_only id evs →
  emitted (run_callbacks c evs) = emitted c ++ omap (reconnection id) evs.
Proof.
  intros Hinv Hd. revert c Hinv Hd. induction evs as [|ev evs IH]; intros c Hinv Hd Hpub; simpl; [by rewrite app_nil_r|].
  assert (Hpub' : publishes_only id evs) by (intros id' Hin; apply Hpub; by right).
  assert (Hone : publishes_only id [ev]).
  { intros id' Hin. apply Hpub. apply list_elem_of_singleton in Hin as ->. by left. }
  rewrite (IH (callback_step c ev)); [|by apply (run_callbacks_inv id c [ev])
    |by apply (proj1 (proj2 (run_callbacks_mono c [ev])))|done].
  assert (Hce : connect_emitted c = true) by by apply (inv_order _ _ Hinv).
  destruct (inv_known _ _ Hinv Hce) as [i Hi]. pose proof (inv_id _ _ Hinv i Hi) as ->.
  destruct (inv_events _ _ Hinv) as [l Hl]. destruct c as [sid ce de ev0 tx val]; simpl in *; subst.
  destruct ev as [[] selected|d|id']; try done.
  unfold emitted. simpl. by rewrite <- (assoc_L (++)).
Qed.

(** C38: The guard is per session, not per connection: once a disconnection has been
    reported, no later loss of any kind is, but every return of the connection is; so
    when a connection that was lost comes back, the last event about the peer says
    that it is connected, however it ends. *)
Theorem reconnection_loss_unreported id before after :
  publishes_only id (before ++ after) →
  let out evs := emitted (D := D) (run_callbacks (Typ := Typ) (callbacks_new (Some [])) evs) in
  PeerDisconnected id ∈ out before →
  out (before ++ after) = out before ++ omap (reconnection id) after ∧
  ∀ e1 selected e2, after = e1 ++ StateChange StConnected selected :: e2 →
    ∃ remote, last (out (before ++ after)) = Some (PeerConnected id remote).
Proof.
  intros Hpub out Hdis.
  assert (Hpb : publishes_only id before) by (intros i Hi; apply Hpub, elem_of_app; by left).
  assert (Hpa : publishes_only id after) by (intros i Hi; apply Hpub, elem_of_app; by right).
  pose proof (run_callbacks_inv id _ before (callbacks_new_inv id) Hpb) as Hinv.
  assert (Hd : disconnect_emitted (run_callbacks (callbacks_new (Some [])) before) = true).
  { pose proof (inv_count _ _ Hinv) as Hc. destruct (disconnect_emitted _); [done|].
    unfold disconnects in Hc. apply length_zero_iff_nil in Hc.
    assert (Hin : PeerDisconnected id ∈ filter (λ e, is_disconnect e = true) (out before))
      by by apply list_elem_of_filter.
    unfold out in Hin. rewrite Hc in Hin. by apply elem_of_nil in Hin. }
  assert (Heq : out (before ++ after) = out before ++ omap (reconnection id) after).
  { unfold out. rewrite run_callbacks_app. by apply spent_events. }
  split; [done|]. intros e1 selected e2 ->. rewrite Heq, omap_app.
  change (omap (reconnection id) (StateChange StConnected selected :: e2))
    with (peer_connected_event id selected :: omap (reconnection id) e2).
  assert (Hlast : ∀ l, ∃ remote, last (peer_connected_event id selected :: omap (reconnection id) l) =
    Some (PeerConnected id remote)).
  { clear. intros l. unfold peer_connected_event. generalize (c ← selected; socket_addr_from_candidate c).
    induction l as [|ev l IH]; intros a; [by eexists|].
    destruct ev as [[] sel|d|i]; simpl; try exact (IH a). apply IH. }
  destruct (Hlast e2) as [remote Hl]. exists remote. rewrite (assoc_L (++)), last_app. by rewrite Hl.
Qed.
End reconnection.

Lemma reconnection_loss_unreported_witness :
  last (emitted (D := nat) (run_callbacks (callbacks_new (Some []))
    (ProxyDemo.lost ++ [StateChange StConnected None; StateChange StFailed None]))) =
  Some (PeerConnected "csid-1" None).
Proof.
  assert (Hpub : publishes_only "csid-1" (ProxyDemo.lost ++ [StateChange StConnected None; StateChange StFailed None])).
  { intros id Hin. unfold ProxyDemo.lost in Hin. apply elem_of_cons in Hin as [Hin|Hin]; [by injection Hin|].
    repeat (apply elem_of_cons in Hin as [Hin|Hin]; [done|]). by apply elem_of_nil in Hin. }
  assert (Hdis : PeerDisconnected "csid-1" ∈ emitted (run_callbacks (callbacks_new (Some [])) ProxyDemo.lost)).
  { rewrite ProxyDemo.lost_events. right. left. }
  destruct (reconnection_loss_unreported "csid-1" _ _ Hpub Hdis) as [Heq _]. cbn zeta in Heq.
  rewrite Heq, ProxyDemo.lost_events. reflexivity.
Defined.

(** The address reported for a peer: a candidate with an IPv4 address is reported
    with exactly that address and its port, and a candidate whose address has a
    character no IP literal has, such as an mDNS name, with none. *)
Theorem candidate_address_exact {Typ} (c : RTCIceCandidate Typ) :
  (∀ i j k l, octet i → octet j → octet k → octet l → address c = ipv4_text i j k l →
     socket_addr_from_candidate c = Some (SocketAddrV4 (ipv4 i j k l) (port c))) ∧
  (Exists (λ b, ¬ ip_char b) (string_bytes (address c)) → socket_addr_from_candidate c = None).
Proof.
  unfold socket_addr_from_candidate. split.
  - intros i j k l Hi Hj Hk Hl ->. by rewrite parse_ip_ipv4.
  - intros Hex. destruct (parse_ip (address c)) as [ip|] eqn:Hp; [|done].
    apply parse_ip_chars in Hp. apply Exists_exists in Hex as (b & Hb & Hnot).
    rewrite Forall_forall in Hp. destruct (Hnot (Hp b Hb)).
Qed.

Lemma candidate_address_exact_witness :
  socket_addr_from_candidate (MkCandidate (Typ := unit) "" "" 0 (ipv4_text 203 0 113 8) Udp 54321 tt 1 "" 0 "") =
    Some (SocketAddrV4 (ipv4 203 0 113 8) 54321) ∧
  socket_addr_from_candidate (MkCandidate (Typ := unit) "" "" 0 "abc-123.local" Udp 54321 tt 1 "" 0 "") = None.
Proof.
  split; [apply candidate_address_exact with (i := 203%Z) (j := 0%Z) (k := 113%Z) (l := 8%Z);
            unfold octet; (lia || reflexivity)|].
  apply candidate_address_exact. simpl. do 3 apply Exists_cons_tl. apply Exists_cons_hd.
  intros [Hd|[Hd|Hd]]; [|discriminate..]. destruct Hd as [d Hd]. discriminate.
Defined.

(** ** The supervised proxy *)
Section supervised.
Context {Typ D X W V E : Type}.

(** [supervise_peer_proxy]: the supervisor over this session; [display] is the
    error's [to_string]. *)
Definition supervise_peer_proxy (display : PeerProxyError X W V E → string) (config : SupervisorConfig)
    (events : option (list SupervisorEvent)) (rounds : list (round (PeerProxyError X W V E)))
    : option (SupervisorSummary * option (list SupervisorEvent)) :=
  supervise_with relay_duration display config events rounds.

(** What the callbacks of a session send is what the supervisor expects of a
    session: connections and disconnections only. *)
Lemma callbacks_emit_peer_events (evs : list (callback_event Typ D)) :
  Forall peer_event (emitted (run_callbacks (callbacks_new (Some [])) evs)).
Proof.
  assert (Hgen : ∀ c, Forall peer_event (emitted c) → Forall peer_event (emitted (run_callbacks c evs)));
    [|by apply Hgen].
  induction evs as [|ev evs IH]; intros c Hc; [done|]. simpl. apply IH.
  destruct ev as [state selected|d|id]; [|done|done]. simpl.
  unfold on_peer_connection_state_change, fail_data_channel_wait. cbn zeta.
  destruct c as [[i|] ce de [l|] tx v]; destruct (is_terminal_peer_state state); simpl; try done;
    (case_decide; [by apply Forall_app_snoc|destruct (_ && _); [by apply Forall_app_snoc|done]]).
Qed.

(** The supervisor's guarantees hold of the real sessions: rounds whose events
    come from the callbacks of peer connections meet its assumption. *)
Lemma supervised_proxy_marks display config rounds sum evs :
  Forall (λ rd, ∃ cbs : list (callback_event Typ D),
    rd_session_events rd = emitted (run_callbacks (callbacks_new (Some [])) cbs)) rounds →
  (Z.of_nat (length rounds) ≤ u64_max)%Z →
  supervise_peer_proxy display config (Some []) rounds = Some (sum, Some evs) →
  ∃ finished aborted, finished `prefix_of` rounds ∧ sum = tally default_summary finished aborted ∧
    omap mark_of evs =
      attempt_marks 0 finished ++ (if aborted : bool then [Began (attempts sum)] else []) ++ [Halted sum].
Proof.
  intros Hev. apply supervise_with_marks. eapply Forall_impl; [exact Hev|].
  intros rd (cbs & Hcb). unfold peer_events. rewrite Hcb. apply callbacks_emit_peer_events.
Qed.
End supervised.
