(* ===== verification/ConsumerPath.v ===== *)
(** The consumer's peer path ([src/consumer_path.rs]): the allocator of synthetic
    path addresses and the loop that translates between a peer's datagram
    transport and the virtual UDP socket. *)
From S2P Require Import Prelude Tokio Net Serde Protocol Relay VirtualUdp.

Definition CGNAT_BASE : Z := ipv4 100 64 0 0.
Definition CGNAT_HOSTS : Z := Z.shiftl 1 22.
Definition FIRST_PATH_HOST : Z := 2.
Definition SYNTHETIC_PATH_PORT : Z := 443.

Inductive ConsumerPathEnd := PathPeerClosed | PathSocketClosed | PathCancelled.

#[export] Instance ConsumerPathEnd_eq_dec : EqDecision ConsumerPathEnd.
Proof. solve_decision. Defined.

Inductive ConsumerPathError (E : Type) :=
| Transport (source : E)
| Decode
| SourceChanged (expected actual : string)
| EmptySource
| Receive (error : PathReceiveError)
| AddressSpaceExhausted.
Arguments Transport {E} source.
Arguments Decode {E}.
Arguments SourceChanged {E} expected actual.
Arguments EmptySource {E}.
Arguments Receive {E} error.
Arguments AddressSpaceExhausted {E}.

(** ** The allocator

    Its state is the 32-bit counter [next_host]; [allocate] is one atomic
    [fetch_update].  The additions wrap at 32 bits. *)
Definition allocator_new : Z := FIRST_PATH_HOST.

Definition allocate {E} (next_host : Z) : result SocketAddr (ConsumerPathError E) * Z :=
  if decide (next_host < CGNAT_HOSTS)%Z then
    (Ok (socket_addr_new (V4 (wrap 32 (CGNAT_BASE + next_host))) SYNTHETIC_PATH_PORT),
     wrap 32 (next_host + 1))
  else (Err AddressSpaceExhausted, next_host).

(** The results of [n] calls in a row. *)
Fixpoint allocations {E} (n : nat) (next_host : Z) : list (result SocketAddr (ConsumerPathError E)) :=
  match n with
  | O => []
  | S n => let '(r, next_host) := allocate next_host in r :: allocations n next_host
  end.

(** The [i]-th address handed out, and how many there are. *)
Definition nth_address (i : Z) : SocketAddr :=
  SocketAddrV4 (CGNAT_BASE + FIRST_PATH_HOST + i) SYNTHETIC_PATH_PORT.

Definition allocator_capacity : Z := CGNAT_HOSTS - FIRST_PATH_HOST.

(** The [i]-th call, whatever came before. *)
Definition nth_allocation {E} (i : nat) : result SocketAddr (ConsumerPathError E) :=
  if decide (Z.of_nat i < allocator_capacity)%Z then Ok (nth_address (Z.of_nat i))
  else Err AddressSpaceExhausted.

Lemma allocate_nth {E} i :
  allocate (E := E) (FIRST_PATH_HOST + Z.min (Z.of_nat i) allocator_capacity) =
    (nth_allocation i, FIRST_PATH_HOST + Z.min (Z.of_nat (S i)) allocator_capacity)%Z.
Proof.
  unfold allocate, nth_allocation, nth_address, allocator_capacity.
  change FIRST_PATH_HOST with 2%Z. change CGNAT_HOSTS with 4194304%Z.
  change CGNAT_BASE with 1681915904%Z.
  destruct (decide (Z.of_nat i < 4194304 - 2)%Z).
  - rewrite decide_True by lia. rewrite Z.min_l by lia. rewrite Z.min_l by lia.
    rewrite !wrap_small by lia. simpl. f_equal; [|lia]. do 2 f_equal. lia.
  - rewrite decide_False by lia. f_equal. lia.
Qed.

Lemma allocations_nth {E} n i :
  allocations (E := E) n (FIRST_PATH_HOST + Z.min (Z.of_nat i) allocator_capacity) =
  nth_allocation <$> seq i n.
Proof.
  revert i. induction n as [|n IH]; intros i; [done|].
  cbn [allocations seq fmap list_fmap]. rewrite allocate_nth. f_equal. apply IH.
Qed.

(** C32: the allocator hands out, from a new one on, 100.64.0.2, 100.64.0.3, ...
    in order up to the last host 100.127.255.255 of the shared address block, all
    with port 443, then reports exhaustion for ever; the addresses of different
    calls are different, so a replacement path always looks like a new remote, and
    no addition overflows its 32 bits. *)
Theorem allocations_spec {E} n :
  allocations (E := E) n allocator_new = nth_allocation <$> seq 0 n ∧
  nth_address 0 = SocketAddrV4 (ipv4 100 64 0 2) 443 ∧
  nth_address (allocator_capacity - 1) = SocketAddrV4 (ipv4 100 127 255 255) 443 ∧
  (∀ i j a, nth_allocation (E := E) i = Ok a → nth_allocation (E := E) j = Ok a → i = j) ∧
  (∀ i a, nth_allocation (E := E) i = Ok a → sa_wf a).
Proof.
  split_and!; [|done..| |].
  - exact (allocations_nth n 0).
  - unfold nth_allocation, nth_address. intros i j a Hi Hj.
    repeat case_decide; simplify_eq. lia.
  - unfold nth_allocation, nth_address, allocator_capacity. intros i a Ha.
    change CGNAT_HOSTS with 4194304%Z in Ha. change FIRST_PATH_HOST with 2%Z in *.
    case_decide; simplify_eq. change CGNAT_BASE with 1681915904%Z.
    unfold sa_wf, u32_max, u16_max, SYNTHETIC_PATH_PORT. lia.
Qed.

(** ** The path loop

    An iteration polls the branches of the biased [select!] in order: the
    cancellation token, the peer's receive, the path's outgoing queue. *)

Section path.
Context {chan : Type → Type} `{!Mpsc chan} `{JsonText} `{Base64}.
Context {E T : Type} `{!DatagramTransport E T}.

Abbreviation outcome := (result ConsumerPathEnd (ConsumerPathError E)).

(** The loop's state: the shared socket state, the peer and the pinned source. *)
Record path_state := MkPathState {
  ps_world : World chan;
  ps_peer : T;
  ps_source : option string
}.

(** The check of a packet's source against the pinned one, which is set by the
    first packet. *)
Definition check_source (source : option string) (actual : string)
    : result (option string) (ConsumerPathError E) :=
  match source with
  | Some expected =>
      if decide (expected = actual) then Ok source else Err (SourceChanged expected actual)
  | None => Ok (Some actual)
  end.

(** [path.try_receive(packet.payload)] and the match on its result. *)
Definition offer (c : nat) (payload : bytes) (st : path_state) : option outcome * path_state :=
  match try_receive c payload (ps_world st) with
  | None => (None, st)
  | Some (r, w) =>
      let st := MkPathState w (ps_peer st) (ps_source st) in
      match r with
      | Ok _ | Err QueueFull => (None, st)
      | Err Closed => (Some (Ok PathSocketClosed), st)
      | Err (Oversize n m) => (Some (Err (Receive (Oversize n m))), st)
      end
  end.

(** A packet of the peer: decode, check the source, offer the payload to the
    socket as a datagram of path [c]. *)
Definition on_packet (c : nat) (packet : bytes) (st : path_state) : option outcome * path_state :=
  match decode_packet packet with
  | None => (Some (Err Decode), st)
  | Some packet =>
      if decide (source_addr packet = "") then (Some (Err EmptySource), st)
      else
        match check_source (ps_source st) (source_addr packet) with
        | Err e => (Some (Err e), st)
        | Ok source =>
            offer c (pkt_payload packet) (MkPathState (ps_world st) (ps_peer st) source)
        end
  end.

(** The branch of the peer's receive. *)
Definition on_received (c : nat) (r : result (option bytes) E) (st : path_state)
    : option outcome * path_state :=
  match r with
  | Err e => (Some (Err (Transport e)), st)
  | Ok None => (Some (Ok PathPeerClosed), st)
  | Ok (Some packet) => on_packet c packet st
  end.

(** The branch of the path's outgoing queue; with nothing queued it waits. *)
Definition on_outgoing (c : nat) (st : path_state) : option outcome * path_state :=
  match next_outgoing c (ps_world st) with
  | None | Some (Pending, _) => (None, st)
  | Some (Ready None, w) =>
      (Some (Ok PathSocketClosed), MkPathState w (ps_peer st) (ps_source st))
  | Some (Ready (Some packet), w) =>
      let '(r, peer) := send_packet packet (ps_peer st) in
      let st := MkPathState w peer (ps_source st) in
      match r with
      | Err e => (Some (Err (Transport e)), st)
      | Ok _ => (None, st)
      end
  end.

(** One iteration of the loop; [Some r] when the function returns [r]. *)
Definition path_iter (c : nat) (cancelled : bool) (st : path_state) : option outcome * path_state :=
  if cancelled then (Some (Ok PathCancelled), st)
  else
    let '(r, peer) := recv_packet (ps_peer st) in
    let st := MkPathState (ps_world st) peer (ps_source st) in
    match r with
    | Ready r => on_received c r st
    | Pending => on_outgoing c st
    end.

(** What happens while the function runs: an iteration, the other users of the
    socket bring it to another state, or the peer's connection changes. *)
Inductive path_event :=
| Wake (cancelled : bool)
| Others (w : World chan)
| Remote (f : T → T).

Fixpoint path_loop (c : nat) (evs : list path_event) (st : path_state)
    : option outcome * path_state :=
  match evs with
  | [] => (None, st)
  | Others w :: evs => path_loop c evs (MkPathState w (ps_peer st) (ps_source st))
  | Remote f :: evs => path_loop c evs (MkPathState (ps_world st) (f (ps_peer st)) (ps_source st))
  | Wake i :: evs =>
      match path_iter c i st with
      | (Some r, st) => (Some r, st)
      | (None, st) => path_loop c evs st
      end
  end.

(** [run_consumer_path]: install the path, loop, and drop the path on the way
    out.  [None]: [add_path] panicked. *)
Definition run_consumer_path (addr : SocketAddr) (queue_capacity : nat) (evs : list path_event)
    (peer : T) (w : World chan) : option (option outcome * path_state) :=
  '(c, w) ← add_path addr queue_capacity w;
  let '(r, st) := path_loop c evs (MkPathState w peer None) in
  match r with
  | None => Some (None, st)
  | Some r =>
      let w := match drop_path c (ps_world st) with Some w => w | None => ps_world st end in
      Some (Some r, MkPathState w (ps_peer st) (ps_source st))
  end.
End path.

Arguments path_state : clear implicits.
Arguments path_event : clear implicits.

Section path_properties.
Context {chan : Type → Type} `{!Mpsc chan} `{!MpscSpec chan} `{JsonText} `{Base64}.
Context {E T : Type} `{!DatagramTransport E T}.
Implicit Types (st : path_state chan T) (w : World chan) (c : nat).

Abbreviation outcome := (result ConsumerPathEnd (ConsumerPathError E)).

(** The other users cannot take the path or the last [Arc] of the socket away
    from the running function. *)
Definition others_ok (M c : nat) w w' : Prop :=
  rtc (vstep M) w w' ∧ w_paths w' !! c = w_paths w !! c ∧ is_Some (w_socket w').

Fixpoint events_ok (M c : nat) (evs : list (path_event chan T)) st : Prop :=
  match evs with
  | [] => True
  | Others w :: evs =>
      others_ok M c (ps_world st) w ∧ events_ok M c evs (MkPathState w (ps_peer st) (ps_source st))
  | Remote f :: evs => events_ok M c evs (MkPathState (ps_world st) (f (ps_peer st)) (ps_source st))
  | Wake i :: evs =>
      match path_iter (E := E) c i st with
      | (Some _, _) => True
      | (None, st) => events_ok M c evs st
      end
  end.

(** What the loop keeps: a reachable socket state in which the socket is alive
    and the path is attached at its address. *)
Definition loop_inv (M c : nat) (addr : SocketAddr) st : Prop :=
  reachable M (ps_world st) ∧ is_Some (w_socket (ps_world st)) ∧
  w_paths (ps_world st) !! c = Some (MkPath addr M).

Lemma reachable_steps M w w' : reachable M w → rtc (vstep M) w w' → reachable M w'.
Proof. intros Hr Hs. induction Hs; eauto using reachable_step. Qed.

Lemma try_receive_frame M c payload w r w' :
  try_receive c payload w = Some (r, w') →
  w_paths w' = w_paths w ∧ w_socket w' = w_socket w ∧ vstep M w w'.
Proof.
  intros Ht. split_and!; [..|by econstructor]; unfold try_receive in Ht;
    destruct (w_paths w !! c); simpl in Ht; try done; case_decide; simplify_eq; try done;
    destruct (mpsc_try_send _ _); by simplify_eq.
Qed.

Lemma next_outgoing_frame M c w r w' :
  next_outgoing c w = Some (r, w') →
  w_paths w' = w_paths w ∧ w_socket w' = w_socket w ∧ vstep M w w'.
Proof.
  intros Ht. split_and!; [..|by econstructor]; unfold next_outgoing in Ht;
    destruct (w_paths w !! c); simpl in Ht; try done;
    destruct (w_chans w !! c); simpl in Ht; try done;
    destruct (mpsc_poll_recv _); by simplify_eq.
Qed.

Lemma loop_inv_world M c addr w w' p p' s s' :
  loop_inv M c addr (MkPathState w p s) → vstep M w w' →
  w_paths w' = w_paths w → w_socket w' = w_socket w →
  loop_inv M c addr (MkPathState w' p' s').
Proof.
  unfold loop_inv. simpl. intros (Hr & Hs & Hp) Hv -> ->. eauto using reachable_step.
Qed.

Lemma on_packet_inv M c addr packet st r st' :
  on_packet (E := E) c packet st = (r, st') → loop_inv M c addr st → loop_inv M c addr st'.
Proof.
  unfold on_packet. intros Hp I. destruct (decode_packet packet) as [pk|]; [|by simplify_eq].
  case_decide; [by simplify_eq|]. destruct (check_source _ _); [|by simplify_eq].
  unfold offer in Hp. simpl in Hp.
  destruct (try_receive _ _ _) as [[r0 w]|] eqn:Ht; [|by simplify_eq].
  assert (st' = MkPathState w (ps_peer st) a) as ->.
  { destruct r0 as [[]|[]]; by simplify_eq. }
  destruct st as [w0 p s]. simpl in *.
  destruct (try_receive_frame M _ _ _ _ _ Ht) as (Hp' & Hs & Hv).
  by eapply loop_inv_world.
Qed.

(** [offer] on a running path, case by case. *)
Lemma offer_cases M c addr payload st :
  loop_inv M c addr st →
  let q := view (w_incoming (ps_world st)) in
  ∃ st', offer (E := E) c payload st =
      (if decide (length payload ≤ M) then None
       else Some (Err (Receive (Oversize (length payload) M))), st') ∧
    ps_peer st' = ps_peer st ∧ ps_source st' = ps_source st ∧
    w_chans (ps_world st') = w_chans (ps_world st) ∧
    w_socket (ps_world st') = w_socket (ps_world st) ∧
    q_items (view (w_incoming (ps_world st'))) =
      (if decide (length payload ≤ M ∧ length (q_items q) < q_cap q)
       then q_items q ++ [MkReceivedDatagram addr payload] else q_items q).
Proof.
  intros (Hr & Hs & Hp) q. apply reachable_inv in Hr. unfold offer.
  assert (Hcase := try_receive_cases M _ c _ payload Hr Hs Hp). simpl in Hcase.
  case_decide as Hlen.
  - rewrite Hcase. rewrite decide_False, decide_False by lia. by eexists.
  - destruct Hcase as (ch & -> & Hitems). rewrite (decide_True (P := length payload ≤ M)) by lia.
    fold q in Hitems |- *. case_decide as Hroom; eexists; (split; [done|]); simpl.
    + rewrite decide_True by lia. by rewrite Hitems.
    + rewrite decide_False by lia. by rewrite Hitems.
Qed.

Lemma on_outgoing_inv M c addr st r st' :
  on_outgoing (E := E) c st = (r, st') → loop_inv M c addr st → loop_inv M c addr st'.
Proof.
  unfold on_outgoing. intros Hp I. destruct st as [w0 p s]. simpl in *.
  destruct (next_outgoing c w0) as [[[[b|]|] w]|] eqn:Hn; [..|by simplify_eq];
    destruct (next_outgoing_frame M _ _ _ _ Hn) as (Hp' & Hs & Hv).
  - destruct (send_packet b p) as [r0 peer].
    assert (st' = MkPathState w peer s) as -> by (destruct r0; by simplify_eq).
    by eapply loop_inv_world.
  - simplify_eq. by eapply loop_inv_world.
  - by simplify_eq.
Qed.

Lemma path_iter_inv M c addr i st r st' :
  path_iter (E := E) c i st = (r, st') → loop_inv M c addr st → loop_inv M c addr st'.
Proof.
  unfold path_iter. intros Hp I. destruct i; [by simplify_eq|].
  destruct (recv_packet (ps_peer st)) as [[[[b|]|e]|] peer]; simpl in Hp; [|by simplify_eq..|].
  - by eapply on_packet_inv.
  - by eapply on_outgoing_inv.
Qed.

Lemma add_path_inv M addr cap w c w' peer :
  reachable M w → add_path addr cap w = Some (c, w') →
  loop_inv M c addr (MkPathState w' peer None : path_state chan T).
Proof.
  intros Hr Ha. unfold loop_inv; simpl. split; [eapply reachable_step, step_add_path; eauto|].
  pose proof (inv_mtu _ _ (reachable_inv _ _ Hr)) as Hm.
  unfold add_path in Ha. case_decide; [done|].
  destruct (w_socket w) as [s|]; simplify_eq/=. rewrite lookup_insert_eq.
  split; [by eexists|]. by rewrite (Hm s eq_refl).
Qed.

(** The loop keeps its invariant up to its return. *)
Lemma path_loop_inv M c addr evs st r st' :
  path_loop (E := E) c evs st = (r, st') → events_ok M c evs st →
  loop_inv M c addr st → loop_inv M c addr st'.
Proof.
  revert st. induction evs as [|[i|w|f] evs IH]; intros st; simpl; [by intros; simplify_eq|..].
  - destruct (path_iter c i st) as [[r0|] st0] eqn:Hi; intros Hl Hev I;
      [simplify_eq; by eapply path_iter_inv|eauto using path_iter_inv].
  - intros Hl [(Hsteps & Hpath & Hsock) Hev] (Hr & Hs & Hp). eapply IH; [done..|].
    unfold loop_inv; simpl. rewrite Hpath. eauto using reachable_steps.
  - eauto.
Qed.

(** No iteration of a running path ends with [PathSocketClosed]. *)
Lemma path_iter_not_socket_closed M c addr i st r st' :
  path_iter (E := E) c i st = (Some r, st') → loop_inv M c addr st → r ≠ Ok PathSocketClosed.
Proof.
  unfold path_iter. intros Hp I ->. pose proof I as (Hr%reachable_inv & Hs & Hc).
  destruct i; [by simplify_eq|].
  destruct (recv_packet (ps_peer st)) as [[[[b|]|e]|] peer]; simpl in Hp; [|by simplify_eq..|].
  - unfold on_packet in Hp. destruct (decode_packet b) as [pk|]; [|by simplify_eq].
    case_decide; [by simplify_eq|]. destruct (check_source _ _); [|by simplify_eq].
    edestruct (offer_cases M c addr (pkt_payload pk)) as (st'' & Hoff & _);
      [|rewrite Hoff in Hp; case_decide; by simplify_eq]. done.
  - unfold on_outgoing in Hp. simpl in Hp.
    destruct (next_outgoing c (ps_world st)) as [[[[b|]|] w]|] eqn:Hn; [..|by simplify_eq].
    + destruct (send_packet b peer) as [[[]|e] peer']; by simplify_eq.
    + by destruct (next_outgoing_not_closed _ _ _ _ _ Hr Hn).
    + by simplify_eq.
Qed.

(** A returned run, taken apart. *)
Lemma run_consumer_path_returned M addr cap evs peer w c w1 r st :
  reachable M w → add_path addr cap w = Some (c, w1) →
  events_ok M c evs (MkPathState w1 peer None) →
  run_consumer_path (E := E) addr cap evs peer w = Some (Some r, st) →
  ∃ st0, path_loop c evs (MkPathState w1 peer None) = (Some r, st0) ∧ loop_inv M c addr st0 ∧
    drop_path c (ps_world st0) = Some (ps_world st) ∧ ps_source st = ps_source st0.
Proof.
  intros Hr Ha Hev Hrun. unfold run_consumer_path in Hrun. rewrite Ha in Hrun. simpl in Hrun.
  destruct (path_loop c evs (MkPathState w1 peer None)) as [[r0|] st0] eqn:Hl; simplify_eq/=.
  exists st0.
  assert (I : loop_inv M c addr st0) by eauto using path_loop_inv, add_path_inv.
  split_and!; [done..| |done]. destruct I as (_ & _ & Hp).
  destruct (drop_path c (ps_world st0)) eqn:Hd; [done|].
  unfold drop_path in Hd. by rewrite Hp in Hd.
Qed.

(** C26: A path never ends because "the socket closed": the function keeps the
    socket alive and the path keeps a sender of its own channel, so of the three
    ends the interface declares only "peer closed" and "cancelled" occur. *)
Theorem path_never_ends_socket_closed M addr cap evs peer w c w1 r st :
  reachable M w → add_path addr cap w = Some (c, w1) →
  events_ok M c evs (MkPathState w1 peer None) →
  run_consumer_path (E := E) addr cap evs peer w = Some (Some r, st) →
  r ≠ Ok PathSocketClosed.
Proof.
  intros Hr Ha Hev Hrun.
  destruct (run_consumer_path_returned _ _ _ _ _ _ _ _ _ _ Hr Ha Hev Hrun) as (st0 & Hl & _).
  pose proof (add_path_inv _ _ _ _ _ _ peer Hr Ha) as I. clear Hrun Ha Hr.
  revert I Hev Hl. generalize (MkPathState w1 peer None : path_state chan T) as s.
  induction evs as [|[i|w'|f] evs IH]; intros s I; simpl; [done|..].
  - destruct (path_iter c i s) as [[r1|] s1] eqn:Hi.
    + intros _ [= <- <-]. by eapply path_iter_not_socket_closed.
    + eauto using path_iter_inv.
  - intros [(Hsteps & Hpath & Hsock) Hev]. apply IH; [|done].
    destruct I as (? & ? & ?). unfold loop_inv; simpl. rewrite Hpath. eauto using reachable_steps.
  - by apply IH.
Qed.

(** However a path ends (peer gone, transport error, bad packet,
    cancellation), it leaves the socket alive and removes its own attachment: no
    address routes to it any more, the path is gone, and the state is one the
    socket's guarantees cover. *)
Theorem path_end_keeps_socket M addr cap evs peer w c w1 r st :
  reachable M w → add_path addr cap w = Some (c, w1) →
  events_ok M c evs (MkPathState w1 peer None) →
  run_consumer_path (E := E) addr cap evs peer w = Some (Some r, st) →
  is_Some (w_socket (ps_world st)) ∧ w_paths (ps_world st) !! c = None ∧
  (∀ a, lookup_route a (ps_world st) ≠ Some c) ∧ reachable M (ps_world st).
Proof.
  intros Hr Ha Hev Hrun.
  destruct (run_consumer_path_returned _ _ _ _ _ _ _ _ _ _ Hr Ha Hev Hrun)
    as (st0 & _ & (Hr0 & [s Hs] & Hp) & Hd & _).
  destruct (drop_path_routes _ _ _ _ _ (reachable_inv _ _ Hr0) Hs Hd) as (s' & Hs' & _ & _ & Hroutes).
  split_and!.
  - by rewrite Hs'.
  - unfold drop_path in Hd. rewrite Hp in Hd. injection Hd as <-. simpl. apply lookup_delete_eq.
  - intros a. unfold lookup_route. rewrite Hs'. simpl. rewrite Hroutes. by case_decide.
  - eapply reachable_step; [done|]. by econstructor.
Qed.

(** ** One source per path *)

(** What an iteration reads from the peer: the packet it delivers, if it
    delivers one that decodes. *)
Definition iter_packet (cancelled : bool) st : option UnboundedPacket :=
  if cancelled then None
  else
    match (recv_packet (ps_peer st)).1 with
    | Ready (Ok (Some b)) => decode_packet b
    | _ => None
    end.

(** The free slots of the socket's queue, and what a step appended to it. *)
Definition free_slots st : nat :=
  q_cap (view (w_incoming (ps_world st))) - length (q_items (view (w_incoming (ps_world st)))).

Definition put_in st st' : list ReceivedDatagram :=
  drop (length (q_items (view (w_incoming (ps_world st)))))
    (q_items (view (w_incoming (ps_world st')))).

(** The packets the peer delivers over a run, each with the free slots there were
    when it came, and the datagrams that enter the socket's queue in the loop's own
    iterations.  Both count every iteration, the one that ends the loop too. *)
Fixpoint taken (c : nat) (evs : list (path_event chan T)) st : list (nat * UnboundedPacket) :=
  match evs with
  | [] => []
  | Others w :: evs => taken c evs (MkPathState w (ps_peer st) (ps_source st))
  | Remote f :: evs => taken c evs (MkPathState (ps_world st) (f (ps_peer st)) (ps_source st))
  | Wake i :: evs =>
      option_list (pair (free_slots st) <$> iter_packet i st) ++
      match path_iter (E := E) c i st with
      | (Some _, _) => []
      | (None, st') => taken c evs st'
      end
  end.

Fixpoint entered (c : nat) (evs : list (path_event chan T)) st : list ReceivedDatagram :=
  match evs with
  | [] => []
  | Others w :: evs => entered c evs (MkPathState w (ps_peer st) (ps_source st))
  | Remote f :: evs => entered c evs (MkPathState (ps_world st) (f (ps_peer st)) (ps_source st))
  | Wake i :: evs =>
      match path_iter (E := E) c i st with
      | (Some _, st') => put_in st st'
      | (None, st') => put_in st st' ++ entered c evs st'
      end
  end.

(** What should enter: of the packets delivered, those that name the source of
    the first one, which is not empty, fit the MTU and find a free slot. *)
Definition eligible (M : nat) (s : string) (d : nat * UnboundedPacket) : Prop :=
  source_addr d.2 = s ∧ s ≠ "" ∧ length (pkt_payload d.2) ≤ M ∧ 0 < d.1.

#[local] Instance eligible_dec M s d : Decision (eligible M s d).
Proof. unfold eligible. apply _. Defined.

Definition first_source (l : list (nat * UnboundedPacket)) : string :=
  match l with
  | [] => ""
  | d :: _ => source_addr d.2
  end.

Definition datagrams (M : nat) (addr : SocketAddr) (s : string) (l : list (nat * UnboundedPacket))
    : list ReceivedDatagram :=
  (λ d, MkReceivedDatagram addr (pkt_payload d.2)) <$> filter (eligible M s) l.

(** One iteration puts in the queue what it should of the packet it reads. *)
Lemma put_in_same st st' :
  w_incoming (ps_world st') = w_incoming (ps_world st) → put_in st st' = [].
Proof. unfold put_in. intros ->. apply drop_all. Qed.

Lemma datagrams_one M addr s n p :
  datagrams M addr s [(n, p)] =
    if decide (eligible M s (n, p)) then [MkReceivedDatagram addr (pkt_payload p)] else [].
Proof. unfold datagrams. rewrite filter_cons, filter_nil. by case_decide. Qed.

Lemma on_packet_puts M c addr b st r st' :
  loop_inv M c addr st → on_packet (E := E) c b st = (r, st') →
  put_in st st' =
    match decode_packet b with
    | Some p => datagrams M addr (default (source_addr p) (ps_source st)) [(free_slots st, p)]
    | None => []
    end.
Proof.
  intros I. unfold on_packet. destruct (decode_packet b) as [p|];
    [|by intros [= <- <-]; apply put_in_same].
  rewrite datagrams_one. destruct (decide (source_addr p = "")) as [He|He].
  { intros [= <- <-]. rewrite decide_False; [by apply put_in_same|]. intros (Hs & Hne & _). simpl in *; congruence. }
  assert (Hoff : ∀ source r st', offer (E := E) c (pkt_payload p)
      (MkPathState (ps_world st) (ps_peer st) source) = (r, st') →
    put_in st st' = if decide (length (pkt_payload p) ≤ M ∧ 0 < free_slots st)
                    then [MkReceivedDatagram addr (pkt_payload p)] else []).
  { intros source r0 st0 Ho.
    destruct (offer_cases M c addr (pkt_payload p) (MkPathState (ps_world st) (ps_peer st) source) I)
      as (st1 & Ho1 & _ & _ & _ & _ & Hq).
    rewrite Ho1 in Ho. injection Ho as _ <-. unfold put_in, free_slots. rewrite Hq. clear Ho1 Hq. simpl.
    case_decide; case_decide; try lia; [by rewrite drop_app_length|apply drop_all]. }
  unfold check_source. destruct (ps_source st) as [s|]; simpl.
  - destruct (decide (s = source_addr p)) as [->|Hs].
    + intros Ho. rewrite (Hoff _ _ _ Ho). apply decide_ext. unfold eligible; simpl. tauto.
    + intros [= <- <-]. rewrite decide_False; [by apply put_in_same|]. by intros (? & _).
  - intros Ho. rewrite (Hoff _ _ _ Ho). apply decide_ext. unfold eligible; simpl. tauto.
Qed.

Lemma on_outgoing_puts c st r st' : on_outgoing (E := E) c st = (r, st') → put_in st st' = [].
Proof.
  intros Ho. apply put_in_same. unfold on_outgoing in Ho.
  assert (Hn : ∀ r w, next_outgoing c (ps_world st) = Some (r, w) → w_incoming w = w_incoming (ps_world st)).
  { intros r0 w. unfold next_outgoing. destruct (w_paths _ !! c); simpl; [|done].
    destruct (w_chans _ !! c); simpl; [|done]. destruct (mpsc_poll_recv _). by intros [= <- <-]. }
  destruct (next_outgoing c (ps_world st)) as [[[[b|]|] w]|]; simpl in *; [..|by simplify_eq].
  - destruct (send_packet b (ps_peer st)) as [[[]|e] p']; simplify_eq; simpl; eauto.
  - simplify_eq. simpl. eauto.
  - by simplify_eq.
Qed.

Lemma path_iter_puts M c addr i st r st' :
  loop_inv M c addr st → path_iter (E := E) c i st = (r, st') →
  put_in st st' =
    match iter_packet i st with
    | Some p => datagrams M addr (default (source_addr p) (ps_source st)) [(free_slots st, p)]
    | None => []
    end.
Proof.
  intros I. unfold path_iter, iter_packet. destruct i; [by intros [= <- <-]; apply put_in_same|].
  destruct (recv_packet (ps_peer st)) as [[[[b|]|e]|] peer]; simpl.
  - intros Ho. exact (on_packet_puts M c addr b (MkPathState (ps_world st) peer (ps_source st)) r st' I Ho).
  - intros [= <- <-]. by apply put_in_same.
  - intros [= <- <-]. by apply put_in_same.
  - intros Ho. exact (on_outgoing_puts c (MkPathState (ps_world st) peer (ps_source st)) r st' Ho).
Qed.

(** A continuing iteration keeps the pinned source, or pins the source of the
    packet it took. *)
Lemma path_iter_source M c addr i st st' :
  loop_inv M c addr st → path_iter (E := E) c i st = (None, st') →
  match iter_packet i st with
  | Some p => source_addr p ≠ "" ∧ ps_source st' = Some (source_addr p) ∧
              (∀ s, ps_source st = Some s → s = source_addr p)
  | None => ps_source st' = ps_source st
  end.
Proof.
  unfold path_iter, iter_packet. intros (Hr & Hs & Hc) Hp.
  destruct i; [done|].
  destruct (recv_packet (ps_peer st)) as [[[[b|]|e]|] peer]; simpl in *; [|done..|].
  - unfold on_packet in Hp. destruct (decode_packet b) as [pk|]; [|done].
    case_decide; [done|]. split; [done|].
    assert (Hoff : ∀ source, ∃ r st'', offer (E := E) c (pkt_payload pk)
      (MkPathState (ps_world st) peer source) = (r, st'') ∧ ps_source st'' = source).
    { intros source. edestruct (offer_cases M c addr (pkt_payload pk)) as (st'' & Hoff & _ & Hsrc & _);
        [|by eexists _, st'']. done. }
    unfold check_source in Hp. simpl in Hp.
    destruct (ps_source st) as [s|]; [case_decide|]; simpl in Hp; [subst s| done |].
    + destruct (Hoff (Some (source_addr pk))) as (r & st'' & Ho & ?). rewrite Ho in Hp. naive_solver.
    + destruct (Hoff (Some (source_addr pk))) as (r & st'' & Ho & ?). rewrite Ho in Hp. naive_solver.
  - unfold on_outgoing in Hp. simpl in Hp.
    destruct (next_outgoing c (ps_world st)) as [[[[b|]|] w]|]; [..|by simplify_eq].
    + destruct (send_packet b peer) as [[[]|e] peer']; by simplify_eq.
    + by simplify_eq.
    + by simplify_eq.
Qed.

Lemma entered_exact M c addr evs st :
  loop_inv M c addr st → events_ok M c evs st →
  entered c evs st =
    datagrams M addr (default (first_source (taken c evs st)) (ps_source st)) (taken c evs st).
Proof.
  revert st. induction evs as [|[i|w'|f] evs IH]; intros st I; [done|..]; cbn [entered taken events_ok].
  - destruct (path_iter c i st) as [r s1] eqn:Hi. pose proof (path_iter_puts _ _ _ _ _ _ _ I Hi) as Hp.
    destruct r as [r|].
    + intros _. rewrite Hp, app_nil_r. by destruct (iter_packet i st).
    + intros Hev. pose proof (path_iter_source _ _ _ _ _ _ I Hi) as Hsrc.
      rewrite Hp, IH by eauto using path_iter_inv. destruct (iter_packet i st) as [p|]; simpl.
      * destruct Hsrc as (_ & -> & Heq). simpl.
        assert (default (source_addr p) (ps_source st) = source_addr p) as ->
          by (destruct (ps_source st); simpl; eauto).
        unfold datagrams. by rewrite <- fmap_app, <- filter_app.
      * by rewrite Hsrc.
  - intros [(Hsteps & Hpath & Hsock) Hev]. rewrite IH; [done| |done].
    destruct I as (? & ? & ?). unfold loop_inv; simpl. rewrite Hpath. eauto using reachable_steps.
  - intros Hev. by rewrite IH.
Qed.

(** C25: one path, one source: over a whole run of a path, its last iteration
    included, the datagrams the path puts into the socket's queue are exactly the
    payloads of the packets the peer delivered that name the source identity of the
    first one, fit the MTU and found a free slot, in order, each as a datagram from
    the path's synthetic address.  A packet of another source, or of an empty one,
    never enters; whoever interleaves with the loop cannot change that. *)
Theorem path_single_source M addr cap evs peer w c w1 :
  reachable M w → add_path addr cap w = Some (c, w1) →
  events_ok M c evs (MkPathState w1 peer None) →
  let start := MkPathState w1 peer None in
  let s := first_source (taken c evs start) in
  entered c evs start =
    (λ d, MkReceivedDatagram addr (pkt_payload d.2)) <$> filter (eligible M s) (taken c evs start).
Proof.
  intros Hr Ha Hev start s. apply entered_exact; [|done]. by eapply add_path_inv.
Qed.

(** ** Translation of datagrams *)

(** Ingress: when the peer delivers an enveloped packet of the path's source,
    the payload enters the socket's queue as a datagram from the path's synthetic
    address; when the queue is full it is dropped and the path goes on; over the
    MTU it ends the path with that error; an empty or a different source ends it
    with the error that says so.  The socket is otherwise unchanged. *)
Theorem ingress_translated `{!JsonTextLaws, !Base64Laws} M c addr st peer' src payload :
  loop_inv M c addr st →
  recv_packet (ps_peer st) = (Ready (Ok (Some (encode_packet (MkPacket src payload)))), peer') →
  let q := view (w_incoming (ps_world st)) in
  ∃ r st', path_iter (E := E) c false st = (r, st') ∧ ps_peer st' = peer' ∧
    w_chans (ps_world st') = w_chans (ps_world st) ∧
    w_socket (ps_world st') = w_socket (ps_world st) ∧
    if decide (src = "") then r = Some (Err EmptySource)
    else match ps_source st with
    | Some s => if decide (s = src) then True else r = Some (Err (SourceChanged s src))
    | None => True
    end ∧
    (src ≠ "" → (∀ s, ps_source st = Some s → s = src) →
      q_items (view (w_incoming (ps_world st'))) =
        (if decide (length payload ≤ M ∧ length (q_items q) < q_cap q)
         then q_items q ++ [MkReceivedDatagram addr payload] else q_items q) ∧
      r = if decide (length payload ≤ M) then None
          else Some (Err (Receive (Oversize (length payload) M)))).
Proof.
  intros I Hrecv q. unfold path_iter; simpl.
  rewrite Hrecv. simpl. unfold on_packet. rewrite decode_encode_packet. simpl.
  case_decide as Hsrc; [by do 2 eexists; split_and!|].
  assert (Hoff : ∀ source, loop_inv M c addr (MkPathState (ps_world st) peer' source)) by done.
  unfold check_source. destruct (ps_source st) as [s|]; [case_decide as Heq|].
  - destruct (offer_cases M c addr payload _ (Hoff (Some s))) as (st' & -> & ? & ? & ? & ? & ?).
    by eexists _, st'; split_and!.
  - do 2 eexists. split_and!; try done. intros _ Hall. by destruct (Heq (Hall s eq_refl)).
  - destruct (offer_cases M c addr payload _ (Hoff (Some src))) as (st' & -> & ? & ? & ? & ? & ?).
    by eexists _, st'; split_and!.
Qed.

(** Egress: with nothing to read from the peer, the oldest datagram Quinn
    routed to the path leaves the path's queue and is sent to the peer as it is,
    without an envelope; a failed send ends the path; with an empty queue the
    iteration waits and changes nothing.  Cancellation comes before all of it and
    touches neither the peer nor the socket. *)
Theorem egress_translated M c addr st peer :
  loop_inv M c addr st → recv_packet (ps_peer st) = (Pending, peer) →
  path_iter (E := E) c true st = (Some (Ok PathCancelled), st) ∧
  ∃ ch, w_chans (ps_world st) !! c = Some ch ∧
  match q_items (view ch) with
  | [] => path_iter (E := E) c false st = (None, MkPathState (ps_world st) peer (ps_source st))
  | b :: rest => ∃ ch', q_items (view ch') = rest ∧
      path_iter (E := E) c false st =
        (match (send_packet b peer).1 with Ok _ => None | Err e => Some (Err (Transport e)) end,
         MkPathState (set_chans (<[c := ch']> (w_chans (ps_world st))) (ps_world st))
           (send_packet b peer).2 (ps_source st))
  end.
Proof.
  intros (Hr%reachable_inv & Hs & Hp) Hrecv. split; [done|].
  destruct (inv_path _ _ Hr _ _ Hp) as (_ & ch & Hch & _ & Hy & Hn). exists ch. split; [done|].
  unfold path_iter. rewrite Hrecv. unfold on_outgoing, next_outgoing. simpl.
  rewrite Hp. simpl. rewrite Hch. simpl.
  destruct (mpsc_poll_recv ch) as [r ch'] eqn:Ep.
  pose proof (mpsc_poll_recv_fst ch) as Hf. pose proof (mpsc_poll_recv_snd ch) as Hsnd.
  rewrite Ep in Hf, Hsnd. simpl in Hf, Hsnd.
  destruct (q_poll_recv_cases (view ch)) as [(x&l&Hi&Hq)|[(Hi&Htx&Hq)|(Hi&_&Hq)]];
    rewrite Hi, Hq in *; simpl in *; subst r.
  - exists ch'. split; [by rewrite Hsnd|]. by destruct (send_packet x peer) as [[[]|e] peer'].
  - exfalso. assert (¬ routed (ps_world st) c) as Hnr by (intros Hr'; specialize (Hy Hr'); lia).
    specialize (Hn Hnr). lia.
  - done.
Qed.
End path_properties.

(** ** A concrete run *)
Module PathDemo.
Import Demo.

#[local] Existing Instance Script.transport.
#[local] Existing Instance gen_json_text.
#[local] Existing Instance gen_json_text_laws.
#[local] Existing Instance base64_standard.
#[local] Existing Instance base64_standard_laws.

(** Two packets of one source, then one of another. *)
Definition feed : Script.t :=
  Script.Mk [Ok (Some (encode_packet (MkPacket "a" [x01])));
             Ok (Some (encode_packet (MkPacket "b" [x02])))] 9.

Definition events : list (path_event Queue Script.t) := [Wake false; Wake false].

Definition start : path_state Queue Script.t := MkPathState w1 feed None.

Lemma start_inv : loop_inv 4 0 peer start.
Proof.
  eapply (add_path_inv 4 peer 2 w0 0 w1 feed); [|reflexivity].
  exists here, 2, w0. split; [exact w0_created|constructor].
Qed.

Lemma w0_reachable : reachable 4 w0.
Proof. exists here, 2, w0. split; [exact w0_created|constructor]. Qed.

Lemma events_fine : events_ok (E := nat) 4 0 events start.
Proof. vm_compute. exact I. Qed.

Definition ended : path_state Queue Script.t :=
  match run_consumer_path (E := nat) peer 2 events feed w0 with
  | Some (_, st) => st
  | None => start
  end.

Example second_source_ends_the_path :
  run_consumer_path (E := nat) peer 2 events feed w0 =
  Some (Some (Err (SourceChanged "a" "b")), ended).
Proof. vm_compute. reflexivity. Qed.

Lemma path_never_ends_socket_closed_witness :
  run_consumer_path (E := nat) peer 2 events feed w0 =
    Some (Some (Err (SourceChanged "a" "b")), ended) ∧
  (Err (SourceChanged "a" "b") : result ConsumerPathEnd (ConsumerPathError nat)) ≠ Ok PathSocketClosed.
Proof.
  split; [exact second_source_ends_the_path|].
  exact (path_never_ends_socket_closed 4 peer 2 events feed w0 0 w1 _ ended
    w0_reachable eq_refl events_fine second_source_ends_the_path).
Defined.

Lemma path_end_keeps_socket_witness : is_Some (w_socket (ps_world ended)).
Proof.
  exact (proj1 (path_end_keeps_socket 4 peer 2 events feed w0 0 w1 _ ended
    w0_reachable eq_refl events_fine second_source_ends_the_path)).
Defined.

(** The second packet names another source: it was delivered with a free slot,
    and only the first one is in the queue. *)
Lemma path_single_source_witness :
  taken (E := nat) 0 events start = [(2, MkPacket "a" [x01]); (1, MkPacket "b" [x02])] ∧
  entered (E := nat) 0 events start = [MkReceivedDatagram peer [x01]].
Proof.
  split; [vm_compute; reflexivity|].
  rewrite (path_single_source 4 peer 2 events feed w0 0 w1 w0_reachable eq_refl events_fine).
  vm_compute. reflexivity.
Defined.

Lemma ingress_translated_witness :
  ∃ r st', path_iter (E := nat) 0 false start = (r, st') ∧
    q_items (view (w_incoming (ps_world st'))) = [MkReceivedDatagram peer [x01]] ∧ r = None.
Proof.
  assert (Hrecv : recv_packet (ps_peer start) =
    (Ready (Ok (Some (encode_packet (MkPacket "a" [x01])))),
     Script.Mk [Ok (Some (encode_packet (MkPacket "b" [x02])))] 9)) by reflexivity.
  destruct (ingress_translated (E := nat) 4 0 peer start _ "a" [x01] start_inv Hrecv)
    as (r & st' & Hi & _ & _ & _ & _ & Hq).
  exists r, st'. split; [exact Hi|]. exact (Hq ltac:(discriminate) ltac:(discriminate)).
Defined.

Definition idle : path_state Queue Script.t := MkPathState w1 (Script.Mk [] 9) None.

Lemma egress_translated_witness : path_iter (E := nat) 0 false idle = (None, idle).
Proof.
  assert (Hrecv : recv_packet (ps_peer idle) = (Pending, ps_peer idle)) by reflexivity.
  destruct (egress_translated (E := nat) 4 0 peer idle _ start_inv Hrecv) as (_ & ch & Hch & Hcase).
  assert (Hq : q_items (view ch) = []).
  { assert (w_chans (ps_world idle) !! 0 = Some (q_clone_tx (q_new 2))) as Hc by reflexivity.
    rewrite Hc in Hch. by injection Hch as <-. }
  rewrite Hq in Hcase. exact Hcase.
Defined.
End PathDemo.
