(* ===== verification/ConsumerSystem.v ===== *)
(** The whole consumer: any number of sessions, one after the other and side by
    side, on one virtual UDP socket and one address allocator, with Quinn on top.

    [ConsumerConfig] is cloned into every session, and its [socket] and
    [path_allocator] are [Arc]s: all sessions of all [maintain_consumer] loops share
    them.  Here the sessions are one list of attempts, each at the point of
    [run_consumer_session] from which it touches the shared state, and a run is any
    interleaving of their steps with those of Quinn.  Each peer is observed
    ([Logged]): what it delivered and what it was sent is written down, and so are
    the datagrams Quinn sent and read. *)
From S2P Require Import Prelude Tokio Net Serde Protocol Relay VirtualUdp ConsumerPath.

Section system.
Context {chan : Type → Type} `{!Mpsc chan} `{JsonText} `{Base64}.
Context {E T : Type} `{!DatagramTransport E T}.

(** An attempt: before its data channel opens, with an address but not yet on the
    socket, on its path, or over ([None]: the session's future was dropped). *)
Inductive attempt :=
| Negotiating
| Allocated (a : SocketAddr) (peer : Logged T)
| OnPath (a : SocketAddr) (c : nat) (peer : Logged T) (source : option string)
| Ended (a : SocketAddr) (peer : Logged T)
    (r : option (result ConsumerPathEnd (ConsumerPathError E)))
| Failed (r : option (ConsumerPathError E)).

(** [sy_flight] are the sends of Quinn that have read the route map and not yet
    offered the datagram to the route. *)
Record system := MkSystem {
  sy_world : World chan;
  sy_next_host : Z;
  sy_attempts : list attempt;
  sy_flight : list (SocketAddr * option nat * bytes);
  sy_got : list (SocketAddr * bytes);
  sy_sent : list (SocketAddr * bytes)
}.

Inductive system_event :=
| Begin
| Open (k : nat) (peer : T)
| Enter (k : nat) (queue_capacity : nat)
| Iterate (k : nat) (cancelled : bool)
| PeerMoves (k : nat) (f : T → T)
| Abort (k : nat)
| SendStart (t : Transmit)
| SendFinish (j : nat)
| Poll (buf : bytes).

Definition system_new (addr : SocketAddr) : option system :=
  w ← new addr; Some (MkSystem w allocator_new [] [] [] []).

Definition set_attempt (k : nat) (x : attempt) (s : system) : system :=
  MkSystem (sy_world s) (sy_next_host s) (<[k := x]> (sy_attempts s)) (sy_flight s) (sy_got s) (sy_sent s).
Definition set_world (w : World chan) (s : system) : system :=
  MkSystem w (sy_next_host s) (sy_attempts s) (sy_flight s) (sy_got s) (sy_sent s).

(** [path_allocator.allocate()?]. *)
Definition open_step (k : nat) (peer : T) (s : system) : system :=
  let '(r, next) := allocate (E := E) (sy_next_host s) in
  let s := MkSystem (sy_world s) next (sy_attempts s) (sy_flight s) (sy_got s) (sy_sent s) in
  match r with
  | Ok a => set_attempt k (Allocated a (watch peer)) s
  | Err e => set_attempt k (Failed (Some e)) s
  end.

(** Leaving [run_consumer_path] drops the path. *)
Definition leave (k : nat) (a : SocketAddr) (c : nat) (peer : Logged T)
    (r : option (result ConsumerPathEnd (ConsumerPathError E))) (s : system) : option system :=
  w ← drop_path c (sy_world s);
  Some (set_attempt k (Ended a peer r) (set_world w s)).

Definition iterate_step (k : nat) (cancelled : bool) (s : system) : option system :=
  match sy_attempts s !! k with
  | Some (OnPath a c peer source) =>
      let '(r, st) := path_iter (E := E) c cancelled (MkPathState (sy_world s) peer source) in
      let s := set_world (ps_world st) s in
      match r with
      | None => Some (set_attempt k (OnPath a c (ps_peer st) (ps_source st)) s)
      | Some r => leave k a c (ps_peer st) (Some r) s
      end
  | _ => None
  end.

(** [Poll]: Quinn reads with one buffer; [SendStart] and [SendFinish] are the two
    halves of [try_send]. *)
Definition system_step (ev : system_event) (s : system) : option system :=
  match ev with
  | Begin =>
      Some (MkSystem (sy_world s) (sy_next_host s) (sy_attempts s ++ [Negotiating])
              (sy_flight s) (sy_got s) (sy_sent s))
  | Open k peer =>
      match sy_attempts s !! k with
      | Some Negotiating => Some (open_step k peer s)
      | _ => None
      end
  | Enter k cap =>
      match sy_attempts s !! k with
      | Some (Allocated a peer) =>
          '(c, w) ← add_path a cap (sy_world s);
          Some (set_attempt k (OnPath a c peer None) (set_world w s))
      | _ => None
      end
  | Iterate k cancelled => iterate_step k cancelled s
  | PeerMoves k f =>
      match sy_attempts s !! k with
      | Some (Allocated a peer) =>
          Some (set_attempt k (Allocated a (MkLogged (f (inner peer)) (sent peer) (received peer))) s)
      | Some (OnPath a c peer source) =>
          Some (set_attempt k (OnPath a c (MkLogged (f (inner peer)) (sent peer) (received peer)) source) s)
      | _ => None
      end
  | Abort k =>
      match sy_attempts s !! k with
      | Some Negotiating => Some (set_attempt k (Failed None) s)
      | Some (Allocated a peer) => Some (set_attempt k (Ended a peer None) s)
      | Some (OnPath a c peer _) => leave k a c peer None s
      | _ => None
      end
  | SendStart t =>
      so ← w_socket (sy_world s);
      if decide (mtu so < length (contents t)) then Some s
      else
        Some (MkSystem (sy_world s) (sy_next_host s) (sy_attempts s)
                (sy_flight s ++ [(destination t, lookup_route (destination t) (sy_world s), contents t)])
                (sy_got s) (sy_sent s))
  | SendFinish j =>
      '(dst, route, b) ← sy_flight s !! j;
      Some (MkSystem (deliver route b (sy_world s)) (sy_next_host s) (sy_attempts s)
              (delete j (sy_flight s)) (sy_got s) (sy_sent s ++ [(dst, b)]))
  | Poll buf =>
      match poll_recv [buf] [MkRecvMeta (SocketAddrV4 0 0) 0 0 None] (sy_world s) with
      | Some (Ready (Ok 1), [buf'], [m], w) =>
          Some (MkSystem w (sy_next_host s) (sy_attempts s) (sy_flight s)
                  (sy_got s ++ [(meta_addr m, take (meta_len m) buf')]) (sy_sent s))
      | Some (Pending, _, _, w) => Some (set_world w s)
      | _ => None
      end
  end.

Fixpoint system_run (evs : list system_event) (s : system) : option system :=
  match evs with
  | [] => Some s
  | ev :: evs => s ← system_step ev s; system_run evs s
  end.

(** What there is to see of an attempt: its address and its peer. *)
Definition attempt_addr (x : attempt) : option SocketAddr :=
  match x with
  | Allocated a _ | OnPath a _ _ _ | Ended a _ _ => Some a
  | Negotiating | Failed _ => None
  end.
Definition attempt_peer (x : attempt) : option (Logged T) :=
  match x with
  | Allocated _ p | OnPath _ _ p _ | Ended _ p _ => Some p
  | Negotiating | Failed _ => None
  end.
Definition attempt_chan (x : attempt) : option nat :=
  match x with OnPath _ c _ _ => Some c | _ => None end.

(** The datagrams of an address in a transcript, and the payloads of the packets
    a peer delivered. *)
Definition of_addr (a : SocketAddr) (l : list (SocketAddr * bytes)) : list bytes :=
  (filter (λ d, d.1 = a) l).*2.
Definition payloads (packets : list bytes) : list bytes :=
  omap (λ b, pkt_payload <$> decode_packet b) packets.
Definition live_attempts (s : system) : list nat := omap attempt_chan (sy_attempts s).
End system.
Arguments attempt : clear implicits.
Arguments system : clear implicits.
Arguments system_event : clear implicits.

Section system_properties.
Context {chan : Type → Type} `{!Mpsc chan} `{!MpscSpec chan} `{JsonText} `{Base64}.
Context {E T : Type} `{!DatagramTransport E T}.
Implicit Types (s : system chan E T) (w : World chan) (x : attempt E T) (p : Logged T).

(** Computes with the system's own records only. *)
Ltac sys_simpl :=
  cbn [sy_world sy_next_host sy_attempts sy_flight sy_got sy_sent set_attempt set_world
       attempt_addr attempt_peer attempt_chan].

Abbreviation iter := (path_iter (chan := chan) (E := E) (T := Logged T)).

(** *** What one iteration of a path does, seen from the switch
    Either a packet was read from the peer, and at most its payload entered the
    inbox, or a datagram left the path's outbox, and at most it was sent. *)
Definition iter_effect (a : SocketAddr) (c : nat) (σ σ' : Switch.t) p p' : Prop :=
  Switch.table σ' = Switch.table σ ∧ Switch.attached σ' = Switch.attached σ ∧
  ((Switch.outbox σ' = Switch.outbox σ ∧ sent p' = sent p ∧
    ∃ more, payloads (received p') = payloads (received p) ++ more ∧
      (Switch.inbox σ' = Switch.inbox σ ∨
       ∃ b, more = [b] ∧ Switch.inbox σ' = Switch.inbox σ ++ [(a, b)])) ∨
   (Switch.inbox σ' = Switch.inbox σ ∧ received p' = received p ∧
    ∃ b l, Switch.outbox σ !! c = Some (b :: l) ∧ Switch.outbox σ' = <[c := l]> (Switch.outbox σ) ∧
      (sent p' = sent p ++ [b] ∨ sent p' = sent p))).

Lemma iter_effect_refl a c σ p p' :
  sent p' = sent p → (∃ more, payloads (received p') = payloads (received p) ++ more) →
  iter_effect a c σ σ p p'.
Proof. intros Hs [more Hm]. hnf. split_and!; [done..|]. left. split_and!; [done..|]. exists more. auto. Qed.

Lemma switch_ingress σ c b r σ' a :
  Switch.step σ (Switch.Ingress c b r) σ' → Switch.attached σ !! c = Some a →
  σ' = σ ∨
  σ' = Switch.Mk (Switch.inbox σ ++ [(a, b)]) (Switch.outbox σ) (Switch.table σ) (Switch.attached σ).
Proof. inversion 1; subst; simpl; intros; simplify_eq; auto. Qed.

Lemma switch_out σ c b σ' :
  Switch.step σ (Switch.PathOut c (Some b)) σ' →
  ∃ l, Switch.outbox σ !! c = Some (b :: l) ∧
    σ' = Switch.Mk (Switch.inbox σ) (<[c := l]> (Switch.outbox σ)) (Switch.table σ) (Switch.attached σ).
Proof. inversion 1; subst; simpl; eauto. Qed.

Lemma abs_attached w c q : w_paths w !! c = Some q → Switch.attached (abs w) !! c = Some (VirtualUdp.remote q).
Proof. intros Hp. unfold abs. simpl. by rewrite lookup_fmap, Hp. Qed.

(** The payloads a peer delivered, one packet later. *)
Lemma payloads_snoc l b : payloads (l ++ [b]) = payloads l ++ option_list (pkt_payload <$> decode_packet b).
Proof. unfold payloads. rewrite omap_app. simpl. by destruct (decode_packet b). Qed.

Lemma offer_effect M a c payload w p src r st' more :
  loop_inv M c a (MkPathState w p src) → offer (E := E) c payload (MkPathState w p src) = (r, st') →
  ∀ p0, sent p = sent p0 → payloads (received p) = payloads (received p0) ++ more → more = [payload] →
  iter_effect a c (abs w) (abs (ps_world st')) p0 (ps_peer st').
Proof.
  intros (Hr & _ & Hp) Ho p0 Hs Hm ->. unfold offer in Ho. simpl in *.
  destruct (try_receive c payload w) as [[r0 w']|] eqn:Ht.
  - assert (st' = MkPathState w' p src) as -> by (destruct r0 as [|[]]; by simplify_eq). simpl.
    pose proof (sim_try_receive _ _ _ _ _ _ (reachable_inv _ _ Hr) Ht) as Hstep.
    destruct (switch_ingress _ _ _ _ _ a Hstep (abs_attached _ _ _ Hp)) as [->| ->].
    + apply iter_effect_refl; eauto.
    + hnf. split_and!; [done..|]. left. split_and!; [done..|]. exists [payload]. split; [done|right; eauto].
  - simplify_eq. apply iter_effect_refl; eauto.
Qed.

Lemma path_iter_effect M a c i w p src r st' :
  loop_inv M c a (MkPathState w p src) → iter c i (MkPathState w p src) = (r, st') →
  iter_effect a c (abs w) (abs (ps_world st')) p (ps_peer st').
Proof.
  intros I. pose proof I as (Hr & _ & Hp). unfold path_iter. destruct i.
  { intros [= <- <-]. apply iter_effect_refl; [done|]. exists []. by rewrite app_nil_r. }
  simpl. destruct (recv_packet (inner p)) as [[[[b|]|e]|] t] eqn:Hrecv; simpl.
  - unfold on_packet. set (p' := MkLogged t (sent p) (received p ++ [b])).
    pose proof (payloads_snoc (received p) b) as Hpay.
    destruct (decode_packet b) as [pk|] eqn:Hd; simpl in Hpay.
    2:{ intros [= <- <-]. apply iter_effect_refl; simpl; eauto. }
    case_decide; [intros [= <- <-]; apply iter_effect_refl; simpl; eauto|].
    simpl. destruct (check_source src (source_addr pk)) as [src'|x].
    + intros Ho. eapply offer_effect in Ho; [exact Ho| |done| |done]; [|exact Hpay].
      exact I.
    + intros [= <- <-]. apply iter_effect_refl; simpl; eauto.
  - intros [= <- <-]. apply iter_effect_refl; [done|]. exists []. by rewrite app_nil_r.
  - intros [= <- <-]. apply iter_effect_refl; [done|]. exists []. by rewrite app_nil_r.
  - unfold on_outgoing. simpl. set (p' := MkLogged t (sent p) (received p)).
    assert (Hidle : iter_effect a c (abs w) (abs w) p p').
    { apply iter_effect_refl; [done|]. exists []. by rewrite app_nil_r. }
    destruct (next_outgoing c w) as [[[[b|]|] w']|] eqn:Hn; [|..|by intros [= <- <-]].
    + destruct (switch_out _ _ _ _ (sim_next_outgoing _ _ _ _ _ (reachable_inv _ _ Hr) Hn)) as (l & Hl & Habs).
      simpl. destruct (send_packet b t) as [r0 t'] eqn:Hsend. intros Hres.
      assert (Hst : ps_world st' = w' ∧ received (ps_peer st') = received p ∧
        (sent (ps_peer st') = sent p ++ [b] ∨ sent (ps_peer st') = sent p)).
      { destruct r0; simplify_eq/=; eauto. }
      destruct Hst as (-> & Hrec & Hs). rewrite Habs. hnf. split_and!; [done..|]. right.
      split_and!; [done..|]. exists b, l. auto.
    + intros [= <- <-]. by destruct (next_outgoing_not_closed M w c _ w' (reachable_inv _ _ Hr) Hn).
    + by intros [= <- <-].
Qed.

(** *** The invariant *)

(** The address of host [h] of the block, and those handed out before [n]. *)
Definition host_addr (h : Z) : SocketAddr := SocketAddrV4 (CGNAT_BASE + h) SYNTHETIC_PATH_PORT.
Definition used (n : Z) (a : SocketAddr) : Prop := ∃ h, (FIRST_PATH_HOST ≤ h < n)%Z ∧ a = host_addr h.

Lemma used_mono n n' a : (n ≤ n')%Z → used n a → used n' a.
Proof. intros Hle (h & ? & ->). exists h. split; [lia|done]. Qed.

Lemma allocate_host n r n' :
  (FIRST_PATH_HOST ≤ n ≤ CGNAT_HOSTS)%Z → allocate (E := E) n = (r, n') →
  (n ≤ n' ≤ CGNAT_HOSTS)%Z ∧ ∀ a, r = Ok a → n' = (n + 1)%Z ∧ a = host_addr n.
Proof.
  unfold allocate. intros Hn. assert (Hb : CGNAT_HOSTS = 4194304%Z) by reflexivity.
  assert (Hc : CGNAT_BASE = 1681915904%Z) by reflexivity. unfold FIRST_PATH_HOST in Hn.
  case_decide; intros [= <- <-]; [|split; [lia|done]].
  rewrite !wrap_small by lia. split; [lia|]. by intros a [= <-].
Qed.

Lemma used_fresh n : ¬ used n (host_addr n).
Proof. intros (h & Hh & Heq). unfold host_addr in Heq. injection Heq as Heq. lia. Qed.

(** What is in the path's outbox, while it is on the socket. *)
Definition pending (σ : Switch.t) x : list bytes :=
  match attempt_chan x with Some c => default [] (Switch.outbox σ !! c) | None => [] end.

(** A path's two flows: Quinn's reads followed by what waits for it are
    among what the peer delivered; the peer's packets followed by what waits for it
    are among what Quinn sent; in order, none twice. *)
Definition flows (σ : Switch.t) (got snt : list (SocketAddr * bytes)) x (a : SocketAddr) p : Prop :=
  (of_addr a got ++ of_addr a (Switch.inbox σ)) `sublist_of` payloads (received p) ∧
  (sent p ++ pending σ x) `sublist_of` of_addr a snt.

Record sysinv (M : nat) s : Prop := {
  si_reach : reachable M (sy_world s);
  si_socket : is_Some (w_socket (sy_world s));
  si_host : (FIRST_PATH_HOST ≤ sy_next_host s ≤ CGNAT_HOSTS)%Z;
  si_addr : ∀ k x a, sy_attempts s !! k = Some x → attempt_addr x = Some a → used (sy_next_host s) a;
  si_distinct : ∀ k k' x x' a, sy_attempts s !! k = Some x → sy_attempts s !! k' = Some x' →
    attempt_addr x = Some a → attempt_addr x' = Some a → k = k';
  si_path : ∀ k x a c, sy_attempts s !! k = Some x → attempt_addr x = Some a → attempt_chan x = Some c →
    w_paths (sy_world s) !! c = Some (MkPath a M) ∧ lookup_route a (sy_world s) = Some c;
  si_owner : ∀ c q, w_paths (sy_world s) !! c = Some q →
    ∃ k x, sy_attempts s !! k = Some x ∧ attempt_chan x = Some c;
  si_fresh : Forall (λ d, used (sy_next_host s) d.1) (Switch.inbox (abs (sy_world s)) ++ sy_got s);
  si_flight : ∀ dst c b, (dst, Some c, b) ∈ sy_flight s →
    c < w_next (sy_world s) ∧ ∀ q, w_paths (sy_world s) !! c = Some q → VirtualUdp.remote q = dst;
  si_flow : ∀ k x a p, sy_attempts s !! k = Some x → attempt_addr x = Some a → attempt_peer x = Some p →
    flows (abs (sy_world s)) (sy_got s) (sy_sent s) x a p
}.

(** A path has an address. *)
Lemma attempt_chan_addr x c : attempt_chan x = Some c → is_Some (attempt_addr x).
Proof. destruct x; simpl; by eauto. Qed.

(** Two attempts on one channel are one. *)
Lemma chan_distinct M s k k' x x' c :
  sysinv M s → sy_attempts s !! k = Some x → sy_attempts s !! k' = Some x' →
  attempt_chan x = Some c → attempt_chan x' = Some c → k = k'.
Proof.
  intros I Hk Hk' Hc Hc'.
  destruct (attempt_chan_addr _ _ Hc) as [a Ha]. destruct (attempt_chan_addr _ _ Hc') as [a' Ha'].
  destruct (si_path _ _ I _ _ _ _ Hk Ha Hc) as [Hp _].
  destruct (si_path _ _ I _ _ _ _ Hk' Ha' Hc') as [Hp' _].
  rewrite Hp in Hp'. injection Hp' as ->. by eapply si_distinct.
Qed.

(** Replacing attempt [k], together with whatever else of the state belongs to its
    address [a]; all other attempts keep what they had. *)
Lemma inv_replace M s s' k x x' a :
  sysinv M s → sy_attempts s !! k = Some x → sy_attempts s' = <[k := x']> (sy_attempts s) →
  (∀ k' y, k' ≠ k → sy_attempts s !! k' = Some y → attempt_addr y ≠ Some a) →
  (∀ b, attempt_addr x = Some b → b = a) → (∀ b, attempt_addr x' = Some b → b = a ∧ used (sy_next_host s') a) →
  (sy_next_host s ≤ sy_next_host s' ≤ CGNAT_HOSTS)%Z →
  reachable M (sy_world s') → is_Some (w_socket (sy_world s')) →
  (∀ c, attempt_chan x ≠ Some c → attempt_chan x' ≠ Some c →
     w_paths (sy_world s') !! c = w_paths (sy_world s) !! c ∧
     Switch.outbox (abs (sy_world s')) !! c = Switch.outbox (abs (sy_world s)) !! c) →
  (∀ b, b ≠ a → lookup_route b (sy_world s') = lookup_route b (sy_world s) ∧
     of_addr b (sy_got s' ) ++ of_addr b (Switch.inbox (abs (sy_world s'))) =
     of_addr b (sy_got s) ++ of_addr b (Switch.inbox (abs (sy_world s)))) →
  sy_sent s' = sy_sent s →
  (∀ c, attempt_chan x' = Some c →
     w_paths (sy_world s') !! c = Some (MkPath a M) ∧ lookup_route a (sy_world s') = Some c ∧
     ∀ k' y, k' ≠ k → sy_attempts s !! k' = Some y → attempt_chan y ≠ Some c) →
  (∀ c, attempt_chan x = Some c → attempt_chan x' ≠ Some c → w_paths (sy_world s') !! c = None) →
  Forall (λ d, used (sy_next_host s') d.1) (Switch.inbox (abs (sy_world s')) ++ sy_got s') →
  (∀ dst c b, (dst, Some c, b) ∈ sy_flight s' →
    c < w_next (sy_world s') ∧ ∀ q, w_paths (sy_world s') !! c = Some q → VirtualUdp.remote q = dst) →
  (∀ b p, attempt_addr x' = Some b → attempt_peer x' = Some p →
     flows (abs (sy_world s')) (sy_got s') (sy_sent s') x' a p) →
  sysinv M s'.
Proof.
  intros I Hk Hatt Hother Hx Hx' Hnext Hreach Hsock Hframe Hroute Hsent Hnew Hgone Hfresh Hflight Hflow.
  assert (Hcases : ∀ k' y, sy_attempts s' !! k' = Some y →
    (k' = k ∧ y = x') ∨ (k' ≠ k ∧ sy_attempts s !! k' = Some y)).
  { intros k' y. rewrite Hatt. destruct (decide (k' = k)) as [->|Hne].
    - rewrite list_lookup_insert_eq by (by eapply lookup_lt_Some). intros [= <-]. by left.
    - rewrite list_lookup_insert_ne by done. by right. }
  assert (Hchan : ∀ k' y c, k' ≠ k → sy_attempts s !! k' = Some y → attempt_chan y = Some c →
    attempt_chan x ≠ Some c ∧ attempt_chan x' ≠ Some c).
  { intros k' y c Hne Hy Hc. split; intros Hc'.
    - apply Hne. by eapply chan_distinct.
    - destruct (Hnew c Hc') as (_ & _ & Hno). by eapply (Hno k' y). }
  split; try done.
  - pose proof (si_host _ _ I). lia.
  - intros k' y b [[-> ->]|[Hne Hy]]%Hcases Hb.
    + by destruct (Hx' b Hb) as [-> ?].
    + eapply used_mono; [|by eapply si_addr]. lia.
  - intros k1 k2 y1 y2 b [[-> ->]|[Hn1 Hy1]]%Hcases [[-> ->]|[Hn2 Hy2]]%Hcases Hb1 Hb2; [done|..].
    + destruct (Hx' b Hb1) as [-> _]. by destruct (Hother k2 y2 Hn2 Hy2).
    + destruct (Hx' b Hb2) as [-> _]. by destruct (Hother k1 y1 Hn1 Hy1).
    + by eapply si_distinct.
  - intros k' y b c [[-> ->]|[Hne Hy]]%Hcases Hb Hc.
    + destruct (Hx' b Hb) as [-> _]. by destruct (Hnew c Hc) as (? & ? & _).
    + destruct (Hchan k' y c Hne Hy Hc) as [H1 H2]. destruct (Hframe c H1 H2) as [-> _].
      destruct (Hroute b) as [-> _]; [intros ->; by eapply Hother|]. by eapply si_path.
  - intros c q Hq. destruct (decide (attempt_chan x' = Some c)) as [Hc|Hc].
    { exists k, x'. rewrite Hatt, list_lookup_insert_eq by (by eapply lookup_lt_Some). done. }
    destruct (decide (attempt_chan x = Some c)) as [Hc'|Hc'].
    { rewrite (Hgone c Hc' Hc) in Hq. done. }
    destruct (Hframe c Hc' Hc) as [Hp _]. rewrite Hp in Hq.
    destruct (si_owner _ _ I c q Hq) as (k' & y & Hy & Hyc). exists k', y.
    rewrite Hatt, list_lookup_insert_ne; [done|]. intros <-. congruence.
  - intros k' y b p [[-> ->]|[Hne Hy]]%Hcases Hb Hp.
    + destruct (Hx' b Hb) as [-> _]. by eapply Hflow.
    + destruct (si_flow _ _ I _ _ _ _ Hy Hb Hp) as [H1 H2].
      destruct (Hroute b) as [_ Heq]; [intros ->; by eapply Hother|].
      split; [by rewrite Heq|]. rewrite Hsent. unfold pending in *.
      destruct (attempt_chan y) as [c|] eqn:Hc; [|done].
      destruct (Hchan k' y c Hne Hy Hc) as [Hc1 Hc2]. by destruct (Hframe c Hc1 Hc2) as [_ ->].
Qed.

(** *** What the operations of the socket leave alone *)

Lemma lookup_route_table a w : lookup_route a w = Switch.table (abs w) !! a.
Proof. unfold lookup_route, abs. simpl. by destruct (w_socket w). Qed.

Lemma switch_attach σ c a σ' :
  Switch.step σ (Switch.Attach c a) σ' →
  σ' = Switch.Mk (Switch.inbox σ) (<[c := []]> (Switch.outbox σ)) (<[a := c]> (Switch.table σ))
         (<[c := a]> (Switch.attached σ)).
Proof. by inversion 1; subst. Qed.

Lemma switch_detach σ c σ' :
  Switch.step σ (Switch.Detach c) σ' →
  Switch.inbox σ' = Switch.inbox σ ∧ Switch.outbox σ' = <[c := []]> (Switch.outbox σ) ∧
  ∀ a, Switch.table σ' !! a = if decide (Switch.table σ !! a = Some c) then None else Switch.table σ !! a.
Proof. by inversion 1; subst. Qed.

Lemma add_path_frame a cap w c w' :
  add_path a cap w = Some (c, w') →
  c = w_next w ∧ w_next w' = S c ∧ (∀ c', c' ≠ c → w_paths w' !! c' = w_paths w !! c').
Proof.
  unfold add_path. case_decide; [done|]. destruct (w_socket w) as [so|]; [|done]. simpl.
  destruct (routes so !! a); intros [= <- <-]; simpl; (split_and!; [done..|]);
    intros c' Hne; by rewrite lookup_insert_ne.
Qed.

Lemma drop_path_frame c w w' :
  drop_path c w = Some w' → w_paths w' = delete c (w_paths w) ∧ w_next w' = w_next w.
Proof.
  unfold drop_path. destruct (w_paths w !! c) as [q|]; [|done]. simpl. intros [= <-]. simpl.
  destruct (w_socket w) as [so|]; [|done].
  destruct (routes so !! VirtualUdp.remote q); [case_decide|]; done.
Qed.

Lemma path_iter_frame c i st r st' :
  iter c i st = (r, st') →
  w_paths (ps_world st') = w_paths (ps_world st) ∧ w_next (ps_world st') = w_next (ps_world st) ∧
  w_socket (ps_world st') = w_socket (ps_world st).
Proof.
  unfold path_iter. destruct i; [by intros [= <- <-]|].
  destruct (recv_packet (ps_peer st)) as [[[[b|]|e]|] t]; simpl; [|by intros [= <- <-]..|].
  - unfold on_packet. destruct (decode_packet b) as [pk|]; [|by intros [= <- <-]].
    case_decide; [by intros [= <- <-]|]. simpl.
    destruct (check_source _ _) as [src|x]; [|by intros [= <- <-]].
    unfold offer, try_receive. simpl. destruct (w_paths (ps_world st) !! c) as [q|]; simpl; [|by intros [= <- <-]].
    case_decide; [by intros [= <- <-]|]. destruct (mpsc_try_send _ _) as [[|[]] ch]; by intros [= <- <-].
  - unfold on_outgoing, next_outgoing. simpl.
    destruct (w_paths (ps_world st) !! c) as [q|]; simpl; [|by intros [= <- <-]].
    destruct (w_chans (ps_world st) !! c) as [ch|]; simpl; [|by intros [= <- <-]].
    destruct (mpsc_poll_recv ch) as [[[b|]|] ch']; [|by intros [= <- <-]..].
    destruct (send_packet b (inner t)) as [[|] t']; by intros [= <- <-].
Qed.

Lemma of_addr_app a l1 l2 : of_addr a (l1 ++ l2) = of_addr a l1 ++ of_addr a l2.
Proof. unfold of_addr. by rewrite filter_app, fmap_app. Qed.

Lemma of_addr_one a d : of_addr a [d] = if decide (d.1 = a) then [d.2] else [].
Proof. unfold of_addr. rewrite filter_cons, filter_nil. by case_decide. Qed.

(** Nothing has passed under an address that was not handed out. *)
Lemma of_addr_fresh a n l : Forall (λ d : SocketAddr * bytes, used n d.1) l → ¬ used n a → of_addr a l = [].
Proof.
  intros Hall Hn. induction Hall as [|d l Hd _ IH]; [done|].
  change (d :: l) with ([d] ++ l). rewrite of_addr_app, of_addr_one, IH. case_decide; [congruence|done].
Qed.

(** The others of an attempt that has address [a]. *)
Lemma others_distinct M s k x a :
  sysinv M s → sy_attempts s !! k = Some x → attempt_addr x = Some a →
  ∀ k' y, k' ≠ k → sy_attempts s !! k' = Some y → attempt_addr y ≠ Some a.
Proof. intros I Hk Ha k' y Hne Hy Hya. apply Hne. by eapply si_distinct. Qed.

Lemma flight_frame M s (w' : World chan) :
  sysinv M s → w_next (sy_world s) ≤ w_next w' →
  (∀ c q, c < w_next (sy_world s) → w_paths w' !! c = Some q → w_paths (sy_world s) !! c = Some q) →
  ∀ dst c b, (dst, Some c, b) ∈ sy_flight s →
    c < w_next w' ∧ ∀ q, w_paths w' !! c = Some q → VirtualUdp.remote q = dst.
Proof.
  intros I Hn Hp dst c b Hin. destruct (si_flight _ _ I dst c b Hin) as [Hlt Hq].
  split; [lia|]. eauto.
Qed.

(** *** Every step keeps it *)

(** Only attempt [k] changes, and keeps its address and its channel (or has
    none). *)
Lemma inv_attempt M s k x x' :
  sysinv M s → sy_attempts s !! k = Some x →
  attempt_addr x' = attempt_addr x → attempt_chan x' = attempt_chan x →
  (∀ p', attempt_peer x' = Some p' → ∃ p, attempt_peer x = Some p ∧ sent p' = sent p ∧ received p' = received p) →
  sysinv M (set_attempt k x' s).
Proof.
  intros I Hk Ha Hc Hp. destruct (attempt_addr x) as [a|] eqn:Hax.
  - eapply (inv_replace M s _ k x x' a); try done; simpl; try apply I.
    + by eapply others_distinct.
    + intros b [= <-]%(eq_trans (eq_sym Hax)). done.
    + rewrite Ha. intros b [= <-]. split; [done|]. by eapply si_addr.
    + pose proof (si_host _ _ I). lia.
    + rewrite Hc. intros c Hcx. destruct (si_path _ _ I _ _ _ _ Hk Hax Hcx) as [? ?].
      split_and!; [done..|]. intros k' y Hne Hy Hyc. apply Hne. by eapply chan_distinct.
    + intros c ? Hn. by rewrite Hc in Hn.
    + intros b p' Hb Hp'. destruct (Hp p' Hp') as (p & Hxp & Hs & Hr).
      destruct (si_flow _ _ I _ _ _ _ Hk Hax Hxp) as [H1 H2]. unfold flows, pending in *.
      by rewrite Hs, Hr, Hc.
  - eapply (inv_replace M s _ k x x' (host_addr (sy_next_host s))); try done; simpl; try apply I.
    + intros k' y _ Hy Hya. eapply used_fresh, si_addr; [exact I|done..].
    + by rewrite Hax.
    + by rewrite Ha.
    + pose proof (si_host _ _ I). lia.
    + rewrite Hc. intros c Hcx. destruct (attempt_chan_addr _ _ Hcx). congruence.
    + intros c Hcx. destruct (attempt_chan_addr _ _ Hcx). congruence.
    + rewrite Ha. done.
Qed.

Lemma inv_begin M s : sysinv M s →
  sysinv M (MkSystem (sy_world s) (sy_next_host s) (sy_attempts s ++ [Negotiating])
              (sy_flight s) (sy_got s) (sy_sent s)).
Proof.
  intros I.
  assert (Hc : ∀ k x, (sy_attempts s ++ [Negotiating]) !! k = Some x →
    sy_attempts s !! k = Some x ∨ x = Negotiating).
  { intros k x [?|[_ Hl]]%lookup_app_Some; [by left|right].
    apply list_lookup_singleton_Some in Hl as [_ <-]. done. }
  split; simpl; try apply I.
  - intros k x a [Hk| ->]%Hc; [by eapply si_addr|done].
  - intros k k' x x' a [Hk| ->]%Hc [Hk'| ->]%Hc; try done. by eapply si_distinct.
  - intros k x a c [Hk| ->]%Hc; [by eapply si_path|done].
  - intros c q Hq. destruct (si_owner _ _ I c q Hq) as (k & x & Hk & Hx). exists k, x.
    split; [by apply lookup_app_l_Some|done].
  - intros k x a p [Hk| ->]%Hc; [by eapply si_flow|done].
Qed.

Lemma inv_open M s k peer : sysinv M s → sy_attempts s !! k = Some Negotiating → sysinv M (open_step k peer s).
Proof.
  intros I Hk. unfold open_step.
  destruct (allocate (sy_next_host s)) as [r n] eqn:Hal.
  destruct (allocate_host _ _ _ (si_host _ _ I) Hal) as [Hn Hok].
  assert (Hold : ∀ k' y, k' ≠ k → sy_attempts s !! k' = Some y → attempt_addr y ≠ Some (host_addr (sy_next_host s))).
  { intros k' y _ Hy Hya. eapply used_fresh, si_addr; [exact I|done..]. }
  assert (Hfr : Forall (λ d, used n d.1) (Switch.inbox (abs (sy_world s)) ++ sy_got s)).
  { eapply Forall_impl; [apply I|]. simpl. intros d. apply used_mono. lia. }
  destruct r as [a|e]; simpl.
  - destruct (Hok a eq_refl) as [-> ->].
    eapply (inv_replace M s _ k _ _ _ I Hk); [done|exact Hold|..]; try done; sys_simpl; try apply I.
    + intros b [= <-]. split; [done|]. exists (sy_next_host s). split; [|done].
      pose proof (si_host _ _ I). lia.
    + intros b p [= <-] [= <-]. unfold flows.
      pose proof (si_fresh _ _ I) as [Hi Hg]%Forall_app.
      rewrite (of_addr_fresh _ _ _ Hi (used_fresh _)), (of_addr_fresh _ _ _ Hg (used_fresh _)).
      split; apply sublist_nil_l.
  - eapply (inv_replace M s _ k _ _ _ I Hk); [done|exact Hold|..]; try done; sys_simpl; try apply I.
Qed.

Lemma inv_enter M s k a peer cap c w :
  sysinv M s → sy_attempts s !! k = Some (Allocated a peer) → add_path a cap (sy_world s) = Some (c, w) →
  sysinv M (set_attempt k (OnPath a c peer None) (set_world w s)).
Proof.
  intros I Hk Hadd. pose proof (si_reach _ _ I) as Hr.
  destruct (add_path_inv M a cap _ c w peer Hr Hadd) as (Hr' & Hs' & Hp'). simpl in *.
  pose proof (switch_attach _ _ _ _ (sim_add_path _ _ _ _ _ _ (reachable_inv _ _ Hr) Hadd)) as Habs.
  destruct (add_path_frame _ _ _ _ _ Hadd) as (Hc & Hnext & Hpaths).
  assert (Hnew : ∀ k' y, sy_attempts s !! k' = Some y → attempt_chan y ≠ Some c).
  { intros k' y Hy Hyc. destruct (attempt_chan_addr _ _ Hyc) as [b Hb].
    destruct (si_path _ _ I _ _ _ _ Hy Hb Hyc) as [Hpc _].
    destruct (inv_fresh _ _ (reachable_inv _ _ Hr) c) as [_ Hno]; [lia|congruence]. }
  assert (Hother := others_distinct M s k _ a I Hk eq_refl).
  eapply (inv_replace M s _ k _ _ a I Hk); [done|exact Hother|..]; try done; sys_simpl.
  - by intros b [= <-].
  - intros b [= <-]. split; [done|]. by eapply si_addr.
  - pose proof (si_host _ _ I). lia.
  - intros c' _ Hne. split; [apply Hpaths; congruence|]. rewrite Habs. simpl. apply lookup_insert_ne. congruence.
  - intros b Hb. rewrite !lookup_route_table, Habs. simpl. by rewrite lookup_insert_ne by done.
  - intros c' [= <-]. split_and!; [done| |by intros; eapply Hnew].
    rewrite lookup_route_table, Habs. simpl. apply lookup_insert_eq.
  - rewrite Habs. simpl. apply I.
  - eapply flight_frame; [done|lia|]. intros c' q Hlt. rewrite Hpaths by lia. done.
  - intros b p [= <-] [= <-]. destruct (si_flow _ _ I k _ a peer Hk eq_refl eq_refl) as [H1 H2].
    unfold flows, pending in *. sys_simpl. rewrite Habs. simpl. split; [done|]. by rewrite lookup_insert_eq.
Qed.

(** The invariant of a path's loop, from that of the system. *)
Lemma loop_inv_of M s k a c peer src :
  sysinv M s → sy_attempts s !! k = Some (OnPath a c peer src) →
  loop_inv M c a (MkPathState (sy_world s) peer src).
Proof.
  intros I Hk. split_and!; simpl; [apply I..|]. eapply (si_path _ _ I k); [done|simpl; done..].
Qed.

(** Taking from the front of the second part what is added to the first. *)
Lemma sublist_shift {A} (l : list A) b l' k :
  (l ++ b :: l') `sublist_of` k → ((l ++ [b]) ++ l') `sublist_of` k ∧ (l ++ l') `sublist_of` k.
Proof.
  intros Hs. rewrite <- (assoc_L (++)). split; [done|]. etransitivity; [|exact Hs].
  apply sublist_app; [done|by apply sublist_cons].
Qed.

(** The path goes on after an iteration. *)
Lemma inv_iterate M s k a c i peer src st r :
  sysinv M s → sy_attempts s !! k = Some (OnPath a c peer src) →
  iter c i (MkPathState (sy_world s) peer src) = (r, st) →
  sysinv M (set_attempt k (OnPath a c (ps_peer st) (ps_source st)) (set_world (ps_world st) s)).
Proof.
  intros I Hk Hit. pose proof (loop_inv_of _ _ _ _ _ _ _ I Hk) as L.
  pose proof (path_iter_inv _ _ _ _ _ _ _ Hit L) as (Hr' & Hs' & Hp').
  destruct (path_iter_frame _ _ _ _ _ Hit) as (Hpaths & Hnext & _). simpl in Hpaths, Hnext.
  pose proof (path_iter_effect _ _ _ _ _ _ _ _ _ L Hit) as (Htab & _ & Heff).
  destruct (si_path _ _ I k _ a c Hk eq_refl eq_refl) as [_ Hroute].
  destruct (si_flow _ _ I k _ a peer Hk eq_refl eq_refl) as [H1 H2]. unfold pending in H2. cbn [attempt_chan] in H2.
  pose proof (si_addr _ _ I k _ a Hk eq_refl) as Hused.
  assert (Hother := others_distinct M s k _ a I Hk eq_refl).
  pose proof (si_fresh _ _ I) as Hfresh.
  eapply (inv_replace M s _ k _ _ a I Hk); [done|exact Hother|..]; try done; sys_simpl.
  - by intros b [= <-].
  - by intros b [= <-].
  - pose proof (si_host _ _ I). lia.
  - intros c' _ Hne. rewrite Hpaths. split; [done|].
    destruct Heff as [(-> & _)|(_ & _ & b & l & _ & -> & _)]; [done|]. apply lookup_insert_ne. congruence.
  - intros b Hb. rewrite !lookup_route_table, Htab. split; [done|].
    destruct Heff as [(_ & _ & more & _ & [->|(b' & _ & ->)])|(-> & _)]; [done| |done].
    rewrite of_addr_app, of_addr_one. simpl. rewrite decide_False by done. by rewrite app_nil_r.
  - intros c' [= <-]. split_and!; [done|by rewrite lookup_route_table, Htab, <- lookup_route_table|].
    intros k' y Hne Hy Hyc. apply Hne. by eapply chan_distinct.
  - destruct Heff as [(_ & _ & more & _ & [->|(b' & _ & ->)])|(-> & _)]; [done| |done].
    apply Forall_app in Hfresh as [? ?]. apply Forall_app. split; [|done]. apply Forall_app. split; [done|].
    by constructor.
  - eapply flight_frame; [done|lia|]. intros c' q _. by rewrite Hpaths.
  - intros b p [= <-] [= <-]. unfold flows, pending. sys_simpl.
    destruct Heff as [(Ho & Hs & more & Hm & Hin)|(Hin & Hrec & b' & l & Ho & Ho' & Hs)].
    + rewrite Ho, Hs, Hm. split; [|done]. destruct Hin as [->|(b' & -> & ->)].
      * etransitivity; [exact H1|by apply sublist_inserts_r].
      * rewrite of_addr_app, of_addr_one, decide_True, (assoc_L (++)) by done. by apply sublist_app.
    + rewrite Hin, Hrec, Ho', lookup_insert_eq. split; [done|]. simpl. rewrite Ho in H2. simpl in H2.
      apply sublist_shift in H2 as [? ?]. by destruct Hs as [->| ->].
Qed.

Lemma inv_leave M s k a c peer src r s' :
  sysinv M s → sy_attempts s !! k = Some (OnPath a c peer src) → leave k a c peer r s = Some s' → sysinv M s'.
Proof.
  intros I Hk Hl. unfold leave in Hl.
  destruct (drop_path c (sy_world s)) as [w|] eqn:Hd; [|done]. injection Hl as <-.
  pose proof (si_reach _ _ I) as Hr. destruct (si_socket _ _ I) as [so Hso].
  assert (Hr' : reachable M w) by (eapply reachable_step; [done|by econstructor]).
  destruct (drop_path_frame _ _ _ Hd) as [Hpaths Hnext].
  destruct (switch_detach _ _ _ (sim_drop_path _ _ _ _ (reachable_inv _ _ Hr) Hd)) as (Hin & Hout & Htab).
  destruct (drop_path_routes _ _ _ _ _ (reachable_inv _ _ Hr) Hso Hd) as (so' & Hso' & _).
  destruct (si_path _ _ I k _ a c Hk eq_refl eq_refl) as [_ Hroute].
  assert (Hother := others_distinct M s k _ a I Hk eq_refl).
  eapply (inv_replace M s _ k _ _ a I Hk); [done|exact Hother|..]; try done; sys_simpl.
  - by intros b [= <-].
  - intros b [= <-]. split; [done|]. by eapply si_addr.
  - pose proof (si_host _ _ I). lia.
  - intros c' Hne _. rewrite Hpaths, Hout, lookup_delete_ne, lookup_insert_ne by congruence. done.
  - intros b Hb. rewrite !lookup_route_table, Htab, Hin. split; [|done].
    rewrite decide_False; [done|]. rewrite <- lookup_route_table. intros Hbc.
    rewrite lookup_route_table in Hbc, Hroute. unfold abs in Hbc, Hroute. simpl in Hbc, Hroute.
    rewrite Hso in Hbc, Hroute. apply Hb. by eapply (winv_routes_inj M (sy_world s) so); [apply reachable_inv|..].
  - intros c' [= <-] _. rewrite Hpaths. apply lookup_delete_eq.
  - rewrite Hin. apply I.
  - eapply flight_frame; [done|lia|]. intros c' q _. rewrite Hpaths. by intros [_ ?]%lookup_delete_Some.
  - intros b p [= <-] [= <-]. destruct (si_flow _ _ I k _ a peer Hk eq_refl eq_refl) as [H1 H2].
    unfold flows, pending in *. cbn [attempt_chan] in *. rewrite Hin, app_nil_r. split; [done|].
    etransitivity; [|exact H2]. by apply sublist_inserts_r.
Qed.

(** A step of Quinn: the attempts, the paths and the routes stay as they are; the
    transcripts and the queues change together. *)
Lemma inv_quinn M s w' fl got' sent' :
  sysinv M s → reachable M w' → is_Some (w_socket w') →
  w_paths w' = w_paths (sy_world s) → w_next w' = w_next (sy_world s) →
  Switch.table (abs w') = Switch.table (abs (sy_world s)) →
  Forall (λ d, used (sy_next_host s) d.1) (Switch.inbox (abs w') ++ got') →
  (∀ dst c b, (dst, Some c, b) ∈ fl →
     c < w_next w' ∧ ∀ q, w_paths w' !! c = Some q → VirtualUdp.remote q = dst) →
  (∀ a, of_addr a got' ++ of_addr a (Switch.inbox (abs w')) =
        of_addr a (sy_got s) ++ of_addr a (Switch.inbox (abs (sy_world s)))) →
  (∀ k x a p, sy_attempts s !! k = Some x → attempt_addr x = Some a → attempt_peer x = Some p →
     (sent p ++ pending (abs w') x) `sublist_of` of_addr a sent') →
  sysinv M (MkSystem w' (sy_next_host s) (sy_attempts s) fl got' sent').
Proof.
  intros I Hr Hs Hp Hn Ht Hfresh Hfl Hin Hout. split; sys_simpl; try done; try apply I.
  - intros k x a c Hk Ha Hc. rewrite Hp, lookup_route_table, Ht, <- lookup_route_table. by eapply si_path.
  - rewrite Hp. apply I.
  - intros k x a p Hk Ha Hpe. split; [rewrite Hin; by eapply (si_flow _ _ I)|by eapply Hout].
Qed.

Lemma deliver_frame route b w :
  w_paths (deliver route b w) = w_paths w ∧ w_next (deliver route b w) = w_next w ∧
  w_socket (deliver route b w) = w_socket w.
Proof. unfold deliver. destruct route as [c|]; [destruct (w_chans w !! c)|]; done. Qed.

Lemma switch_send_via σ c b σ' :
  Switch.step σ (Switch.SendVia c b) σ' →
  Switch.inbox σ' = Switch.inbox σ ∧ Switch.table σ' = Switch.table σ ∧
  (Switch.outbox σ' = Switch.outbox σ ∨
   ∃ l, is_Some (Switch.attached σ !! c) ∧ Switch.outbox σ !! c = Some l ∧
        Switch.outbox σ' = <[c := l ++ [b]]> (Switch.outbox σ)).
Proof. inversion 1; subst; simpl; eauto 8. Qed.

Lemma inv_send_finish M s j dst route b :
  sysinv M s → (∀ d, (d ∈ sy_flight s) → length d.2 ≤ M) → sy_flight s !! j = Some (dst, route, b) →
  sysinv M (MkSystem (deliver route b (sy_world s)) (sy_next_host s) (sy_attempts s)
              (delete j (sy_flight s)) (sy_got s) (sy_sent s ++ [(dst, b)])).
Proof.
  intros I HM Hj. pose proof (list_elem_of_lookup_2 _ _ _ Hj) as Hin.
  destruct (deliver_frame route b (sy_world s)) as (Hp & Hn & Hs).
  pose proof (si_reach _ _ I) as Hr.
  assert (Hr' : reachable M (deliver route b (sy_world s))).
  { eapply reachable_step; [done|]. apply step_deliver. by apply (HM _ Hin). }
  assert (Heff : Switch.inbox (abs (deliver route b (sy_world s))) = Switch.inbox (abs (sy_world s)) ∧
    Switch.table (abs (deliver route b (sy_world s))) = Switch.table (abs (sy_world s)) ∧
    ∀ k x a p, sy_attempts s !! k = Some x → attempt_addr x = Some a → attempt_peer x = Some p →
     (sent p ++ pending (abs (deliver route b (sy_world s))) x) `sublist_of` of_addr a (sy_sent s ++ [(dst, b)])).
  { assert (Hgrow : ∀ k x a p, sy_attempts s !! k = Some x → attempt_addr x = Some a → attempt_peer x = Some p →
      (sent p ++ pending (abs (sy_world s)) x) `sublist_of` of_addr a (sy_sent s ++ [(dst, b)])).
    { intros k x a p Hk Ha Hpe. destruct (si_flow _ _ I _ _ _ _ Hk Ha Hpe) as [_ H2].
      etransitivity; [exact H2|]. rewrite of_addr_app. by apply sublist_inserts_r. }
    destruct route as [c|]; [|done].
    destruct (switch_send_via _ _ _ _ (sim_deliver _ _ c b (reachable_inv _ _ Hr)))
      as (Hi & Ht & [Ho|(l & [q Hq] & Hl & Ho)]); (split_and!; [done..|]).
    { unfold pending. rewrite Ho. exact Hgrow. }
    intros k x a p Hk Ha Hpe. destruct (decide (attempt_chan x = Some c)) as [Hc|Hc].
    - destruct (si_path _ _ I _ _ _ _ Hk Ha Hc) as [Hpc _].
      destruct (si_flight _ _ I dst c b Hin) as [_ Hd]. specialize (Hd _ Hpc). simpl in Hd. subst dst.
      destruct (si_flow _ _ I _ _ _ _ Hk Ha Hpe) as [_ H2]. unfold pending in *. rewrite Hc in *.
      rewrite Ho, lookup_insert_eq. rewrite Hl in H2. simpl in *.
      rewrite of_addr_app, of_addr_one, decide_True, (assoc_L (++)) by done. by apply sublist_app.
    - specialize (Hgrow k x a p Hk Ha Hpe). unfold pending in *. destruct (attempt_chan x) as [c'|]; [|done].
      rewrite Ho, lookup_insert_ne; [done|congruence]. }
  destruct Heff as (Hi & Ht & Hout).
  apply inv_quinn; try done; rewrite ?Hs, ?Hi; try apply I; try done.
  intros dst' c' b' Hin'. rewrite Hp, Hn. eapply (si_flight _ _ I dst' c' b').
  by eapply elem_of_sublist, sublist_delete.
Qed.

Lemma poll_recv_frame bufs ms w r bufs' ms' w' :
  poll_recv bufs ms w = Some (r, bufs', ms', w') →
  w_paths w' = w_paths w ∧ w_next w' = w_next w ∧ w_socket w' = w_socket w.
Proof.
  unfold poll_recv. destruct (w_socket w) as [so|] eqn:Hso; [|done]. simpl.
  destruct bufs as [|buf bufs], ms as [|m ms]; try (intros [= <- <- <- <-]; done).
  destruct (mpsc_poll_recv _) as [[[d|]|] ch]; intros [= <- <- <- <-]; done.
Qed.

Lemma switch_recv σ room d σ' :
  Switch.step σ (Switch.QuinnRecv room d) σ' → Forall (λ d : SocketAddr * bytes, length d.2 ≤ room) (Switch.inbox σ) →
  Switch.inbox σ = option_list d ++ Switch.inbox σ' ∧ Switch.table σ' = Switch.table σ ∧
  Switch.outbox σ' = Switch.outbox σ.
Proof. inversion 1; subst; simpl; [|done]. intros [Hb _]%Forall_cons. simpl in Hb. by rewrite take_ge. Qed.

Lemma inbox_fits M w : winv M w → Forall (λ d : SocketAddr * bytes, length d.2 ≤ M) (Switch.inbox (abs w)).
Proof. intros I. unfold abs. simpl. apply Forall_fmap. apply (inv_incoming _ _ I). Qed.

Lemma inv_poll M s d w r buf m bufs' ms' :
  M ≤ length buf →
  sysinv M s → Switch.step (abs (sy_world s)) (Switch.QuinnRecv (length buf) d) (abs w) →
  poll_recv [buf] [m] (sy_world s) = Some (r, bufs', ms', w) →
  sysinv M (MkSystem w (sy_next_host s) (sy_attempts s) (sy_flight s) (sy_got s ++ option_list d) (sy_sent s)).
Proof.
  intros Hbuf I Hstep Hpoll. destruct (switch_recv _ _ _ _ Hstep) as (Hi & Ht & Ho).
  { eapply Forall_impl; [apply (inbox_fits M), reachable_inv, I|]. simpl. lia. }
  destruct (poll_recv_frame _ _ _ _ _ _ _ Hpoll) as (Hp & Hn & Hs).
  pose proof (si_fresh _ _ I) as Hfr. rewrite Hi in Hfr.
  apply inv_quinn; try done; rewrite ?Hs; try apply I.
  - eapply reachable_step; [apply I|]. by econstructor.
  - rewrite !Forall_app in Hfr |- *. tauto.
  - rewrite Hp, Hn. apply I.
  - intros a. by rewrite Hi, !of_addr_app, (assoc_L (++)).
  - intros k x a p Hk Ha Hpe. unfold pending. rewrite Ho. by eapply (si_flow _ _ I).
Qed.

(** Quinn reads into buffers of at least the MTU. *)
Definition event_fits (M : nat) (ev : system_event T) : Prop :=
  match ev with Poll buf => M ≤ length buf | _ => True end.

Definition flight_fits (M : nat) s : Prop := ∀ d, d ∈ sy_flight s → length d.2 ≤ M.

Lemma iterate_step_inv M s k i s' : sysinv M s → iterate_step k i s = Some s' → sysinv M s'.
Proof.
  intros I Hs. unfold iterate_step in Hs.
  destruct (sy_attempts s !! k) as [[| |a c peer src| |]|] eqn:Hk; try done.
  destruct (path_iter _ _ _) as [r st] eqn:Hit.
  pose proof (inv_iterate _ _ _ _ _ _ _ _ _ _ I Hk Hit) as I'.
  destruct r as [r|]; [|by simplify_eq].
  eapply (inv_leave M _ k a c (ps_peer st) (ps_source st) (Some r)); [exact I'| |].
  - sys_simpl. apply list_lookup_insert_eq. by eapply lookup_lt_Some.
  - rewrite <- Hs. unfold leave, set_attempt, set_world. sys_simpl.
    destruct (drop_path c (ps_world st)); [|done]. simpl. by rewrite list_insert_insert_eq.
Qed.

Lemma system_step_inv M ev s s' :
  event_fits M ev → flight_fits M s → system_step ev s = Some s' → sysinv M s → sysinv M s'.
Proof.
  intros Hev HM Hs I. destruct ev as [|k peer|k cap|k i|k f|k|t|j|buf]; simpl in Hs.
  - simplify_eq. by apply inv_begin.
  - destruct (sy_attempts s !! k) as [[]|] eqn:Hk; simplify_eq. by apply inv_open.
  - destruct (sy_attempts s !! k) as [[]|] eqn:Hk; try done.
    destruct (add_path _ _ _) as [[c w]|] eqn:Ha; simplify_eq/=. by eapply inv_enter.
  - by eapply iterate_step_inv.
  - destruct (sy_attempts s !! k) as [[]|] eqn:Hk; simplify_eq;
      (eapply inv_attempt; [done..|]; intros p' [= <-]; by eexists).
  - destruct (sy_attempts s !! k) as [[]|] eqn:Hk; simplify_eq.
    + by eapply inv_attempt.
    + eapply inv_attempt; [done..|]. intros p' [= <-]. by eexists.
    + by eapply inv_leave.
  - destruct (w_socket (sy_world s)) as [so|] eqn:Hso; simpl in Hs; [|done].
    case_decide; simplify_eq; [done|].
    apply inv_quinn; try done; try apply I.
    intros dst c b [Hin|Hin]%elem_of_app; [by eapply (si_flight _ _ I)|].
    apply list_elem_of_singleton in Hin. injection Hin as -> Hroute ->.
    destruct (inv_route _ _ (reachable_inv _ _ (si_reach _ _ I)) so (destination t) c) as (q & Hq & Hrem);
      [done|by unfold lookup_route in Hroute; rewrite Hso in Hroute|].
    split; [|congruence]. destruct (decide (c < w_next (sy_world s))) as [|Hge]; [done|].
    destruct (inv_fresh _ _ (reachable_inv _ _ (si_reach _ _ I)) c) as [_ Hno]; [lia|congruence].
  - destruct (sy_flight s !! j) as [[[dst route] b]|] eqn:Hj; simplify_eq/=. by apply inv_send_finish.
  - pose proof (reachable_inv _ _ (si_reach _ _ I)) as Iw.
    destruct (poll_recv _ _ _) as [[[[r bufs] ms] w]|] eqn:Hp; [|done].
    destruct r as [[[|[|]]|]|]; try done.
    + destruct bufs as [|buf' []], ms as [|m []]; simplify_eq.
      eapply (inv_poll _ _ (Some _)); [done|done| |done]. by eapply sim_poll_recv.
    + simplify_eq. unfold set_world. rewrite <- (app_nil_r (sy_got s)).
      eapply (inv_poll _ _ None); [done|done| |done]. by eapply sim_poll_pending.
Qed.

Lemma flight_fits_step M ev s s' :
  system_step ev s = Some s' → sysinv M s → flight_fits M s → flight_fits M s'.
Proof.
  intros Hs I HM. destruct ev as [|k peer|k cap|k i|k f|k|t|j|buf]; simpl in Hs.
  - by simplify_eq.
  - destruct (sy_attempts s !! k) as [[]|]; simplify_eq. unfold open_step.
    by destruct (allocate _) as [[] ?].
  - destruct (sy_attempts s !! k) as [[]|]; try done. by destruct (add_path _ _ _) as [[]|]; simplify_eq/=.
  - unfold iterate_step in Hs. destruct (sy_attempts s !! k) as [[]|]; try done.
    destruct (path_iter _ _ _) as [[|] ?]; [|by simplify_eq].
    unfold leave in Hs. by destruct (drop_path _ _); simplify_eq/=.
  - by destruct (sy_attempts s !! k) as [[]|]; simplify_eq.
  - destruct (sy_attempts s !! k) as [[]|]; simplify_eq; [done..|].
    unfold leave in Hs. by destruct (drop_path _ _); simplify_eq/=.
  - destruct (w_socket (sy_world s)) as [so|] eqn:Hso; simpl in Hs; [|done].
    case_decide; simplify_eq; [done|]. intros d [Hd|Hd]%elem_of_app; [by apply HM|].
    apply list_elem_of_singleton in Hd as ->. simpl.
    pose proof (inv_mtu _ _ (reachable_inv _ _ (si_reach _ _ I)) _ Hso). lia.
  - destruct (sy_flight s !! j) as [[[dst route] b]|]; simplify_eq/=. intros d Hd.
    apply HM. by eapply elem_of_sublist, sublist_delete.
  - destruct (poll_recv _ _ _) as [[[[r bufs] ms] w]|]; [|done].
    destruct r as [[[|[|]]|]|]; try done; [|by simplify_eq].
    by destruct bufs as [|buf' []], ms as [|m []]; simplify_eq.
Qed.

Lemma system_run_inv M evs s s' :
  Forall (event_fits M) evs → system_run evs s = Some s' → flight_fits M s → sysinv M s →
  flight_fits M s' ∧ sysinv M s'.
Proof.
  revert s. induction evs as [|ev evs IH]; intros s Hok; simpl; [by intros [= ->]|].
  apply Forall_cons in Hok as [Hev Hok].
  destruct (system_step ev s) as [s1|] eqn:Hs; simpl; [|done]. intros Hrun HM I.
  eapply IH; [done..| |]; [by eapply flight_fits_step|by eapply system_step_inv].
Qed.

Lemma system_new_inv addr s :
  system_new addr = Some s → flight_fits DEFAULT_PATH_MTU s ∧ sysinv DEFAULT_PATH_MTU s.
Proof.
  unfold system_new, new. destruct (with_options _ _ _) as [w|] eqn:Hw; [|done]. intros [= <-].
  assert (Hr : reachable DEFAULT_PATH_MTU w) by (do 3 eexists; split; [exact Hw|constructor]).
  unfold with_options in Hw. case_decide; [done|]. case_decide; [done|]. injection Hw as Hw.
  split; [by intros d ?%elem_of_nil|]. split; sys_simpl; try done; subst w; simpl.
  - by eexists.
  - intros c q Hq. by rewrite lookup_empty in Hq.
  - unfold abs. simpl. rewrite view_new. simpl. by constructor.
  - intros dst c b Hin. by apply elem_of_nil in Hin.
Qed.

Abbreviation run := (system_run (chan := chan) (E := E)).
Abbreviation fits := (Forall (event_fits DEFAULT_PATH_MTU)).

(** The two flows of an attempt, less what is still queued. *)
Lemma attempt_flows M s k x a p :
  sysinv M s → sy_attempts s !! k = Some x → attempt_addr x = Some a → attempt_peer x = Some p →
  of_addr a (sy_got s) `sublist_of` payloads (received p) ∧ sent p `sublist_of` of_addr a (sy_sent s).
Proof.
  intros I Hk Ha Hp. destruct (si_flow _ _ I _ _ _ _ Hk Ha Hp) as [H1 H2]. split.
  - etransitivity; [|exact H1]. by apply sublist_inserts_r.
  - etransitivity; [|exact H2]. by apply sublist_inserts_r.
Qed.

(** C4: The paths of a consumer do not get into each other's way: in every state its
    sessions, new ones and replacements, bring the shared socket into together with
    Quinn, the addresses of all sessions so far are different; Quinn has read under
    a session's address only payloads that this session's peer delivered, and this
    peer was sent only datagrams Quinn addressed to it; both unaltered, in order and
    without repetition, also when the path has long ended.  Quinn reads with buffers
    of at least the MTU; a shorter one would cut the datagram. *)
Theorem consumer_paths_isolated addr s0 evs s k x a p :
  system_new addr = Some s0 → fits evs → run evs s0 = Some s →
  sy_attempts s !! k = Some x → attempt_addr x = Some a → attempt_peer x = Some p →
  of_addr a (sy_got s) `sublist_of` payloads (received p) ∧
  sent p `sublist_of` of_addr a (sy_sent s) ∧
  ∀ k' x', sy_attempts s !! k' = Some x' → attempt_addr x' = Some a → k' = k.
Proof.
  intros Hnew Hfits Hrun Hk Ha Hp.
  destruct (system_new_inv _ _ Hnew) as [HM I0].
  destruct (system_run_inv _ _ _ _ Hfits Hrun HM I0) as [_ I].
  destruct (attempt_flows _ _ _ _ _ _ I Hk Ha Hp) as [H1 H2]. split_and!; [done..|].
  intros k' x' Hk' Ha'. by eapply (si_distinct _ _ I).
Qed.

(** The channels of the sessions that are on a path. *)
Lemma elem_of_live s c :
  c ∈ live_attempts s ↔ ∃ k x, sy_attempts s !! k = Some x ∧ attempt_chan x = Some c.
Proof.
  unfold live_attempts. rewrite list_elem_of_omap. setoid_rewrite list_elem_of_lookup.
  split; [intros (x & [k Hk] & Hc); by exists k, x|intros (k & x & Hk & Hc); exists x; split; [by exists k|done]].
Qed.

Lemma live_NoDup M s : sysinv M s → NoDup (live_attempts s).
Proof.
  intros I. unfold live_attempts.
  assert (Hd : ∀ i j x y c, sy_attempts s !! i = Some x → sy_attempts s !! j = Some y →
    attempt_chan x = Some c → attempt_chan y = Some c → i = j) by eauto using chan_distinct.
  clear I. induction (sy_attempts s) as [|x l IH]; [constructor|].
  assert (NoDup (omap attempt_chan l)) as Hl.
  { apply IH. intros i j y z c Hi Hj Hy Hz. assert (S i = S j) by (eapply Hd; eauto). lia. }
  simpl. destruct (attempt_chan x) as [c|] eqn:Hc; [|done]. constructor; [|done].
  intros (y & Hy & Hyc)%list_elem_of_omap. apply list_elem_of_lookup in Hy as [j Hj].
  assert (0 = S j) by (eapply Hd; [done|exact Hj|done..]). lia.
Qed.

(** C6: The socket's routes are exactly the sessions on a path: every such session is
    the one its address leads to, no route is left behind by one that ended, and
    [path_count] counts them; the socket stays open throughout. *)
Theorem consumer_routes_exact addr s0 evs s :
  system_new addr = Some s0 → fits evs → run evs s0 = Some s →
  is_Some (w_socket (sy_world s)) ∧
  (∀ a c, lookup_route a (sy_world s) = Some c ↔
     ∃ k p src, sy_attempts s !! k = Some (OnPath a c p src)) ∧
  path_count (sy_world s) = length (live_attempts s).
Proof.
  intros Hnew Hfits Hrun. destruct (system_new_inv _ _ Hnew) as [HM I0].
  destruct (system_run_inv _ _ _ _ Hfits Hrun HM I0) as [_ I].
  destruct (si_socket _ _ I) as [so Hso]. split; [by eexists|].
  assert (Hiff : ∀ a c, lookup_route a (sy_world s) = Some c ↔
     ∃ k p src, sy_attempts s !! k = Some (OnPath a c p src)).
  { intros a c. split.
    - intros Hr. destruct (inv_route _ _ (reachable_inv _ _ (si_reach _ _ I)) so a c) as (q & Hq & Hrem);
        [done|by unfold lookup_route in Hr; rewrite Hso in Hr|].
      destruct (si_owner _ _ I c q Hq) as (k & x & Hk & Hx).
      destruct x as [| |a' c' p src| |]; simplify_eq/=.
      destruct (si_path _ _ I k _ a' c Hk eq_refl eq_refl) as [Hq' _].
      assert (a' = VirtualUdp.remote q) as -> by (by rewrite Hq in Hq'; injection Hq' as ->). eauto.
    - intros (k & p & src & Hk). by eapply (si_path _ _ I k). }
  split; [done|]. unfold path_count. rewrite Hso.
  assert (Hlive : (map_to_list (routes so)).*2 ≡ₚ live_attempts s).
  { apply NoDup_Permutation; [|by eapply live_NoDup|].
    - apply NoDup_fmap_2_strong; [|apply NoDup_map_to_list].
      intros [a c] [a' c'] Hac%elem_of_map_to_list Hac'%elem_of_map_to_list Heq. simpl in Heq. subst c'.
      f_equal. by eapply (winv_routes_inj _ _ so); [apply reachable_inv, I|..].
    - intros c. rewrite elem_of_live. unfold lookup_route in Hiff. rewrite Hso in Hiff. simpl in Hiff.
      rewrite list_elem_of_fmap. split.
      + intros ([a c'] & -> & Hac%elem_of_map_to_list). apply Hiff in Hac as (k & p & src & Hk). by eexists _, _.
      + intros (k & x & Hk & Hx). destruct x as [| |a c' p src| |]; simplify_eq/=.
        exists (a, c). split; [done|]. apply elem_of_map_to_list, Hiff. eauto. }
  by rewrite <- Hlive, length_fmap, length_map_to_list.
Qed.
(** ** Invariants of the peers

    What every send and every receive of a transport keeps, and what its own moves
    bring about, holds of the peer of every session. *)
Section peers.
Variables I I' : nat → Logged T → Prop.
Hypothesis grows : ∀ k p, I k p → I' k p.
Hypothesis recv_keeps : ∀ k p r p', recv_packet p = (r, p') → I k p → I k p'.
Hypothesis send_keeps : ∀ k b p r p', send_packet b p = (r, p') → I k p → I k p'.

Definition peers_ok (P : nat → Logged T → Prop) s : Prop :=
  ∀ k x p, sy_attempts s !! k = Some x → attempt_peer x = Some p → P k p.

(** What the event itself has to bring about. *)
Definition brings (ev : system_event T) : Prop :=
  match ev with
  | Open k peer => I' k (watch peer)
  | PeerMoves k f => ∀ p, I k p → I' k (MkLogged (f (inner p)) (sent p) (received p))
  | _ => True
  end.

Lemma path_iter_peer k c i st r st' : iter c i st = (r, st') → I k (ps_peer st) → I k (ps_peer st').
Proof.
  unfold path_iter. intros Hi Hp. destruct i; [by simplify_eq|].
  destruct (recv_packet (ps_peer st)) as [r0 p1] eqn:Hr. apply (recv_keeps k) in Hr; [|done].
  destruct r0 as [[[b|]|e]|]; simpl in Hi; [|by simplify_eq..|].
  - unfold on_packet in Hi. destruct (decode_packet b) as [pk|]; [|by simplify_eq].
    case_decide; [by simplify_eq|]. destruct (check_source _ _) as [source|e]; [|by simplify_eq].
    unfold offer in Hi. simpl in Hi. by destruct (try_receive _ _ _) as [[[|[]] ?]|]; simplify_eq.
  - unfold on_outgoing in Hi. cbn [ps_world ps_peer ps_source] in Hi.
    destruct (next_outgoing c (ps_world st)) as [[[[b|]|] w]|]; [|by simplify_eq..].
    destruct (send_packet b p1) as [r1 p2] eqn:Hs. apply (send_keeps k) in Hs; [|done].
    by destruct r1; simplify_eq.
Qed.

Lemma peers_set k x s s0 :
  sy_attempts s = sy_attempts s0 → peers_ok I s0 → (∀ p, attempt_peer x = Some p → I' k p) →
  peers_ok I' (set_attempt k x s).
Proof.
  intros Heq Hs Hx k' y p Hk Hp. simpl in Hk. rewrite Heq in Hk.
  apply list_lookup_insert_Some in Hk as [(<- & <- & _)|[_ Hk]]; eauto.
Qed.

Lemma peers_leave k a c p r s s0 s' :
  sy_attempts s = sy_attempts s0 → leave k a c p r s = Some s' → peers_ok I s0 → I k p → peers_ok I' s'.
Proof.
  unfold leave. intros Heq Hl Hs Hp. destruct (drop_path c (sy_world s)); simplify_eq/=.
  eapply peers_set; [exact Heq|done|]. intros p' [= <-]. eauto.
Qed.

Lemma peers_step ev s s' : brings ev → system_step ev s = Some s' → peers_ok I s → peers_ok I' s'.
Proof.
  intros Hev Hs Hok. destruct ev as [|k peer|k cap|k i|k f|k|t|j|buf]; simpl in Hs.
  - simplify_eq. intros k x p Hk Hp. simpl in Hk.
    apply lookup_app_Some in Hk as [Hk|[_ Hk]]; [eauto|].
    by apply list_lookup_singleton_Some in Hk as [_ <-].
  - destruct (sy_attempts s !! k) as [[]|] eqn:Hk; simplify_eq. unfold open_step.
    destruct (allocate _) as [[a|e] next]; eapply peers_set; try done. by intros p [= <-].
  - destruct (sy_attempts s !! k) as [[]|] eqn:Hk; try done.
    destruct (add_path _ _ _) as [[c w]|]; simplify_eq/=. eapply peers_set; [done..|].
    intros p [= <-]. eauto.
  - unfold iterate_step in Hs. destruct (sy_attempts s !! k) as [[| |a c p src| |]|] eqn:Hk; try done.
    destruct (path_iter _ _ _) as [r st] eqn:Hi. apply (path_iter_peer k) in Hi; [|by eapply Hok].
    destruct r as [r|]; [by eapply peers_leave in Hs|]. simplify_eq. eapply peers_set; [done..|].
    intros p' [= <-]. eauto.
  - destruct (sy_attempts s !! k) as [[]|] eqn:Hk; simplify_eq; (eapply peers_set; [done..|]);
      intros p [= <-]; simpl in Hev; eauto.
  - destruct (sy_attempts s !! k) as [[]|] eqn:Hk; simplify_eq.
    + by eapply peers_set.
    + eapply peers_set; [done..|]. intros p [= <-]. eauto.
    + eapply peers_leave in Hs; eauto.
  - destruct (w_socket _); simpl in Hs; [|done]. case_decide; simplify_eq; intros ???; eauto.
  - destruct (sy_flight s !! j) as [[[]]|]; simplify_eq/=. intros ???; eauto.
  - destruct (poll_recv _ _ _) as [[[[r bufs] ms] w]|]; [|done].
    destruct r as [[[|[|]]|]|]; try done; [|simplify_eq; intros ???; eauto].
    destruct bufs as [|buf' []], ms as [|m []]; simplify_eq. intros ???; eauto.
Qed.
End peers.
End system_properties.

(** ** Two sessions, the second replacing the first *)
Module SystemDemo.
#[local] Existing Instance Script.transport.
#[local] Existing Instance gen_json_text.
#[local] Existing Instance base64_standard.

Definition here : SocketAddr := SocketAddrV4 (ipv4 100 64 0 1) 7000.
Definition first_addr : SocketAddr := nth_address 0.
Definition second_addr : SocketAddr := nth_address 1.
Definition peer (n : byte) : Script.t :=
  Script.Mk [Ok (Some (encode_packet (MkPacket "egress" [n])))] 9.
Definition buf : bytes := replicate DEFAULT_PATH_MTU x00.

(** The first session's peer delivers a packet and is replaced while a datagram to
    it is in flight; the second one's delivers another. *)
Definition events : list (system_event Script.t) :=
  [Begin; Begin; Open 0 (peer x01); Open 1 (peer x02); Enter 0 8; Iterate 0 false;
   SendStart (MkTransmit first_addr [x0a]); SendFinish 0; Iterate 0 false;
   SendStart (MkTransmit first_addr [x0b]); Abort 0; Enter 1 8; SendFinish 0;
   Iterate 1 false; Poll buf; Poll buf].

Definition started : system Queue nat Script.t :=
  MkSystem (MkWorld (Some (MkSocket here DEFAULT_PATH_MTU ∅)) (q_new DEFAULT_QUEUE_CAPACITY) ∅ ∅ 0)
    allocator_new [] [] [] [].
Definition finished : system Queue nat Script.t := default started (system_run events started).

Lemma starts : system_new here = Some started.
Proof. reflexivity. Qed.
Lemma runs : system_run events started = Some finished.
Proof. vm_compute. reflexivity. Qed.
Lemma events_fit : Forall (event_fits DEFAULT_PATH_MTU) events.
Proof. repeat constructor. Qed.

Definition old_peer : Logged Script.t := MkLogged (Script.Mk [] 8) [[x0a]] (received (watch (peer x01)) ++
  [encode_packet (MkPacket "egress" [x01])]).

Lemma consumer_paths_isolated_witness :
  sy_got finished = [(first_addr, [x01]); (second_addr, [x02])] ∧
  of_addr first_addr (sy_got finished) `sublist_of` payloads (received old_peer).
Proof.
  split; [vm_compute; reflexivity|].
  assert (Hk : sy_attempts finished !! 0 = Some (Ended first_addr old_peer None)) by (vm_compute; reflexivity).
  exact (proj1 (consumer_paths_isolated here started events finished 0 _ first_addr old_peer
    starts events_fit runs Hk eq_refl eq_refl)).
Defined.

Lemma consumer_routes_exact_witness :
  live_attempts finished = [1] ∧ path_count (sy_world finished) = length (live_attempts finished).
Proof.
  split; [vm_compute; reflexivity|].
  exact (proj2 (proj2 (consumer_routes_exact here started events finished starts events_fit runs))).
Defined.
End SystemDemo.
