(* ===== verification/Tunnel.v ===== *)
(** The tunnel end to end: the peer proxy's relay over its two real transports,
    and the whole way of a packet between the consumer's QUIC socket and the egress
    server.

    [Relay.v] proves the relay for any two transports; here they are the data
    channel of [Rtc.v] and the WebSocket of [Egress.v], with what happens to them
    from outside while the relay runs: the data channel's callbacks, its waiting
    tasks, and the arrival of WebSocket messages.  What the two libraries are given
    is observed at their own ends: every message the WebSocket's sink took and every
    packet a data channel took is written down there ([tapped]), after the code of
    the repository has made it. *)
From S2P Require Import Prelude Tokio Net Serde Protocol Relay Rtc Egress VirtualUdp ConsumerPath ConsumerSystem.

(** [BoxTransportError]: the errors of either transport behind one type. *)
Inductive BoxTransportError (X Y : Type) :=
| BoxRtc (error : WebRtcDatagramError X)
| BoxEgress (error : EgressError Y).
Arguments BoxRtc {X Y} error.
Arguments BoxEgress {X Y} error.

(** [.map_err(|error| Box::new(error) as BoxTransportError)] on both operations. *)
Definition box_poll {A E F} (f : E → F) (r : poll (result A E)) : poll (result A F) :=
  match r with Ready r => Ready (map_err f r) | Pending => Pending end.

(** The end of a library, with what it accepted written down. *)
Definition tapped {M A X C} (send : M → C → result A X * C) (m : M) (s : C * list M)
    : result A X * (C * list M) :=
  let '(r, c) := send m s.1 in (r, (c, if is_ok r then s.2 ++ [m] else s.2)).

(** What happens to a data channel from outside: its two callbacks, and a poll of a
    task that waits for room. *)
Inductive channel_move :=
| CallbackMessage (m : DataChannelMessage)
| CallbackClose
| TaskPolled.

Definition move {chan : Type → Type} `{!Mpsc chan} {C} (mv : channel_move)
    : WebRtcDatagrams chan C → WebRtcDatagrams chan C :=
  match mv with
  | CallbackMessage m => on_message m
  | CallbackClose => on_close
  | TaskPolled => poll_detached
  end.

(** The packet a move brings. *)
Definition move_packet (mv : channel_move) : option bytes :=
  match mv with CallbackMessage m => if is_string m then None else Some (data m) | _ => None end.

Section tunnel.
Context {chan : Type → Type} `{!Mpsc chan} {X Y C O : Type}.
Variable channel_send : bytes → C → result Z X * C.
Variable sink_send : Message → O → result unit Y * O.

Abbreviation datagrams := (WebRtcDatagrams chan C).
Abbreviation tunnel := (EgressTunnel (X := Y) (O := O)).
Abbreviation error := (BoxTransportError X Y).

#[export] Instance boxed_rtc : DatagramTransport error datagrams := {
  send_packet b d := let '(r, d) := rtc_send_packet channel_send b d in (map_err BoxRtc r, d);
  recv_packet d := let '(r, d) := rtc_recv_packet d in (box_poll BoxRtc r, d)
}.

#[export] Instance boxed_egress : DatagramTransport error tunnel := {
  send_packet b t := let '(r, t) := egress_send sink_send b t in (map_err BoxEgress r, t);
  recv_packet t := let '(r, t) := egress_recv t in (box_poll BoxEgress r, t)
}.

(** What happens while the relay runs: the data channel moves, something arrives
    on the WebSocket, or a pass of the relay's [select!]. *)
Inductive happening :=
| PeerChannel (mv : channel_move)
| EgressArrives (m : option (result Message Y))
| RelayTurn (first : side).

Definition relay_event_of (h : happening) : relay_event datagrams tunnel :=
  match h with
  | PeerChannel mv => Outside (move mv) id
  | EgressArrives m => Outside id (λ t, MkTunnel (incoming t ++ [m]) (outgoing t))
  | RelayTurn first => Select first
  end.

Definition relay_session (hs : list happening) (peer : datagrams) (egress : tunnel)
    : option (result RelayEnd (RelayError error)) * datagrams * tunnel :=
  relay (relay_event_of <$> hs) peer egress.

(** The packets among the messages of the data channel and of the WebSocket. *)
Definition message_packet (h : happening) : option bytes :=
  match h with PeerChannel mv => move_packet mv | _ => None end.
Definition binary (m : option (result Message Y)) : option bytes :=
  match m with Some (Ok (MBinary b)) => Some b | _ => None end.
Definition arrival_packet (h : happening) : option bytes :=
  match h with EgressArrives m => binary m | _ => None end.
Definition event_packet (e : ChannelEvent) : option bytes :=
  match e with Packet b => Some b | _ => None end.
End tunnel.

(** ** Invariants of a relay over its transports *)
Section preserved.
Context {E P Q : Type} `{!DatagramTransport E P} `{!DatagramTransport E Q}.
Variables (IP : P → Prop) (IQ : Q → Prop).
Hypothesis recv_IP : ∀ t r t', recv_packet t = (r, t') → IP t → IP t'.
Hypothesis send_IP : ∀ b t r t', send_packet b t = (r, t') → IP t → IP t'.
Hypothesis recv_IQ : ∀ t r t', recv_packet t = (r, t') → IQ t → IQ t'.
Hypothesis send_IQ : ∀ b t r t', send_packet b t = (r, t') → IQ t → IQ t'.

Lemma on_peer_preserved r (p : P) (q : Q) o p' q' :
  on_peer (E := E) r p q = (o, p', q') → IP p → IQ q → IP p' ∧ IQ q'.
Proof.
  unfold on_peer. destruct r as [[b|]|e]; [|by intros [= <- <- <-]..].
  destruct (send_packet b q) as [[|] q1] eqn:Hs; intros [= <- <- <-]; eauto.
Qed.

Lemma on_egress_preserved r (p : P) (q : Q) o p' q' :
  on_egress (E := E) r p q = (o, p', q') → IP p → IQ q → IP p' ∧ IQ q'.
Proof.
  unfold on_egress. destruct r as [[b|]|e]; [|by intros [= <- <- <-]..].
  destruct (send_packet b p) as [[|] p1] eqn:Hs; intros [= <- <- <-]; eauto.
Qed.

(** What every receive and every send of the two transports keeps, a pass of the
    relay keeps. *)
Lemma relay_step_preserved first (p : P) (q : Q) o p' q' :
  relay_step (E := E) first p q = (o, p', q') → IP p → IQ q → IP p' ∧ IQ q'.
Proof.
  unfold relay_step. intros Hr Hp Hq. destruct first.
  - destruct (recv_packet p) as [[r|] p1] eqn:H1; [by eapply on_peer_preserved; eauto|].
    destruct (recv_packet q) as [[r|] q1] eqn:H2; [by eapply on_egress_preserved; eauto|].
    injection Hr as <- <- <-. eauto.
  - destruct (recv_packet q) as [[r|] q1] eqn:H1; [by eapply on_egress_preserved; eauto|].
    destruct (recv_packet p) as [[r|] p1] eqn:H2; [by eapply on_peer_preserved; eauto|].
    injection Hr as <- <- <-. eauto.
Qed.
End preserved.

(** ** A data channel and its observers *)
Section channel_invariant.
Context {chan : Type → Type} `{!Mpsc chan} `{!MpscSpec chan} {X C E : Type}.
Variable channel_send : bytes → C → result Z X * C.
Context `{!DatagramTransport E (WebRtcDatagrams chan (C * list bytes))} (box : WebRtcDatagramError X → E).
(** The transport is the data channel's, with its errors behind [box]. *)
Hypothesis boxed_send : ∀ b d,
  send_packet b d = let '(r, d) := rtc_send_packet (tapped channel_send) b d in (map_err box r, d).
Hypothesis boxed_recv : ∀ d,
  recv_packet d = let '(r, d) := rtc_recv_packet (X := X) d in (box_poll box r, d).
Implicit Types p : Logged (WebRtcDatagrams chan (C * list bytes)).
Abbreviation queued d := (q_items (view (events d))).

(** What was taken from the data channel, followed by what is queued, is among
    [offered], and what the channel took is what its user sent. *)
Definition rtc_ok (cap : nat) (offered : list bytes) p : Prop :=
  datagrams_wf cap (inner p) ∧
  (received p ++ omap event_packet (queued (inner p))) `sublist_of` offered ∧
  (channel (inner p)).2 = sent p.

Lemma rtc_ok_new c cap d : with_capacity (c, []) cap = Some d → rtc_ok cap [] (watch d).
Proof.
  intros Hd. destruct (with_capacity_wf _ _ _ Hd) as [Hwf Hempty]. split_and!; [done| |].
  - simpl. by rewrite Hempty.
  - unfold with_capacity in Hd. by case_decide; simplify_eq.
Qed.

Lemma rtc_ok_weaken offs offs' cap p : offs `sublist_of` offs' → rtc_ok cap offs p → rtc_ok cap offs' p.
Proof. intros Hw (? & Hs & ?). split_and!; [done| |done]. by etransitivity. Qed.

Lemma rtc_ok_grows cap offs more p : rtc_ok cap offs p → rtc_ok cap (offs ++ more) p.
Proof. apply rtc_ok_weaken. by apply sublist_inserts_r. Qed.

Lemma rtc_ok_recv cap offs p r p' : recv_packet p = (r, p') → rtc_ok cap offs p → rtc_ok cap offs p'.
Proof.
  intros Hr (Hwf & Hs & Hl). simpl in Hr. rewrite boxed_recv in Hr.
  destruct (rtc_recv_spec (X := X) cap (inner p) Hwf) as (d' & Hwf' & _ & Hq).
  assert (Hch : ∀ r d', rtc_recv_packet (X := X) (inner p) = (r, d') → channel d' = channel (inner p)).
  { unfold rtc_recv_packet. destruct (mpsc_poll_recv _). by intros ?? [= _ <-]. }
  destruct (queued (inner p)) as [|e rest] eqn:Hqd; destruct Hq as [Hrec Hq']; rewrite Hrec in Hr;
    injection Hr as <- <-; (split_and!; [done| |by rewrite <- Hl, <- (Hch _ _ Hrec)]); simpl.
  - by rewrite Hq'.
  - rewrite Hq'. destruct e; simpl in *; [by rewrite <- (assoc_L (++))|done..].
Qed.

Lemma rtc_ok_send cap offs b p r p' : send_packet b p = (r, p') → rtc_ok cap offs p → rtc_ok cap offs p'.
Proof.
  intros Hr (Hwf & Hs & Hl). simpl in Hr. rewrite boxed_send in Hr. unfold rtc_send_packet, tapped in Hr.
  destruct (channel_send b (channel (inner p)).1) as [r0 c]. injection Hr as <- <-. split_and!; simpl.
  - destruct Hwf. by constructor.
  - done.
  - rewrite Hl. by destruct r0.
Qed.

(** The data channel's own steps. *)
Lemma rtc_ok_outside cap offs p d more :
  rtc_ok cap offs p → datagrams_wf cap d → channel d = channel (inner p) →
  (omap event_packet (queued d)) `sublist_of` (omap event_packet (queued (inner p)) ++ more) →
  rtc_ok cap (offs ++ more) (MkLogged d (sent p) (received p)).
Proof.
  intros (_ & Hs & Hl) Hwf Hc Hq. split_and!; [done| |by rewrite <- Hl, <- Hc]. simpl.
  etransitivity; [apply sublist_app; [done|exact Hq]|]. rewrite (assoc_L (++)). by apply sublist_app.
Qed.

Lemma move_channel {D} mv (d : WebRtcDatagrams chan D) : channel (move mv d) = channel d.
Proof.
  destruct mv; simpl; unfold on_message, on_close, poll_detached.
  - by destruct (mpsc_try_send _ _).
  - destruct (mpsc_try_send _ _) as [r ?]. by destruct (is_err r).
  - destruct (detached d); [done|]. by destruct (mpsc_poll_send _ _) as [[]].
Qed.

Lemma rtc_ok_move cap offs p mv :
  rtc_ok cap offs p →
  rtc_ok cap (offs ++ option_list (move_packet mv)) (MkLogged (move mv (inner p)) (sent p) (received p)).
Proof.
  intros Hok. pose proof (proj1 Hok) as Hwf. destruct mv as [m| |]; simpl move.
  - destruct (on_message_spec cap m (inner p) Hwf) as (Hwf' & _ & Hq).
    apply rtc_ok_outside; [done..|exact (move_channel (CallbackMessage m) _)|]. rewrite Hq.
    unfold message_event, move_packet. case_decide; [rewrite omap_app|by apply sublist_inserts_r].
    apply sublist_app; [done|]. by destruct (is_string m).
  - destruct (on_close_spec cap (inner p) Hwf) as (Hwf' & Hq).
    apply rtc_ok_outside; [done..|exact (move_channel CallbackClose _)|]. simpl. rewrite app_nil_r.
    case_decide; destruct Hq as [-> _]; rewrite ?omap_app; simpl; by rewrite ?app_nil_r.
  - destruct (poll_detached_spec cap (inner p) Hwf) as (Hwf' & Hq).
    apply rtc_ok_outside; [done..|exact (move_channel TaskPolled _)|]. simpl. rewrite app_nil_r.
    destruct (detached (inner p)); [by rewrite Hq|].
    case_decide; destruct Hq as [-> _]; rewrite ?omap_app; simpl; by rewrite ?app_nil_r.
Qed.
End channel_invariant.

Section tunnel_properties.
Context {chan : Type → Type} `{!Mpsc chan} `{!MpscSpec chan} {X Y C O : Type}.
Variable channel_send : bytes → C → result Z X * C.
Variable sink_send : Message → O → result unit Y * O.
Abbreviation datagrams := (WebRtcDatagrams chan (C * list bytes)).
Abbreviation tunnel := (EgressTunnel (X := Y) (O := O * list Message)).
#[local] Instance rtc_side : DatagramTransport (BoxTransportError X Y) datagrams :=
  boxed_rtc (tapped channel_send).
#[local] Instance egress_side : DatagramTransport (BoxTransportError X Y) tunnel :=
  boxed_egress (tapped sink_send).
Implicit Types (p : Logged datagrams) (q : Logged tunnel).

(** What the relay took from the WebSocket, followed by what waits there, is all
    that arrived; what the sink took is a binary message for each packet sent. *)
Definition egress_ok (arrived : list bytes) q : Prop :=
  received q ++ omap binary (Egress.incoming (inner q)) = arrived ∧
  (outgoing (inner q)).2 = MBinary <$> sent q.

Lemma recv_loop_binary (l : list (option (result Message Y))) :
  match recv_loop l with
  | (Ready (Ok (Some b)), rest) => omap binary l = b :: omap binary rest
  | (_, rest) => omap binary l = omap binary rest
  end.
Proof. induction l as [|[[[]|]|] l IH]; simpl; try done; by destruct (recv_loop l) as [[[[]|]|] ?]. Qed.

Lemma egress_ok_recv arr q r q' : recv_packet q = (r, q') → egress_ok arr q → egress_ok arr q'.
Proof.
  unfold egress_ok. intros Hr [Hq Hl]. simpl in Hr. unfold egress_recv in Hr.
  pose proof (recv_loop_binary (Egress.incoming (inner q))) as Hb.
  destruct (recv_loop (Egress.incoming (inner q))) as [[[[b|]|e]|] rest]; injection Hr as <- <-; simpl;
    rewrite Hb in Hq; (split; [|done]); [by rewrite <- (assoc_L (++))|done..].
Qed.

Lemma egress_ok_send arr b q r q' : send_packet b q = (r, q') → egress_ok arr q → egress_ok arr q'.
Proof.
  unfold egress_ok. intros Hr [Hq Hl]. simpl in Hr. unfold egress_send, tapped in Hr.
  destruct (sink_send (MBinary b) (outgoing (inner q)).1) as [r0 o]. injection Hr as <- <-. simpl.
  split; [done|]. rewrite Hl. destruct r0; simpl; [by rewrite fmap_app|done].
Qed.

Lemma peer_ok_recv cap offs p r p' : recv_packet p = (r, p') → rtc_ok cap offs p → rtc_ok cap offs p'.
Proof. by apply (rtc_ok_recv (X := X) BoxRtc). Qed.
Lemma peer_ok_send cap offs b p r p' : send_packet b p = (r, p') → rtc_ok cap offs p → rtc_ok cap offs p'.
Proof. by apply (rtc_ok_send channel_send BoxRtc). Qed.

Abbreviation session := (relay_session (tapped channel_send) (tapped sink_send)).

(** The same session over observed transports. *)
Definition watched_session (hs : list happening) p q
    : option (result RelayEnd (RelayError (BoxTransportError X Y))) * Logged datagrams * Logged tunnel :=
  relay (watch_event ∘ relay_event_of <$> hs) p q.

Lemma watched_session_ok cap hs offs arr p q r p' q' :
  watched_session hs p q = (r, p', q') →
  rtc_ok cap offs p → egress_ok arr q →
  rtc_ok cap (offs ++ omap message_packet hs) p' ∧
  ∃ later, egress_ok later q' ∧ later `prefix_of` (arr ++ omap arrival_packet hs).
Proof.
  revert offs arr p q. induction hs as [|h hs IH]; intros offs arr p q Hr Hp Hq.
  { injection Hr as <- <- <-. rewrite !app_nil_r. split; [done|]. by exists arr. }
  unfold watched_session in *. destruct h as [mv|m|first]; simpl in Hr |- *.
  - eapply IH in Hr; [|exact (rtc_ok_move cap offs p mv Hp)|by destruct q].
    rewrite <- (assoc_L (++)) in Hr. by destruct (move_packet mv).
  - eapply (IH offs (arr ++ option_list (binary m))) in Hr; [|by destruct p|].
    + destruct Hr as (? & later & ? & Hpre). split; [done|]. exists later. split; [done|].
      destruct (binary m); simpl in *;
        [rewrite <- (assoc_L (++)) in Hpre|rewrite app_nil_r in Hpre]; exact Hpre.
    + destruct Hq as [Hq Hl]. split; [|done]. simpl. rewrite omap_app, (assoc_L (++)), Hq. reflexivity.
  - destruct (relay_step first p q) as [[o p1] q1] eqn:Hstep.
    destruct (relay_step_preserved (rtc_ok cap offs) (egress_ok arr)
      (peer_ok_recv cap offs) (peer_ok_send cap offs)
      (egress_ok_recv arr) (egress_ok_send arr) _ _ _ _ _ _ Hstep Hp Hq) as [Hp1 Hq1].
    destruct o as [o|]; [|by eapply IH in Hr].
    injection Hr as <- <- <-. split; [by apply rtc_ok_grows|]. exists arr. split; [done|by apply prefix_app_r].
Qed.

Lemma prefix_sublist {A} (l k : list A) : l `prefix_of` k → l `sublist_of` k.
Proof. intros [m ->]. by apply sublist_inserts_r. Qed.

(** What was passed on is the beginning of what was taken. *)
Lemma in_transit_prefix {F A B} (src : Logged A) (dst : Logged B) r (failed : F → RelayError F) :
  in_transit src dst r failed → sent dst `prefix_of` received src.
Proof. intros [->|(b & x & -> & _)]; [done|by apply prefix_app_r]. Qed.

(** A peer proxy's session passes packets on as they are: whatever the data
    channel's callbacks, its full queue, the WebSocket's control messages and the
    scheduling do, the messages the WebSocket's sink takes are binary messages with
    packets the consumer sent on the data channel (the queue may drop some), and
    the packets the data channel takes are those of the egress, none left out, up to
    where the session has come; all unaltered, in order and without repetition. *)
Theorem proxy_session_passes_packets c cap d hs o r d' t' :
  with_capacity (c, []) cap = Some d →
  session hs d (MkTunnel [] (o, [])) = (r, d', t') →
  (outgoing t').2 `sublist_of` (MBinary <$> omap message_packet hs) ∧
  (channel d').2 `prefix_of` omap arrival_packet hs.
Proof.
  intros Hd Hr. unfold relay_session in Hr.
  destruct (watched_session hs (watch d) (watch (MkTunnel [] (o, [])))) as [[r0 p] q] eqn:Hw.
  destruct (watched_session_ok cap hs [] [] _ _ _ _ _ Hw) as [(_ & Hs & Hc) (later & [Hq Ho] & Hpre)].
  { by eapply rtc_ok_new. }
  { done. }
  unfold watched_session in Hw. rewrite list_fmap_compose in Hw.
  pose proof (eq_trans (eq_sym Hr) (relay_erase _ _ _ _ _ _ Hw)) as He. injection He as -> -> ->.
  apply relay_log in Hw as [H1 H2]; [|done..]. rewrite Ho, Hc. split.
  - apply fmap_sublist. etransitivity; [apply prefix_sublist, (in_transit_prefix _ _ _ _ H1)|].
    etransitivity; [|exact Hs]. by apply sublist_inserts_r.
  - etransitivity; [exact (in_transit_prefix _ _ _ _ H2)|].
    etransitivity; [|exact Hpre]. rewrite <- Hq; by apply prefix_app_r.
Qed.

(** ** The whole way *)
Section whole.
Context `{JsonText} `{Base64}.
#[local] Instance consumer_side : DatagramTransport (WebRtcDatagramError X) datagrams :=
  rtc_transport (tapped channel_send).

(** What happens to a consumer whose peers are data channels: a channel moves, or
    any other step of the sessions and of Quinn, where an attempt's channel is new
    when it opens. *)
Inductive consumer_event :=
| ChannelMoves (k : nat) (mv : channel_move)
| Otherwise (ev : system_event datagrams).

Definition system_event_of (e : consumer_event) : system_event datagrams :=
  match e with
  | ChannelMoves k mv => PeerMoves k (move mv)
  | Otherwise ev => ev
  end.

Definition consumer_event_ok (cap : nat) (e : consumer_event) : Prop :=
  match e with
  | ChannelMoves _ _ => True
  | Otherwise (PeerMoves _ _) => False
  | Otherwise (Open _ d) => ∃ c, with_capacity (c, []) cap = Some d
  | Otherwise ev => event_fits DEFAULT_PATH_MTU ev
  end.

(** The packets among the messages of attempt [k]'s data channel. *)
Definition event_offers (k : nat) (e : consumer_event) : option bytes :=
  match e with
  | ChannelMoves k' mv => if decide (k' = k) then move_packet mv else None
  | Otherwise _ => None
  end.

Lemma consumer_ok_recv cap offs p r p' : recv_packet p = (r, p') → rtc_ok cap offs p → rtc_ok cap offs p'.
Proof.
  apply (rtc_ok_recv (X := X) id). intros d. simpl. by destruct (rtc_recv_packet d) as [[[]|] ?].
Qed.
Lemma consumer_ok_send cap offs b p r p' : send_packet b p = (r, p') → rtc_ok cap offs p → rtc_ok cap offs p'.
Proof.
  apply (rtc_ok_send channel_send id). intros b' d. simpl. by destruct (rtc_send_packet _ b' d) as [[] ?].
Qed.

Implicit Types s : system chan (WebRtcDatagramError X) datagrams.

(** The peers' data channels over a run. *)
Lemma consumer_run_peers cap evs offs s s' :
  Forall (consumer_event_ok cap) evs → system_run (system_event_of <$> evs) s = Some s' →
  peers_ok (λ k, rtc_ok cap (offs k)) s →
  peers_ok (λ k, rtc_ok cap (offs k ++ omap (event_offers k) evs)) s'.
Proof.
  revert offs s. induction evs as [|e evs IH]; intros offs s Hok; simpl.
  { intros [= ->] Hs k x p Hk Hp. rewrite app_nil_r. by eapply Hs. }
  apply Forall_cons in Hok as [He Hok].
  destruct (system_step (system_event_of e) s) as [s1|] eqn:Hs1; [|done]. intros Hrun Hs.
  assert (peers_ok (λ k, rtc_ok cap (offs k ++ option_list (event_offers k e))) s1) as H1.
  { eapply (peers_step (λ k, rtc_ok cap (offs k))); [..|exact Hs1|exact Hs].
    - intros k p. apply rtc_ok_grows.
    - intros k p r p'. apply consumer_ok_recv.
    - intros k b p r p'. apply consumer_ok_send.
    - destruct e as [k mv|[]]; simpl; try done.
      + intros p Hp. rewrite decide_True by done. by apply rtc_ok_move.
      + destruct He as [c Hd]. rewrite app_nil_r. apply (rtc_ok_weaken []); [apply sublist_nil_l|].
        by eapply rtc_ok_new. }
  eapply IH in Hrun; [|done|exact H1]. intros k x p Hk Hp. specialize (Hrun k x p Hk Hp). simpl in Hrun.
  rewrite <- (assoc_L (++)) in Hrun. by destruct (event_offers k e).
Qed.

Lemma consumer_event_fits cap evs :
  Forall (consumer_event_ok cap) evs → Forall (event_fits DEFAULT_PATH_MTU) (system_event_of <$> evs).
Proof. rewrite Forall_fmap. intros Hok. eapply Forall_impl; [exact Hok|]. by intros [k mv|[]]. Qed.

Lemma submseteq_omap {A B} (f : A → option B) l k : l ⊆+ k → omap f l ⊆+ omap f k.
Proof.
  induction 1 as [|x l k _ IH|x y l|x l k _ IH|l k m _ IH1 _ IH2]; simpl.
  - done.
  - destruct (f x); [by apply submseteq_skip|done].
  - destruct (f x), (f y); try done. apply submseteq_swap.
  - destruct (f x); [by apply submseteq_cons|done].
  - by etransitivity.
Qed.

(** C3: The tunnel as a whole adds nothing to the traffic.  Take any run of a
    consumer with its sessions over data channels, one of its paths, and the session
    of the peer proxy at the other end of that path's data channel, where the
    network between the two channels may lose and reorder messages but neither
    alters nor invents nor repeats any.  Then every message the sink of the egress
    WebSocket took is a binary message with a datagram Quinn sent to the address of
    that path, and the datagrams Quinn read under that address are payloads of
    packets the egress server sent into this very tunnel; in either direction each
    at most as often as it was sent.  Quinn reads with buffers of at least the MTU. *)
Theorem tunnel_end_to_end addr s0 cap evs s k x a pc c proxy_cap d hs o r d' t' :
  system_new addr = Some s0 → Forall (consumer_event_ok cap) evs →
  system_run (system_event_of <$> evs) s0 = Some s →
  sy_attempts s !! k = Some x → attempt_addr x = Some a → attempt_peer x = Some pc →
  with_capacity (c, []) proxy_cap = Some d →
  session hs d (MkTunnel [] (o, [])) = (r, d', t') →
  omap message_packet hs ⊆+ (channel (inner pc)).2 →
  omap (event_offers k) evs ⊆+ (channel d').2 →
  (outgoing t').2 ⊆+ (MBinary <$> of_addr a (sy_sent s)) ∧
  of_addr a (sy_got s) ⊆+ payloads (omap arrival_packet hs).
Proof.
  intros Hnew Hok Hrun Hk Ha Hpc Hd Hr Hup Hdown.
  destruct (system_new_inv _ _ Hnew) as [HM I0].
  destruct (system_run_inv _ _ _ _ (consumer_event_fits _ _ Hok) Hrun HM I0) as [_ I].
  destruct (attempt_flows _ _ _ _ _ _ I Hk Ha Hpc) as [Hgot Hsent].
  assert (rtc_ok cap ([] ++ omap (event_offers k) evs) pc) as (_ & Htaken & Htap).
  { eapply (consumer_run_peers cap evs (λ _, [])); [done..| |exact Hk|exact Hpc].
    unfold system_new in Hnew. destruct (new addr); [|done]. injection Hnew as <-. by intros ???. }
  destruct (proxy_session_passes_packets _ _ _ _ _ _ _ _ Hd Hr) as [Hq Hp]. split.
  - etransitivity; [by apply sublist_submseteq|]. apply fmap_submseteq.
    etransitivity; [exact Hup|]. rewrite Htap. by apply sublist_submseteq.
  - etransitivity; [by apply sublist_submseteq|]. apply submseteq_omap.
    etransitivity; [apply sublist_submseteq; etransitivity; [|exact Htaken]; by apply sublist_inserts_r|].
    etransitivity; [exact Hdown|]. by apply sublist_submseteq, prefix_sublist.
Qed.
End whole.
End tunnel_properties.

(** ** A packet each way *)
Module TunnelDemo.
#[local] Existing Instance gen_json_text.
#[local] Existing Instance base64_standard.
Import SystemDemo.

Definition channel_send : bytes → unit → result Z unit * unit := λ b c, (Ok (Z.of_nat (length b)), c).
Definition sink_send : Message → unit → result unit unit * unit := λ m o, (Ok tt, o).
Definition answer : bytes := encode_packet (MkPacket "egress" [x01]).
Abbreviation channel_end := (WebRtcDatagrams Queue (unit * list bytes)).
#[local] Instance demo_side : DatagramTransport (WebRtcDatagramError unit) channel_end :=
  rtc_transport (tapped channel_send).

(** Either end's data channel when it opens. *)
Definition d : channel_end := MkDatagrams (tt, []) (MkQueue [] 4 2 true) 0.
Lemma d_new : with_capacity (tt, []) 4 = Some d.
Proof. reflexivity. Qed.

(** The proxy's session: the consumer's datagram and the egress server's packet,
    with a ping in between. *)
Definition hs : list (happening (Y := unit)) :=
  [PeerChannel (CallbackMessage (MkMessage false [x0a])); EgressArrives (Some (Ok (MPing [])));
   EgressArrives (Some (Ok (MBinary answer))); RelayTurn EgressSide; RelayTurn EgressSide; RelayTurn PeerSide].

Abbreviation session :=
  (relay_session (tapped channel_send) (tapped sink_send) hs d (MkTunnel [] (tt, []))).
Definition peer_end : channel_end := session.1.2.
Definition egress_end : EgressTunnel (X := unit) (O := unit * list Message) := session.2.
Lemma relay_session_runs : session = (None, peer_end, egress_end).
Proof. vm_compute. reflexivity. Qed.

Lemma proxy_session_passes_packets_witness :
  (outgoing egress_end).2 = [MBinary [x0a]] ∧ (channel peer_end).2 = [answer] ∧
  (outgoing egress_end).2 `sublist_of` (MBinary <$> omap message_packet hs).
Proof.
  split_and!; [vm_compute; reflexivity..|].
  exact (proj1 (proxy_session_passes_packets channel_send sink_send tt 4 d hs tt None peer_end egress_end
    d_new relay_session_runs)).
Defined.

(** The consumer's run: a session opens, Quinn sends a datagram, the answer comes
    back and is read. *)
Definition consumer_events : list (consumer_event (chan := Queue) (C := unit)) :=
  [Otherwise Begin; Otherwise (Open 0 d); Otherwise (Enter 0 8);
   Otherwise (SendStart (MkTransmit first_addr [x0a])); Otherwise (SendFinish 0);
   Otherwise (Iterate 0 false); ChannelMoves 0 (CallbackMessage (MkMessage false answer));
   Otherwise (Iterate 0 false); Otherwise (Poll buf)].

Definition consumer_started : system Queue (WebRtcDatagramError unit) channel_end :=
  MkSystem (MkWorld (Some (MkSocket here DEFAULT_PATH_MTU ∅)) (q_new DEFAULT_QUEUE_CAPACITY) ∅ ∅ 0)
    allocator_new [] [] [] [].
Definition consumer_finished : system Queue (WebRtcDatagramError unit) channel_end :=
  default consumer_started (system_run (system_event_of <$> consumer_events) consumer_started).
Definition consumer_peer : Logged channel_end :=
  MkLogged (MkDatagrams (tt, [[x0a]]) (MkQueue [] 4 2 true) 0) [[x0a]] [answer].

Lemma consumer_starts : system_new here = Some consumer_started.
Proof. reflexivity. Qed.
Lemma consumer_runs : system_run (system_event_of <$> consumer_events) consumer_started = Some consumer_finished.
Proof. vm_compute. reflexivity. Qed.
Lemma consumer_events_ok : Forall (consumer_event_ok 4) consumer_events.
Proof. repeat constructor. by exists tt. Qed.

Lemma tunnel_end_to_end_witness :
  sy_got consumer_finished = [(first_addr, [x01])] ∧ (outgoing egress_end).2 = [MBinary [x0a]] ∧
  (outgoing egress_end).2 ⊆+ (MBinary <$> of_addr first_addr (sy_sent consumer_finished)) ∧
  of_addr first_addr (sy_got consumer_finished) ⊆+ payloads (omap arrival_packet hs).
Proof.
  split; [vm_compute; reflexivity|]. split; [vm_compute; reflexivity|].
  assert (Hk : sy_attempts consumer_finished !! 0 = Some (OnPath first_addr 0 consumer_peer (Some "egress")))
    by (vm_compute; reflexivity).
  assert (Hup : omap (message_packet (Y := unit)) hs ⊆+ (channel (inner consumer_peer)).2) by done.
  assert (Hdown : omap (event_offers 0) consumer_events ⊆+ (channel peer_end).2).
  { assert ((channel peer_end).2 = omap (event_offers 0) consumer_events) as -> by (vm_compute; reflexivity).
    done. }
  exact (tunnel_end_to_end channel_send sink_send here consumer_started 4 consumer_events consumer_finished 0 _
    first_addr consumer_peer tt 4 d hs tt None peer_end egress_end consumer_starts consumer_events_ok
    consumer_runs Hk eq_refl eq_refl d_new relay_session_runs Hup Hdown).
Defined.
End TunnelDemo.
