(* ===== verification/Socks5.v ===== *)
(** The SOCKS5 handshake of the consumer ([src/consumer_socks5.rs]).

    The stream is any value with [AsyncRead] and [AsyncWrite]: the class
    [ByteStream] has the two calls the code makes, and [ByteStreamLaws] what their
    documentation says of them, in terms of the bytes written so far and the bytes
    the other side will have sent. *)
From S2P Require Import Prelude Net.

Inductive Socks5Target :=
| Ip (address : SocketAddr)
| Domain (host : string) (port : Z).

(** [Q] and [X] are the errors of the QUIC layer and of stream I/O. *)
Inductive ConsumerSocks5Error (Q X : Type) :=
| Quic (error : Q)
| Socks5Cancelled
| Io (error : X)
| DomainTooLong (length : nat)
| EmptyDomain
| UnsupportedAuth (m : byte)
| InvalidVersion (v : byte)
| ConnectRejected (status : byte)
| InvalidReserved (b : byte)
| InvalidAddressType (t : byte).
Arguments Quic {Q X} error.
Arguments Socks5Cancelled {Q X}.
Arguments Io {Q X} error.
Arguments DomainTooLong {Q X} length.
Arguments EmptyDomain {Q X}.
Arguments UnsupportedAuth {Q X} m.
Arguments InvalidVersion {Q X} v.
Arguments ConnectRejected {Q X} status.
Arguments InvalidReserved {Q X} b.
Arguments InvalidAddressType {Q X} t.

Class ByteStream (X S : Type) := {
  write_all : bytes → S → result unit X * S;
  read_exact : nat → S → result bytes X * S
}.

(** [tx] is what was written to the stream, [rx] what can still be read from it,
    [healthy] that the stream has not failed: then writes succeed, and so do reads
    the other side has sent enough for. *)
Class ByteStreamLaws (X S : Type) `{!ByteStream X S} := {
  tx : S → bytes;
  rx : S → bytes;
  healthy : S → Prop;
  write_all_ok : ∀ b s s', write_all b s = (Ok tt, s') →
    tx s' = tx s ++ b ∧ rx s' = rx s ∧ (healthy s → healthy s');
  write_all_healthy : ∀ b s, healthy s → ∃ s', write_all b s = (Ok tt, s');
  read_exact_ok : ∀ n s b s', read_exact n s = (Ok b, s') →
    length b = n ∧ rx s = b ++ rx s' ∧ tx s' = tx s ∧ (healthy s → healthy s');
  read_exact_healthy : ∀ n s, healthy s → n ≤ length (rx s) →
    ∃ b s', read_exact n s = (Ok b, s')
}.

Section socks5.
Context {Q X S : Type} `{!ByteStream X S}.

Abbreviation error := (ConsumerSocks5Error Q X).
Abbreviation io A := (S → result A error * S).

Definition greeting : bytes := [x05; x01; x00].

(** [buf[i]] of an array the read has filled. *)
Definition at_index (b : bytes) (i : nat) : byte := nth i b x00.

(** The bytes of the CONNECT request, or the error of a bad domain. *)
Definition connect_request (target : Socks5Target) : result bytes error :=
  let request := [x05; x01; x00] in
  match target with
  | Ip (SocketAddrV4 ip port) =>
      Ok (request ++ [x01] ++ ipv4_octets ip ++ port_be_bytes port)
  | Ip (SocketAddrV6 ip port _ _) =>
      Ok (request ++ [x04] ++ ipv6_octets ip ++ port_be_bytes port)
  | Domain host port =>
      let host := string_bytes host in
      if decide (host = []) then Err EmptyDomain
      else if decide (Z.of_nat (length host) ≤ u8_max)%Z then
        Ok (request ++ [x03; byte_wrap (Z.of_nat (length host))] ++ host ++ port_be_bytes port)
      else Err (DomainTooLong (length host))
  end.

Definition check (ok : bool) (e : error) : io unit := st_lift (if ok then Ok tt else Err e).

Definition write (b : bytes) : io unit := st_map_err Io (write_all b).
Definition read (n : nat) : io bytes := st_map_err Io (read_exact n).

(** The length of the bound address that follows the reply's header. *)
Definition address_length (address_type : byte) : io nat :=
  match address_type with
  | x01 => st_lift (Ok 4)
  | x04 => st_lift (Ok 16)
  | x03 => let* length := read 1 in st_lift (Ok (Z.to_nat (byte_val (at_index length 0))))
  | _ => st_lift (Err (InvalidAddressType address_type))
  end.

Definition socks5_connect (target : Socks5Target) : io unit :=
  let* _ := write greeting in
  let* selected := read 2 in
  let* _ := check (bool_decide (at_index selected 0 = x05)) (InvalidVersion (at_index selected 0)) in
  let* _ := check (bool_decide (at_index selected 1 = x00)) (UnsupportedAuth (at_index selected 1)) in
  let* request := st_lift (connect_request target) in
  let* _ := write request in
  let* reply := read 4 in
  let* _ := check (bool_decide (at_index reply 0 = x05)) (InvalidVersion (at_index reply 0)) in
  let* _ := check (bool_decide (at_index reply 1 = x00)) (ConnectRejected (at_index reply 1)) in
  let* _ := check (bool_decide (at_index reply 2 = x00)) (InvalidReserved (at_index reply 2)) in
  let* n := address_length (at_index reply 3) in
  let* _ := read (n + 2) in
  st_lift (Ok tt).
End socks5.

(** ** The protocol the server side speaks

    A success reply of RFC 1928: the header, a bound address of one of the three
    types, a port. *)
Inductive success_reply : bytes → Prop :=
| reply_v4 a p : length a = 4 → length p = 2 →
    success_reply ([x05; x00; x00; x01] ++ a ++ p)
| reply_v6 a p : length a = 16 → length p = 2 →
    success_reply ([x05; x00; x00; x04] ++ a ++ p)
| reply_domain n a p : byte_val n = Z.of_nat (length a) → length p = 2 →
    success_reply ([x05; x00; x00; x03; n] ++ a ++ p).

(** How a server reads a CONNECT request: the target and what follows it. *)
Definition parse_request (b : bytes) : option (Socks5Target * bytes) :=
  match b with
  | x05 :: x01 :: x00 :: x01 :: b =>
      if decide (6 ≤ length b) then
        Some (Ip (SocketAddrV4 (be_value (take 4 b)) (be_value (take 2 (drop 4 b)))), drop 6 b)
      else None
  | x05 :: x01 :: x00 :: x04 :: b =>
      if decide (18 ≤ length b) then
        Some (Ip (SocketAddrV6 (be_value (take 16 b)) (be_value (take 2 (drop 16 b))) 0 0), drop 18 b)
      else None
  | x05 :: x01 :: x00 :: x03 :: n :: b =>
      let n := Z.to_nat (byte_val n) in
      if decide (n + 2 ≤ length b) then
        Some (Domain (bytes_string (take n b)) (be_value (take 2 (drop n b))), drop (n + 2) b)
      else None
  | _ => None
  end.

(** What of a target the protocol carries: no flow information, no scope. *)
Definition on_the_wire (t : Socks5Target) : Socks5Target :=
  match t with
  | Ip a => Ip (socket_addr_new (sa_ip a) (sa_port a))
  | Domain host port => Domain host port
  end.

Definition target_wf (t : Socks5Target) : Prop :=
  match t with
  | Ip a => sa_wf a
  | Domain _ port => (0 ≤ port ≤ u16_max)%Z
  end.

Section properties.
Context {Q X S : Type} `{!ByteStream X S} `{!ByteStreamLaws X S}.
Implicit Types s : S.

Abbreviation error := (ConsumerSocks5Error Q X).

Lemma write_ok_inv b s s' :
  write (Q := Q) b s = (Ok tt, s') →
  tx s' = tx s ++ b ∧ rx s' = rx s ∧ (healthy s → healthy s').
Proof.
  unfold write, st_map_err. destruct (write_all b s) as [[[]|e] s1] eqn:Hw; intros; simplify_eq/=.
  by apply write_all_ok.
Qed.

Lemma read_ok_inv n s b s' :
  read (Q := Q) n s = (Ok b, s') →
  length b = n ∧ rx s = b ++ rx s' ∧ tx s' = tx s ∧ (healthy s → healthy s').
Proof.
  unfold read, st_map_err. destruct (read_exact n s) as [[b'|e] s1] eqn:Hr; intros; simplify_eq/=.
  by apply read_exact_ok.
Qed.

Lemma write_healthy b s :
  healthy s → ∃ s', write (Q := Q) b s = (Ok tt, s') ∧
    healthy s' ∧ tx s' = tx s ++ b ∧ rx s' = rx s.
Proof.
  intros Hh. destruct (write_all_healthy b s Hh) as [s' Hw]. exists s'.
  unfold write, st_map_err. rewrite Hw. split; [done|].
  destruct (write_all_ok _ _ _ Hw) as (? & ? & ?). auto.
Qed.

Lemma read_healthy b rest s :
  healthy s → rx s = b ++ rest → ∃ s', read (Q := Q) (length b) s = (Ok b, s') ∧
    healthy s' ∧ rx s' = rest ∧ tx s' = tx s.
Proof.
  intros Hh Hrx. destruct (read_exact_healthy (length b) s Hh) as (b' & s' & Hr).
  { rewrite Hrx, length_app. lia. }
  destruct (read_exact_ok _ _ _ _ Hr) as (Hlen & Hrx' & Htx & Hh').
  rewrite Hrx in Hrx'. apply app_inj_1 in Hrx' as [-> ->]; [|done]. exists s'.
  unfold read, st_map_err. rewrite Hr. auto.
Qed.

Lemma check_ok_inv ok e s s' :
  check (Q := Q) (X := X) ok e s = (Ok tt, s') → ok = true ∧ s' = s.
Proof. unfold check, st_lift. destruct ok; naive_solver. Qed.

Lemma bytes4 (b : bytes) :
  length b = 4 → b = [at_index b 0; at_index b 1; at_index b 2; at_index b 3].
Proof. by destruct b as [|? [|? [|? [|? []]]]]. Qed.

Lemma bytes2 (b : bytes) : length b = 2 → b = [at_index b 0; at_index b 1].
Proof. by destruct b as [|? [|? []]]. Qed.

Lemma bytes1 (b : bytes) : length b = 1 → b = [at_index b 0].
Proof. by destruct b as [|? []]. Qed.

(** The address length and the bound address, of a success reply. *)
Lemma address_length_ok t s n s1 b s2 :
  address_length (Q := Q) t s = (Ok n, s1) → read (Q := Q) (n + 2) s1 = (Ok b, s2) →
  ∃ r, rx s = r ++ rx s2 ∧ tx s2 = tx s ∧ success_reply ([x05; x00; x00; t] ++ r).
Proof.
  intros Ht Hr. apply read_ok_inv in Hr as (Hlen & Hrx & Htx & _).
  assert (Hb : b = take n b ++ drop n b) by (symmetry; apply take_drop).
  assert (Hl1 : length (take n b) = n) by (rewrite length_take; lia).
  assert (Hl2 : length (drop n b) = 2) by (rewrite length_drop; lia).
  destruct t; simpl in Ht; unfold st_lift in Ht; simplify_eq.
  - exists b. split_and!; [done..|]. rewrite Hb. by constructor.
  - apply st_bind_Ok_inv in Ht as (l & s3 & Hl & Ht). simplify_eq.
    apply read_ok_inv in Hl as (Hl0 & Hrx0 & Htx0 & _). exists (l ++ b).
    split_and!; [by rewrite Hrx0, Hrx, (assoc_L (++))|congruence|].
    rewrite (bytes1 l Hl0), Hb. apply (reply_domain (at_index l 0)); [|done].
    rewrite Hl1. pose proof (byte_val_range (at_index l 0)). lia.
  - exists b. split_and!; [done..|]. rewrite Hb. by constructor.
Qed.

Lemma address_length_healthy t r rest s :
  healthy s → success_reply ([x05; x00; x00; t] ++ r) → rx s = r ++ rest →
  ∃ n s1 b s2, address_length (Q := Q) t s = (Ok n, s1) ∧ read (Q := Q) (n + 2) s1 = (Ok b, s2) ∧
    rx s2 = rest.
Proof.
  intros Hh Hr Hrx. inversion Hr as [a p Ha Hp Heq|a p Ha Hp Heq|n a p Hn Hp Heq]; subst.
  - edestruct (read_healthy (a ++ p) rest s Hh Hrx) as (s' & Hread & _ & ? & _).
    rewrite length_app, Ha, Hp in Hread. by exists 4, s, (a ++ p), s'.
  - edestruct (read_healthy (a ++ p) rest s Hh Hrx) as (s' & Hread & _ & ? & _).
    rewrite length_app, Ha, Hp in Hread. by exists 16, s, (a ++ p), s'.
  - edestruct (read_healthy [n] (a ++ p ++ rest) s Hh) as (s1 & Hread1 & Hh1 & Hrx1 & _).
    { rewrite Hrx. simpl. by rewrite <- (assoc_L (++)). }
    edestruct (read_healthy (a ++ p) rest s1 Hh1) as (s' & Hread & _ & ? & _).
    { by rewrite Hrx1, <- (assoc_L (++)). }
    rewrite length_app, Hp in Hread. exists (length a), s1, (a ++ p), s'. split_and!; [|done..].
    simpl. erewrite st_bind_step by exact Hread1. unfold st_lift.
    change (at_index [n] 0) with n. by rewrite Hn, Nat2Z.id.
Qed.

(** The fields after a request's header. *)
Lemma parse_fields header addr port rest n (P : bytes → Prop) :
  (0 ≤ port ≤ u16_max)%Z → length addr = n →
  (take n (addr ++ port_be_bytes port ++ rest) = addr →
   be_value (take 2 (drop n (addr ++ port_be_bytes port ++ rest))) = port →
   drop (n + 2) (addr ++ port_be_bytes port ++ rest) = rest →
   P (header ++ addr ++ port_be_bytes port ++ rest)) →
  P ((header ++ addr ++ port_be_bytes port) ++ rest).
Proof.
  intros Hp Hn HP. rewrite <- !(assoc_L (++)). apply HP.
  - rewrite <- Hn. apply take_app_length.
  - rewrite <- Hn, drop_app_length. rewrite take_app_length' by (symmetry; apply length_be_bytes).
    by apply be_value_port.
  - rewrite (assoc_L (++)). apply drop_app_length'. unfold port_be_bytes. rewrite length_app, length_be_bytes. lia.
Qed.

(** The request is read back by a server as the target it was made for (less
    the flow label and scope of an IPv6 address, which the protocol does not
    carry), with nothing left over or missing; the only targets without a request
    are domains of length 0 or above 255. *)
Theorem connect_request_roundtrip target rest :
  target_wf target →
  match connect_request (Q := Q) (X := X) target with
  | Ok request => parse_request (request ++ rest) = Some (on_the_wire target, rest)
  | Err e => ∃ host port, target = Domain host port ∧
      ((host = "" ∧ e = EmptyDomain) ∨
       (255 < length (string_bytes host) ∧ e = DomainTooLong (length (string_bytes host))))
  end.
Proof.
  intros Hwf. destruct target as [[ip port|ip port flow scope]|host port]; cbn [connect_request].
  - destruct Hwf. apply (parse_fields [x05; x01; x00; x01] (ipv4_octets ip) port rest 4
      (λ b, parse_request b = Some (Ip (SocketAddrV4 ip port), rest))); [done..|].
    intros Ha Hp Hd. cbn [app parse_request]. rewrite decide_True by (rewrite !length_app; unfold port_be_bytes, ipv4_octets, ipv6_octets; rewrite !length_be_bytes; lia).
    change (4 + 2) with 6 in Hd. by rewrite Ha, Hp, Hd, be_value_ipv4_octets.
  - destruct Hwf. apply (parse_fields [x05; x01; x00; x04] (ipv6_octets ip) port rest 16
      (λ b, parse_request b = Some (Ip (SocketAddrV6 ip port 0 0), rest))); [done..|].
    intros Ha Hp Hd. cbn [app parse_request]. rewrite decide_True by (rewrite !length_app; unfold port_be_bytes, ipv4_octets, ipv6_octets; rewrite !length_be_bytes; lia).
    change (16 + 2) with 18 in Hd. by rewrite Ha, Hp, Hd, be_value_ipv6_octets.
  - case_decide as He; [exists host, port; split; [done|left; by rewrite <- string_bytes_empty]|].
    case_decide as Hl; [|exists host, port; split; [done|right; split; [unfold u8_max in Hl; lia|done]]].
    apply (parse_fields [x05; x01; x00; x03; byte_wrap (Z.of_nat (length (string_bytes host)))]
      (string_bytes host) port rest (length (string_bytes host))
      (λ b, parse_request b = Some (Domain host port, rest))); [done..|].
    intros Ha Hp Hd. cbn [app parse_request]. rewrite byte_val_wrap, Z.mod_small, Nat2Z.id
      by (unfold u8_max in Hl; lia).
    rewrite decide_True by (rewrite !length_app; unfold port_be_bytes; rewrite length_be_bytes; lia).
    by rewrite Ha, Hp, Hd, bytes_string_bytes.
Qed.
(** C22: a handshake that succeeds is a SOCKS5 handshake: it wrote exactly the
    greeting and a CONNECT request that a server reads as this target, with nothing
    left over; it read exactly the server's method choice and one success reply of
    variable length, and everything the server sent after the reply is still there
    for the caller. *)
Theorem socks5_connect_sound target s s' :
  socks5_connect (Q := Q) target s = (Ok tt, s') →
  ∃ request reply, connect_request (Q := Q) (X := X) target = Ok request ∧ success_reply reply ∧
    tx s' = tx s ++ [x05; x01; x00] ++ request ∧ rx s = [x05; x00] ++ reply ++ rx s' ∧
    (target_wf target → parse_request request = Some (on_the_wire target, [])).
Proof.
  unfold socks5_connect. intros Hc.
  apply st_bind_Ok_inv in Hc as ([] & s1 & Hw1 & Hc). apply write_ok_inv in Hw1 as (Ht1 & Hr1 & _).
  apply st_bind_Ok_inv in Hc as (sel & s2 & Hrd2 & Hc). apply read_ok_inv in Hrd2 as (Hl2 & Hr2 & Ht2 & _).
  apply st_bind_Ok_inv in Hc as ([] & ? & [Hv ->]%check_ok_inv & Hc).
  apply st_bind_Ok_inv in Hc as ([] & ? & [Ha ->]%check_ok_inv & Hc).
  apply st_bind_Ok_inv in Hc as (request & ? & [= Hreq <-] & Hc).
  apply st_bind_Ok_inv in Hc as ([] & s3 & Hw3 & Hc). apply write_ok_inv in Hw3 as (Ht3 & Hr3 & _).
  apply st_bind_Ok_inv in Hc as (reply & s4 & Hrd4 & Hc). apply read_ok_inv in Hrd4 as (Hl4 & Hr4 & Ht4 & _).
  apply st_bind_Ok_inv in Hc as ([] & ? & [Hv4 ->]%check_ok_inv & Hc).
  apply st_bind_Ok_inv in Hc as ([] & ? & [Hc4 ->]%check_ok_inv & Hc).
  apply st_bind_Ok_inv in Hc as ([] & ? & [Hz4 ->]%check_ok_inv & Hc).
  apply st_bind_Ok_inv in Hc as (n & s5 & Hal & Hc).
  apply st_bind_Ok_inv in Hc as (b & s6 & Hrd6 & [= <-]).
  destruct (address_length_ok _ _ _ _ _ _ Hal Hrd6) as (r & Hr & Ht & Hrep).
  apply bool_decide_eq_true in Hv, Ha, Hv4, Hc4, Hz4.
  rewrite (bytes2 _ Hl2), Hv, Ha in Hr2. rewrite (bytes4 _ Hl4), Hv4, Hc4, Hz4 in Hr4.
  exists request, ([x05; x00; x00; at_index reply 3] ++ r). split_and!; [done..| | |].
  - by rewrite Ht, Ht4, Ht3, Ht2, Ht1, <- (assoc_L (++)).
  - by rewrite <- Hr1, Hr2, <- Hr3, Hr4, Hr, <- (assoc_L (++)).
  - intros Hwf. pose proof (connect_request_roundtrip target [] Hwf) as Hp. by rewrite Hreq, app_nil_r in Hp.
Qed.

(** The greeting and the server's choice, on a healthy stream: the handshake has
    reached its first check. *)
Lemma handshake_start target v m rest s :
  healthy s → rx s = [v; m] ++ rest →
  ∃ s1, healthy s1 ∧ tx s1 = tx s ++ greeting ∧ rx s1 = rest ∧
    socks5_connect (Q := Q) target s =
      (if decide (v = x05) then
        if decide (m = x00) then
          (let* request := st_lift (connect_request target) in
           let* _ := write request in
           let* reply := read 4 in
           let* _ := check (bool_decide (at_index reply 0 = x05)) (InvalidVersion (at_index reply 0)) in
           let* _ := check (bool_decide (at_index reply 1 = x00)) (ConnectRejected (at_index reply 1)) in
           let* _ := check (bool_decide (at_index reply 2 = x00)) (InvalidReserved (at_index reply 2)) in
           let* n := address_length (at_index reply 3) in
           let* _ := read (n + 2) in
           st_lift (Ok tt)) s1
        else (Err (UnsupportedAuth m), s1)
      else (Err (InvalidVersion v), s1)).
Proof.
  intros Hh Hrx. destruct (write_healthy greeting s Hh) as (s0 & Hw & Hh0 & Ht0 & Hr0).
  destruct (read_healthy [v; m] rest s0 Hh0) as (s1 & Hr & Hh1 & Hr1 & Ht1); [congruence|].
  exists s1. split_and!; [done|congruence|done|].
  unfold socks5_connect. erewrite st_bind_step by exact Hw. erewrite st_bind_step by exact Hr.
  change (at_index [v; m] 0) with v. change (at_index [v; m] 1) with m.
  unfold check at 1 2, st_bind at 1 2, st_lift at 1 2. 
  do 2 (case_decide; simplify_eq/=; [|by rewrite bool_decide_eq_false_2]). done.
Qed.

(** The request and the reply's header. *)
Lemma handshake_reply target request a b c t rest s :
  healthy s → connect_request (Q := Q) (X := X) target = Ok request → rx s = [x05; x00; a; b; c; t] ++ rest →
  ∃ s2, healthy s2 ∧ tx s2 = tx s ++ greeting ++ request ∧ rx s2 = rest ∧
    socks5_connect (Q := Q) target s =
      (if decide (a = x05) then
        if decide (b = x00) then
          if decide (c = x00) then
            (let* n := address_length t in let* _ := read (n + 2) in st_lift (Ok tt)) s2
          else (Err (InvalidReserved c), s2)
        else (Err (ConnectRejected b), s2)
      else (Err (InvalidVersion a), s2)).
Proof.
  intros Hh Hreq Hrx.
  destruct (handshake_start target x05 x00 ([a; b; c; t] ++ rest) s Hh Hrx) as (s1 & Hh1 & Ht1 & Hr1 & ->).
  rewrite !decide_True by done. unfold st_lift at 1. rewrite Hreq.
  erewrite st_bind_step by done.
  destruct (write_healthy request s1 Hh1) as (s0 & Hw & Hh0 & Ht0 & Hr0).
  destruct (read_healthy [a; b; c; t] rest s0 Hh0) as (s2 & Hr & Hh2 & Hr2 & Ht2); [congruence|].
  exists s2. split_and!; [done|by rewrite Ht2, Ht0, Ht1, <- (assoc_L (++))|done|].
  erewrite st_bind_step by exact Hw. erewrite st_bind_step by exact Hr.
  change (at_index [a; b; c; t] 0) with a. change (at_index [a; b; c; t] 1) with b.
  change (at_index [a; b; c; t] 2) with c. change (at_index [a; b; c; t] 3) with t.
  unfold check, st_bind at 1 2 3, st_lift at 1 2 3.
  do 3 (case_decide; simplify_eq/=; [|by rewrite bool_decide_eq_false_2]). done.
Qed.

(** C23: against a server that accepts, the handshake does succeed: on a healthy
    stream that carries the no-authentication choice and any well-formed success
    reply, for every target with an encodable address, the call returns and leaves
    exactly the bytes after the reply. *)
Theorem socks5_connect_complete target request reply rest s :
  healthy s → connect_request (Q := Q) (X := X) target = Ok request → success_reply reply →
  rx s = [x05; x00] ++ reply ++ rest →
  ∃ s', socks5_connect (Q := Q) target s = (Ok tt, s') ∧ rx s' = rest.
Proof.
  intros Hh Hreq Hrep Hrx.
  assert (∃ t r, reply = [x05; x00; x00; t] ++ r) as (t & r & ->) by (inversion Hrep; by do 2 eexists).
  destruct (handshake_reply target request x05 x00 x00 t (r ++ rest) s Hh Hreq Hrx)
    as (s2 & Hh2 & _ & Hr2 & ->).
  rewrite !decide_True by done.
  destruct (address_length_healthy t r rest s2 Hh2 Hrep Hr2) as (n & s3 & b & s' & Hn & Hb & Hrest).
  exists s'. split; [|done]. erewrite st_bind_step by exact Hn. by erewrite st_bind_step by exact Hb.
Qed.

(** What keeps a target from being asked for at all. *)
Definition bad_domain (target : Socks5Target) : option (ConsumerSocks5Error Q X) :=
  match target with
  | Domain host _ =>
      if decide (host = "") then Some EmptyDomain
      else if decide (255 < length (string_bytes host)) then Some (DomainTooLong (length (string_bytes host)))
      else None
  | Ip _ => None
  end.

Lemma connect_request_bad target :
  match bad_domain target with
  | Some e => connect_request target = Err e
  | None => ∃ request, connect_request (Q := Q) (X := X) target = Ok request
  end.
Proof.
  destruct target as [[]|host port]; simpl; [by eexists..|].
  pose proof (string_bytes_empty host). unfold u8_max. repeat case_decide; (tauto || lia || done || by eexists).
Qed.

(** C24: every refusal is reported for what it is and at the right moment: a wrong
    version or an authentication method is reported before the request is written;
    so are an empty domain and one of more than 255 bytes; otherwise a request that a
    server reads as this very target is written, and then a reply of another
    version, a rejected CONNECT, a non-zero reserved byte and an unknown address type
    are each reported with the offending byte, in that order. *)
Theorem socks5_connect_refused target v m rest s :
  target_wf target → healthy s → rx s = [v; m] ++ rest →
  ∃ s1, tx s1 = tx s ++ [x05; x01; x00] ∧ rx s1 = rest ∧
  if decide (v = x05) then
    if decide (m = x00) then
      match bad_domain target with
      | Some e => socks5_connect (Q := Q) target s = (Err e, s1)
      | None => ∃ request, parse_request request = Some (on_the_wire target, []) ∧
          ∀ a b c t rest', rest = [a; b; c; t] ++ rest' →
          ∃ s2, tx s2 = tx s ++ [x05; x01; x00] ++ request ∧ rx s2 = rest' ∧
            (a ≠ x05 → socks5_connect (Q := Q) target s = (Err (InvalidVersion a), s2)) ∧
            (a = x05 → b ≠ x00 → socks5_connect (Q := Q) target s = (Err (ConnectRejected b), s2)) ∧
            (a = x05 → b = x00 → c ≠ x00 → socks5_connect (Q := Q) target s = (Err (InvalidReserved c), s2)) ∧
            (a = x05 → b = x00 → c = x00 → t ∉ [x01; x03; x04] →
               socks5_connect (Q := Q) target s = (Err (InvalidAddressType t), s2))
      end
    else socks5_connect (Q := Q) target s = (Err (UnsupportedAuth m), s1)
  else socks5_connect (Q := Q) target s = (Err (InvalidVersion v), s1).
Proof.
  intros Hwf Hh Hrx. destruct (handshake_start target v m rest s Hh Hrx) as (s1 & Hh1 & Ht1 & Hr1 & Hc).
  exists s1. split_and!; [done..|]. repeat case_decide; try exact Hc.
  pose proof (connect_request_bad target) as Hbad. destruct (bad_domain target) as [e|]; [by rewrite Hbad in Hc|].
  destruct Hbad as [request Hreq]. exists request. split.
  { pose proof (connect_request_roundtrip target [] Hwf) as Hp. by rewrite Hreq, app_nil_r in Hp. }
  intros a b c t rest' ->. subst v m. clear Hc.
  destruct (handshake_reply target request a b c t rest' s Hh Hreq Hrx) as (s2 & _ & Ht2 & Hr2 & Hc).
  exists s2. rewrite Hc. split_and!; [done..| | | |]; intros; repeat case_decide; try done.
  destruct t; try done; exfalso; match goal with H : _ ∉ _ |- _ => apply H end; set_solver.
Qed.
End properties.

(** ** A stream to run it on *)
Module PipeDemo.
Record pipe := Mk { p_tx : bytes; p_rx : bytes }.

(** Reads past the end fail, as at the end of a file. *)
#[export] Instance pipe_stream : ByteStream unit pipe := {
  write_all b s := (Ok tt, Mk (p_tx s ++ b) (p_rx s));
  read_exact n s :=
    if decide (n ≤ length (p_rx s)) then (Ok (take n (p_rx s)), Mk (p_tx s) (drop n (p_rx s)))
    else (Err tt, s)
}.

#[export] Instance pipe_laws : ByteStreamLaws unit pipe.
Proof.
  refine {| tx := p_tx; rx := p_rx; healthy := λ _, True |}; simpl.
  - by intros b s s' [= <-].
  - eauto.
  - intros n s b s'. case_decide; intros; simplify_eq/=. rewrite length_take, take_drop.
    split_and!; [lia|done..].
  - intros n s _ Hn. rewrite decide_True by done. eauto.
Defined.

Definition target : Socks5Target := Domain "example.com" 443.

Definition request : bytes :=
  [x05; x01; x00; x03; x0b] ++ string_bytes "example.com" ++ [x01; xbb].

Definition reply : bytes := [x05; x00; x00; x03; x02; x61; x62; x00; x50].

(** The reply of a server and the first bytes of the tunnelled connection. *)
Definition server : pipe := Mk [] ([x05; x00] ++ reply ++ [x48; x69]).

Lemma reply_success : success_reply reply.
Proof. by apply (reply_domain x02 [x61; x62] [x00; x50]). Qed.

Lemma request_eq : connect_request (Q := unit) (X := unit) target = Ok request.
Proof. reflexivity. Qed.

Lemma socks5_connect_sound_witness :
  ∃ s', socks5_connect (Q := unit) target server = (Ok tt, s') ∧
    tx s' = greeting ++ request ∧ rx s' = [x48; x69].
Proof.
  assert (Hrun : socks5_connect (Q := unit) target server =
    (Ok tt, Mk (greeting ++ request) [x48; x69])) by (vm_compute; reflexivity).
  eexists. split; [exact Hrun|].
  destruct (socks5_connect_sound target server _ Hrun) as (r & rep & Hr & _ & Htx & _).
  rewrite request_eq in Hr. injection Hr as <-. split; [exact Htx|reflexivity].
Defined.

Lemma socks5_connect_complete_witness :
  ∃ s', socks5_connect (Q := unit) target server = (Ok tt, s') ∧ rx s' = [x48; x69].
Proof.
  exact (socks5_connect_complete (Q := unit) (X := unit) target request reply [x48; x69] server I request_eq reply_success eq_refl).
Defined.

Lemma socks5_connect_refused_witness :
  ∃ s1, tx s1 = [x05; x01; x00] ∧
    socks5_connect (Q := unit) (Domain "" 443) (Mk [] [x05; x00]) = (Err EmptyDomain, s1).
Proof.
  assert (Hh : healthy (Mk [] [x05; x00])) by exact I.
  assert (Hwf : target_wf (Domain "" 443)) by (unfold target_wf, u16_max; lia).
  destruct (socks5_connect_refused (Q := unit) (Domain "" 443) x05 x00 [] _ Hwf Hh eq_refl)
    as (s1 & Htx & _ & Hc).
  exists s1. split; [exact Htx|exact Hc].
Defined.

Lemma connect_request_roundtrip_witness :
  parse_request (request ++ [x48]) = Some (target, [x48]).
Proof.
  assert (Hwf : target_wf target) by (unfold target, target_wf, u16_max; lia).
  exact (connect_request_roundtrip (Q := unit) (X := unit) target [x48] Hwf).
Defined.
End PipeDemo.
