(* ===== verification/ConsumerQuic.v ===== *)
(** The consumer's QUIC side ([src/consumer_quic.rs]): the transport parameters,
    accepting connections, the broker that publishes the current connection, the
    dialer that opens streams on it, and [connect_socks5] of
    [src/consumer_socks5.rs], which combines a dialed stream with the handshake.

    The QUIC library and the cancellation token are outside: what they contribute
    to one pass of a loop is the pass's input. *)
From S2P Require Import Prelude Net Socks5.

Definition CONSUMER_QUIC_ALPN : bytes := string_bytes "broflake".
Definition CONSUMER_MAX_INCOMING_STREAMS : Z := 131072.
Definition CONSUMER_MAX_IDLE_TIMEOUT : Z := 60 * 10 ^ 9.
Definition CONSUMER_KEEP_ALIVE_INTERVAL : Z := 15 * 10 ^ 9.

Record TransportConfig := MkTransportConfig {
  max_concurrent_bidi_streams : Z;
  max_concurrent_uni_streams : Z;
  max_idle_timeout : option Z;
  keep_alive_interval : option Z;
  initial_mtu : Z;
  min_mtu : Z;
  mtu_discovery : bool
}.

Definition consumer_transport_config : TransportConfig :=
  MkTransportConfig CONSUMER_MAX_INCOMING_STREAMS CONSUMER_MAX_INCOMING_STREAMS
    (Some CONSUMER_MAX_IDLE_TIMEOUT) (Some CONSUMER_KEEP_ALIVE_INTERVAL) 1200 1200 false.

(** [I] and [C] are the errors of I/O and of QUIC connections. *)
Inductive ConsumerQuicError (I C : Type) :=
| Endpoint (error : I)
| Closed
| Cancelled
| Handshake (error : C)
| BrokerStopped
| Stream (error : C).
Arguments Endpoint {I C} error.
Arguments Closed {I C}.
Arguments Cancelled {I C}.
Arguments Handshake {I C} error.
Arguments BrokerStopped {I C}.
Arguments Stream {I C} error.

(** The server: its endpoint over the virtual socket.  The other server settings
    are the caller's. *)
Record ServerConfig (Crypto : Type) := MkServerConfig {
  transport : TransportConfig;
  crypto : Crypto
}.
Arguments MkServerConfig {Crypto} _ _.
Arguments transport {Crypto} _.
Arguments crypto {Crypto} _.

Record ConsumerQuicServer (Ep Sock : Type) := MkServer {
  endpoint : Ep;
  socket : Sock
}.
Arguments MkServer {Ep Sock} _ _.
Arguments endpoint {Ep Sock} _.
Arguments socket {Ep Sock} _.

(** [ConsumerQuicServer::new]; making the endpoint is the QUIC library's. *)
Definition server_new {Crypto Ep Sock I C} (new_endpoint : ServerConfig Crypto → Sock → result Ep I)
    (socket : Sock) (server_config : ServerConfig Crypto)
    : result (ConsumerQuicServer Ep Sock) (ConsumerQuicError I C) :=
  let server_config := MkServerConfig consumer_transport_config (crypto server_config) in
  let? endpoint := map_err Endpoint (new_endpoint server_config socket) in
  Ok (MkServer endpoint socket).

Section quic.
Context {I C Conn Str : Type}.

Abbreviation error := (ConsumerQuicError I C).

(** [ConsumerQuicServer::accept]: the two awaits, each of which cancellation may
    end first ([None]); the endpoint has no more connections ([Some None]). *)
Definition accept (incoming : option (option unit)) (handshake : option (result Conn C))
    : result Conn error :=
  match incoming with
  | None => Err Cancelled
  | Some None => Err Closed
  | Some (Some _) =>
      match handshake with
      | None => Err Cancelled
      | Some r => map_err Handshake r
      end
  end.

(** ** The broker

    Its effects on the others: the values it published, in order, and whether the
    endpoint is closed. *)
Record broker := MkBroker {
  published : list (option Conn);
  server_closed : bool
}.

Definition broker_new : broker := MkBroker [] false.

(** What a dialer sees: the last published value; [None] initially. *)
Definition current (b : broker) : option Conn := default None (last (published b)).

Definition send_replace (v : option Conn) (b : broker) : broker :=
  MkBroker (published b ++ [v]) (server_closed b).

Definition server_close (b : broker) : broker := MkBroker (published b) true.

(** One pass: how [accept] ends and, if with a connection, whether cancellation
    comes before its close. *)
Record pass := MkPass {
  pass_accept : result Conn error;
  pass_cancelled : bool
}.

Definition shut_down (b : broker) : broker := send_replace None (server_close b).

Definition broker_pass (p : pass) (b : broker) : option (result unit error) * broker :=
  match pass_accept p with
  | Err Cancelled => (Some (Ok tt), shut_down b)
  | Err (Handshake _) => (None, b)
  | Err e => (Some (Err e), shut_down b)
  | Ok connection =>
      let b := send_replace (Some connection) b in
      if pass_cancelled p then (Some (Ok tt), shut_down b)
      else (None, send_replace None b)
  end.

(** [None]: still running when the passes are over. *)
Fixpoint broker_run (passes : list pass) (b : broker) : option (result unit error) * broker :=
  match passes with
  | [] => (None, b)
  | p :: passes =>
      match broker_pass p b with
      | (Some r, b) => (Some r, b)
      | (None, b) => broker_run passes b
      end
  end.

(** ** The dialer *)

(** One pass of [open_bi]: the value it borrows; for a connection, how opening a
    stream on it ends ([None]: cancelled) and whether it has a close reason then;
    how waiting for a change ends ([None]: cancelled; an error: the broker is gone). *)
Record dial := MkDial {
  dial_current : option Conn;
  dial_opened : option (result Str C);
  dial_close_reason : bool;
  dial_changed : option (result unit unit)
}.

Definition wait_changed (d : dial) : option (result Str error) :=
  match dial_changed d with
  | None => Some (Err Cancelled)
  | Some (Err _) => Some (Err BrokerStopped)
  | Some (Ok _) => None
  end.

Definition dial_pass (d : dial) : option (result Str error) :=
  match dial_current d with
  | None => wait_changed d
  | Some _ =>
      match dial_opened d with
      | None => Some (Err Cancelled)
      | Some (Ok stream) => Some (Ok stream)
      | Some (Err e) => if dial_close_reason d then wait_changed d else Some (Err (Stream e))
      end
  end.

Fixpoint open_bi (dials : list dial) : option (result Str error) :=
  match dials with
  | [] => None
  | d :: dials =>
      match dial_pass d with
      | Some r => Some r
      | None => open_bi dials
      end
  end.
End quic.

Arguments broker : clear implicits.
Arguments pass : clear implicits.
Arguments dial : clear implicits.

Section properties.
Context {I C Conn Str : Type}.
Implicit Types (b : broker Conn) (p : pass I C Conn) (d : dial C Conn Str).

(** No two connections in a row are published without a [None] between them. *)
Fixpoint alternating (prev : option Conn) (l : list (option Conn)) : Prop :=
  match l with
  | [] => True
  | v :: l => (prev = None ∨ v = None) ∧ alternating v l
  end.

Lemma alternating_snoc prev l v :
  alternating prev l → default prev (last l) = None ∨ v = None → alternating prev (l ++ [v]).
Proof.
  revert prev. induction l as [|x l IH]; intros prev; simpl; [auto|]. intros [Hx Hl] Hv.
  split; [done|]. apply IH; [done|]. destruct l; [done|]. simpl in *.
  destruct (last _) eqn:Hlast; [|by apply last_None in Hlast]. done.
Qed.

Definition broker_ok b : Prop := alternating None (published b) ∧ current b = None ∧ server_closed b = false.

Lemma send_replace_ok v b :
  alternating None (published b) → current b = None ∨ v = None →
  alternating None (published (send_replace v b)) ∧ current (send_replace v b) = v.
Proof.
  intros Ha Hv. unfold send_replace, current. simpl. rewrite last_snoc. split; [|done].
  by apply alternating_snoc.
Qed.

(** A pass after which the broker goes on: a failed handshake, or a connection
    that ended by itself. *)
Definition survivable p : Prop :=
  (∃ e, pass_accept p = Err (Handshake e)) ∨ (∃ c, pass_accept p = Ok c) ∧ pass_cancelled p = false.

(** A pass that stops it, with the result. *)
Definition stops p (r : result unit (ConsumerQuicError I C)) : Prop :=
  match r with
  | Ok _ => pass_accept p = Err Cancelled ∨ (∃ c, pass_accept p = Ok c) ∧ pass_cancelled p = true
  | Err e => pass_accept p = Err e ∧ e ≠ Cancelled ∧ ∀ c, e ≠ Handshake c
  end.

Lemma shut_down_ok b :
  alternating None (published b) →
  alternating None (published (shut_down b)) ∧ current (shut_down b) = None ∧ server_closed (shut_down b) = true.
Proof.
  intros Ha. destruct (send_replace_ok None (server_close b)) as [? ?]; [done|by right|done].
Qed.

Lemma broker_pass_cases p b :
  broker_ok b →
  let '(r, b') := broker_pass p b in
  match r with
  | None => broker_ok b' ∧ survivable p
  | Some r => alternating None (published b') ∧ current b' = None ∧ server_closed b' = true ∧ stops p r
  end.
Proof.
  intros (Ha & Hc & Hs). unfold broker_pass, survivable, stops.
  destruct (shut_down_ok b Ha) as (H1 & H2 & H3).
  destruct (pass_accept p) as [c|[]] eqn:Hp; try (split_and!; (done || naive_solver)).
  destruct (send_replace_ok (Some c) b Ha (or_introl Hc)) as [H4 H5].
  destruct (pass_cancelled p) eqn:Hpc.
  - destruct (shut_down_ok _ H4) as (? & ? & ?). eauto 12.
  - destruct (send_replace_ok None (send_replace (Some c) b)) as [? ?]; [done|by right|].
    split; [done|]. eauto 8.
Qed.

(** C35: the broker's life: failed handshakes and connections that end do not stop
    it; it stops for the cancellation, successfully, or for an endpoint failure,
    with that error; when it stops the endpoint is closed and no connection is
    published any more; and at no time was a connection published over another. *)
Theorem broker_run_lifecycle (passes : list (pass I C Conn)) :
  let '(r, b) := broker_run passes broker_new in
  alternating None (published b) ∧ current b = None ∧
  match r with
  | None => server_closed b = false ∧ Forall survivable passes
  | Some r => server_closed b = true ∧
      ∃ before p after, passes = before ++ p :: after ∧ Forall survivable before ∧ stops p r
  end.
Proof.
  assert (Hgen : ∀ b, broker_ok b →
    let '(r, b) := broker_run passes b in
    alternating None (published b) ∧ current b = None ∧
    match r with
    | None => server_closed b = false ∧ Forall survivable passes
    | Some r => server_closed b = true ∧
        ∃ before p after, passes = before ++ p :: after ∧ Forall survivable before ∧ stops p r
    end); [|by apply Hgen].
  induction passes as [|p passes IH]; intros b Hb; simpl.
  { destruct Hb as (? & ? & ?). auto. }
  pose proof (broker_pass_cases p b Hb) as Hp. destruct (broker_pass p b) as [[r|] b1].
  - destruct Hp as (? & ? & ? & ?). split_and!; [done..|]. by exists [], p, passes.
  - destruct Hp as [Hb1 Hsurv]. specialize (IH b1 Hb1).
    destruct (broker_run passes b1) as [[r|] b2].
    + destruct IH as (? & ? & ? & before & q & after & -> & ? & ?).
      split_and!; [done..|]. exists (p :: before), q, after. split_and!; [done|by constructor|done].
    + destruct IH as (? & ? & ? & ?). split_and!; [done..|]. by constructor.
Qed.

(** A pass of the dialer that goes on to the next: there was no connection, or
    the one there was has died, and the broker published something new. *)
Definition retries d : Prop :=
  dial_changed d = Some (Ok tt) ∧
  (dial_current d = None ∨ (∃ e, dial_opened d = Some (Err e)) ∧ dial_close_reason d = true).

Lemma dial_pass_None d : dial_pass (I := I) d = None → retries d.
Proof.
  unfold dial_pass, wait_changed, retries.
  destruct (dial_current d) as [c|]; [destruct (dial_opened d) as [[s|e]|]; try done;
    destruct (dial_close_reason d); try done|];
    (destruct (dial_changed d) as [[[]|]|]; [|done..]); eauto.
Qed.

(** The dialer: a stream it returns was opened on the connection published at
    that moment; a dead connection never fails the call, it makes the dialer wait
    for the next one; a refusal by a live connection, the end of the broker and the
    cancellation are reported as such, and there is no other outcome. *)
Theorem open_bi_outcome (dials : list (dial C Conn Str)) r :
  open_bi (I := I) dials = Some r →
  ∃ before d after, dials = before ++ d :: after ∧ Forall retries before ∧
  match r with
  | Ok stream => is_Some (dial_current d) ∧ dial_opened d = Some (Ok stream)
  | Err (Stream e) =>
      is_Some (dial_current d) ∧ dial_opened d = Some (Err e) ∧ dial_close_reason d = false
  | Err BrokerStopped => dial_changed d = Some (Err tt)
  | Err Cancelled => dial_opened d = None ∨ dial_changed d = None
  | Err _ => False
  end.
Proof.
  induction dials as [|d dials IH]; simpl; [done|].
  destruct (dial_pass d) as [r'|] eqn:Hd.
  - intros [= ->]. exists [], d, dials. split_and!; [done|done|].
    unfold dial_pass, wait_changed in Hd.
    destruct (dial_current d) as [c|]; [destruct (dial_opened d) as [[s|e]|];
      [by simplify_eq| |by simplify_eq; left]; destruct (dial_close_reason d); [|by simplify_eq]|];
      (destruct (dial_changed d) as [[[]|[]]|]; simplify_eq; auto).
  - intros Ho. destruct (IH Ho) as (before & d' & after & -> & Hb & Hm).
    exists (d :: before), d', after. split_and!; [done| |done]. constructor; [by apply dial_pass_None|done].
Qed.
End properties.

(** ** [ConsumerQuicDialer::connect_socks5] *)
Section connect.
Context {I C X S : Type} `{!ByteStream X S}.

Abbreviation error := (ConsumerSocks5Error (ConsumerQuicError I C) X).

(** [opened] is what [open_bi] returns; [cancelled] that the token fires before
    the handshake is over. *)
Definition connect_socks5 (opened : result S (ConsumerQuicError I C)) (cancelled : bool)
    (target : Socks5Target) : result S error :=
  match opened with
  | Err Cancelled => Err Socks5Cancelled
  | Err e => Err (Quic e)
  | Ok stream =>
      if cancelled then Err Socks5Cancelled
      else
        let '(r, stream) := socks5_connect target stream in
        let? _ := r in Ok stream
  end.

(** The handshake's own errors: never those of the dialer. *)
Definition own_errors {A} (c : S → result A error * S) : Prop :=
  ∀ s e, (c s).1 = Err e → (∀ q, e ≠ Quic q) ∧ e ≠ Socks5Cancelled.

Lemma own_bind {A B} (c : S → result A error * S) (k : A → S → result B error * S) :
  own_errors c → (∀ a, own_errors (k a)) → own_errors (st_bind c k).
Proof.
  intros Hc Hk s e. unfold st_bind. pose proof (Hc s) as Hs.
  destruct (c s) as [[a|e'] s']; [apply Hk|]. intros [= <-]. by apply Hs.
Qed.

Lemma own_write b : own_errors (write (Q := ConsumerQuicError I C) b).
Proof. intros s e. unfold write, st_map_err. destruct (write_all b s) as [[]]; simpl; [done|by intros [= <-]]. Qed.

Lemma own_read n : own_errors (read (Q := ConsumerQuicError I C) n).
Proof. intros s e. unfold read, st_map_err. destruct (read_exact n s) as [[]]; simpl; [done|by intros [= <-]]. Qed.

Lemma own_lift {A} (r : result A error) :
  (∀ e, r = Err e → (∀ q, e ≠ Quic q) ∧ e ≠ Socks5Cancelled) → own_errors (st_lift r).
Proof. intros Hr s e. apply Hr. Qed.

Lemma own_check ok (e : error) : (∀ q, e ≠ Quic q) → e ≠ Socks5Cancelled → own_errors (check ok e).
Proof. intros ? ?. unfold check. apply own_lift. destruct ok; naive_solver. Qed.

Lemma own_address_length t : own_errors (address_length (Q := ConsumerQuicError I C) t).
Proof.
  destruct t; try (apply own_lift; naive_solver).
  apply own_bind; [apply own_read|intros l; apply own_lift; naive_solver].
Qed.

Lemma socks5_connect_own target : own_errors (socks5_connect (Q := ConsumerQuicError I C) target).
Proof.
  unfold socks5_connect.
  repeat (apply own_bind; [first [apply own_write | apply own_read | by apply own_check
    | apply own_address_length | idtac]|intros ?]); apply own_lift; [|done].
  intros e He. unfold connect_request in He. destruct target as [[]|]; simplify_eq.
  repeat case_decide; by simplify_eq.
Qed.

(** Cancellation is always reported the same way: [connect_socks5] returns
    [Cancelled] exactly when the token fired, before the stream was open or during
    the handshake, and never the QUIC layer's own cancellation error; and a stream
    it returns is the opened one after a successful handshake. *)
Theorem connect_socks5_cancellation (opened : result S (ConsumerQuicError I C)) cancelled target :
  (connect_socks5 opened cancelled target = Err Socks5Cancelled ↔
     opened = Err Cancelled ∨ (∃ s, opened = Ok s) ∧ cancelled = true) ∧
  connect_socks5 opened cancelled target ≠ Err (Quic Cancelled) ∧
  ∀ s', connect_socks5 opened cancelled target = Ok s' →
    ∃ s, opened = Ok s ∧ socks5_connect (Q := ConsumerQuicError I C) target s = (Ok tt, s').
Proof.
  unfold connect_socks5.
  destruct opened as [s|e]; [|by destruct e; (split_and!; [split; [auto|by intros [?|[[? ?] ?]]]|..])].
  destruct cancelled; [by split_and!; [split; eauto|..]|].
  pose proof (socks5_connect_own target s) as Hown.
  destruct (socks5_connect target s) as [[[]|e] s'] eqn:Hs; simpl in *.
  - split_and!; [split; [done|by intros [[=]|[_ [=]]]]|done|]. intros ? [= <-]. eauto.
  - destruct (Hown e eq_refl) as [Hq Hc]. split_and!; [split|..|done].
    + by intros [= ->].
    + by intros [[=]|[_ [=]]].
    + intros [= ->]. by destruct (Hq Cancelled).
Qed.
End connect.

Module QuicDemo.
Lemma open_bi_outcome_witness :
  ∃ before d after,
    [MkDial None None false (Some (Ok tt)); MkDial (Some 1) (Some (Ok 9)) false None] = before ++ d :: after ∧
    Forall retries before ∧ dial_opened (C := unit) (Conn := nat) d = Some (Ok 9).
Proof.
  assert (Ho : open_bi (I := unit) (C := unit)
    [MkDial None None false (Some (Ok tt)); MkDial (Some 1) (Some (Ok 9)) false None] = Some (Ok 9)) by reflexivity.
  destruct (open_bi_outcome _ _ Ho) as (b & d & a & Heq & Hb & _ & Hd).
  exists b, d, a. split; [exact Heq|]. split; [exact Hb|exact Hd].
Defined.
End QuicDemo.
