(* ===== verification/QuicSystem.v ===== *)
(** The QUIC broker and its dialers as one running system ([ConsumerQuicBroker] and
    [ConsumerQuicDialer] of [src/consumer_quic.rs]).

    [ConsumerQuic.v] has each of them against inputs of its own.  Here they share
    the watch channel: the broker publishes into it, every call of [open_bi] reads
    it through a receiver of its own, in every interleaving of their steps.  What
    the QUIC library and the cancellation tokens do is an input of the step. *)
From S2P Require Import Prelude Tokio ConsumerQuic.

Section system.
Context {wch : Type → Type} `{!Watch wch} {I C Conn Str : Type}.
Abbreviation error := (ConsumerQuicError I C).

(** Where [run] is: accepting, with a connection, or over. *)
Inductive broker_phase :=
| Accepting
| Serving (connection : Conn)
| Finished (r : result unit error).

(** Where a call of [open_bi] is: at the head of its loop, opening a stream on the
    connection it found, waiting for a change after what it found, or over. *)
Inductive dial_phase :=
| Looking
| Opening (connection : Conn)
| Waiting (found : option Conn)
| Dialed (r : result Str error).

Record dialing := MkDialing {
  dl_seen : nat;
  dl_phase : dial_phase;
  dl_looks : nat
}.

Record quic := MkQuic {
  qs_watch : wch (option Conn);
  qs_broker : broker_phase;
  qs_server_closed : bool;
  qs_dialings : list dialing
}.

(** [ConsumerQuicBroker::new] and the dialers made from it. *)
Definition quic_new : quic := MkQuic (watch_new None) Accepting false [].

Inductive quic_event :=
| BrokerAccepts (r : result Conn error)
| BrokerEnds (cancelled : bool)
| DialStarts
| DialLooks (i : nat)
| DialOpened (i : nat) (opened : option (result Str C)) (close_reason : bool)
| DialWaits (i : nat) (cancelled : bool).

(** The broker stops: the endpoint is closed, [None] published, and the broker with
    its sender dropped. *)
Definition broker_stop (r : result unit error) (q : quic) : quic :=
  MkQuic (watch_drop_tx (watch_send_replace None (qs_watch q))) (Finished r) true (qs_dialings q).
Definition broker_publish (v : option Conn) (ph : broker_phase) (q : quic) : quic :=
  MkQuic (watch_send_replace v (qs_watch q)) ph (qs_server_closed q) (qs_dialings q).

Definition set_dialing (i : nat) (d : dialing) (q : quic) : quic :=
  MkQuic (qs_watch q) (qs_broker q) (qs_server_closed q) (<[i := d]> (qs_dialings q)).

(** A pass of [open_bi], up to its next await. *)
Definition dial_look (current : option Conn) (d : dialing) : dialing :=
  MkDialing (dl_seen d) (match current with Some c => Opening c | None => Waiting None end) (S (dl_looks d)).
Definition dial_opened_step (c : Conn) (opened : option (result Str C)) (close_reason : bool) (d : dialing)
    : dialing :=
  MkDialing (dl_seen d)
    (match opened with
     | None => Dialed (Err Cancelled)
     | Some (Ok stream) => Dialed (Ok stream)
     | Some (Err e) => if close_reason then Waiting (Some c) else Dialed (Err (Stream e))
     end) (dl_looks d).
Definition dial_wait (cancelled : bool) (w : wch (option Conn)) (d : dialing) : option dialing :=
  if cancelled then Some (MkDialing (dl_seen d) (Dialed (Err Cancelled)) (dl_looks d))
  else
    match watch_changed (dl_seen d) w with
    | (Pending, _) => None
    | (Ready (Ok _), seen) => Some (MkDialing seen Looking (dl_looks d))
    | (Ready (Err _), seen) => Some (MkDialing seen (Dialed (Err BrokerStopped)) (dl_looks d))
    end.

(** [None]: this cannot happen in this state, or the task goes on waiting. *)
Definition quic_step (ev : quic_event) (q : quic) : option quic :=
  match ev with
  | BrokerAccepts r =>
      match qs_broker q, r with
      | Accepting, Ok c => Some (broker_publish (Some c) (Serving c) q)
      | Accepting, Err Cancelled => Some (broker_stop (Ok tt) q)
      | Accepting, Err (Handshake _) => Some q
      | Accepting, Err e => Some (broker_stop (Err e) q)
      | _, _ => None
      end
  | BrokerEnds cancelled =>
      match qs_broker q with
      | Serving _ =>
          Some (if cancelled then broker_stop (Ok tt) q else broker_publish None Accepting q)
      | _ => None
      end
  | DialStarts =>
      Some (MkQuic (qs_watch q) (qs_broker q) (qs_server_closed q)
              (qs_dialings q ++ [MkDialing 0 Looking 0]))
  | DialLooks i =>
      d ← qs_dialings q !! i;
      match dl_phase d with
      | Looking => Some (set_dialing i (dial_look (watch_borrow (qs_watch q)) d) q)
      | _ => None
      end
  | DialOpened i opened close_reason =>
      d ← qs_dialings q !! i;
      match dl_phase d with
      | Opening c => Some (set_dialing i (dial_opened_step c opened close_reason d) q)
      | _ => None
      end
  | DialWaits i cancelled =>
      d ← qs_dialings q !! i;
      match dl_phase d with
      | Waiting _ => d ← dial_wait cancelled (qs_watch q) d; Some (set_dialing i d q)
      | _ => None
      end
  end.

Fixpoint quic_run (evs : list quic_event) (q : quic) : option quic :=
  match evs with
  | [] => Some q
  | ev :: evs => q ← quic_step ev q; quic_run evs q
  end.
End system.
Arguments quic : clear implicits.
Arguments quic_event : clear implicits.
Arguments dialing : clear implicits.
Arguments dial_phase : clear implicits.
Arguments broker_phase : clear implicits.

Section properties.
Context {wch : Type → Type} `{!Watch wch} `{!WatchSpec wch} {I C Conn Str : Type}.
Abbreviation quic := (quic wch I C Conn Str).
Implicit Types (q : quic) (d : dialing I C Conn Str).
Abbreviation value q := (wc_value (cell (qs_watch q))).
Abbreviation now q := (wc_version (cell (qs_watch q))).

(** What a call knows: it has looked at most once per version it has seen, and once
    more; when it has seen everything there is, what it found is what is there. *)
Definition dialing_ok q d : Prop :=
  dl_seen d ≤ now q ∧
  match dl_phase d with
  | Looking => dl_looks d ≤ dl_seen d
  | Opening c => dl_looks d ≤ S (dl_seen d) ∧ (dl_seen d = now q → value q = Some c)
  | Waiting found => dl_looks d ≤ S (dl_seen d) ∧ (dl_seen d = now q → value q = found)
  | Dialed _ => dl_looks d ≤ S (dl_seen d)
  end.

(** What the broker knows: the value it last published, and whether its sender is
    gone. *)
Definition broker_knows q : Prop :=
  match qs_broker q with
  | Accepting => value q = None ∧ wc_tx (cell (qs_watch q)) = true ∧ qs_server_closed q = false
  | Serving c => value q = Some c ∧ wc_tx (cell (qs_watch q)) = true ∧ qs_server_closed q = false
  | Finished _ => value q = None ∧ wc_tx (cell (qs_watch q)) = false ∧ qs_server_closed q = true
  end.

Definition quic_inv q : Prop := broker_knows q ∧ Forall (dialing_ok q) (qs_dialings q).

(** A new version makes nobody's knowledge wrong. *)
Lemma dialing_ok_newer q q' d : now q < now q' → dialing_ok q d → dialing_ok q' d.
Proof. unfold dialing_ok. intros Hn [Hs Hd]. split; [lia|]. destruct (dl_phase d); try done;
  destruct Hd; (split; [done|lia]). Qed.

Lemma quic_inv_newer q q' :
  now q < now q' → qs_dialings q' = qs_dialings q → broker_knows q' → quic_inv q → quic_inv q'.
Proof.
  intros Hn Hd Hb [_ Hall]. split; [done|]. rewrite Hd. eapply Forall_impl; [exact Hall|].
  intros d. by apply dialing_ok_newer.
Qed.

Lemma quic_inv_set q i d : quic_inv q → dialing_ok q d → quic_inv (set_dialing i d q).
Proof. intros [Hb Hall] Hd. split; [done|]. by apply Forall_insert. Qed.

Lemma broker_stop_inv q r : quic_inv q → quic_inv (broker_stop r q).
Proof.
  apply quic_inv_newer; [|done|]; unfold broker_knows; simpl; watch_simpl; [lia|done].
Qed.
Lemma broker_publish_inv q v ph :
  match ph with Accepting => v = None | Serving c => v = Some c | Finished _ => False end →
  wc_tx (cell (qs_watch q)) = true → qs_server_closed q = false →
  quic_inv q → quic_inv (broker_publish v ph q).
Proof.
  intros Hph Ht Hc. apply quic_inv_newer; [|done|]; unfold broker_knows; simpl; watch_simpl; [lia|].
  by destruct ph.
Qed.

Lemma quic_step_inv ev q q' : quic_step ev q = Some q' → quic_inv q → quic_inv q'.
Proof.
  intros Hs Hq. pose proof Hq as [Hb Hall]. unfold broker_knows in Hb.
  destruct ev as [r|cancelled| |i|i opened reason|i cancelled]; simpl in Hs.
  - destruct (qs_broker q); try done. destruct Hb as (_ & ? & ?).
    destruct r as [c|[]]; simplify_eq; try done; (by apply broker_publish_inv) || by apply broker_stop_inv.
  - destruct (qs_broker q); try done. destruct Hb as (_ & ? & ?).
    destruct cancelled; simplify_eq; [by apply broker_stop_inv|by apply broker_publish_inv].
  - simplify_eq. split; [done|]. apply Forall_app. split; [done|]. repeat constructor; simpl; lia.
  - destruct (qs_dialings q !! i) as [d|] eqn:Hi; simpl in Hs; [|done].
    pose proof (Forall_lookup_1 _ _ _ _ Hall Hi) as [Hseen Hd].
    destruct (dl_phase d) eqn:Hp; try done. simplify_eq. apply quic_inv_set; [done|].
    unfold dialing_ok, dial_look. watch_simpl. split; [done|].
    destruct (value q) eqn:Hv; simpl; (split; [lia|done]).
  - destruct (qs_dialings q !! i) as [d|] eqn:Hi; simpl in Hs; [|done].
    pose proof (Forall_lookup_1 _ _ _ _ Hall Hi) as [Hseen Hd].
    destruct (dl_phase d) eqn:Hp; try done. simplify_eq. apply quic_inv_set; [done|].
    unfold dialing_ok, dial_opened_step. simpl. split; [done|].
    destruct Hd as [Hl Hv]. destruct opened as [[s|e]|]; [|destruct reason|]; done.
  - destruct (qs_dialings q !! i) as [d|] eqn:Hi; simpl in Hs; [|done].
    pose proof (Forall_lookup_1 _ _ _ _ Hall Hi) as [Hseen Hd].
    destruct (dl_phase d) eqn:Hp; try done.
    destruct (dial_wait cancelled (qs_watch q) d) as [d'|] eqn:Hw; simplify_eq/=.
    apply quic_inv_set; [done|]. unfold dial_wait in Hw. destruct Hd as [Hl Hv].
    destruct cancelled; [by simplify_eq|].
    watch_simpl. unfold wc_changed in Hw. case_decide.
    + destruct (wc_tx _); by simplify_eq.
    + simplify_eq. split; simpl; [done|lia].
Qed.

Lemma quic_run_inv evs q q' : quic_run evs q = Some q' → quic_inv q → quic_inv q'.
Proof.
  revert q. induction evs as [|ev evs IH]; intros q; simpl; [by intros [= ->]|].
  destruct (quic_step ev q) as [q1|] eqn:Hs; simpl; [|done]. intros Hr Hq.
  eapply IH; [done|]. by eapply quic_step_inv.
Qed.

Lemma quic_new_inv : quic_inv quic_new.
Proof. split; [|by constructor]. unfold broker_knows. simpl. watch_simpl. done. Qed.

(** The steps in which the broker publishes: all of its own but a failed
    handshake. *)
Definition publishes (ev : quic_event I C Conn Str) : bool :=
  match ev with
  | BrokerAccepts (Err (Handshake _)) => false
  | BrokerAccepts _ | BrokerEnds _ => true
  | _ => false
  end.
Definition publications (evs : list (quic_event I C Conn Str)) : nat :=
  length (filter (λ ev, publishes ev = true) evs).

Lemma quic_step_version ev q q' :
  quic_step ev q = Some q' → now q' = now q + if publishes ev then 1 else 0.
Proof.
  intros Hs. destruct ev as [r|cancelled| |i|i opened reason|i cancelled]; simpl in Hs.
  - destruct (qs_broker q), r as [|[]]; simplify_eq; simpl; watch_simpl; lia.
  - destruct (qs_broker q), cancelled; simplify_eq; simpl; watch_simpl; lia.
  - simplify_eq. simpl. lia.
  - destruct (qs_dialings q !! i) as [d|]; simpl in Hs; [|done].
    destruct (dl_phase d); simplify_eq. simpl. lia.
  - destruct (qs_dialings q !! i) as [d|]; simpl in Hs; [|done].
    destruct (dl_phase d); simplify_eq. simpl. lia.
  - destruct (qs_dialings q !! i) as [d|]; simpl in Hs; [|done].
    destruct (dl_phase d); try done. destruct (dial_wait _ _ _); simplify_eq/=. lia.
Qed.

Lemma quic_run_version evs q q' : quic_run evs q = Some q' → now q' = now q + publications evs.
Proof.
  revert q. induction evs as [|ev evs IH]; intros q; simpl; [intros [= ->]; unfold publications; simpl; lia|].
  destruct (quic_step ev q) as [q1|] eqn:Hs; simpl; [|done]. intros Hr%IH.
  apply quic_step_version in Hs. unfold publications in *. rewrite filter_cons.
  destruct (publishes ev); simpl in *; lia.
Qed.

(** C15: No wake-up is lost, and none is wasted: in every interleaving, a call of
    [open_bi] that is asleep (nothing changed, nobody cancelled) has already tried
    what is published now: there is no connection, or it is the very one it found
    dead, and the broker is still there to publish the next; and a call has read
    the channel at most once more than the broker has published. *)
Theorem dialer_no_lost_wakeup evs q i d found :
  quic_run evs quic_new = Some q → qs_dialings q !! i = Some d → dl_phase d = Waiting found →
  quic_step (DialWaits i false) q = None →
  watch_borrow (qs_watch q) = found ∧
  match found with
  | None => qs_broker q = Accepting
  | Some c => qs_broker q = Serving c
  end ∧ dl_looks d ≤ S (publications evs).
Proof.
  intros Hrun Hi Hp Hasleep. destruct (quic_run_inv _ _ _ Hrun quic_new_inv) as [Hb Hall].
  pose proof (Forall_lookup_1 _ _ _ _ Hall Hi) as [Hseen Hd]. rewrite Hp in Hd. destruct Hd as [Hl Hv].
  pose proof (quic_run_version _ _ _ Hrun) as Hver. simpl in Hver. rewrite cell_new in Hver. simpl in Hver.
  simpl in Hasleep. rewrite Hi in Hasleep. simpl in Hasleep. rewrite Hp in Hasleep.
  unfold dial_wait in Hasleep. rewrite cell_changed in Hasleep. unfold wc_changed in Hasleep.
  case_decide as Hs; [|done]. destruct (wc_tx (cell (qs_watch q))) eqn:Htx; [|done].
  rewrite cell_borrow, (Hv Hs). split_and!; [done| |lia]. specialize (Hv Hs).
  unfold broker_knows in Hb. destruct (qs_broker q); destruct Hb as (Hb & ? & _); [| |congruence];
    rewrite Hb in Hv; by subst found.
Qed.

(** How many steps a call can still make after the broker is gone. *)
Definition dial_weight q d : nat :=
  match dl_phase d with
  | Dialed _ => 0
  | Waiting _ => if decide (dl_seen d = now q) then 1 else 3
  | Looking => if decide (dl_seen d = now q) then 2 else 4
  | Opening _ => 4
  end.

(** The steps of the [i]-th call. *)
Definition by_dialing (i : nat) (ev : quic_event I C Conn Str) : bool :=
  match ev with
  | DialLooks j | DialOpened j _ _ | DialWaits j _ => bool_decide (j = i)
  | _ => false
  end.

Lemma set_dialing_lookup q i d d' : qs_dialings q !! i = Some d → qs_dialings (set_dialing i d' q) !! i = Some d'.
Proof. intros Hi. apply list_lookup_insert_eq. by eapply lookup_lt_Some. Qed.

(** C16: Calls do not outlive the broker: once it has returned, its endpoint is closed,
    every call that is still running can go on (at the latest when the library
    answers its attempt to open a stream), each of its steps brings it closer to its
    end, and it is at most four steps away from it. *)
Theorem dialers_end_with_broker evs q r i d :
  quic_run evs quic_new = Some q → qs_broker q = Finished r → qs_dialings q !! i = Some d →
  qs_server_closed q = true ∧ dial_weight q d ≤ 4 ∧
  (∀ ev q', by_dialing i ev = true → quic_step ev q = Some q' →
     ∃ d', qs_dialings q' !! i = Some d' ∧ dial_weight q' d' < dial_weight q d) ∧
  match dl_phase d with
  | Dialed _ => True
  | Looking => is_Some (quic_step (DialLooks i) q)
  | Opening _ => ∀ opened reason, is_Some (quic_step (DialOpened i opened reason) q)
  | Waiting _ => is_Some (quic_step (DialWaits i false) q)
  end.
Proof.
  intros Hrun Hfin Hi. destruct (quic_run_inv _ _ _ Hrun quic_new_inv) as [Hb Hall].
  unfold broker_knows in Hb. rewrite Hfin in Hb. destruct Hb as (Hnone & Htx & Hclosed).
  pose proof (Forall_lookup_1 _ _ _ _ Hall Hi) as [Hseen Hd].
  split_and!; [done| | |].
  - unfold dial_weight. destruct (dl_phase d); repeat case_decide; lia.
  - intros ev q' Hby Hs. unfold dial_weight.
    destruct ev as [?|?| |j|j opened reason|j cancelled]; simpl in Hby; try done;
      apply bool_decide_eq_true in Hby as ->; simpl in Hs; rewrite Hi in Hs; simpl in Hs;
      destruct (dl_phase d) eqn:Hp; try done.
    + injection Hs as <-. eexists. split; [by eapply set_dialing_lookup|]. simpl.
      rewrite cell_borrow, Hnone. simpl. repeat case_decide; lia.
    + injection Hs as <-. eexists. split; [by eapply set_dialing_lookup|]. simpl. destruct Hd as [_ Hv].
      destruct opened as [[s|e]|]; [|destruct reason|]; simpl; try lia. case_decide; lia.
    + unfold dial_wait in Hs. destruct cancelled; simpl in Hs.
      { injection Hs as <-. eexists. split; [by eapply set_dialing_lookup|]. simpl. case_decide; lia. }
      rewrite cell_changed in Hs. unfold wc_changed in Hs. rewrite Htx in Hs.
      case_decide; simpl in Hs; injection Hs as <-; eexists; (split; [by eapply set_dialing_lookup|]); simpl; [lia|].
      rewrite decide_True by done. lia.
  - destruct (dl_phase d) eqn:Hp; [| | |done]; simpl; rewrite Hi; simpl; try intros opened reason; rewrite Hp;
      try by eexists.
    unfold dial_wait. rewrite cell_changed. unfold wc_changed. rewrite Htx. case_decide; simpl; by eexists.
Qed.
End properties.

(** ** A run *)
Module QuicDemo.
Abbreviation event := (quic_event unit nat nat string).
Abbreviation state := (quic WatchCell unit nat nat string).
Abbreviation run := (quic_run (wch := WatchCell) (I := unit) (C := nat) (Conn := nat) (Str := string)).

(** A call starts early, waits, finds connection 7, which dies under it. *)
Definition events : list event :=
  [DialStarts; DialLooks 0; BrokerAccepts (Err (Handshake 3)); BrokerAccepts (Ok 7); DialWaits 0 false;
   DialLooks 0; DialOpened 0 (Some (Err 5)) true].
Definition asleep : state := default quic_new (run events quic_new).

Lemma dialer_no_lost_wakeup_witness :
  watch_borrow (qs_watch asleep) = Some 7 ∧ qs_broker asleep = Serving 7 ∧
  dl_looks (MkDialing (I := unit) (C := nat) (Conn := nat) (Str := string) 1 (Waiting (Some 7)) 2) ≤
    S (publications events).
Proof.
  apply (dialer_no_lost_wakeup events asleep 0 (MkDialing 1 (Waiting (Some 7)) 2) (Some 7)); reflexivity.
Defined.

Definition stopping : list event := events ++ [BrokerEnds true].
Definition stopped : state := default quic_new (run stopping quic_new).

Lemma dialers_end_with_broker_witness :
  qs_server_closed stopped = true ∧ is_Some (quic_step (DialWaits 0 false) stopped).
Proof.
  destruct (dialers_end_with_broker stopping stopped (Ok tt) 0 (MkDialing 1 (Waiting (Some 7)) 2))
    as (Hc & _ & _ & Hgo); [reflexivity..|]. exact (conj Hc Hgo).
Defined.

(** The call then ends with [BrokerStopped]. *)
Example call_ends :
  dl_phase <$> qs_dialings (default quic_new
    (run (stopping ++ [DialWaits 0 false; DialLooks 0; DialWaits 0 false]) quic_new)) =
  [Dialed (Err BrokerStopped)].
Proof. reflexivity. Qed.
End QuicDemo.
