(* ===== verification/Consumer.v ===== *)
(** The consumer ([src/consumer.rs]): choosing a peer, the session with it, and
    the loop that keeps a path up.

    As for the peer proxy, the session's body is a program over the operations it
    awaits; the path it ends in is [run_consumer_path] of [ConsumerPath]. *)
From S2P Require Import Prelude Net Async Serde Protocol Ice Rtc Signaling Supervisor PeerProxy ConsumerPath.

Record ConsumerOutcome := MkConsumerOutcome {
  remote : SocketAddr;
  path_end : ConsumerPathEnd
}.

Record ConsumerSummary := MkConsumerSummary {
  c_attempts : Z;
  completed_paths : Z;
  c_failed_attempts : Z
}.

Inductive ConsumerEvent :=
| CAttemptStarted (attempt : Z)
| CPathEnded (attempt : Z) (outcome : ConsumerOutcome)
| CAttemptFailed (attempt : Z) (error : string)
| CStopped (summary : ConsumerSummary).

Inductive ConsumerError (X W E : Type) :=
| CSignaling (error : SignalingError X)
| CWebRtc (error : W)
| Json
| NoGenesis
| CUnexpectedSignal (expected actual : SignalMessageType)
| MissingAnswer
| CNatTimeout
| CDataChannelClosed
| CPeerConnectionEnded (state : RTCPeerConnectionState)
| Path (error : ConsumerPathError E)
| CCancelled.
Arguments CSignaling {X W E} error.
Arguments CWebRtc {X W E} error.
Arguments Json {X W E}.
Arguments NoGenesis {X W E}.
Arguments CUnexpectedSignal {X W E} expected actual.
Arguments MissingAnswer {X W E}.
Arguments CNatTimeout {X W E}.
Arguments CDataChannelClosed {X W E}.
Arguments CPeerConnectionEnded {X W E} state.
Arguments Path {X W E} error.
Arguments CCancelled {X W E}.

(** ** Choosing a peer *)
Section genesis.
Context {X W E : Type}.

Abbreviation error := (ConsumerError X W E).

(** What the biased [select!] of a pass finds first. *)
Inductive tick :=
| TickCancelled
| TickPatience
| TickMessage (r : result (option SignalMessage) (SignalingError X)).

(** The loop that collects further candidates, and the choice.  [choose n] is the
    random index among [n].  [None]: still waiting when the ticks are over. *)
Fixpoint collect (choose : nat → nat) (candidates : list SignalMessage) (ticks : list tick)
    : option (result SignalMessage error) :=
  let chosen := Ok <$> candidates !! choose (length candidates) in
  match ticks with
  | [] => None
  | TickCancelled :: _ => Some (Err CCancelled)
  | TickPatience :: _ => chosen
  | TickMessage (Err e) :: _ => Some (Err (CSignaling e))
  | TickMessage (Ok None) :: _ => chosen
  | TickMessage (Ok (Some m)) :: ticks =>
      if decide (kind m = Genesis) then collect choose (candidates ++ [m]) ticks
      else collect choose candidates ticks
  end.

(** The loop that waits for the first one; patience does not run yet. *)
Fixpoint await_first (choose : nat → nat) (ticks : list tick) : option (result SignalMessage error) :=
  match ticks with
  | [] => None
  | TickCancelled :: _ => Some (Err CCancelled)
  | TickPatience :: ticks => await_first choose ticks
  | TickMessage (Err e) :: _ => Some (Err (CSignaling e))
  | TickMessage (Ok None) :: _ => Some (Err NoGenesis)
  | TickMessage (Ok (Some m)) :: ticks =>
      if decide (kind m = Genesis) then collect choose [m] ticks else await_first choose ticks
  end.

(** [opened]: how opening the stream ends, [None] when cancelled. *)
Definition select_genesis (choose : nat → nat) (opened : option (result unit (SignalingError X)))
    (ticks : list tick) : option (result SignalMessage error) :=
  match opened with
  | None => Some (Err CCancelled)
  | Some (Err e) => Some (Err (CSignaling e))
  | Some (Ok _) => await_first choose ticks
  end.

(** The genesis messages among the ticks, up to whatever ends the loops. *)
Definition offered_genesis (ticks : list tick) : list SignalMessage :=
  omap (λ t, match t with
             | TickMessage (Ok (Some m)) => if decide (kind m = Genesis) then Some m else None
             | _ => None
             end) ticks.

Lemma offered_genesis_cons t ticks :
  offered_genesis (t :: ticks) = offered_genesis [t] ++ offered_genesis ticks.
Proof. unfold offered_genesis. apply (omap_app _ [t] ticks). Qed.

Lemma offered_genesis_message m :
  offered_genesis [TickMessage (Ok (Some m))] = if decide (kind m = Genesis) then [m] else [].
Proof. unfold offered_genesis. simpl. by case_decide. Qed.

Lemma offered_genesis_kind ticks m : m ∈ offered_genesis ticks → kind m = Genesis.
Proof.
  unfold offered_genesis. intros (t & _ & Ht)%list_elem_of_omap.
  destruct t as [| |[[m'|]|e]]; try done. case_decide; by simplify_eq.
Qed.

Lemma collect_chosen choose candidates ticks m :
  collect choose candidates ticks = Some (Ok m) →
  ∃ pre t post, ticks = pre ++ t :: post ∧ (t = TickPatience ∨ t = TickMessage (Ok None)) ∧
    (candidates ++ offered_genesis pre) !! choose (length (candidates ++ offered_genesis pre)) = Some m.
Proof.
  revert candidates. induction ticks as [|t ticks IH]; intros cands; simpl; [done|].
  destruct t as [| |[[m'|]|e]]; try done.
  - intros Hc. apply fmap_Some in Hc as (x & Hx & [= <-]). exists [], TickPatience, ticks. simpl.
    rewrite app_nil_r. eauto.
  - intros Hc. assert (Hr : collect choose (cands ++ offered_genesis [TickMessage (Ok (Some m'))]) ticks = Some (Ok m)).
    { rewrite offered_genesis_message. case_decide; by rewrite ?app_nil_r. }
    apply IH in Hr as (pre & t & post & -> & Ht & Hm).
    exists (TickMessage (Ok (Some m')) :: pre), t, post.
    rewrite offered_genesis_cons, (assoc_L (++)). auto.
  - intros Hc. apply fmap_Some in Hc as (x & Hx & [= <-]). exists [], (TickMessage (Ok None)), ticks. simpl.
    rewrite app_nil_r. eauto.
Qed.

Lemma await_first_chosen choose ticks m :
  await_first choose ticks = Some (Ok m) →
  ∃ pre t post, ticks = pre ++ t :: post ∧ (t = TickPatience ∨ t = TickMessage (Ok None)) ∧
    offered_genesis pre !! choose (length (offered_genesis pre)) = Some m.
Proof.
  induction ticks as [|t ticks IH]; simpl; [done|].
  destruct t as [| |[[m'|]|e]]; try done.
  - intros (pre & t & post & -> & Ht & Hm)%IH. by exists (TickPatience :: pre), t, post.
  - case_decide as Hk.
    + intros (pre & t & post & -> & Ht & Hm)%collect_chosen.
      exists (TickMessage (Ok (Some m')) :: pre), t, post.
      rewrite offered_genesis_cons, offered_genesis_message, decide_True by done. auto.
    + intros (pre & t & post & -> & Ht & Hm)%IH.
      exists (TickMessage (Ok (Some m')) :: pre), t, post.
      rewrite offered_genesis_cons, offered_genesis_message, decide_False by done. auto.
Qed.

(** Every candidate list the choice is made from has an element: the [unwrap] of
    the choice cannot fail. *)
Lemma collect_answers choose candidates ticks t :
  (∀ n, 0 < n → choose n < n) → candidates ≠ [] →
  t = TickPatience ∨ t = TickMessage (Ok None) →
  ∃ r, collect choose candidates (ticks ++ [t]) = Some r.
Proof.
  intros Hc. revert candidates. induction ticks as [|t' ticks IH]; intros cands Hne Ht; simpl.
  - destruct (lookup_lt_is_Some_2 cands (choose (length cands))) as [m Hm].
    { apply Hc. destruct cands; [done|simpl; lia]. }
    rewrite Hm. destruct Ht as [-> | ->]; simpl; eauto.
  - destruct (lookup_lt_is_Some_2 cands (choose (length cands))) as [m Hm].
    { apply Hc. destruct cands; [done|simpl; lia]. }
    rewrite Hm. destruct t' as [| |[[m'|]|e]]; simpl; eauto.
    case_decide; apply IH; try done. by destruct cands.
Qed.

(** Choosing a peer: the message returned is a genesis message the stream
    delivered before the patience ran out or the stream ended, taken from among all
    of those by the random index (so the choice is never empty); once a first one
    is there, patience or the end of the stream always brings a decision. *)
Theorem select_genesis_sound choose opened ticks m :
  (∀ n, 0 < n → choose n < n) →
  select_genesis choose opened ticks = Some (Ok m) →
  kind m = Genesis ∧
  (∃ pre t post, ticks = pre ++ t :: post ∧ (t = TickPatience ∨ t = TickMessage (Ok None)) ∧
     m ∈ offered_genesis pre ∧
     offered_genesis pre !! choose (length (offered_genesis pre)) = Some m) ∧
  ∀ candidates more t, candidates ≠ [] → t = TickPatience ∨ t = TickMessage (Ok None) →
    is_Some (collect choose candidates (more ++ [t])).
Proof.
  intros Hc Hs. destruct opened as [[[]|e]|]; [|done|done].
  destruct (await_first_chosen _ _ _ Hs) as (pre & t & post & -> & Ht & Hm).
  pose proof (list_elem_of_lookup_2 _ _ _ Hm) as Hin. split; [by eapply offered_genesis_kind|]. split; [eauto 10|].
  intros cands more t' Hne Ht'. destruct (collect_answers choose cands more t' Hc Hne Ht') as [r Hr]. by eexists.
Qed.
End genesis.

(** ** The session *)

Record ConsumerConfig := MkConsumerConfig {
  cfg_session_id : string;
  cfg_stun_urls : list string;
  cfg_tag : string;
  cfg_patience : Z;
  cfg_nat_timeout : Z;
  cfg_queue_capacity : Z;
  cfg_enable_ipv6 : bool
}.

Definition consumer_config_new (session_id : string) : ConsumerConfig :=
  MkConsumerConfig session_id [] "" (500 * 10 ^ 6) (5 * 10 ^ 9) 4096 false.

Section session.
Context {Typ Sdp D X W E Api : Type}.
Context `{JsonText} `{!IceTypeCodec Typ} `{!SdpCodec Sdp}.

Abbreviation error := (ConsumerError X W E).

(** [RunPath] is [run_consumer_path]: the path's result. *)
Inductive consumer_op : Type → Type :=
| SelectGenesis (patience : Z) : consumer_op (result SignalMessage error)
| CreateOffer : consumer_op (result Sdp W)
| CExchangeOp (send_to : string) (k : SignalMessageType) (payload : string)
    : consumer_op (result (option SignalMessage) (SignalingError X))
| CGatheringPromise : consumer_op unit
| CSetLocal (sdp : Sdp) : consumer_op (result unit W)
| CSetRemote (sdp : Sdp) : consumer_op (result unit W)
| CGatheringComplete : consumer_op unit
| GatheredCandidates : consumer_op (list (RTCIceCandidate Typ))
| CWaitDataChannel (timeout : Z) : consumer_op (waited D)
| Allocate : consumer_op (result SocketAddr (ConsumerPathError E))
| RunPath (remote : SocketAddr) (queue_capacity : Z) (datagrams : D)
    : consumer_op (result ConsumerPathEnd (ConsumerPathError E))
| CNewPeerConnection (api : Api) (servers : list (list string)) : consumer_op (result unit W)
| CCreateDataChannel (label : string) (init : RTCDataChannelInit) : consumer_op (result unit W)
| CCloseConnection : consumer_op (result unit W).

Abbreviation body := (prog consumer_op (result ConsumerOutcome error)).

Definition c_expect_signal (signal : SignalMessage) (expected : SignalMessageType) : result unit error :=
  if decide (kind signal = expected) then Ok tt else Err (CUnexpectedSignal expected (kind signal)).

Definition consumer_offer_to_json (sdp : Sdp) (tag : string) : json :=
  JObj [("SDP", sdp_to_json sdp); ("Tag", JStr tag)].

(** From the open data channel on. *)
Definition path_phase (config : ConsumerConfig) : body :=
  await! w := CWaitDataChannel (cfg_nat_timeout config) in
  try! r := (match w with
             | TimedOut => Err CNatTimeout
             | SenderDropped => Err CDataChannelClosed
             | Resolved r => Ok r
             end) in
  try! datagrams := map_err CPeerConnectionEnded r in
  do! remote := Allocate in
  try! remote := map_err Path remote in
  await! path_end := RunPath remote (cfg_queue_capacity config) datagrams in
  try! path_end := map_err Path path_end in
  Ret (Ok (MkConsumerOutcome remote path_end)).

(** Apply the answer, gather candidates and send them to whoever answered. *)
Definition candidates_phase (config : ConsumerConfig) (offer answer : Sdp) (reply_to : string) : body :=
  await! _ := CGatheringPromise in
  await! r := CSetLocal offer in
  try! _ := map_err CWebRtc r in
  await! r := CSetRemote answer in
  try! _ := map_err CWebRtc r in
  await! _ := CGatheringComplete in
  do! cs := GatheredCandidates in
  await! r := CExchangeOp reply_to Ice (ice_payload cs (cfg_session_id config)) in
  try! _ := map_err CSignaling r in
  path_phase config.

Definition consumer_session (config : ConsumerConfig) : body :=
  await! genesis := SelectGenesis (cfg_patience config) in
  try! genesis := genesis in
  await! offer := CreateOffer in
  try! offer := map_err CWebRtc offer in
  await! reply := CExchangeOp (reply_to genesis) Offer (to_string (consumer_offer_to_json offer (cfg_tag config))) in
  try! reply := map_err CSignaling reply in
  try! answer_signal := ok_or reply MissingAnswer in
  try! _ := c_expect_signal answer_signal Answer in
  try! answer := ok_or (decode_payload sdp_of_json answer_signal) Json in
  candidates_phase config offer answer (reply_to answer_signal).

(** The whole function: the API, the connection and the channel are made first; the
    session runs next to the cancellation token, and whatever it comes to the
    connection is closed. *)
Definition run_consumer_session (api : result Api W) (config : ConsumerConfig) : body :=
  try! api := map_err CWebRtc api in
  await! connection := CNewPeerConnection api (ice_servers (cfg_stun_urls config)) in
  try! _ := map_err CWebRtc connection in
  await! channel := CCreateDataChannel unreliable_data_channel.1 unreliable_data_channel.2 in
  try! _ := map_err CWebRtc channel in
  select! result := consumer_session config in
  await! _ := CCloseConnection in
  Ret (default (Err CCancelled) result).

Inductive consumer_call :=
| KSelect
| KCreateOffer
| KExchange (send_to : string) (k : SignalMessageType)
| KSetLocal
| KSetRemote
| KWait
| KAllocate
| KRunPath (remote : SocketAddr)
| KNewConnection
| KCreateChannel
| KClose.

Definition consumer_call_of (a : action consumer_op) : option consumer_call :=
  match a with
  | Act op _ =>
      match op with
      | SelectGenesis _ => Some KSelect
      | CreateOffer => Some KCreateOffer
      | CExchangeOp send_to k _ => Some (KExchange send_to k)
      | CSetLocal _ => Some KSetLocal
      | CSetRemote _ => Some KSetRemote
      | CWaitDataChannel _ => Some KWait
      | Allocate => Some KAllocate
      | RunPath remote _ _ => Some (KRunPath remote)
      | CNewPeerConnection _ _ => Some KNewConnection
      | CCreateDataChannel _ _ => Some KCreateChannel
      | CCloseConnection => Some KClose
      | CGatheringPromise | CGatheringComplete | GatheredCandidates => None
      end
  end.

Abbreviation calls := (omap consumer_call_of).

Definition path_calls (a : SocketAddr) : list consumer_call := [KWait; KAllocate; KRunPath a].

Definition candidates_calls (peer : string) (a : SocketAddr) : list consumer_call :=
  [KSetLocal; KSetRemote; KExchange peer Ice] ++ path_calls a.

Definition consumer_calls (genesis peer : string) (a : SocketAddr) : list consumer_call :=
  [KSelect; KCreateOffer; KExchange genesis Offer] ++ candidates_calls peer a.

(** The part of a run that says who was spoken to and about what. *)
Definition ice_sent (a : action consumer_op) : option string :=
  match a with
  | Act op _ => match op with CExchangeOp _ Ice payload => Some payload | _ => None end
  end.

Definition gathered (a : action consumer_op) : option (list (RTCIceCandidate Typ)) :=
  match a with
  | Act op x =>
      match op in consumer_op A return A → option (list (RTCIceCandidate Typ)) with
      | GatheredCandidates => Some
      | _ => λ _, None
      end x
  end.

Definition sent_candidates (config : ConsumerConfig) (tr : list (action consumer_op)) : Prop :=
  omap ice_sent tr = [] ∨
  ∃ cs, omap gathered tr = [cs] ∧ omap ice_sent tr = [ice_payload cs (cfg_session_id config)].

(** Where the values of a run come from: the peer that was selected, the party whose
    answer the offer got, the channel and the address the path was run with. *)
Definition selected_peer (config : ConsumerConfig) (genesis : string) (tr : list (action consumer_op)) : Prop :=
  ∃ g, reply_to g = genesis ∧ Act (SelectGenesis (cfg_patience config)) (Ok g) ∈ tr.
Definition answer_from (genesis peer : string) (tr : list (action consumer_op)) : Prop :=
  ∃ text m, Act (CExchangeOp genesis Offer text) (Ok (Some m)) ∈ tr ∧ kind m = Answer ∧ reply_to m = peer.
Definition path_run (config : ConsumerConfig) (a : SocketAddr) (tr : list (action consumer_op)) : Prop :=
  Act Allocate (Ok a) ∈ tr ∧
  ∃ d x, Act (CWaitDataChannel (cfg_nat_timeout config)) (Resolved (Ok d)) ∈ tr ∧
    Act (RunPath a (cfg_queue_capacity config) d) x ∈ tr.

Lemma path_run_cons config a x tr : path_run config a tr → path_run config a (x :: tr).
Proof. intros (Ha & d & y & Hw & Hr). split; [by right|]. exists d, y. split; by right. Qed.

Definition nowhere : SocketAddr := SocketAddrV4 0 0.

Lemma ccalls_cons a tr : calls (a :: tr) = option_list (consumer_call_of a) ++ calls tr.
Proof. simpl. by destruct (consumer_call_of a). Qed.

(** A part of a run against the calls it should make; [last] says what holds of the
    address of the path. *)
Definition path_follows (config : ConsumerConfig) (script : SocketAddr → list consumer_call)
    (tr : list (action consumer_op)) (o : option (result ConsumerOutcome error)) : Prop :=
  ∃ a, calls tr `prefix_of` script a ∧ (KRunPath a ∈ calls tr → path_run config a tr) ∧
  ∀ out, o = Some (Ok out) → calls tr = script a ∧ remote out = a.

Ltac stop_path := exists nowhere; split_and!; [unfold prefix; simpl; by eexists|not_listed|done].

Lemma path_phase_calls config tr o :
  run (path_phase config) tr o → path_follows config path_calls tr o.
Proof.
  unfold path_phase, path_calls. intros Hr. run_op Hr; [stop_path|].
  match type of Hr with run (try (match ?w with _ => _ end) _) _ _ => destruct w as [| |[d|st]] end;
    simpl in Hr; try (destruct Hr as [-> ->]; stop_path).
  run_op Hr. run_try Hr; [|stop_path]. run_op Hr; [stop_path|].
  match goal with |- context [RunPath ?a _ _] => exists a end.
  assert (Hpath : ∀ tr', path_run config a (Act (CWaitDataChannel (cfg_nat_timeout config)) (Resolved (Ok d)) ::
    Act Allocate (Ok a) :: Act (RunPath a (cfg_queue_capacity config) d) x :: tr')).
  { intros tr'. split; [right; left|]. exists d, x. split; [left|right; right; left]. }
  run_try Hr; [|split_and!; [by exists []|by intros _|done]].
  destruct Hr as [-> ->]. split_and!; [by exists []|by intros _|]. by intros out [= <-].
Qed.

Lemma path_phase_silent config tr o :
  run (path_phase config) tr o → omap ice_sent tr = [] ∧ omap gathered tr = [].
Proof.
  unfold path_phase. intros Hr.
  run_op Hr; [done|]. run_try Hr; [|done]. run_try Hr; [|done]. run_op Hr. run_try Hr; [|done].
  run_op Hr; [done|]. run_try Hr; [|done]. by destruct Hr as [-> ->].
Qed.

(** One more call in front. *)
Lemma path_follows_cons config (script : SocketAddr → list consumer_call) x c tr o :
  consumer_call_of x = Some c → (∀ a, c ≠ KRunPath a) →
  path_follows config script tr o → path_follows config (λ a, c :: script a) (x :: tr) o.
Proof.
  intros Hc Hne (a & Hp & Hpath & Ho). exists a. rewrite ccalls_cons, Hc. simpl. split_and!.
  - by apply prefix_cons.
  - intros [Heq|Hin]%elem_of_cons; [by destruct (Hne a)|]. by apply path_run_cons, Hpath.
  - intros out Hout. destruct (Ho out Hout) as [-> ?]. done.
Qed.

Lemma path_follows_silent config script x tr o :
  consumer_call_of x = None → path_follows config script tr o → path_follows config script (x :: tr) o.
Proof.
  intros Hc (a & Hp & Hpath & Ho). exists a. rewrite ccalls_cons, Hc. simpl. split_and!; [done| |done].
  intros Hin. by apply path_run_cons, Hpath.
Qed.

Ltac stop_candidates := split; [by left|stop_path].

Lemma candidates_phase_calls config offer answer peer tr o :
  run (candidates_phase config offer answer peer) tr o →
  sent_candidates config tr ∧ path_follows config (candidates_calls peer) tr o.
Proof.
  unfold candidates_phase. intros Hr.
  run_op Hr; [stop_candidates|]. run_op Hr; [stop_candidates|]. run_try Hr; [|stop_candidates].
  run_op Hr; [stop_candidates|]. run_try Hr; [|stop_candidates].
  run_op Hr; [stop_candidates|]. run_op Hr. run_op Hr; [stop_candidates|].
  run_try Hr; [|split; [right; by eexists|stop_path]].
  destruct (path_phase_silent _ _ _ Hr) as [Hs Hg]. split.
  - right. eexists. split; [exact (f_equal (cons _) Hg)|exact (f_equal (cons _) Hs)].
  - apply path_follows_silent; [done|]. do 2 (apply path_follows_cons; [done..|]).
    do 2 (apply path_follows_silent; [done|]). apply path_follows_cons; [done..|]. by apply path_phase_calls.
Qed.

(** What a session owes to the protocol. *)
Definition consumer_obeys (config : ConsumerConfig) (tr : list (action consumer_op))
    (o : option (result ConsumerOutcome error)) : Prop :=
  sent_candidates config tr ∧
  ∃ genesis peer a, calls tr `prefix_of` consumer_calls genesis peer a ∧
    (KExchange genesis Offer ∈ calls tr → selected_peer config genesis tr) ∧
    (KExchange peer Ice ∈ calls tr → answer_from genesis peer tr) ∧
    (KRunPath a ∈ calls tr → path_run config a tr) ∧
    ∀ out, o = Some (Ok out) → calls tr = consumer_calls genesis peer a ∧ remote out = a.

Ltac stop_session :=
  split; [by left|exists "", "", nowhere; split_and!;
    [unfold prefix; simpl; by eexists|not_listed|not_listed|not_listed|done]].

Ltac stop_offered g :=
  split; [by left|exists (reply_to g), "", nowhere; split_and!;
    [unfold prefix; simpl; by eexists|intros _; exists g; split; [done|left]|not_listed|not_listed|done]].

Lemma consumer_session_obeys config tr o :
  run (consumer_session config) tr o → consumer_obeys config tr o.
Proof.
  unfold consumer_session. intros Hr.
  run_op Hr; [stop_session|]. run_try Hr; [|stop_session].
  run_op Hr; [stop_session|]. run_try Hr; [|stop_session].
  run_op Hr; [stop_session|].
  match goal with |- context [CExchangeOp (reply_to ?g) Offer _] => rename g into g0 end.
  run_try Hr; [|stop_offered g0]. run_try Hr; [|stop_offered g0].
  unfold c_expect_signal in Hr. case_decide as Hk; simpl in Hr; [|destruct Hr as [-> ->]; stop_offered g0].
  run_try Hr; [|stop_offered g0].
  apply candidates_phase_calls in Hr as [Hs Hf]. split.
  - destruct Hs as [Hs|(cs & Hg & Hs)]; [left; exact Hs|right; exists cs; split; [exact Hg|exact Hs]].
  - match goal with |- context [Act (CExchangeOp _ Offer _) (Ok (Some ?m))] =>
      rename m into m0; destruct Hf as (a & Hp & Hpath & Ho); exists (reply_to g0), (reply_to m0), a end.
    rewrite !ccalls_cons. simpl. split_and!.
    + by do 3 apply prefix_cons.
    + intros _. exists g0. split; [done|left].
    + intros _. do 2 eexists. split; [right; right; left|done].
    + intros Hin. repeat (apply elem_of_cons in Hin as [Hin|Hin]; [done|]). by do 3 apply path_run_cons; apply Hpath.
    + intros out Hout. destruct (Ho out Hout) as [Hc ?]. split; [|done].
      exact (f_equal (λ l, KSelect :: KCreateOffer :: KExchange (reply_to g0) Offer :: l) Hc).
Qed.

(** C29: the consumer's function follows the protocol on every run, whatever the
    services answer and wherever it is cancelled.  Either there was no API, no
    connection or no data channel, and nothing else was done; or the session ran on
    them: the offer went to the peer that was selected, the candidates it gathered
    (all of them, with the consumer's session id) to whoever sent the answer to that
    offer, once; the path was run only on the data channel the wait delivered and at
    the address the allocator returned, which is the one the outcome reports.  And
    the function does not return before it has closed the connection, as its last
    call; a cancelled session is reported as such. *)
Theorem consumer_session_follows_protocol api config tr o :
  run (run_consumer_session api config) tr o →
  (∃ e, api = Err e ∧ tr = [] ∧ o = Some (Err (CWebRtc e))) ∨
  ∃ settings, api = Ok settings ∧
  let connect := CNewPeerConnection settings (ice_servers (cfg_stun_urls config)) in
  let channel := CCreateDataChannel "data" (MkInit (Some false) (Some 0%Z)) in
  (o = None ∧ (tr = [] ∨ tr = [Act connect (Ok tt)])) ∨
  (∃ e, o = Some (Err (CWebRtc e)) ∧
     (tr = [Act connect (Err e)] ∨ tr = [Act connect (Ok tt); Act channel (Err e)])) ∨
  ∃ tr_session s closing, tr = Act connect (Ok tt) :: Act channel (Ok tt) :: tr_session ++ closing ∧
    consumer_obeys config tr_session s ∧
    match o with
    | None => closing = []
    | Some r => (∃ x, closing = [Act CCloseConnection x]) ∧ r = default (Err CCancelled) s
    end.
Proof.
  unfold run_consumer_session. intros Hr.
  destruct api as [settings|e]; simpl in Hr; [right|destruct Hr as [-> ->]; left; by exists e].
  exists settings. split; [done|]. destruct Hr as [[-> ->]|([[]|e] & tr1 & -> & Hr)]; [left; auto|..]; simpl in Hr.
  2:{ destruct Hr as [-> ->]. right; left. eauto. }
  destruct Hr as [[-> ->]|([[]|e] & tr2 & -> & Hr)]; [left; auto|..]; simpl in Hr.
  2:{ destruct Hr as [-> ->]. right; left. eauto. }
  right; right. destruct Hr as [[-> Hs]|(s & tr3 & tr4 & -> & Hs & Hr)].
  - exists tr2, None, []. rewrite app_nil_r. split_and!; [done|by apply consumer_session_obeys|done].
  - exists tr3, s, tr4. split_and!; [done|by apply consumer_session_obeys|].
    destruct Hr as [[-> ->]|(x & tr5 & -> & [-> ->])]; [done|]. split; [by exists x|done].
Qed.
End session.

(** ** The connection's callbacks

    The data channel's open callback and the connection's state callback compete
    for the one sender of the wait; the candidate callback fills the list the
    session reads. *)
Section callbacks.
Context {Typ D : Type}.

Record consumer_callbacks := MkConsumerCallbacks {
  cc_wait_tx : bool;
  cc_wait : option (result D RTCPeerConnectionState);
  cc_candidates : list (RTCIceCandidate Typ)
}.

Definition consumer_callbacks_new : consumer_callbacks := MkConsumerCallbacks true None [].

Inductive consumer_callback :=
| CbOpen (datagrams : D)
| CbState (state : RTCPeerConnectionState)
| CbIceCandidate (candidate : option (RTCIceCandidate Typ)).

Definition take_and_send (r : result D RTCPeerConnectionState) (c : consumer_callbacks) : consumer_callbacks :=
  MkConsumerCallbacks false (if cc_wait_tx c then Some r else cc_wait c) (cc_candidates c).

Definition consumer_callback_step (c : consumer_callbacks) (ev : consumer_callback) : consumer_callbacks :=
  match ev with
  | CbOpen d => take_and_send (Ok d) c
  | CbState state => if is_terminal_peer_state state then take_and_send (Err state) c else c
  | CbIceCandidate (Some candidate) =>
      MkConsumerCallbacks (cc_wait_tx c) (cc_wait c) (cc_candidates c ++ [candidate])
  | CbIceCandidate None => c
  end.

Definition cb_resolution (ev : consumer_callback) : option (result D RTCPeerConnectionState) :=
  match ev with
  | CbOpen d => Some (Ok d)
  | CbState state => if is_terminal_peer_state state then Some (Err state) else None
  | CbIceCandidate _ => None
  end.

Definition cb_candidate (ev : consumer_callback) : option (RTCIceCandidate Typ) :=
  match ev with CbIceCandidate c => c | _ => None end.

(** The wait is decided by the first event that can decide it; the candidates are
    those reported, in order. *)
Lemma consumer_callbacks_spec evs :
  let c := foldl consumer_callback_step consumer_callbacks_new evs in
  cc_wait c = head (omap cb_resolution evs) ∧ cc_candidates c = omap cb_candidate evs.
Proof.
  assert (Hgen : ∀ c, let c' := foldl consumer_callback_step c evs in
    cc_wait c' = (if cc_wait_tx c then match head (omap cb_resolution evs) with Some r => Some r | None => cc_wait c end
                  else cc_wait c) ∧
    cc_candidates c' = cc_candidates c ++ omap cb_candidate evs).
  { induction evs as [|ev evs IH]; intros c; simpl; [by destruct (cc_wait_tx c); rewrite app_nil_r|].
    destruct (IH (consumer_callback_step c ev)) as [-> ->].
    destruct ev as [d|state|[cand|]]; simpl.
    - by destruct (cc_wait_tx c).
    - destruct (is_terminal_peer_state state); simpl; [by destruct (cc_wait_tx c)|done].
    - by rewrite <- (assoc_L (++)).
    - done. }
  cbn zeta. destruct (Hgen consumer_callbacks_new) as [-> ->]. simpl. by destruct (head _).
Qed.
End callbacks.

(** ** Keeping a path up *)
Section maintain.
(** The session's error and its [to_string]. *)
Context {Fail : Type} (display : Fail → string).

(** What the outside contributes to one pass of the loop. *)
Record try_round := MkTry {
  tr_cancelled_before : bool;
  tr_result : result ConsumerOutcome Fail;
  tr_cancelled_after : bool;
  tr_cancelled_asleep : bool
}.

Definition c_emit (e : ConsumerEvent) (log : option (list ConsumerEvent)) : option (list ConsumerEvent) :=
  (λ l, l ++ [e]) <$> log.

Abbreviation state := (ConsumerSummary * option (list ConsumerEvent))%type.

(** One pass: [true] when the loop breaks. *)
Definition maintain_round (rd : try_round) (st : state) : bool * state :=
  if tr_cancelled_before rd then (true, st)
  else
    let '(sum, log) := st in
    let attempt := u64_succ (c_attempts sum) in
    let sum := MkConsumerSummary attempt (completed_paths sum) (c_failed_attempts sum) in
    let log := c_emit (CAttemptStarted attempt) log in
    if is_err (tr_result rd) && tr_cancelled_after rd then (true, (sum, log))
    else
      match tr_result rd with
      | Ok outcome =>
          if decide (path_end outcome = PathCancelled) then (true, (sum, log))
          else
            (false, (MkConsumerSummary attempt (u64_succ (completed_paths sum)) (c_failed_attempts sum),
                     c_emit (CPathEnded attempt outcome) log))
      | Err error =>
          (tr_cancelled_asleep rd,
           (MkConsumerSummary attempt (completed_paths sum) (u64_succ (c_failed_attempts sum)),
            c_emit (CAttemptFailed attempt (display error)) log))
      end.

Fixpoint maintain_loop (rounds : list try_round) (st : state) : option state :=
  match rounds with
  | [] => None
  | rd :: rounds =>
      match maintain_round rd st with
      | (true, st) => Some st
      | (false, st) => maintain_loop rounds st
      end
  end.

(** [None]: still running when the rounds are over. *)
Definition maintain_consumer (events : option (list ConsumerEvent)) (rounds : list try_round) : option state :=
  '(sum, log) ← maintain_loop rounds (MkConsumerSummary 0 0 0, events);
  Some (sum, c_emit (CStopped sum) log).

(** The log of the attempts [n + 1], [n + 2], ... that were reported. *)
Fixpoint attempts_log (n : Z) (rounds : list try_round) : list ConsumerEvent :=
  match rounds with
  | [] => []
  | rd :: rounds =>
      [CAttemptStarted (n + 1);
       match tr_result rd with
       | Ok outcome => CPathEnded (n + 1) outcome
       | Err error => CAttemptFailed (n + 1) (display error)
       end] ++ attempts_log (n + 1) rounds
  end.

Definition paths_of (rounds : list try_round) : Z :=
  Z.of_nat (length (filter (λ rd, is_ok (tr_result rd) = true) rounds)).
Definition failures_of (rounds : list try_round) : Z :=
  Z.of_nat (length (filter (λ rd, is_ok (tr_result rd) = false) rounds)).

Definition c_tally (s : ConsumerSummary) (done : list try_round) (aborted : bool) : ConsumerSummary :=
  MkConsumerSummary (c_attempts s + Z.of_nat (length done) + if aborted then 1 else 0)
    (completed_paths s + paths_of done) (c_failed_attempts s + failures_of done).

Definition c_small (s : ConsumerSummary) (m : nat) : Prop :=
  (0 ≤ completed_paths s ∧ 0 ≤ c_failed_attempts s ∧
   completed_paths s + c_failed_attempts s ≤ c_attempts s ∧ c_attempts s + Z.of_nat m ≤ u64_max)%Z.

Definition reported (rd : try_round) : Prop :=
  match tr_result rd with Ok outcome => path_end outcome ≠ PathCancelled | Err _ => True end.

(** One pass: nothing, an attempt cut short, or a reported attempt. *)
Lemma maintain_round_cases rd sum l m :
  c_small sum (S m) →
  let '(stop, st) := maintain_round rd (sum, Some l) in
  (stop = true ∧ st = (sum, Some l)) ∨
  (stop = true ∧ st = (c_tally sum [] true, Some (l ++ [CAttemptStarted (c_attempts sum + 1)]))) ∨
  (reported rd ∧ st = (c_tally sum [rd] false, Some (l ++ attempts_log (c_attempts sum) [rd])) ∧
   c_small (c_tally sum [rd] false) m).
Proof.
  intros (Hp & Hf & Hs & Ha). unfold maintain_round, c_tally, paths_of, failures_of, reported, c_small, c_emit.
  destruct (tr_cancelled_before rd); [by left|].
  destruct (tr_result rd) as [outcome|error] eqn:Hr; rewrite ?filter_cons, ?Hr; simpl; rewrite ?Hr;
    rewrite !(u64_succ_small _ m) by lia.
  - case_decide; [right; left; split; [done|]; do 2 f_equal; lia|].
    right; right. split_and!; try lia; try done. rewrite <- (assoc_L (++)). simpl. do 2 f_equal; lia.
  - destruct (tr_cancelled_after rd); [right; left; split; [done|]; do 2 f_equal; lia|].
    right; right. split_and!; try lia; try done. rewrite <- (assoc_L (++)). simpl. do 2 f_equal; lia.
Qed.

Lemma c_tally_app s done1 done2 aborted :
  c_tally (c_tally s done1 false) done2 aborted = c_tally s (done1 ++ done2) aborted.
Proof.
  unfold c_tally, paths_of, failures_of. simpl. rewrite !filter_app, !length_app. f_equal; lia.
Qed.

Lemma maintain_loop_accounting rounds sum l st :
  c_small sum (length rounds) → maintain_loop rounds (sum, Some l) = Some st →
  ∃ finished aborted, finished `prefix_of` rounds ∧ Forall reported finished ∧
    st = (c_tally sum finished aborted,
          Some (l ++ attempts_log (c_attempts sum) finished ++
                if aborted : bool then [CAttemptStarted (c_attempts (c_tally sum finished aborted))] else [])).
Proof.
  revert sum l. induction rounds as [|rd rounds IH]; intros sum l Hs; simpl; [done|].
  pose proof (maintain_round_cases rd sum l (length rounds) Hs) as Hc.
  assert (Hid : c_tally sum [] false = sum).
  { unfold c_tally, paths_of, failures_of. simpl. rewrite !Z.add_0_r. by destruct sum. }
  destruct (maintain_round rd (sum, Some l)) as [stop st1].
  destruct Hc as [[-> ->]|[[-> ->]|(Hrep & -> & Hs1)]].
  - intros [= <-]. exists [], false. rewrite Hid. simpl. rewrite app_nil_r.
    split_and!; [apply prefix_nil|constructor|done].
  - intros [= <-]. exists [], true. split_and!; [apply prefix_nil|constructor|].
    unfold c_tally. simpl. by rewrite Z.add_0_r.
  - assert (Hn : c_attempts (c_tally sum [rd] false) = (c_attempts sum + 1)%Z) by (simpl; lia).
    destruct stop.
    + intros [= <-]. exists [rd], false. rewrite app_nil_r. split_and!; [by exists rounds|by constructor|done].
    + intros (fin & aborted & Hp & Hr & ->)%IH; [|done].
      exists (rd :: fin), aborted. split_and!; [by apply prefix_cons|by constructor|].
      rewrite c_tally_app, Hn, <- (assoc_L (++)). done.
Qed.

(** C39: the consumer's books balance too: when [maintain_consumer] stops, the log
    is exactly the attempts 1, 2, 3, ... in order, each started and then reported
    as an ended path or a failure, possibly one attempt cut short by the
    cancellation, and [Stopped]; and the summary counts them. *)
Theorem maintain_accounting rounds sum log :
  (Z.of_nat (length rounds) ≤ u64_max)%Z →
  maintain_consumer (Some []) rounds = Some (sum, Some log) →
  ∃ finished aborted, finished `prefix_of` rounds ∧ Forall reported finished ∧
    sum = MkConsumerSummary (Z.of_nat (length finished) + if aborted : bool then 1 else 0)
            (paths_of finished) (failures_of finished) ∧
    log = attempts_log 0 finished ++ (if aborted then [CAttemptStarted (c_attempts sum)] else []) ++
          [CStopped sum].
Proof.
  intros Hlen Hm. unfold maintain_consumer in Hm.
  destruct (maintain_loop rounds _) as [st|] eqn:Hl; [|done].
  apply maintain_loop_accounting in Hl as (fin & aborted & Hp & Hr & ->);
    [|unfold c_small; simpl; lia].
  simpl in Hm. simplify_eq. exists fin, aborted. split_and!; [done|done|done|].
  by rewrite <- (assoc_L (++)).
Qed.
End maintain.

(** ** Runs *)
Module ConsumerDemo.
#[local] Existing Instance IceDemo.host_codec.
#[local] Existing Instance gen_json_text.
#[local] Existing Instance ProxyDemo.text_sdp.

Definition advert (who : string) : SignalMessage := MkSignal who Genesis "{}".

Definition ticks : list (tick (X := unit)) :=
  [TickMessage (Ok (Some (MkSignal "x" Offer ""))); TickMessage (Ok (Some (advert "a")));
   TickMessage (Ok (Some (advert "b"))); TickPatience].

Lemma select_genesis_sound_witness :
  select_genesis (W := unit) (E := unit) pred (Some (Ok tt)) ticks = Some (Ok (advert "b")) ∧
  kind (advert "b") = Genesis.
Proof.
  assert (Hs : select_genesis (W := unit) (E := unit) pred (Some (Ok tt)) ticks = Some (Ok (advert "b"))) by reflexivity.
  assert (Hc : ∀ n, 0 < n → pred n < n) by lia.
  split; [exact Hs|]. exact (proj1 (select_genesis_sound pred _ ticks _ Hc Hs)).
Defined.

Definition config : ConsumerConfig := consumer_config_new "csid".

Abbreviation op := (consumer_op (Typ := unit) (Sdp := string) (D := nat) (X := unit) (W := unit) (E := unit) (Api := unit)).

Definition answers (A : Type) (o : op A) (s : unit) : A * unit :=
  match o with
  | SelectGenesis _ => (Ok (advert "peer"), s)
  | CreateOffer => (Ok "offer", s)
  | CExchangeOp _ Offer _ => (Ok (Some (MkSignal "peer" Answer (to_string (JStr "answer")))), s)
  | CExchangeOp _ _ _ => (Ok None, s)
  | CGatheringPromise => (tt, s)
  | CSetLocal _ => (Ok tt, s)
  | CSetRemote _ => (Ok tt, s)
  | CGatheringComplete => (tt, s)
  | GatheredCandidates => ([IceDemo.candidate], s)
  | CWaitDataChannel _ => (Resolved (Ok 3), s)
  | Allocate => (Ok (nth_address 0), s)
  | RunPath _ _ _ => (Ok PathPeerClosed, s)
  | CNewPeerConnection _ _ => (Ok tt, s)
  | CCreateDataChannel _ _ => (Ok tt, s)
  | CCloseConnection => (Ok tt, s)
  end.

Definition function : prog op (result ConsumerOutcome (ConsumerError unit unit unit)) :=
  run_consumer_session (Ok tt) config.

Definition trace : list (action op) := (exec answers function tt).1.1.

Lemma function_runs : run function trace (Some (Ok (MkConsumerOutcome (nth_address 0) PathPeerClosed))).
Proof. exact (exec_run answers function tt). Qed.

Lemma consumer_session_follows_protocol_witness :
  ∃ tr_session s closing, trace = Act (CNewPeerConnection tt []) (Ok tt) ::
      Act (CCreateDataChannel "data" (MkInit (Some false) (Some 0%Z))) (Ok tt) :: tr_session ++ closing ∧
    consumer_obeys config tr_session s ∧
    Ok (MkConsumerOutcome (nth_address 0) PathPeerClosed) = default (Err CCancelled) s.
Proof.
  destruct (consumer_session_follows_protocol (Ok tt) config trace _ function_runs)
    as [(e & He & _)|([] & _ & [[He _]|[(e & He & _)|(trs & s & c & Ht & Hs & _ & Hr)]])];
    [discriminate He|discriminate He|discriminate He|].
  exists trs, s, c. split; [exact Ht|]. split; [exact Hs|exact Hr].
Defined.

Definition rounds : list (try_round (Fail := unit)) :=
  [MkTry false (Ok (MkConsumerOutcome (nth_address 0) PathPeerClosed)) false false;
   MkTry false (Err tt) true true].

Lemma maintain_accounting_witness :
  ∃ finished aborted, finished `prefix_of` rounds ∧
    MkConsumerSummary 2 1 0 = MkConsumerSummary (Z.of_nat (length finished) + if aborted : bool then 1 else 0)
      (paths_of finished) (failures_of finished).
Proof.
  assert (Hl : (Z.of_nat (length rounds) ≤ u64_max)%Z) by (unfold u64_max; simpl; lia).
  assert (Hm : maintain_consumer (λ _, "failed") (Some []) rounds =
    Some (MkConsumerSummary 2 1 0,
      Some [CAttemptStarted 1; CPathEnded 1 (MkConsumerOutcome (nth_address 0) PathPeerClosed);
            CAttemptStarted 2; CStopped (MkConsumerSummary 2 1 0)])) by reflexivity.
  destruct (maintain_accounting _ rounds _ _ Hl Hm) as (f & a & Hp & _ & Hs & _).
  exists f, a. split; [exact Hp|exact Hs].
Defined.
End ConsumerDemo.
