(* ===== verification/Setup.v ===== *)
(** How the two functions [run_peer_proxy_until_cancelled] ([src/peer_proxy.rs]) and
    [run_consumer_session] ([src/consumer.rs]) build the API object their connection
    is made with, and the data-channel callbacks of the peer proxy channel by
    channel.

    Making a connection and creating a channel on it are calls into the WebRTC
    crate: operations of the two programs, with the arguments they are made with. *)
From S2P Require Import Prelude Net Async Serde Ice Relay Rtc Supervisor PeerProxy Consumer.

Section setup.
Context {Suite Ext W : Type}.
Variables register_default_codecs register_default_interceptors : result unit W.
Variable shuffle_suites : list Suite → list Suite.
Variable shuffle_extensions : list Ext → list Ext.
Abbreviation settings := (ApiSettings (ClientHello Suite Ext)).
Abbreviation api_with :=
  (build_api_with_options register_default_codecs register_default_interceptors shuffle_suites shuffle_extensions).

(** The two functions with the API object each of them builds; the consumer's
    handshake is not randomised. *)
Section proxy.
Context {Typ Sdp D T X V E : Type} `{JsonText} `{!IceTypeCodec Typ} `{!SdpCodec Sdp}.
Variable candidate_to_json : RTCIceCandidate Typ → result IceCandidateInit W.

Definition run_proxy (config : PeerProxyConfig)
    : prog (peer_op Sdp D T X W V E settings) (result PeerProxyOutcome (PeerProxyError X W V E)) :=
  run_peer_proxy_until_cancelled candidate_to_json
    (api_with (enable_ipv6 config) (randomize_dtls config)) config.
End proxy.

Section consumer.
Context {Typ Sdp D X E : Type} `{JsonText} `{!IceTypeCodec Typ} `{!SdpCodec Sdp}.

Definition run_consumer (config : ConsumerConfig)
    : prog (consumer_op (Typ := Typ) (Sdp := Sdp) (D := D) (X := X) (W := W) (E := E) (Api := settings))
        (result ConsumerOutcome (ConsumerError X W E)) :=
  run_consumer_session (api_with (cfg_enable_ipv6 config) false) config.
End consumer.

(** A connection of either session gathers IPv6 addresses only if asked to; the
    peer proxy's first handshake message is shuffled exactly when the settings say
    so and the consumer's never is. *)
Lemma api_options ipv6 randomize :
  is_ok register_default_codecs = true → is_ok register_default_interceptors = true →
  ∃ api, api_with ipv6 randomize = Ok api ∧
    network_types api = (if ipv6 then [Udp4; Udp6] else [Udp4]) ∧
    client_hello_hook api =
      if randomize then Some (randomize_hello shuffle_suites shuffle_extensions) else None.
Proof.
  intros Hc Hi. destruct register_default_codecs as [[]|]; [|done].
  destruct register_default_interceptors as [[]|]; [|done].
  eexists. split; [done|]. by destruct ipv6.
Qed.
End setup.

(** ** The peer proxy's data channels

    For every announced channel with the right label the callback keeps its
    datagrams in a slot of its own; the channel's open callback takes the sender of
    the wait first, then the slot, and sends only if it got both. *)
Section channels.
Context {Typ D : Type}.
Abbreviation event := (callback_event Typ D).

Record channels := MkChannels {
  ch_callbacks : callbacks D;
  ch_slots : list (option D)
}.

Inductive channel_event :=
| Announced (label : string) (d : D)
| Opened (i : nat)
| Elsewhere (ev : event).

(** [on_data_channel]. *)
Definition on_data_channel (label : string) (d : D) (c : channels) : channels :=
  if decide (label = DATA_CHANNEL_LABEL)
  then MkChannels (ch_callbacks c) (ch_slots c ++ [Some d]) else c.

(** [on_open] of the [i]-th of them.  A sender that is taken and not used is
    dropped. *)
Definition on_channel_open (i : nat) (c : channels) : channels :=
  match ch_slots c !! i with
  | None => c
  | Some slot =>
      let cb := ch_callbacks c in
      MkChannels
        (MkCallbacks (session_id cb) (connect_emitted cb) (disconnect_emitted cb) (PeerProxy.events cb) false
           (match wait_tx cb, slot with
            | true, Some d => Some (Ok d)
            | _, _ => wait_value cb
            end))
        (<[i := None]> (ch_slots c))
  end.

Definition channel_step (c : channels) (ev : channel_event) : channels :=
  match ev with
  | Announced label d => on_data_channel label d c
  | Opened i => on_channel_open i c
  | Elsewhere ev =>
      match ev with
      | Open _ => c
      | _ => MkChannels (callback_step (ch_callbacks c) ev) (ch_slots c)
      end
  end.

Definition run_channels (c : channels) (evs : list channel_event) : channels := foldl channel_step c evs.
Definition channels_new (events : option (list SupervisorEvent)) : channels :=
  MkChannels (callbacks_new events) [].

(** The simple callbacks ([callback_step]) see a channel open with its datagrams
    the first time, and nothing of the other events. *)
Definition seen (c : channels) (ev : channel_event) : list event :=
  match ev with
  | Announced _ _ => []
  | Opened i => match ch_slots c !! i with Some (Some d) => [Open d] | _ => [] end
  | Elsewhere (Open _) => []
  | Elsewhere ev => [ev]
  end.
Fixpoint seen_all (c : channels) (evs : list channel_event) : list event :=
  match evs with
  | [] => []
  | ev :: evs => seen c ev ++ seen_all (channel_step c ev) evs
  end.

(** An empty slot: the wait's sender is gone too, and was used. *)
Definition slots_ok (c : channels) : Prop :=
  (∀ i, ch_slots c !! i = Some None → wait_tx (ch_callbacks c) = false) ∧
  (wait_tx (ch_callbacks c) = false → is_Some (wait_value (ch_callbacks c))).

Lemma channel_step_callbacks c ev :
  slots_ok c → ch_callbacks (channel_step c ev) = run_callbacks (ch_callbacks c) (seen c ev).
Proof.
  intros [Hs _]. destruct ev as [label d|i|ev]; simpl.
  - unfold on_data_channel. by case_decide.
  - unfold on_channel_open. destruct (ch_slots c !! i) as [[d|]|] eqn:Hi; simpl.
    + unfold on_open, send_wait. by destruct (wait_tx (ch_callbacks c)).
    + specialize (Hs i Hi). destruct (ch_callbacks c). simpl in *. by rewrite Hs.
    + done.
  - by destruct ev.
Qed.

Lemma channel_step_ok c ev : slots_ok c → slots_ok (channel_step c ev).
Proof.
  intros [Hs Hw]. destruct ev as [label d|i|ev]; simpl.
  - unfold on_data_channel. case_decide; [|done]. split; [|done]. simpl. intros i Hi.
    apply lookup_app_Some in Hi as [Hi|[_ Hi]]; [by eapply Hs|].
    destruct (i - length (ch_slots c)); simplify_eq/=.
  - unfold on_channel_open. destruct (ch_slots c !! i) as [slot|] eqn:Hi; [|done]. split; simpl; [done|].
    intros _. destruct (wait_tx (ch_callbacks c)) eqn:Ht; [|by apply Hw].
    destruct slot as [d|]; [by eexists|]. apply Hs in Hi. congruence.
  - destruct ev as [state selected|d|id]; simpl; [|done..].
    destruct (state_change_wait state selected (ch_callbacks c)) as [Ht Hv].
    unfold fail_data_channel_wait in Ht, Hv. unfold slots_ok. simpl. rewrite Ht, Hv.
    destruct (is_terminal_peer_state state); simpl; [|done]. split; [done|]. intros _.
    destruct (wait_tx (ch_callbacks c)) eqn:Htx; [by eexists|by apply Hw].
Qed.

Lemma channels_new_ok events : slots_ok (channels_new events).
Proof. split; [|done]. intros i. simpl. by rewrite lookup_nil. Qed.

Lemma run_channels_callbacks c evs :
  slots_ok c →
  ch_callbacks (run_channels c evs) = run_callbacks (ch_callbacks c) (seen_all c evs) ∧
  slots_ok (run_channels c evs).
Proof.
  revert c. induction evs as [|ev evs IH]; intros c Hc; [done|]. simpl.
  destruct (IH _ (channel_step_ok c ev Hc)) as [Hr Hok]. split; [|done].
  by rewrite run_callbacks_app, <- channel_step_callbacks.
Qed.

(** C17: The data channels one by one refine the callbacks the session's theorems are
    about: however channels are announced, opened (also twice) and connection
    states reported, the shared state is that of the simple callbacks run on the
    first openings of the accepted channels; and the sender of the wait is never
    dropped unused, so the wait ends with a channel or a terminal state, never with
    [DataChannelClosed]. *)
Theorem data_channels_refine_callbacks events evs :
  let c := run_channels (channels_new events) evs in
  let simple := run_callbacks (callbacks_new events) (seen_all (channels_new events) evs) in
  ch_callbacks c = simple ∧
  (wait_tx (ch_callbacks c) = false → is_Some (wait_value (ch_callbacks c))) ∧
  ∀ d, Open d ∈ seen_all (channels_new events) evs → Announced DATA_CHANNEL_LABEL d ∈ evs.
Proof.
  intros c simple. destruct (run_channels_callbacks (channels_new events) evs (channels_new_ok events))
    as [Hr [_ Hw]].
  split_and!; [done|done|]. intros d Hd.
  assert (Hgen : ∀ c0, Open d ∈ seen_all c0 evs →
    Some d ∈ ch_slots c0 ∨ Announced DATA_CHANNEL_LABEL d ∈ evs); [|destruct (Hgen _ Hd) as [Hin|]; [|done];
      simpl in Hin; by apply elem_of_nil in Hin].
  clear. induction evs as [|ev evs IH]; intros c0; simpl; [by intros ?%elem_of_nil|].
  intros [Hev|Hrest]%elem_of_app.
  - left. destruct ev as [label d'|i|ev]; simpl in Hev.
    + by apply elem_of_nil in Hev.
    + destruct (ch_slots c0 !! i) as [[d'|]|] eqn:Hi; try by apply elem_of_nil in Hev.
      apply list_elem_of_singleton in Hev. injection Hev as ->. by eapply list_elem_of_lookup_2.
    + destruct ev; try by apply elem_of_nil in Hev. all: by apply list_elem_of_singleton in Hev.
  - destruct (IH _ Hrest) as [Hin|Hin]; [|right; by right].
    destruct ev as [label d'|i|ev]; simpl in Hin.
    + unfold on_data_channel in Hin. case_decide as Hl; [|by left]. subst label. simpl in Hin.
      apply elem_of_app in Hin as [Hin|Hin]; [by left|].
      apply list_elem_of_singleton in Hin. injection Hin as ->. right. by left.
    + left. unfold on_channel_open in Hin. destruct (ch_slots c0 !! i) eqn:Hi; [|done]. simpl in Hin.
      apply list_elem_of_lookup in Hin as [j Hj].
      apply list_lookup_insert_Some in Hj as [(_ & [=] & _)|[_ Hj]]. by eapply list_elem_of_lookup_2.
    + left. by destruct ev.
Qed.
End channels.

Module SetupDemo.
(** A channel with another label, then the right one, opened twice; the connection
    fails in between. *)
Definition events : list (channel_event (Typ := unit) (D := nat)) :=
  [Announced "chat" 1; Announced "data" 2; Announced "data" 3; Opened 1; Opened 1;
   Elsewhere (StateChange StFailed None); Opened 0; Opened 7].

Example first_accepted_channel_wins :
  let c := run_channels (channels_new None) events in
  wait_value (ch_callbacks c) = Some (Ok 3) ∧ ch_slots c = [None; None] ∧
  seen_all (channels_new None) events = [Open 3; StateChange StFailed None; Open 2].
Proof. vm_compute. auto. Qed.
End SetupDemo.
