(* ===== verification/Freddie.v ===== *)
(** The signaling traits ([Signaler], [AdvertisementSource], [ConsumerSignaler] of
    [src/signaling.rs]) as classes, the Freddie client as their instance, and the two
    sessions running over it: what they send to the service is a sequence of HTTP
    requests, what they act on is what its HTTP responses say.

    The HTTP transport is a parameter: [send] and [get] answer a request. *)
From S2P Require Import Prelude Net Async Serde JsonText Protocol Ice Relay Signaling Supervisor PeerProxy Consumer.

Class Signaler (X S : Type) := {
  signaler_exchange : S → string → SignalMessageType → string →
    result (option SignalMessage) (SignalingError X)
}.
(** [next] takes [&mut self]; the model's loop is total but says so with an
    [option]. *)
Class AdvertisementSource (X A : Type) := {
  source_next : A → option (result (option SignalMessage) (SignalingError X) * A)
}.
Class ConsumerSignaler (X S A : Type) `{!Signaler X S} `{!AdvertisementSource X A} := {
  signaler_advertisements : S → result A (SignalingError X)
}.

Section freddie.
Context `{JsonText} {X : Type}.
Variable send : HttpRequest → result (HttpResponse X) X.
Variable get : HttpRequest → result (Z * list (result bytes X)) X.

#[local] Instance freddie_signaler : Signaler X FreddieClient := {
  signaler_exchange self := exchange send self
}.
#[local] Instance stream_source : AdvertisementSource X (AdvertisementStream X) := {
  source_next := next
}.
#[local] Instance freddie_consumer_signaler : ConsumerSignaler X FreddieClient (AdvertisementStream X) := {
  signaler_advertisements := advertisements get
}.


(** ** The peer proxy over Freddie *)
Section proxy.
Context {Typ Sdp D T W V E Api : Type} `{!IceTypeCodec Typ} `{!SdpCodec Sdp}.
Variable candidate_to_json : RTCIceCandidate Typ → result IceCandidateInit W.
Abbreviation op := (peer_op Sdp D T X W V E Api).
Abbreviation proxy_session := (session (Sdp := Sdp) (D := D) (T := T) (X := X) (V := V) (E := E) (Api := Api) candidate_to_json).










End proxy.

(** ** The consumer over Freddie *)
Section consumer.
Context {W E : Type}.

(** The messages among the ticks of [select_genesis]. *)
Definition tick_message (t : tick (X := X)) : option (result (option SignalMessage) (SignalingError X)) :=
  match t with TickMessage r => Some r | _ => None end.

Lemma offered_genesis_messages ticks m :
  m ∈ offered_genesis ticks → Ok (Some m) ∈ omap tick_message ticks ∧ kind m = Genesis.
Proof.
  intros Hm. split; [|by eapply offered_genesis_kind].
  apply list_elem_of_omap in Hm as (t & Ht & Heq). apply list_elem_of_omap. exists t. split; [done|].
  destruct t as [| |[[m'|]|]]; try done. case_decide; [|done]. by injection Heq as ->.
Qed.

(** A message that the stream of a response without transport errors returned is
    one of the lines of its body. *)
Lemma calls_records k (chunks : list bytes) m :
  Ok (Some m) ∈ calls k (MkStream (X := X) [] (Ok <$> chunks)) →
  ∃ line, line ∈ records (concat chunks) ∧ decode_signal line = Some m.
Proof.
  rewrite (calls_pending k _ (concat chunks)) by (by exists chunks). intros Hin.
  assert (Hin' : Ok (Some m) ∈ (decode_line (X := X) <$> records (concat chunks)) ++ replicate k (Ok None)).
  { eapply list_elem_of_lookup in Hin as [i Hi]. apply lookup_take_Some in Hi as [Hi _].
    by eapply list_elem_of_lookup_2. }
  apply elem_of_app in Hin' as [Hin'|[? _]%elem_of_replicate]; [|done].
  apply list_elem_of_fmap in Hin' as (line & Heq & Hline). exists line. split; [done|].
  unfold decode_line in Heq. destruct (decode_signal line); [by injection Heq as ->|done].
Qed.

(** C19: The peer a consumer picks was advertised by Freddie: with the advertisement
    stream of the client as its source, however the response is cut into chunks and
    whenever patience runs out, the peer that is selected is a genesis message that
    stands, as a line of its own, in the body of the response. *)
Theorem consumer_picks_advertised_peer self choose ticks k (chunks : list bytes) m :
  get (advertisements_request self) = Ok (200%Z, Ok <$> chunks) →
  (∀ stream, signaler_advertisements self = Ok stream → omap tick_message ticks = calls k stream) →
  select_genesis (W := W) (E := E) choose
    (Some (let? _ := signaler_advertisements (A := AdvertisementStream X) self in Ok tt)) ticks = Some (Ok m) →
  kind m = Genesis ∧ ∃ line, line ∈ records (concat chunks) ∧ decode_signal line = Some m.
Proof.
  intros Hget Hticks Hsel. unfold signaler_advertisements in *. simpl in *.
  unfold advertisements in *. rewrite Hget in *. simpl in *.
  specialize (Hticks _ eq_refl). apply await_first_chosen in Hsel as (pre & t & post & -> & _ & Hm).
  apply list_elem_of_lookup_2 in Hm. apply offered_genesis_messages in Hm as [Hm Hk]. split; [done|].
  eapply calls_records. rewrite <- Hticks, omap_app. apply elem_of_app. by left.
Qed.
End consumer.
End freddie.

Module FreddieDemo.
#[local] Existing Instance json_text.
#[local] Existing Instance IceDemo.host_codec.
#[local] Existing Instance ProxyDemo.text_sdp.

Definition client : FreddieClient := MkFreddie "https://freddie.example" PROTOCOL_VERSION.
Definition newline : string := bytes_string [x0a].

(** A service that has an offer for whoever advertises, and nothing else. *)
Definition offer_reply : SignalMessage :=
  MkSignal "consumer-7" Offer (to_string (JObj [("SDP", JStr "offer"); ("Tag", JStr "")])).
Definition send (r : HttpRequest) : result (HttpResponse unit) unit :=
  if decide (head (filter (λ f, f.1 = "type") (req_form r)) = Some ("type", "0"))
  then Ok (MkResponse 200 (Ok (encode_signal offer_reply))) else Ok (MkResponse 404 (Ok [])).

Abbreviation op := (peer_op string nat nat unit unit unit unit unit).




Definition line (who : string) : bytes := encode_signal (MkSignal who Genesis "{}").
Definition chunks : list bytes := [take 9 (line "one"); drop 9 (line "one") ++ [x0a] ++ line "two" ++ [x0a]].
Definition get (r : HttpRequest) : result (Z * list (result bytes unit)) unit := Ok (200%Z, Ok <$> chunks).
Definition ticks : list (tick (X := unit)) :=
  [TickMessage (Ok (Some (MkSignal "one" Genesis "{}")));
   TickMessage (Ok (Some (MkSignal "two" Genesis "{}"))); TickPatience].

Lemma consumer_picks_advertised_peer_witness :
  ∃ l, l ∈ records (concat chunks) ∧ decode_signal l = Some (MkSignal "two" Genesis "{}").
Proof.
  refine (proj2 (consumer_picks_advertised_peer (W := unit) (E := unit) send get client pred ticks 2 chunks
    (MkSignal "two" Genesis "{}") _ _ _)).
  - reflexivity.
  - intros stream Hs. vm_compute in Hs. injection Hs as <-. vm_compute. reflexivity.
  - vm_compute. reflexivity.
Defined.
End FreddieDemo.
