(* ===== verification/Env.v ===== *)
(** The settings of the [peer-proxy] binary ([src/bin/peer-proxy.rs]): numbers,
    switches and the STUN list, read from environment variables.

    [env::var] is the map of the variables that are set to valid Unicode; texts are
    their UTF-8 bytes. *)
From S2P Require Import Prelude.

Definition Env := gmap string string.

(** ** [str::parse] for unsigned integers

    The library's checked loop: it stops at a non-digit and as soon as a
    multiplication or an addition leaves the type. *)
Definition digit_value (b : byte) : option Z :=
  if decide (48 ≤ byte_val b ≤ 57)%Z then Some (byte_val b - 48)%Z else None.

Definition checked (max z : Z) : option Z := if decide (z ≤ max)%Z then Some z else None.

Fixpoint parse_digits (max acc : Z) (b : bytes) : option Z :=
  match b with
  | [] => Some acc
  | x :: b =>
      d ← digit_value x;
      acc ← checked max (acc * 10);
      acc ← checked max (acc + d);
      parse_digits max acc b
  end.

Definition parse_uint (max : Z) (value : string) : option Z :=
  match string_bytes value with
  | [] => None
  | [x2b] => None
  | x2b :: b => parse_digits max 0 b
  | b => parse_digits max 0 b
  end.

(** [seconds] and [count]; a [Duration] is in nanoseconds, [usize] has 64 bits. *)
Definition seconds (env : Env) (name : string) (default' : Z) : Z :=
  default default' (env !! name ≫= parse_uint u64_max) * 10 ^ 9.

Definition count (env : Env) (name : string) (default' : Z) : Z :=
  default default' (v ← env !! name ≫= parse_uint u64_max; if decide (0 < v)%Z then Some v else None).

(** ** Trimming: [str::trim] removes Unicode white space *)

Definition whitespace : list bytes :=
  [[x09]; [x0a]; [x0b]; [x0c]; [x0d]; [x20]; [xc2; x85]; [xc2; xa0]; [xe1; x9a; x80];
   [xe2; x80; x80]; [xe2; x80; x81]; [xe2; x80; x82]; [xe2; x80; x83]; [xe2; x80; x84];
   [xe2; x80; x85]; [xe2; x80; x86]; [xe2; x80; x87]; [xe2; x80; x88]; [xe2; x80; x89];
   [xe2; x80; x8a]; [xe2; x80; xa8]; [xe2; x80; xa9]; [xe2; x80; xaf]; [xe2; x81; x9f];
   [xe3; x80; x80]].

(** The rest of [b] after one of the words it starts with. *)
Fixpoint strip_word (words : list bytes) (b : bytes) : option bytes :=
  match words with
  | [] => None
  | w :: words =>
      if decide (take (length w) b = w) then Some (drop (length w) b) else strip_word words b
  end.

Fixpoint strip_all (fuel : nat) (words : list bytes) (b : bytes) : bytes :=
  match fuel with
  | O => b
  | S fuel => match strip_word words b with Some b => strip_all fuel words b | None => b end
  end.

Definition trim (b : bytes) : bytes :=
  let b := strip_all (length b) whitespace b in
  reverse (strip_all (length b) (reverse <$> whitespace) (reverse b)).

(** ** Switches and lists *)

Definition to_ascii_lowercase (b : bytes) : bytes :=
  (λ x, if decide (65 ≤ byte_val x ≤ 90)%Z then byte_wrap (byte_val x + 32) else x) <$> b.

Definition parse_boolean (value : string) (default' : bool) : bool :=
  let v := bytes_string (to_ascii_lowercase (trim (string_bytes value))) in
  if decide (v ∈ ["1"; "true"; "yes"; "on"; "enable"; "enabled"; "randomize"]) then true
  else if decide (v ∈ ["0"; "false"; "no"; "off"; "disable"; "disabled"]) then false
  else default'.

Definition boolean (env : Env) (name : string) (default' : bool) : bool :=
  match env !! name with
  | Some value => parse_boolean value default'
  | None => default'
  end.

Definition stun_urls_of (env : Env) : list string :=
  bytes_string <$>
    filter (λ u, u ≠ []) (trim <$> split_on x2c (string_bytes (default "" (env !! "UNBOUNDED_STUN_URLS")))).

(** ** Properties *)

(** The value of a digit string. *)
Definition digits_value (acc : Z) (ds : list Z) : Z := foldl (λ a d, a * 10 + d)%Z acc ds.

Lemma digit_value_range x d : digit_value x = Some d → (0 ≤ d ≤ 9)%Z.
Proof. unfold digit_value. case_decide; intros; simplify_eq. lia. Qed.

Lemma digits_value_ge acc ds : (0 ≤ acc)%Z → Forall (λ d, 0 ≤ d)%Z ds → (acc ≤ digits_value acc ds)%Z.
Proof.
  intros Ha Hds. revert acc Ha. induction Hds as [|d ds Hd _ IH]; intros acc Ha; [done|].
  etrans; [|apply IH]; lia.
Qed.

(** The checked loop computes the value exactly when it fits. *)
Lemma parse_digits_value max acc b :
  (0 ≤ acc ≤ max)%Z →
  parse_digits max acc b = (ds ← mapM digit_value b; checked max (digits_value acc ds)).
Proof.
  revert acc. induction b as [|x b IH]; intros acc Ha; simpl.
  { unfold checked, digits_value. simpl. by rewrite decide_True by lia. }
  destruct (digit_value x) as [d|] eqn:Hd; simpl; [|done].
  pose proof (digit_value_range _ _ Hd) as Hr.
  assert (Hover : (max < acc * 10 + d)%Z →
    (ds ← mapM digit_value b; checked max (digits_value (acc * 10 + d) ds)) = None).
  { intros Hm. destruct (mapM digit_value b) as [ds|] eqn:Hds; [|done]. simpl.
    unfold checked. rewrite decide_False; [done|].
    apply mapM_Some_1 in Hds.
    assert (Hnn : Forall (λ e, 0 ≤ e)%Z ds).
    { eapply Forall2_Forall_r; [exact Hds|]. apply Forall_true. intros y e He%digit_value_range. lia. }
    pose proof (digits_value_ge (acc * 10 + d) ds ltac:(lia) Hnn). lia. }
  transitivity (ds ← mapM digit_value b; checked max (digits_value (acc * 10 + d) ds));
    [|by destruct (mapM digit_value b)].
  destruct (checked max (acc * 10)) as [a|] eqn:Hm; unfold checked in Hm; case_decide; simplify_eq;
    simpl; [|symmetry; apply Hover; lia].
  destruct (checked max (acc * 10 + d)) as [a|] eqn:Hp; unfold checked in Hp; case_decide; simplify_eq;
    simpl; [apply IH; lia|symmetry; apply Hover; lia].
Qed.

(** [s] is an optional plus sign and at least one decimal digit, with value [n]. *)
Definition decimal (s : string) (n : Z) : Prop :=
  ∃ b ds, (string_bytes s = b ∨ string_bytes s = x2b :: b) ∧ b ≠ [] ∧
    mapM digit_value b = Some ds ∧ n = digits_value 0 ds.

Lemma parse_uint_exact s n :
  parse_uint u64_max s = Some n ↔ decimal s n ∧ (n ≤ u64_max)%Z.
Proof.
  assert (Hpd : ∀ b, parse_digits u64_max 0 b = Some n ↔
    ∃ ds, mapM digit_value b = Some ds ∧ n = digits_value 0 ds ∧ (n ≤ u64_max)%Z).
  { intros b. rewrite parse_digits_value by (unfold u64_max; lia).
    destruct (mapM digit_value b) as [ds|]; simpl; [|by split; [|intros (? & ? & _)]].
    unfold checked. case_decide; split.
    - intros [= <-]. eauto.
    - by intros (ds' & [= <-] & -> & _).
    - done.
    - by intros (ds' & [= <-] & -> & ?). }
  assert (Hform : (decimal s n ∧ (n ≤ u64_max)%Z) ↔
    ∃ b ds, (string_bytes s = b ∨ string_bytes s = x2b :: b) ∧ b ≠ [] ∧
      mapM digit_value b = Some ds ∧ n = digits_value 0 ds ∧ (n ≤ u64_max)%Z).
  { unfold decimal. split.
    - intros [(b & ds & ? & ? & ? & ?) ?]. by exists b, ds.
    - intros (b & ds & ? & ? & ? & ? & ?). split; [by exists b, ds|done]. }
  rewrite Hform. clear Hform. unfold parse_uint. destruct (string_bytes s) as [|x b] eqn:Hs.
  { split; [done|]. by intros (b & ds & [<-|?] & ? & _). }
  destruct (decide (x = x2b)) as [->|Hx].
  - destruct b as [|y b].
    + split; [done|]. intros (b & ds & [<-|[= <-]] & ? & Hm & _); done.
    + rewrite Hpd. split.
      * intros (ds & ?). exists (y :: b), ds. auto.
      * intros (b' & ds & [<-|[= <-]] & ? & Hm & ?); [done|]. eauto.
  - assert (Hdig : (match x :: b with [x2b] => None | x2b :: b => parse_digits u64_max 0 b
      | b => parse_digits u64_max 0 b end) = parse_digits u64_max 0 (x :: b)).
    { destruct x; try done; by destruct b. }
    rewrite Hdig, Hpd. split.
    + intros (ds & ?). exists (x :: b), ds. auto.
    + intros (b' & ds & [<-|[= ? _]] & ? & Hm & ?); [eauto|done].
Qed.

(** C40: numbers in the environment: a variable is read as a number exactly when it
    is an optional plus sign and decimal digits whose value fits 64 bits, and then
    with that value, never one that was cut off by an overflow on the way; in every
    other case, unset included, the default is used, and a count of zero is one of
    those cases. *)
Theorem env_numbers_exact env name d :
  (∀ s n, env !! name = Some s → decimal s n → (n ≤ u64_max)%Z →
     seconds env name d = (n * 10 ^ 9)%Z ∧ count env name d = if decide (0 < n)%Z then n else d) ∧
  ((∀ s n, env !! name = Some s → decimal s n → (u64_max < n)%Z) →
     seconds env name d = (d * 10 ^ 9)%Z ∧ count env name d = d).
Proof.
  unfold seconds, count. split.
  - intros s n Hs Hd Hn. rewrite Hs. cbn [mbind option_bind].
    rewrite (proj2 (parse_uint_exact s n)) by done. simpl. split; [done|]. by case_decide.
  - intros Hno. destruct (env !! name) as [s|] eqn:Hs; [|done]. cbn [mbind option_bind].
    destruct (parse_uint u64_max s) as [n|] eqn:Hp; [|done].
    apply parse_uint_exact in Hp as [Hd Hn]. specialize (Hno s n eq_refl Hd). lia.
Qed.

(** Splitting and trimming leave parts of the text. *)
Lemma split_on_no_sep sep b w : w ∈ split_on sep b → sep ∉ w.
Proof.
  revert w. induction b as [|x b IH]; intros w; simpl.
  { intros Hw. apply list_elem_of_singleton in Hw as ->. apply not_elem_of_nil. }
  case_decide as Hx; [intros [->|Hw]%elem_of_cons; [apply not_elem_of_nil|auto]|].
  destruct (split_on sep b) as [|v vs].
  { intros Hw. apply list_elem_of_singleton in Hw as ->. apply not_elem_of_cons.
    split; [congruence|apply not_elem_of_nil]. }
  intros [->|Hw]%elem_of_cons; [|apply IH; by right].
  apply not_elem_of_cons. split; [congruence|]. apply IH. by left.
Qed.

Lemma strip_word_suffix words b b' : strip_word words b = Some b' → b' `suffix_of` b.
Proof.
  induction words as [|w words IH]; simpl; [done|]. case_decide; [|done].
  intros [= <-]. exists (take (length w) b). by rewrite take_drop.
Qed.

Lemma strip_all_suffix fuel words b : strip_all fuel words b `suffix_of` b.
Proof.
  revert b. induction fuel as [|fuel IH]; intros b; simpl; [done|].
  destruct (strip_word words b) as [b'|] eqn:Hw; [|done]. etrans; [apply IH|by eapply strip_word_suffix].
Qed.

Lemma suffix_elem {A} (x : A) l k : l `suffix_of` k → x ∈ l → x ∈ k.
Proof. intros [m ->] Hx. apply elem_of_app. by right. Qed.

Lemma trim_elem x b : x ∈ trim b → x ∈ b.
Proof.
  unfold trim. intros Hx. rewrite elem_of_reverse in Hx.
  eapply suffix_elem in Hx; [|apply strip_all_suffix]. rewrite elem_of_reverse in Hx.
  eapply suffix_elem; [apply strip_all_suffix|exact Hx].
Qed.

(** The STUN list has no empty entries and no entry with a comma. *)
Lemma stun_urls_clean env : Forall (λ u, u ≠ "" ∧ x2c ∉ string_bytes u) (stun_urls_of env).
Proof.
  unfold stun_urls_of. apply Forall_fmap, Forall_forall. intros u [Hu Hin]%list_elem_of_filter.
  apply list_elem_of_fmap in Hin as (w & -> & Hw). simpl. rewrite string_bytes_string. split.
  - intros Heq%(f_equal string_bytes). by rewrite string_bytes_string in Heq.
  - intros Hx%trim_elem. by eapply split_on_no_sep.
Qed.

Example reads_the_environment :
  let env : Env := {["UNBOUNDED_STUN_URLS" := " stun:a , ,stun:b,"; "N" := "+042"; "B" := " Enabled "]} in
  stun_urls_of env = ["stun:a"; "stun:b"] ∧ count env "N" 5 = 42%Z ∧ count env "M" 5 = 5%Z ∧
  boolean env "B" false = true.
Proof. vm_compute. auto. Qed.
