(* ===== verification/Main.v ===== *)
(** The two binaries: [peer-proxy] ([src/bin/peer-proxy.rs]) from its environment to
    its last line of output, and [wire-vectors] ([src/bin/wire-vectors.rs]).

    The settings are read as in [Env.v]; the pool is that of [Pool.v]; the reporter
    task and [main] itself are run next to it, in every interleaving.  The lines
    go to standard error.  The [Debug] form of a duration and of an address, and
    the texts of errors, belong to other crates and are parameters. *)
From stdpp Require Import pretty.
From S2P Require Import Prelude Net Serde JsonText Protocol Relay Signaling Supervisor Pool PeerProxy Env.

(** ** Start-up *)

(** [env::var(name).unwrap_or_else(|_| panic!(..))]; the error is the panic's
    message. *)
Definition required (env : Env) (name : string) : result string string :=
  match env !! name with
  | Some value => Ok value
  | None => Err (name +:+ " must be set")
  end.

Record Settings := MkSettings {
  set_slots : Z;
  set_signaler : FreddieClient;
  set_peer_proxy : PeerProxyConfig;
  set_supervisor : SupervisorConfig
}.

Section startup.
Context {X : Type}.
(** Whether the HTTP client could be built, the URL parser, an error's text. *)
Variable client : result unit X.
Variable parse_url : string → option string.
Variable display : SignalingError X → string.

(** The arguments of [supervise_peer_proxy_pool], in the order they are evaluated. *)
Definition settings (env : Env) : result Settings string :=
  let stun_urls := stun_urls_of env in
  let slots := count env "UNBOUNDED_CONCURRENT_SESSIONS" 5 in
  let? freddie_endpoint := required env "UNBOUNDED_FREDDIE_ENDPOINT" in
  let? signaler :=
    map_err (λ e, "invalid Freddie configuration: " +:+ display e)
      (freddie_new client parse_url freddie_endpoint) in
  let? egress_url := required env "UNBOUNDED_EGRESS_URL" in
  Ok (MkSettings slots signaler
        (MkPeerProxyConfig egress_url stun_urls
           (seconds env "UNBOUNDED_NAT_TIMEOUT_SECONDS" 10)
           (boolean env "UNBOUNDED_ENABLE_IPV6" false)
           (boolean env "UNBOUNDED_COVERT_DTLS" true))
        (MkConfig (seconds env "UNBOUNDED_RETRY_INITIAL_SECONDS" 1)
           (seconds env "UNBOUNDED_RETRY_MAX_SECONDS" 30)
           (seconds env "UNBOUNDED_STABLE_SESSION_SECONDS" 30))).

Lemma parse_digits_nonneg max acc b n : (0 ≤ acc)%Z → parse_digits max acc b = Some n → (0 ≤ n)%Z.
Proof.
  revert acc. induction b as [|x b IH]; intros acc Ha; simpl; [congruence|].
  destruct (digit_value x) as [d|] eqn:Hd; simpl; [|done]. apply digit_value_range in Hd.
  unfold checked. repeat (case_decide; simpl; [|done]). apply IH. lia.
Qed.

Lemma parse_uint_range s n : parse_uint u64_max s = Some n → (0 ≤ n ≤ u64_max)%Z.
Proof.
  intros Hp. split; [|by apply parse_uint_exact in Hp as []].
  revert Hp. unfold parse_uint. destruct (string_bytes s) as [|x b]; [done|].
  destruct x; try (intros Hp; by eapply parse_digits_nonneg in Hp).
  destruct b; [done|]. intros Hp. by eapply parse_digits_nonneg in Hp.
Qed.

Lemma seconds_range env name d : (0 ≤ d ≤ u64_max)%Z → (0 ≤ seconds env name d ≤ duration_max)%Z.
Proof.
  intros Hd. unfold seconds, duration_max. destruct (env !! name) as [s|]; cbn [mbind option_bind];
    [|simpl; lia].
  destruct (parse_uint u64_max s) as [n|] eqn:Hp; simpl; [apply parse_uint_range in Hp|]; lia.
Qed.

Lemma count_range env name d : (0 < d ≤ u64_max)%Z → (0 < count env name d ≤ u64_max)%Z.
Proof.
  intros Hd. unfold count. destruct (env !! name) as [v|]; cbn [mbind option_bind]; [|done].
  destruct (parse_uint u64_max v) as [n|] eqn:Hp; simpl; [|done]. apply parse_uint_range in Hp.
  case_decide; simpl; lia.
Qed.

(** What the rest of the program takes for granted of its settings. *)
Definition settings_wf (env : Env) (s : Settings) : Prop :=
  let p := set_peer_proxy s in
  let c := set_supervisor s in
  (0 < set_slots s ≤ u64_max)%Z ∧ version (set_signaler s) = PROTOCOL_VERSION ∧
  env !! "UNBOUNDED_EGRESS_URL" = Some (egress_url p) ∧
  Forall (λ u, u ≠ "" ∧ x2c ∉ string_bytes u) (stun_urls p) ∧
  (0 ≤ nat_timeout p ≤ duration_max)%Z ∧ config_wf c ∧ (0 ≤ stable_session c ≤ duration_max)%Z.

(** C31: Whatever text the environment holds, the pool is started with at least one
    slot, durations that a [Duration] holds, clean STUN URLs and the protocol's
    version, or not at all; and it is not started only if a required variable is
    missing or the signaling client cannot be made from its endpoint, which the
    panic names, the endpoint before the egress. *)
Theorem settings_well_typed env :
  let made := freddie_new client parse_url <$> env !! "UNBOUNDED_FREDDIE_ENDPOINT" in
  match settings env with
  | Ok s => settings_wf env s ∧ made = Some (Ok (set_signaler s))
  | Err message =>
      made = None ∧ message = "UNBOUNDED_FREDDIE_ENDPOINT must be set" ∨
      (∃ e, made = Some (Err e) ∧ message = "invalid Freddie configuration: " +:+ display e) ∨
      (∃ c, made = Some (Ok c)) ∧ env !! "UNBOUNDED_EGRESS_URL" = None ∧
      message = "UNBOUNDED_EGRESS_URL must be set"
  end.
Proof.
  unfold settings, required. cbn zeta.
  destruct (env !! "UNBOUNDED_FREDDIE_ENDPOINT") as [url|]; cbn [fmap option_fmap option_map result_bind]; [|by left].
  destruct (freddie_new client parse_url url) as [c|e] eqn:Hc; cbn [map_err result_bind]; [|right; left; by exists e].
  destruct (env !! "UNBOUNDED_EGRESS_URL") as [egress|] eqn:He; cbn [result_bind]; [|right; right; by eauto].
  split; [|done]. split_and!; simpl; try done.
  1,2: apply count_range; unfold u64_max; lia.
  - revert Hc. unfold freddie_new, with_client. intros Hc. simpl_result. by destruct (parse_url url); simplify_eq/=.
  - apply stun_urls_clean.
  - by apply seconds_range; unfold u64_max; lia.
  - by apply seconds_range; unfold u64_max; lia.
  - split; simpl; apply seconds_range; unfold u64_max; lia.
  - by apply seconds_range; unfold u64_max; lia.
  - by apply seconds_range; unfold u64_max; lia.
Qed.
End startup.

(** ** Reports *)

(** The derived [Debug] of [RelayEnd]. *)
Definition relay_end_debug (e : RelayEnd) : string :=
  match e with PeerClosed => "PeerClosed" | EgressClosed => "EgressClosed" end.

Section main.
Context {E : Type} (relay_duration : E → option Z) (display : E → string).
Variable duration_debug : Z → string.
Variable addr_debug : option SocketAddr → string.
Variable config : SupervisorConfig.
Variable slots : Z.

(** The line the reporter prints for an event. *)
Definition report_line (pe : PoolEvent) : string :=
  "slot " +:+ pretty (slot pe) +:+ ": " +:+
  match event pe with
  | AttemptStarted attempt => "starting peer proxy attempt " +:+ pretty attempt
  | PeerConnected id remote => "peer " +:+ id +:+ " connected (remote " +:+ addr_debug remote +:+ ")"
  | PeerDisconnected id => "peer " +:+ id +:+ " disconnected"
  | SessionEnded attempt outcome duration retry_in =>
      "attempt " +:+ pretty attempt +:+ " session " +:+ consumer_session_id outcome +:+ " ended " +:+
      relay_end_debug (relay_end outcome) +:+ " after " +:+ duration_debug duration +:+
      "; retrying in " +:+ duration_debug retry_in
  | AttemptFailed attempt error duration retry_in =>
      "attempt " +:+ pretty attempt +:+ " failed after " +:+ duration_debug duration +:+ ": " +:+ error +:+
      "; retrying in " +:+ duration_debug retry_in
  | Stopped summary =>
      "stopped after " +:+ pretty (attempts summary) +:+ " attempts (" +:+
      pretty (completed_sessions summary) +:+ " sessions, " +:+
      pretty (failed_attempts summary) +:+ " failures)"
  end.

(** The last line. *)
Definition summary_line (workers : list SupervisorSummary) : string :=
  "peer proxy pool stopped: " +:+ pretty slots +:+ " slots, " +:+
  pretty (pool_attempts workers) +:+ " attempts, " +:+
  pretty (pool_completed_sessions workers) +:+ " sessions, " +:+
  pretty (pool_failed_attempts workers) +:+ " failures".

(** ** The process

    The pool, how many events the reporter has taken from its channel, what was
    printed, and whether [main] has returned. *)
Record process := MkProcess {
  pr_pool : pool;
  pr_taken : nat;
  pr_stderr : list string;
  pr_exited : bool
}.

Inductive process_event :=
| CtrlC (received : result unit unit)
| Runs (ev : pool_event (E := E))
| Reports
| Exits.

Definition backlog (p : process) : list PoolEvent := drop (pr_taken p) (default [] (p_out (pr_pool p))).

Definition main_start : process :=
  MkProcess (supervise_peer_proxy_pool config (Z.to_nat slots) (Some [])) 0 [] false.

(** The task that waits for the signal cancels the token only if it got one.  The
    reporter ends when the channel is empty and the pool, which holds the senders,
    has returned; [main] waits for both. *)
Definition process_step (ev : process_event) (p : process) : option process :=
  if pr_exited p then None
  else
    match ev with
    | CtrlC (Err _) => Some p
    | CtrlC (Ok _) =>
        Some (MkProcess (MkPool true (p_workers (pr_pool p)) (p_out (pr_pool p)))
                (pr_taken p) (pr_stderr p) false)
    | Runs Cancel => None
    | Runs ev =>
        pool ← pool_step relay_duration display config ev (pr_pool p);
        Some (MkProcess pool (pr_taken p) (pr_stderr p) false)
    | Reports =>
        match backlog p with
        | [] => None
        | pe :: _ => Some (MkProcess (pr_pool p) (S (pr_taken p)) (pr_stderr p ++ [report_line pe]) false)
        end
    | Exits =>
        match backlog p, pool_result (pr_pool p) with
        | [], Some workers =>
            Some (MkProcess (pr_pool p) (pr_taken p) (pr_stderr p ++ [summary_line workers]) true)
        | _, _ => None
        end
    end.

Fixpoint process_run (evs : list process_event) (p : process) : option process :=
  match evs with
  | [] => Some p
  | ev :: evs => p ← process_step ev p; process_run evs p
  end.

(** *** The process and its pool *)

Abbreviation pstep := (pool_step relay_duration display config).
Abbreviation prun := (pool_run relay_duration display config).

(** What the steps of the process are to the pool. *)
Definition pool_part (ev : process_event) : option (pool_event (E := E)) :=
  match ev with
  | CtrlC (Ok _) => Some Cancel
  | Runs ev => Some ev
  | _ => None
  end.

Lemma process_step_pool ev p p' :
  process_step ev p = Some p' →
  pr_exited p = false ∧
  match pool_part ev with
  | Some pev => pstep pev (pr_pool p) = Some (pr_pool p') ∧
      pr_taken p' = pr_taken p ∧ pr_stderr p' = pr_stderr p ∧ pr_exited p' = false
  | None => pr_pool p' = pr_pool p
  end.
Proof.
  unfold process_step. destruct (pr_exited p) eqn:Hx; [done|]. intros Hs. split; [done|].
  destruct ev as [[]|ev| |]; simpl; try by simplify_eq.
  - destruct ev; try done; destruct (pstep _ _) eqn:Hp; simplify_eq/=; done.
  - destruct (backlog p); by simplify_eq.
  - destruct (backlog p), (pool_result (pr_pool p)); by simplify_eq.
Qed.

Lemma process_run_pool evs p p' :
  process_run evs p = Some p' → prun (omap pool_part evs) (pr_pool p) = Some (pr_pool p').
Proof.
  revert p. induction evs as [|ev evs IH]; intros p; simpl; [by intros [= ->]|].
  destruct (process_step ev p) as [p1|] eqn:Hs; simpl; [|done]. intros Hrun.
  apply process_step_pool in Hs as [_ Hs]. destruct (pool_part ev); simpl.
  - destruct Hs as [-> _]. simpl. auto.
  - rewrite <- Hs. auto.
Qed.

(** A step of the pool sends at most one event, of one of its slots. *)
Lemma pool_step_out ev p p' out :
  pstep ev p = Some p' → p_out p = Some out →
  ∃ more, p_out p' = Some (out ++ more) ∧ length more ≤ 1 ∧
    Forall (λ pe, slot pe < length (p_workers p)) more ∧
    (is_progress ev = false → more = []).
Proof.
  intros Hs Hout. assert (Hnone : p_out p' = p_out p → ∃ more, p_out p' = Some (out ++ more) ∧
    length more ≤ 1 ∧ Forall (λ pe, slot pe < length (p_workers p)) more ∧
    (is_progress ev = false → more = [])).
  { intros ->. exists []. rewrite app_nil_r. split_and!; auto. }
  destruct ev as [|i inp|i e|i|i]; simpl in Hs; [simplify_eq; auto|..];
    (destruct (p_workers p !! i) as [w|] eqn:Hi; simpl in Hs; [|done]).
  - destruct (worker_step _ _ _ _ _ _); simplify_eq/=. auto.
  - destruct (wk_done w); simplify_eq/=; auto.
  - case_decide; [done|]. destruct (queue w) as [|e q]; simplify_eq/=.
    exists [MkPoolEvent i e]. unfold publish. rewrite Hout. split_and!; [done..| |done].
    constructor; [|done]. by eapply lookup_lt_Some.
  - case_decide; [|done]. destruct (queue w) as [|e q]; simplify_eq/=; [auto|].
    exists [MkPoolEvent i e]. unfold publish. rewrite Hout. split_and!; [done..| |done].
    constructor; [|done]. by eapply lookup_lt_Some.
Qed.

(** *** What is printed *)

Record process_inv (n : nat) (p : process) : Prop := {
  inv_out : ∃ out, p_out (pr_pool p) = Some out ∧ length out ≤ n ∧ pr_taken p ≤ length out ∧
    Forall (λ pe, slot pe < length (p_workers (pr_pool p))) out ∧
    pr_stderr p = (report_line <$> take (pr_taken p) out) ++
      (if pr_exited p then option_list (summary_line <$> pool_result (pr_pool p)) else []);
  inv_exited : pr_exited p = true → backlog p = [] ∧ is_Some (pool_result (pr_pool p))
}.

Lemma process_step_inv n ev p p' :
  process_step ev p = Some p' → process_inv n p → process_inv (S n) p'.
Proof.
  intros Hs [(out & Hout & Hn & Ht & Hslots & Herr) _].
  pose proof (process_step_pool _ _ _ Hs) as [Hx Hp]. rewrite Hx, app_nil_r in Herr.
  destruct (pool_part ev) as [pev|] eqn:Hev.
  - destruct Hp as (Hp & Htk & Hse & Hex).
    destruct (pool_step_out _ _ _ _ Hp Hout) as (more & Hout' & Hm & Hsl & _).
    split; [|by rewrite Hex]. exists (out ++ more). rewrite Hse, Htk, Hex, length_app, app_nil_r.
    rewrite (pool_step_workers _ _ _ _ _ _ Hp), take_app_le by done.
    split_and!; [done|lia|lia| |done]. by apply Forall_app.
  - destruct ev as [[]|ev| |]; simpl in Hev; try done; unfold process_step in Hs; rewrite Hx in Hs.
    + simplify_eq/=. split; [|by rewrite Hx]. exists out. rewrite Hx, app_nil_r. by split_and!; auto.
    + unfold backlog in Hs. rewrite Hout in Hs. simpl in Hs.
      destruct (drop (pr_taken p) out) as [|pe l] eqn:Hd; simplify_eq/=. split; [|done].
      assert (Hl : out !! pr_taken p = Some pe).
      { pose proof (lookup_drop out (pr_taken p) 0) as H. by rewrite Hd, Nat.add_0_r in H. }
      exists out. simpl. split_and!; auto.
      * pose proof (lookup_lt_Some _ _ _ Hl). lia.
      * by rewrite app_nil_r, Herr, (take_S_r _ _ _ Hl), fmap_app.
    + destruct (backlog p) as [|] eqn:Hb; [|done]. destruct (pool_result (pr_pool p)) eqn:Hr; simplify_eq/=.
      split; [|intros _; split; [exact Hb|by eexists]]. exists out. simpl. rewrite Hr. simpl.
      split_and!; auto. by rewrite Herr.
Qed.

Lemma process_run_inv evs n p p' :
  process_run evs p = Some p' → process_inv n p → process_inv (n + length evs) p'.
Proof.
  revert n p. induction evs as [|ev evs IH]; intros n p; simpl.
  - intros [= ->]. by rewrite Nat.add_0_r.
  - destruct (process_step ev p) as [p1|] eqn:Hs; simpl; [|done]. intros Hrun I.
    replace (n + S (length evs)) with (S n + length evs) by lia.
    eapply IH; [done|]. by eapply process_step_inv.
Qed.

Lemma main_start_inv : process_inv 0 main_start.
Proof. split; [|done]. exists []. simpl. split_and!; auto. Qed.

(** *** The totals against the lines *)











(** *** Exit *)

Definition moves (ev : process_event) : bool :=
  match ev with
  | CtrlC _ => false
  | Runs ev => is_progress ev
  | Reports | Exits => true
  end.
Definition disturbs (ev : process_event) : bool :=
  match ev with Runs ev => is_noise ev | _ => false end.
Definition number (f : process_event → bool) (evs : list process_event) : nat :=
  length (filter (λ ev, f ev = true) evs).

(** An event costs the pool a step to send it and the reporter one to print it. *)
Definition process_weight (p : process) : nat :=
  2 * pool_weight (pr_pool p) + length (backlog p) + if pr_exited p then 0 else 1.

Definition process_sound (p : process) : Prop :=
  done_returned (pr_pool p) ∧ ∃ out, p_out (pr_pool p) = Some out ∧ pr_taken p ≤ length out.

Lemma process_step_weight ev p p' :
  p_cancelled (pr_pool p) = true → process_sound p → process_step ev p = Some p' →
  p_cancelled (pr_pool p') = true ∧ process_sound p' ∧
  process_weight p' + (if moves ev then 1 else 0) ≤ process_weight p + 2 * (if disturbs ev then 1 else 0).
Proof.
  intros Hc (Hd & out & Hout & Ht) Hs. pose proof (process_step_pool _ _ _ Hs) as [Hx Hp].
  unfold process_sound, process_weight. rewrite Hx. destruct (pool_part ev) as [pev|] eqn:Hev.
  - destruct Hp as (Hp & Htk & _ & Hex).
    destruct (pool_step_out _ _ _ _ Hp Hout) as (more & Hout' & Hm & _ & Hquiet).
    destruct (pool_step_weight _ _ _ _ _ _ Hc Hd Hp) as [Hc' Hw].
    split; [done|]. split.
    { split; [by eapply done_returned_step|]. exists (out ++ more). rewrite length_app, Htk. split; [done|lia]. }
    unfold backlog. rewrite Hex, Htk, Hout, Hout'. cbn [default from_option id].
    rewrite !length_drop, length_app.
    destruct ev as [[]|ev| |]; simpl in Hev; simplify_eq/=.
    + rewrite Hquiet by done. simpl. lia.
    + destruct (is_progress pev) eqn:Hpr; [|rewrite Hquiet by done; simpl];
        destruct (is_noise pev) eqn:Hno; lia || (destruct pev as [|i []| | |]; done).
  - rewrite Hp. split; [done|]. destruct ev as [[]|ev| |]; simpl in Hev; try done;
      unfold process_step in Hs; rewrite Hx in Hs.
    + simplify_eq/=. rewrite Hx. split; [by eauto|lia].
    + destruct (backlog p) as [|pe l] eqn:Hb; simplify_eq/=.
      unfold backlog in Hb |- *. simpl. rewrite Hout in Hb |- *. cbn [default from_option id] in *.
      apply (f_equal length) in Hb. rewrite length_drop in Hb. simpl in Hb. rewrite length_drop.
      split; [split; [done|]; exists out; split; [done|]; simpl; lia|]. lia.
    + destruct (backlog p) as [|] eqn:Hb; [|done]. destruct (pool_result (pr_pool p)); simplify_eq/=.
      change (backlog _) with (backlog p). rewrite Hb. split; [by eauto|]. simpl. lia.
Qed.

Lemma process_run_weight evs p p' :
  p_cancelled (pr_pool p) = true → process_sound p → process_run evs p = Some p' →
  process_weight p' + number moves evs ≤ process_weight p + 2 * number disturbs evs.
Proof.
  revert p. induction evs as [|ev evs IH]; intros p Hc Hd; simpl; [intros [= ->]; unfold number; simpl; lia|].
  destruct (process_step ev p) as [p1|] eqn:Hs; simpl; [|done]. intros Hrun.
  destruct (process_step_weight _ _ _ Hc Hd Hs) as (Hc1 & Hd1 & Hw).
  specialize (IH p1 Hc1 Hd1 Hrun). unfold number in *. rewrite !filter_cons.
  destruct (moves ev), (disturbs ev); simpl in *; lia.
Qed.

Lemma process_run_sound evs p :
  process_run evs main_start = Some p → process_sound p.
Proof.
  intros Hrun. split.
  - eapply done_returned_run; [apply pool_start_returned|]. exact (process_run_pool _ _ _ Hrun).
  - destruct (process_run_inv _ _ _ _ Hrun main_start_inv) as [(out & ? & _ & ? & _) _]. by exists out.
Qed.

(** C12: The process exits: after the signal it makes a bounded number of steps more
    (plus two for each event that sessions and callbacks still send), and until it
    has exited it is never stuck: a line is waiting to be printed, or [main] can
    return, or a worker can go on, at the latest when the session it is in
    returns. *)
Theorem main_exits evs0 p evs p' :
  process_run evs0 main_start = Some p → p_cancelled (pr_pool p) = true →
  process_run evs p = Some p' →
  number moves evs ≤ process_weight p + 2 * number disturbs evs ∧
  (pr_exited p' = false →
   is_Some (process_step Reports p') ∨ is_Some (process_step Exits p') ∨
   ∃ i, ∀ r duration now, ∃ ev, ev ∈ [Step i Go; Step i (Return r duration now); Step i WakeUp; Drain i] ∧
     is_Some (process_step (Runs ev) p')).
Proof.
  intros Hrun0 Hc Hrun. split.
  { pose proof (process_run_weight _ _ _ Hc (process_run_sound _ _ Hrun0) Hrun). lia. }
  intros Hx. unfold process_step. rewrite Hx.
  destruct (backlog p') as [|pe l]; [|left; by eexists].
  destruct (pool_result (pr_pool p')) as [workers|] eqn:Hr; [right; left; by eexists|].
  right; right. destruct (pool_not_stuck relay_duration display config _ Hr) as [i Hi].
  exists i. intros r duration now. destruct (Hi r duration now) as (ev & Hin & Hpr & [q Hq]).
  exists ev. split; [done|]. destruct ev; try done; rewrite Hq; by eexists.
Qed.
End main.

(** ** [wire-vectors] *)

(** [join(",")]. *)
Definition wire_vectors `{JsonText} `{Base64} : list string :=
  let packet := MkPacket "WebSocket connection example" (string_bytes "example") in
  ["packet=" +:+ to_string (packet_to_json packet);
   "subprotocols=" +:+
   String.concat "," (egress_subprotocols "consumer-session-id" PROTOCOL_VERSION)].

(** ** A run of the process *)
Module MainDemo.
Definition env : Env :=
  {["UNBOUNDED_FREDDIE_ENDPOINT" := "https://freddie.example/v1/signal";
    "UNBOUNDED_EGRESS_URL" := "wss://egress.example/ws";
    "UNBOUNDED_STUN_URLS" := "stun:one.example, ,stun:two.example";
    "UNBOUNDED_CONCURRENT_SESSIONS" := "1"; "UNBOUNDED_RETRY_MAX_SECONDS" := "x"]}.

Abbreviation read := (settings (X := unit) (Ok tt) Some (λ _, "refused")).

Example reads_settings :
  read env = Ok (MkSettings 1 (MkFreddie "https://freddie.example/v1/signal" "v2.3.0")
    (MkPeerProxyConfig "wss://egress.example/ws" ["stun:one.example"; "stun:two.example"]
       (10 * 10 ^ 9) false true)
    (MkConfig (10 ^ 9) (30 * 10 ^ 9) (30 * 10 ^ 9))).
Proof. vm_compute. reflexivity. Qed.

Example panics_without_endpoint :
  read (delete "UNBOUNDED_FREDDIE_ENDPOINT" env) = Err "UNBOUNDED_FREDDIE_ENDPOINT must be set" ∧
  read (delete "UNBOUNDED_EGRESS_URL" env) = Err "UNBOUNDED_EGRESS_URL must be set".
Proof. vm_compute. auto. Qed.

Definition config : SupervisorConfig := MkConfig 1000 8000 500.
Abbreviation run := (process_run (λ _ : unit, None) (λ _, "refused") (λ d, pretty d +:+ "ns") (λ _, "None") config 1).
Abbreviation start := (main_start config 1).

(** One attempt fails; then the signal arrives. *)
Definition before : list (process_event (E := unit)) :=
  [Runs (Step 0 Go); Runs (Forward 0); Reports; Runs (Step 0 (Return (Err tt) 5 0)); CtrlC (Ok tt)].
Definition after : list (process_event (E := unit)) :=
  [Runs (Step 0 WakeUp); Runs (Drain 0); Reports; Runs (Drain 0); Runs (Drain 0); Reports; Exits].

Definition signalled : process := default start (run before start).
Definition exited : process := default start (run after signalled).

Example prints :
  pr_stderr exited =
  ["slot 0: starting peer proxy attempt 1";
   "slot 0: attempt 1 failed after 5ns: refused; retrying in 1000ns";
   "slot 0: stopped after 1 attempts (0 sessions, 1 failures)";
   "peer proxy pool stopped: 1 slots, 1 attempts, 0 sessions, 1 failures"].
Proof. vm_compute. reflexivity. Qed.


Lemma main_exits_witness :
  number moves after ≤ process_weight signalled + 2 * number disturbs after ∧ pr_exited exited = true.
Proof.
  split; [|vm_compute; reflexivity].
  apply (main_exits (λ _ : unit, None) (λ _, "refused") (λ d, pretty d +:+ "ns") (λ _, "None") config 1
    before signalled after exited); vm_compute; reflexivity.
Defined.

(** The vectors, with a text layer of the documented format. *)
Example wire_vectors_text :
  @wire_vectors json_text base64_standard =
  [raw "packet={'SourceAddr':'WebSocket connection example','Payload':'ZXhhbXBsZQ=='}";
   "subprotocols=un80und3d,consumer-session-id,v2.3.0"].
Proof. vm_compute. reflexivity. Qed.
End MainDemo.
