(* ===== verification/UnitTests.v ===== *)
(** The unit tests of the crate, run on the model: protocol, relay, virtual socket,
    consumer path, egress tunnel, SOCKS5.

    A test is a definition with the test's name: the calls it makes, on the model,
    and its assertions as a boolean.  That it passes is checked by evaluation.  What
    the tests take from outside (a JSON text layer, Base64, in-memory streams) is
    given by instances of the interfaces. *)
From S2P Require Import Prelude Tokio Net Serde JsonText Protocol Relay Egress VirtualUdp ConsumerPath Socks5.

#[local] Existing Instance json_text.
#[local] Existing Instance base64_standard.

Definition assert_eq {A} `{EqDecision A} (left right : A) : bool := bool_decide (left = right).

#[local] Instance packet_eq_dec : EqDecision UnboundedPacket.
Proof. solve_decision. Defined.

(** ** [protocol.rs] *)
Module ProtocolTests.
Definition packet_matches_go_encoding_json : bool :=
  let packet := MkPacket "WebSocket connection test" [x00; x01; x02; xff] in
  let encoded := to_string (packet_to_json packet) in
  assert_eq encoded (raw "{'SourceAddr':'WebSocket connection test','Payload':'AAEC/w=='}") &&
  assert_eq (j ← from_str encoded; packet_of_json j) (Some packet).

Definition signal_envelope_matches_go_encoding_json : bool :=
  let message := MkSignal "request-42" Ice (raw "{'ConsumerSessionID':'abc'}") in
  assert_eq (to_string (signal_to_json message))
    (raw "{'ReplyTo':'request-42','Type':3,'Payload':'{\'ConsumerSessionID\':\'abc\'}'}").

Definition genesis_matches_go_encoding_json : bool :=
  assert_eq (to_string (genesis_to_json (MkGenesis all_hosts_on_request)))
    (raw "{'PathAssertion':{'Allow':[{'Host':'$','Distance':1}],'Deny':null,'JITUnavailable':false}}").

Definition egress_subprotocols_match_go_order : bool :=
  let values := egress_subprotocols "session-id" PROTOCOL_VERSION in
  assert_eq values ["un80und3d"; "session-id"; "v2.3.0"] &&
  assert_eq (parse_egress_subprotocols values) (Some ("session-id", "v2.3.0")).

Definition parser_preserves_current_go_cookie_behavior : bool :=
  assert_eq (parse_egress_subprotocols ["anything"; "session-id"; "v2.3.0"]) (Some ("session-id", "v2.3.0")).

Definition subprotocol_token_accepts_ids_but_rejects_list_injection : bool :=
  is_subprotocol_token "consumer-session-id" &&
  is_subprotocol_token "a1B2/c3+d4=" &&
  is_subprotocol_token "550e8400-e29b-41d4-a716-446655440000" &&
  negb (is_subprotocol_token "") &&
  negb (is_subprotocol_token "csid, injected") &&
  negb (is_subprotocol_token "has space") &&
  negb (is_subprotocol_token (bytes_string (string_bytes "tab" ++ [x09] ++ string_bytes "here"))) &&
  negb (is_subprotocol_token (bytes_string (string_bytes "new" ++ [x0a] ++ string_bytes "line"))).

Example protocol_tests_pass :
  [packet_matches_go_encoding_json; signal_envelope_matches_go_encoding_json;
   genesis_matches_go_encoding_json; egress_subprotocols_match_go_order;
   parser_preserves_current_go_cookie_behavior;
   subprotocol_token_accepts_ids_but_rejects_list_injection] = replicate 6 true.
Proof. vm_compute. reflexivity. Qed.
End ProtocolTests.

(** ** The tests' transport: two channels of eight *)
Module Channels.
Record ChannelTransport := MkTransport {
  incoming : Queue bytes;
  outgoing : Queue bytes
}.

(** An awaited send waits for room; it fails only without a receiver. *)
Definition transport_send (packet : bytes) (t : ChannelTransport) : result unit bytes * ChannelTransport :=
  if q_rx (outgoing t) then
    (Ok tt, MkTransport (incoming t)
              (MkQueue (q_items (outgoing t) ++ [packet]) (q_cap (outgoing t)) (q_tx (outgoing t)) true))
  else (Err packet, t).
Definition channel_recv (t : ChannelTransport) : poll (result (option bytes) bytes) * ChannelTransport :=
  let '(r, q) := mpsc_poll_recv (incoming t) in
  (match r with Ready r => Ready (Ok r) | Pending => Pending end, MkTransport q (outgoing t)).

#[export] Instance channels : DatagramTransport bytes ChannelTransport := {
  send_packet := transport_send;
  recv_packet := channel_recv
}.

Definition channel_transport : ChannelTransport := MkTransport (mpsc_new 8) (mpsc_new 8).

(** The test's ends of the two channels. *)
Definition feed (packet : bytes) (t : ChannelTransport) : ChannelTransport :=
  MkTransport (mpsc_poll_send packet (incoming t)).2 (outgoing t).
Definition hang_up (t : ChannelTransport) : ChannelTransport :=
  MkTransport (mpsc_drop_tx (incoming t)) (outgoing t).
Definition taken (t : ChannelTransport) : poll (option bytes) := (mpsc_poll_recv (outgoing t)).1.
End Channels.
Import Channels.

#[local] Instance relay_error_eq_dec {E} `{EqDecision E} : EqDecision (RelayError E).
Proof. solve_decision. Defined.

(** ** [relay.rs] *)
Module RelayTests.
(** The relay task is polled in between, with either branch first. *)
Definition relays_opaque_packets_in_both_directions (first : side) : bool :=
  let peer := channel_transport in
  let egress := channel_transport in
  let peer := feed (string_bytes "consumer to egress") peer in
  let '(r1, peer, egress) := relay [Select first] peer egress in
  let egress_out := taken egress in
  let egress := feed (string_bytes "egress to consumer") egress in
  let '(r2, peer, egress) := relay [Select first] peer egress in
  let peer_out := taken peer in
  let '(r3, _, _) := relay [Select first] (hang_up peer) egress in
  assert_eq egress_out (Ready (Some (string_bytes "consumer to egress"))) &&
  assert_eq peer_out (Ready (Some (string_bytes "egress to consumer"))) &&
  assert_eq [r1; r2; r3] [None; None; Some (Ok PeerClosed)].

Example relay_tests_pass :
  relays_opaque_packets_in_both_directions PeerSide = true ∧
  relays_opaque_packets_in_both_directions EgressSide = true.
Proof. vm_compute. auto. Qed.
End RelayTests.

(** ** [virtual_udp.rs] *)
Module SocketTests.
Definition addr (last_octet port : Z) : SocketAddr := socket_addr_new (V4 (ipv4 100 64 0 last_octet)) port.

(** [[0; 64]] and [RecvMeta::default()]. *)
Definition storage : list bytes := [replicate 64 x00].
Definition meta : list RecvMeta := [MkRecvMeta (SocketAddrV6 0 0 0 0) 0 0 None].

(** What a completed [poll_recv] with one buffer wrote, and from whom. *)
Definition received (w : World Queue) : option (nat * bytes * SocketAddr) :=
  '(r, bufs, metas, _) ← poll_recv storage meta w;
  match r, bufs, metas with
  | Ready (Ok count), [buf], [m] => Some (count, take (meta_len m) buf, meta_addr m)
  | _, _, _ => None
  end.

Definition path_preserves_datagram_and_remote_address : option bool :=
  w ← new (addr 1 7000);
  '(path, w) ← add_path (addr 2 8000) 8 w;
  '(r, w) ← try_receive path (string_bytes "quic packet") w;
  Some (is_ok r && assert_eq (received w) (Some (1, string_bytes "quic packet", addr 2 8000))).

Definition outgoing_datagram_is_routed_by_quinn_destination : option bool :=
  w ← new (chan := Queue) (addr 1 7000);
  '(path, w) ← add_path (addr 2 8000) 8 w;
  '(r, w) ← try_send (MkTransmit (addr 2 8000) (string_bytes "path response")) w;
  '(out, _) ← next_outgoing path w;
  Some (is_ok r && assert_eq out (Ready (Some (string_bytes "path response")))).

Definition losing_one_path_does_not_close_the_socket : option bool :=
  let local w := local_addr <$> w_socket w in
  w ← new (chan := Queue) (addr 1 7000);
  '(path_a, w) ← add_path (addr 2 8000) 8 w;
  '(path_b, w2) ← add_path (addr 3 8001) 8 w;
  w1 ← drop_path path_a w2;
  w0 ← drop_path path_b w1;
  Some (assert_eq [path_count w2; path_count w1; path_count w0] [2; 1; 0] &&
        assert_eq [local w1; local w0] [Some (addr 1 7000); Some (addr 1 7000)]).

Definition path_mtu_rejects_oversize_ingress : option bool :=
  w ← with_options (chan := Queue) (addr 1 7000) 1200 8;
  '(path, w) ← add_path (addr 2 8000) 8 w;
  '(r, _) ← try_receive path (replicate 1201 x00) w;
  Some (assert_eq r (Err (Oversize 1201 1200))).

Definition default_path_accepts_quic_go_packets_through_its_discovery_ceiling : option bool :=
  w ← new (chan := Queue) (addr 1 7000);
  '(path, w) ← add_path (addr 2 8000) 8 w;
  '(r1, w) ← try_receive path (replicate 1280 x00) w;
  '(r2, w) ← try_receive path (replicate DEFAULT_PATH_MTU x00) w;
  '(r3, _) ← try_receive path (replicate (DEFAULT_PATH_MTU + 1) x00) w;
  Some (is_ok r1 && is_ok r2 && assert_eq r3 (Err (Oversize (DEFAULT_PATH_MTU + 1) DEFAULT_PATH_MTU))).

Example socket_tests_pass :
  [path_preserves_datagram_and_remote_address; outgoing_datagram_is_routed_by_quinn_destination;
   losing_one_path_does_not_close_the_socket; path_mtu_rejects_oversize_ingress;
   default_path_accepts_quic_go_packets_through_its_discovery_ceiling] = replicate 5 (Some true).
Proof. vm_compute. reflexivity. Qed.
End SocketTests.

(** ** [consumer_path.rs] *)
Module PathTests.
#[local] Instance path_error_eq_dec {E} `{EqDecision E} : EqDecision (ConsumerPathError E).
Proof. solve_decision. Defined.

(** ["100.64.0.1:7000"] and the other addresses of the tests. *)
Definition local_addr : SocketAddr := SocketAddrV4 (ipv4 100 64 0 1) 7000.
Definition remote : SocketAddr := SocketAddrV4 (ipv4 100 64 0 2) 443.
Definition final_addr : SocketAddr := SocketAddrV4 (ipv4 100 127 255 255) 443.

Definition allocates_distinct_cgnat_path_addresses : bool :=
  let '(first, allocator) := allocate (E := unit) allocator_new in
  let '(second, _) := allocate (E := unit) allocator in
  assert_eq first (Ok (SocketAddrV4 (ipv4 100 64 0 2) 443)) &&
  assert_eq second (Ok (SocketAddrV4 (ipv4 100 64 0 3) 443)).

Definition allocates_the_final_cgnat_address_then_reports_exhaustion : bool :=
  let allocator := (CGNAT_HOSTS - 1)%Z in
  let '(first, allocator) := allocate (E := unit) allocator in
  let '(second, _) := allocate (E := unit) allocator in
  assert_eq first (Ok final_addr) && assert_eq second (Err AddressSpaceExhausted).

(** [serde_json::to_vec(&UnboundedPacket::new(..))]. *)
Definition to_vec (source : string) (payload : string) : bytes :=
  string_bytes (to_string (packet_to_json (MkPacket source (string_bytes payload)))).

(** The task runs while the test uses the socket: the packet arrives, the path
    passes it on, the test reads it and sends, the path sends that to the peer, the
    token is cancelled. *)
Definition translates_enveloped_ingress_and_raw_egress : option bool :=
  w ← new (chan := Queue) local_addr;
  '(c, w) ← add_path remote 8 w;
  let st := MkPathState w (feed (to_vec "egress-path-a" "incoming") channel_transport) None in
  let '(r1, st) := path_loop (E := bytes) c [Wake false] st in
  let incoming := SocketTests.received (ps_world st) in
  '(_, _, _, w) ← poll_recv SocketTests.storage SocketTests.meta (ps_world st);
  '(sent, w) ← try_send (MkTransmit remote (string_bytes "outgoing")) w;
  let '(r2, st) := path_loop (E := bytes) c [Others w; Wake false] st in
  let outgoing := taken (ps_peer st) in
  let '(r3, _) := path_loop (E := bytes) c [Wake true] st in
  Some (assert_eq incoming (Some (1, string_bytes "incoming", remote)) && is_ok sent &&
        assert_eq outgoing (Ready (Some (string_bytes "outgoing"))) &&
        assert_eq [r1; r2; r3] [None; None; Some (Ok PathCancelled)]).

Definition rejects_a_source_change_within_one_peer_path : option bool :=
  w ← new (chan := Queue) local_addr;
  let transport := feed (to_vec "egress-path-b" "packet")
                     (feed (to_vec "egress-path-a" "packet") channel_transport) in
  '(r, _) ← run_consumer_path (E := bytes) remote 8 [Wake false; Wake false] transport w;
  Some (assert_eq r (Some (Err (SourceChanged "egress-path-a" "egress-path-b")))).

Example path_tests_pass :
  [Some allocates_distinct_cgnat_path_addresses; Some allocates_the_final_cgnat_address_then_reports_exhaustion;
   translates_enveloped_ingress_and_raw_egress; rejects_a_source_change_within_one_peer_path] =
  replicate 4 (Some true).
Proof. vm_compute. reflexivity. Qed.
End PathTests.

(** ** [egress.rs] *)
Module EgressTests.
#[local] Instance egress_error_eq_dec {X} `{EqDecision X} : EqDecision (EgressError X).
Proof. solve_decision. Defined.

(** A request is its URL and its subprotocol header; the stub reports the header,
    selects the cookie, sends the first message back and closes. *)
Abbreviation frames := (list (option (result Message unit))).
Definition spawn_egress_stub (request : string * string) (protocols : list string)
    : option (result (EgressTunnel (X := unit) (O := frames) * option (result string unit)) unit) * list string :=
  (Some (Ok (MkTunnel [] [], Some (Ok SUBPROTOCOL_MAGIC_COOKIE))), protocols ++ [request.2]).
Definition stub_echo (message : Message) (sent : frames) : result unit unit * frames :=
  (Ok tt, sent ++ match sent with [] => [Some (Ok message); Some (Ok MClose)] | _ => [] end).
(** The stub's frames arrive. *)
Definition arrive (t : EgressTunnel (X := unit) (O := frames)) : EgressTunnel :=
  MkTunnel (Egress.incoming t ++ Egress.outgoing t) (Egress.outgoing t).

Abbreviation connect_to := (connect (λ url, Ok (url, "")) (λ protocols request, (request.1, protocols)) (λ _, true)).
Abbreviation connect_within :=
  (connect_with_timeout (λ url, Ok (url, "")) (λ protocols request, (request.1, protocols)) (λ _, true)).

Definition sends_csid_subprotocols_and_relays_binary_packets : bool :=
  match connect_to spawn_egress_stub "ws://127.0.0.1/ws" "consumer-session-id" [] with
  | (Ok tunnel, protocols) =>
      let '(sent, tunnel) := egress_send stub_echo (string_bytes "opaque QUIC packet") tunnel in
      let '(first, tunnel) := egress_recv (arrive tunnel) in
      let '(second, _) := egress_recv tunnel in
      assert_eq protocols ["un80und3d, consumer-session-id, v2.3.0"] && is_ok sent &&
      assert_eq first (Ready (Ok (Some (string_bytes "opaque QUIC packet")))) &&
      assert_eq second (Ready (Ok None))
  | _ => false
  end.

(** The server accepts and never answers. *)
Definition stalled_server (request : string * string) (net : unit)
    : option (result (unit * option (result string unit)) unit) * unit := (None, net).
Definition times_out_a_stalled_egress_handshake : bool :=
  let timeout := (20 * 10 ^ 6)%Z in
  assert_eq (connect_within stalled_server "ws://127.0.0.1/ws" "consumer-session-id" timeout tt).1
    (Err (ConnectTimeout timeout)).

Definition rejects_a_consumer_session_id_that_would_inject_subprotocols : bool :=
  assert_eq (connect_to stalled_server "ws://127.0.0.1:1/ws" "csid, un80und3d" tt).1
    (Err (InvalidConsumerSessionId "csid, un80und3d")).

Example egress_tests_pass :
  [sends_csid_subprotocols_and_relays_binary_packets; times_out_a_stalled_egress_handshake;
   rejects_a_consumer_session_id_that_would_inject_subprotocols] = replicate 3 true.
Proof. vm_compute. reflexivity. Qed.
End EgressTests.

(** ** [consumer_socks5.rs] *)
Module Socks5Tests.
Import PipeDemo.
#[local] Instance socks5_error_eq_dec {Q X} `{EqDecision Q, EqDecision X} : EqDecision (ConsumerSocks5Error Q X).
Proof. solve_decision. Defined.

Abbreviation outcome := (result unit (ConsumerSocks5Error unit unit)).

(** A server that accepts the greeting, then replies [reply]: the client's result
    and what the server read. *)
Definition serve (reply : bytes) (target : Socks5Target) : outcome * bytes :=
  let '(r, s) := socks5_connect (Q := unit) target (Mk [] ([x05; x00] ++ reply)) in (r, p_tx s).

Definition serve_success (expected_request : bytes) (target : Socks5Target) : bool :=
  let '(r, read) := serve [x05; x00; x00; x01; x7f; x00; x00; x01; x1f; x90] target in
  assert_eq read ([x05; x01; x00] ++ expected_request) && assert_eq r (Ok tt).

Definition handshakes_ipv4_target : bool :=
  serve_success [x05; x01; x00; x01; xc0; x00; x02; x0a; x01; xbb]
    (Ip (socket_addr_new (V4 (ipv4 192 0 2 10)) 443)).

Definition handshakes_ipv6_target_and_consumes_domain_reply : bool :=
  let target := Ip (socket_addr_new (V6 1) 53) in
  let '(r, read) := serve ([x05; x00; x00; x03; x03] ++ string_bytes "ext" ++ [x00; x50]) target in
  let request := drop 3 read in
  assert_eq (take 4 request) [x05; x01; x00; x04] &&
  assert_eq (take 16 (drop 4 request)) (ipv6_octets 1) &&
  assert_eq (drop 20 request) (port_be_bytes 53) && assert_eq r (Ok tt).

Definition handshakes_domain_target : bool :=
  serve_success ([x05; x01; x00; x03; x0b] ++ string_bytes "example.com" ++ port_be_bytes 8443)
    (Domain "example.com" 8443).

Definition addr : SocketAddr := socket_addr_new (V4 (ipv4 127 0 0 1)) 80.

Definition rejects_failed_connect_response : bool :=
  assert_eq (serve [x05; x05; x00; x01] (Ip addr)).1 (Err (ConnectRejected x05)).

Definition rejects_empty_domain_before_writing_connect_request : bool :=
  assert_eq (serve [] (Domain "" 80)) (Err EmptyDomain, [x05; x01; x00]).

Example socks5_tests_pass :
  [handshakes_ipv4_target; handshakes_ipv6_target_and_consumes_domain_reply; handshakes_domain_target;
   rejects_failed_connect_response; rejects_empty_domain_before_writing_connect_request] = replicate 5 true.
Proof. vm_compute. reflexivity. Qed.
End Socks5Tests.
