(* ===== verification/SessionTests.v ===== *)
(** The unit tests of the crate, run on the model: WebRTC datagrams, signaling,
    supervisor and pool, peer proxy, consumer, settings.  As in [UnitTests.v], a
    test is a definition with the test's name, and passes by evaluation; the
    services a test starts are environments of the model. *)
From stdpp Require Import pretty.
From S2P Require Import Prelude Tokio Net IpText Async Serde JsonText Protocol Ice Relay Rtc Egress Signaling.
From S2P Require Import VirtualUdp Supervisor Pool PeerProxy ConsumerPath Consumer Env UnitTests.

#[local] Existing Instance json_text.
#[local] Existing Instance base64_standard.

(** ** [rtc.rs] *)
Module RtcTests.
#[local] Instance rtc_error_eq_dec {X} `{EqDecision X} : EqDecision (WebRtcDatagramError X).
Proof. solve_decision. Defined.

(** A data channel between two connected peers takes packets; what it took is
    delivered to the other side. *)
Definition link_send (packet : bytes) (sent : list bytes) : result Z unit * list bytes :=
  (Ok (Z.of_nat (length packet)), sent ++ [packet]).
Abbreviation datagrams := (WebRtcDatagrams Queue (list bytes)).
Definition deliver_to (from to : datagrams) : datagrams :=
  foldl (λ d packet, on_message (MkMessage false packet) d) to (channel from).

Definition unreliable_unordered_channel_relays_binary_datagrams : option bool :=
  let '(_, init) := unreliable_data_channel in
  offer ← datagrams_new [];
  answer ← datagrams_new [];
  let '(sent1, offer) := rtc_send_packet link_send (string_bytes "consumer packet") offer in
  let '(got1, answer) := rtc_recv_packet (X := unit) (deliver_to offer answer) in
  let '(sent2, answer) := rtc_send_packet link_send (string_bytes "egress packet") answer in
  let '(got2, _) := rtc_recv_packet (X := unit) (deliver_to answer offer) in
  Some (assert_eq (ordered init) (Some false) && assert_eq (max_retransmits init) (Some 0%Z) &&
        is_ok sent1 && is_ok sent2 &&
        assert_eq got1 (Ready (Ok (Some (string_bytes "consumer packet")))) &&
        assert_eq got2 (Ready (Ok (Some (string_bytes "egress packet"))))).

Definition covert_dtls_can_be_disabled_for_diagnostics : bool :=
  is_ok (build_api_with_options (X := unit) (Suite := nat) (Ext := nat) (Ok tt) (Ok tt) id id false false).

Example rtc_tests_pass :
  unreliable_unordered_channel_relays_binary_datagrams = Some true ∧
  covert_dtls_can_be_disabled_for_diagnostics = true.
Proof. vm_compute. auto. Qed.
End RtcTests.

(** ** [signaling.rs] *)
Module SignalingTests.
Definition newline : string := bytes_string [x0a].

(** A service that answers every request with this status and body, and one that
    cannot be reached; it hands back the request it would have been sent. *)
Definition spawn_freddie_stub (status : Z) (body : string) (request : HttpRequest)
    : result (HttpResponse HttpRequest) HttpRequest :=
  Ok (MkResponse status (Ok (string_bytes body))).
Definition unreachable (request : HttpRequest) : result (HttpResponse HttpRequest) HttpRequest := Err request.

Definition client : FreddieClient := MkFreddie "http://127.0.0.1/v1/signal" PROTOCOL_VERSION.

(** What the stub captures. *)
Definition captured {T} (r : result T (SignalingError HttpRequest)) : option HttpRequest :=
  match r with Err (NativeTransport request) => Some request | _ => None end.
Definition header (name : string) (l : list (string * string)) : option string :=
  snd <$> head (filter (λ h, h.1 = name) l).

Definition posts_the_go_form_and_decodes_the_reply : bool :=
  let body := raw "{'ReplyTo':'offer-request','Type':1,'Payload':'{\'SDP\':{}}'}" +:+ newline in
  let genesis := MkGenesis all_hosts_on_request in
  let exchange_with stub := exchange_json genesis_to_json stub client "genesis" Genesis genesis in
  match freddie_new (X := HttpRequest) (Ok tt) Some "http://127.0.0.1/v1/signal",
        exchange_with (spawn_freddie_stub 200 body), captured (exchange_with unreachable) with
  | Ok _, Ok (Some reply), Some request =>
      assert_eq (kind reply) Offer && assert_eq (reply_to reply) "offer-request" &&
      assert_eq (header VERSION_HEADER (req_headers request)) (Some PROTOCOL_VERSION) &&
      assert_eq (header "send-to" (req_form request)) (Some "genesis") &&
      assert_eq (header "type" (req_form request)) (Some "0") &&
      assert_eq (header "data" (req_form request))
        (Some (raw "{'PathAssertion':{'Allow':[{'Host':'$','Distance':1}],'Deny':null,'JITUnavailable':false}}"))
  | _, _, _ => false
  end.

Definition maps_freddie_status_codes : bool :=
  match exchange (spawn_freddie_stub 418 ("418" +:+ newline)) client "genesis" Genesis "{}",
        exchange (spawn_freddie_stub 404 ("404" +:+ newline)) client "missing" Offer "{}" with
  | Err (ProtocolVersion _), Err RecipientGone => true
  | _, _ => false
  end.

Definition preserves_native_transport_error_type : bool :=
  match exchange unreachable client "genesis" Genesis "{}" with
  | Err (NativeTransport _) => true
  | _ => false
  end.

Definition empty_success_body_is_a_timeout_without_a_reply : bool :=
  match exchange (spawn_freddie_stub 200 newline) client "request" Ice "{}" with
  | Ok None => true
  | _ => false
  end.

(** It refuses another version. *)
Definition spawn_advertisement_stub (body : string) (request : HttpRequest)
    : result (Z * list (result bytes unit)) unit :=
  if decide (header VERSION_HEADER (req_headers request) = Some PROTOCOL_VERSION)
  then Ok (200, [Ok (string_bytes body)])%Z else Err tt.

Definition reads_newline_delimited_genesis_advertisements : bool :=
  let body := raw "{'ReplyTo':'one','Type':0,'Payload':'{}'}" +:+ newline +:+
              raw "{'ReplyTo':'two','Type':0,'Payload':'{}'}" +:+ newline in
  match advertisements (spawn_advertisement_stub body) client with
  | Ok stream =>
      match Signaling.calls 3 stream with
      | [Ok (Some first); Ok (Some second); Ok None] =>
          assert_eq (reply_to first) "one" && assert_eq (reply_to second) "two"
      | _ => false
      end
  | Err _ => false
  end.

Example signaling_tests_pass :
  [posts_the_go_form_and_decodes_the_reply; maps_freddie_status_codes; preserves_native_transport_error_type;
   empty_success_body_is_a_timeout_without_a_reply; reads_newline_delimited_genesis_advertisements] =
  replicate 5 true.
Proof. vm_compute. reflexivity. Qed.
End SignalingTests.

(** ** [supervisor.rs] *)
Module SupervisorTests.
Abbreviation failure := (PeerProxyError unit unit unit unit).
Abbreviation attempt := (round failure).

Definition test_peer_proxy : PeerProxyConfig :=
  MkPeerProxyConfig "ws://127.0.0.1:1/ws" [] (from_millis 1) false false.
Definition test_config : SupervisorConfig := MkConfig (from_millis 1) (from_millis 2) (from_millis 1000).

Definition jitter_stays_within_twenty_percent : bool :=
  let base := from_millis 10000 in
  forallb (λ seed, let delay := jittered base (Z.of_nat seed) in
           bool_decide (from_millis 8000 ≤ delay)%Z && bool_decide (delay ≤ from_millis 12000)%Z) (seq 0 100).

Definition zero_backoff_is_made_nonzero : bool := assert_eq (nonzero 0) (from_millis 1).

(** A session that fails at once with [error]; [cancelled]: it cancels the token
    first.  The clock and the durations are whatever they are. *)
Definition fails (error : failure) (cancelled : bool) : attempt :=
  MkRound false [] (Err error) 0 cancelled 0 cancelled.

Abbreviation supervise config events rounds :=
  (supervise_with PeerProxy.relay_duration (λ _ : failure, "") config events rounds).

Definition retries_failures_and_stops_cleanly_on_cancellation : bool :=
  match supervise test_config None
          [fails (MissingResponse "test response") false; fails (MissingResponse "test response") false;
           fails PeerProxy.Cancelled true] with
  | Some (summary, _) =>
      assert_eq (attempts summary) 3%Z && assert_eq (failed_attempts summary) 2%Z &&
      assert_eq (completed_sessions summary) 0%Z
  | None => false
  end.

Definition shutdown_race_does_not_count_a_transport_failure : bool :=
  match supervise test_config None [fails (MissingResponse "shutdown race") true] with
  | Some (summary, _) =>
      assert_eq (attempts summary) 1%Z && assert_eq (failed_attempts summary) 0%Z &&
      assert_eq (completed_sessions summary) 0%Z
  | None => false
  end.

(** The last reported delay of the second attempt. *)
Definition second_retry (events : list SupervisorEvent) : option Z :=
  last (omap (λ e, match e with AttemptFailed 2 _ _ retry_in => Some retry_in | _ => None end) events).

Definition stable_relay_resets_backoff_even_when_transport_fails : bool :=
  let config := MkConfig (from_millis 10) (from_millis 40) (from_millis 30000) in
  match supervise config (Some [])
          [fails (RelayFailed (from_millis 31000) (RelayPeer tt)) false;
           fails (MissingResponse "test response") false; fails PeerProxy.Cancelled true] with
  | Some (_, Some events) =>
      match second_retry events with Some d => bool_decide (d ≤ from_millis 12)%Z | None => false end
  | _ => false
  end.

(** The session with a signaler that never has a reply. *)
Section with_test_signaler.
#[local] Existing Instance IceDemo.host_codec.
#[local] Existing Instance ProxyDemo.text_sdp.
Definition TestSignaler (A : Type) (o : peer_op string unit unit unit unit unit unit unit A) (s : unit) : A * unit :=
  match o with
  | Exchange _ _ _ => (Ok None, s)
  | SetRemoteDescription _ => (Ok tt, s)
  | CreateAnswer => (Ok "", s)
  | GatheringCompletePromise => (tt, s)
  | SetLocalDescription _ => (Ok tt, s)
  | GatheringComplete => (tt, s)
  | LocalDescription => (None, s)
  | PublishSessionId _ => (tt, s)
  | AddIceCandidate _ => (Ok tt, s)
  | WaitDataChannel _ => (TimedOut, s)
  | EgressConnect _ _ => (Err MissingSubprotocol, s)
  | Now => (0%Z, s)
  | RunRelay _ _ => (Ok PeerClosed, s)
  | NewPeerConnection _ _ => (Ok tt, s)
  | CloseConnection => (Ok tt, s)
  end.
Definition test_session : result PeerProxyOutcome failure :=
  (exec TestSignaler (run_peer_proxy_until_cancelled ProxyDemo.to_init (Ok tt) test_peer_proxy) tt).1.2.
End with_test_signaler.

(** The worker's attempt fails, its failure is seen, the token is cancelled while
    the worker sleeps and a callback of the session still holds its sender. *)
Definition pool_shuts_down_when_a_session_registers_a_state_callback : bool :=
  let config := MkConfig (from_millis 30000) (from_millis 30000) (from_millis 1000) in
  let run := pool_run PeerProxy.relay_duration (λ _ : failure, "") config in
  match run [Step 0 Go; Forward 0; Step 0 (Return test_session 0 0); Forward 0]
          (supervise_peer_proxy_pool config 1 (Some [])) with
  | Some pool =>
      let saw_failure := existsb (λ pe, match event pe with AttemptFailed _ _ _ _ => true | _ => false end)
                           (default [] (p_out pool)) in
      match run [Cancel; Callback 0 (PeerDisconnected ""); Step 0 WakeUp; Drain 0; Drain 0; Drain 0] pool with
      | Some pool =>
          match pool_result pool with
          | Some workers =>
              saw_failure && assert_eq (length workers) 1 && bool_decide (1 ≤ pool_attempts workers)%Z
          | None => false
          end
      | None => false
      end
  | None => false
  end.

Definition pool_summary_aggregates_worker_counts : bool :=
  let workers := [MkSummary 4 2 2; MkSummary 3 1 2] in
  assert_eq (pool_attempts workers) 7%Z && assert_eq (pool_completed_sessions workers) 3%Z &&
  assert_eq (pool_failed_attempts workers) 4%Z.

Example supervisor_tests_pass :
  [jitter_stays_within_twenty_percent; zero_backoff_is_made_nonzero;
   retries_failures_and_stops_cleanly_on_cancellation; shutdown_race_does_not_count_a_transport_failure;
   stable_relay_resets_backoff_even_when_transport_fails;
   pool_shuts_down_when_a_session_registers_a_state_callback; pool_summary_aggregates_worker_counts] =
  replicate 7 true.
Proof. vm_compute. reflexivity. Qed.
End SupervisorTests.

(** ** [peer_proxy.rs] *)
Module ProxyTests.
(** The candidate types by their names. *)
Inductive RTCIceCandidateType := TypUnspecified | Host | Srflx | Prflx | Relayed.
#[local] Instance RTCIceCandidateType_eq_dec : EqDecision RTCIceCandidateType.
Proof. solve_decision. Defined.
Definition type_text (t : RTCIceCandidateType) : string :=
  match t with
  | TypUnspecified => "unspecified" | Host => "host" | Srflx => "srflx" | Prflx => "prflx" | Relayed => "relay"
  end.
#[export] Instance type_codec : IceTypeCodec RTCIceCandidateType := {
  typ_to_json t := JStr (type_text t);
  typ_of_json j := s ← as_string j;
    head (filter (λ t, type_text t = s) [TypUnspecified; Host; Srflx; Prflx; Relayed])
}.

(** The candidate line of the WebRTC crate. *)
Definition protocol_text (p : RTCIceProtocol) : string :=
  match p with Udp => "udp" | Tcp => "tcp" | Unspecified => "unspecified" end.
Definition to_json (c : RTCIceCandidate RTCIceCandidateType) : result IceCandidateInit unit :=
  Ok (MkIceInit ("candidate:" +:+ foundation c +:+ " " +:+ pretty (component c) +:+ " " +:+
        protocol_text (protocol c) +:+ " " +:+ pretty (priority c) +:+ " " +:+ address c +:+ " " +:+
        pretty (port c) +:+ " typ " +:+ type_text (typ c)) (Some "") (Some 0%Z)).

Definition starts_with (p s : string) : bool := String.prefix p s.
Definition contains (p s : string) : bool := match String.index 0 p s with Some _ => true | None => false end.

(** A decoded candidate as the session adds it. *)
Definition candidate_init (text : string) : option IceCandidateInit :=
  candidate ← (j ← from_str text; pion_of_json j);
  match to_json (to_rust_candidate candidate) with
  | Ok init => Some (MkIceInit (init_candidate init) (p_sdp_mid candidate) (p_sdp_mline_index candidate))
  | Err _ => None
  end.

Definition decodes_pion_candidate_and_builds_rust_candidate_init : bool :=
  match candidate_init (raw "{
            'foundation':'1234',
            'priority':1694498815,
            'address':'203.0.113.8',
            'protocol':1,
            'port':54321,
            'type':'srflx',
            'component':1,
            'relatedAddress':'192.168.1.20',
            'relatedPort':60000,
            'tcpType':'',
            'sdpMid':'0',
            'sdpMLineIndex':0
        }") with
  | Some init =>
      starts_with "candidate:1234 1 udp" (init_candidate init) &&
      contains "203.0.113.8 54321 typ srflx" (init_candidate init) &&
      assert_eq (init_sdp_mid init) (Some "0") && assert_eq (init_sdp_mline_index init) (Some 0%Z)
  | None => false
  end.

Definition preserves_absent_pion_candidate_metadata : bool :=
  match candidate_init (raw "{
            'foundation':'1234',
            'priority':1694498815,
            'address':'203.0.113.8',
            'protocol':1,
            'port':54321,
            'type':'host',
            'component':1,
            'relatedAddress':'',
            'relatedPort':0,
            'tcpType':''
        }") with
  | Some init => assert_eq (init_sdp_mid init) None && assert_eq (init_sdp_mline_index init) None
  | None => false
  end.

Definition test_candidate (address : string) (port : Z) : RTCIceCandidate RTCIceCandidateType :=
  MkCandidate "" "" 0 address Unspecified port TypUnspecified 0 "" 0 "".

Definition reads_remote_socket_addr_from_ipv4_candidate : bool :=
  assert_eq (socket_addr_from_candidate (test_candidate "203.0.113.8" 54321))
    (Some (SocketAddrV4 (ipv4 203 0 113 8) 54321)).

Definition reads_remote_socket_addr_from_ipv6_candidate : bool :=
  assert_eq (socket_addr_from_candidate (test_candidate "2001:db8::1" 443))
    (Some (SocketAddrV6 0x20010db8000000000000000000000001 443 0 0)).

Definition unparseable_candidate_address_yields_no_remote : bool :=
  assert_eq (socket_addr_from_candidate (test_candidate "abc-123.local" 54321)) None.

Definition peer_connected_event_carries_session_id_and_remote : bool :=
  match peer_connected_event "session-42" (Some (test_candidate "203.0.113.8" 54321)) with
  | PeerConnected session_id remote =>
      assert_eq session_id "session-42" && assert_eq remote (Some (SocketAddrV4 (ipv4 203 0 113 8) 54321))
  | _ => false
  end.

Definition peer_connected_event_without_pair_has_no_remote : bool :=
  match peer_connected_event (Typ := RTCIceCandidateType) "session-42" None with
  | PeerConnected session_id remote => assert_eq session_id "session-42" && assert_eq remote None
  | _ => false
  end.

Definition peer_disconnected_event_carries_session_id : bool :=
  match peer_disconnected_event "session-42" with
  | PeerDisconnected session_id => assert_eq session_id "session-42"
  | _ => false
  end.

Definition only_terminal_states_are_disconnects : bool :=
  is_disconnect_state StDisconnected && is_disconnect_state StFailed && is_disconnect_state StClosed &&
  negb (is_disconnect_state StConnected) && negb (is_disconnect_state StConnecting) &&
  negb (is_disconnect_state StNew).

Definition identifies_terminal_peer_states : bool :=
  is_terminal_peer_state StDisconnected && is_terminal_peer_state StFailed && is_terminal_peer_state StClosed &&
  negb (is_terminal_peer_state StNew) && negb (is_terminal_peer_state StConnecting) &&
  negb (is_terminal_peer_state StConnected).

Definition terminal_peer_state_wakes_data_channel_wait : bool :=
  assert_eq (wait_value (fail_data_channel_wait StFailed (callbacks_new (D := unit) None))) (Some (Err StFailed)).

Definition rejects_unexpected_signaling_step : bool :=
  let signal := MkSignal "request" Answer "{}" in
  match expect_signal (X := unit) (W := unit) (V := unit) (E := unit) signal Offer with
  | Err (UnexpectedSignal _ _) => true
  | _ => false
  end.

(** The service takes the request and never answers; the session is waiting for it
    when the token is cancelled. *)
Section cancelled.
#[local] Existing Instance ProxyDemo.text_sdp.
Definition waits_for_reply {A} (p : prog (peer_op string unit unit unit unit unit unit unit) A) : bool :=
  match p with Await (Exchange _ Genesis _) _ => true | _ => false end.
Definition cancellation_interrupts_signaling_and_closes_the_session : bool :=
  let config := MkPeerProxyConfig "ws://127.0.0.1:1/ws" [] (from_millis 1000) false false in
  match run_peer_proxy_until_cancelled to_json (Ok tt) config with
  | Await (NewPeerConnection _ _) connected =>
      match connected (Ok tt) with
      | Cancellable session selected =>
          waits_for_reply session &&
          match selected None with
          | Await CloseConnection closed =>
              match closed (Ok tt) with Ret (Err PeerProxy.Cancelled) => true | _ => false end
          | _ => false
          end
      | _ => false
      end
  | _ => false
  end.
End cancelled.

Example proxy_tests_pass :
  [decodes_pion_candidate_and_builds_rust_candidate_init; preserves_absent_pion_candidate_metadata;
   reads_remote_socket_addr_from_ipv4_candidate; reads_remote_socket_addr_from_ipv6_candidate;
   unparseable_candidate_address_yields_no_remote; peer_connected_event_carries_session_id_and_remote;
   peer_connected_event_without_pair_has_no_remote; peer_disconnected_event_carries_session_id;
   only_terminal_states_are_disconnects; identifies_terminal_peer_states;
   terminal_peer_state_wakes_data_channel_wait; rejects_unexpected_signaling_step;
   cancellation_interrupts_signaling_and_closes_the_session] = replicate 13 true.
Proof. vm_compute. reflexivity. Qed.
End ProxyTests.

(** ** [consumer.rs] *)
Module ConsumerTests.
Import ProxyTests.

Definition candidate : RTCIceCandidate RTCIceCandidateType :=
  MkCandidate "" "1234" 1694498815 "203.0.113.8" Udp 54321 Srflx 1 "192.168.1.20" 60000 "".

(** [encoded["name"]]. *)
Definition member (name : string) (j : json) : option json :=
  match j with JObj fs => snd <$> head (filter (λ f, f.1 = name) fs) | _ => None end.

Definition serializes_pion_compatible_candidate_protocol_numbers : bool :=
  let encoded := consumer_candidate_to_json (from_rtc_candidate candidate) in
  match member "protocol" encoded, member "type" encoded, member "relatedAddress" encoded,
        member "sdpMid" encoded with
  | Some (JNum 1), Some (JStr typ), Some (JStr related), None =>
      assert_eq typ "srflx" && assert_eq related "192.168.1.20"
  | _, _, _, _ => false
  end.

(** The stream never opens, and the token is cancelled. *)
Definition cancellation_interrupts_advertisement_stream_creation : bool :=
  match select_genesis (X := unit) (W := unit) (E := unit) pred None [] with
  | Some (Err CCancelled) => true
  | _ => false
  end.

(** The peer: it advertises itself, answers the offer with its description, takes
    the candidates, and on the open channel sends one packet and closes. *)
Section peer_signaler.
#[local] Existing Instance ProxyDemo.text_sdp.
#[local] Existing Instance Script.transport.

(** [SingleAdvertisement]: the stream has one message.  The test's patience is zero,
    and runs out before the stream is read again. *)
Definition SingleAdvertisement : list (tick (X := unit)) :=
  [TickMessage (Ok (Some (MkSignal "genesis-request" Genesis "{}"))); TickPatience; TickMessage (Ok None)].

Definition answer_offer (payload : string) : result (option SignalMessage) (SignalingError unit) :=
  match (j ← from_str payload; sdp ← member "SDP" j; sdp_of_json sdp) with
  | Some _ => Ok (Some (MkSignal "ice-request" Answer (to_string (sdp_to_json "answer"))))
  | None => Err SignalDecode
  end.
Definition take_candidates (payload : string) : result (option SignalMessage) (SignalingError unit) :=
  match (j ← from_str payload; consumer_ice_of_json (Typ := RTCIceCandidateType) j) with
  | Some ice =>
      if decide (cm_session_id ice = "stable-consumer-id" ∧
                 Forall (λ c, is_ok (to_json (to_rtc_candidate c)) = true) (cm_candidates ice))
      then Ok None else Err SignalDecode
  | None => Err SignalDecode
  end.
Definition peer_packet : bytes :=
  string_bytes (to_string (packet_to_json (MkPacket "test-egress-path" (string_bytes "quic packet")))).
Definition peer_channel : Script.t := Script.Mk [Ok (Some peer_packet); Ok None] 9.

(** What the session shares with the rest of the consumer. *)
Record shared := MkShared {
  sh_allocator : Z;
  sh_socket : World Queue
}.

Abbreviation op := (consumer_op (Typ := RTCIceCandidateType) (Sdp := string) (D := Script.t)
                      (X := unit) (W := unit) (E := nat) (Api := unit)).
Definition PeerSignaler (A : Type) (o : op A) (s : shared) : A * shared :=
  match o with
  | SelectGenesis _ =>
      (default (Err NoGenesis) (select_genesis pred (Some (Ok tt)) SingleAdvertisement), s)
  | CreateOffer => (Ok "offer", s)
  | CExchangeOp _ Offer payload => (answer_offer payload, s)
  | CExchangeOp _ Ice payload => (take_candidates payload, s)
  | CExchangeOp _ _ _ => (Err SignalDecode, s)
  | CGatheringPromise => (tt, s)
  | CSetLocal _ => (Ok tt, s)
  | CSetRemote _ => (Ok tt, s)
  | CGatheringComplete => (tt, s)
  | GatheredCandidates => ([candidate], s)
  | CWaitDataChannel _ => (Resolved (Ok peer_channel), s)
  | Allocate =>
      let '(r, allocator) := allocate (sh_allocator s) in (r, MkShared allocator (sh_socket s))
  | RunPath remote capacity datagrams =>
      match run_consumer_path (E := nat) remote (Z.to_nat capacity) [Wake false; Wake false] datagrams
              (sh_socket s) with
      | Some (Some r, st) => (r, MkShared (sh_allocator s) (ps_world st))
      | _ => (Err Decode, s)
      end
  | CNewPeerConnection _ _ => (Ok tt, s)
  | CCreateDataChannel _ _ => (Ok tt, s)
  | CCloseConnection => (Ok tt, s)
  end.

Definition completes_consumer_signaling_and_opens_a_peer_path : bool :=
  match new (chan := Queue) (SocketAddrV4 (ipv4 100 64 0 1) 7000) with
  | None => false
  | Some socket =>
      let '(_, r, s) :=
        exec PeerSignaler (run_consumer_session (Ok tt) (consumer_config_new "stable-consumer-id"))
          (MkShared allocator_new socket) in
      match r with
      | Ok outcome =>
          assert_eq (Consumer.remote outcome) (SocketAddrV4 (ipv4 100 64 0 2) 443) &&
          assert_eq (path_end outcome) PathPeerClosed
      | _ => false
      end
  end.
End peer_signaler.

Example consumer_tests_pass :
  [serializes_pion_compatible_candidate_protocol_numbers; cancellation_interrupts_advertisement_stream_creation;
   completes_consumer_signaling_and_opens_a_peer_path] = replicate 3 true.
Proof. vm_compute. reflexivity. Qed.
End ConsumerTests.

(** ** [bin/peer-proxy.rs] *)
Module SettingsTests.
Definition parses_boolean_aliases_and_preserves_default_for_unknown_values : bool :=
  forallb (λ value, parse_boolean value false) ["1"; "true"; "YES"; "on"; "enable"; "randomize"] &&
  forallb (λ value, negb (parse_boolean value true)) ["0"; "false"; "NO"; "off"; "disable"; "disabled"] &&
  parse_boolean "unexpected" true && negb (parse_boolean "unexpected" false).

Example settings_tests_pass : parses_boolean_aliases_and_preserves_default_for_unknown_values = true.
Proof. vm_compute. reflexivity. Qed.
End SettingsTests.
